(* ===== verification/_CoqProject ===== *)
-Q . S2P
Prelude.v
Noraft.v
State.v
Metrics.v
Crc32c.v
Codec.v
Format.v
DecodeSound.v
CodecCorrect.v
Fs.v
Frame.v
FrameTheorems.v
Text.v
Segment.v
Replay.v
Recovery.v
ReplayCorrect.v
RecoveryCorrect.v
Json.v
Registry.v
Checkpoint.v
Engine.v
ReadOnly.v
WriterCorrect.v
MetadataCorrect.v
EngineCorrect.v
NodeCorrect.v
EngineSpec.v
Surface.v
AsyncStore.v
JsonExample.v
MetricsJson.v
EngineExample.v
EngineTheorems.v
SegmentTheorems.v
ReplayTheorems.v
Faults.v
Termination.v
FuzzTarget.v
UnitTests.v
MetadataFaults.v
GcFaults.v
LoadCorrect.v
OpenCorrect.v
Durability.v
DurableWriter.v
DurableMetadata.v
Tidy.v
DurableGc.v
GcProgress.v
Reads.v
Meters.v
DurableEngine.v
Reopen.v
DurableOps.v
OpenSteps.v
Interrupted.v
Restarts.v
CrashRecovery.v
History.v
ReadOnlyTheorems.v
Bounds.v
OpenBounds.v
Events.v
Accounting.v
OpenTheorems.v
Findings.v
