(* ===== verification/Prelude.v ===== *)
(** * A verification of sukari: Raft storage over append segments

    Sukari stores the persistent state of many Raft nodes in one directory: a
    shared sequence of append segments ([append-<id>.segment]) that hold all
    records of all nodes, a node registry ([nodes.json]), a checkpoint index
    ([checkpoints.json]) and a lock file ([write.lock]).  This development
    models the crate under [src/src] and proves what its callers rely on.

    ** How the parts interact

    The engine appends a record to the active segment through the segment
    writer, which rotates to a new segment when the active one is full.  A
    node's state is the replay of its records; a checkpoint record replaces all
    earlier records of its node, so replay starts at the last one, which the
    index helps to find.  Garbage collection deletes segments that lie before
    the checkpoints of all active nodes.  Opening a directory takes the lock,
    cuts a torn end off the active segment, and loads the registry and the
    index.  The read-only functions do the same without lock or repair.

    ** Files and sources

    - [Prelude]: bytes, machine integers ([N] with their limits), results with
      the error kinds of [std::io], the state and error monad [M], loops with
      fuel, ordered iteration of maps.
    - [Noraft]: the interface of the [noraft] crate (log entries, cluster
      configurations), a parameter with laws and a list instance.
    - [Fs]: the part of [std::fs] the sources call, with failing calls and with
      what a crash leaves of unsynced data.  [Text]: decimal integers and UTF-8.
    - [State]: [bytes.rs], [error.rs], and of [storage.rs] the stored values, [NodeState]
      and [apply_record_to_state].  [Crc32c]: [crc32c.rs].
    - [Codec], [Frame]: [codec.rs], the record codec and the frames in files.
      [Format] is the documented format as functions, [DecodeSound] and
      [CodecCorrect], [FrameTheorems] their properties.
    - [Segment]: [segment.rs], names, discovery, header, [SegmentWriter].
    - [Replay]: of [storage.rs] the scans (recovery, checkpoint search, replay).
      [Recovery] says what each loop does on a file, [RecoveryCorrect] and
      [ReplayCorrect] on a directory.
    - [Json]: the interface of the [nojson] crate, a parameter with laws, and
      the metadata files; [JsonExample] is an instance.  [Registry]:
      [registry.rs].  [Checkpoint]: the checkpoint index of [storage.rs].
    - [Engine]: [StorageEngine] of [storage.rs].  [ReadOnly]: its functions [load],
      [load_all] and [nodes].
    - [Metrics], [MetricsJson]: [metrics.rs], the counters and their rendering.
    - [FuzzTarget]: [fuzz/fuzz_targets/fuzz_segment.rs], with its temporary
      directories.  [UnitTests]: the tests in [codec.rs] and [crc32c.rs], run.

    A function of the sources is a definition of the same name, in the monad
    over the state it works on: [Io] (one open file), [World] (the directory
    and the counters), [WriterState] (with the segment writer), [EngineState]
    (with the engine).  [&mut self] methods of the counters are functions on
    [StorageMetrics].  Names that several structs use are prefixed
    ([registry_load], [index_load], [writer_append]).

    ** The theorems

    - The engine: [EngineSpec] states the abstract store, a map from node IDs to
      node states, and [EngineTheorems] that the engine refines it while calls
      succeed; what saving, creating, removing, snapshots and loads do.
      [EngineCorrect] and [NodeCorrect] hold the invariant [engine_ok] behind it.
    - The log: [SegmentTheorems] (append, rotation, sync, discovery, names) over
      [WriterCorrect]; [ReplayTheorems] (hints do not change what is loaded).
    - Opening and recovery: [RecoveryCorrect] (torn ends), [OpenTheorems] over
      [OpenCorrect] and [LoadCorrect] (the directory, registry and index survive
      a restart, the lock).
    - Formats: [CodecCorrect], [FrameTheorems], [Crc32c], [MetricsJson] (round
      trips, rejection of damaged data, equivalence with the references).
    - Node states: [State] (invariant of replayed states, appends, checkpoints).
    - Failures: [Faults] has the rules; [MetadataFaults] (metadata files are
      replaced atomically), [GcFaults] (only superseded segments go),
      [Surface] (no failure is hidden), [Termination] (the loops stop on any
      bytes under any failures), [Bounds] and [OpenBounds] (every number that
      opening reads or an operation computes is a 64-bit integer, and of the checked
      additions of an append only that of the last segment ID fails), [Findings]
      (what a restart does not make durable).
    - Counters: [Events] has the events that operations stand for and what each
      adds to which counter, independently of the code's counter functions, and
      [Accounting] states that the counters after any operations under any
      failures are the totals of their events, and what the gauges show; [Meters]
      says which programs leave which counters alone.
    - Crashes: [AsyncStore] splits the abstract store into what a crash cannot
      take away and the pending records; [CrashRecovery] states that a run of
      operations under any failures, a stop at any point, openings that fail or
      are stopped in turn and opening the directory at last give an outcome of
      it, and [History] iterates this over the lives of a directory. Below them,
      [Durability] says what a stop leaves of a directory, [DurableWriter] of an
      append, a sync and a rotation, [DurableMetadata] of a saved metadata file,
      [DurableGc] of garbage collection, and [GcProgress] that nothing
      superseded is left; [Reads] that loads change nothing, also when they
      fail; [DurableEngine] and [DurableOps] put them together per operation;
      [Reopen] says what opening makes durable, also of a new directory;
      [OpenSteps] which changes leave a directory that opens alike,
      [Interrupted] that an opening makes only such changes wherever it fails,
      [Restarts] that any number of them do, over directories whose segment
      files keep their inodes ([Tidy], for any property that single calls keep).
    - Readers: [ReadOnlyTheorems] (beside an engine they report what it holds,
      after a stop what opening would recover, and they change nothing).

    ** Bounds and fuel

    Integers are [N]; additions that the sources check are checked against
    [U64_LIMIT] or [U32_LIMIT], counters saturate.  The loops over records take
    [record_loop_fuel] turns: each but the last passes a frame header of eight
    bytes, so the length of the file divided by eight, plus two, is enough
    ([Termination]).  [scan_body_fuel] and the fuel of [frames_parse] are
    bounded by the length of a body in the same way.  The other recursions are
    structural.  [usize] is 64 bits wide.

    ** Failures and crashes

    Each call to the operating system takes its outcome from a list that is
    universally quantified: it proceeds, or fails after part of its effect.
    Files and the directory remember their versions since the last sync.  A
    process that dies leaves them as they are, unsynced ([halted]); a
    crash leaves any of them ([crash]), a write or a truncation possibly in
    part.  Two files of a crash are independent of each other, and a name that
    was created, renamed or removed without a sync of the directory may be
    found in its old or its new state, in the order of the calls.  That the
    storage directory itself keeps its name is assumed of a crash; whether it was
    synced in its parent is tracked apart ([fs_root_synced]), and [CrashRecovery]
    says when the assumption holds of a crash that may take the directory too
    ([crash_with_name]).  The directories above it are taken to be there: of the
    several that [create_dir_all] may create, only the last one's name is synced.

    ** Not modelled

    [lib.rs] and [docs.rs] hold re-exports and documents.  The integration tests
    under [tests] call the crate from outside and are not modelled.  [Arc]'s
    sharing is not observable.  Paths are the names in one directory; a storage directory that
    other programs modify while the engine runs is outside the model, as are
    subdirectories, permissions and partial failures of [read_dir]'s entries
    beyond an error of the call.  Error messages of the system and of [nojson]
    are not distinguished. *)
From Stdlib Require Export NArith Lia.
From Stdlib Require Import Strings.Byte.
From stdpp Require Export base tactics option list list_numbers sorting gmap strings numbers.

#[export] Set Warnings "-clear-no-such-hyp".

#[global] Open Scope N_scope.

(** ** Bytes and little-endian integers *)

Abbreviation byte := Corelib.Init.Byte.byte.

#[global] Instance byte_eq_dec : EqDecision byte := Byte.byte_eq_dec.

Definition byte_to_N (b : byte) : N := Byte.to_N b.

(** The low eight bits of [n], Rust's [n as u8]. *)
Definition byte_of_N (n : N) : byte :=
  match Byte.of_N (n mod 256) with Some b => b | None => Byte.x00 end.

(** [to_le_bytes] of an integer of [k] bytes. *)
Fixpoint le_bytes (k : nat) (n : N) : list byte :=
  match k with
  | O => []
  | S k => byte_of_N n :: le_bytes k (n / 256)
  end.

(** [from_le_bytes]. *)
Fixpoint from_le (bs : list byte) : N :=
  match bs with
  | [] => 0
  | b :: bs => byte_to_N b + 256 * from_le bs
  end.

(** Length of a slice as a [usize]. *)
Definition lenN {A} (l : list A) : N := N.of_nat (length l).

(** Slicing with [N] offsets. *)
Definition takeN {A} (n : N) (l : list A) : list A := take (N.to_nat n) l.
Definition dropN {A} (n : N) (l : list A) : list A := drop (N.to_nat n) l.

(** ** Machine integers *)

Definition U8_LIMIT : N := 2 ^ 8.
Definition U32_LIMIT : N := 2 ^ 32.
Definition U64_LIMIT : N := 2 ^ 64.

(** [u64::MAX]. *)
Definition u64_max : N := U64_LIMIT - 1.

Definition u32_checked_add (a b : N) : option N :=
  if a + b <? U32_LIMIT then Some (a + b) else None.
Definition u64_checked_add (a b : N) : option N :=
  if a + b <? U64_LIMIT then Some (a + b) else None.
Definition u64_saturating_add (a b : N) : N := N.min (a + b) u64_max.

(** [usize] is 64 bits wide on the supported targets. *)
Definition usize_checked_add (a b : N) : option N := u64_checked_add a b.
Definition u32_try_from (n : N) : option N := if n <? U32_LIMIT then Some n else None.
Definition u64_try_from (n : N) : option N := if n <? U64_LIMIT then Some n else None.

(** ** [std::io] errors and results *)

Inductive ErrorKind :=
  | NotFound | AlreadyExists | WouldBlock | InvalidInput | InvalidData
  | UnexpectedEof | NotADirectory | OtherError.

#[global] Instance ErrorKind_eq_dec : EqDecision ErrorKind.
Proof. solve_decision. Defined.

(** What an [io::Error] carries besides its kind: a static message, a JSON
    parse error (whose contents belong to the JSON crate and are not
    inspected), or an error of the operating system.  [FuelExhausted] never
    comes from the code: it marks a modelled loop that ran out of fuel, and
    the theorems on the loops show that it does not occur. *)
Inductive ErrorPayload :=
  | Message (text : string)
  | JsonError
  | OsError
  | FuelExhausted.

#[global] Instance ErrorPayload_eq_dec : EqDecision ErrorPayload.
Proof. solve_decision. Defined.

Record io_error := IoError { error_kind : ErrorKind; error_payload : ErrorPayload }.

#[global] Instance io_error_eq_dec : EqDecision io_error.
Proof. solve_decision. Defined.

Inductive result (A : Type) := Ok (a : A) | Err (e : io_error).
Arguments Ok {A} _.
Arguments Err {A} _.

#[global] Instance result_eq_dec {A} `{EqDecision A} : EqDecision (result A).
Proof. solve_decision. Defined.

Definition is_ok {A} (r : result A) : bool := match r with Ok _ => true | Err _ => false end.

(** ** The state-and-error monad

    A Rust function that takes [&mut] arguments and returns [io::Result<A>] is
    a function from the state it may change to its result and the state it
    leaves; the changes made before an early return stay. *)

Definition M (S A : Type) : Type := S → result A * S.

#[global] Instance M_ret {S} : MRet (M S) := λ A a s, (Ok a, s).
#[global] Instance M_bind {S} : MBind (M S) := λ A B f m s,
  match m s with
  | (Ok a, s') => f a s'
  | (Err e, s') => (Err e, s')
  end.

Definition throw {S A} (e : io_error) : M S A := λ s, (Err e, s).
Definition get_state {S} : M S S := λ s, (Ok s, s).
Definition modify {S} (f : S → S) : M S () := λ s, (Ok (), f s).
Definition lift_result {S A} (r : result A) : M S A := λ s, (r, s).

(** [match m { Ok(..) => .., Err(..) => .. }]: the result as a value. *)
Definition try_catch {S A} (m : M S A) : M S (result A) :=
  λ s, let '(r, s') := m s in (Ok r, s').

(** [.map_err(f)]. *)
Definition map_err {S A} (f : io_error → io_error) (m : M S A) : M S A :=
  λ s, let '(r, s') := m s in
       (match r with Ok a => Ok a | Err e => Err (f e) end, s').

(** Runs a computation on a component of the state. *)
Definition zoom {S T A} (get : S → T) (set : T → S → S) (m : M T A) : M S A :=
  λ s, let '(r, t) := m (get s) in (r, set t s).

(** [for x in xs { body(x)? }]. *)
Fixpoint for_each {S A} (xs : list A) (body : A → M S ()) : M S () :=
  match xs with
  | [] => mret ()
  | x :: xs => body x ;; for_each xs body
  end.

(** [for _ in 0..n { acc = body(acc)? }]. *)
Fixpoint repeat_fold {S A} (n : nat) (body : A → M S A) (acc : A) : M S A :=
  match n with
  | O => mret acc
  | S n => acc' ← body acc; repeat_fold n body acc'
  end.

(** [loop { .. }], with the loop's variables in the state: the body returns
    [Some] to break with a value and [None] to go round again. *)
Fixpoint loop_fuel {S A} (fuel : nat) (body : M S (option A)) : M S A :=
  match fuel with
  | O => throw (IoError OtherError FuelExhausted)
  | S fuel =>
      r ← body;
      match r with
      | Some a => mret a
      | None => loop_fuel fuel body
      end
  end.

(** ** Ordered maps and sets of the standard library

    [BTreeMap<u64-newtype, V>] is a finite map read in ascending key order. *)

Definition key_le {V} (p q : N * V) : Prop := p.1 ≤ q.1.
#[global] Instance key_le_dec {V} (p q : N * V) : Decision (key_le p q).
Proof. unfold key_le. apply _. Defined.

Definition btree_iter {V} (m : gmap N V) : list (N * V) := merge_sort key_le (map_to_list m).
Definition btree_elements (X : gset N) : list N := merge_sort N.le (elements X).

(** [m.insert(k, v)] of the standard maps: the old value and the new map. *)
Definition btree_insert {V} (k : N) (v : V) (m : gmap N V) : option V * gmap N V :=
  (m !! k, <[k := v]> m).

(** ** Lemmas on bytes and little-endian integers *)

Lemma byte_to_N_bound b : byte_to_N b < 256.
Proof. pose proof (Byte.to_N_bounded b). unfold byte_to_N. lia. Qed.

Lemma byte_of_N_to_N b : byte_of_N (byte_to_N b) = b.
Proof.
  unfold byte_of_N. rewrite N.mod_small by apply byte_to_N_bound.
  unfold byte_to_N. by rewrite Byte.of_to_N.
Qed.

Lemma byte_to_of_N n : byte_to_N (byte_of_N n) = n mod 256.
Proof.
  unfold byte_of_N, byte_to_N. destruct (Byte.of_N (n mod 256)) as [b|] eqn:E.
  - by apply Byte.to_of_N.
  - apply Byte.of_N_None_iff in E. pose proof (N.mod_lt n 256). lia.
Qed.

#[global] Instance byte_to_N_inj : Inj (=) (=) byte_to_N.
Proof. intros a b H. by rewrite <-(byte_of_N_to_N a), <-(byte_of_N_to_N b), H. Qed.

Lemma le_bytes_length k n : length (le_bytes k n) = k.
Proof. revert n. induction k as [|k IH]; intros n; simpl; [done|]. by rewrite IH. Qed.

Lemma lenN_le_bytes k n : lenN (le_bytes k n) = N.of_nat k.
Proof. unfold lenN. by rewrite le_bytes_length. Qed.

Lemma from_le_bound bs : from_le bs < 256 ^ lenN bs.
Proof.
  unfold lenN. induction bs as [|b bs IH]; simpl length; [vm_compute; done|].
  cbn [from_le]. pose proof (byte_to_N_bound b).
  rewrite Nat2N.inj_succ, N.pow_succ_r'. lia.
Qed.

Lemma from_le_le_bytes_mod k n : from_le (le_bytes k n) = n mod 256 ^ N.of_nat k.
Proof.
  revert n. induction k as [|k IH]; intros n.
  - cbn [le_bytes from_le]. change (256 ^ N.of_nat 0) with 1. by rewrite N.mod_1_r.
  - cbn [le_bytes from_le]. rewrite byte_to_of_N, IH, Nat2N.inj_succ, N.pow_succ_r'.
    rewrite N.Div0.mod_mul_r. done.
Qed.

Lemma from_le_le_bytes k n : n < 256 ^ N.of_nat k → from_le (le_bytes k n) = n.
Proof. intros H. rewrite from_le_le_bytes_mod. by apply N.mod_small. Qed.

Lemma le_bytes_from_le bs : le_bytes (length bs) (from_le bs) = bs.
Proof.
  induction bs as [|b bs IH]; simpl length; [done|].
  cbn [le_bytes from_le]. pose proof (byte_to_N_bound b) as Hb.
  f_equal.
  - unfold byte_of_N.
    replace ((byte_to_N b + 256 * from_le bs) mod 256) with (byte_to_N b).
    + unfold byte_to_N. by rewrite Byte.of_to_N.
    + rewrite N.mul_comm, N.Div0.mod_add, N.mod_small; done.
  - replace ((byte_to_N b + 256 * from_le bs) / 256) with (from_le bs); [done|].
    rewrite N.mul_comm, N.div_add, N.div_small; lia.
Qed.

(** ** Lemmas on lengths and offsets *)

Lemma lenN_nil {A} : lenN (@nil A) = 0.
Proof. done. Qed.
Lemma lenN_cons {A} (x : A) l : lenN (x :: l) = 1 + lenN l.
Proof. unfold lenN. simpl length. lia. Qed.
Lemma lenN_app {A} (l1 l2 : list A) : lenN (l1 ++ l2) = lenN l1 + lenN l2.
Proof. unfold lenN. rewrite length_app. lia. Qed.
Lemma takeN_0 {A} (l : list A) : takeN 0 l = [].
Proof. done. Qed.
Lemma dropN_0 {A} (l : list A) : dropN 0 l = l.
Proof. done. Qed.
Lemma takeN_app_exact {A} (l1 l2 : list A) : takeN (lenN l1) (l1 ++ l2) = l1.
Proof. unfold takeN, lenN. rewrite Nat2N.id. apply take_app_length. Qed.
Lemma dropN_app_exact {A} (l1 l2 : list A) : dropN (lenN l1) (l1 ++ l2) = l2.
Proof. unfold dropN, lenN. rewrite Nat2N.id. apply drop_app_length. Qed.
Lemma lenN_takeN {A} n (l : list A) : lenN (takeN n l) = N.min n (lenN l).
Proof. unfold takeN, lenN. rewrite length_take. lia. Qed.
Lemma lenN_dropN {A} n (l : list A) : lenN (dropN n l) = lenN l - n.
Proof. unfold dropN, lenN. rewrite length_drop. lia. Qed.
Lemma takeN_dropN {A} n (l : list A) : takeN n l ++ dropN n l = l.
Proof. apply take_drop. Qed.
Lemma takeN_all {A} n (l : list A) : lenN l ≤ n → takeN n l = l.
Proof. unfold takeN, lenN. intros. apply take_ge. lia. Qed.
Lemma dropN_all {A} n (l : list A) : lenN l ≤ n → dropN n l = [].
Proof. unfold dropN, lenN. intros. apply drop_ge. lia. Qed.
Lemma dropN_dropN {A} n m (l : list A) : dropN n (dropN m l) = dropN (m + n) l.
Proof. unfold dropN. rewrite drop_drop. f_equal. lia. Qed.
Lemma dropN_app_ge {A} n (l1 l2 : list A) :
  lenN l1 ≤ n → dropN n (l1 ++ l2) = dropN (n - lenN l1) l2.
Proof. unfold dropN, lenN. intros. rewrite drop_app_ge by lia. f_equal. lia. Qed.

Create HintDb sukari.
Create Rewrite HintDb sukari_len.
#[export] Hint Rewrite @lenN_nil @lenN_cons @lenN_app @lenN_takeN @lenN_dropN lenN_le_bytes
  : sukari_len.

(** Normalises lengths, then closes with [lia]. *)
Ltac len := autorewrite with sukari_len in *; simpl N.of_nat in *; lia.

(** ** Lemmas on the monad *)

(** The weakest precondition of a computation: the postcondition holds of its
    result and of the state it leaves. *)
Definition wp {S A} (m : M S A) (s : S) (Q : result A → S → Prop) : Prop :=
  Q (m s).1 (m s).2.

(** Runs the first computation of a sequence whose outcome is known. *)
Lemma bind_ok {S A B} (m : M S A) (f : A → M S B) s a s' :
  m s = (Ok a, s') → (m ≫= f) s = f a s'.
Proof. intros H. unfold mbind, M_bind. by rewrite H. Qed.

Lemma bind_err {S A B} (m : M S A) (f : A → M S B) s e s' :
  m s = (Err e, s') → (m ≫= f) s = (Err e, s').
Proof. intros H. unfold mbind, M_bind. by rewrite H. Qed.

Lemma bind_ok_inv {S A B} (m : M S A) (f : A → M S B) s b s' :
  (m ≫= f) s = (Ok b, s') → ∃ a s1, m s = (Ok a, s1) ∧ f a s1 = (Ok b, s').
Proof.
  unfold mbind, M_bind. destruct (m s) as [[a|e] s1]; intros H; [eauto|done].
Qed.

Lemma loop_fuel_step {S A} fuel (body : M S (option A)) s :
  loop_fuel (Datatypes.S fuel) body s =
  match body s with
  | (Ok (Some a), s') => (Ok a, s')
  | (Ok None, s') => loop_fuel fuel body s'
  | (Err e, s') => (Err e, s')
  end.
Proof.
  cbn [loop_fuel]. unfold mbind, M_bind. by destruct (body s) as [[[a|]|e] s'].
Qed.

Section wp_rules.
Context {S : Type}.
Implicit Types (s : S).

Lemma wp_ret {A} (a : A) s Q : Q (Ok a) s → wp (S:=S) (mret a) s Q.
Proof. done. Qed.

Lemma wp_throw {A} e s (Q : result A → S → Prop) : Q (Err e) s → wp (throw e) s Q.
Proof. done. Qed.

Lemma wp_bind {A B} (m : M S A) (f : A → M S B) s Q :
  wp m s (λ r s', match r with Ok a => wp (f a) s' Q | Err e => Q (Err e) s' end) →
  wp (m ≫= f) s Q.
Proof. unfold wp, mbind, M_bind. by destruct (m s) as [[a|e] s']. Qed.

Lemma wp_mono {A} (m : M S A) s (P Q : result A → S → Prop) :
  wp m s P → (∀ r s', P r s' → Q r s') → wp m s Q.
Proof. unfold wp. auto. Qed.

Lemma wp_zoom {T A} (get : S → T) set (m : M T A) s (Q : result A → S → Prop) :
  wp m (get s) (λ r t, Q r (set t s)) → wp (zoom get set m) s Q.
Proof. unfold wp, zoom. by destruct (m (get s)). Qed.

Lemma wp_try_catch {A} (m : M S A) s (Q : result (result A) → S → Prop) :
  wp m s (λ r s', Q (Ok r) s') → wp (try_catch m) s Q.
Proof. unfold wp, try_catch. by destruct (m s). Qed.
End wp_rules.
