(* ===== verification/Noraft.v ===== *)
(** * The interface of the [noraft] crate

    [noraft] is a dependency, not part of the repository.  The data that the
    sources build with struct literals or match exhaustively ([LogPosition],
    [ClusterConfig], [LogEntry]) is modelled as they use it; the [u64] newtypes
    ([NodeId], [Term], [LogIndex]), which they only build with [new] and read
    with [get], are [N].  Everything else is a parameter: the class [Noraft]
    has the operations the sources call and [NoraftLaws] what they rely on. *)
From S2P Require Import Prelude.

Record LogPosition := mkLogPosition { pos_term : N; pos_index : N }.

#[global] Instance LogPosition_eq_dec : EqDecision LogPosition.
Proof. solve_decision. Defined.

Record ClusterConfig := mkClusterConfig {
  voters : gset N;
  new_voters : gset N;
  non_voters : gset N;
}.

#[global] Instance ClusterConfig_eq_dec : EqDecision ClusterConfig.
Proof. solve_decision. Defined.

Inductive LogEntry :=
  | LogTerm (term : N)
  | LogClusterConfig (config : ClusterConfig)
  | LogCommand.

#[global] Instance LogEntry_eq_dec : EqDecision LogEntry.
Proof. solve_decision. Defined.

(** The operations of [noraft] that the sources call. *)
Class Noraft := {
  LogEntries : Type;
  Log : Type;
  TERM_ZERO : N;
  POSITION_ZERO : LogPosition;
  config_new : ClusterConfig;
  index_checked_add : N → N → option N;
  entries_new : LogPosition → LogEntries;
  entries_push : LogEntries → LogEntry → LogEntries;
  entries_prev_position : LogEntries → LogPosition;
  entries_last_position : LogEntries → LogPosition;
  entries_len : LogEntries → N;
  entries_iter : LogEntries → list LogEntry;
  entries_iter_with_positions : LogEntries → list (LogPosition * LogEntry);
  entries_get_entry : LogEntries → N → option LogEntry;
  entries_since : LogEntries → LogPosition → option LogEntries;
  log_new : ClusterConfig → LogEntries → Log;
  log_entries : Log → LogEntries;
  (** The configuration a log starts with ([Log::snapshot_config]); the sources
      do not read it, it says what they pass to [Log::new]. *)
  log_snapshot_config : Log → ClusterConfig;
  (** [Log::append_suffix(&mut self, &entries) -> bool]. *)
  log_append_suffix : Log → LogEntries → bool * Log;
}.

(** Entries with the indices they have from [i] on. *)
Fixpoint indexed (i : N) (entries : list LogEntry) : list (N * LogEntry) :=
  match entries with
  | [] => []
  | entry :: entries => (i, entry) :: indexed (i + 1) entries
  end.

(** The term in force after [entries] that follow a position of term [term]. *)
Definition term_after (term : N) (entries : list LogEntry) : N :=
  foldl (λ t entry, match entry with LogTerm t' => t' | _ => t end) term entries.

Section positions.
Context `{Noraft}.

(** The indices of the entries are [u64]s. *)
Definition entries_fit (e : LogEntries) : Prop :=
  pos_index (entries_prev_position e) + entries_len e < U64_LIMIT.

(** [p] is the anchor of [e] or the position of one of its entries. *)
Definition entries_contain (e : LogEntries) (p : LogPosition) : Prop :=
  let prev := entries_prev_position e in
  pos_index prev ≤ pos_index p ≤ pos_index prev + entries_len e ∧
  pos_term p = term_after (pos_term prev)
                 (takeN (pos_index p - pos_index prev) (entries_iter e)).

#[global] Instance entries_contain_dec e p : Decision (entries_contain e p).
Proof. unfold entries_contain. apply _. Defined.
End positions.

(** What the sources rely on: a [LogEntries] is its anchor and its entries in
    index order, [since] cuts it at a position it contains, and
    [append_suffix] replaces what follows the anchor of the suffix, provided
    the log contains that anchor; a log keeps the configuration it was made
    with. *)
Class NoraftLaws `(NR : Noraft) : Prop := {
  TERM_ZERO_eq : TERM_ZERO = 0;
  POSITION_ZERO_eq : POSITION_ZERO = mkLogPosition 0 0;
  config_new_eq : config_new = mkClusterConfig ∅ ∅ ∅;
  index_checked_add_eq a b : index_checked_add a b = u64_checked_add a b;
  entries_len_iter e : entries_len e = lenN (entries_iter e);
  entries_prev_new p : entries_prev_position (entries_new p) = p;
  entries_iter_new p : entries_iter (entries_new p) = [];
  entries_prev_push e x :
    pos_index (entries_prev_position e) + entries_len e + 1 < U64_LIMIT →
    entries_prev_position (entries_push e x) = entries_prev_position e;
  entries_iter_push e x :
    pos_index (entries_prev_position e) + entries_len e + 1 < U64_LIMIT →
    entries_iter (entries_push e x) = entries_iter e ++ [x];
  entries_ext e1 e2 :
    entries_prev_position e1 = entries_prev_position e2 →
    entries_iter e1 = entries_iter e2 → e1 = e2;
  entries_last_index e :
    entries_fit e →
    pos_index (entries_last_position e) = pos_index (entries_prev_position e) + entries_len e;
  entries_positions_indices e :
    entries_fit e →
    (λ p, (pos_index p.1, p.2)) <$> entries_iter_with_positions e =
    indexed (pos_index (entries_prev_position e) + 1) (entries_iter e);
  entries_get_entry_eq e i :
    entries_fit e →
    entries_get_entry e i =
    if decide (i ≤ pos_index (entries_prev_position e)) then None
    else entries_iter e !! N.to_nat (i - pos_index (entries_prev_position e) - 1);
  entries_since_Some e p e' :
    entries_fit e → entries_since e p = Some e' →
    entries_contain e p ∧ entries_prev_position e' = p ∧
    entries_iter e' = dropN (pos_index p - pos_index (entries_prev_position e)) (entries_iter e);
  entries_since_None e p :
    entries_fit e → entries_since e p = None → ¬ entries_contain e p;
  log_entries_new c e : log_entries (log_new c e) = e;
  log_snapshot_config_new c e : log_snapshot_config (log_new c e) = c;
  log_snapshot_config_append l e :
    log_snapshot_config (log_append_suffix l e).2 = log_snapshot_config l;
  log_append_suffix_true l e :
    entries_fit (log_entries l) → entries_fit e →
    entries_contain (log_entries l) (entries_prev_position e) →
    (log_append_suffix l e).1 = true ∧
    let e' := log_entries (log_append_suffix l e).2 in
    let prev := entries_prev_position (log_entries l) in
    entries_prev_position e' = prev ∧
    entries_iter e' =
      takeN (pos_index (entries_prev_position e) - pos_index prev)
            (entries_iter (log_entries l)) ++ entries_iter e;
  log_append_suffix_false l e :
    entries_fit (log_entries l) → entries_fit e →
    ¬ entries_contain (log_entries l) (entries_prev_position e) →
    log_append_suffix l e = (false, l);
}.

(** ** A list instance

    The laws are satisfiable: entries as an anchor and a list.  The witnesses
    of the theorems run on this instance. *)
Module ListLog.

Record Entries := mkEntries { prev : LogPosition; items : list LogEntry }.
Record RaftLog := mkLog { config : ClusterConfig; entries : Entries }.

#[global] Instance Entries_eq_dec : EqDecision Entries.
Proof. solve_decision. Defined.
#[global] Instance RaftLog_eq_dec : EqDecision RaftLog.
Proof. solve_decision. Defined.

Definition contains (e : Entries) (p : LogPosition) : bool :=
  bool_decide (pos_index (prev e) ≤ pos_index p ≤ pos_index (prev e) + lenN (items e) ∧
               pos_term p = term_after (pos_term (prev e))
                              (takeN (pos_index p - pos_index (prev e)) (items e))).

Definition position_of (e : Entries) (i : N) : LogPosition :=
  mkLogPosition (term_after (pos_term (prev e)) (takeN (i - pos_index (prev e)) (items e))) i.

Definition get_entry (e : Entries) (i : N) : option LogEntry :=
  if decide (i ≤ pos_index (prev e)) then None
  else items e !! N.to_nat (i - pos_index (prev e) - 1).

Definition since (e : Entries) (p : LogPosition) : option Entries :=
  if contains e p
  then Some (mkEntries p (dropN (pos_index p - pos_index (prev e)) (items e)))
  else None.

Definition append_suffix (l : RaftLog) (e : Entries) : bool * RaftLog :=
  if contains (entries l) (prev e)
  then (true, mkLog (config l) (mkEntries (prev (entries l))
          (takeN (pos_index (prev e) - pos_index (prev (entries l))) (items (entries l))
           ++ items e)))
  else (false, l).

Definition instance : Noraft := {|
  LogEntries := Entries;
  Log := RaftLog;
  TERM_ZERO := 0;
  POSITION_ZERO := mkLogPosition 0 0;
  config_new := mkClusterConfig ∅ ∅ ∅;
  index_checked_add := u64_checked_add;
  entries_new p := mkEntries p [];
  entries_push e x := mkEntries (prev e) (items e ++ [x]);
  entries_prev_position := prev;
  entries_last_position e := position_of e (pos_index (prev e) + lenN (items e));
  entries_len e := lenN (items e);
  entries_iter := items;
  entries_iter_with_positions e :=
    (λ p, (position_of e p.1, p.2)) <$> indexed (pos_index (prev e) + 1) (items e);
  entries_get_entry := get_entry;
  entries_since := since;
  log_new := mkLog;
  log_entries := entries;
  log_snapshot_config := config;
  log_append_suffix := append_suffix;
|}.

Lemma indexed_positions e l i :
  (λ p : LogPosition * LogEntry, (pos_index p.1, p.2)) <$>
    ((λ p : N * LogEntry, (position_of e p.1, p.2)) <$> indexed i l) = indexed i l.
Proof.
  revert i. induction l as [|x l IH]; intros i; [done|].
  cbn [indexed]. rewrite !fmap_cons. by rewrite IH.
Qed.

Lemma laws : NoraftLaws instance.
Proof.
  split; simpl; try done.
  - intros [] []; simpl. by intros -> ->.
  - intros e _. apply indexed_positions.
  - intros e p e' _. unfold since, contains, entries_contain. simpl.
    case_bool_decide; [|done]. intros [= <-]. done.
  - intros e p _. unfold since, contains, entries_contain. simpl. by case_bool_decide.
  - intros l e. unfold append_suffix. by destruct (contains _ _).
  - intros l e _ _ Hc. unfold append_suffix, contains, entries_contain in *. simpl in *.
    by rewrite bool_decide_eq_true_2.
  - intros l e _ _ Hc. unfold append_suffix, contains, entries_contain in *. simpl in *.
    by rewrite bool_decide_eq_false_2.
Qed.

End ListLog.
