(* ===== verification/State.v ===== *)
(** * Stored values and the replay state of a node, [src/storage.rs] and [src/bytes.rs]

    The data of the storage layer ([CommandPayload], [LogAppend], [Snapshot],
    [SnapshotCheckpoint], [Record]) and [NodeState] with the operations that
    replay applies to it. *)
From Stdlib Require Import Strings.Byte.
From S2P Require Import Prelude Noraft.

(** ** Errors of [src/error.rs] *)

Definition invalid_input (message : string) : io_error := IoError InvalidInput (Message message).
Definition invalid_data (message : string) : io_error := IoError InvalidData (Message message).
Definition invalid_json : io_error := IoError InvalidData JsonError.

(** ** [Bytes]: an immutable shared byte string; sharing is not observable. *)

Record Bytes := mkBytes { bytes_inner : list byte }.

#[global] Instance Bytes_eq_dec : EqDecision Bytes.
Proof. solve_decision. Defined.

Definition bytes_new (bytes : list byte) : Bytes := mkBytes bytes.
Definition bytes_default : Bytes := mkBytes [].
Definition bytes_as_slice (b : Bytes) : list byte := bytes_inner b.
Definition bytes_len (b : Bytes) : N := lenN (bytes_inner b).
Definition bytes_is_empty (b : Bytes) : bool := bool_decide (bytes_inner b = []).

(** [from_arc], [as_arc], [into_arc] and the conversions [AsRef], [From]; an
    [Arc<[u8]>] is its bytes. *)
Definition bytes_from_arc (bytes : list byte) : Bytes := mkBytes bytes.
Definition bytes_as_arc (b : Bytes) : list byte := bytes_inner b.
Definition bytes_into_arc (b : Bytes) : list byte := bytes_inner b.
Definition bytes_as_ref (b : Bytes) : list byte := bytes_as_slice b.
Definition bytes_from_vec (value : list byte) : Bytes := bytes_new value.
Definition bytes_of_arc (value : list byte) : Bytes := bytes_from_arc value.
Definition bytes_from_slice (value : list byte) : Bytes := mkBytes value.
Definition arc_from_bytes (value : Bytes) : list byte := bytes_into_arc value.

(** ** Command payloads *)

Record CommandPayload := mkCommandPayload { payload_tag : byte; payload_bytes : Bytes }.

#[global] Instance CommandPayload_eq_dec : EqDecision CommandPayload.
Proof. solve_decision. Defined.

(** [CommandPayload::new], [tag], [bytes] and [into_bytes]. *)
Definition command_payload_new (tag : byte) (bytes : Bytes) : CommandPayload := mkCommandPayload tag bytes.
Definition command_payload_tag (p : CommandPayload) : byte := payload_tag p.
Definition command_payload_bytes (p : CommandPayload) : Bytes := payload_bytes p.
Definition command_payload_into_bytes (p : CommandPayload) : Bytes := payload_bytes p.

(** [for x in xs { if bad(x) { return Err(e) } }]: the first failing check. *)
Fixpoint check_all {A} (check : A → result ()) (xs : list A) : result () :=
  match xs with
  | [] => Ok ()
  | x :: xs => match check x with Ok _ => check_all check xs | Err e => Err e end
  end.

Section state.
Context `{Noraft}.

(** ** Log appends *)

Record LogAppend := mkLogAppend {
  append_entries_of : LogEntries;
  append_payloads : gmap N CommandPayload;
}.

(** [LogAppend::validate]. *)
Definition log_append_validate (a : LogAppend) : result () :=
  match
    check_all (λ p : LogPosition * LogEntry,
      if bool_decide (p.2 = LogCommand) && bool_decide (append_payloads a !! pos_index p.1 = None)
      then Err (invalid_input "missing command payload")
      else Ok ())
      (entries_iter_with_positions (append_entries_of a))
  with
  | Err e => Err e
  | Ok _ =>
      check_all (λ index : N,
        if bool_decide (entries_get_entry (append_entries_of a) index = Some LogCommand)
        then Ok ()
        else Err (invalid_input "command payload index does not match a command entry"))
        (btree_iter (append_payloads a)).*1
  end.

(** [LogAppend::new]. *)
Definition log_append_new (entries : LogEntries) (payloads : gmap N CommandPayload)
  : result LogAppend :=
  let this := mkLogAppend entries payloads in
  match log_append_validate this with
  | Ok _ => Ok this
  | Err e => Err e
  end.

(** [LogAppend::entries] and [command_payloads]. *)
Definition log_append_entries (a : LogAppend) : LogEntries := append_entries_of a.
Definition log_append_payloads (a : LogAppend) : gmap N CommandPayload := append_payloads a.

(** ** Snapshots and checkpoints *)

Record Snapshot := mkSnapshot {
  last_included : LogPosition;
  snapshot_config : ClusterConfig;
  snapshot_data : Bytes;
}.

Record SnapshotCheckpoint := mkSnapshotCheckpoint {
  checkpoint_current_term : N;
  checkpoint_voted_for : option N;
  checkpoint_snapshot : Snapshot;
  checkpoint_suffix : LogAppend;
}.

(** [SnapshotCheckpoint::validate]. *)
Definition checkpoint_validate (c : SnapshotCheckpoint) : result () :=
  match log_append_validate (checkpoint_suffix c) with
  | Err e => Err e
  | Ok _ =>
      if bool_decide (entries_prev_position (append_entries_of (checkpoint_suffix c))
                      ≠ last_included (checkpoint_snapshot c))
      then Err (invalid_input "checkpoint suffix must start at the snapshot position")
      else Ok ()
  end.

(** [initial_checkpoint]; its [expect] on [LogAppend::new] cannot fail
    (lemma [initial_suffix_valid]). *)
Definition initial_suffix : LogAppend := mkLogAppend (entries_new POSITION_ZERO) ∅.

Definition initial_checkpoint : SnapshotCheckpoint := {|
  checkpoint_current_term := TERM_ZERO;
  checkpoint_voted_for := None;
  checkpoint_snapshot := {|
    last_included := POSITION_ZERO;
    snapshot_config := config_new;
    snapshot_data := bytes_default;
  |};
  checkpoint_suffix := initial_suffix;
|}.

(** ** The loaded state of a node *)

Record NodeState := mkNodeState {
  current_term : N;
  voted_for : option N;
  log : Log;
  command_payloads : gmap N CommandPayload;
  snapshot : option Snapshot;
}.

(** [NodeState::default]. *)
Definition node_state_default : NodeState := {|
  current_term := TERM_ZERO;
  voted_for := None;
  log := log_new config_new (entries_new POSITION_ZERO);
  command_payloads := ∅;
  snapshot := None;
|}.

(** [retained_log_entries_after_snapshot]. *)
Definition retained_log_entries_after_snapshot (entries : LogEntries) (position : LogPosition)
  : result LogEntries :=
  if pos_index position <? pos_index (entries_prev_position entries)
  then Err (invalid_data "snapshot is older than the current snapshot")
  else
    match entries_since entries position with
    | Some entries => Ok entries
    | None =>
        if pos_index (entries_last_position entries) <? pos_index position
        then Ok (entries_new position)
        else Err (invalid_data "snapshot position conflicts with local log")
    end.

(** [NodeState::apply_current_term]. *)
Definition apply_current_term (term : N) : M NodeState () :=
  modify (λ s, mkNodeState term (voted_for s) (log s) (command_payloads s) (snapshot s)).

(** [NodeState::apply_voted_for]. *)
Definition apply_voted_for (vote : option N) : M NodeState () :=
  modify (λ s, mkNodeState (current_term s) vote (log s) (command_payloads s) (snapshot s)).

Definition set_log (l : Log) (s : NodeState) : NodeState :=
  mkNodeState (current_term s) (voted_for s) l (command_payloads s) (snapshot s).
Definition set_payloads (p : gmap N CommandPayload) (s : NodeState) : NodeState :=
  mkNodeState (current_term s) (voted_for s) (log s) p (snapshot s).
Definition set_snapshot (x : option Snapshot) (s : NodeState) : NodeState :=
  mkNodeState (current_term s) (voted_for s) (log s) (command_payloads s) x.

(** [BTreeMap::retain] on the keys. *)
Definition retain_keys (keep : N → bool) (m : gmap N CommandPayload) : gmap N CommandPayload :=
  filter (λ p : N * CommandPayload, keep p.1 = true) m.

(** [NodeState::apply_append_owned]. *)
Definition apply_append_owned (append : LogAppend) : M NodeState () :=
  lift_result (log_append_validate append) ;;
  let prev_index := pos_index (entries_prev_position (append_entries_of append)) in
  s ← get_state;
  let '(ok, l) := log_append_suffix (log s) (append_entries_of append) in
  modify (set_log l) ;;
  if negb ok then throw (invalid_data "append anchor does not exist in local log")
  else
    modify (λ s, set_payloads (retain_keys (λ index, index <=? prev_index) (command_payloads s)) s) ;;
    modify (λ s, set_payloads (append_payloads append ∪ command_payloads s) s).

(** [NodeState::apply_snapshot]. *)
Definition apply_snapshot (snap : Snapshot) : M NodeState () :=
  s ← get_state;
  entries ← lift_result
    (retained_log_entries_after_snapshot (log_entries (log s)) (last_included snap));
  modify (λ s, set_payloads
    (retain_keys (λ index, pos_index (last_included snap) <? index) (command_payloads s)) s) ;;
  modify (set_log (log_new (snapshot_config snap) entries)) ;;
  modify (set_snapshot (Some snap)).

(** [SnapshotCheckpoint::into_state]. *)
Definition checkpoint_into_state (c : SnapshotCheckpoint) : result NodeState :=
  match checkpoint_validate c with
  | Err e => Err e
  | Ok _ =>
      let build : M NodeState () :=
        apply_current_term (checkpoint_current_term c) ;;
        apply_voted_for (checkpoint_voted_for c) ;;
        apply_snapshot (checkpoint_snapshot c) ;;
        apply_append_owned (checkpoint_suffix c) in
      match build node_state_default with
      | (Ok _, state) => Ok state
      | (Err e, _) => Err e
      end
  end.

(** ** Records *)

Inductive SegmentRecord :=
  | RecordCurrentTerm (term : N)
  | RecordVotedFor (vote : option N)
  | RecordAppend (append : LogAppend)
  | RecordSnapshotCheckpoint (checkpoint : SnapshotCheckpoint).

Record NodeRecord := mkNodeRecord { record_node_id : N; node_record : SegmentRecord }.

(** [matches!(record, Record::SnapshotCheckpoint(_))]. *)
Definition is_checkpoint (r : SegmentRecord) : bool :=
  match r with RecordSnapshotCheckpoint _ => true | _ => false end.

(** [apply_record_to_state]. *)
Definition apply_record_to_state (record : SegmentRecord) : M NodeState () :=
  match record with
  | RecordCurrentTerm term => apply_current_term term
  | RecordVotedFor vote => apply_voted_for vote
  | RecordAppend append => apply_append_owned append
  | RecordSnapshotCheckpoint checkpoint =>
      s ← lift_result (checkpoint_into_state checkpoint);
      modify (λ _, s)
  end.

(** [ReplayState] and [ReplayState::apply]: [entry(node_id).or_default()] is in
    the map even when the record is rejected. *)
Definition replay_apply (r : NodeRecord) : M (gmap N NodeState) () :=
  λ nodes,
    let '(res, s) :=
      apply_record_to_state (node_record r) (default node_state_default (nodes !! record_node_id r)) in
    (res, <[record_node_id r := s]> nodes).

End state.

(** ** Lemmas *)

Lemma check_all_ok {A} (check : A → result ()) xs :
  check_all check xs = Ok () ↔ ∀ x, x ∈ xs → check x = Ok ().
Proof.
  induction xs as [|x xs IH]; simpl.
  - split; [|done]. intros _ x Hx. by apply elem_of_nil in Hx.
  - destruct (check x) as [[]|e] eqn:E.
    + rewrite IH. split; intros H y.
      * rewrite elem_of_cons. intros [->|?]; auto.
      * intros Hy. apply H. by right.
    + split; [done|]. intros H. specialize (H x ltac:(by left)). congruence.
Qed.

Lemma check_all_map {A B} (f : A → B) (check : B → result ()) xs :
  check_all check (f <$> xs) = check_all (λ x, check (f x)) xs.
Proof. induction xs as [|x xs IH]; [done|]. rewrite fmap_cons. cbn [check_all]. by rewrite IH. Qed.

Lemma elem_of_indexed i0 l i x :
  (i, x) ∈ indexed i0 l ↔ i0 ≤ i ∧ l !! N.to_nat (i - i0) = Some x.
Proof.
  revert i0. induction l as [|y l IH]; intros i0; cbn [indexed].
  - rewrite lookup_nil. split; [by intros ?%elem_of_nil|by intros [_ ?]].
  - rewrite elem_of_cons, IH. split.
    + intros [[= -> ->]|[Hle Hl]].
      * rewrite N.sub_diag. done.
      * split; [lia|]. replace (N.to_nat (i - i0)) with (S (N.to_nat (i - (i0 + 1)))) by lia. done.
    + intros [Hle Hl]. destruct (decide (i = i0)) as [->|Hne].
      * left. rewrite N.sub_diag in Hl. simpl in Hl. by injection Hl as ->.
      * right. split; [lia|].
        replace (N.to_nat (i - i0)) with (S (N.to_nat (i - (i0 + 1)))) in Hl by lia. done.
Qed.

Lemma btree_iter_keys {V} (m : gmap N V) k : k ∈ (btree_iter m).*1 ↔ is_Some (m !! k).
Proof.
  unfold btree_iter. rewrite merge_sort_Permutation, list_elem_of_fmap. split.
  - intros [[k' v] [-> Hin]]. apply elem_of_map_to_list in Hin. simpl. eauto.
  - intros [v Hv]. exists (k, v). split; [done|]. by apply elem_of_map_to_list.
Qed.

Section lemmas.
Context `{NL : NoraftLaws}.
Implicit Types (a : LogAppend) (e : LogEntries) (s : NodeState) (c : SnapshotCheckpoint).

(** The payloads are those of the command entries, no more and no less. *)
Definition payloads_match (payloads : gmap N CommandPayload) e : Prop :=
  ∀ i, is_Some (payloads !! i) ↔ entries_get_entry e i = Some LogCommand.

Lemma entries_get_entry_indexed e i x :
  entries_fit e →
  entries_get_entry e i = Some x ↔
  (i, x) ∈ indexed (pos_index (entries_prev_position e) + 1) (entries_iter e).
Proof.
  intros Hfit. rewrite entries_get_entry_eq, elem_of_indexed by done.
  case_decide as Hi.
  - split; [done|]. intros [? _]. lia.
  - replace (i - (pos_index (entries_prev_position e) + 1))
      with (i - pos_index (entries_prev_position e) - 1) by lia.
    split; [|by intros [_ ?]]. intros ?. split; [lia|done].
Qed.

Lemma log_append_validate_ok a :
  entries_fit (append_entries_of a) →
  log_append_validate a = Ok () ↔ payloads_match (append_payloads a) (append_entries_of a).
Proof.
  intros Hfit. unfold log_append_validate.
  set (first := check_all _ (entries_iter_with_positions _)).
  assert (Hfirst : first = Ok () ↔ ∀ i, entries_get_entry (append_entries_of a) i = Some LogCommand →
                                         is_Some (append_payloads a !! i)).
  { transitivity (check_all (λ p : N * LogEntry,
      if bool_decide (p.2 = LogCommand) && bool_decide (append_payloads a !! p.1 = None)
      then Err (invalid_input "missing command payload") else Ok ())
      (indexed (pos_index (entries_prev_position (append_entries_of a)) + 1)
               (entries_iter (append_entries_of a))) = Ok ()).
    { rewrite <-entries_positions_indices, check_all_map by done. done. }
    rewrite check_all_ok. split; intros H.
    - intros i Hi. apply entries_get_entry_indexed in Hi; [|done].
      specialize (H _ Hi). simpl in H.
      repeat case_bool_decide; try done. by apply not_eq_None_Some.
    - intros [i x] Hi. simpl. case_bool_decide as Hx; [|done]. subst x.
      apply entries_get_entry_indexed in Hi; [|done]. apply H in Hi.
      rewrite bool_decide_eq_false_2; [done|]. by apply not_eq_None_Some. }
  assert (Hsecond : check_all (λ index : N,
        if bool_decide (entries_get_entry (append_entries_of a) index = Some LogCommand)
        then Ok ()
        else Err (invalid_input "command payload index does not match a command entry"))
        (btree_iter (append_payloads a)).*1 = Ok () ↔
     ∀ i, is_Some (append_payloads a !! i) →
          entries_get_entry (append_entries_of a) i = Some LogCommand).
  { rewrite check_all_ok. split; intros H i Hi.
    - specialize (H i). rewrite btree_iter_keys in H. specialize (H Hi). by case_bool_decide.
    - apply btree_iter_keys in Hi. by rewrite bool_decide_eq_true_2 by auto. }
  destruct first as [[]|err].
  - rewrite Hsecond. unfold payloads_match. split.
    + intros Hpay i. split; [apply Hpay|]. by apply Hfirst.
    + intros Hpay i. apply Hpay.
  - split; [done|]. intros Hm. exfalso.
    assert (Err err = Ok ()) as E; [|done]. apply Hfirst. intros i. apply Hm.
Qed.

Lemma entries_new_fit p : pos_index p < U64_LIMIT → entries_fit (entries_new p).
Proof.
  unfold entries_fit. rewrite entries_prev_new, entries_len_iter, entries_iter_new. len.
Qed.

Lemma POSITION_ZERO_fit : entries_fit (entries_new POSITION_ZERO).
Proof. apply entries_new_fit. by rewrite POSITION_ZERO_eq. Qed.

Lemma payloads_match_new p : pos_index p < U64_LIMIT → payloads_match ∅ (entries_new p).
Proof.
  intros Hp i. rewrite lookup_empty, entries_get_entry_eq, entries_iter_new by by apply entries_new_fit.
  case_decide; rewrite ?lookup_nil; split; intros Hi; try done; by destruct Hi.
Qed.

Lemma initial_suffix_valid : log_append_new (entries_new POSITION_ZERO) ∅ = Ok initial_suffix.
Proof.
  assert (Hv : log_append_validate initial_suffix = Ok ()).
  { apply log_append_validate_ok; [apply POSITION_ZERO_fit|].
    apply payloads_match_new. by rewrite POSITION_ZERO_eq. }
  unfold log_append_new. fold initial_suffix. by rewrite Hv.
Qed.

(** ** The invariant of a loaded state

    The indices fit a [u64], the payloads are those of the command entries of
    the log, and the log starts at the snapshot, with its configuration. *)
Definition state_ok s : Prop :=
  entries_fit (log_entries (log s)) ∧
  payloads_match (command_payloads s) (log_entries (log s)) ∧
  entries_prev_position (log_entries (log s)) =
    match snapshot s with Some snap => last_included snap | None => POSITION_ZERO end ∧
  log_snapshot_config (log s) =
    match snapshot s with Some snap => snapshot_config snap | None => config_new end.

(** What decoding guarantees of a record: its indices fit a [u64]. *)
Definition append_fit a : Prop := entries_fit (append_entries_of a).

Definition record_fit (r : SegmentRecord) : Prop :=
  match r with
  | RecordAppend a => append_fit a
  | RecordSnapshotCheckpoint c => append_fit (checkpoint_suffix c)
  | _ => True
  end.

Lemma node_state_default_ok : state_ok node_state_default.
Proof.
  unfold state_ok, node_state_default. simpl. rewrite log_entries_new.
  split; [apply POSITION_ZERO_fit|]. split.
  - apply payloads_match_new. by rewrite POSITION_ZERO_eq.
  - split; [apply entries_prev_new|apply log_snapshot_config_new].
Qed.

Lemma retain_keys_lookup keep m i :
  retain_keys keep m !! i = if keep i then m !! i else None.
Proof.
  unfold retain_keys. destruct (keep i) eqn:Hk.
  - destruct (m !! i) as [v|] eqn:Hm.
    + by apply map_lookup_filter_Some.
    + apply map_lookup_filter_None. by left.
  - apply map_lookup_filter_None. right. simpl. intros v _. by rewrite Hk.
Qed.

(** The lookup in a log whose suffix after [p] has been replaced. *)
Lemma get_entry_spliced e e1 e2 i :
  entries_fit e → entries_fit e1 → entries_fit e2 →
  entries_contain e1 (entries_prev_position e2) →
  entries_prev_position e = entries_prev_position e1 →
  entries_iter e =
    takeN (pos_index (entries_prev_position e2) - pos_index (entries_prev_position e1))
          (entries_iter e1) ++ entries_iter e2 →
  entries_get_entry e i =
    if decide (i ≤ pos_index (entries_prev_position e2)) then entries_get_entry e1 i
    else entries_get_entry e2 i.
Proof.
  intros Hf Hf1 Hf2 [[Hlo Hhi] _] Hprev Hiter.
  rewrite !entries_get_entry_eq, Hprev, Hiter by done. rewrite entries_len_iter in Hhi.
  set (k1 := pos_index (entries_prev_position e1)) in *.
  set (k2 := pos_index (entries_prev_position e2)) in *.
  assert (Hlen : length (takeN (k2 - k1) (entries_iter e1)) = N.to_nat (k2 - k1)).
  { unfold takeN, lenN in *. rewrite length_take. lia. }
  repeat case_decide; try lia; try done.
  - rewrite lookup_app_l by lia. unfold takeN. rewrite lookup_take_lt by lia. done.
  - rewrite lookup_app_r by lia. f_equal. lia.
Qed.

Lemma spliced_fit e e1 e2 :
  entries_fit e1 → entries_fit e2 →
  entries_contain e1 (entries_prev_position e2) →
  entries_prev_position e = entries_prev_position e1 →
  entries_iter e =
    takeN (pos_index (entries_prev_position e2) - pos_index (entries_prev_position e1))
          (entries_iter e1) ++ entries_iter e2 →
  entries_fit e.
Proof.
  unfold entries_fit. intros Hf1 Hf2 [[Hlo Hhi] _] Hprev Hiter.
  rewrite !entries_len_iter in *. rewrite Hprev, Hiter. len.
Qed.

Lemma payload_key_bounds m e i :
  entries_fit e → payloads_match m e → is_Some (m !! i) →
  pos_index (entries_prev_position e) < i ≤ pos_index (entries_prev_position e) + entries_len e.
Proof.
  intros Hf Hm Hi. apply Hm in Hi. rewrite entries_get_entry_eq in Hi by done.
  case_decide; [done|]. apply lookup_lt_Some in Hi. rewrite entries_len_iter. unfold lenN. lia.
Qed.

(** [apply_append_owned] on every branch. *)
Lemma apply_append_owned_spec a s :
  entries_fit (log_entries (log s)) → append_fit a →
  apply_append_owned a s =
  match log_append_validate a with
  | Err e => (Err e, s)
  | Ok _ =>
      if decide (entries_contain (log_entries (log s))
                   (entries_prev_position (append_entries_of a)))
      then (Ok (), set_payloads
             (append_payloads a ∪
              retain_keys (λ i, i <=? pos_index (entries_prev_position (append_entries_of a)))
                          (command_payloads s))
             (set_log (log_append_suffix (log s) (append_entries_of a)).2 s))
      else (Err (invalid_data "append anchor does not exist in local log"), s)
  end.
Proof.
  intros Hl Ha. unfold apply_append_owned, lift_result, mbind, M_bind, get_state, modify.
  destruct (log_append_validate a) as [[]|err]; [|done].
  case_decide as Hc.
  - destruct (log_append_suffix_true _ _ Hl Ha Hc) as [Hok _].
    destruct (log_append_suffix (log s) (append_entries_of a)) as [ok l]. simpl in Hok. by subst ok.
  - rewrite (log_append_suffix_false _ _ Hl Ha Hc). simpl. by destruct s.
Qed.

Lemma apply_append_owned_ok a s s' :
  state_ok s → append_fit a → apply_append_owned a s = (Ok (), s') → state_ok s'.
Proof.
  intros (Hfit & Hpay & Hsnap & Hconf) Ha. rewrite apply_append_owned_spec by done.
  destruct (log_append_validate a) as [[]|err] eqn:Hv; [|done].
  case_decide as Hc; [|done]. intros [= <-].
  apply log_append_validate_ok in Hv; [|done].
  destruct (log_append_suffix_true _ _ Hfit Ha Hc) as (_ & Hprev & Hiter).
  set (e' := log_entries (log_append_suffix (log s) (append_entries_of a)).2) in *.
  assert (Hfit' : entries_fit e') by by apply (spliced_fit e' (log_entries (log s)) (append_entries_of a)).
  split; [done|]. split; [|split; [exact (eq_trans Hprev Hsnap)|exact (eq_trans (log_snapshot_config_append _ _) Hconf)]].
  intros i. simpl. fold e'.
  rewrite (get_entry_spliced e' (log_entries (log s)) (append_entries_of a)) by done.
  rewrite lookup_union, retain_keys_lookup.
  case_decide as Hi.
  - rewrite (proj2 (N.leb_le _ _)) by done.
    destruct (append_payloads a !! i) as [v|] eqn:Hv'.
    + exfalso. pose proof (payload_key_bounds _ _ i Ha Hv ltac:(eauto)). lia.
    + rewrite option_union_left_id. apply Hpay.
  - rewrite (proj2 (N.leb_gt _ _)) by lia. rewrite option_union_right_id. apply Hv.
Qed.

(** [retained_log_entries_after_snapshot] cuts the log at the snapshot. *)
Lemma retained_log_entries_ok e p e' :
  entries_fit e → pos_index p < U64_LIMIT →
  retained_log_entries_after_snapshot e p = Ok e' →
  entries_fit e' ∧ entries_prev_position e' = p ∧
  ∀ i, entries_get_entry e' i = if decide (i ≤ pos_index p) then None else entries_get_entry e i.
Proof.
  unfold retained_log_entries_after_snapshot. intros Hf Hp.
  destruct (N.ltb_spec (pos_index p) (pos_index (entries_prev_position e))) as [?|Hle]; [done|].
  destruct (entries_since e p) as [e1|] eqn:Hs.
  - intros [= <-]. destruct (entries_since_Some _ _ _ Hf Hs) as ([[_ Hhi] _] & Hprev & Hiter).
    assert (Hf1 : entries_fit e1).
    { unfold entries_fit in *. rewrite !entries_len_iter in *. rewrite Hprev, Hiter. len. }
    split; [done|]. split; [done|]. intros i.
    rewrite !entries_get_entry_eq, Hprev, Hiter by done.
    repeat case_decide; try lia; try done. unfold dropN. rewrite lookup_drop. f_equal. lia.
  - rewrite entries_last_index by done.
    destruct (N.ltb_spec (pos_index (entries_prev_position e) + entries_len e) (pos_index p))
      as [Hlt|?]; [|done].
    intros [= <-]. split; [by apply entries_new_fit|]. split; [apply entries_prev_new|].
    intros i. rewrite !entries_get_entry_eq, entries_prev_new, entries_iter_new, lookup_nil
      by (done || by apply entries_new_fit).
    repeat case_decide; try lia; try done. symmetry. apply lookup_ge_None.
    rewrite entries_len_iter in Hlt. unfold lenN in Hlt. lia.
Qed.

Lemma apply_snapshot_ok snap s s' :
  state_ok s → pos_index (last_included snap) < U64_LIMIT →
  apply_snapshot snap s = (Ok (), s') → state_ok s'.
Proof.
  intros (Hfit & Hpay & _) Hp. unfold apply_snapshot, mbind, M_bind, get_state, lift_result, modify.
  destruct (retained_log_entries_after_snapshot _ _) as [e|err] eqn:Hr; [|done].
  intros [= <-].
  destruct (retained_log_entries_ok _ _ _ Hfit Hp Hr) as (Hfe & Hpe & Hge).
  unfold state_ok. simpl. rewrite !log_entries_new, log_snapshot_config_new. split; [done|]. split; [|done].
  intros i. rewrite Hge, retain_keys_lookup.
  destruct (N.ltb_spec (pos_index (last_included snap)) i) as [?|Hi].
  - rewrite decide_False by lia. apply Hpay.
  - rewrite decide_True by lia. split; [by intros []|done].
Qed.

Lemma checkpoint_validate_ok c :
  append_fit (checkpoint_suffix c) →
  checkpoint_validate c = Ok () ↔
  payloads_match (append_payloads (checkpoint_suffix c)) (append_entries_of (checkpoint_suffix c)) ∧
  entries_prev_position (append_entries_of (checkpoint_suffix c)) =
    last_included (checkpoint_snapshot c).
Proof.
  intros Hf. unfold checkpoint_validate. rewrite <-log_append_validate_ok by done.
  destruct (log_append_validate _) as [[]|err]; [|by split; [|intros [? _]]].
  case_bool_decide as Hp.
  - split; [done|]. by intros [_ ?].
  - split; [|done]. intros _. split; [done|]. first [exact Hp|by apply dec_stable].
Qed.

Lemma append_fit_anchor a :
  append_fit a → pos_index (entries_prev_position (append_entries_of a)) < U64_LIMIT.
Proof. unfold append_fit, entries_fit. lia. Qed.

Lemma checkpoint_into_state_inv c s :
  checkpoint_into_state c = Ok s →
  checkpoint_validate c = Ok () ∧
  ∃ s1, apply_snapshot (checkpoint_snapshot c)
          (mkNodeState (checkpoint_current_term c) (checkpoint_voted_for c)
             (log node_state_default) ∅ None) = (Ok (), s1) ∧
        apply_append_owned (checkpoint_suffix c) s1 = (Ok (), s).
Proof.
  unfold checkpoint_into_state. destruct (checkpoint_validate c) as [[]|err]; [|done].
  unfold apply_current_term, apply_voted_for, modify. unfold mbind at 1 2 3, M_bind. simpl.
  destruct (apply_snapshot _ _) as [[[]|err] s1]; [|done].
  destruct (apply_append_owned _ _) as [[[]|err] s2] eqn:E; [|done].
  intros [= <-]. split; [done|]. by exists s1.
Qed.

Lemma checkpoint_into_state_state_ok c s :
  append_fit (checkpoint_suffix c) → checkpoint_into_state c = Ok s → state_ok s.
Proof.
  intros Hf (Hv & s1 & Hs & Ha)%checkpoint_into_state_inv.
  eapply apply_append_owned_ok; [|done|done].
  apply checkpoint_validate_ok in Hv as [_ Hprev]; [|done].
  eapply apply_snapshot_ok; [|rewrite <-Hprev; by apply append_fit_anchor|done].
  apply node_state_default_ok.
Qed.

(** Applying a record keeps a state well formed, whatever the record. *)
Lemma apply_record_to_state_ok r s s' :
  state_ok s → record_fit r → apply_record_to_state r s = (Ok (), s') → state_ok s'.
Proof.
  destruct r as [t|v|a|c]; simpl; intros Hs Hr.
  - by intros [= <-].
  - by intros [= <-].
  - by apply apply_append_owned_ok.
  - unfold mbind, M_bind, lift_result, modify.
    destruct (checkpoint_into_state c) as [sc|err] eqn:Hc; [|done].
    intros [= <-]. by eapply checkpoint_into_state_state_ok.
Qed.

(** Replaying the records of one node in order. *)
Fixpoint apply_records (rs : list SegmentRecord) : M NodeState () :=
  match rs with
  | [] => mret ()
  | r :: rs => apply_record_to_state r ;; apply_records rs
  end.

Lemma apply_records_cons_ok r rs s s' :
  apply_records (r :: rs) s = (Ok (), s') ↔
  ∃ s1, apply_record_to_state r s = (Ok (), s1) ∧ apply_records rs s1 = (Ok (), s').
Proof.
  cbn [apply_records]. split.
  - intros (? & s1 & H1 & H2)%bind_ok_inv. destruct x. eauto.
  - intros (s1 & H1 & H2). by rewrite (bind_ok _ _ _ _ _ H1).
Qed.

Lemma apply_records_ok rs s s' :
  state_ok s → Forall record_fit rs → apply_records rs s = (Ok (), s') → state_ok s'.
Proof.
  intros Hs Hrs. revert s Hs. induction Hrs as [|r rs Hr Hrs IH]; intros s Hs.
  - by intros [= <-].
  - intros (s1 & H1 & H2)%apply_records_cons_ok. eapply IH; [|done].
    by eapply apply_record_to_state_ok.
Qed.

Lemma apply_records_app rs1 rs2 s :
  apply_records (rs1 ++ rs2) s = (apply_records rs1 ;; apply_records rs2) s.
Proof.
  revert s. induction rs1 as [|r rs1 IH]; intros s; [done|].
  cbn [apply_records app]. unfold mbind, M_bind in *.
  destruct (apply_record_to_state r s) as [[[]|err] s1]; [apply IH|done].
Qed.

(** A checkpoint record does not look at the state it replaces. *)
Lemma apply_checkpoint_any_state c s1 s2 s :
  apply_record_to_state (RecordSnapshotCheckpoint c) s1 = (Ok (), s) →
  apply_record_to_state (RecordSnapshotCheckpoint c) s2 = (Ok (), s).
Proof.
  simpl. unfold mbind, M_bind, lift_result, modify.
  destruct (checkpoint_into_state c); [by intros [= <-]|done].
Qed.

Lemma apply_records_from_checkpoint c rs s1 s2 s :
  apply_records (RecordSnapshotCheckpoint c :: rs) s1 = (Ok (), s) →
  apply_records (RecordSnapshotCheckpoint c :: rs) s2 = (Ok (), s).
Proof.
  rewrite !apply_records_cons_ok. intros (s' & H1 & H2). exists s'. split; [|done].
  by eapply apply_checkpoint_any_state.
Qed.

Lemma retain_keys_empty keep : retain_keys keep ∅ = ∅.
Proof. apply map_eq. intros i. rewrite retain_keys_lookup, lookup_empty. by destruct (keep i). Qed.

Lemma entries_contain_anchor e p :
  entries_prev_position e = p → entries_contain e p.
Proof.
  intros <-. unfold entries_contain. rewrite N.sub_diag, takeN_0. simpl. split; [lia|done].
Qed.

(** A position that the empty default log can be cut at: its index is positive,
    or it is the zero position. *)
Definition anchorable (p : LogPosition) : bool := (0 <? pos_index p) || (pos_term p =? 0).

Lemma retained_from_empty p :
  retained_log_entries_after_snapshot (entries_new POSITION_ZERO) p =
  if anchorable p then Ok (entries_new p)
  else Err (invalid_data "snapshot position conflicts with local log").
Proof.
  pose proof POSITION_ZERO_fit as Hf.
  unfold retained_log_entries_after_snapshot, anchorable.
  rewrite entries_last_index, entries_prev_new, entries_len_iter, entries_iter_new, lenN_nil by done.
  rewrite POSITION_ZERO_eq in *. simpl. rewrite N.add_0_r.
  destruct (entries_since _ p) as [e|] eqn:Hs.
  - destruct (entries_since_Some _ _ _ Hf Hs) as ([[_ Hhi] Ht] & Hprev & Hiter).
    rewrite entries_prev_new, entries_len_iter, entries_iter_new in *. simpl in Ht.
    rewrite N.sub_0_r in *. unfold takeN, dropN in *. rewrite take_nil in Ht. rewrite drop_nil in Hiter.
    simpl in Ht. rewrite Ht, orb_true_r. f_equal.
    assert (pos_index p = 0) as -> by (simpl in Hhi; len). simpl. f_equal.
    apply entries_ext; [by rewrite entries_prev_new|by rewrite entries_iter_new].
  - pose proof (entries_since_None _ _ Hf Hs) as Hn.
    destruct (N.ltb_spec (pos_index p) 0) as [?|_]; [lia|].
    destruct (N.ltb_spec 0 (pos_index p)) as [?|Hp]; [done|].
    destruct (N.eqb_spec (pos_term p) 0) as [Ht|?]; [|done].
    exfalso. apply Hn, entries_contain_anchor. rewrite entries_prev_new.
    destruct p as [t i]. simpl in *. f_equal; lia.
Qed.

(** [SnapshotCheckpoint::into_state] on every branch. *)
Lemma checkpoint_into_state_spec c :
  append_fit (checkpoint_suffix c) →
  match checkpoint_validate c with
  | Err e => checkpoint_into_state c = Err e
  | Ok _ =>
      if anchorable (last_included (checkpoint_snapshot c)) then
        ∃ s, checkpoint_into_state c = Ok s ∧
             current_term s = checkpoint_current_term c ∧
             voted_for s = checkpoint_voted_for c ∧
             log_entries (log s) = append_entries_of (checkpoint_suffix c) ∧
             log_snapshot_config (log s) = snapshot_config (checkpoint_snapshot c) ∧
             command_payloads s = append_payloads (checkpoint_suffix c) ∧
             snapshot s = Some (checkpoint_snapshot c)
      else checkpoint_into_state c =
             Err (invalid_data "snapshot position conflicts with local log")
  end.
Proof.
  intros Hf. unfold checkpoint_into_state. destruct (checkpoint_validate c) as [[]|err] eqn:Hv; [|done].
  apply checkpoint_validate_ok in Hv as [Hm Hprev]; [|done].
  apply log_append_validate_ok in Hm; [|done].
  unfold apply_current_term, apply_voted_for, modify. unfold mbind at 1 2 3, M_bind. simpl.
  unfold mbind at 2, M_bind. simpl. unfold apply_snapshot, mbind, M_bind, get_state, lift_result, modify.
  simpl. rewrite log_entries_new, retained_from_empty.
  destruct (anchorable _); [|done]. simpl. rewrite retain_keys_empty.
  unfold set_snapshot, set_log, set_payloads. simpl. set (s1 := mkNodeState _ _ _ ∅ (Some _)).
  assert (Hs1 : entries_fit (log_entries (log s1))).
  { simpl. rewrite log_entries_new. apply entries_new_fit. rewrite <-Hprev. by apply append_fit_anchor. }
  assert (Hc : entries_contain (log_entries (log s1))
                 (entries_prev_position (append_entries_of (checkpoint_suffix c)))).
  { apply entries_contain_anchor. simpl. by rewrite log_entries_new, entries_prev_new. }
  rewrite apply_append_owned_spec, Hm, decide_True by done.
  eexists. split; [reflexivity|]. simpl. rewrite retain_keys_empty, map_union_empty.
  do 2 (split; [done|]). split; [|split; [by rewrite log_snapshot_config_append, log_snapshot_config_new|done]].
  destruct (log_append_suffix_true _ _ Hs1 Hf Hc) as (_ & Hp & Hi). simpl in Hp, Hi.
  rewrite log_entries_new, entries_prev_new in Hp, Hi. rewrite entries_iter_new in Hi.
  apply entries_ext; [by rewrite Hp, Hprev|]. rewrite Hi. unfold takeN. by rewrite take_nil.
Qed.
End lemmas.

(** ** Properties *)

Section properties.
Context `{NL : NoraftLaws}.

(** [C29] Whatever well-formed records are replayed, a state that replay
    produces is consistent: its log indices fit a [u64], it holds a payload
    for exactly the command entries of its log, and its log starts at its
    snapshot, with the configuration of the snapshot. *)
Theorem replay_preserves_invariant rs s :
  Forall record_fit rs → apply_records rs node_state_default = (Ok (), s) → state_ok s.
Proof. apply apply_records_ok, node_state_default_ok. Qed.

(** [C30] Replaying an append: it is applied exactly when its payload mapping is
    valid and the log contains its anchor, and then entries and payloads up to
    the anchor are kept, those after it are the appended ones, and term, vote,
    snapshot and the configuration the log starts with are untouched; otherwise the state is unchanged. *)
Theorem append_replaces_suffix a s :
  state_ok s → append_fit a →
  let prev := entries_prev_position (append_entries_of a) in
  let applicable := payloads_match (append_payloads a) (append_entries_of a) ∧
                    entries_contain (log_entries (log s)) prev in
  match apply_append_owned a s with
  | (Ok _, s') =>
      applicable ∧
      current_term s' = current_term s ∧ voted_for s' = voted_for s ∧ snapshot s' = snapshot s ∧
      log_snapshot_config (log s') = log_snapshot_config (log s) ∧
      ∀ i,
        entries_get_entry (log_entries (log s')) i =
          (if decide (i ≤ pos_index prev) then entries_get_entry (log_entries (log s)) i
           else entries_get_entry (append_entries_of a) i) ∧
        command_payloads s' !! i =
          (if decide (i ≤ pos_index prev) then command_payloads s !! i
           else append_payloads a !! i)
  | (Err _, s') => ¬ applicable ∧ s' = s
  end.
Proof.
  intros (Hfit & Hpay & _) Ha prev applicable.
  rewrite apply_append_owned_spec by done. unfold applicable.
  pose proof (log_append_validate_ok a Ha) as Hval.
  destruct (log_append_validate a) as [[]|err] eqn:Hv;
    [|split; [|done]; intros [Hm _]; by apply Hval in Hm].
  case_decide as Hc; [|split; [|done]; by intros [_ ?]].
  split; [split; [by apply Hval|done]|]. simpl. do 3 (split; [done|]).
  split; [apply log_snapshot_config_append|]. intros i. split.
  - destruct (log_append_suffix_true _ _ Hfit Ha Hc) as (_ & Hprev & Hiter).
    apply get_entry_spliced; try done. by eapply (spliced_fit _ (log_entries (log s))).
  - clear Hv. pose proof (proj1 Hval eq_refl) as Hv.
    rewrite lookup_union, retain_keys_lookup. fold prev.
    destruct (N.leb_spec i (pos_index prev)) as [Hi|Hi].
    + rewrite decide_True by done. destruct (append_payloads a !! i) as [v|] eqn:Hv'.
      * pose proof (payload_key_bounds _ _ i Ha Hv ltac:(eauto)) as Hb. fold prev in Hb. lia.
      * apply option_union_left_id.
    + rewrite decide_False by lia. apply option_union_right_id.
Qed.

(** [C31] Replaying a checkpoint: it is rejected when its suffix does not
    validate, and otherwise gives exactly the state it records (term, vote, log
    entries, configuration the log starts with, payloads, snapshot) - unless its
    snapshot position has index zero and a term other than zero, which the
    replay (and not the validation before the write) rejects. *)
Theorem checkpoint_into_state_correct c :
  append_fit (checkpoint_suffix c) →
  match checkpoint_validate c with
  | Err e => checkpoint_into_state c = Err e
  | Ok _ =>
      if anchorable (last_included (checkpoint_snapshot c)) then
        ∃ s, checkpoint_into_state c = Ok s ∧
             current_term s = checkpoint_current_term c ∧
             voted_for s = checkpoint_voted_for c ∧
             log_entries (log s) = append_entries_of (checkpoint_suffix c) ∧
             log_snapshot_config (log s) = snapshot_config (checkpoint_snapshot c) ∧
             command_payloads s = append_payloads (checkpoint_suffix c) ∧
             snapshot s = Some (checkpoint_snapshot c)
      else checkpoint_into_state c =
             Err (invalid_data "snapshot position conflicts with local log")
  end.
Proof. apply checkpoint_into_state_spec. Qed.

(** [C32] A checkpoint supersedes what came before it: replaying from the last
    checkpoint of a node gives the state that replaying all of the node's
    records gives. *)
Theorem checkpoint_supersedes_history before c after s s' :
  apply_records (before ++ RecordSnapshotCheckpoint c :: after) node_state_default = (Ok (), s) →
  apply_records (RecordSnapshotCheckpoint c :: after) s' = (Ok (), s).
Proof.
  rewrite apply_records_app. intros (? & s1 & _ & H)%bind_ok_inv.
  by eapply apply_records_from_checkpoint.
Qed.
End properties.

Section witnesses.
#[local] Existing Instance ListLog.instance.
#[local] Existing Instance ListLog.laws.

Definition sample_append : LogAppend :=
  mkLogAppend (ListLog.mkEntries (mkLogPosition 0 0) [LogTerm 1; LogCommand])
              {[ 2 := mkCommandPayload Byte.x07 (mkBytes [Byte.x63]) ]}.

Definition sample_checkpoint (position : LogPosition) : SnapshotCheckpoint := {|
  checkpoint_current_term := 3;
  checkpoint_voted_for := Some 1;
  checkpoint_snapshot := mkSnapshot position (mkClusterConfig {[ 1; 2 ]} ∅ {[ 3 ]}) (mkBytes [Byte.x01]);
  checkpoint_suffix := mkLogAppend (ListLog.mkEntries position [LogCommand])
    {[ pos_index position + 1 := mkCommandPayload Byte.x00 (mkBytes []) ]};
|}.

Lemma replay_preserves_invariant_witness :
  match apply_records [RecordSnapshotCheckpoint initial_checkpoint; RecordAppend sample_append]
          node_state_default with
  | (Ok _, s) => state_ok s
  | (Err _, _) => False
  end.
Proof.
  assert (Hok : is_ok (apply_records
    [RecordSnapshotCheckpoint initial_checkpoint; RecordAppend sample_append]
    node_state_default).1 = true) by (vm_compute; reflexivity).
  destruct (apply_records _ _) as [[[]|e] s] eqn:E; [|discriminate Hok].
  refine (replay_preserves_invariant _ _ _ E). repeat constructor.
Defined.

Lemma append_replaces_suffix_witness :
  match apply_append_owned sample_append node_state_default with
  | (Ok _, s') => entries_get_entry (log_entries (log s')) 2 = Some LogCommand
  | (Err _, _) => False
  end.
Proof.
  pose proof (append_replaces_suffix sample_append node_state_default
                node_state_default_ok eq_refl) as H.
  assert (Hok : is_ok (apply_append_owned sample_append node_state_default).1 = true)
    by (vm_compute; reflexivity).
  destruct (apply_append_owned _ _) as [[[]|e] s'] eqn:E; [|discriminate Hok].
  destruct H as (_ & _ & _ & _ & _ & H). destruct (H 2) as [-> _]. reflexivity.
Defined.

Lemma checkpoint_into_state_correct_witness :
  checkpoint_into_state (sample_checkpoint (mkLogPosition 1 0)) =
    Err (invalid_data "snapshot position conflicts with local log") ∧
  ∃ s, checkpoint_into_state (sample_checkpoint (mkLogPosition 2 5)) = Ok s ∧
       log_snapshot_config (log s) = snapshot_config (checkpoint_snapshot (sample_checkpoint (mkLogPosition 2 5))).
Proof.
  split; [exact (checkpoint_into_state_correct (sample_checkpoint (mkLogPosition 1 0)) eq_refl)|].
  destruct (checkpoint_into_state_correct (sample_checkpoint (mkLogPosition 2 5)) eq_refl)
    as (s & Hs & _ & _ & _ & Hc & _).
  exists s. split; [exact Hs|exact Hc].
Defined.

Lemma checkpoint_supersedes_history_witness :
  let c := RecordSnapshotCheckpoint (sample_checkpoint (mkLogPosition 2 5)) in
  match apply_records ([RecordCurrentTerm 9] ++ c :: [RecordVotedFor None]) node_state_default with
  | (Ok _, s) => apply_records (c :: [RecordVotedFor None]) node_state_default = (Ok (), s)
  | (Err _, _) => False
  end.
Proof.
  intros c.
  assert (Hok : is_ok (apply_records ([RecordCurrentTerm 9] ++ c :: [RecordVotedFor None])
    node_state_default).1 = true) by (vm_compute; reflexivity).
  destruct (apply_records ([RecordCurrentTerm 9] ++ _) _) as [[[]|e] s] eqn:E; [|discriminate Hok].
  exact (checkpoint_supersedes_history _ _ _ _ _ E).
Defined.
End witnesses.
