(* ===== verification/Metrics.v ===== *)
(** * Storage metrics, [src/metrics.rs]

    The counters and gauges as a record of [u64]s and the updates of
    [StorageMetricsCounters].  The JSON rendering is in [MetricsJson]. *)
From S2P Require Import Prelude.

(** [increment]: counters saturate. *)
Definition increment (counter value : N) : N := u64_saturating_add counter value.

Inductive RecordKindMetric :=
  | KindCurrentTerm | KindVotedFor | KindLogAppend | KindSnapshotCheckpoint.

Inductive StorageOperationKind :=
  | OpLoad | OpSaveCurrentTerm | OpSaveVotedFor | OpAppendEntries | OpSaveSnapshot | OpRemoveNode.

Inductive NodeAccessErrorKind := UnknownNode | RemovedNode.

Record RecordKindMetrics := mkRecordKindMetrics {
  rk_current_term : N;
  rk_voted_for : N;
  rk_log_append : N;
  rk_snapshot_checkpoint : N;
}.

Record OperationKindMetrics := mkOperationKindMetrics {
  ok_load : N;
  ok_save_current_term : N;
  ok_save_voted_for : N;
  ok_append_entries : N;
  ok_save_snapshot : N;
  ok_remove_node : N;
}.

Record RejectedOperationMetrics := mkRejectedOperationMetrics {
  rejected_unknown_nodes : OperationKindMetrics;
  rejected_removed_nodes : OperationKindMetrics;
}.

Record StorageMetrics := mkStorageMetrics {
  records_written : RecordKindMetrics;
  bytes_written : RecordKindMetrics;
  records_replayed : RecordKindMetrics;
  bytes_replayed : RecordKindMetrics;
  segment_rotations : N;
  syncs : N;
  durable_syncs : N;
  replay_truncations : N;
  checksum_failures : N;
  nodes_created : N;
  nodes_removed : N;
  rejected_operations : RejectedOperationMetrics;
  snapshot_checkpoints_saved : N;
  gc_runs : N;
  gc_segments_deleted : N;
  active_nodes : N;
  removed_nodes : N;
  checkpoint_index_nodes : N;
  active_append_segment_id : N;
  active_append_segment_len_bytes : N;
  unsynced_records : N;
  unsynced_bytes : N;
}.

(** [Default]: every counter is zero. *)
Definition record_kind_default : RecordKindMetrics := mkRecordKindMetrics 0 0 0 0.
Definition operation_kind_default : OperationKindMetrics := mkOperationKindMetrics 0 0 0 0 0 0.
Definition rejected_default : RejectedOperationMetrics :=
  mkRejectedOperationMetrics operation_kind_default operation_kind_default.
Definition metrics_default : StorageMetrics :=
  mkStorageMetrics record_kind_default record_kind_default record_kind_default record_kind_default
    0 0 0 0 0 0 0 rejected_default 0 0 0 0 0 0 0 0 0 0.

(** ** Field updates *)

Definition set_records_written (v : RecordKindMetrics) (m : StorageMetrics) : StorageMetrics :=
  mkStorageMetrics
    v (bytes_written m) (records_replayed m) (bytes_replayed m) (segment_rotations m)
    (syncs m) (durable_syncs m) (replay_truncations m) (checksum_failures m)
    (nodes_created m) (nodes_removed m) (rejected_operations m)
    (snapshot_checkpoints_saved m) (gc_runs m) (gc_segments_deleted m) (active_nodes m)
    (removed_nodes m) (checkpoint_index_nodes m) (active_append_segment_id m)
    (active_append_segment_len_bytes m) (unsynced_records m) (unsynced_bytes m).
Definition set_bytes_written (v : RecordKindMetrics) (m : StorageMetrics) : StorageMetrics :=
  mkStorageMetrics
    (records_written m) v (records_replayed m) (bytes_replayed m) (segment_rotations m)
    (syncs m) (durable_syncs m) (replay_truncations m) (checksum_failures m)
    (nodes_created m) (nodes_removed m) (rejected_operations m)
    (snapshot_checkpoints_saved m) (gc_runs m) (gc_segments_deleted m) (active_nodes m)
    (removed_nodes m) (checkpoint_index_nodes m) (active_append_segment_id m)
    (active_append_segment_len_bytes m) (unsynced_records m) (unsynced_bytes m).
Definition set_records_replayed (v : RecordKindMetrics) (m : StorageMetrics) : StorageMetrics :=
  mkStorageMetrics
    (records_written m) (bytes_written m) v (bytes_replayed m) (segment_rotations m)
    (syncs m) (durable_syncs m) (replay_truncations m) (checksum_failures m)
    (nodes_created m) (nodes_removed m) (rejected_operations m)
    (snapshot_checkpoints_saved m) (gc_runs m) (gc_segments_deleted m) (active_nodes m)
    (removed_nodes m) (checkpoint_index_nodes m) (active_append_segment_id m)
    (active_append_segment_len_bytes m) (unsynced_records m) (unsynced_bytes m).
Definition set_bytes_replayed (v : RecordKindMetrics) (m : StorageMetrics) : StorageMetrics :=
  mkStorageMetrics
    (records_written m) (bytes_written m) (records_replayed m) v (segment_rotations m)
    (syncs m) (durable_syncs m) (replay_truncations m) (checksum_failures m)
    (nodes_created m) (nodes_removed m) (rejected_operations m)
    (snapshot_checkpoints_saved m) (gc_runs m) (gc_segments_deleted m) (active_nodes m)
    (removed_nodes m) (checkpoint_index_nodes m) (active_append_segment_id m)
    (active_append_segment_len_bytes m) (unsynced_records m) (unsynced_bytes m).
Definition set_segment_rotations (v : N) (m : StorageMetrics) : StorageMetrics :=
  mkStorageMetrics
    (records_written m) (bytes_written m) (records_replayed m) (bytes_replayed m) v (syncs
    m) (durable_syncs m) (replay_truncations m) (checksum_failures m) (nodes_created m)
    (nodes_removed m) (rejected_operations m) (snapshot_checkpoints_saved m) (gc_runs m)
    (gc_segments_deleted m) (active_nodes m) (removed_nodes m) (checkpoint_index_nodes m)
    (active_append_segment_id m) (active_append_segment_len_bytes m) (unsynced_records m)
    (unsynced_bytes m).
Definition set_syncs (v : N) (m : StorageMetrics) : StorageMetrics :=
  mkStorageMetrics
    (records_written m) (bytes_written m) (records_replayed m) (bytes_replayed m)
    (segment_rotations m) v (durable_syncs m) (replay_truncations m) (checksum_failures m)
    (nodes_created m) (nodes_removed m) (rejected_operations m)
    (snapshot_checkpoints_saved m) (gc_runs m) (gc_segments_deleted m) (active_nodes m)
    (removed_nodes m) (checkpoint_index_nodes m) (active_append_segment_id m)
    (active_append_segment_len_bytes m) (unsynced_records m) (unsynced_bytes m).
Definition set_durable_syncs (v : N) (m : StorageMetrics) : StorageMetrics :=
  mkStorageMetrics
    (records_written m) (bytes_written m) (records_replayed m) (bytes_replayed m)
    (segment_rotations m) (syncs m) v (replay_truncations m) (checksum_failures m)
    (nodes_created m) (nodes_removed m) (rejected_operations m)
    (snapshot_checkpoints_saved m) (gc_runs m) (gc_segments_deleted m) (active_nodes m)
    (removed_nodes m) (checkpoint_index_nodes m) (active_append_segment_id m)
    (active_append_segment_len_bytes m) (unsynced_records m) (unsynced_bytes m).
Definition set_replay_truncations (v : N) (m : StorageMetrics) : StorageMetrics :=
  mkStorageMetrics
    (records_written m) (bytes_written m) (records_replayed m) (bytes_replayed m)
    (segment_rotations m) (syncs m) (durable_syncs m) v (checksum_failures m)
    (nodes_created m) (nodes_removed m) (rejected_operations m)
    (snapshot_checkpoints_saved m) (gc_runs m) (gc_segments_deleted m) (active_nodes m)
    (removed_nodes m) (checkpoint_index_nodes m) (active_append_segment_id m)
    (active_append_segment_len_bytes m) (unsynced_records m) (unsynced_bytes m).
Definition set_checksum_failures (v : N) (m : StorageMetrics) : StorageMetrics :=
  mkStorageMetrics
    (records_written m) (bytes_written m) (records_replayed m) (bytes_replayed m)
    (segment_rotations m) (syncs m) (durable_syncs m) (replay_truncations m) v
    (nodes_created m) (nodes_removed m) (rejected_operations m)
    (snapshot_checkpoints_saved m) (gc_runs m) (gc_segments_deleted m) (active_nodes m)
    (removed_nodes m) (checkpoint_index_nodes m) (active_append_segment_id m)
    (active_append_segment_len_bytes m) (unsynced_records m) (unsynced_bytes m).
Definition set_nodes_created (v : N) (m : StorageMetrics) : StorageMetrics :=
  mkStorageMetrics
    (records_written m) (bytes_written m) (records_replayed m) (bytes_replayed m)
    (segment_rotations m) (syncs m) (durable_syncs m) (replay_truncations m)
    (checksum_failures m) v (nodes_removed m) (rejected_operations m)
    (snapshot_checkpoints_saved m) (gc_runs m) (gc_segments_deleted m) (active_nodes m)
    (removed_nodes m) (checkpoint_index_nodes m) (active_append_segment_id m)
    (active_append_segment_len_bytes m) (unsynced_records m) (unsynced_bytes m).
Definition set_nodes_removed (v : N) (m : StorageMetrics) : StorageMetrics :=
  mkStorageMetrics
    (records_written m) (bytes_written m) (records_replayed m) (bytes_replayed m)
    (segment_rotations m) (syncs m) (durable_syncs m) (replay_truncations m)
    (checksum_failures m) (nodes_created m) v (rejected_operations m)
    (snapshot_checkpoints_saved m) (gc_runs m) (gc_segments_deleted m) (active_nodes m)
    (removed_nodes m) (checkpoint_index_nodes m) (active_append_segment_id m)
    (active_append_segment_len_bytes m) (unsynced_records m) (unsynced_bytes m).
Definition set_rejected_operations (v : RejectedOperationMetrics) (m : StorageMetrics) : StorageMetrics :=
  mkStorageMetrics
    (records_written m) (bytes_written m) (records_replayed m) (bytes_replayed m)
    (segment_rotations m) (syncs m) (durable_syncs m) (replay_truncations m)
    (checksum_failures m) (nodes_created m) (nodes_removed m) v
    (snapshot_checkpoints_saved m) (gc_runs m) (gc_segments_deleted m) (active_nodes m)
    (removed_nodes m) (checkpoint_index_nodes m) (active_append_segment_id m)
    (active_append_segment_len_bytes m) (unsynced_records m) (unsynced_bytes m).
Definition set_snapshot_checkpoints_saved (v : N) (m : StorageMetrics) : StorageMetrics :=
  mkStorageMetrics
    (records_written m) (bytes_written m) (records_replayed m) (bytes_replayed m)
    (segment_rotations m) (syncs m) (durable_syncs m) (replay_truncations m)
    (checksum_failures m) (nodes_created m) (nodes_removed m) (rejected_operations m) v
    (gc_runs m) (gc_segments_deleted m) (active_nodes m) (removed_nodes m)
    (checkpoint_index_nodes m) (active_append_segment_id m)
    (active_append_segment_len_bytes m) (unsynced_records m) (unsynced_bytes m).
Definition set_gc_runs (v : N) (m : StorageMetrics) : StorageMetrics :=
  mkStorageMetrics
    (records_written m) (bytes_written m) (records_replayed m) (bytes_replayed m)
    (segment_rotations m) (syncs m) (durable_syncs m) (replay_truncations m)
    (checksum_failures m) (nodes_created m) (nodes_removed m) (rejected_operations m)
    (snapshot_checkpoints_saved m) v (gc_segments_deleted m) (active_nodes m)
    (removed_nodes m) (checkpoint_index_nodes m) (active_append_segment_id m)
    (active_append_segment_len_bytes m) (unsynced_records m) (unsynced_bytes m).
Definition set_gc_segments_deleted (v : N) (m : StorageMetrics) : StorageMetrics :=
  mkStorageMetrics
    (records_written m) (bytes_written m) (records_replayed m) (bytes_replayed m)
    (segment_rotations m) (syncs m) (durable_syncs m) (replay_truncations m)
    (checksum_failures m) (nodes_created m) (nodes_removed m) (rejected_operations m)
    (snapshot_checkpoints_saved m) (gc_runs m) v (active_nodes m) (removed_nodes m)
    (checkpoint_index_nodes m) (active_append_segment_id m)
    (active_append_segment_len_bytes m) (unsynced_records m) (unsynced_bytes m).
Definition set_active_nodes (v : N) (m : StorageMetrics) : StorageMetrics :=
  mkStorageMetrics
    (records_written m) (bytes_written m) (records_replayed m) (bytes_replayed m)
    (segment_rotations m) (syncs m) (durable_syncs m) (replay_truncations m)
    (checksum_failures m) (nodes_created m) (nodes_removed m) (rejected_operations m)
    (snapshot_checkpoints_saved m) (gc_runs m) (gc_segments_deleted m) v (removed_nodes m)
    (checkpoint_index_nodes m) (active_append_segment_id m)
    (active_append_segment_len_bytes m) (unsynced_records m) (unsynced_bytes m).
Definition set_removed_nodes (v : N) (m : StorageMetrics) : StorageMetrics :=
  mkStorageMetrics
    (records_written m) (bytes_written m) (records_replayed m) (bytes_replayed m)
    (segment_rotations m) (syncs m) (durable_syncs m) (replay_truncations m)
    (checksum_failures m) (nodes_created m) (nodes_removed m) (rejected_operations m)
    (snapshot_checkpoints_saved m) (gc_runs m) (gc_segments_deleted m) (active_nodes m) v
    (checkpoint_index_nodes m) (active_append_segment_id m)
    (active_append_segment_len_bytes m) (unsynced_records m) (unsynced_bytes m).
Definition set_checkpoint_index_nodes (v : N) (m : StorageMetrics) : StorageMetrics :=
  mkStorageMetrics
    (records_written m) (bytes_written m) (records_replayed m) (bytes_replayed m)
    (segment_rotations m) (syncs m) (durable_syncs m) (replay_truncations m)
    (checksum_failures m) (nodes_created m) (nodes_removed m) (rejected_operations m)
    (snapshot_checkpoints_saved m) (gc_runs m) (gc_segments_deleted m) (active_nodes m)
    (removed_nodes m) v (active_append_segment_id m) (active_append_segment_len_bytes m)
    (unsynced_records m) (unsynced_bytes m).
Definition set_active_append_segment_id (v : N) (m : StorageMetrics) : StorageMetrics :=
  mkStorageMetrics
    (records_written m) (bytes_written m) (records_replayed m) (bytes_replayed m)
    (segment_rotations m) (syncs m) (durable_syncs m) (replay_truncations m)
    (checksum_failures m) (nodes_created m) (nodes_removed m) (rejected_operations m)
    (snapshot_checkpoints_saved m) (gc_runs m) (gc_segments_deleted m) (active_nodes m)
    (removed_nodes m) (checkpoint_index_nodes m) v (active_append_segment_len_bytes m)
    (unsynced_records m) (unsynced_bytes m).
Definition set_active_append_segment_len_bytes (v : N) (m : StorageMetrics) : StorageMetrics :=
  mkStorageMetrics
    (records_written m) (bytes_written m) (records_replayed m) (bytes_replayed m)
    (segment_rotations m) (syncs m) (durable_syncs m) (replay_truncations m)
    (checksum_failures m) (nodes_created m) (nodes_removed m) (rejected_operations m)
    (snapshot_checkpoints_saved m) (gc_runs m) (gc_segments_deleted m) (active_nodes m)
    (removed_nodes m) (checkpoint_index_nodes m) (active_append_segment_id m) v
    (unsynced_records m) (unsynced_bytes m).
Definition set_unsynced_records (v : N) (m : StorageMetrics) : StorageMetrics :=
  mkStorageMetrics
    (records_written m) (bytes_written m) (records_replayed m) (bytes_replayed m)
    (segment_rotations m) (syncs m) (durable_syncs m) (replay_truncations m)
    (checksum_failures m) (nodes_created m) (nodes_removed m) (rejected_operations m)
    (snapshot_checkpoints_saved m) (gc_runs m) (gc_segments_deleted m) (active_nodes m)
    (removed_nodes m) (checkpoint_index_nodes m) (active_append_segment_id m)
    (active_append_segment_len_bytes m) v (unsynced_bytes m).
Definition set_unsynced_bytes (v : N) (m : StorageMetrics) : StorageMetrics :=
  mkStorageMetrics
    (records_written m) (bytes_written m) (records_replayed m) (bytes_replayed m)
    (segment_rotations m) (syncs m) (durable_syncs m) (replay_truncations m)
    (checksum_failures m) (nodes_created m) (nodes_removed m) (rejected_operations m)
    (snapshot_checkpoints_saved m) (gc_runs m) (gc_segments_deleted m) (active_nodes m)
    (removed_nodes m) (checkpoint_index_nodes m) (active_append_segment_id m)
    (active_append_segment_len_bytes m) (unsynced_records m) v.

(** ** Increments by kind *)

(** [RecordKindMetrics::increment]. *)
Definition record_kind_increment (kind : RecordKindMetric) (value : N) (k : RecordKindMetrics)
  : RecordKindMetrics :=
  let '(mkRecordKindMetrics t v a c) := k in
  match kind with
  | KindCurrentTerm => mkRecordKindMetrics (increment t value) v a c
  | KindVotedFor => mkRecordKindMetrics t (increment v value) a c
  | KindLogAppend => mkRecordKindMetrics t v (increment a value) c
  | KindSnapshotCheckpoint => mkRecordKindMetrics t v a (increment c value)
  end.

(** [OperationKindMetrics::increment]. *)
Definition operation_kind_increment (operation : StorageOperationKind) (k : OperationKindMetrics)
  : OperationKindMetrics :=
  let '(mkOperationKindMetrics l t v a s r) := k in
  match operation with
  | OpLoad => mkOperationKindMetrics (increment l 1) t v a s r
  | OpSaveCurrentTerm => mkOperationKindMetrics l (increment t 1) v a s r
  | OpSaveVotedFor => mkOperationKindMetrics l t (increment v 1) a s r
  | OpAppendEntries => mkOperationKindMetrics l t v (increment a 1) s r
  | OpSaveSnapshot => mkOperationKindMetrics l t v a (increment s 1) r
  | OpRemoveNode => mkOperationKindMetrics l t v a s (increment r 1)
  end.

(** [RejectedOperationMetrics::increment]. *)
Definition rejected_increment (operation : StorageOperationKind) (error : NodeAccessErrorKind)
  (r : RejectedOperationMetrics) : RejectedOperationMetrics :=
  match error with
  | UnknownNode =>
      mkRejectedOperationMetrics (operation_kind_increment operation (rejected_unknown_nodes r))
                                 (rejected_removed_nodes r)
  | RemovedNode =>
      mkRejectedOperationMetrics (rejected_unknown_nodes r)
                                 (operation_kind_increment operation (rejected_removed_nodes r))
  end.

(** ** [StorageMetricsCounters] *)

Implicit Types m : StorageMetrics.

Definition record_written (kind : RecordKindMetric) (bytes : N) m : StorageMetrics :=
  let m := set_records_written (record_kind_increment kind 1 (records_written m)) m in
  let m := set_bytes_written (record_kind_increment kind bytes (bytes_written m)) m in
  let m := set_unsynced_records (increment (unsynced_records m) 1) m in
  set_unsynced_bytes (increment (unsynced_bytes m) bytes) m.

Definition record_replayed (kind : RecordKindMetric) (bytes : N) m : StorageMetrics :=
  let m := set_records_replayed (record_kind_increment kind 1 (records_replayed m)) m in
  set_bytes_replayed (record_kind_increment kind bytes (bytes_replayed m)) m.

Definition segment_opened (segment_id segment_len : N) m : StorageMetrics :=
  let m := set_active_append_segment_id segment_id m in
  set_active_append_segment_len_bytes segment_len m.

Definition segment_written (segment_len : N) m : StorageMetrics :=
  set_active_append_segment_len_bytes segment_len m.

Definition segment_rotated (segment_id segment_len : N) m : StorageMetrics :=
  let m := set_segment_rotations (increment (segment_rotations m) 1) m in
  segment_opened segment_id segment_len m.

Definition sync_requested m : StorageMetrics := set_syncs (increment (syncs m) 1) m.

Definition segment_synced m : StorageMetrics :=
  let m := set_durable_syncs (increment (durable_syncs m) 1) m in
  let m := set_unsynced_records 0 m in
  set_unsynced_bytes 0 m.

Definition replay_truncated m : StorageMetrics :=
  set_replay_truncations (increment (replay_truncations m) 1) m.

Definition checksum_failed m : StorageMetrics :=
  set_checksum_failures (increment (checksum_failures m) 1) m.

Definition node_created m : StorageMetrics := set_nodes_created (increment (nodes_created m) 1) m.

Definition node_removed m : StorageMetrics := set_nodes_removed (increment (nodes_removed m) 1) m.

Definition rejected_operation (operation : StorageOperationKind) (error : NodeAccessErrorKind) m
  : StorageMetrics :=
  set_rejected_operations (rejected_increment operation error (rejected_operations m)) m.

Definition snapshot_checkpoint_saved m : StorageMetrics :=
  set_snapshot_checkpoints_saved (increment (snapshot_checkpoints_saved m) 1) m.

Definition gc_ran m : StorageMetrics := set_gc_runs (increment (gc_runs m) 1) m.

Definition gc_deleted_segments (count : N) m : StorageMetrics :=
  set_gc_segments_deleted (increment (gc_segments_deleted m) count) m.

Definition registry_loaded (active removed : N) m : StorageMetrics :=
  set_removed_nodes removed (set_active_nodes active m).

Definition checkpoint_index_loaded (nodes : N) m : StorageMetrics :=
  set_checkpoint_index_nodes nodes m.

Definition node_counts_changed (active removed : N) m : StorageMetrics :=
  set_removed_nodes removed (set_active_nodes active m).

Definition checkpoint_index_changed (nodes : N) m : StorageMetrics :=
  set_checkpoint_index_nodes nodes m.

(** ** Lemmas *)

Lemma increment_u64 c v : increment c v < U64_LIMIT.
Proof.
  unfold increment, u64_saturating_add, u64_max.
  assert (1 < U64_LIMIT) by done. lia.
Qed.

Lemma increment_ge c v : c < U64_LIMIT → c ≤ increment c v.
Proof. unfold increment, u64_saturating_add, u64_max. lia. Qed.

Lemma increment_pos c v : 0 < v → increment c v ≠ 0.
Proof.
  unfold increment, u64_saturating_add, u64_max. assert (1 < U64_LIMIT) by done. lia.
Qed.

Lemma increment_exact c v : c + v < U64_LIMIT → increment c v = c + v.
Proof. unfold increment, u64_saturating_add, u64_max. lia. Qed.
