(* ===== verification/Crc32c.v ===== *)
(** * CRC-32C (Castagnoli), [src/crc32c.rs]

    The slice-by-16 table implementation, its byte-at-a-time reference and
    the proof that the two agree; the error-detection guarantee the segment
    format relies on. *)
From Stdlib Require Import Btauto Strings.Byte.
From S2P Require Import Prelude.

Definition POLYNOMIAL : N := 0x82F63B78.
Definition SLICE : nat := 16.

(** One turn of the inner loop of [make_table] (and of the bitwise reference). *)
Definition crc_bit_step (crc : N) : N :=
  if N.land crc 1 =? 0 then N.shiftr crc 1 else N.lxor (N.shiftr crc 1) POLYNOMIAL.

(** [while bit < 8 { .. }]. *)
Definition crc_byte_step (crc : N) : N := Nat.iter 8 crc_bit_step crc.

Definition table_get (table : list (list N)) (slice : nat) (i : N) : N :=
  nth (N.to_nat i) (nth slice table []) 0.

Definition table_set (table : list (list N)) (slice i : nat) (v : N) : list (list N) :=
  alter (λ row, <[i := v]> row) slice table.

(** The first loop of [make_table]: [table[0][i]]. *)
Definition make_table_first (table : list (list N)) : list (list N) :=
  foldl (λ table i, table_set table 0 i (crc_byte_step (N.of_nat i))) table (seq 0 256).

(** The body of the second loop: [table[slice][i]] from [table[slice - 1]]. *)
Definition make_table_slice (table : list (list N)) (slice : nat) : list (list N) :=
  foldl (λ table i,
           let prev := table_get table (slice - 1) (N.of_nat i) in
           table_set table slice i
             (N.lxor (N.shiftr prev 8) (table_get table 0 (N.land prev 0xFF))))
        table (seq 0 256).

Definition make_table : list (list N) :=
  foldl make_table_slice
        (make_table_first (replicate SLICE (replicate 256 0)))
        (seq 1 (SLICE - 1)).

Definition TABLE : list (list N) := make_table.

Record Crc32c := mkCrc32c { state : N }.

(** [Crc32c::new]. *)
Definition crc_new : Crc32c := mkCrc32c 0xFFFFFFFF.

(** [Crc32c::default]. *)
Definition crc_default : Crc32c := crc_new.

(** One turn of the sixteen-byte loop of [Crc32c::update] on the slice
    [data[i..i + 16]]. *)
Definition update_slice16 (crc : N) (d : list byte) : N :=
  let w0 := N.lxor (from_le (take 4 d)) crc in
  let w1 := from_le (take 4 (drop 4 d)) in
  let w2 := from_le (take 4 (drop 8 d)) in
  let w3 := from_le (take 4 (drop 12 d)) in
  let T := table_get TABLE in
  let byte_at w k := N.land (N.shiftr w k) 0xFF in
  foldl N.lxor (T 15%nat (N.land w0 0xFF))
    [ T 14%nat (byte_at w0 8); T 13%nat (byte_at w0 16); T 12%nat (N.shiftr w0 24);
      T 11%nat (N.land w1 0xFF);
      T 10%nat (byte_at w1 8); T 9%nat (byte_at w1 16); T 8%nat (N.shiftr w1 24);
      T 7%nat (N.land w2 0xFF);
      T 6%nat (byte_at w2 8); T 5%nat (byte_at w2 16); T 4%nat (N.shiftr w2 24);
      T 3%nat (N.land w3 0xFF);
      T 2%nat (byte_at w3 8); T 1%nat (byte_at w3 16); T 0%nat (N.shiftr w3 24) ].

(** One turn of the byte loop of [Crc32c::update]. *)
Definition update_byte (crc : N) (b : byte) : N :=
  N.lxor (N.shiftr crc 8)
         (table_get TABLE 0 (N.land (N.lxor crc (byte_to_N b)) 0xFF)).

(** [while i + SLICE <= data.len() { .. }]: [data] is what is left from [i];
    returns the register and what the loop leaves.  [fuel] bounds the turns. *)
Fixpoint update_slices (fuel : nat) (crc : N) (data : list byte) : N * list byte :=
  match fuel with
  | O => (crc, data)
  | S fuel =>
      if bool_decide (SLICE ≤ length data)%nat
      then update_slices fuel (update_slice16 crc (take SLICE data)) (drop SLICE data)
      else (crc, data)
  end.

(** [Crc32c::update]; the number of turns is below the length of the data. *)
Definition update (c : Crc32c) (data : list byte) : Crc32c :=
  let '(crc, rest) := update_slices (length data) (state c) data in
  mkCrc32c (foldl update_byte crc rest).

(** [Crc32c::value]: [!self.state] on 32 bits. *)
Definition value (c : Crc32c) : N := N.lxor (state c) 0xFFFFFFFF.

(** [crc32c]. *)
Definition crc32c (data : list byte) : N := value (update crc_new data).

(** The bitwise reference, [crc32c_byte_at_a_time] of the unit tests. *)
Definition reference_byte (crc : N) (b : byte) : N := crc_byte_step (N.lxor crc (byte_to_N b)).
Definition crc32c_byte_at_a_time (data : list byte) : N :=
  N.lxor (foldl reference_byte 0xFFFFFFFF data) 0xFFFFFFFF.

#[global] Opaque TABLE.

(** ** Linearity of the register update *)

(** Equalities of xors, bit by bit. *)
Ltac xor_bits :=
  apply N.bits_inj; intros ?i; rewrite ?N.lxor_spec, ?N.bits_0;
  repeat match goal with |- context [N.testbit ?a ?i] => generalize (N.testbit a i) end;
  intros; btauto.

Lemma crc_bit_step_alt c :
  crc_bit_step c = N.lxor (N.shiftr c 1) (if N.testbit c 0 then POLYNOMIAL else 0).
Proof.
  unfold crc_bit_step. change 1 with (N.ones 1) at 1.
  rewrite N.land_ones. change (2 ^ 1) with 2. rewrite <-N.bit0_mod.
  destruct (N.testbit c 0); cbn [N.b2n]; [done|]. by rewrite N.lxor_0_r.
Qed.

Lemma crc_bit_step_lxor a b :
  crc_bit_step (N.lxor a b) = N.lxor (crc_bit_step a) (crc_bit_step b).
Proof.
  rewrite !crc_bit_step_alt, N.shiftr_lxor, N.lxor_spec.
  destruct (N.testbit a 0), (N.testbit b 0); cbn [xorb]; xor_bits.
Qed.

Lemma crc_byte_step_lxor a b :
  crc_byte_step (N.lxor a b) = N.lxor (crc_byte_step a) (crc_byte_step b).
Proof. unfold crc_byte_step. simpl Nat.iter. by rewrite !crc_bit_step_lxor. Qed.

Lemma crc_byte_step_0 : crc_byte_step 0 = 0.
Proof. reflexivity. Qed.

Lemma crc_bit_step_double x : crc_bit_step (N.double x) = x.
Proof.
  rewrite crc_bit_step_alt, N.double_spec, N.testbit_even_0, N.lxor_0_r.
  rewrite N.shiftr_div_pow2. change (2 ^ 1) with 2. rewrite N.mul_comm. by rewrite N.div_mul.
Qed.

Lemma crc_byte_step_shiftl x : crc_byte_step (N.shiftl x 8) = x.
Proof.
  replace (N.shiftl x 8) with (Nat.iter 8 N.double x).
  - unfold crc_byte_step. simpl Nat.iter. by rewrite !crc_bit_step_double.
  - rewrite N.shiftl_mul_pow2. simpl Nat.iter. rewrite !N.double_spec.
    change (2 ^ 8) with 256. lia.
Qed.

Lemma low_high_split c : c = N.lxor (N.land c 0xFF) (N.shiftl (N.shiftr c 8) 8).
Proof.
  apply N.bits_inj. intros i. change 0xFF with (N.ones 8).
  rewrite N.lxor_spec, N.land_spec. destruct (N.lt_ge_cases i 8).
  - rewrite N.ones_spec_low, N.shiftl_spec_low, andb_true_r, xorb_false_r by done. done.
  - rewrite N.ones_spec_high, N.shiftl_spec_high', N.shiftr_spec' by done.
    rewrite andb_false_r, N.sub_add by done. by destruct (N.testbit c i).
Qed.

Lemma crc_byte_step_split c :
  crc_byte_step c = N.lxor (N.shiftr c 8) (crc_byte_step (N.land c 0xFF)).
Proof.
  rewrite (low_high_split c) at 1.
  rewrite crc_byte_step_lxor, crc_byte_step_shiftl. apply N.lxor_comm.
Qed.

Definition crc_steps (n : nat) (c : N) : N := Nat.iter n crc_byte_step c.

Lemma crc_steps_lxor n a b : crc_steps n (N.lxor a b) = N.lxor (crc_steps n a) (crc_steps n b).
Proof.
  unfold crc_steps. induction n as [|n IH]; simpl; [done|]. by rewrite IH, crc_byte_step_lxor.
Qed.

Lemma crc_steps_0 n : crc_steps n 0 = 0.
Proof. unfold crc_steps. induction n as [|n IH]; simpl; [done|]. by rewrite IH. Qed.

Lemma crc_steps_zero c : crc_steps 0 c = c.
Proof. done. Qed.

Lemma crc_steps_succ n c : crc_steps (S n) c = crc_byte_step (crc_steps n c).
Proof. unfold crc_steps. apply Nat.iter_succ. Qed.

Lemma crc_steps_succ_r n c : crc_steps (S n) c = crc_steps n (crc_byte_step c).
Proof. unfold crc_steps. apply Nat.iter_succ_r. Qed.

Definition all_bytes : list N := N.of_nat <$> seq 0 256.

Lemma all_bytes_spec i : i < 256 → In i all_bytes.
Proof.
  intros Hi. apply list_elem_of_In, list_elem_of_fmap. exists (N.to_nat i).
  rewrite N2Nat.id. split; [done|]. apply elem_of_seq. lia.
Qed.

#[global] Opaque crc_steps.

(** The sixteen tables hold the register updates by one to sixteen zero bytes. *)
Lemma table_get_0 i : i < 256 → table_get TABLE 0 i = crc_byte_step i.
Proof.
  intros Hi. apply N.eqb_eq.
  assert (H : forallb (λ i, table_get TABLE 0 i =? crc_byte_step i) all_bytes = true)
    by (vm_compute; reflexivity).
  rewrite forallb_forall in H. by apply H, all_bytes_spec.
Qed.

Lemma table_get_succ k i :
  (k < 15)%nat → i < 256 → table_get TABLE (S k) i = crc_byte_step (table_get TABLE k i).
Proof.
  intros Hk Hi. apply N.eqb_eq.
  assert (H : forallb (λ k, forallb (λ i,
      table_get TABLE (S k) i =? crc_byte_step (table_get TABLE k i)) all_bytes)
      (seq 0 15) = true) by (vm_compute; reflexivity).
  rewrite forallb_forall in H. specialize (H k). rewrite forallb_forall in H. apply H.
  - apply list_elem_of_In, elem_of_seq. lia.
  - by apply all_bytes_spec.
Qed.

Lemma table_get_steps k i :
  (k < 16)%nat → i < 256 → table_get TABLE k i = crc_steps (S k) i.
Proof.
  intros Hk Hi. induction k as [|k IH]; [by rewrite table_get_0, crc_steps_succ|].
  rewrite table_get_succ, IH by lia. symmetry. apply crc_steps_succ.
Qed.

Lemma land_255_lt c : N.land c 0xFF < 256.
Proof. change 0xFF with (N.ones 8). rewrite N.land_ones. by apply N.mod_lt. Qed.

Lemma land_255_byte b : N.land (byte_to_N b) 0xFF = byte_to_N b.
Proof.
  change 0xFF with (N.ones 8). rewrite N.land_ones. apply N.mod_small, byte_to_N_bound.
Qed.

Lemma shiftr_8_byte b : N.shiftr (byte_to_N b) 8 = 0.
Proof. rewrite N.shiftr_div_pow2. apply N.div_small, byte_to_N_bound. Qed.

(** One table lookup per byte computes the bitwise update. *)
Lemma update_byte_reference c b : update_byte c b = reference_byte c b.
Proof.
  unfold update_byte, reference_byte. rewrite table_get_0 by apply land_255_lt.
  rewrite (crc_byte_step_split (N.lxor c (byte_to_N b))).
  by rewrite N.shiftr_lxor, shiftr_8_byte, N.lxor_0_r.
Qed.

(** ** The sixteen-byte step *)

Lemma foldl_reference_split c bs :
  foldl reference_byte c bs =
  N.lxor (crc_steps (length bs) c) (foldl reference_byte 0 bs).
Proof.
  revert c. induction bs as [|b bs IH]; intros c.
  - simpl. by rewrite N.lxor_0_r.
  - simpl foldl. rewrite (IH (reference_byte c b)), (IH (reference_byte 0 b)).
    simpl length. rewrite crc_steps_succ_r. unfold reference_byte.
    rewrite N.lxor_0_l, crc_byte_step_lxor, crc_steps_lxor. by rewrite N.lxor_assoc.
Qed.

Lemma foldl_reference_cons b bs :
  foldl reference_byte 0 (b :: bs) =
  N.lxor (crc_steps (S (length bs)) (byte_to_N b)) (foldl reference_byte 0 bs).
Proof.
  simpl foldl. rewrite foldl_reference_split, crc_steps_succ_r.
  unfold reference_byte at 1. by rewrite N.lxor_0_l.
Qed.

(** The bytes of a 32-bit register step out one after the other. *)
Lemma crc_steps_low n c :
  crc_steps (S n) c = N.lxor (crc_steps (S n) (N.land c 0xFF)) (crc_steps n (N.shiftr c 8)).
Proof.
  rewrite (low_high_split c) at 1. rewrite crc_steps_lxor. f_equal.
  by rewrite crc_steps_succ_r, crc_byte_step_shiftl.
Qed.

Lemma from_le_low b bs : N.land (from_le (b :: bs)) 0xFF = byte_to_N b.
Proof.
  cbn [from_le]. change 0xFF with (N.ones 8). rewrite N.land_ones. change (2 ^ 8) with 256.
  rewrite N.mul_comm, N.Div0.mod_add, N.mod_small; [done|apply byte_to_N_bound].
Qed.

Lemma from_le_high b bs : N.shiftr (from_le (b :: bs)) 8 = from_le bs.
Proof.
  cbn [from_le]. rewrite N.shiftr_div_pow2. change (2 ^ 8) with 256.
  pose proof (byte_to_N_bound b). rewrite N.mul_comm, N.div_add, N.div_small; lia.
Qed.

Lemma land_255_lxor a b : N.land (N.lxor a b) 0xFF = N.lxor (N.land a 0xFF) (N.land b 0xFF).
Proof.
  apply N.bits_inj. intros i. rewrite !N.land_spec, !N.lxor_spec, !N.land_spec.
  by destruct (N.testbit a i), (N.testbit b i), (N.testbit 0xFF i).
Qed.

Lemma land_255_small c : c < 256 → N.land c 0xFF = c.
Proof. intros H. change 0xFF with (N.ones 8). rewrite N.land_ones. by apply N.mod_small. Qed.

Lemma shiftr_24_lt c : c < U32_LIMIT → N.shiftr c 24 < 256.
Proof.
  intros H. rewrite N.shiftr_div_pow2. apply N.Div0.div_lt_upper_bound.
  change (2 ^ 24 * 256) with U32_LIMIT. done.
Qed.

(** A word's four table lookups are the updates by its bytes. *)
Lemma table_word k w :
  (k < 13)%nat → w < U32_LIMIT →
  N.lxor (N.lxor (N.lxor (table_get TABLE (3 + k) (N.land w 0xFF))
    (table_get TABLE (2 + k) (N.land (N.shiftr w 8) 0xFF)))
    (table_get TABLE (1 + k) (N.land (N.shiftr w 16) 0xFF)))
    (table_get TABLE k (N.shiftr w 24)) = crc_steps (4 + k) w.
Proof.
  intros Hk Hw.
  rewrite !table_get_steps by (lia || apply land_255_lt || by apply shiftr_24_lt).
  simpl plus. rewrite (crc_steps_low (S (S (S k))) w).
  rewrite (crc_steps_low (S (S k)) (N.shiftr w 8)), N.shiftr_shiftr.
  rewrite (crc_steps_low (S k) (N.shiftr w (8 + 8))), N.shiftr_shiftr.
  by rewrite !N.lxor_assoc.
Qed.

Lemma from_le_word (a b c d : byte) : from_le [a; b; c; d] < U32_LIMIT.
Proof. apply (from_le_bound [a; b; c; d]). Qed.

Lemma testbit_small c i : c < U32_LIMIT → 32 ≤ i → N.testbit c i = false.
Proof.
  intros Hc Hi. destruct (N.eq_dec c 0) as [->|]; [apply N.bits_0|].
  apply N.bits_above_log2. apply N.log2_lt_pow2; [lia|].
  eapply N.lt_le_trans; [exact Hc|]. by apply N.pow_le_mono_r.
Qed.

Lemma small_testbit c : (∀ i, 32 ≤ i → N.testbit c i = false) → c < U32_LIMIT.
Proof.
  intros H. destruct (N.eq_dec c 0) as [->|Hc]; [done|].
  apply N.log2_lt_pow2; [lia|]. destruct (N.lt_ge_cases (N.log2 c) 32) as [?|Hge]; [done|].
  specialize (H _ Hge). by rewrite N.bit_log2 in H.
Qed.

Lemma lxor_u32 a b : a < U32_LIMIT → b < U32_LIMIT → N.lxor a b < U32_LIMIT.
Proof.
  intros Ha Hb. apply small_testbit. intros i Hi.
  by rewrite N.lxor_spec, !testbit_small.
Qed.

Lemma steps_word n a b c d :
  crc_steps (4 + n) (from_le [a; b; c; d]) =
  N.lxor (crc_steps (4 + n) (byte_to_N a)) (N.lxor (crc_steps (3 + n) (byte_to_N b))
    (N.lxor (crc_steps (2 + n) (byte_to_N c)) (crc_steps (1 + n) (byte_to_N d)))).
Proof.
  simpl plus.
  rewrite (crc_steps_low (S (S (S n)))), from_le_low, from_le_high.
  rewrite (crc_steps_low (S (S n)) (from_le _)), from_le_low, from_le_high.
  rewrite (crc_steps_low (S n) (from_le _)), from_le_low, from_le_high.
  cbn [from_le]. by rewrite N.mul_0_r, N.add_0_r.
Qed.

Lemma update_slice16_reference c d :
  c < U32_LIMIT → length d = SLICE → update_slice16 c d = foldl reference_byte c d.
Proof.
  intros Hc Hd. rewrite foldl_reference_split, Hd. unfold SLICE in *.
  do 16 (destruct d as [|?b d]; [discriminate Hd|]). destruct d; [|discriminate Hd].
  rewrite !foldl_reference_cons. cbn [length].
  change (foldl reference_byte 0 []) with 0. unfold update_slice16. cbn [take drop foldl].
  set (w0 := N.lxor _ c). assert (Hw0 : w0 < U32_LIMIT) by (by apply lxor_u32, Hc; apply from_le_word).
  transitivity (N.lxor (N.lxor (N.lxor (crc_steps 16 w0)
    (crc_steps 12 (from_le [b3; b4; b5; b6])))
    (crc_steps 8 (from_le [b7; b8; b9; b10])))
    (crc_steps 4 (from_le [b11; b12; b13; b14]))).
  - pose proof (table_word 12 w0 ltac:(lia) Hw0) as E0.
    pose proof (table_word 8 _ ltac:(lia) (from_le_word b3 b4 b5 b6)) as E1.
    pose proof (table_word 4 _ ltac:(lia) (from_le_word b7 b8 b9 b10)) as E2.
    pose proof (table_word 0 _ ltac:(lia) (from_le_word b11 b12 b13 b14)) as E3.
    simpl plus in E0, E1, E2, E3. rewrite <-E0, <-E1, <-E2, <-E3.
    rewrite !N.lxor_assoc. reflexivity.
  - unfold w0. rewrite crc_steps_lxor.
    pose proof (steps_word 12 b b0 b1 b2) as E0. pose proof (steps_word 8 b3 b4 b5 b6) as E1.
    pose proof (steps_word 4 b7 b8 b9 b10) as E2. pose proof (steps_word 0 b11 b12 b13 b14) as E3.
    simpl plus in E0, E1, E2, E3. rewrite E0, E1, E2, E3.
    rewrite N.lxor_0_r, (N.lxor_comm _ (crc_steps 16 c)), !N.lxor_assoc. done.
Qed.

(** ** The register stays a 32-bit integer *)

Lemma crc_bit_step_u32 c : c < U32_LIMIT → crc_bit_step c < U32_LIMIT.
Proof.
  intros Hc. rewrite crc_bit_step_alt. apply lxor_u32.
  - rewrite N.shiftr_div_pow2. change (2 ^ 1) with 2.
    eapply N.le_lt_trans; [apply N.Div0.div_le_upper_bound with (q := c); lia|done].
  - by destruct (N.testbit c 0).
Qed.

Lemma crc_byte_step_u32 c : c < U32_LIMIT → crc_byte_step c < U32_LIMIT.
Proof. intros Hc. unfold crc_byte_step. simpl Nat.iter. by repeat apply crc_bit_step_u32. Qed.

Lemma byte_u32 b : byte_to_N b < U32_LIMIT.
Proof. eapply N.lt_trans; [apply byte_to_N_bound|done]. Qed.

Lemma reference_byte_u32 c b : c < U32_LIMIT → reference_byte c b < U32_LIMIT.
Proof. intros Hc. apply crc_byte_step_u32, lxor_u32; [done|apply byte_u32]. Qed.

Lemma foldl_reference_u32 c bs : c < U32_LIMIT → foldl reference_byte c bs < U32_LIMIT.
Proof. revert c. induction bs as [|b bs IH]; intros c Hc; simpl; [done|]. by apply IH, reference_byte_u32. Qed.

(** ** [update] against the reference *)

Lemma foldl_update_byte_reference c bs : foldl update_byte c bs = foldl reference_byte c bs.
Proof.
  revert c. induction bs as [|b bs IH]; intros c; simpl; [done|].
  by rewrite IH, update_byte_reference.
Qed.

Lemma update_slices_reference fuel c data :
  c < U32_LIMIT →
  let '(c', rest) := update_slices fuel c data in
  foldl reference_byte c' rest = foldl reference_byte c data.
Proof.
  revert c data. induction fuel as [|fuel IH]; intros c data Hc; cbn [update_slices]; [done|].
  case_bool_decide as Hlen; [|done].
  assert (Htake : length (take SLICE data) = SLICE) by (rewrite length_take; lia).
  rewrite update_slice16_reference by done.
  specialize (IH (foldl reference_byte c (take SLICE data)) (drop SLICE data)).
  destruct (update_slices _ _ _) as [c' rest]. rewrite IH by by apply foldl_reference_u32.
  by rewrite <-foldl_app, take_drop.
Qed.

(** The fuel of [update] suffices: the loop is left because fewer than
    sixteen bytes remain. *)
Lemma update_slices_exhausts fuel c data :
  (length data ≤ fuel)%nat → (length (update_slices fuel c data).2 < SLICE)%nat.
Proof.
  revert c data. induction fuel as [|fuel IH]; intros c data Hfuel; cbn [update_slices].
  - unfold SLICE. simpl. lia.
  - case_bool_decide as Hlen; [|simpl; lia].
    apply IH. rewrite length_drop. unfold SLICE in *. lia.
Qed.

Lemma update_state c data :
  state c < U32_LIMIT → state (update c data) = foldl reference_byte (state c) data.
Proof.
  intros Hc. unfold update. pose proof (update_slices_reference (length data) (state c) data Hc) as H.
  destruct (update_slices _ _ _) as [c' rest]. cbn [state].
  by rewrite foldl_update_byte_reference.
Qed.

Lemma crc_new_u32 : state crc_new < U32_LIMIT.
Proof. done. Qed.

Lemma update_u32 c data : state c < U32_LIMIT → state (update c data) < U32_LIMIT.
Proof. intros Hc. rewrite update_state by done. by apply foldl_reference_u32. Qed.

Lemma Crc32c_eq a b : state a = state b → a = b.
Proof. destruct a, b; simpl. by intros ->. Qed.

Lemma update_app c a b :
  state c < U32_LIMIT → update (update c a) b = update c (a ++ b).
Proof.
  intros Hc. apply Crc32c_eq. rewrite !update_state by (done || by apply update_u32).
  by rewrite foldl_app.
Qed.

Lemma crc32c_reference data : crc32c data = crc32c_byte_at_a_time data.
Proof. unfold crc32c, value. by rewrite update_state. Qed.

Lemma crc32c_bound data : crc32c data < U32_LIMIT.
Proof.
  unfold crc32c, value. apply lxor_u32; [|done]. by apply update_u32.
Qed.

(** ** The register update is a bijection of the 32-bit registers *)

(** The polynomial has its top bit set and the shifted register has not, so
    the top bit of the result tells which branch was taken. *)
Lemma crc_bit_step_inj a b :
  a < U32_LIMIT → b < U32_LIMIT → crc_bit_step a = crc_bit_step b → a = b.
Proof.
  intros Ha Hb Heq. rewrite !crc_bit_step_alt in Heq.
  assert (Hbit : N.testbit a 0 = N.testbit b 0).
  { apply (f_equal (λ x, N.testbit x 31)) in Heq.
    rewrite !N.lxor_spec, !N.shiftr_spec', (testbit_small a), (testbit_small b) in Heq
      by (done || lia).
    destruct (N.testbit a 0), (N.testbit b 0); vm_compute in Heq; congruence. }
  rewrite Hbit in Heq.
  assert (Hshift : N.shiftr a 1 = N.shiftr b 1).
  { rewrite <-(N.lxor_0_r (N.shiftr a 1)), <-(N.lxor_0_r (N.shiftr b 1)).
    rewrite <-(N.lxor_nilpotent (if N.testbit b 0 then POLYNOMIAL else 0)).
    by rewrite <-!N.lxor_assoc, Heq. }
  apply N.bits_inj. intros i. destruct (N.eq_dec i 0) as [->|Hi]; [done|].
  replace i with (N.pred i + 1) by lia. by rewrite <-!N.shiftr_spec', Hshift.
Qed.

Lemma crc_byte_step_inj a b :
  a < U32_LIMIT → b < U32_LIMIT → crc_byte_step a = crc_byte_step b → a = b.
Proof.
  intros Ha Hb. unfold crc_byte_step. simpl Nat.iter. intros Heq.
  do 8 (apply crc_bit_step_inj in Heq; [|by repeat apply crc_bit_step_u32..]). done.
Qed.

Lemma crc_steps_inj n a b :
  a < U32_LIMIT → b < U32_LIMIT → crc_steps n a = crc_steps n b → a = b.
Proof.
  revert a b. induction n as [|n IH]; intros a b Ha Hb Heq; [by rewrite !crc_steps_zero in Heq|].
  rewrite !crc_steps_succ_r in Heq. apply IH in Heq; [|by apply crc_byte_step_u32..].
  by apply crc_byte_step_inj in Heq.
Qed.

Lemma foldl_reference_inj_state a b bs :
  a < U32_LIMIT → b < U32_LIMIT →
  foldl reference_byte a bs = foldl reference_byte b bs → a = b.
Proof.
  intros Ha Hb Heq. rewrite (foldl_reference_split a), (foldl_reference_split b) in Heq.
  apply (crc_steps_inj (length bs)); [done..|].
  apply (f_equal (λ x, N.lxor x (foldl reference_byte 0 bs))) in Heq.
  by rewrite !N.lxor_assoc, N.lxor_nilpotent, !N.lxor_0_r in Heq.
Qed.

(** Stepping a window in is stepping its little-endian integer. *)
Lemma foldl_reference_from_le w :
  foldl reference_byte 0 w = crc_steps (length w) (from_le w).
Proof.
  induction w as [|b w IH]; [by rewrite crc_steps_zero|].
  rewrite foldl_reference_cons, IH. cbn [length].
  by rewrite (crc_steps_low (length w) (from_le (b :: w))), from_le_low, from_le_high.
Qed.

Lemma from_le_inj v w : length v = length w → from_le v = from_le w → v = w.
Proof. intros Hlen Heq. by rewrite <-(le_bytes_from_le v), <-(le_bytes_from_le w), Hlen, Heq. Qed.

Lemma foldl_reference_inj_window c v w :
  c < U32_LIMIT → length v = length w → (length v ≤ 4)%nat →
  foldl reference_byte c v = foldl reference_byte c w → v = w.
Proof.
  intros Hc Hlen H4 Heq.
  rewrite (foldl_reference_split c v), (foldl_reference_split c w), Hlen in Heq.
  apply (f_equal (N.lxor (crc_steps (length w) c))) in Heq.
  rewrite <-!N.lxor_assoc, N.lxor_nilpotent, !N.lxor_0_l in Heq.
  rewrite !foldl_reference_from_le, Hlen in Heq.
  assert (Hsmall : ∀ u : list byte, (length u ≤ 4)%nat → from_le u < U32_LIMIT).
  { intros u Hu. eapply N.lt_le_trans; [apply from_le_bound|].
    change U32_LIMIT with (256 ^ 4). apply N.pow_le_mono_r; [done|]. unfold lenN. lia. }
  apply crc_steps_inj in Heq; [by apply from_le_inj|apply Hsmall; lia..].
Qed.

Lemma crc32c_burst p v w q :
  length v = length w → (length v ≤ 4)%nat → v ≠ w → crc32c (p ++ v ++ q) ≠ crc32c (p ++ w ++ q).
Proof.
  intros Hlen H4 Hne Heq. apply Hne. rewrite !crc32c_reference in Heq.
  unfold crc32c_byte_at_a_time in Heq.
  apply (f_equal (λ x, N.lxor x 0xFFFFFFFF)) in Heq.
  rewrite !N.lxor_assoc, N.lxor_nilpotent, !N.lxor_0_r, !foldl_app in Heq.
  assert (Hp : foldl reference_byte 0xFFFFFFFF p < U32_LIMIT) by by apply foldl_reference_u32.
  apply foldl_reference_inj_state in Heq; [|by apply foldl_reference_u32..].
  by apply foldl_reference_inj_window in Heq.
Qed.

(** ** Properties *)

(** [C28] The slice-by-16 implementation of [crc32c] computes the bitwise
    CRC-32C of the unit tests, for data of every length: the sixteen tables,
    the word loop and the trailing byte loop together do what eight shifts per
    byte do. *)
Theorem crc32c_equals_reference data : crc32c data = crc32c_byte_at_a_time data.
Proof. apply crc32c_reference. Qed.

(** Feeding a checksum in any two pieces, as [scan_record_frame] does with
    its 8192-byte buffer, gives the checksum of the whole. *)
Theorem crc32c_streaming a b :
  value (update (update crc_new a) b) = crc32c (a ++ b).
Proof. unfold crc32c. by rewrite update_app. Qed.

(** A corruption confined to at most four consecutive bytes always changes
    the checksum. *)
Theorem crc32c_detects_bursts p v w q :
  length v = length w → (length v ≤ 4)%nat → v ≠ w →
  crc32c (p ++ v ++ q) ≠ crc32c (p ++ w ++ q).
Proof. apply crc32c_burst. Qed.

Lemma crc32c_detects_bursts_witness :
  crc32c ([Byte.x00] ++ [Byte.x01; Byte.x02] ++ [Byte.x03])
  ≠ crc32c ([Byte.x00] ++ [Byte.x02; Byte.x01] ++ [Byte.x03]).
Proof. apply crc32c_detects_bursts; [reflexivity|simpl; lia|discriminate]. Defined.
