(* ===== verification/Codec.v ===== *)
(** * The record codec, [src/codec.rs]

    The length-limited [Encoder], the bounds-checked [Decoder] and the
    encoders and decoders of every value a segment record holds.  The reading
    of frames from files is in [Frame]. *)
From Stdlib Require Import Strings.Byte.
From S2P Require Import Prelude Noraft State Crc32c.

Definition SEGMENT_RECORD_BASE_HEADER_LEN : N := 4.
Definition SEGMENT_CHECKSUM_LEN : N := 4.
Definition SEGMENT_RECORD_HEADER_LEN : N := SEGMENT_RECORD_BASE_HEADER_LEN + SEGMENT_CHECKSUM_LEN.
Definition MAX_COUNT_ITEMS : N := 1000000.
Definition MAX_RECORD_BODY_LEN : N := 1024 * 1024 * 1024.

(** ** [Encoder] *)

Record Encoder := mkEncoder { enc_bytes : list byte; enc_len : N }.

Definition encoder_new : Encoder := mkEncoder [] 0.

Definition too_large : io_error := invalid_input "record is too large".

(** [Encoder::check_append_len]. *)
Definition check_append_len (e : Encoder) (additional : N) : result N :=
  match u32_try_from additional with
  | None => Err too_large
  | Some additional =>
      match u32_checked_add (enc_len e) additional with
      | None => Err too_large
      | Some len => if MAX_RECORD_BODY_LEN <? len then Err too_large else Ok len
      end
  end.

(** [Encoder::put_slice]. *)
Definition put_slice (bytes : list byte) : M Encoder () :=
  e ← get_state;
  len ← lift_result (check_append_len e (lenN bytes));
  modify (λ e, mkEncoder (enc_bytes e ++ bytes) len).

Definition put_u8 (value : byte) : M Encoder () := put_slice [value].
Definition put_u32 (value : N) : M Encoder () := put_slice (le_bytes 4 value).
Definition put_u64 (value : N) : M Encoder () := put_slice (le_bytes 8 value).

(** [Encoder::put_bytes]. *)
Definition put_bytes (bytes : list byte) : M Encoder () :=
  match u32_try_from (lenN bytes) with
  | None => throw (invalid_input "byte slice is too large")
  | Some len =>
      if MAX_RECORD_BODY_LEN <? len then throw (invalid_input "byte slice is too large")
      else
        match usize_checked_add 4 (lenN bytes) with
        | None => throw too_large
        | Some additional =>
            e ← get_state;
            new_len ← lift_result (check_append_len e additional);
            modify (λ e, mkEncoder (enc_bytes e ++ le_bytes 4 len ++ bytes) new_len)
        end
  end.

(** [Encoder::finish]. *)
Definition encoder_finish (e : Encoder) : list byte := enc_bytes e.

(** ** [Decoder] *)

Record Decoder := mkDecoder { dec_bytes : list byte; dec_position : N }.

Definition decoder_new (bytes : list byte) : Decoder := mkDecoder bytes 0.

(** [Decoder::take]. *)
Definition decoder_take (len : N) : M Decoder (list byte) :=
  d ← get_state;
  match usize_checked_add (dec_position d) len with
  | None => throw (invalid_data "record offset overflow")
  | Some end_ =>
      if lenN (dec_bytes d) <? end_ then throw (invalid_data "record is too short")
      else
        modify (λ d, mkDecoder (dec_bytes d) end_) ;;
        mret (takeN (end_ - dec_position d) (dropN (dec_position d) (dec_bytes d)))
  end.

(** [Decoder::get_u8]: [take(1)] has one byte. *)
Definition get_u8 : M Decoder byte :=
  bytes ← decoder_take 1;
  mret (default Byte.x00 (head bytes)).

Definition get_u32 : M Decoder N := bytes ← decoder_take 4; mret (from_le bytes).
Definition get_u64 : M Decoder N := bytes ← decoder_take 8; mret (from_le bytes).

(** [Decoder::get_bytes]. *)
Definition get_bytes : M Decoder (list byte) :=
  len ← get_u32;
  if MAX_RECORD_BODY_LEN <? len then throw (invalid_data "byte slice is too large")
  else decoder_take len.

(** [Decoder::finish]. *)
Definition decoder_finish : M Decoder () :=
  d ← get_state;
  if dec_position d =? lenN (dec_bytes d) then mret ()
  else throw (invalid_data "record has trailing bytes").

(** ** Values *)

Definition encode_term (term : N) : M Encoder () := put_u64 term.
Definition decode_term : M Decoder N := get_u64.
Definition encode_node_id (node_id : N) : M Encoder () := put_u64 node_id.
Definition decode_node_id : M Decoder N := get_u64.
Definition encode_log_index (index : N) : M Encoder () := put_u64 index.
Definition decode_log_index : M Decoder N := get_u64.

Definition encode_count (value : N) (error : string) : M Encoder () :=
  match u32_try_from value with
  | None => throw (invalid_input error)
  | Some value =>
      if MAX_COUNT_ITEMS <? value then throw (invalid_input error) else put_u32 value
  end.

Definition decode_count (error : string) : M Decoder N :=
  value ← get_u32;
  if MAX_COUNT_ITEMS <? value then throw (invalid_data error) else mret value.

Definition encode_log_position (position : LogPosition) : M Encoder () :=
  encode_term (pos_term position) ;; encode_log_index (pos_index position).

Definition decode_log_position : M Decoder LogPosition :=
  term ← decode_term;
  index ← decode_log_index;
  mret (mkLogPosition term index).

Definition encode_optional_node_id (node_id : option N) : M Encoder () :=
  match node_id with
  | Some node_id => put_u8 Byte.x01 ;; encode_node_id node_id
  | None => put_u8 Byte.x00
  end.

Definition decode_optional_node_id : M Decoder (option N) :=
  tag ← get_u8;
  match byte_to_N tag with
  | 0 => mret None
  | 1 => node_id ← decode_node_id; mret (Some node_id)
  | _ => throw (invalid_data "invalid optional node ID tag")
  end.

Definition encode_node_id_set (nodes : gset N) : M Encoder () :=
  encode_count (N.of_nat (size nodes)) "too many node IDs" ;;
  for_each (btree_elements nodes) encode_node_id.

Definition decode_node_id_set : M Decoder (gset N) :=
  len ← decode_count "too many node IDs";
  repeat_fold (N.to_nat len) (λ nodes : gset N,
    node_id ← decode_node_id;
    if bool_decide (node_id ∈ nodes) then throw (invalid_data "duplicate node ID")
    else mret ({[node_id]} ∪ nodes)) ∅.

Definition encode_cluster_config (config : ClusterConfig) : M Encoder () :=
  encode_node_id_set (voters config) ;;
  encode_node_id_set (new_voters config) ;;
  encode_node_id_set (non_voters config).

Definition decode_cluster_config : M Decoder ClusterConfig :=
  voters ← decode_node_id_set;
  new_voters ← decode_node_id_set;
  non_voters ← decode_node_id_set;
  mret (mkClusterConfig voters new_voters non_voters).

Definition encode_log_entry (entry : LogEntry) : M Encoder () :=
  match entry with
  | LogTerm term => put_u8 Byte.x00 ;; encode_term term
  | LogClusterConfig config => put_u8 Byte.x01 ;; encode_cluster_config config
  | LogCommand => put_u8 Byte.x02
  end.

Definition decode_log_entry : M Decoder LogEntry :=
  tag ← get_u8;
  match byte_to_N tag with
  | 0 => term ← decode_term; mret (LogTerm term)
  | 1 => config ← decode_cluster_config; mret (LogClusterConfig config)
  | 2 => mret LogCommand
  | _ => throw (invalid_data "unknown log entry tag")
  end.

Section codec.
Context `{Noraft}.

Definition encode_log_entries (entries : LogEntries) : M Encoder () :=
  encode_log_position (entries_prev_position entries) ;;
  encode_count (entries_len entries) "too many log entries" ;;
  for_each (entries_iter entries) encode_log_entry.

Definition decode_log_entries : M Decoder LogEntries :=
  prev_position ← decode_log_position;
  len ← decode_count "too many log entries";
  match index_checked_add (pos_index prev_position) len with
  | None => throw (invalid_data "log entries overflow the log index space")
  | Some _ =>
      repeat_fold (N.to_nat len) (λ entries,
        entry ← decode_log_entry;
        mret (entries_push entries entry)) (entries_new prev_position)
  end.

Definition encode_log_append (append : LogAppend) : M Encoder () :=
  lift_result (log_append_validate append) ;;
  encode_log_entries (append_entries_of append) ;;
  encode_count (N.of_nat (size (append_payloads append))) "too many command payloads" ;;
  for_each (btree_iter (append_payloads append)) (λ p,
    encode_log_index p.1 ;;
    put_u8 (payload_tag p.2) ;;
    put_bytes (bytes_as_slice (payload_bytes p.2))).

Definition decode_log_append : M Decoder LogAppend :=
  entries ← decode_log_entries;
  command_count ← decode_count "too many command payloads";
  payloads ← repeat_fold (N.to_nat command_count) (λ payloads : gmap N CommandPayload,
    index ← decode_log_index;
    tag ← get_u8;
    bytes ← get_bytes;
    let '(old, payloads) := btree_insert index (mkCommandPayload tag (bytes_new bytes)) payloads in
    if bool_decide (is_Some old) then throw (invalid_data "duplicate command payload index")
    else mret payloads) ∅;
  map_err (λ _, invalid_data "invalid command payload mapping")
    (lift_result (log_append_new entries payloads)).

Definition encode_snapshot (snap : Snapshot) : M Encoder () :=
  encode_log_position (last_included snap) ;;
  encode_cluster_config (snapshot_config snap) ;;
  put_bytes (bytes_as_slice (snapshot_data snap)).

Definition decode_snapshot : M Decoder Snapshot :=
  position ← decode_log_position;
  config ← decode_cluster_config;
  data ← get_bytes;
  mret (mkSnapshot position config (bytes_new data)).

Definition encode_snapshot_checkpoint (checkpoint : SnapshotCheckpoint) : M Encoder () :=
  lift_result (checkpoint_validate checkpoint) ;;
  encode_term (checkpoint_current_term checkpoint) ;;
  encode_optional_node_id (checkpoint_voted_for checkpoint) ;;
  encode_snapshot (checkpoint_snapshot checkpoint) ;;
  encode_log_append (checkpoint_suffix checkpoint).

Definition decode_snapshot_checkpoint : M Decoder SnapshotCheckpoint :=
  term ← decode_term;
  vote ← decode_optional_node_id;
  snap ← decode_snapshot;
  suffix ← decode_log_append;
  let checkpoint := mkSnapshotCheckpoint term vote snap suffix in
  map_err (λ _, invalid_data "invalid snapshot checkpoint")
    (lift_result (checkpoint_validate checkpoint)) ;;
  mret checkpoint.

Definition encode_record (record : SegmentRecord) : M Encoder () :=
  match record with
  | RecordCurrentTerm term => put_u8 Byte.x00 ;; encode_term term
  | RecordVotedFor vote => put_u8 Byte.x01 ;; encode_optional_node_id vote
  | RecordAppend append => put_u8 Byte.x02 ;; encode_log_append append
  | RecordSnapshotCheckpoint checkpoint =>
      put_u8 Byte.x03 ;; encode_snapshot_checkpoint checkpoint
  end.

(** The [match] of [decode_node_record] on the record tag. *)
Definition decode_record : M Decoder SegmentRecord :=
  tag ← get_u8;
  match byte_to_N tag with
  | 0 => term ← decode_term; mret (RecordCurrentTerm term)
  | 1 => vote ← decode_optional_node_id; mret (RecordVotedFor vote)
  | 2 => append ← decode_log_append; mret (RecordAppend append)
  | 3 => checkpoint ← decode_snapshot_checkpoint; mret (RecordSnapshotCheckpoint checkpoint)
  | _ => throw (invalid_data "unknown segment record tag")
  end.

(** [decode_node_record]. *)
Definition decode_node_record (bytes : list byte) : result NodeRecord :=
  ((node_id ← decode_node_id;
    record ← decode_record;
    decoder_finish ;;
    mret (mkNodeRecord node_id record)) (decoder_new bytes)).1.

(** [decode_record_node_id]. *)
Definition decode_record_node_id (bytes : list byte) : result N :=
  (decode_node_id (decoder_new bytes)).1.

(** The body built by [encode_record_frame]. *)
Definition encode_record_body (node_id : N) (record : SegmentRecord) : result (list byte) :=
  match (encode_node_id node_id ;; encode_record record) encoder_new with
  | (Ok _, e) => Ok (encoder_finish e)
  | (Err err, _) => Err err
  end.

(** [encode_record_frame]. *)
Definition encode_record_frame (node_id : N) (record : SegmentRecord) : result (list byte) :=
  match encode_record_body node_id record with
  | Err err => Err err
  | Ok body =>
      match u32_try_from (lenN body) with
      | None => Err too_large
      | Some body_len =>
          if MAX_RECORD_BODY_LEN <? body_len then Err too_large
          else Ok (le_bytes 4 body_len ++ le_bytes 4 (crc32c body) ++ body)
      end
  end.

(** [frame_len_from_body]. *)
Definition frame_len_from_body (body : list byte) : result N :=
  match u64_try_from (SEGMENT_RECORD_HEADER_LEN + lenN body) with
  | Some len => Ok len
  | None => Err (invalid_data "segment frame length overflow")
  end.

End codec.
