(* ===== verification/Format.v ===== *)
(** * The segment record format, [docs/segment-format.md]

    The format as functions from values to bytes, its limits, and the proofs
    that the encoders of [Codec] write exactly it and that the decoders read
    it back. *)
From Stdlib Require Import Strings.Byte.
From S2P Require Import Prelude Noraft State Crc32c Codec.

(** ** The format *)

Definition wire_position (p : LogPosition) : list byte :=
  le_bytes 8 (pos_term p) ++ le_bytes 8 (pos_index p).

Definition wire_optional_node (o : option N) : list byte :=
  match o with
  | Some node => [Byte.x01] ++ le_bytes 8 node
  | None => [Byte.x00]
  end.

Definition wire_node_set (X : gset N) : list byte :=
  le_bytes 4 (N.of_nat (size X)) ++ concat (le_bytes 8 <$> btree_elements X).

Definition wire_config (c : ClusterConfig) : list byte :=
  wire_node_set (voters c) ++ wire_node_set (new_voters c) ++ wire_node_set (non_voters c).

Definition wire_entry (e : LogEntry) : list byte :=
  match e with
  | LogTerm term => [Byte.x00] ++ le_bytes 8 term
  | LogClusterConfig config => [Byte.x01] ++ wire_config config
  | LogCommand => [Byte.x02]
  end.

Definition wire_bytes (b : list byte) : list byte := le_bytes 4 (lenN b) ++ b.

Definition wire_payload (p : N * CommandPayload) : list byte :=
  le_bytes 8 p.1 ++ [payload_tag p.2] ++ wire_bytes (bytes_as_slice (payload_bytes p.2)).

Definition wire_snapshot (s : Snapshot) : list byte :=
  wire_position (last_included s) ++ wire_config (snapshot_config s) ++
  wire_bytes (bytes_as_slice (snapshot_data s)).

Section format.
Context `{Noraft}.

Definition wire_entries (e : LogEntries) : list byte :=
  wire_position (entries_prev_position e) ++ le_bytes 4 (entries_len e) ++
  concat (wire_entry <$> entries_iter e).

Definition wire_append (a : LogAppend) : list byte :=
  wire_entries (append_entries_of a) ++
  le_bytes 4 (N.of_nat (size (append_payloads a))) ++
  concat (wire_payload <$> btree_iter (append_payloads a)).

Definition wire_checkpoint (c : SnapshotCheckpoint) : list byte :=
  le_bytes 8 (checkpoint_current_term c) ++ wire_optional_node (checkpoint_voted_for c) ++
  wire_snapshot (checkpoint_snapshot c) ++ wire_append (checkpoint_suffix c).

Definition wire_record (r : SegmentRecord) : list byte :=
  match r with
  | RecordCurrentTerm term => [Byte.x00] ++ le_bytes 8 term
  | RecordVotedFor vote => [Byte.x01] ++ wire_optional_node vote
  | RecordAppend append => [Byte.x02] ++ wire_append append
  | RecordSnapshotCheckpoint checkpoint => [Byte.x03] ++ wire_checkpoint checkpoint
  end.

Definition wire_body (node_id : N) (r : SegmentRecord) : list byte :=
  le_bytes 8 node_id ++ wire_record r.
End format.

(** A frame: body length, CRC-32C of the body, body. *)
Definition wire_frame (body : list byte) : list byte :=
  le_bytes 4 (lenN body) ++ le_bytes 4 (crc32c_byte_at_a_time body) ++ body.

(** ** The limits *)

Definition set_limits (X : gset N) : Prop := N.of_nat (size X) ≤ MAX_COUNT_ITEMS.

Definition config_limits (c : ClusterConfig) : Prop :=
  set_limits (voters c) ∧ set_limits (new_voters c) ∧ set_limits (non_voters c).

Definition entry_limits (e : LogEntry) : Prop :=
  match e with LogClusterConfig c => config_limits c | _ => True end.

Section limits.
Context `{Noraft}.

Definition append_limits (a : LogAppend) : Prop :=
  log_append_validate a = Ok () ∧
  entries_len (append_entries_of a) ≤ MAX_COUNT_ITEMS ∧
  Forall entry_limits (entries_iter (append_entries_of a)) ∧
  N.of_nat (size (append_payloads a)) ≤ MAX_COUNT_ITEMS.

Definition checkpoint_limits (c : SnapshotCheckpoint) : Prop :=
  checkpoint_validate c = Ok () ∧
  config_limits (snapshot_config (checkpoint_snapshot c)) ∧
  append_limits (checkpoint_suffix c).

(** The record is valid and its counts are within the limits. *)
Definition record_limits (r : SegmentRecord) : Prop :=
  match r with
  | RecordAppend a => append_limits a
  | RecordSnapshotCheckpoint c => checkpoint_limits c
  | _ => True
  end.

(** The record can be written: its limits hold and its body fits. *)
Definition record_encodable (node_id : N) (r : SegmentRecord) : Prop :=
  record_limits r ∧ lenN (wire_body node_id r) ≤ MAX_RECORD_BODY_LEN.
End limits.

(** ** The values are machine integers *)

Definition u64 (n : N) : Prop := n < U64_LIMIT.
Definition position_u64 (p : LogPosition) : Prop := u64 (pos_term p) ∧ u64 (pos_index p).
Definition set_u64 (X : gset N) : Prop := set_Forall u64 X.
Definition config_u64 (c : ClusterConfig) : Prop :=
  set_u64 (voters c) ∧ set_u64 (new_voters c) ∧ set_u64 (non_voters c).
Definition entry_u64 (e : LogEntry) : Prop :=
  match e with LogTerm t => u64 t | LogClusterConfig c => config_u64 c | LogCommand => True end.
Definition option_u64 (o : option N) : Prop := match o with Some n => u64 n | None => True end.

Section ranges.
Context `{Noraft}.

Definition append_u64 (a : LogAppend) : Prop :=
  position_u64 (entries_prev_position (append_entries_of a)) ∧
  Forall entry_u64 (entries_iter (append_entries_of a)) ∧
  map_Forall (λ k _, u64 k) (append_payloads a).

Definition checkpoint_u64 (c : SnapshotCheckpoint) : Prop :=
  u64 (checkpoint_current_term c) ∧ option_u64 (checkpoint_voted_for c) ∧
  position_u64 (last_included (checkpoint_snapshot c)) ∧
  config_u64 (snapshot_config (checkpoint_snapshot c)) ∧
  append_u64 (checkpoint_suffix c).

Definition record_u64 (r : SegmentRecord) : Prop :=
  match r with
  | RecordCurrentTerm t => u64 t
  | RecordVotedFor v => option_u64 v
  | RecordAppend a => append_u64 a
  | RecordSnapshotCheckpoint c => checkpoint_u64 c
  end.
End ranges.

(** ** The encoders write the format *)

(** [m] writes [w] when [valid] holds and [w] fits, and otherwise rejects with
    [InvalidInput]. *)
Definition encodes (m : M Encoder ()) (valid : Prop) (w : list byte) : Prop :=
  ∀ e, enc_len e ≤ MAX_RECORD_BODY_LEN →
    match m e with
    | (Ok _, e') =>
        valid ∧ enc_len e + lenN w ≤ MAX_RECORD_BODY_LEN ∧
        e' = mkEncoder (enc_bytes e ++ w) (enc_len e + lenN w)
    | (Err err, _) =>
        ¬ (valid ∧ enc_len e + lenN w ≤ MAX_RECORD_BODY_LEN) ∧ error_kind err = InvalidInput
    end.

Lemma encodes_bind m1 m2 v1 v2 w1 w2 :
  encodes m1 v1 w1 → encodes m2 v2 w2 → encodes (m1 ;; m2) (v1 ∧ v2) (w1 ++ w2).
Proof.
  intros H1 H2 e He. specialize (H1 e He). unfold mbind, M_bind.
  destruct (m1 e) as [[[]|err] e1].
  - destruct H1 as (Hv1 & Hw1 & ->). specialize (H2 (mkEncoder (enc_bytes e ++ w1) (enc_len e + lenN w1)) Hw1).
    simpl in H2. destruct (m2 _) as [[[]|err] e2].
    + destruct H2 as (Hv2 & Hw2 & ->). rewrite lenN_app.
      split; [done|]. split; [lia|]. f_equal; [by rewrite app_assoc|lia].
    + destruct H2 as [H2 Hk]. split; [|done]. rewrite lenN_app. intros [[_ Hv2] Hw]. apply H2.
      split; [done|lia].
  - destruct H1 as [H1 Hk]. split; [|done]. rewrite lenN_app. intros [[Hv1 _] Hw]. apply H1.
    split; [done|lia].
Qed.

Lemma encodes_proper m v v' w w' :
  encodes m v w → (v ↔ v') → w = w' → encodes m v' w'.
Proof.
  intros H Hv <- e He. specialize (H e He). destruct (m e) as [[[]|err] e']; by rewrite <-Hv.
Qed.

Lemma check_append_len_spec e n :
  enc_len e ≤ MAX_RECORD_BODY_LEN →
  check_append_len e n =
  if decide (enc_len e + n ≤ MAX_RECORD_BODY_LEN) then Ok (enc_len e + n) else Err too_large.
Proof.
  intros He. assert (HM : MAX_RECORD_BODY_LEN < U32_LIMIT) by done.
  unfold check_append_len, u32_try_from, u32_checked_add. case_decide.
  - rewrite !(proj2 (N.ltb_lt _ _)), (proj2 (N.ltb_ge _ _)) by lia. done.
  - destruct (N.ltb_spec n U32_LIMIT); [|done].
    destruct (N.ltb_spec (enc_len e + n) U32_LIMIT); [|done].
    by rewrite (proj2 (N.ltb_lt _ _)) by lia.
Qed.

Lemma put_slice_encodes w : encodes (put_slice w) True w.
Proof.
  intros e He. unfold put_slice, mbind, M_bind, get_state, lift_result, modify.
  rewrite check_append_len_spec by done. case_decide; [done|]. by split; [intros [_ ?]|].
Qed.

Lemma put_bytes_encodes b : encodes (put_bytes b) True (wire_bytes b).
Proof.
  assert (HM : MAX_RECORD_BODY_LEN < U32_LIMIT) by done.
  assert (H32 : U32_LIMIT + 4 < U64_LIMIT) by done.
  assert (Hlen : lenN (wire_bytes b) = 4 + lenN b) by (unfold wire_bytes; len).
  intros e He. unfold put_bytes, u32_try_from. rewrite Hlen.
  destruct (N.ltb_spec (lenN b) U32_LIMIT); [|split; [intros [_ ?]; lia|done]].
  destruct (N.ltb_spec MAX_RECORD_BODY_LEN (lenN b)); [split; [intros [_ ?]; lia|done]|].
  unfold usize_checked_add, u64_checked_add. rewrite (proj2 (N.ltb_lt _ _)) by lia.
  unfold mbind, M_bind, get_state, lift_result, modify.
  rewrite check_append_len_spec by done. case_decide; [done|]. by split; [intros [_ ?]|].
Qed.

Lemma encode_count_encodes n error :
  encodes (encode_count n error) (n ≤ MAX_COUNT_ITEMS) (le_bytes 4 n).
Proof.
  assert (HM : MAX_COUNT_ITEMS < U32_LIMIT) by done.
  intros e He. unfold encode_count, u32_try_from.
  destruct (N.ltb_spec n U32_LIMIT); [|split; [intros [? _]; lia|done]].
  destruct (N.ltb_spec MAX_COUNT_ITEMS n); [split; [intros [? _]; lia|done]|].
  pose proof (put_slice_encodes (le_bytes 4 n) e He) as H1. unfold put_u32.
  destruct (put_slice _ e) as [[[]|err] e'].
  - by destruct H1 as (_ & ? & ->).
  - destruct H1 as [H1 ?]. split; [|done]. intros [_ ?]. by apply H1.
Qed.

Lemma lift_result_encodes r :
  (∀ e, r = Err e → error_kind e = InvalidInput) → encodes (lift_result r) (r = Ok ()) [].
Proof.
  intros Hr e He. unfold lift_result. destruct r as [[]|err].
  - split; [done|]. rewrite lenN_nil, app_nil_r, N.add_0_r. split; [done|]. by destruct e.
  - split; [by intros []|]. by apply Hr.
Qed.

Lemma for_each_encodes {A} (xs : list A) body (v : A → Prop) (w : A → list byte) :
  (∀ x, x ∈ xs → encodes (body x) (v x) (w x)) →
  encodes (for_each xs body) (Forall v xs) (concat (w <$> xs)).
Proof.
  induction xs as [|x xs IH]; intros H.
  - intros e He. cbn. split; [constructor|]. change (lenN _) with 0.
    rewrite app_nil_r, N.add_0_r. split; [done|]. by destruct e.
  - cbn [for_each]. eapply encodes_proper.
    + apply encodes_bind; [apply H; by left|]. apply IH. intros y Hy. apply H. by right.
    + split; [intros []; by constructor|by inversion 1].
    + done.
Qed.

Create HintDb encode discriminated.
#[export] Hint Constants Opaque : encode.
#[export] Hint Resolve put_slice_encodes put_bytes_encodes encode_count_encodes : encode.

(** Writes a sequence of encoders as the bind of what each writes, then
    compares the validity condition and the bytes. *)
Ltac encodes_seq :=
  eapply encodes_proper;
  [ repeat match goal with
           | |- encodes (_ ≫= _) _ _ => eapply encodes_bind
           | |- encodes _ _ _ => solve [typeclasses eauto with encode]
           end
  | try tauto | rewrite ?app_assoc; try reflexivity ].

Lemma encode_position_encodes p : encodes (encode_log_position p) True (wire_position p).
Proof.
  unfold encode_log_position, encode_term, encode_log_index, put_u64, wire_position. encodes_seq.
Qed.

Lemma encode_optional_encodes o : encodes (encode_optional_node_id o) True (wire_optional_node o).
Proof.
  destruct o; unfold encode_optional_node_id, encode_node_id, put_u8, put_u64, wire_optional_node;
    encodes_seq.
Qed.

Lemma encode_node_id_set_encodes X :
  encodes (encode_node_id_set X) (set_limits X) (wire_node_set X).
Proof.
  unfold encode_node_id_set, wire_node_set.
  eapply encodes_proper; [eapply encodes_bind; [apply encode_count_encodes|]| |reflexivity].
  - eapply for_each_encodes with (v := λ _, True). intros x _. apply put_slice_encodes.
  - unfold set_limits. rewrite Forall_forall. tauto.
Qed.
#[export] Hint Resolve encode_position_encodes encode_optional_encodes encode_node_id_set_encodes
  : encode.

Lemma encode_config_encodes c : encodes (encode_cluster_config c) (config_limits c) (wire_config c).
Proof. unfold encode_cluster_config, config_limits, wire_config. encodes_seq. Qed.
#[export] Hint Resolve encode_config_encodes : encode.

Lemma encode_entry_encodes e : encodes (encode_log_entry e) (entry_limits e) (wire_entry e).
Proof.
  destruct e; unfold encode_log_entry, encode_term, put_u8, put_u64, entry_limits, wire_entry;
    encodes_seq.
Qed.

Lemma encode_snapshot_encodes s :
  encodes (encode_snapshot s) (config_limits (snapshot_config s)) (wire_snapshot s).
Proof. unfold encode_snapshot, wire_snapshot. encodes_seq. Qed.
#[export] Hint Resolve encode_entry_encodes encode_snapshot_encodes : encode.

Section encode_records.
Context `{Noraft}.

Lemma check_all_error {A} (check : A → result ()) xs e :
  (∀ x e, check x = Err e → error_kind e = InvalidInput) →
  check_all check xs = Err e → error_kind e = InvalidInput.
Proof.
  intros Hc. induction xs as [|x xs IH]; simpl; [done|].
  destruct (check x) as [[]|err] eqn:E; [done|]. intros [= <-]. by eapply Hc.
Qed.

Lemma log_append_validate_error a e :
  log_append_validate a = Err e → error_kind e = InvalidInput.
Proof.
  unfold log_append_validate. destruct (check_all _ _) as [[]|err] eqn:E.
  - apply check_all_error. intros x err. by case_bool_decide; [|intros [= <-]].
  - intros [= <-]. eapply check_all_error; [|exact E]. intros x err'.
    simpl. by destruct (_ && _); [intros [= <-]|].
Qed.

Lemma checkpoint_validate_error c e :
  checkpoint_validate c = Err e → error_kind e = InvalidInput.
Proof.
  unfold checkpoint_validate. destruct (log_append_validate _) as [[]|err] eqn:E.
  - by case_bool_decide; [intros [= <-]|].
  - intros [= <-]. by eapply log_append_validate_error.
Qed.

Lemma encode_entries_encodes e :
  encodes (encode_log_entries e)
    (entries_len e ≤ MAX_COUNT_ITEMS ∧ Forall entry_limits (entries_iter e)) (wire_entries e).
Proof.
  unfold encode_log_entries, wire_entries. eapply encodes_proper.
  - eapply encodes_bind; [apply encode_position_encodes|].
    eapply encodes_bind; [apply encode_count_encodes|].
    apply for_each_encodes. intros x _. apply encode_entry_encodes.
  - tauto.
  - done.
Qed.

Lemma encode_append_encodes a : encodes (encode_log_append a) (append_limits a) (wire_append a).
Proof.
  unfold encode_log_append, wire_append. eapply encodes_proper.
  - eapply encodes_bind; [apply lift_result_encodes, log_append_validate_error|].
    eapply encodes_bind; [apply encode_entries_encodes|].
    eapply encodes_bind; [apply encode_count_encodes|].
    apply for_each_encodes with (v := λ _, True) (w := wire_payload). intros [i p] _.
    unfold encode_log_index, put_u8, put_u64, wire_payload. simpl fst. simpl snd. encodes_seq.
  - unfold append_limits. rewrite (Forall_forall (λ _, True)). tauto.
  - done.
Qed.

Lemma encode_checkpoint_encodes c :
  encodes (encode_snapshot_checkpoint c) (checkpoint_limits c) (wire_checkpoint c).
Proof.
  unfold encode_snapshot_checkpoint, wire_checkpoint, encode_term, put_u64. eapply encodes_proper.
  - eapply encodes_bind; [apply lift_result_encodes, checkpoint_validate_error|].
    eapply encodes_bind; [apply put_slice_encodes|].
    eapply encodes_bind; [apply encode_optional_encodes|].
    eapply encodes_bind; [apply encode_snapshot_encodes|]. apply encode_append_encodes.
  - unfold checkpoint_limits. tauto.
  - done.
Qed.

Lemma encode_record_encodes r : encodes (encode_record r) (record_limits r) (wire_record r).
Proof.
  destruct r; unfold encode_record, encode_term, put_u8, put_u64, record_limits, wire_record;
    eapply encodes_proper;
    try (eapply encodes_bind;
         [apply put_slice_encodes
         |first [apply put_slice_encodes|apply encode_optional_encodes|apply encode_append_encodes
                |apply encode_checkpoint_encodes]]);
    tauto || done.
Qed.

(** [encode_record_body] on every branch. *)
Lemma encode_record_body_spec n r :
  match encode_record_body n r with
  | Ok body => record_encodable n r ∧ body = wire_body n r
  | Err e => ¬ record_encodable n r ∧ error_kind e = InvalidInput
  end.
Proof.
  unfold encode_record_body, record_encodable.
  assert (Hv : encodes (encode_node_id n ;; encode_record r) (True ∧ record_limits r) (wire_body n r)).
  { apply encodes_bind; [apply put_slice_encodes|apply encode_record_encodes]. }
  specialize (Hv encoder_new ltac:(done)). simpl in Hv.
  destruct ((encode_node_id n ;; encode_record r) encoder_new) as [[[]|err] e].
  - destruct Hv as ([_ Hv] & Hw & ->). done.
  - destruct Hv as [Hv ?]. split; [|done]. intros [? ?]. by apply Hv.
Qed.

(** [encode_record_frame] on every branch. *)
Lemma encode_record_frame_spec n r :
  match encode_record_frame n r with
  | Ok frame => record_encodable n r ∧ frame = wire_frame (wire_body n r)
  | Err e => ¬ record_encodable n r ∧ error_kind e = InvalidInput
  end.
Proof.
  assert (HM : MAX_RECORD_BODY_LEN < U32_LIMIT) by done.
  pose proof (encode_record_body_spec n r) as Hb. unfold encode_record_frame.
  destruct (encode_record_body n r) as [body|err]; [|done].
  destruct Hb as [[Hl Hw] ->]. unfold u32_try_from.
  rewrite (proj2 (N.ltb_lt _ _)) by lia. rewrite (proj2 (N.ltb_ge _ _)) by done.
  split; [done|]. unfold wire_frame. by rewrite crc32c_reference.
Qed.
End encode_records.

(** ** The decoders read the format back *)

(** From any offset of any buffer, [m] consumes exactly [w] and returns [a]. *)
Definition decodes {A} (m : M Decoder A) (w : list byte) (a : A) : Prop :=
  ∀ pre rest, lenN (pre ++ w ++ rest) < U64_LIMIT →
    m (mkDecoder (pre ++ w ++ rest) (lenN pre)) =
    (Ok a, mkDecoder (pre ++ w ++ rest) (lenN pre + lenN w)).

Lemma decodes_ret {A} (a : A) : decodes (mret a) [] a.
Proof. intros pre rest _. by rewrite lenN_nil, N.add_0_r. Qed.

Lemma decodes_bind {A B} (m : M Decoder A) (f : A → M Decoder B) w1 w2 a b :
  decodes m w1 a → decodes (f a) w2 b → decodes (m ≫= f) (w1 ++ w2) b.
Proof.
  intros H1 H2 pre rest Hlen. rewrite <-app_assoc in *.
  rewrite (bind_ok _ _ _ _ _ (H1 pre (w2 ++ rest) Hlen)).
  rewrite app_assoc in Hlen |- *. rewrite <-(lenN_app pre w1), H2 by exact Hlen.
  by rewrite !lenN_app, N.add_assoc.
Qed.

Lemma decodes_bind_ret {A B} (m : M Decoder A) (f : A → B) w a :
  decodes m w a → decodes (x ← m; mret (f x)) w (f a).
Proof. intros H. rewrite <-(app_nil_r w). eapply decodes_bind; [done|apply decodes_ret]. Qed.

Lemma decodes_lift {A} (r : result A) a : r = Ok a → decodes (lift_result r) [] a.
Proof. intros -> pre rest _. by rewrite lenN_nil, N.add_0_r. Qed.

Lemma decodes_map_err {A} f (m : M Decoder A) w a : decodes m w a → decodes (map_err f m) w a.
Proof. intros H pre rest Hlen. unfold map_err. by rewrite H. Qed.

Lemma decoder_take_decodes w n : lenN w = n → decodes (decoder_take n) w w.
Proof.
  intros <- pre rest Hlen. unfold decoder_take, mbind, M_bind, get_state. cbn [dec_position dec_bytes].
  rewrite !lenN_app in Hlen.
  unfold usize_checked_add, u64_checked_add. rewrite (proj2 (N.ltb_lt _ _)) by lia.
  rewrite (proj2 (N.ltb_ge _ _)) by (rewrite !lenN_app; lia).
  unfold modify, mret, M_ret. cbn [dec_bytes]. f_equal. f_equal.
  rewrite dropN_app_exact. replace (lenN pre + lenN w - lenN pre) with (lenN w) by lia.
  apply takeN_app_exact.
Qed.

Lemma get_u8_decodes b : decodes get_u8 [b] b.
Proof.
  unfold get_u8. apply (decodes_bind_ret _ (λ bytes, default Byte.x00 (head bytes)) [b] [b]).
  by apply decoder_take_decodes.
Qed.

Lemma get_u32_decodes n : n < U32_LIMIT → decodes get_u32 (le_bytes 4 n) n.
Proof.
  intros Hn. unfold get_u32. rewrite <-(from_le_le_bytes 4 n) at 2 by done.
  apply decodes_bind_ret. by apply decoder_take_decodes.
Qed.

Lemma get_u64_decodes n : u64 n → decodes get_u64 (le_bytes 8 n) n.
Proof.
  intros Hn. unfold get_u64. rewrite <-(from_le_le_bytes 8 n) at 2 by done.
  apply decodes_bind_ret. by apply decoder_take_decodes.
Qed.

Lemma get_bytes_decodes b : lenN b ≤ MAX_RECORD_BODY_LEN → decodes get_bytes (wire_bytes b) b.
Proof.
  intros Hb. assert (HM : MAX_RECORD_BODY_LEN < U32_LIMIT) by done.
  unfold get_bytes, wire_bytes. eapply decodes_bind; [apply get_u32_decodes; lia|].
  cbv beta. rewrite (proj2 (N.ltb_ge _ _)) by done. by apply decoder_take_decodes.
Qed.

Lemma decode_count_decodes n error :
  n ≤ MAX_COUNT_ITEMS → decodes (decode_count error) (le_bytes 4 n) n.
Proof.
  intros Hn. assert (HM : MAX_COUNT_ITEMS < U32_LIMIT) by done.
  unfold decode_count. rewrite <-(app_nil_r (le_bytes 4 n)).
  eapply decodes_bind; [apply get_u32_decodes; lia|].
  cbv beta. rewrite (proj2 (N.ltb_ge _ _)) by done. apply decodes_ret.
Qed.

(** A counted loop reads a list of items; [I] relates what is accumulated to
    the items that are left. *)
Lemma repeat_fold_decodes {A B} (body : A → M Decoder A) (w : B → list byte)
    (step : A → B → A) (I : A → list B → Prop) l acc :
  (∀ acc x rest, I acc (x :: rest) → decodes (body acc) (w x) (step acc x) ∧ I (step acc x) rest) →
  I acc l →
  decodes (repeat_fold (length l) body acc) (concat (w <$> l)) (foldl step acc l).
Proof.
  intros Hstep. revert acc. induction l as [|x l IH]; intros acc HI; [apply decodes_ret|].
  destruct (Hstep _ _ _ HI) as [Hx HI']. cbn [length repeat_fold].
  rewrite fmap_cons. cbn [concat foldl]. eapply decodes_bind; [done|]. by apply IH.
Qed.

(** Ordered sets and maps rebuilt from their iteration. *)
Lemma btree_elements_Permutation X : btree_elements X ≡ₚ elements X.
Proof. apply merge_sort_Permutation. Qed.

Lemma btree_elements_length X : length (btree_elements X) = size X.
Proof. by rewrite btree_elements_Permutation. Qed.

Lemma btree_elements_NoDup X : NoDup (btree_elements X).
Proof. rewrite btree_elements_Permutation. apply NoDup_elements. Qed.

Lemma elem_of_btree_elements X x : x ∈ btree_elements X ↔ x ∈ X.
Proof. rewrite btree_elements_Permutation. apply elem_of_elements. Qed.

Lemma btree_iter_Permutation {V} (m : gmap N V) : btree_iter m ≡ₚ map_to_list m.
Proof. apply merge_sort_Permutation. Qed.

Lemma btree_iter_length {V} (m : gmap N V) : length (btree_iter m) = size m.
Proof. by rewrite btree_iter_Permutation, length_map_to_list. Qed.

Lemma btree_iter_NoDup {V} (m : gmap N V) : NoDup (btree_iter m).*1.
Proof. rewrite btree_iter_Permutation. apply NoDup_fst_map_to_list. Qed.

Lemma elem_of_btree_iter {V} (m : gmap N V) k v : (k, v) ∈ btree_iter m ↔ m !! k = Some v.
Proof. rewrite btree_iter_Permutation. apply elem_of_map_to_list. Qed.

Lemma foldl_insert_set l (X : gset N) :
  foldl (λ X x, {[x]} ∪ X) X l = list_to_set l ∪ X.
Proof.
  revert X. induction l as [|x l IH]; intros X; cbn [foldl list_to_set]; [set_solver|].
  rewrite IH. set_solver.
Qed.

Lemma foldl_insert_btree_elements X : foldl (λ X x, {[x]} ∪ X) ∅ (btree_elements X) = X.
Proof.
  rewrite foldl_insert_set. apply set_eq. intros x.
  rewrite elem_of_union, elem_of_list_to_set, elem_of_btree_elements. set_solver.
Qed.

Lemma foldl_insert_map {V} l (m : gmap N V) i :
  NoDup l.*1 →
  foldl (λ m p, <[p.1 := p.2]> m) m l !! i = 
  match (list_to_map l : gmap N V) !! i with Some v => Some v | None => m !! i end.
Proof.
  revert m. induction l as [|[k v] l IH]; intros m Hnd; [done|].
  rewrite fmap_cons in Hnd. apply list.NoDup_cons in Hnd as [Hk Hnd]. cbn [foldl list_to_map fst snd] in *.
  rewrite IH by done. cbn [list_to_map]. simpl.
  destruct (decide (k = i)) as [->|Hne].
  - rewrite lookup_insert_eq. apply not_elem_of_list_to_map_1 in Hk. by rewrite Hk, lookup_insert_eq.
  - by rewrite !lookup_insert_ne by done.
Qed.

Lemma foldl_insert_btree_iter {V} (m : gmap N V) :
  foldl (λ m p, <[p.1 := p.2]> m) ∅ (btree_iter m) = m.
Proof.
  apply map_eq. intros i. rewrite foldl_insert_map by apply btree_iter_NoDup.
  destruct (list_to_map (btree_iter m) !! i) as [v|] eqn:E.
  - apply elem_of_list_to_map in E; [|apply btree_iter_NoDup]. by apply elem_of_btree_iter in E.
  - apply not_elem_of_list_to_map_2 in E. rewrite btree_iter_keys in E.
    rewrite lookup_empty. symmetry. by apply eq_None_not_Some.
Qed.

Lemma decode_node_id_set_decodes X :
  set_limits X → set_u64 X → decodes decode_node_id_set (wire_node_set X) X.
Proof.
  intros Hl Hu. unfold decode_node_id_set, wire_node_set.
  eapply decodes_bind; [by apply decode_count_decodes|]. cbv beta.
  rewrite Nat2N.id, <-btree_elements_length.
  rewrite <-(foldl_insert_btree_elements X) at 3.
  apply repeat_fold_decodes with
    (I := λ acc l, NoDup l ∧ (∀ x, x ∈ l → x ∉ acc) ∧ ∀ x, x ∈ l → u64 x).
  - intros acc x rest (Hnd & Hacc & Hr). apply list.NoDup_cons in Hnd as [Hx Hnd]. split.
    + rewrite <-(app_nil_r (le_bytes 8 x)). eapply decodes_bind; [apply get_u64_decodes, Hr; by left|].
      cbv beta. rewrite bool_decide_eq_false_2 by (apply Hacc; by left). apply decodes_ret.
    + split; [done|]. split; [|intros y Hy; apply Hr; by right]. intros y Hy.
      rewrite not_elem_of_union, not_elem_of_singleton. split; [by intros ->|]. apply Hacc. by right.
  - split; [apply btree_elements_NoDup|]. split; [set_solver|].
    intros x Hx. apply Hu. by apply elem_of_btree_elements.
Qed.

Lemma decode_position_decodes p : position_u64 p → decodes decode_log_position (wire_position p) p.
Proof.
  intros [Ht Hi]. destruct p as [t i]. unfold decode_log_position, wire_position.
  eapply decodes_bind; [by apply get_u64_decodes|]. cbv beta.
  apply (decodes_bind_ret _ (mkLogPosition t)). by apply get_u64_decodes.
Qed.

(** Reduces the dispatch on a tag that has just been read. *)
Ltac dispatch_tag := cbn [byte_to_N Byte.to_N]; cbv beta iota.

Lemma decode_optional_decodes o :
  option_u64 o → decodes decode_optional_node_id (wire_optional_node o) o.
Proof.
  intros Ho. unfold decode_optional_node_id, wire_optional_node. destruct o as [n|].
  - eapply decodes_bind; [apply get_u8_decodes|]. dispatch_tag.
    apply decodes_bind_ret. by apply get_u64_decodes.
  - rewrite <-(app_nil_r [Byte.x00]). eapply decodes_bind; [apply get_u8_decodes|].
    dispatch_tag. apply decodes_ret.
Qed.

Lemma decode_config_decodes c :
  config_limits c → config_u64 c → decodes decode_cluster_config (wire_config c) c.
Proof.
  intros (Hl1 & Hl2 & Hl3) (Hu1 & Hu2 & Hu3). destruct c as [v nv nn].
  unfold decode_cluster_config, wire_config.
  eapply decodes_bind; [by apply decode_node_id_set_decodes|]. cbv beta.
  eapply decodes_bind; [by apply decode_node_id_set_decodes|]. cbv beta.
  apply (decodes_bind_ret _ (mkClusterConfig v nv)). by apply decode_node_id_set_decodes.
Qed.

Lemma decode_entry_decodes e :
  entry_limits e → entry_u64 e → decodes decode_log_entry (wire_entry e) e.
Proof.
  intros Hl Hu. unfold decode_log_entry, wire_entry. destruct e as [t|c|].
  - eapply decodes_bind; [apply get_u8_decodes|]. dispatch_tag.
    apply decodes_bind_ret. by apply get_u64_decodes.
  - eapply decodes_bind; [apply get_u8_decodes|]. dispatch_tag.
    apply decodes_bind_ret. by apply decode_config_decodes.
  - rewrite <-(app_nil_r [Byte.x02]). eapply decodes_bind; [apply get_u8_decodes|].
    dispatch_tag. apply decodes_ret.
Qed.

Section decode_records.
Context `{NL : NoraftLaws}.

(** Pushing entries one by one onto an empty value. *)
Lemma foldl_push e l :
  pos_index (entries_prev_position e) + entries_len e + lenN l < U64_LIMIT →
  entries_prev_position (foldl entries_push e l) = entries_prev_position e ∧
  entries_iter (foldl entries_push e l) = entries_iter e ++ l.
Proof.
  revert e. induction l as [|x l IH]; intros e Hfit; cbn [foldl]; [by rewrite app_nil_r|].
  rewrite lenN_cons, entries_len_iter in Hfit.
  assert (Hp : pos_index (entries_prev_position e) + entries_len e + 1 < U64_LIMIT)
    by (rewrite entries_len_iter; lia).
  destruct (IH (entries_push e x)) as [-> ->].
  - rewrite entries_len_iter, entries_prev_push, entries_iter_push by done. len.
  - rewrite entries_prev_push, entries_iter_push by done. by rewrite <-app_assoc.
Qed.

Lemma foldl_push_iter e :
  entries_fit e →
  foldl entries_push (entries_new (entries_prev_position e)) (entries_iter e) = e.
Proof.
  unfold entries_fit. rewrite entries_len_iter. intros Hfit.
  destruct (foldl_push (entries_new (entries_prev_position e)) (entries_iter e)) as [Hp Hi].
  { rewrite entries_len_iter, entries_iter_new, entries_prev_new. len. }
  apply entries_ext; [by rewrite Hp, entries_prev_new|by rewrite Hi, entries_iter_new].
Qed.

Lemma decode_entries_decodes e :
  entries_fit e → entries_len e ≤ MAX_COUNT_ITEMS → Forall entry_limits (entries_iter e) →
  position_u64 (entries_prev_position e) → Forall entry_u64 (entries_iter e) →
  decodes decode_log_entries (wire_entries e) e.
Proof.
  intros Hfit Hc Hl Hp Hu. unfold decode_log_entries, wire_entries.
  eapply decodes_bind; [by apply decode_position_decodes|]. cbv beta.
  eapply decodes_bind; [by apply decode_count_decodes|]. cbv beta.
  rewrite index_checked_add_eq. unfold u64_checked_add.
  rewrite (proj2 (N.ltb_lt _ _)) by exact Hfit.
  rewrite entries_len_iter. unfold lenN. rewrite Nat2N.id.
  rewrite <-(foldl_push_iter e) at 4 by done.
  apply repeat_fold_decodes with (I := λ _ l, Forall entry_limits l ∧ Forall entry_u64 l); [|done].
  intros acc x rest [Hlx Hux]. inversion Hlx; subst. inversion Hux; subst. split; [|done].
  apply decodes_bind_ret. by apply decode_entry_decodes.
Qed.

Lemma wire_bytes_sublen {A} (x : A) (w : A → list byte) l :
  x ∈ l → lenN (w x) ≤ lenN (concat (w <$> l)).
Proof.
  induction l as [|y l IH]; [by intros ?%elem_of_nil|]. rewrite elem_of_cons, fmap_cons. cbn [concat].
  rewrite lenN_app. intros [->|Hx]; [lia|]. specialize (IH Hx). lia.
Qed.

Lemma decode_append_decodes a :
  append_fit a → append_limits a → append_u64 a → lenN (wire_append a) ≤ MAX_RECORD_BODY_LEN →
  decodes decode_log_append (wire_append a) a.
Proof.
  intros Hfit (Hv & Hc & Hl & Hs) (Hp & Hu & Hk) Hlen. unfold decode_log_append.
  assert (Hpay : ∀ p, p ∈ btree_iter (append_payloads a) →
            lenN (bytes_as_slice (payload_bytes p.2)) ≤ MAX_RECORD_BODY_LEN).
  { intros p Hpin. apply (wire_bytes_sublen p wire_payload) in Hpin.
    unfold wire_append in Hlen. rewrite !lenN_app in Hlen.
    unfold wire_payload at 1, wire_bytes in Hpin. rewrite !lenN_app in Hpin. lia. }
  unfold wire_append.
  eapply decodes_bind; [by apply decode_entries_decodes|]. cbv beta.
  eapply decodes_bind; [by apply decode_count_decodes|]. cbv beta.
  rewrite Nat2N.id, <-btree_iter_length, <-(app_nil_r (concat _)).
  apply decodes_bind with (a := append_payloads a).
  - rewrite <-(foldl_insert_btree_iter (append_payloads a)) at 3.
    apply repeat_fold_decodes with (I := λ acc l,
      NoDup l.*1 ∧ (∀ p, p ∈ l → acc !! p.1 = None) ∧ ∀ p, p ∈ l → u64 p.1 ∧
        lenN (bytes_as_slice (payload_bytes p.2)) ≤ MAX_RECORD_BODY_LEN).
    + intros acc [i [tag [b]]] rest (Hnd & Hacc & Hr). rewrite fmap_cons in Hnd.
      apply list.NoDup_cons in Hnd as [Hi Hnd]. simpl fst in *.
      destruct (Hr (i, mkCommandPayload tag (mkBytes b)) ltac:(by left)) as [Hiu Hb]. simpl in Hiu, Hb. split.
      * unfold wire_payload. simpl fst. simpl snd.
        eapply decodes_bind; [by apply get_u64_decodes|]. cbv beta.
        eapply decodes_bind; [apply get_u8_decodes|]. cbv beta.
        rewrite <-(app_nil_r (wire_bytes _)).
        eapply decodes_bind; [by apply get_bytes_decodes|]. cbv beta.
        unfold btree_insert.
        pose proof (Hacc (i, mkCommandPayload tag (mkBytes b)) ltac:(by left)) as Hn. simpl in Hn.
        rewrite Hn, bool_decide_eq_false_2 by by intros []. apply decodes_ret.
      * split; [done|]. split; [|intros q Hq; apply Hr; by right]. intros q Hq. simpl fst. simpl snd.
        rewrite lookup_insert_ne; [apply Hacc; by right|]. intros ->. apply Hi.
        by apply list_elem_of_fmap_2.
    + split; [apply btree_iter_NoDup|]. split; [done|]. intros [i p] Hin. split; [|by apply Hpay].
      apply elem_of_btree_iter in Hin. by apply Hk in Hin.
  - apply decodes_map_err, decodes_lift. unfold log_append_new. destruct a as [e p]. simpl in *.
    by rewrite Hv.
Qed.

Lemma decode_snapshot_decodes s :
  config_limits (snapshot_config s) → position_u64 (last_included s) →
  config_u64 (snapshot_config s) → lenN (wire_snapshot s) ≤ MAX_RECORD_BODY_LEN →
  decodes decode_snapshot (wire_snapshot s) s.
Proof.
  intros Hl Hp Hu Hlen. destruct s as [p c [b]]. unfold wire_snapshot in *.
  cbn [last_included snapshot_config snapshot_data bytes_as_slice bytes_inner] in *.
  rewrite !lenN_app in Hlen. unfold wire_bytes in Hlen at 1. rewrite lenN_app in Hlen.
  unfold decode_snapshot. eapply decodes_bind; [by apply decode_position_decodes|]. cbv beta.
  eapply decodes_bind; [by apply decode_config_decodes|]. cbv beta.
  apply (decodes_bind_ret _ (λ data, mkSnapshot p c (bytes_new data))).
  apply get_bytes_decodes. lia.
Qed.

Lemma decode_checkpoint_decodes c :
  append_fit (checkpoint_suffix c) → checkpoint_limits c → checkpoint_u64 c →
  lenN (wire_checkpoint c) ≤ MAX_RECORD_BODY_LEN →
  decodes decode_snapshot_checkpoint (wire_checkpoint c) c.
Proof.
  intros Hfit (Hv & Hl & Ha) (Ht & Ho & Hp & Hu & Hau) Hlen. destruct c as [t o s a].
  unfold wire_checkpoint in *.
  cbn [checkpoint_current_term checkpoint_voted_for checkpoint_snapshot checkpoint_suffix] in *.
  rewrite !lenN_app in Hlen.
  unfold decode_snapshot_checkpoint.
  eapply decodes_bind; [by apply get_u64_decodes|]. cbv beta.
  eapply decodes_bind; [by apply decode_optional_decodes|]. cbv beta.
  eapply decodes_bind; [apply decode_snapshot_decodes; try done; lia|]. cbv beta.
  rewrite <-(app_nil_r (wire_append a)).
  eapply decodes_bind; [apply decode_append_decodes; try done; lia|]. cbv beta.
  rewrite <-(app_nil_r []). eapply decodes_bind; [by apply decodes_map_err, decodes_lift|].
  apply decodes_ret.
Qed.

Lemma decode_record_decodes r :
  record_fit r → record_limits r → record_u64 r → lenN (wire_record r) ≤ MAX_RECORD_BODY_LEN →
  decodes decode_record (wire_record r) r.
Proof.
  intros Hf Hl Hu Hlen. unfold decode_record.
  destruct r as [t|v|a|c]; cbn [wire_record] in *; rewrite lenN_app in Hlen;
    (eapply decodes_bind; [apply get_u8_decodes|]); dispatch_tag; apply decodes_bind_ret.
  - by apply get_u64_decodes.
  - by apply decode_optional_decodes.
  - apply decode_append_decodes; try done. lia.
  - apply decode_checkpoint_decodes; try done. lia.
Qed.

Lemma decodes_whole {A} (m : M Decoder A) w a :
  decodes m w a → lenN w < U64_LIMIT → m (decoder_new w) = (Ok a, mkDecoder w (lenN w)).
Proof.
  intros H Hlen. specialize (H [] []). rewrite app_nil_l, app_nil_r in H. by apply H.
Qed.

Lemma body_lt_u64 n : n ≤ MAX_RECORD_BODY_LEN → n < U64_LIMIT.
Proof. assert (MAX_RECORD_BODY_LEN < U64_LIMIT) by done. lia. Qed.

Lemma decode_node_record_wire n r :
  u64 n → record_fit r → record_u64 r → record_encodable n r →
  decode_node_record (wire_body n r) = Ok (mkNodeRecord n r).
Proof.
  intros Hn Hf Hu [Hl Hlen]. unfold decode_node_record.
  assert (Hd : decodes (node_id ← decode_node_id; record ← decode_record; mret (mkNodeRecord node_id record))
                 (wire_body n r) (mkNodeRecord n r)).
  { unfold wire_body in *. rewrite lenN_app in Hlen.
    eapply decodes_bind; [by apply get_u64_decodes|]. cbv beta.
    apply decodes_bind_ret. apply decode_record_decodes; try done. lia. }
  apply decodes_whole in Hd; [|by apply body_lt_u64].
  apply bind_ok_inv in Hd as (n' & d1 & H1 & Hd). apply bind_ok_inv in Hd as (r' & d2 & H2 & Hd).
  injection Hd as -> -> ->. rewrite (bind_ok _ _ _ _ _ H1), (bind_ok _ _ _ _ _ H2).
  unfold decoder_finish, mbind, M_bind, get_state. cbn [dec_position dec_bytes]. by rewrite N.eqb_refl.
Qed.

Lemma decode_record_node_id_wire n r rest :
  u64 n → lenN (wire_body n r ++ rest) < U64_LIMIT →
  decode_record_node_id (wire_body n r ++ rest) = Ok n.
Proof.
  intros Hn Hlen. unfold decode_record_node_id, wire_body in *. rewrite <-app_assoc in *.
  pose proof (get_u64_decodes n Hn [] _ Hlen) as H. rewrite app_nil_l in H.
  unfold decode_node_id, decoder_new. change 0 with (lenN (@nil byte)). by rewrite H.
Qed.
End decode_records.
