(* ===== verification/DecodeSound.v ===== *)
(** * What decoding guarantees

    Whatever the bytes, the decoders of [Codec] fail with [InvalidData] or
    return a value that is within the limits of the format, made of machine
    integers, valid, and that occupies the bytes consumed. *)
From Stdlib Require Import Strings.Byte.
From S2P Require Import Prelude Noraft State Crc32c Codec Format.

(** [m] leaves the buffer alone; when it returns [a] after consuming [n] bytes
    [R a n] holds, and it fails with [InvalidData] only. *)
Definition reads {A} (m : M Decoder A) (R : A → N → Prop) : Prop :=
  ∀ d,
    match m d with
    | (Ok a, d') => ∃ n, R a n ∧ d' = mkDecoder (dec_bytes d) (dec_position d + n)
    | (Err e, _) => error_kind e = InvalidData
    end.

Lemma reads_mono {A} (m : M Decoder A) (R R' : A → N → Prop) :
  reads m R → (∀ a n, R a n → R' a n) → reads m R'.
Proof.
  intros H HR d. specialize (H d). destruct (m d) as [[a|e] d']; [|done].
  destruct H as (n & ? & ?). eauto.
Qed.

Lemma reads_ret {A} (a : A) (R : A → N → Prop) : R a 0 → reads (mret a) R.
Proof. intros HR d. exists 0. split; [done|]. rewrite N.add_0_r. by destruct d. Qed.

Lemma reads_throw {A} e (R : A → N → Prop) : error_kind e = InvalidData → reads (throw e) R.
Proof. by intros He d. Qed.

Lemma reads_bind {A B} (m : M Decoder A) (f : A → M Decoder B) R1 (R2 : B → N → Prop) :
  reads m R1 → (∀ a n, R1 a n → reads (f a) (λ b n', R2 b (n + n'))) → reads (m ≫= f) R2.
Proof.
  intros H1 H2 d. specialize (H1 d). unfold mbind, M_bind.
  destruct (m d) as [[a|e] d1]; [|done]. destruct H1 as (n & HR & ->).
  specialize (H2 a n HR (mkDecoder (dec_bytes d) (dec_position d + n))). simpl in H2.
  destruct (f a _) as [[b|e] d2]; [|done]. destruct H2 as (n' & HR' & ->).
  exists (n + n'). split; [done|]. by rewrite N.add_assoc.
Qed.

Lemma reads_map_err_lift {A} e (r : result A) (R : A → N → Prop) :
  error_kind e = InvalidData → (∀ a, r = Ok a → R a 0) →
  reads (map_err (λ _, e) (lift_result r)) R.
Proof.
  intros He HR d. unfold map_err, lift_result. destruct r as [a|err]; [|done].
  exists 0. split; [auto|]. rewrite N.add_0_r. by destruct d.
Qed.

(** Sequences the rules above, leaving the final postconditions. *)
Ltac reads_bind lem := eapply reads_bind; [apply lem|]; cbv beta.

Lemma decoder_take_reads len : reads (decoder_take len) (λ bs n, n = len ∧ lenN bs = len).
Proof.
  intros d. unfold decoder_take, mbind, M_bind, get_state.
  unfold usize_checked_add, u64_checked_add.
  destruct (N.ltb_spec (dec_position d + len) U64_LIMIT); [|done].
  destruct (N.ltb_spec (lenN (dec_bytes d)) (dec_position d + len)); [done|].
  exists len. split; [|done]. split; [done|]. rewrite lenN_takeN, lenN_dropN. lia.
Qed.

Lemma get_u8_reads : reads get_u8 (λ _ n, n = 1).
Proof. unfold get_u8. reads_bind (decoder_take_reads 1). intros bs n [-> _]. by apply reads_ret. Qed.

Lemma get_u32_reads : reads get_u32 (λ v n, n = 4 ∧ v < U32_LIMIT).
Proof.
  unfold get_u32. reads_bind (decoder_take_reads 4). intros bs n [-> Hlen].
  apply reads_ret. split; [done|]. pose proof (from_le_bound bs) as Hb. by rewrite Hlen in Hb.
Qed.

Lemma get_u64_reads : reads get_u64 (λ v n, n = 8 ∧ u64 v).
Proof.
  unfold get_u64. reads_bind (decoder_take_reads 8). intros bs n [-> Hlen].
  apply reads_ret. split; [done|]. pose proof (from_le_bound bs) as Hb. by rewrite Hlen in Hb.
Qed.

Lemma get_bytes_reads :
  reads get_bytes (λ b n, n = lenN (wire_bytes b) ∧ lenN b ≤ MAX_RECORD_BODY_LEN).
Proof.
  unfold get_bytes. reads_bind get_u32_reads. intros len n [-> _].
  destruct (N.ltb_spec MAX_RECORD_BODY_LEN len); [by apply reads_throw|].
  eapply reads_mono; [apply decoder_take_reads|]. intros bs n [-> <-].
  unfold wire_bytes. rewrite lenN_app, lenN_le_bytes. split; [done|lia].
Qed.

Lemma decode_count_reads error : reads (decode_count error) (λ v n, n = 4 ∧ v ≤ MAX_COUNT_ITEMS).
Proof.
  unfold decode_count. reads_bind get_u32_reads. intros v n [-> _].
  destruct (N.ltb_spec MAX_COUNT_ITEMS v); [by apply reads_throw|]. by apply reads_ret.
Qed.

(** A counted loop: [I k acc n] holds after [k] turns that consumed [n] bytes. *)
Lemma repeat_fold_reads {A} (body : A → M Decoder A) (I : nat → A → N → Prop) k acc :
  (∀ j acc n, (j < k)%nat → I j acc n → reads (body acc) (λ acc' n', I (S j) acc' (n + n'))) →
  I O acc 0 →
  reads (repeat_fold k body acc) (I k).
Proof.
  intros Hbody H0.
  assert (Hgen : ∀ m j acc n, (j + m = k)%nat → I j acc n →
            reads (repeat_fold m body acc) (λ acc' n', I k acc' (n + n'))).
  { clear acc H0. induction m as [|m IH]; intros j acc n Hj HI; cbn [repeat_fold].
    - apply reads_ret. rewrite N.add_0_r. by replace k with j by lia.
    - eapply reads_bind; [apply (Hbody j acc n); [lia|done]|]. intros acc' n' HI'.
      eapply reads_mono; [apply (IH (S j) acc' (n + n')); [lia|done]|].
      intros a n'' H. by rewrite N.add_assoc. }
  eapply reads_mono; [apply (Hgen k O acc 0); [lia|done]|]. by intros a n.
Qed.

Lemma concat_le_bytes_length l : lenN (concat (le_bytes 8 <$> l)) = 8 * lenN l.
Proof.
  induction l as [|x l IH]; [done|]. rewrite fmap_cons. cbn [concat].
  rewrite lenN_app, IH, lenN_le_bytes, lenN_cons. lia.
Qed.

Lemma wire_node_set_length X : lenN (wire_node_set X) = 4 + 8 * N.of_nat (size X).
Proof.
  unfold wire_node_set. rewrite lenN_app, lenN_le_bytes, concat_le_bytes_length.
  unfold lenN. by rewrite btree_elements_length.
Qed.

(** The value is within the limits, made of machine integers, and took [n] bytes. *)
Definition set_read (X : gset N) (n : N) : Prop :=
  set_limits X ∧ set_u64 X ∧ n = lenN (wire_node_set X).

Lemma decode_node_id_set_reads : reads decode_node_id_set set_read.
Proof.
  unfold decode_node_id_set. reads_bind decode_count_reads. intros len n [-> Hlen].
  eapply reads_mono.
  - apply repeat_fold_reads with
      (I := λ k (X : gset N) n, size X = k ∧ set_u64 X ∧ n = 8 * N.of_nat k).
    + intros j X n _ (Hsize & Hu & ->). reads_bind get_u64_reads. intros x n [-> Hx].
      case_bool_decide as Hin; [by apply reads_throw|]. apply reads_ret.
      split; [rewrite size_union_alt, size_singleton|split; [|lia]].
      * replace (X ∖ {[x]}) with X by set_solver. lia.
      * intros y. rewrite elem_of_union, elem_of_singleton. intros [->|?]; auto.
    + done.
  - intros X n (Hsize & Hu & ->). unfold set_read, set_limits.
    rewrite wire_node_set_length, Hsize. split; [lia|]. split; [done|lia].
Qed.

Definition config_read (c : ClusterConfig) (n : N) : Prop :=
  config_limits c ∧ config_u64 c ∧ n = lenN (wire_config c).

Lemma decode_config_reads : reads decode_cluster_config config_read.
Proof.
  unfold decode_cluster_config.
  reads_bind decode_node_id_set_reads. intros v n1 (? & ? & ->).
  reads_bind decode_node_id_set_reads. intros nv n2 (? & ? & ->).
  reads_bind decode_node_id_set_reads. intros nn n3 (? & ? & ->).
  apply reads_ret. unfold config_read, wire_config. cbn [voters new_voters non_voters].
  repeat split; try done. rewrite !lenN_app. lia.
Qed.

Lemma decode_position_reads :
  reads decode_log_position (λ p n, position_u64 p ∧ n = lenN (wire_position p)).
Proof.
  unfold decode_log_position, decode_term, decode_log_index.
  reads_bind get_u64_reads. intros t n1 [-> ?]. reads_bind get_u64_reads. intros i n2 [-> ?].
  apply reads_ret. split; [done|]. unfold wire_position. len.
Qed.

Lemma decode_optional_reads :
  reads decode_optional_node_id (λ o n, option_u64 o ∧ n = lenN (wire_optional_node o)).
Proof.
  unfold decode_optional_node_id. reads_bind get_u8_reads. intros tag n ->.
  destruct (byte_to_N tag) as [|[?|?|]]; try by apply reads_throw.
  - by apply reads_ret.
  - unfold decode_node_id. reads_bind get_u64_reads. intros x n [-> ?]. by apply reads_ret.
Qed.

Definition entry_read (e : LogEntry) (n : N) : Prop :=
  entry_limits e ∧ entry_u64 e ∧ n = lenN (wire_entry e).

Lemma decode_entry_reads : reads decode_log_entry entry_read.
Proof.
  unfold decode_log_entry. reads_bind get_u8_reads. intros tag n ->.
  destruct (byte_to_N tag) as [|[?|[?|?|]|]]; try by apply reads_throw.
  - unfold decode_term. reads_bind get_u64_reads. intros x n [-> ?]. by apply reads_ret.
  - by apply reads_ret.
  - reads_bind decode_config_reads. intros c n (? & ? & ->). apply reads_ret.
    repeat (split; [done|]). unfold wire_entry. len.
Qed.

Section records.
Context `{NL : NoraftLaws}.

Definition entries_read (e : LogEntries) (n : N) : Prop :=
  entries_fit e ∧ entries_len e ≤ MAX_COUNT_ITEMS ∧ Forall entry_limits (entries_iter e) ∧
  position_u64 (entries_prev_position e) ∧ Forall entry_u64 (entries_iter e) ∧
  n = lenN (wire_entries e).

Lemma decode_entries_reads : reads decode_log_entries entries_read.
Proof.
  unfold decode_log_entries.
  reads_bind decode_position_reads. intros p n0 (Hp & ->).
  reads_bind decode_count_reads. intros len n1 (-> & Hlen).
  rewrite index_checked_add_eq. unfold u64_checked_add.
  destruct (N.ltb_spec (pos_index p + len) U64_LIMIT) as [Hfit|]; [|by apply reads_throw].
  eapply reads_mono.
  - apply repeat_fold_reads with (I := λ k e n,
      entries_prev_position e = p ∧ lenN (entries_iter e) = N.of_nat k ∧
      Forall entry_limits (entries_iter e) ∧ Forall entry_u64 (entries_iter e) ∧
      n = lenN (concat (wire_entry <$> entries_iter e))).
    + intros j e n Hj (Hprev & Hk & Hl & Hu & ->).
      reads_bind decode_entry_reads. intros x n (Hlx & Hux & ->). apply reads_ret.
      assert (Hpush : pos_index (entries_prev_position e) + entries_len e + 1 < U64_LIMIT)
        by (pose proof (entries_len_iter e); rewrite Hprev; lia).
      rewrite entries_prev_push, entries_iter_push, fmap_app, concat_app by done.
      repeat split; try (by rewrite Forall_app; repeat constructor); [done|len|].
      cbn. rewrite app_nil_r. len.
    + rewrite entries_prev_new, entries_iter_new. repeat split; constructor.
  - intros e n (Hprev & Hk & Hl & Hu & ->). unfold entries_read, entries_fit, wire_entries.
    rewrite entries_len_iter, Hprev, Hk, N2Nat.id, !lenN_app, lenN_le_bytes.
    destruct Hp. by repeat split.
Qed.

Lemma wire_payloads_insert (m : gmap N CommandPayload) k p :
  m !! k = None →
  lenN (concat (wire_payload <$> btree_iter (<[k := p]> m))) =
  lenN (concat (wire_payload <$> btree_iter m)) + lenN (wire_payload (k, p)).
Proof.
  intros Hk.
  assert (Hperm : ∀ l1 l2 : list (N * CommandPayload), l1 ≡ₚ l2 →
    lenN (concat (wire_payload <$> l1)) = lenN (concat (wire_payload <$> l2))).
  { intros l1 l2. induction 1; rewrite ?fmap_cons; cbn [concat]; rewrite ?lenN_app; lia. }
  rewrite (Hperm _ ((k, p) :: btree_iter m)).
  - rewrite fmap_cons. cbn [concat]. rewrite lenN_app. lia.
  - by rewrite !btree_iter_Permutation, map_to_list_insert.
Qed.

Definition append_read (a : LogAppend) (n : N) : Prop :=
  append_fit a ∧ append_limits a ∧ append_u64 a ∧ n = lenN (wire_append a).

Lemma decode_append_reads : reads decode_log_append append_read.
Proof.
  unfold decode_log_append.
  reads_bind decode_entries_reads. intros e n0 (Hfit & Hlen & Hl & Hp & Hu & ->).
  reads_bind decode_count_reads. intros len n1 (-> & Hcount).
  eapply reads_bind.
  - apply repeat_fold_reads with (I := λ k (m : gmap N CommandPayload) n,
      size m = k ∧ map_Forall (λ k _, u64 k) m ∧
      n = lenN (concat (wire_payload <$> btree_iter m))).
    + intros j m n _ (Hsize & Hk & ->).
      unfold decode_log_index. reads_bind get_u64_reads. intros i n2 [-> Hi].
      reads_bind get_u8_reads. intros tag n3 ->.
      reads_bind get_bytes_reads. intros b n4 [-> Hb].
      unfold btree_insert. case_bool_decide as Hold; [by apply reads_throw|].
      apply reads_ret. apply eq_None_not_Some in Hold.
      split; [by rewrite map_size_insert_None, Hsize|]. split; [by apply map_Forall_insert_2|].
      rewrite wire_payloads_insert by done. change (wire_payload (i, _)) with
        (le_bytes 8 i ++ [tag] ++ wire_bytes b). len.
    + split; [apply map_size_empty|]. split; [apply map_Forall_empty|done].
  - intros m n2 (Hsize & Hk & ->). cbv beta. apply reads_map_err_lift; [done|].
    unfold log_append_new. intros a. destruct (log_append_validate _) as [[]|err] eqn:Hv; [|done].
    intros [= <-]. unfold append_read, append_fit, append_limits, append_u64, wire_append.
    cbn [append_entries_of append_payloads]. rewrite Hsize, N2Nat.id.
    repeat split; try done; [by apply Hp..|]. rewrite !lenN_app, lenN_le_bytes. lia.
Qed.

Definition snapshot_read (s : Snapshot) (n : N) : Prop :=
  config_limits (snapshot_config s) ∧ position_u64 (last_included s) ∧
  config_u64 (snapshot_config s) ∧ n = lenN (wire_snapshot s).

Lemma decode_snapshot_reads : reads decode_snapshot snapshot_read.
Proof.
  unfold decode_snapshot.
  reads_bind decode_position_reads. intros p n0 (Hp & ->).
  reads_bind decode_config_reads. intros c n1 (Hl & Hu & ->).
  reads_bind get_bytes_reads. intros b n2 [-> Hb]. apply reads_ret.
  unfold snapshot_read, wire_snapshot. cbn [last_included snapshot_config snapshot_data].
  split; [done|]. split; [done|]. split; [done|]. rewrite !lenN_app.
  unfold bytes_new, bytes_as_slice. cbn [bytes_inner]. lia.
Qed.

Definition checkpoint_read (c : SnapshotCheckpoint) (n : N) : Prop :=
  append_fit (checkpoint_suffix c) ∧ checkpoint_limits c ∧ checkpoint_u64 c ∧
  n = lenN (wire_checkpoint c).

Lemma decode_checkpoint_reads : reads decode_snapshot_checkpoint checkpoint_read.
Proof.
  unfold decode_snapshot_checkpoint, decode_term.
  reads_bind get_u64_reads. intros t n0 (-> & Ht).
  reads_bind decode_optional_reads. intros o n1 (Ho & ->).
  reads_bind decode_snapshot_reads. intros s n2 (Hl & Hp & Hu & ->).
  reads_bind decode_append_reads. intros a n3 (Hf & Hal & Hau & ->).
  eapply reads_bind.
  - apply reads_map_err_lift with
      (R := λ _ n, n = 0 ∧ checkpoint_validate (mkSnapshotCheckpoint t o s a) = Ok ()); [done|].
    by intros [] ?.
  - intros _ n4 (-> & Hv). apply reads_ret. unfold checkpoint_read, checkpoint_limits, checkpoint_u64.
    unfold wire_checkpoint.
    cbn [checkpoint_current_term checkpoint_voted_for checkpoint_snapshot checkpoint_suffix].
    repeat (split; [done|]). rewrite !lenN_app, lenN_le_bytes. lia.
Qed.

Definition record_read (r : SegmentRecord) (n : N) : Prop :=
  record_fit r ∧ record_limits r ∧ record_u64 r ∧ n = lenN (wire_record r).

Lemma decode_record_reads : reads decode_record record_read.
Proof.
  unfold decode_record. reads_bind get_u8_reads. intros tag n ->. unfold record_read.
  destruct (byte_to_N tag) as [|[[?|?|]|[?|?|]|]]; try by apply reads_throw.
  - unfold decode_term. reads_bind get_u64_reads. intros x n [-> ?]. by apply reads_ret.
  - reads_bind decode_checkpoint_reads. intros c n (? & ? & ? & ->). apply reads_ret.
    repeat (split; [done|]). cbn [wire_record]. len.
  - reads_bind decode_append_reads. intros a n (? & ? & ? & ->). apply reads_ret.
    repeat (split; [done|]). cbn [wire_record]. len.
  - reads_bind decode_optional_reads. intros o n (? & ->). apply reads_ret.
    repeat (split; [done|]). cbn [wire_record]. len.
Qed.

(** Decoding a body: the record is well formed and its encoding is as long as
    the body. *)
Lemma decode_node_record_reads body :
  match decode_node_record body with
  | Ok nr =>
      u64 (record_node_id nr) ∧ record_fit (node_record nr) ∧ record_limits (node_record nr) ∧
      record_u64 (node_record nr) ∧
      lenN (wire_body (record_node_id nr) (node_record nr)) = lenN body
  | Err e => error_kind e = InvalidData
  end.
Proof.
  unfold decode_node_record.
  assert (H : reads (node_id ← decode_node_id; record ← decode_record; decoder_finish ;;
                     mret (mkNodeRecord node_id record))
            (λ nr n, u64 (record_node_id nr) ∧ record_read (node_record nr) (n - 8) ∧
                     8 ≤ n)).
  { unfold decode_node_id. reads_bind get_u64_reads. intros i n [-> Hi].
    reads_bind decode_record_reads. intros r n Hr.
    eapply reads_bind with (R1 := λ _ n, n = 0).
    - intros d. unfold decoder_finish, mbind, M_bind, get_state.
      destruct (dec_position d =? lenN (dec_bytes d)); [|done].
      exists 0. split; [done|]. rewrite N.add_0_r. by destruct d.
    - intros _ ? ->. apply reads_ret. split; [done|]. cbn [node_record].
      replace (8 + (n + (0 + 0)) - 8) with n by lia. split; [done|lia]. }
  specialize (H (decoder_new body)).
  destruct ((node_id ← decode_node_id; record ← decode_record; decoder_finish ;;
             mret (mkNodeRecord node_id record)) (decoder_new body)) as [[nr|e] d] eqn:E; [|done].
  cbn [fst]. destruct H as (n & (Hi & (Hf & Hl & Hu & Hn) & H8) & Hd).
  repeat (split; [done|]). unfold wire_body. rewrite lenN_app, lenN_le_bytes.
  (* the decoder has reached the end of the body *)
  apply bind_ok_inv in E as (i & d1 & _ & E). apply bind_ok_inv in E as (r & d2 & _ & E).
  apply bind_ok_inv in E as (u & d3 & Hfin & E). injection E as <- <-.
  unfold decoder_finish, mbind, M_bind, get_state in Hfin.
  destruct (N.eqb_spec (dec_position d2) (lenN (dec_bytes d2))) as [Heq|]; [|done].
  injection Hfin as <- <-. subst d2. cbn [decoder_new dec_position dec_bytes] in Heq.
  cbn [node_record record_node_id] in *. lia.
Qed.
End records.
