(* ===== verification/CodecCorrect.v ===== *)
(** * Correctness of the record codec

    The encoder writes the documented format and rejects exactly what does not
    fit it; decoding inverts encoding; whatever decodes is well formed. *)
From Stdlib Require Import Strings.Byte.
From S2P Require Import Prelude Noraft State Crc32c Codec Format DecodeSound.

Section properties.
Context `{NL : NoraftLaws}.

(** [C23] [encode_record_frame] succeeds exactly on the records that are valid,
    whose counts are at most a million and whose body is at most one GiB; it
    then returns the frame of the format (body length, CRC-32C, body), and
    otherwise an [InvalidInput] error. *)
Theorem encode_record_frame_correct (n : N) (r : SegmentRecord) :
  match encode_record_frame n r with
  | Ok frame => record_encodable n r ∧ frame = wire_frame (wire_body n r)
  | Err e => ¬ record_encodable n r ∧ error_kind e = InvalidInput
  end.
Proof. apply encode_record_frame_spec. Qed.

(** [C22] Decoding inverts encoding: the body of an encoded frame decodes to the
    node ID and the record that were encoded. *)
Theorem decode_encode_roundtrip (n : N) (r : SegmentRecord) (body : list byte) :
  u64 n → record_fit r → record_u64 r →
  encode_record_body n r = Ok body →
  decode_node_record body = Ok (mkNodeRecord n r) ∧ decode_record_node_id body = Ok n.
Proof.
  intros Hn Hf Hu Henc. pose proof (encode_record_body_spec n r) as Hs. rewrite Henc in Hs.
  destruct Hs as [He ->]. split; [by apply decode_node_record_wire|].
  rewrite <-(app_nil_r (wire_body n r)). apply decode_record_node_id_wire; [done|].
  rewrite app_nil_r. apply body_lt_u64, He.
Qed.

(** [C24] Whatever decodes is well formed: its integers are [u64]s, its log
    indices do not overflow, it is a valid record within the limits, and
    encoding it again gives a body of the same length that decodes to the same
    record.  A body that does not decode is reported as [InvalidData]. *)
Theorem decode_node_record_sound (body : list byte) :
  lenN body ≤ MAX_RECORD_BODY_LEN →
  match decode_node_record body with
  | Ok nr =>
      u64 (record_node_id nr) ∧ record_fit (node_record nr) ∧ record_u64 (node_record nr) ∧
      record_limits (node_record nr) ∧
      ∃ body', encode_record_body (record_node_id nr) (node_record nr) = Ok body' ∧
               lenN body' = lenN body ∧ decode_node_record body' = Ok nr
  | Err e => error_kind e = InvalidData
  end.
Proof.
  intros Hlen. pose proof (decode_node_record_reads body) as H.
  destruct (decode_node_record body) as [[n r]|e]; [|done]. cbn [record_node_id node_record] in *.
  destruct H as (Hn & Hf & Hl & Hu & Hw). repeat (split; [done|]).
  pose proof (encode_record_body_spec n r) as Hs.
  assert (He : record_encodable n r) by (split; [done|lia]).
  destruct (encode_record_body n r) as [body'|e]; [|by destruct Hs].
  destruct Hs as [_ ->]. exists (wire_body n r). split; [done|]. split; [done|].
  by apply decode_node_record_wire.
Qed.

(** A body shorter than its node ID, or with anything but one record after
    it, does not decode: a body that decodes has exactly the length of the
    format of what it decodes to. *)
Theorem decode_consumes_body (body rest : list byte) (nr : NodeRecord) :
  decode_node_record body = Ok nr → rest ≠ [] →
  lenN (wire_body (record_node_id nr) (node_record nr)) = lenN body ∧
  decode_node_record (body ++ rest) ≠ Ok nr.
Proof.
  intros Hd Hrest. pose proof (decode_node_record_reads body) as H. rewrite Hd in H.
  destruct H as (_ & _ & _ & _ & Hw). split; [done|]. intros Hd'.
  pose proof (decode_node_record_reads (body ++ rest)) as H. rewrite Hd' in H.
  destruct H as (_ & _ & _ & _ & Hw'). rewrite lenN_app in Hw'. destruct rest; [done|].
  rewrite lenN_cons in Hw'. lia.
Qed.
End properties.

(** ** Witnesses *)

Module Example_record.
#[local] Existing Instance ListLog.instance.

(** An append after term 1, index 4: a term entry and a command with its payload. *)
Definition append : LogAppend := mkLogAppend
  (ListLog.mkEntries (mkLogPosition 1 4) [LogTerm 2; LogCommand] : LogEntries)
  {[6 := mkCommandPayload Byte.x07 (mkBytes [Byte.x01; Byte.x02])]}.

Definition record : SegmentRecord := RecordAppend append.

Definition body : list byte :=
  match encode_record_body 3 record with Ok b => b | Err _ => [] end.

Lemma record_is_fit : record_fit record.
Proof. vm_compute. reflexivity. Qed.

Lemma record_is_u64 : record_u64 record.
Proof.
  split; [split; vm_compute; reflexivity|]. split.
  - repeat constructor.
  - apply map_Forall_singleton. reflexivity.
Qed.

Lemma body_encoded : encode_record_body 3 record = Ok body.
Proof. vm_compute. reflexivity. Qed.

Lemma body_decoded : decode_node_record body = Ok (mkNodeRecord 3 record).
Proof.
  pose proof (encode_record_body_spec 3 record) as Hs. rewrite body_encoded in Hs.
  destruct Hs as [He ->].
  apply (@decode_node_record_wire _ ListLog.laws); [done|apply record_is_fit|apply record_is_u64|done].
Qed.
End Example_record.

Lemma decode_encode_roundtrip_witness :
  @encode_record_body ListLog.instance 3 Example_record.record = Ok Example_record.body ∧
  @decode_node_record ListLog.instance Example_record.body =
    Ok (mkNodeRecord 3 Example_record.record).
Proof.
  split; [exact Example_record.body_encoded|].
  refine (proj1 (@decode_encode_roundtrip ListLog.instance ListLog.laws 3 Example_record.record
            Example_record.body _ _ _ Example_record.body_encoded)).
  - reflexivity.
  - exact Example_record.record_is_fit.
  - exact Example_record.record_is_u64.
Defined.

Lemma decode_node_record_sound_witness :
  lenN Example_record.body ≤ MAX_RECORD_BODY_LEN ∧
  ∃ body', @encode_record_body ListLog.instance 3 Example_record.record = Ok body' ∧
           lenN body' = lenN Example_record.body.
Proof.
  assert (Hlen : lenN Example_record.body ≤ MAX_RECORD_BODY_LEN) by (vm_compute; discriminate).
  split; [exact Hlen|].
  pose proof (@decode_node_record_sound ListLog.instance ListLog.laws Example_record.body Hlen) as H.
  rewrite Example_record.body_decoded in H.
  destruct H as (_ & _ & _ & _ & body' & He & Hl & _). exists body'. split; [exact He|exact Hl].
Defined.

Lemma decode_consumes_body_witness :
  [Byte.x00] ≠ [] ∧
  @decode_node_record ListLog.instance (Example_record.body ++ [Byte.x00]) ≠
    Ok (mkNodeRecord 3 Example_record.record).
Proof.
  assert (Hne : [Byte.x00] ≠ []) by discriminate. split; [exact Hne|].
  exact (proj2 (@decode_consumes_body ListLog.instance ListLog.laws Example_record.body [Byte.x00]
           (mkNodeRecord 3 Example_record.record) Example_record.body_decoded Hne)).
Defined.
