(* ===== verification/Fs.v ===== *)
(** * Files: the part of [std::fs] and [std::io] that the sources use

    A storage directory is a table of names over inodes.  File contents and the
    directory are volatile: what a crash leaves is one of the versions since
    the last sync ([crash]).  Every call takes an outcome from [fs_faults]: it
    proceeds, or fails with an operating-system error after part of its effect.
    Directories inside the storage directory and other special files are
    [EntryOther]. *)
From Stdlib Require Import Strings.Byte.
From S2P Require Import Prelude Metrics.

(** ** State *)

(** A file's contents and the earlier versions since its last sync. *)
Record Inode := mkInode { i_data : list byte; i_unsynced : list (list byte) }.

#[global] Instance Inode_eq_dec : EqDecision Inode.
Proof. solve_decision. Defined.

Inductive DirEntry := EntryFile (inode : N) | EntryOther.

#[global] Instance DirEntry_eq_dec : EqDecision DirEntry.
Proof. solve_decision. Defined.

(** What the path of the storage directory names. *)
Inductive Root := RootMissing | RootNotDir | RootDir.

#[global] Instance Root_eq_dec : EqDecision Root.
Proof. solve_decision. Defined.

Record Fs := mkFs {
  fs_root : Root;
  (** The storage path has a non-empty parent, and its entry there is synced. *)
  fs_has_parent : bool;
  fs_root_synced : bool;
  fs_entries : gmap string DirEntry;
  fs_entries_unsynced : list (gmap string DirEntry);
  fs_inodes : gmap N Inode;
  fs_next_inode : N;
  (** Inodes whose exclusive lock is held. *)
  fs_locks : gset N;
  (** The outcomes of the next calls: [None] proceeds, [Some k] fails, a write
      after [k] bytes; the calls after the last outcome proceed. *)
  fs_faults : list (option N);
}.

(** An open file; the position of a handle in append mode is not used to write. *)
Record File := mkFile {
  file_inode : N;
  file_pos : N;
  file_writable : bool;
  file_append : bool;
}.

(** [OpenOptions]; all handles that the sources read are opened for reading. *)
Record OpenOptions := mkOpenOptions {
  opt_write : bool;
  opt_append : bool;
  opt_truncate : bool;
  opt_create : bool;
  opt_create_new : bool;
}.

Definition open_read : OpenOptions := mkOpenOptions false false false false false.

(** The state of code that works on the directory: files and counters. *)
Record World := mkWorld { w_fs : Fs; w_metrics : StorageMetrics }.

(** The state of code that works on one open file. *)
Record Io := mkIo { io_fs : Fs; io_metrics : StorageMetrics; io_file : File }.

(** ** Updates *)

Definition set_root (r : Root) (synced : bool) (fs : Fs) : Fs :=
  mkFs r (fs_has_parent fs) synced (fs_entries fs) (fs_entries_unsynced fs) (fs_inodes fs)
       (fs_next_inode fs) (fs_locks fs) (fs_faults fs).
Definition set_entries (e : gmap string DirEntry) (u : list (gmap string DirEntry)) (fs : Fs) : Fs :=
  mkFs (fs_root fs) (fs_has_parent fs) (fs_root_synced fs) e u (fs_inodes fs)
       (fs_next_inode fs) (fs_locks fs) (fs_faults fs).
Definition set_inodes (i : gmap N Inode) (next : N) (fs : Fs) : Fs :=
  mkFs (fs_root fs) (fs_has_parent fs) (fs_root_synced fs) (fs_entries fs) (fs_entries_unsynced fs)
       i next (fs_locks fs) (fs_faults fs).
Definition set_locks (l : gset N) (fs : Fs) : Fs :=
  mkFs (fs_root fs) (fs_has_parent fs) (fs_root_synced fs) (fs_entries fs) (fs_entries_unsynced fs)
       (fs_inodes fs) (fs_next_inode fs) l (fs_faults fs).
Definition set_faults (f : list (option N)) (fs : Fs) : Fs :=
  mkFs (fs_root fs) (fs_has_parent fs) (fs_root_synced fs) (fs_entries fs) (fs_entries_unsynced fs)
       (fs_inodes fs) (fs_next_inode fs) (fs_locks fs) f.

(** A directory update that is not yet synced. *)
Definition update_entries (e : gmap string DirEntry) (fs : Fs) : Fs :=
  set_entries e (fs_entries fs :: fs_entries_unsynced fs) fs.

Definition inode_of (i : N) (fs : Fs) : Inode := default (mkInode [] []) (fs_inodes fs !! i).
Definition data_of (i : N) (fs : Fs) : list byte := i_data (inode_of i fs).

(** A change of a file's contents that is not yet synced. *)
Definition update_data (i : N) (data : list byte) (fs : Fs) : Fs :=
  set_inodes (<[i := mkInode data (data_of i fs :: i_unsynced (inode_of i fs))]> (fs_inodes fs))
             (fs_next_inode fs) fs.

Definition sync_inode (i : N) (fs : Fs) : Fs :=
  set_inodes (<[i := mkInode (data_of i fs) []]> (fs_inodes fs)) (fs_next_inode fs) fs.

Definition sync_entries (fs : Fs) : Fs := set_entries (fs_entries fs) [] fs.

(** ** Calls *)

Definition os_error (kind : ErrorKind) : io_error := IoError kind OsError.

(** Takes the outcome of a call. *)
Definition take_fault : M Fs (option N) := λ fs,
  match fs_faults fs with
  | [] => (Ok None, fs)
  | outcome :: rest => (Ok outcome, set_faults rest fs)
  end.

(** A call that fails without effect. *)
Definition call {A} (op : M Fs A) : M Fs A :=
  outcome ← take_fault;
  match outcome with
  | None => op
  | Some _ => throw (os_error OtherError)
  end.

(** Operations in the directory fail when the storage path is not one. *)
Definition in_dir {A} (op : M Fs A) : M Fs A :=
  fs ← get_state;
  match fs_root fs with
  | RootMissing => throw (os_error NotFound)
  | RootNotDir => throw (os_error NotADirectory)
  | RootDir => op
  end.

(** [Path::exists] of a file of the directory: errors count as absence. *)
Definition fs_exists (name : string) : M Fs bool :=
  outcome ← take_fault;
  fs ← get_state;
  mret (bool_decide (outcome = None ∧ fs_root fs = RootDir ∧ is_Some (fs_entries fs !! name))).

(** [std::fs::metadata(path)?.is_file()]. *)
Definition fs_is_file (name : string) : M Fs bool :=
  call $ in_dir $
  fs ← get_state;
  match fs_entries fs !! name with
  | Some (EntryFile _) => mret true
  | Some EntryOther => mret false
  | None => throw (os_error NotFound)
  end.

(** [OpenOptions::open]. *)
Definition fs_open (name : string) (o : OpenOptions) : M Fs File :=
  call $ in_dir $
  fs ← get_state;
  let handle i := mkFile i 0 (opt_write o || opt_append o) (opt_append o) in
  match fs_entries fs !! name with
  | Some entry =>
      if opt_create_new o then throw (os_error AlreadyExists)
      else
        match entry with
        | EntryOther => throw (os_error OtherError)
        | EntryFile i =>
            (if opt_truncate o then modify (update_data i []) else mret ()) ;;
            mret (handle i)
        end
  | None =>
      if opt_create o || opt_create_new o then
        let i := fs_next_inode fs in
        modify (λ fs, set_inodes (<[i := mkInode [] []]> (fs_inodes fs)) (i + 1) fs) ;;
        modify (λ fs, update_entries (<[name := EntryFile i]> (fs_entries fs)) fs) ;;
        mret (handle i)
      else throw (os_error NotFound)
  end.

(** [std::fs::remove_file]. *)
Definition fs_remove_file (name : string) : M Fs () :=
  call $ in_dir $
  fs ← get_state;
  match fs_entries fs !! name with
  | Some (EntryFile _) => modify (λ fs, update_entries (delete name (fs_entries fs)) fs)
  | Some EntryOther => throw (os_error OtherError)
  | None => throw (os_error NotFound)
  end.

(** [std::fs::rename] of a file. *)
Definition fs_rename (from to : string) : M Fs () :=
  call $ in_dir $
  fs ← get_state;
  match fs_entries fs !! from, fs_entries fs !! to with
  | None, _ => throw (os_error NotFound)
  | Some _, Some EntryOther => throw (os_error OtherError)
  | Some entry, _ => modify (λ fs, update_entries (<[to := entry]> (delete from (fs_entries fs))) fs)
  end.

(** [File::open(dir)?.sync_all()]. *)
Definition fs_sync_dir : M Fs () :=
  call (in_dir (mret ())) ;;
  call (modify sync_entries).

(** [std::fs::read_dir(dir)] read to its end: the entries in no particular
    order (the key order of the map), with their types. *)
Definition fs_read_dir : M Fs (list (string * DirEntry)) :=
  call $ in_dir $
  fs ← get_state;
  mret (map_to_list (fs_entries fs)).

(** [File::try_lock]: [WouldBlock] when another handle holds the lock. *)
Definition fs_try_lock (f : File) : M Fs () :=
  call $
  fs ← get_state;
  if bool_decide (file_inode f ∈ fs_locks fs) then throw (os_error WouldBlock)
  else modify (λ fs, set_locks ({[file_inode f]} ∪ fs_locks fs) fs).

(** ** Calls on an open file *)

Definition set_io_fs (fs : Fs) (io : Io) : Io := mkIo fs (io_metrics io) (io_file io).
Definition set_io_file (f : File) (io : Io) : Io := mkIo (io_fs io) (io_metrics io) f.
Definition set_io_metrics (m : StorageMetrics) (io : Io) : Io := mkIo (io_fs io) m (io_file io).
Definition io_call {A} (op : M Fs A) : M Io A := zoom io_fs set_io_fs op.
Definition io_count (f : StorageMetrics → StorageMetrics) : M Io () :=
  modify (λ io, set_io_metrics (f (io_metrics io)) io).

Definition io_data (io : Io) : list byte := data_of (file_inode (io_file io)) (io_fs io).
Definition seek_to (pos : N) (f : File) : File :=
  mkFile (file_inode f) pos (file_writable f) (file_append f).

(** [seek(SeekFrom::Start(pos))]. *)
Definition file_seek (pos : N) : M Io () :=
  io_call (call (mret ())) ;; modify (λ io, set_io_file (seek_to pos (io_file io)) io).

(** [seek(SeekFrom::End(0))]. *)
Definition file_seek_end : M Io N :=
  io_call (call (mret ())) ;;
  io ← get_state;
  let len := lenN (io_data io) in
  modify (λ io, set_io_file (seek_to len (io_file io)) io) ;;
  mret len.

(** [stream_position]. *)
Definition file_stream_position : M Io N :=
  io_call (call (mret ())) ;; io ← get_state; mret (file_pos (io_file io)).

(** [metadata()?.len()]. *)
Definition file_len : M Io N :=
  io_call (call (mret ())) ;; io ← get_state; mret (lenN (io_data io)).

(** [read_exact] into a buffer of [n] bytes: short input is read to its end. *)
Definition file_read_exact (n : N) : M Io (list byte) :=
  io_call (call (mret ())) ;;
  io ← get_state;
  let rest := dropN (file_pos (io_file io)) (io_data io) in
  let got := takeN n rest in
  modify (λ io, set_io_file (seek_to (file_pos (io_file io) + lenN got) (io_file io)) io) ;;
  if lenN got <? n then throw (os_error UnexpectedEof) else mret got.

(** [file.take(n).read_to_end(&mut buf)] into an empty buffer. *)
Definition file_take_read_to_end (n : N) : M Io (list byte) :=
  io_call (call (mret ())) ;;
  io ← get_state;
  let got := takeN n (dropN (file_pos (io_file io)) (io_data io)) in
  modify (λ io, set_io_file (seek_to (file_pos (io_file io) + lenN got) (io_file io)) io) ;;
  mret got.

(** The contents after [bytes] are written at [pos]; a gap is filled with zeros. *)
Definition overwrite (data : list byte) (pos : N) (bytes : list byte) : list byte :=
  takeN pos data ++ replicate (N.to_nat (pos - lenN data)) Byte.x00 ++ bytes ++
  dropN (pos + lenN bytes) data.

(** [write_all]: a failure leaves a prefix of the bytes written. *)
Definition file_write_all (bytes : list byte) : M Io () :=
  outcome ← io_call take_fault;
  io ← get_state;
  let f := io_file io in
  if negb (file_writable f) then throw (os_error OtherError)
  else
    let written := match outcome with None => bytes | Some k => takeN k bytes end in
    let pos := if file_append f then lenN (io_data io) else file_pos f in
    modify (λ io, set_io_fs (update_data (file_inode f)
                               (overwrite (io_data io) pos written) (io_fs io)) io) ;;
    modify (λ io, set_io_file (seek_to (pos + lenN written) f) io) ;;
    match outcome with None => mret () | Some _ => throw (os_error OtherError) end.

(** [set_len]. *)
Definition file_set_len (n : N) : M Io () :=
  io_call (call (mret ())) ;;
  io ← get_state;
  let f := io_file io in
  if negb (file_writable f) then throw (os_error InvalidInput)
  else
    modify (λ io, set_io_fs (update_data (file_inode f)
      (takeN n (io_data io) ++ replicate (N.to_nat (n - lenN (io_data io))) Byte.x00)
      (io_fs io)) io).

(** [sync_data] and [sync_all]. *)
Definition file_sync : M Io () :=
  io_call (call (mret ())) ;;
  modify (λ io, set_io_fs (sync_inode (file_inode (io_file io)) (io_fs io)) io).

(** Opens a file of the directory and works on it; the handle is dropped. *)
Definition w_call {A} (op : M Fs A) : M World A :=
  zoom w_fs (λ fs w, mkWorld fs (w_metrics w)) op.
Definition w_count (f : StorageMetrics → StorageMetrics) : M World () :=
  modify (λ w, mkWorld (w_fs w) (f (w_metrics w))).

Definition with_file {A} (f : File) (m : M Io A) : M World A := λ w,
  let '(r, io) := m (mkIo (w_fs w) (w_metrics w) f) in
  (r, mkWorld (io_fs io) (io_metrics io)).

(** ** Crashes *)

(** What the writes since the last sync may have left of a file: its
    contents, an earlier version, or what lies between two successive versions
    when a write was extending or a truncation shortening it. *)
Definition between (v1 v2 c : list byte) : Prop :=
  (v1 `prefix_of` c ∧ c `prefix_of` v2) ∨ (v2 `prefix_of` c ∧ c `prefix_of` v1).

Fixpoint crash_versions (current : list byte) (older : list (list byte)) (c : list byte) : Prop :=
  match older with
  | [] => c = current
  | v :: older => c = current ∨ between v current c ∨ crash_versions v older c
  end.

(** The states a crash may leave. *)
Definition crash (fs fs' : Fs) : Prop :=
  fs_root fs' = fs_root fs ∧
  fs_entries fs' ∈ fs_entries fs :: fs_entries_unsynced fs ∧ fs_entries_unsynced fs' = [] ∧
  (∀ i, crash_versions (data_of i fs) (i_unsynced (inode_of i fs)) (data_of i fs') ∧
        i_unsynced (inode_of i fs') = []) ∧
  fs_next_inode fs' = fs_next_inode fs ∧ fs_locks fs' = ∅.

(** ** Lemmas *)

(** The next calls all proceed. *)
Definition no_faults (fs : Fs) : Prop := fs_faults fs = [].

Lemma take_fault_none fs : no_faults fs → take_fault fs = (Ok None, fs).
Proof. unfold no_faults, take_fault. by intros ->. Qed.

Lemma call_none {A} (op : M Fs A) fs : no_faults fs → call op fs = op fs.
Proof. intros H. unfold call. by rewrite (bind_ok _ _ _ _ _ (take_fault_none fs H)). Qed.

Lemma io_call_none io : no_faults (io_fs io) → io_call (call (mret ())) io = (Ok (), io).
Proof.
  intros H. unfold io_call, zoom. rewrite call_none by done. unfold mret, M_ret. by destruct io.
Qed.

(** The contents of other files are unaffected. *)
Lemma data_of_update_data i j data fs :
  data_of j (update_data i data fs) = if decide (i = j) then data else data_of j fs.
Proof.
  unfold data_of, inode_of, update_data. simpl. case_decide as Hij.
  - subst. by rewrite lookup_insert_eq.
  - by rewrite lookup_insert_ne.
Qed.

Lemma data_of_sync_inode i j fs : data_of j (sync_inode i fs) = data_of j fs.
Proof.
  unfold data_of, inode_of, sync_inode. simpl. destruct (decide (i = j)) as [->|Hij].
  - by rewrite lookup_insert_eq.
  - by rewrite lookup_insert_ne.
Qed.

Section file_calls.
Context (io : Io).
Hypothesis Hnf : no_faults (io_fs io).
Let data := io_data io.
Let pos := file_pos (io_file io).

Lemma file_seek_run p : file_seek p io = (Ok (), set_io_file (seek_to p (io_file io)) io).
Proof using Hnf. unfold file_seek. by rewrite (bind_ok _ _ _ _ _ (io_call_none io Hnf)). Qed.

Lemma file_stream_position_run : file_stream_position io = (Ok pos, io).
Proof using Hnf. unfold file_stream_position. by rewrite (bind_ok _ _ _ _ _ (io_call_none io Hnf)). Qed.

Lemma file_len_run : file_len io = (Ok (lenN data), io).
Proof using Hnf. unfold file_len. by rewrite (bind_ok _ _ _ _ _ (io_call_none io Hnf)). Qed.

Lemma file_read_exact_run n :
  file_read_exact n io =
  (if lenN (dropN pos data) <? n then Err (os_error UnexpectedEof)
   else Ok (takeN n (dropN pos data)),
   set_io_file (seek_to (pos + N.min n (lenN (dropN pos data))) (io_file io)) io).
Proof using Hnf.
  unfold file_read_exact. rewrite (bind_ok _ _ _ _ _ (io_call_none io Hnf)).
  unfold mbind, M_bind, get_state, modify. fold data pos. rewrite lenN_takeN.
  replace (N.min n (lenN (dropN pos data)) <? n) with (lenN (dropN pos data) <? n).
  - by destruct (_ <? _).
  - destruct (N.ltb_spec (lenN (dropN pos data)) n), (N.ltb_spec (N.min n (lenN (dropN pos data))) n);
      done || lia.
Qed.

Lemma file_take_read_to_end_run n :
  file_take_read_to_end n io =
  (Ok (takeN n (dropN pos data)),
   set_io_file (seek_to (pos + N.min n (lenN (dropN pos data))) (io_file io)) io).
Proof using Hnf.
  unfold file_take_read_to_end. rewrite (bind_ok _ _ _ _ _ (io_call_none io Hnf)).
  unfold mbind, M_bind, get_state, modify. fold data pos. by rewrite lenN_takeN.
Qed.

(** Appending through a handle in append mode. *)
Lemma file_append_run bytes :
  file_writable (io_file io) = true → file_append (io_file io) = true →
  file_write_all bytes io =
  (Ok (), set_io_file (seek_to (lenN data + lenN bytes) (io_file io))
            (set_io_fs (update_data (file_inode (io_file io)) (data ++ bytes) (io_fs io)) io)).
Proof using Hnf.
  intros Hw Ha. unfold file_write_all, mbind, M_bind, io_call, zoom.
  rewrite take_fault_none by done. unfold get_state, modify.
  replace (set_io_fs (io_fs io) io) with io by by destruct io. rewrite Hw, Ha. cbn [negb].
  unfold overwrite. fold data.
  rewrite (takeN_all (lenN data)) by lia. rewrite N.sub_diag. cbn [N.to_nat replicate].
  rewrite dropN_all by lia. rewrite app_nil_l, app_nil_r. done.
Qed.

(** Truncation. *)
Lemma file_truncate_run n :
  file_writable (io_file io) = true → n ≤ lenN data →
  file_set_len n io =
  (Ok (), set_io_fs (update_data (file_inode (io_file io)) (takeN n data) (io_fs io)) io).
Proof using Hnf.
  intros Hw Hn. unfold file_set_len. rewrite (bind_ok _ _ _ _ _ (io_call_none io Hnf)).
  unfold mbind, M_bind, get_state, modify. rewrite Hw. cbn [negb]. fold data.
  replace (n - lenN data) with 0 by lia. cbn [N.to_nat replicate]. by rewrite app_nil_r.
Qed.
End file_calls.
