(* ===== verification/Frame.v ===== *)
(** * Record frames in files, [src/codec.rs]

    [read_record_body] reads a frame into memory and [scan_record_frame] only
    checks it, in chunks; both are the same function of the bytes that are left
    of the file ([frame_at]). *)
From Stdlib Require Import Strings.Byte.
From S2P Require Import Prelude Metrics Fs Noraft State Crc32c Codec Format.

(** ** Definitions *)

(** [match file.read_exact(..) { Ok(()) => .., UnexpectedEof => None, .. }]. *)
Definition read_exact_or_eof (n : N) : M Io (option (list byte)) :=
  r ← try_catch (file_read_exact n);
  match r with
  | Ok bytes => mret (Some bytes)
  | Err e => if bool_decide (error_kind e = UnexpectedEof) then mret None else throw e
  end.

(** Runs the rest of a function on the bytes read, or returns [None]. *)
Definition read_exact_or_none {A} (n : N) (rest : list byte → M Io (option A)) : M Io (option A) :=
  bytes ← read_exact_or_eof n;
  match bytes with
  | Some bytes => rest bytes
  | None => mret None
  end.

(** [read_record_body]; [count] tells whether counters are passed. *)
Definition read_record_body (count : bool) : M Io (option (list byte)) :=
  read_exact_or_none SEGMENT_RECORD_BASE_HEADER_LEN $ λ header,
  let body_len := from_le header in
  if MAX_RECORD_BODY_LEN <? body_len then throw (invalid_data "segment record is too large")
  else
    read_exact_or_none SEGMENT_CHECKSUM_LEN $ λ checksum,
    let expected_checksum := from_le checksum in
    body ← file_take_read_to_end body_len;
    if negb (lenN body =? body_len) then mret None
    else
      let actual_checksum := crc32c body in
      if negb (actual_checksum =? expected_checksum) then
        (if count then io_count checksum_failed else mret ()) ;;
        throw (invalid_data "segment record checksum mismatch")
      else mret (Some body).

(** The size of the buffer of [scan_record_frame]. *)
Definition SCAN_BUFFER_LEN : N := 8192.

(** [while remaining != 0 { .. }]; returns the checksum state, or [None] at
    the end of the file.  [fuel] bounds the turns. *)
Fixpoint scan_body_chunks (fuel : nat) (crc : Crc32c) (remaining : N) : M Io (option Crc32c) :=
  if remaining =? 0 then mret (Some crc)
  else
    match fuel with
    | O => throw (IoError OtherError FuelExhausted)
    | S fuel =>
        let read_len := N.min remaining SCAN_BUFFER_LEN in
        read_exact_or_none read_len $ λ buffer,
        scan_body_chunks fuel (update crc buffer) (remaining - read_len)
    end.

Definition scan_body_fuel (body_len : N) : nat := S (N.to_nat (body_len / SCAN_BUFFER_LEN)).

(** [scan_record_frame]. *)
Definition scan_record_frame : M Io (option ()) :=
  read_exact_or_none SEGMENT_RECORD_BASE_HEADER_LEN $ λ header,
  let body_len := from_le header in
  if MAX_RECORD_BODY_LEN <? body_len then throw (invalid_data "segment record is too large")
  else
    read_exact_or_none SEGMENT_CHECKSUM_LEN $ λ checksum,
    let expected_checksum := from_le checksum in
    crc ← scan_body_chunks (scan_body_fuel body_len) crc_new body_len;
    match crc with
    | None => mret None
    | Some crc =>
        if negb (value crc =? expected_checksum) then
          io_count checksum_failed ;;
          throw (invalid_data "segment record checksum mismatch")
        else mret (Some ())
    end.

(** ** The specification: a frame at the head of some bytes *)

Inductive frame_view :=
  | FrameShort
  | FrameTooLarge
  | FrameCorrupt
  | FrameOk (body : list byte).

Definition frame_at (d : list byte) : frame_view :=
  if lenN d <? 4 then FrameShort
  else
    let body_len := from_le (takeN 4 d) in
    if MAX_RECORD_BODY_LEN <? body_len then FrameTooLarge
    else if lenN d <? 8 + body_len then FrameShort
    else
      let body := takeN body_len (dropN 8 d) in
      if crc32c body =? from_le (takeN 4 (dropN 4 d)) then FrameOk body else FrameCorrupt.

(** The bytes a reader has consumed when it returns. *)
Definition frame_consumed (d : list byte) : N :=
  match frame_at d with
  | FrameShort => lenN d
  | FrameTooLarge => 4
  | FrameCorrupt | FrameOk _ => 8 + from_le (takeN 4 d)
  end.

(** The result of a reader that keeps [f body] of a complete frame. *)
Definition frame_result {A} (f : list byte → A) (v : frame_view) : result (option A) :=
  match v with
  | FrameShort => Ok None
  | FrameTooLarge => Err (invalid_data "segment record is too large")
  | FrameCorrupt => Err (invalid_data "segment record checksum mismatch")
  | FrameOk body => Ok (Some (f body))
  end.

Definition io_rest (io : Io) : list byte := dropN (file_pos (io_file io)) (io_data io).

(** The handle moved [n] bytes on. *)
Definition advance (n : N) (io : Io) : Io :=
  set_io_file (seek_to (file_pos (io_file io) + n) (io_file io)) io.

(** The state a reader leaves. *)
Definition frame_state (count : bool) (io : Io) : Io :=
  let io' := advance (frame_consumed (io_rest io)) io in
  match frame_at (io_rest io) with
  | FrameCorrupt => if count then set_io_metrics (checksum_failed (io_metrics io')) io' else io'
  | _ => io'
  end.

(** ** Lemmas *)

Lemma io_rest_advance n io : io_rest (advance n io) = dropN n (io_rest io).
Proof. unfold io_rest, advance, io_data. simpl. by rewrite dropN_dropN. Qed.

Lemma advance_advance n m io : advance m (advance n io) = advance (n + m) io.
Proof. unfold advance, set_io_file, seek_to. simpl. by rewrite N.add_assoc. Qed.

Lemma advance_no_faults n io : no_faults (io_fs io) → no_faults (io_fs (advance n io)).
Proof. done. Qed.

Lemma read_exact_or_none_run {A} n (rest : list byte → M Io (option A)) io :
  no_faults (io_fs io) →
  read_exact_or_none n rest io =
  if lenN (io_rest io) <? n then (Ok None, advance (lenN (io_rest io)) io)
  else rest (takeN n (io_rest io)) (advance n io).
Proof.
  intros Hnf. unfold read_exact_or_none, read_exact_or_eof, mbind, M_bind, try_catch.
  rewrite file_read_exact_run by done. fold (io_rest io).
  destruct (N.ltb_spec (lenN (io_rest io)) n) as [Hlt|Hge].
  - rewrite N.min_r by lia. done.
  - by rewrite N.min_l by lia.
Qed.

Lemma take_read_to_end_run n io :
  no_faults (io_fs io) →
  file_take_read_to_end n io =
  (Ok (takeN n (io_rest io)), advance (N.min n (lenN (io_rest io))) io).
Proof. intros Hnf. by apply file_take_read_to_end_run. Qed.

Lemma update_nil c : update c [] = c.
Proof. apply Crc32c_eq. by destruct c. Qed.

(** The chunked loop checks the same bytes: enough fuel, and either the whole
    body or the end of the file. *)
Lemma scan_body_chunks_run fuel c n io :
  no_faults (io_fs io) → state c < U32_LIMIT → n / SCAN_BUFFER_LEN < N.of_nat fuel →
  scan_body_chunks fuel c n io =
  if lenN (io_rest io) <? n then (Ok None, advance (lenN (io_rest io)) io)
  else (Ok (Some (update c (takeN n (io_rest io)))), advance n io).
Proof.
  assert (Hbuf : 0 < SCAN_BUFFER_LEN) by done.
  revert c n io. induction fuel as [|fuel IH]; intros c n io Hnf Hc Hfuel;
    [by apply N.nlt_0_r in Hfuel|].
  cbn [scan_body_chunks]. destruct (N.eqb_spec n 0) as [->|Hn].
  - rewrite takeN_0, update_nil. destruct (N.ltb_spec (lenN (io_rest io)) 0); [lia|].
    unfold advance, set_io_file, seek_to. rewrite N.add_0_r. by destruct io as [? ? []].
  - rewrite read_exact_or_none_run by done.
    set (k := N.min n SCAN_BUFFER_LEN).
    destruct (N.ltb_spec (lenN (io_rest io)) k) as [Hlt|Hge].
    { by rewrite (proj2 (N.ltb_lt _ _)) by lia. }
    assert (Hk : 0 < k ≤ n) by lia.
    destruct (N.le_gt_cases n SCAN_BUFFER_LEN) as [Hle|Hgt].
    + (* last chunk *)
      replace k with n in * by lia. rewrite N.sub_diag.
      rewrite (proj2 (N.ltb_ge _ _)) by done. by destruct fuel.
    + replace k with SCAN_BUFFER_LEN in * by lia.
      rewrite IH; [|done|by apply update_u32|].
      * rewrite io_rest_advance, lenN_dropN, !advance_advance.
        destruct (N.ltb_spec (lenN (io_rest io)) n), (N.ltb_spec (lenN (io_rest io) - SCAN_BUFFER_LEN)
          (n - SCAN_BUFFER_LEN)); try lia.
        -- do 2 f_equal. lia.
        -- rewrite update_app by done. f_equal; [|f_equal; lia]. do 3 f_equal.
           unfold takeN, dropN. rewrite take_drop_commute.
           replace (N.to_nat SCAN_BUFFER_LEN + N.to_nat (n - SCAN_BUFFER_LEN))%nat
             with (N.to_nat n) by lia.
           rewrite <-(take_drop (N.to_nat SCAN_BUFFER_LEN) (take (N.to_nat n) (io_rest io))) at 2.
           f_equal. rewrite take_take. f_equal. lia.
      * replace n with (n - SCAN_BUFFER_LEN + 1 * SCAN_BUFFER_LEN) in Hfuel by lia.
        rewrite N.div_add in Hfuel by done. lia.
Qed.

(** Both readers as functions of the bytes left, without faults. *)
Lemma read_record_body_run count io :
  no_faults (io_fs io) →
  read_record_body count io = (frame_result id (frame_at (io_rest io)), frame_state count io).
Proof.
  intros Hnf. unfold read_record_body, frame_state, frame_consumed, frame_at.
  change SEGMENT_RECORD_BASE_HEADER_LEN with 4. change SEGMENT_CHECKSUM_LEN with 4.
  rewrite read_exact_or_none_run by done.
  destruct (N.ltb_spec (lenN (io_rest io)) 4) as [?|H4]; [done|].
  set (n := from_le (takeN 4 (io_rest io))).
  destruct (N.ltb_spec MAX_RECORD_BODY_LEN n) as [?|Hn]; [done|].
  rewrite read_exact_or_none_run by done. rewrite io_rest_advance, lenN_dropN, !advance_advance.
  destruct (N.ltb_spec (lenN (io_rest io) - 4) 4) as [?|H8].
  { rewrite (proj2 (N.ltb_lt _ _)) by lia. cbn [frame_result]. do 2 f_equal. lia. }
  unfold mbind, M_bind. rewrite take_read_to_end_run by done.
  change (4 + 4) with 8. rewrite io_rest_advance, lenN_takeN, lenN_dropN, advance_advance.
  destruct (N.ltb_spec (lenN (io_rest io)) (8 + n)) as [?|Hb].
  - rewrite (proj2 (N.eqb_neq _ _)) by lia. cbn [negb frame_result]. unfold mret, M_ret.
    do 2 f_equal. lia.
  - rewrite N.min_l by lia. rewrite N.eqb_refl. cbn [negb].
    destruct (crc32c _ =? _); cbn [negb frame_result]; [done|]. by destruct count.
Qed.

Lemma scan_record_frame_run io :
  no_faults (io_fs io) →
  scan_record_frame io =
  (frame_result (λ _, ()) (frame_at (io_rest io)), frame_state true io).
Proof.
  intros Hnf. unfold scan_record_frame, frame_state, frame_consumed, frame_at.
  change SEGMENT_RECORD_BASE_HEADER_LEN with 4. change SEGMENT_CHECKSUM_LEN with 4.
  rewrite read_exact_or_none_run by done.
  destruct (N.ltb_spec (lenN (io_rest io)) 4) as [?|H4]; [done|].
  set (n := from_le (takeN 4 (io_rest io))).
  destruct (N.ltb_spec MAX_RECORD_BODY_LEN n) as [?|Hn]; [done|].
  rewrite read_exact_or_none_run by done. rewrite io_rest_advance, lenN_dropN, !advance_advance.
  destruct (N.ltb_spec (lenN (io_rest io) - 4) 4) as [?|H8].
  { rewrite (proj2 (N.ltb_lt _ _)) by lia. cbn [frame_result]. do 2 f_equal. lia. }
  unfold mbind, M_bind.
  rewrite scan_body_chunks_run; [|done|apply crc_new_u32|unfold scan_body_fuel; lia].
  change (4 + 4) with 8. rewrite io_rest_advance, lenN_dropN, !advance_advance.
  destruct (N.ltb_spec (lenN (io_rest io)) (8 + n)) as [?|Hb].
  - rewrite (proj2 (N.ltb_lt _ _)) by lia. cbn [frame_result]. do 2 f_equal. lia.
  - rewrite (proj2 (N.ltb_ge _ _)) by lia.
    change (value (update crc_new (takeN n (dropN 8 (io_rest io)))))
      with (crc32c (takeN n (dropN 8 (io_rest io)))).
    by destruct (crc32c _ =? _).
Qed.

(** *** Complete, torn and corrupt frames *)

Lemma wire_frame_length body : lenN (wire_frame body) = 8 + lenN body.
Proof. unfold wire_frame. rewrite !lenN_app, !lenN_le_bytes. lia. Qed.

Lemma takeN_app_le {A} n (l1 l2 : list A) : n ≤ lenN l1 → takeN n (l1 ++ l2) = takeN n l1.
Proof. unfold takeN, lenN. intros. apply take_app_le. lia. Qed.

Lemma dropN_app_le {A} n (l1 l2 : list A) : n ≤ lenN l1 → dropN n (l1 ++ l2) = dropN n l1 ++ l2.
Proof. unfold dropN, lenN. intros. apply drop_app_le. lia. Qed.

Lemma takeN_app_lenN {A} n (l1 l2 : list A) : n = lenN l1 → takeN n (l1 ++ l2) = l1.
Proof. intros ->. apply takeN_app_exact. Qed.
Lemma dropN_app_lenN {A} n (l1 l2 : list A) : n = lenN l1 → dropN n (l1 ++ l2) = l2.
Proof. intros ->. apply dropN_app_exact. Qed.

Section wire.
Context (body rest : list byte).
Hypothesis Hbody : lenN body ≤ MAX_RECORD_BODY_LEN.

Lemma wire_frame_len_field : from_le (takeN 4 (wire_frame body ++ rest)) = lenN body.
Proof using Hbody.
  assert (MAX_RECORD_BODY_LEN < U32_LIMIT) by done.
  unfold wire_frame. rewrite <-!app_assoc, takeN_app_lenN by by rewrite lenN_le_bytes.
  apply from_le_le_bytes. change (256 ^ N.of_nat 4) with U32_LIMIT. lia.
Qed.

Lemma frame_at_wire : frame_at (wire_frame body ++ rest) = FrameOk body.
Proof using Hbody.
  unfold frame_at. rewrite wire_frame_len_field, lenN_app, wire_frame_length.
  rewrite (proj2 (N.ltb_ge _ 4)), (proj2 (N.ltb_ge _ (lenN body))), (proj2 (N.ltb_ge _ (8 + _))) by lia.
  unfold wire_frame. rewrite <-!app_assoc.
  rewrite (dropN_app_lenN 4) by by rewrite lenN_le_bytes.
  rewrite (takeN_app_lenN 4) by by rewrite lenN_le_bytes.
  rewrite (app_assoc (le_bytes 4 (lenN body))), (dropN_app_lenN 8)
    by by rewrite lenN_app, !lenN_le_bytes.
  rewrite takeN_app_exact, <-crc32c_reference.
  rewrite from_le_le_bytes by apply crc32c_bound. by rewrite N.eqb_refl.
Qed.

Lemma frame_consumed_wire : frame_consumed (wire_frame body ++ rest) = lenN (wire_frame body).
Proof using Hbody.
  unfold frame_consumed. by rewrite frame_at_wire, wire_frame_len_field, wire_frame_length.
Qed.
End wire.

(** A proper prefix of a frame is short, whatever was lost. *)
Lemma frame_at_torn body t lost :
  lenN body ≤ MAX_RECORD_BODY_LEN → wire_frame body = t ++ lost → lost ≠ [] →
  frame_at t = FrameShort.
Proof.
  intros Hb Heq Hlost. unfold frame_at. destruct (N.ltb_spec (lenN t) 4) as [?|H4]; [done|].
  pose proof (wire_frame_len_field body [] Hb) as Hlen. rewrite app_nil_r, Heq, takeN_app_le in Hlen by done.
  rewrite Hlen, (proj2 (N.ltb_ge _ _)) by done.
  pose proof (wire_frame_length body) as Hw. rewrite Heq, lenN_app in Hw.
  destruct lost; [done|]. rewrite lenN_cons in Hw. by rewrite (proj2 (N.ltb_lt _ _)) by lia.
Qed.

Lemma le_bytes_from_le_N k bs : lenN bs = N.of_nat k → le_bytes k (from_le bs) = bs.
Proof. unfold lenN. intros Hk. replace k with (length bs) by lia. apply le_bytes_from_le. Qed.

Lemma frame_at_ok_inv d body :
  frame_at d = FrameOk body →
  lenN body ≤ MAX_RECORD_BODY_LEN ∧ d = wire_frame body ++ dropN (8 + lenN body) d.
Proof.
  unfold frame_at. destruct (N.ltb_spec (lenN d) 4) as [?|H4]; [done|].
  destruct (N.ltb_spec MAX_RECORD_BODY_LEN (from_le (takeN 4 d))) as [?|Hn]; [done|].
  destruct (N.ltb_spec (lenN d) (8 + from_le (takeN 4 d))) as [?|H8]; [done|].
  set (n := from_le (takeN 4 d)) in *.
  destruct (N.eqb_spec (crc32c (takeN n (dropN 8 d))) (from_le (takeN 4 (dropN 4 d)))) as [Hcrc|?];
    [|done].
  intros [= <-].
  assert (Hlen : lenN (takeN n (dropN 8 d)) = n) by (rewrite lenN_takeN, lenN_dropN; lia).
  rewrite Hlen. split; [done|].
  unfold wire_frame. rewrite Hlen, <-crc32c_reference, Hcrc. unfold n at 1.
  rewrite !le_bytes_from_le_N by (rewrite lenN_takeN, ?lenN_dropN; lia).
  rewrite <-!app_assoc. rewrite <-(takeN_dropN 4 d) at 1. f_equal.
  rewrite <-(takeN_dropN 4 (dropN 4 d)) at 1. f_equal. rewrite dropN_dropN.
  change (4 + 4) with 8. rewrite <-(takeN_dropN n (dropN 8 d)) at 1. by rewrite dropN_dropN.
Qed.

(** *** The frames of a segment *)

(** The bytes of a sequence of complete frames. *)
Definition frames_bytes (bodies : list (list byte)) : list byte := concat (wire_frame <$> bodies).

(** [d] is the frames of [bodies] and then bytes that do not start a frame. *)
Definition frames_parse (d : list byte) (bodies : list (list byte)) (rest : list byte) : Prop :=
  d = frames_bytes bodies ++ rest ∧
  Forall (λ body, lenN body ≤ MAX_RECORD_BODY_LEN) bodies ∧
  ∀ body, frame_at rest ≠ FrameOk body.

Fixpoint split_frames_fuel (fuel : nat) (d : list byte) : list (list byte) * list byte :=
  match fuel with
  | O => ([], d)
  | S fuel =>
      match frame_at d with
      | FrameOk body =>
          let '(bodies, rest) := split_frames_fuel fuel (dropN (8 + lenN body) d) in
          (body :: bodies, rest)
      | _ => ([], d)
      end
  end.

(** The complete frames at the head of some bytes, and what is left. *)
Definition split_frames (d : list byte) : list (list byte) * list byte :=
  split_frames_fuel (length d) d.

Lemma frames_bytes_cons body bodies :
  frames_bytes (body :: bodies) = wire_frame body ++ frames_bytes bodies.
Proof. done. Qed.

Lemma frames_bytes_app b1 b2 : frames_bytes (b1 ++ b2) = frames_bytes b1 ++ frames_bytes b2.
Proof. unfold frames_bytes. by rewrite fmap_app, concat_app. Qed.

Lemma frames_bytes_length bodies : 8 * lenN bodies ≤ lenN (frames_bytes bodies).
Proof.
  induction bodies as [|b bodies IH]; [done|].
  rewrite frames_bytes_cons, lenN_app, wire_frame_length, lenN_cons. lia.
Qed.

Lemma frame_at_nil : frame_at [] = FrameShort.
Proof. done. Qed.

Lemma split_frames_fuel_parse fuel d :
  (length d ≤ fuel)%nat → frames_parse d (split_frames_fuel fuel d).1 (split_frames_fuel fuel d).2.
Proof.
  revert d. induction fuel as [|fuel IH]; intros d Hd; cbn [split_frames_fuel].
  - destruct d; [|simpl in Hd; lia]. split; [done|]. split; [constructor|done].
  - destruct (frame_at d) as [| | |body] eqn:E;
      try (split; [done|]; split; [constructor|]; cbn [snd]; congruence).
    destruct (frame_at_ok_inv d body E) as [Hb Heq].
    destruct (IH (dropN (8 + lenN body) d)) as (Hd' & Hbs & Hr).
    { apply (f_equal lenN) in Heq. rewrite lenN_app, wire_frame_length in Heq.
      unfold lenN in *. lia. }
    destruct (split_frames_fuel fuel _) as [bodies rest]. cbn [fst snd] in *.
    split; [|split; [by constructor|done]].
    rewrite frames_bytes_cons, <-app_assoc, <-Hd'. exact Heq.
Qed.

Lemma split_frames_parse d : frames_parse d (split_frames d).1 (split_frames d).2.
Proof. by apply split_frames_fuel_parse. Qed.

(** The parse is unique. *)
Lemma frames_parse_unique d bs1 r1 bs2 r2 :
  frames_parse d bs1 r1 → frames_parse d bs2 r2 → bs1 = bs2 ∧ r1 = r2.
Proof.
  revert d bs2. induction bs1 as [|b1 bs1 IH]; intros d bs2 (-> & Hb1 & Hr1) (Heq & Hb2 & Hr2).
  - destruct bs2 as [|b2 bs2]; [by rewrite !app_nil_l in Heq|]. exfalso.
    apply (Hr1 b2). change (frames_bytes []) with (@nil byte) in Heq. rewrite app_nil_l in Heq.
    rewrite Heq, frames_bytes_cons, <-app_assoc. apply frame_at_wire, (Forall_inv Hb2).
  - destruct bs2 as [|b2 bs2].
    + exfalso. apply (Hr2 b1). change (frames_bytes []) with (@nil byte) in Heq.
      rewrite app_nil_l in Heq. rewrite <-Heq, frames_bytes_cons, <-app_assoc.
      apply frame_at_wire, (Forall_inv Hb1).
    + rewrite !frames_bytes_cons, <-!app_assoc in Heq.
      assert (Hbb : b1 = b2).
      { apply (f_equal frame_at) in Heq. rewrite !frame_at_wire in Heq
          by (apply (Forall_inv Hb1) || apply (Forall_inv Hb2)). by injection Heq. }
      subst b2. apply app_inv_head in Heq.
      destruct (IH (frames_bytes bs1 ++ r1) bs2) as [-> ->]; [..|done].
      * split; [done|]. split; [by inversion Hb1|done].
      * split; [done|]. split; [by inversion Hb2|done].
Qed.

(** Complete frames followed by a torn frame, or by nothing. *)
Lemma frames_parse_torn bodies body t lost :
  Forall (λ body, lenN body ≤ MAX_RECORD_BODY_LEN) bodies →
  lenN body ≤ MAX_RECORD_BODY_LEN → wire_frame body = t ++ lost → lost ≠ [] →
  frames_parse (frames_bytes bodies ++ t) bodies t.
Proof.
  intros Hbs Hb Ht Hl. split; [done|]. split; [done|]. intros b. by rewrite (frame_at_torn body t lost).
Qed.

Lemma frames_parse_clean bodies :
  Forall (λ body, lenN body ≤ MAX_RECORD_BODY_LEN) bodies →
  frames_parse (frames_bytes bodies) bodies [].
Proof. intros Hbs. split; [by rewrite app_nil_r|]. by split. Qed.
