(* ===== verification/FrameTheorems.v ===== *)
(** * Properties of the record frames *)
From Stdlib Require Import Strings.Byte.
From S2P Require Import Prelude Metrics Fs Noraft State Crc32c Codec Format Frame CodecCorrect.

(** ** Lemmas *)

Lemma frame_at_damaged body crc rest :
  lenN body ≤ MAX_RECORD_BODY_LEN → crc < U32_LIMIT → crc32c body ≠ crc →
  frame_at (le_bytes 4 (lenN body) ++ le_bytes 4 crc ++ body ++ rest) = FrameCorrupt.
Proof.
  intros Hb Hc Hne. assert (MAX_RECORD_BODY_LEN < U32_LIMIT) by done. unfold frame_at.
  rewrite !lenN_app, !lenN_le_bytes, takeN_app_lenN by by rewrite lenN_le_bytes.
  rewrite from_le_le_bytes by (change (256 ^ N.of_nat 4) with U32_LIMIT; lia).
  change (N.of_nat 4) with 4.
  rewrite (proj2 (N.ltb_ge _ 4)), (proj2 (N.ltb_ge _ (lenN body))), (proj2 (N.ltb_ge _ (8 + _))) by lia.
  rewrite (dropN_app_lenN 4) by by rewrite lenN_le_bytes.
  rewrite (takeN_app_lenN 4) by by rewrite lenN_le_bytes.
  rewrite (app_assoc (le_bytes 4 (lenN body))), (dropN_app_lenN 8) by by rewrite lenN_app, !lenN_le_bytes.
  rewrite takeN_app_exact, from_le_le_bytes by done. by rewrite (proj2 (N.eqb_neq _ _)).
Qed.

Lemma read_corrupt count io :
  no_faults (io_fs io) → frame_at (io_rest io) = FrameCorrupt →
  (read_record_body count io).1 = Err (invalid_data "segment record checksum mismatch") ∧
  io_metrics (read_record_body count io).2 =
    (if count then checksum_failed (io_metrics io) else io_metrics io) ∧
  io_fs (read_record_body count io).2 = io_fs io.
Proof.
  intros Hnf Hc. rewrite read_record_body_run by done. unfold frame_state. rewrite Hc.
  split; [done|]. by destruct count.
Qed.

Section properties.

(** [C25] The two frame readers agree on every file at every position: the
    scanner that recovery uses, which checks a frame in chunks of a fixed
    buffer, accepts, rejects and stops short exactly where the reader that
    loads the body does, with the same errors, the same counters and the same
    file position, and its loop has enough fuel. *)
Theorem frame_readers_agree (io : Io) :
  no_faults (io_fs io) →
  let '(r, io1) := read_record_body true io in
  let '(r', io2) := scan_record_frame io in
  io1 = io2 ∧ io_fs io1 = io_fs io ∧
  match r with
  | Ok (Some body) => r' = Ok (Some ()) ∧ lenN body ≤ MAX_RECORD_BODY_LEN
  | Ok None => r' = Ok None
  | Err e => r' = Err e ∧ error_kind e = InvalidData
  end.
Proof.
  intros Hnf. rewrite read_record_body_run, scan_record_frame_run by done.
  split; [done|]. split; [by unfold frame_state; destruct (frame_at _)|].
  destruct (frame_at (io_rest io)) as [| | |body] eqn:E; cbn [frame_result]; try done.
  split; [done|]. by apply frame_at_ok_inv in E as [? _].
Qed.

(** What the writer encodes, the reader returns: if the bytes left of a
    file start with the frame of a record, reading gives a body that decodes to
    that record and node ID, moves past exactly the frame, and changes nothing
    else. *)
Theorem frame_roundtrip `{NL : NoraftLaws} (io : Io) (n : N) (r : SegmentRecord) (frame rest : list byte) :
  no_faults (io_fs io) → u64 n → record_fit r → record_u64 r →
  encode_record_frame n r = Ok frame → io_rest io = frame ++ rest →
  ∃ body, read_record_body true io =
            (Ok (Some body), set_io_file (seek_to (file_pos (io_file io) + lenN frame) (io_file io)) io) ∧
          decode_node_record body = Ok (mkNodeRecord n r).
Proof.
  intros Hnf Hn Hf Hu Henc Hrest. pose proof (encode_record_frame_spec n r) as Hs. rewrite Henc in Hs.
  destruct Hs as [He ->]. exists (wire_body n r). split; [|by apply decode_node_record_wire].
  rewrite read_record_body_run by done. unfold frame_state. rewrite Hrest, frame_at_wire by apply He.
  rewrite frame_consumed_wire by apply He. done.
Qed.

(** [C26] Damage is detected: if up to four consecutive bytes of a stored body
    changed, or the stored checksum did, reading the frame is an [InvalidData]
    error, the failure is counted, and the file is not touched. *)
Theorem damaged_frame_rejected (io : Io) (count : bool) (p v w q rest : list byte) (crc : N) :
  no_faults (io_fs io) → lenN (p ++ v ++ q) ≤ MAX_RECORD_BODY_LEN →
  length v = length w → (length v ≤ 4)%nat → crc < U32_LIMIT →
  (crc = crc32c (p ++ w ++ q) ∧ v ≠ w ∨ crc ≠ crc32c (p ++ v ++ q)) →
  io_rest io = le_bytes 4 (lenN (p ++ v ++ q)) ++ le_bytes 4 crc ++ (p ++ v ++ q) ++ rest →
  (read_record_body count io).1 = Err (invalid_data "segment record checksum mismatch") ∧
  io_metrics (read_record_body count io).2 =
    (if count then checksum_failed (io_metrics io) else io_metrics io) ∧
  io_fs (read_record_body count io).2 = io_fs io.
Proof.
  intros Hnf Hlen Hvw H4 Hcrc Hdamage Hrest. apply read_corrupt; [done|]. rewrite Hrest.
  apply frame_at_damaged; [done|done|].
  destruct Hdamage as [[-> Hne]|Hne]; [by apply crc32c_burst|congruence].
Qed.
End properties.

(** ** Witnesses *)

Module Example_file.
(** A handle at the start of a file with the given contents. *)
Definition io (data : list byte) : Io :=
  mkIo (mkFs RootDir true true ∅ [] {[ 5 := mkInode data [] ]} 6 ∅ []) metrics_default
       (mkFile 5 0 false false).
End Example_file.

Lemma frame_readers_agree_witness :
  let io := Example_file.io (wire_frame [Byte.x01] ++ [Byte.x02]) in
  let '(r, io1) := read_record_body true io in
  let '(r', io2) := scan_record_frame io in
  io1 = io2 ∧ r = Ok (Some [Byte.x01]) ∧ r' = Ok (Some ()).
Proof.
  cbv zeta. pose proof (frame_readers_agree (Example_file.io (wire_frame [Byte.x01] ++ [Byte.x02])) eq_refl) as H.
  assert (Hr : (read_record_body true (Example_file.io (wire_frame [Byte.x01] ++ [Byte.x02]))).1
               = Ok (Some [Byte.x01])) by (vm_compute; reflexivity).
  destruct (read_record_body true _) as [r io1]. destruct (scan_record_frame _) as [r' io2].
  cbn [fst] in Hr. rewrite Hr in H |- *. destruct H as (H1 & _ & H2 & _).
  split; [exact H1|]. split; [reflexivity|exact H2].
Defined.

Lemma frame_roundtrip_witness :
  ∃ frame body,
    @encode_record_frame ListLog.instance 3 Example_record.record = Ok frame ∧
    (read_record_body true (Example_file.io (frame ++ [Byte.x00]))).1 = Ok (Some body) ∧
    @decode_node_record ListLog.instance body = Ok (mkNodeRecord 3 Example_record.record).
Proof.
  destruct (@encode_record_frame ListLog.instance 3 Example_record.record) as [frame|e] eqn:E.
  2:{ exfalso. pose proof (f_equal is_ok E) as Hk. vm_compute in Hk. discriminate. }
  destruct (@frame_roundtrip ListLog.instance ListLog.laws (Example_file.io (frame ++ [Byte.x00]))
    3 Example_record.record frame [Byte.x00]) as (body & Hr & Hd).
  - reflexivity.
  - reflexivity.
  - exact Example_record.record_is_fit.
  - exact Example_record.record_is_u64.
  - exact E.
  - reflexivity.
  - exists frame, body. rewrite Hr. split; [reflexivity|]. split; [reflexivity|exact Hd].
Defined.

Lemma damaged_frame_rejected_witness :
  let stored := le_bytes 4 3 ++ le_bytes 4 (crc32c [Byte.x01; Byte.x02; Byte.x03]) ++
                [Byte.x01; Byte.x07; Byte.x03] in
  (read_record_body true (Example_file.io stored)).1 =
    Err (invalid_data "segment record checksum mismatch").
Proof.
  apply (damaged_frame_rejected (Example_file.io _) true [Byte.x01] [Byte.x07] [Byte.x02] [Byte.x03] []
           (crc32c [Byte.x01; Byte.x02; Byte.x03])).
  - reflexivity.
  - vm_compute. discriminate.
  - reflexivity.
  - simpl. lia.
  - apply crc32c_bound.
  - left. split; [reflexivity|discriminate].
  - reflexivity.
Defined.
