(* ===== verification/Text.v ===== *)
(** * Text: decimal [u64]s and UTF-8, as the standard library reads and prints them *)
From Stdlib Require Import Ascii Strings.String.
From S2P Require Import Prelude.

#[local] Open Scope list_scope.

(** ** Definitions *)

Definition char_code (c : ascii) : N := N_of_ascii c.
Definition is_ascii_digit (c : ascii) : bool := (48 <=? char_code c) && (char_code c <=? 57).
Definition digit_value (c : ascii) : N := char_code c - 48.
Definition digit_char (d : N) : ascii := ascii_of_N (48 + d).

Definition u64_checked_mul (a b : N) : option N :=
  if a * b <? U64_LIMIT then Some (a * b) else None.

(** The digits of [str::parse::<u64>], with its overflow checks. *)
Fixpoint parse_digits (acc : N) (cs : list ascii) : option N :=
  match cs with
  | [] => Some acc
  | c :: cs =>
      if is_ascii_digit c then
        acc ← u64_checked_mul acc 10;
        acc ← u64_checked_add acc (digit_value c);
        parse_digits acc cs
      else None
  end.

(** [s.parse::<u64>().ok()]: one leading [+] is accepted. *)
Definition parse_u64 (s : string) : option N :=
  match String.list_ascii_of_string s with
  | [] => None
  | c :: cs =>
      if bool_decide (c = "+"%char) then
        match cs with [] => None | _ => parse_digits 0 cs end
      else parse_digits 0 (c :: cs)
  end.

(** [Display] of a [u64]: at most twenty digits. *)
Fixpoint decimal_go (fuel : nat) (n : N) (acc : list ascii) : list ascii :=
  match fuel with
  | O => acc
  | S fuel =>
      let acc := digit_char (n mod 10) :: acc in
      if n <? 10 then acc else decimal_go fuel (n / 10) acc
  end.

Definition u64_to_string (n : N) : string := String.string_of_list_ascii (decimal_go 20 n []).

(** [strip_prefix] and [strip_suffix]. *)
Fixpoint strip_prefix_list (p l : list ascii) : option (list ascii) :=
  match p, l with
  | [], _ => Some l
  | a :: p, b :: l => if bool_decide (a = b) then strip_prefix_list p l else None
  | _ :: _, [] => None
  end.

Definition strip_prefix (p s : string) : option string :=
  String.string_of_list_ascii <$> strip_prefix_list (String.list_ascii_of_string p) (String.list_ascii_of_string s).

Definition strip_suffix (p s : string) : option string :=
  (λ l, String.string_of_list_ascii (rev l)) <$>
    strip_prefix_list (rev (String.list_ascii_of_string p)) (rev (String.list_ascii_of_string s)).

(** [str::from_utf8(..).is_ok()]. *)
Definition in_range (lo hi : N) (b : byte) : bool := (lo <=? byte_to_N b) && (byte_to_N b <=? hi).
Definition utf8_cont (b : byte) : bool := in_range 0x80 0xBF b.

Fixpoint utf8_valid (bs : list byte) : bool :=
  match bs with
  | [] => true
  | b0 :: rest =>
      if in_range 0 0x7F b0 then utf8_valid rest
      else
        match rest with
        | b1 :: rest =>
            if in_range 0xC2 0xDF b0 then utf8_cont b1 && utf8_valid rest
            else
              match rest with
              | b2 :: rest =>
                  if in_range 0xE0 0xEF b0 then
                    (if byte_to_N b0 =? 0xE0 then in_range 0xA0 0xBF b1
                     else if byte_to_N b0 =? 0xED then in_range 0x80 0x9F b1
                     else utf8_cont b1) && utf8_cont b2 && utf8_valid rest
                  else
                    match rest with
                    | b3 :: rest =>
                        if in_range 0xF0 0xF4 b0 then
                          (if byte_to_N b0 =? 0xF0 then in_range 0x90 0xBF b1
                           else if byte_to_N b0 =? 0xF4 then in_range 0x80 0x8F b1
                           else utf8_cont b1) && utf8_cont b2 && utf8_cont b3 && utf8_valid rest
                        else false
                    | [] => false
                    end
              | [] => false
              end
        | [] => false
        end
  end.

Definition bytes_of_string (s : string) : list byte := byte_of_N ∘ char_code <$> String.list_ascii_of_string s.

(** ** Lemmas *)

Fixpoint digits_value (acc : N) (cs : list ascii) : N :=
  match cs with
  | [] => acc
  | c :: cs => digits_value (acc * 10 + digit_value c) cs
  end.

Lemma digits_value_app acc l1 l2 :
  digits_value acc (l1 ++ l2) = digits_value (digits_value acc l1) l2.
Proof. revert acc. induction l1 as [|c l1 IH]; intros acc; [done|]. apply IH. Qed.

Lemma digits_value_acc acc cs : digits_value acc cs = acc * 10 ^ lenN cs + digits_value 0 cs.
Proof.
  revert acc. induction cs as [|c cs IH]; intros acc; cbn [digits_value].
  - rewrite lenN_nil. lia.
  - rewrite IH, (IH (0 * 10 + _)), lenN_cons, N.add_1_l, N.pow_succ_r'. lia.
Qed.

Lemma digits_value_ge acc cs : acc ≤ digits_value acc cs.
Proof.
  revert acc. induction cs as [|c cs IH]; intros acc; cbn [digits_value]; [lia|].
  specialize (IH (acc * 10 + digit_value c)). lia.
Qed.

(** The checks of [parse_digits] amount to a check of the result. *)
Lemma parse_digits_spec acc cs :
  acc < U64_LIMIT →
  parse_digits acc cs =
  if bool_decide (Forall (λ c, is_ascii_digit c = true) cs) && (digits_value acc cs <? U64_LIMIT)
  then Some (digits_value acc cs) else None.
Proof.
  revert acc. induction cs as [|c cs IH]; intros acc Hacc; cbn [parse_digits digits_value].
  - rewrite bool_decide_eq_true_2 by constructor. by rewrite (proj2 (N.ltb_lt _ _)).
  - destruct (is_ascii_digit c) eqn:Hc.
    2:{ rewrite bool_decide_eq_false_2; [done|]. inversion 1; congruence. }
    pose proof (digits_value_ge (acc * 10 + digit_value c) cs) as Hge.
    unfold u64_checked_mul, u64_checked_add.
    destruct (N.ltb_spec (acc * 10) U64_LIMIT).
    2:{ rewrite (proj2 (N.ltb_ge (digits_value _ _) _)) by lia. by rewrite andb_false_r. }
    cbn [mbind option_bind]. destruct (N.ltb_spec (acc * 10 + digit_value c) U64_LIMIT).
    2:{ rewrite (proj2 (N.ltb_ge (digits_value _ _) _)) by lia. by rewrite andb_false_r. }
    cbn [mbind option_bind]. rewrite IH by done.
    erewrite bool_decide_ext; [done|]. rewrite list.Forall_cons. tauto.
Qed.

Lemma digit_char_code d : d < 10 → char_code (digit_char d) = 48 + d.
Proof. intros H. unfold char_code, digit_char. apply N_ascii_embedding. lia. Qed.

Lemma digit_char_digit d : d < 10 → is_ascii_digit (digit_char d) = true ∧ digit_value (digit_char d) = d.
Proof.
  intros H. unfold is_ascii_digit, digit_value. rewrite digit_char_code by done.
  rewrite andb_true_iff, !N.leb_le. lia.
Qed.

Lemma digit_char_value c : is_ascii_digit c = true → digit_value c < 10 ∧ digit_char (digit_value c) = c.
Proof.
  unfold is_ascii_digit, digit_value, digit_char. rewrite andb_true_iff, !N.leb_le. intros [H1 H2].
  split; [lia|]. replace (48 + (char_code c - 48)) with (char_code c) by lia. apply ascii_N_embedding.
Qed.

Lemma decimal_go_acc fuel n acc : decimal_go fuel n acc = decimal_go fuel n [] ++ acc.
Proof.
  revert n acc. induction fuel as [|fuel IH]; intros n acc; [done|]. cbn [decimal_go].
  destruct (n <? 10); [done|]. rewrite IH, (IH _ [_]), <-app_assoc. done.
Qed.

Lemma decimal_go_step fuel n :
  10 ≤ n → decimal_go (S fuel) n [] = decimal_go fuel (n / 10) [] ++ [digit_char (n mod 10)].
Proof.
  intros H. cbn [decimal_go]. rewrite (proj2 (N.ltb_ge _ _)) by done. apply decimal_go_acc.
Qed.

Lemma decimal_go_small fuel n : n < 10 → decimal_go (S fuel) n [] = [digit_char n].
Proof.
  intros H. cbn [decimal_go]. rewrite (proj2 (N.ltb_lt _ _)) by done. by rewrite N.mod_small.
Qed.

Lemma decimal_go_digits fuel n :
  n < 10 ^ N.of_nat fuel →
  digits_value 0 (decimal_go fuel n []) = n ∧
  Forall (λ c, is_ascii_digit c = true) (decimal_go fuel n []).
Proof.
  revert n. induction fuel as [|fuel IH]; intros n Hn.
  { change (10 ^ N.of_nat 0) with 1 in Hn. cbn. split; [lia|constructor]. }
  destruct (N.lt_ge_cases n 10) as [Hs|Hs].
  - rewrite decimal_go_small by done. destruct (digit_char_digit n Hs) as [Hd Hv].
    split; [cbn [digits_value]; lia|]. by repeat constructor.
  - rewrite decimal_go_step by done.
    assert (Hm : n mod 10 < 10) by (apply N.mod_lt; done).
    destruct (digit_char_digit _ Hm) as [Hd Hv].
    destruct (IH (n / 10)) as [Hv' Hd'].
    { apply N.Div0.div_lt_upper_bound. by rewrite Nat2N.inj_succ, N.pow_succ_r' in Hn. }
    rewrite digits_value_app, Hv'. cbn [digits_value]. rewrite Hv. split.
    + pose proof (N.div_mod' n 10). lia.
    + apply Forall_app. split; [done|]. by repeat constructor.
Qed.

(** A digit string without a superfluous leading zero. *)
Definition canonical_digits (cs : list ascii) : Prop :=
  cs ≠ [] ∧ Forall (λ c, is_ascii_digit c = true) cs ∧
  (∀ c rest, cs = c :: rest → rest ≠ [] → c ≠ "0"%char).

Lemma nonzero_digit_value c :
  is_ascii_digit c = true → c ≠ "0"%char → 1 ≤ digit_value c.
Proof.
  intros Hc Hz. destruct (digit_char_value c Hc) as [_ Hcc].
  destruct (N.eq_dec (digit_value c) 0) as [E|]; [|lia]. rewrite E in Hcc. by destruct Hz.
Qed.

Lemma canonical_value_lower c cs :
  is_ascii_digit c = true → c ≠ "0"%char → 10 ^ lenN cs ≤ digits_value 0 (c :: cs).
Proof.
  intros Hc Hz. pose proof (nonzero_digit_value c Hc Hz). cbn [digits_value].
  rewrite digits_value_acc. nia.
Qed.

(** Printing the value of a canonical digit string gives it back. *)
Lemma decimal_go_canonical fuel cs :
  canonical_digits cs → (length cs ≤ fuel)%nat → decimal_go fuel (digits_value 0 cs) [] = cs.
Proof.
  revert fuel. induction cs as [|d cs IH] using rev_ind; intros fuel (Hne & Hd & Hz) Hlen; [done|].
  rewrite length_app in Hlen. simpl in Hlen. destruct fuel as [|fuel]; [lia|].
  apply Forall_app in Hd as [Hcs Hd]. apply Forall_inv in Hd.
  destruct (digit_char_value d Hd) as [Hd10 Hdc].
  rewrite digits_value_app. cbn [digits_value].
  destruct cs as [|c cs].
  - cbn [digits_value]. by rewrite decimal_go_small, N.mul_0_l, N.add_0_l, Hdc.
  - assert (Hc : c ≠ "0"%char) by (apply (Hz c (cs ++ [d])); [done|by destruct cs]).
    pose proof (canonical_value_lower c cs (Forall_inv Hcs) Hc) as Hlow.
    set (v := digits_value 0 (c :: cs)) in *.
    assert (Hpow : 1 ≤ 10 ^ lenN cs) by (pose proof (N.pow_nonzero 10 (lenN cs)); lia).
    rewrite decimal_go_step by lia.
    replace ((v * 10 + digit_value d) / 10) with v
      by (rewrite N.add_comm, N.div_add, N.div_small; lia).
    replace ((v * 10 + digit_value d) mod 10) with (digit_value d)
      by (rewrite N.add_comm, N.Div0.mod_add, N.mod_small; lia).
    rewrite Hdc. f_equal. apply IH; [|cbn [length] in *; lia].
    split; [done|]. split; [done|]. by intros ? ? [= <- <-] _.
Qed.

Lemma canonical_digits_length cs :
  canonical_digits cs → digits_value 0 cs < U64_LIMIT → (length cs ≤ 20)%nat.
Proof.
  intros (Hne & Hd & Hz) Hv. destruct cs as [|c cs]; [done|].
  destruct cs as [|c' cs]; [simpl; lia|].
  assert (Hc : c ≠ "0"%char) by by apply (Hz c (c' :: cs)).
  pose proof (canonical_value_lower c (c' :: cs) (Forall_inv Hd) Hc) as Hlow.
  assert (H20 : 10 ^ lenN (c' :: cs) < 10 ^ 20).
  { apply N.le_lt_trans with (digits_value 0 (c :: c' :: cs)); [done|].
    apply N.lt_trans with U64_LIMIT; [done|]. reflexivity. }
  apply N.pow_lt_mono_r_iff in H20; [|done]. unfold lenN in H20. simpl length in *. lia.
Qed.

Lemma decimal_go_first fuel n c cs :
  n < 10 ^ N.of_nat fuel → decimal_go fuel n [] = c :: cs → cs ≠ [] → c ≠ "0"%char.
Proof.
  revert n c cs. induction fuel as [|fuel IH]; intros n c cs Hn Heq Hcs; [done|].
  destruct (N.lt_ge_cases n 10) as [Hs|Hs].
  { rewrite decimal_go_small in Heq by done. by injection Heq as <- <-. }
  rewrite decimal_go_step in Heq by done.
  assert (Hn' : n / 10 < 10 ^ N.of_nat fuel).
  { apply N.Div0.div_lt_upper_bound. by rewrite Nat2N.inj_succ, N.pow_succ_r' in Hn. }
  destruct (decimal_go fuel (n / 10) []) as [|c1 cs1] eqn:E.
  { pose proof (decimal_go_digits fuel (n / 10) Hn') as [Hv _]. rewrite E in Hv. cbn in Hv.
    pose proof (N.div_le_lower_bound n 10 1). lia. }
  injection Heq as <- <-. destruct cs1 as [|c2 cs1].
  - (* a single digit, not zero *)
    pose proof (decimal_go_digits fuel (n / 10) Hn') as [Hv _]. rewrite E in Hv.
    cbn [digits_value] in Hv. intros ->. pose proof (N.div_le_lower_bound n 10 1).
    change (digit_value "0") with 0 in Hv. lia.
  - by apply (IH (n / 10) c1 (c2 :: cs1)).
Qed.

Lemma u64_digits_canonical n : n < U64_LIMIT → canonical_digits (decimal_go 20 n []).
Proof.
  intros Hn. assert (Hn20 : n < 10 ^ N.of_nat 20) by (apply N.lt_trans with U64_LIMIT; [done|reflexivity]).
  split; [|split].
  - destruct (N.lt_ge_cases n 10); [by rewrite decimal_go_small|].
    rewrite decimal_go_step by done. by destruct (decimal_go 19 _ _).
  - by apply decimal_go_digits.
  - intros c rest. by apply decimal_go_first.
Qed.

Lemma is_ascii_digit_plus c : is_ascii_digit c = true → c ≠ "+"%char.
Proof. intros H ->. discriminate. Qed.

(** Parsing what is printed. *)
Lemma parse_u64_to_string n : n < U64_LIMIT → parse_u64 (u64_to_string n) = Some n.
Proof.
  intros Hn. unfold parse_u64, u64_to_string. rewrite String.list_ascii_of_string_of_list_ascii.
  destruct (u64_digits_canonical n Hn) as (Hne & Hd & _).
  assert (Hn20 : n < 10 ^ N.of_nat 20) by (apply N.lt_trans with U64_LIMIT; [done|reflexivity]).
  destruct (decimal_go_digits 20 n Hn20) as [Hv _].
  destruct (decimal_go 20 n []) as [|c cs]; [done|].
  rewrite bool_decide_eq_false_2 by by apply is_ascii_digit_plus, (Forall_inv Hd).
  rewrite parse_digits_spec by done. rewrite bool_decide_eq_true_2, Hv by done.
  by rewrite (proj2 (N.ltb_lt _ _)).
Qed.

Lemma parse_u64_bound s n : parse_u64 s = Some n → n < U64_LIMIT.
Proof.
  assert (H : ∀ cs, parse_digits 0 cs = Some n → n < U64_LIMIT).
  { intros cs. rewrite parse_digits_spec by done. destruct (bool_decide _); [|done]. cbn [andb].
    destruct (N.ltb_spec (digits_value 0 cs) U64_LIMIT); [|done]. by intros [= <-]. }
  unfold parse_u64. destruct (String.list_ascii_of_string s) as [|c cs]; [done|].
  case_bool_decide; [destruct cs; [done|]|]; apply H.
Qed.

(** A canonical digit string is what its value prints as. *)
Lemma parse_u64_canonical s n :
  canonical_digits (String.list_ascii_of_string s) → parse_u64 s = Some n → u64_to_string n = s.
Proof.
  intros Hc Hp. pose proof (parse_u64_bound s n Hp) as Hn. destruct Hc as (Hne & Hd & Hz).
  unfold parse_u64 in Hp. rewrite <-(String.string_of_list_ascii_of_string s).
  unfold u64_to_string. f_equal.
  destruct (String.list_ascii_of_string s) as [|c cs] eqn:E; [done|].
  rewrite bool_decide_eq_false_2 in Hp by by apply is_ascii_digit_plus, (Forall_inv Hd).
  rewrite parse_digits_spec in Hp by done. rewrite bool_decide_eq_true_2 in Hp by done.
  cbn [andb] in Hp. destruct (N.ltb_spec (digits_value 0 (c :: cs)) U64_LIMIT); [|done].
  injection Hp as <-. apply (decimal_go_canonical 20 (c :: cs)); [done|].
  by apply canonical_digits_length.
Qed.

(** [strip_prefix] and [strip_suffix] undo concatenation. *)
Lemma strip_prefix_list_Some p l r : strip_prefix_list p l = Some r ↔ l = p ++ r.
Proof.
  revert l. induction p as [|a p IH]; intros l; cbn [strip_prefix_list].
  - split; [by intros [= ->]|by intros ->].
  - destruct l as [|b l]; [done|]. case_bool_decide as Hab.
    + subst. rewrite IH. split; [by intros ->|by intros [= ->]].
    + split; [done|]. by intros [= -> ->].
Qed.

Lemma list_ascii_of_string_inj s1 s2 :
  String.list_ascii_of_string s1 = String.list_ascii_of_string s2 → s1 = s2.
Proof.
  intros H. by rewrite <-(String.string_of_list_ascii_of_string s1), H,
    String.string_of_list_ascii_of_string.
Qed.

Lemma strip_prefix_Some p s r :
  strip_prefix p s = Some r ↔
  String.list_ascii_of_string s = String.list_ascii_of_string p ++ String.list_ascii_of_string r.
Proof.
  unfold strip_prefix. rewrite fmap_Some. setoid_rewrite strip_prefix_list_Some. split.
  - intros (l & -> & ->). by rewrite String.list_ascii_of_string_of_list_ascii.
  - intros ->. eexists. split; [done|]. by rewrite String.string_of_list_ascii_of_string.
Qed.

Lemma strip_suffix_Some p s r :
  strip_suffix p s = Some r ↔
  String.list_ascii_of_string s = String.list_ascii_of_string r ++ String.list_ascii_of_string p.
Proof.
  unfold strip_suffix. rewrite fmap_Some. setoid_rewrite strip_prefix_list_Some. split.
  - intros (l & Hl & ->). rewrite String.list_ascii_of_string_of_list_ascii.
    apply (f_equal (@rev _)) in Hl. by rewrite rev_involutive, rev_app_distr, rev_involutive in Hl.
  - intros ->. exists (rev (String.list_ascii_of_string r)). split; [by rewrite rev_app_distr|].
    by rewrite rev_involutive, String.string_of_list_ascii_of_string.
Qed.

Lemma list_ascii_append a b :
  String.list_ascii_of_string (String.append a b) =
  String.list_ascii_of_string a ++ String.list_ascii_of_string b.
Proof. induction a as [|c a IH]; [done|]. simpl. f_equal. exact IH. Qed.
