(* ===== verification/Segment.v ===== *)
(** * Append segments, [src/segment.rs]

    Segment names, discovery, the segment header and the [SegmentWriter].
    File names are byte strings: a name that is not UTF-8 is not a segment name
    either way, since every segment name is ASCII. *)
From Stdlib Require Import Strings.Byte Ascii Strings.String.
From S2P Require Import Prelude Metrics Fs Text Noraft State Crc32c Codec.

Definition SEGMENT_FORMAT_MAGIC : list byte := [Byte.x53; Byte.x4b; Byte.x52; Byte.x31].
Definition SEGMENT_FILE_HEADER_LEN : N := 4.
Definition SEGMENT_FILE_SUFFIX : string := ".segment".

(** ** Names *)

(** [SegmentId] and [SegmentName]. *)
Record SegmentName := mkSegmentName { segment_id : N }.

#[global] Instance SegmentName_eq_dec : EqDecision SegmentName.
Proof. solve_decision. Defined.

(** The derived [Ord]. *)
Definition name_lt (a b : SegmentName) : Prop := segment_id a < segment_id b.
Definition name_le (a b : SegmentName) : Prop := segment_id a ≤ segment_id b.
#[global] Instance name_lt_dec a b : Decision (name_lt a b).
Proof. unfold name_lt. apply _. Defined.
#[global] Instance name_le_dec a b : Decision (name_le a b).
Proof. unfold name_le. apply _. Defined.
Definition name_min (a b : SegmentName) : SegmentName := if decide (name_le a b) then a else b.
Definition name_max (a b : SegmentName) : SegmentName := if decide (name_le a b) then b else a.

(** [SegmentId::next]. *)
Definition segment_id_next (id : N) : result N :=
  match u64_checked_add id 1 with
  | Some id => Ok id
  | None => Err (invalid_data "segment ID overflow")
  end.

Definition first_append : SegmentName := mkSegmentName 0.

Definition next_append (name : SegmentName) : result SegmentName :=
  match segment_id_next (segment_id name) with
  | Ok id => Ok (mkSegmentName id)
  | Err e => Err e
  end.

(** [SegmentName::file_name]. *)
Definition file_name (name : SegmentName) : string :=
  String.append "append-" (String.append (u64_to_string (segment_id name)) SEGMENT_FILE_SUFFIX).

(** [SegmentName::parse_file_name] and [SegmentName::parse_str]. *)
Definition parse_file_name (s : string) : option SegmentName :=
  rest ← strip_prefix "append-" s;
  id ← strip_suffix SEGMENT_FILE_SUFFIX rest;
  let chars := String.list_ascii_of_string id in
  if bool_decide (chars = []) || negb (forallb is_ascii_digit chars) then None
  else if (1 <? lenN chars) && bool_decide (head chars = Some "0"%char) then None
  else id ← parse_u64 id; Some (mkSegmentName id).

(** [RecordPosition] with its derived lexicographic order. *)
Record RecordPosition := mkRecordPosition { position_segment : SegmentName; position_offset : N }.

#[global] Instance RecordPosition_eq_dec : EqDecision RecordPosition.
Proof. solve_decision. Defined.

Definition record_position_lt (a b : RecordPosition) : Prop :=
  name_lt (position_segment a) (position_segment b) ∨
  position_segment a = position_segment b ∧ position_offset a < position_offset b.
#[global] Instance record_position_lt_dec a b : Decision (record_position_lt a b).
Proof. unfold record_position_lt. apply _. Defined.

(** ** Discovery *)

(** [SegmentPath]: the path is the file name in the directory. *)
Record SegmentPath := mkSegmentPath { path_name : SegmentName; path_file : string }.

Definition path_le (a b : SegmentPath) : Prop := name_le (path_name a) (path_name b).
#[global] Instance path_le_dec a b : Decision (path_le a b).
Proof. unfold path_le. apply _. Defined.

(** The body of the loop of [discover_segment_paths]. *)
Definition segment_path_of (entry : string * DirEntry) : option SegmentPath :=
  match entry.2 with
  | EntryOther => None
  | EntryFile _ => (λ name, mkSegmentPath name entry.1) <$> parse_file_name entry.1
  end.

(** [discover_segment_paths]. *)
Definition discover_segment_paths : M World (list SegmentPath) :=
  entries ← try_catch (w_call fs_read_dir);
  match entries with
  | Err e => if bool_decide (error_kind e = NotFound) then mret [] else throw e
  | Ok entries =>
      for_each entries (λ _, w_call (call (mret ()))) ;;
      mret (merge_sort path_le (omap segment_path_of entries))
  end.

(** [select_active_append_segment]. *)
Definition select_active_append_segment : M World SegmentName :=
  segments ← discover_segment_paths;
  match path_name <$> segments with
  | [] => mret first_append
  | name :: names => mret (foldl name_max name names)
  end.

(** [segment_file_exists]. *)
Definition segment_file_exists (name : SegmentName) : M World bool :=
  r ← try_catch (w_call (fs_is_file (file_name name)));
  match r with
  | Ok b => mret b
  | Err e => if bool_decide (error_kind e = NotFound) then mret false else throw e
  end.

(** ** The segment header *)

(** [read_segment_header]; [count] tells whether counters are passed. *)
Definition read_segment_header (allow_partial recover_partial count : bool) : M Io bool :=
  file_seek 0 ;;
  len ← file_len;
  if len =? 0 then
    if allow_partial then mret false
    else throw (invalid_data "missing segment header")
  else if len <? SEGMENT_FILE_HEADER_LEN then
    if allow_partial && recover_partial then
      (if count then io_count replay_truncated else mret ()) ;;
      file_set_len 0 ;;
      file_seek 0 ;;
      mret false
    else if allow_partial then
      (if count then io_count replay_truncated else mret ()) ;;
      mret false
    else throw (invalid_data "partial segment header in inactive segment")
  else
    magic ← file_read_exact SEGMENT_FILE_HEADER_LEN;
    if negb (bool_decide (magic = SEGMENT_FORMAT_MAGIC))
    then throw (invalid_data "unsupported segment format")
    else mret true.

(** ** Files of segments *)

(** Works on an open file and keeps the handle. *)
Definition with_file_kept {A} (f : File) (m : M Io A) : M World (A * File) :=
  with_file f (a ← m; io ← get_state; mret (a, io_file io)).

Definition open_active_options : OpenOptions := mkOpenOptions false true false true false.
Definition create_active_options : OpenOptions := mkOpenOptions false true false false true.

(** [open_active_segment_file]. *)
Definition open_active_segment_file (name : string) : M World File :=
  file ← w_call (fs_open name open_active_options);
  r ← with_file_kept file
        (len ← file_len;
         if len =? 0 then file_write_all SEGMENT_FORMAT_MAGIC else mret ());
  mret r.2.

(** [create_active_segment_file]. *)
Definition create_active_segment_file (name : string) : M World File :=
  file ← w_call (fs_open name create_active_options);
  r ← with_file_kept file (file_write_all SEGMENT_FORMAT_MAGIC);
  mret r.2.

(** [sync_parent_dir] of a file of the directory. *)
Definition sync_parent_dir : M World () := w_call fs_sync_dir.

(** ** [SegmentWriter] *)

Record SegmentWriter := mkSegmentWriter {
  active_segment : SegmentName;
  writer_file : File;
  segment_len : N;
  max_segment_len : N;
}.

(** The writer with the files and counters it works on. *)
Record WriterState := mkWriterState { ws_world : World; ws_writer : SegmentWriter }.

Definition on_world {A} (m : M World A) : M WriterState A :=
  zoom ws_world (λ w ws, mkWriterState w (ws_writer ws)) m.
Definition set_writer (w : SegmentWriter) : M WriterState () :=
  modify (λ ws, mkWriterState (ws_world ws) w).
Definition get_writer : M WriterState SegmentWriter := ws ← get_state; mret (ws_writer ws).

(** Works on the file of the writer. *)
Definition on_writer_file {A} (m : M Io A) : M WriterState A :=
  w ← get_writer;
  r ← on_world (with_file_kept (writer_file w) m);
  set_writer (mkSegmentWriter (active_segment w) r.2 (segment_len w) (max_segment_len w)) ;;
  mret r.1.

(** [SegmentWriter::open]. *)
Definition segment_writer_open (active : SegmentName) (max_len : N) : M World SegmentWriter :=
  let path := file_name active in
  file_existed ← w_call (fs_exists path);
  file ← open_active_segment_file path;
  (if negb file_existed then sync_parent_dir else mret ()) ;;
  r ← with_file_kept file file_seek_end;
  w_count (segment_opened (segment_id active) r.1) ;;
  mret (mkSegmentWriter active r.2 r.1 max_len).

(** [SegmentWriter::sync_current_segment]. *)
Definition sync_current_segment : M WriterState () :=
  on_writer_file file_sync ;;
  on_world (w_count segment_synced).

(** [SegmentWriter::sync]. *)
Definition writer_sync : M WriterState () :=
  ws ← get_state;
  let m := w_metrics (ws_world ws) in
  if negb (unsynced_records m =? 0) || negb (unsynced_bytes m =? 0) then sync_current_segment
  else mret ().

(** [SegmentWriter::should_rotate]. *)
Definition should_rotate (w : SegmentWriter) (written_bytes : N) : bool :=
  if segment_len w <=? SEGMENT_FILE_HEADER_LEN then false
  else
    match u64_checked_add (segment_len w) written_bytes with
    | None => true
    | Some len => max_segment_len w <? len
    end.

(** [SegmentWriter::rotate]. *)
Definition writer_rotate : M WriterState () :=
  sync_current_segment ;;
  w ← get_writer;
  next_segment ← lift_result (next_append (active_segment w));
  file ← on_world (create_active_segment_file (file_name next_segment));
  on_world sync_parent_dir ;;
  set_writer (mkSegmentWriter next_segment file SEGMENT_FILE_HEADER_LEN (max_segment_len w)) ;;
  on_world (w_count (segment_rotated (segment_id next_segment) SEGMENT_FILE_HEADER_LEN)).

Section writer.
Context `{Noraft}.

(** [Record::metric_kind]. *)
Definition metric_kind (r : SegmentRecord) : RecordKindMetric :=
  match r with
  | RecordCurrentTerm _ => KindCurrentTerm
  | RecordVotedFor _ => KindVotedFor
  | RecordAppend _ => KindLogAppend
  | RecordSnapshotCheckpoint _ => KindSnapshotCheckpoint
  end.

(** [SegmentWriter::append]. *)
Definition writer_append (node_id : N) (record : SegmentRecord) : M WriterState RecordPosition :=
  frame ← lift_result (encode_record_frame node_id record);
  match u64_try_from (lenN frame) with
  | None => throw (invalid_input "record is too large")
  | Some written_bytes =>
      w ← get_writer;
      (if should_rotate w written_bytes then writer_rotate else mret ()) ;;
      w ← get_writer;
      let record_position := mkRecordPosition (active_segment w) (segment_len w) in
      on_writer_file (file_write_all frame) ;;
      match u64_checked_add (segment_len w) written_bytes with
      | None => throw (invalid_data "segment length overflow")
      | Some len =>
          w ← get_writer;
          set_writer (mkSegmentWriter (active_segment w) (writer_file w) len (max_segment_len w)) ;;
          on_world (w_count (record_written (metric_kind record) written_bytes)) ;;
          on_world (w_count (segment_written len)) ;;
          mret record_position
      end
  end.
End writer.

(** ** Lemmas *)

(** *** Names *)

Lemma forallb_digits cs :
  forallb is_ascii_digit cs = true ↔ Forall (λ c, is_ascii_digit c = true) cs.
Proof. by rewrite forallb_forall, Forall_forall. Qed.

(** The tests of [parse_file_name] accept exactly the canonical digit strings. *)
Lemma canonical_digits_tests cs :
  canonical_digits cs ↔
  bool_decide (cs = []) || negb (forallb is_ascii_digit cs) = false ∧
  (1 <? lenN cs) && bool_decide (head cs = Some "0"%char) = false.
Proof.
  unfold canonical_digits. rewrite <-forallb_digits, orb_false_iff, negb_false_iff,
    bool_decide_eq_false, andb_false_iff, bool_decide_eq_false, N.ltb_ge.
  destruct cs as [|c cs]; [naive_solver|]. cbn [head]. rewrite lenN_cons. split.
  - intros (Hne & Hd & Hz). split; [done|]. destruct cs as [|c' cs]; [left; by rewrite lenN_nil|].
    right. intros [= ->]. by apply (Hz "0"%char (c' :: cs)).
  - intros [[Hne Hd] Hz]. split; [done|]. split; [done|]. intros ? ? [= <- <-] Hcs ->.
    destruct Hz as [Hz|Hz]; [|done]. destruct cs; [done|]. rewrite lenN_cons in Hz. lia.
Qed.

Lemma parse_file_name_Some s n :
  parse_file_name s = Some n ↔
  ∃ id, s = String.append "append-" (String.append id SEGMENT_FILE_SUFFIX) ∧
        canonical_digits (String.list_ascii_of_string id) ∧ parse_u64 id = Some (segment_id n).
Proof.
  unfold parse_file_name. split.
  - intros H. apply bind_Some in H as (rest & Hrest & H). apply bind_Some in H as (id & Hid & H).
    apply strip_prefix_Some in Hrest. apply strip_suffix_Some in Hid.
    destruct (bool_decide _ || negb _) eqn:E1; [done|].
    destruct (_ && bool_decide (head _ = _)) eqn:E2; [done|].
    apply bind_Some in H as (v & Hv & H). injection H as <-.
    exists id. split; [|split; [by apply canonical_digits_tests|done]].
    apply list_ascii_of_string_inj. by rewrite !list_ascii_append, Hrest, Hid.
  - intros (id & -> & Hc & Hp).
    rewrite (proj2 (strip_prefix_Some _ _ (String.append id SEGMENT_FILE_SUFFIX)))
      by apply list_ascii_append.
    cbn [mbind option_bind]. rewrite (proj2 (strip_suffix_Some _ _ id)) by apply list_ascii_append.
    cbn [mbind option_bind]. apply canonical_digits_tests in Hc as [-> ->].
    rewrite Hp. cbn. by destruct n.
Qed.

Lemma u64_to_string_canonical n :
  n < U64_LIMIT → canonical_digits (String.list_ascii_of_string (u64_to_string n)).
Proof.
  intros Hn. unfold u64_to_string. rewrite String.list_ascii_of_string_of_list_ascii.
  by apply u64_digits_canonical.
Qed.

Lemma parse_file_name_print n : segment_id n < U64_LIMIT → parse_file_name (file_name n) = Some n.
Proof.
  intros Hn. apply parse_file_name_Some. exists (u64_to_string (segment_id n)).
  split; [done|]. split; [by apply u64_to_string_canonical|by apply parse_u64_to_string].
Qed.

Lemma parse_file_name_canonical s n :
  parse_file_name s = Some n → s = file_name n ∧ segment_id n < U64_LIMIT.
Proof.
  intros (id & -> & Hc & Hp)%parse_file_name_Some. split.
  - unfold file_name. by rewrite (parse_u64_canonical id (segment_id n)).
  - by eapply parse_u64_bound.
Qed.

Lemma file_name_inj a b :
  segment_id a < U64_LIMIT → segment_id b < U64_LIMIT → file_name a = file_name b → a = b.
Proof.
  intros Ha Hb H. apply parse_file_name_print in Ha, Hb. rewrite H in Ha. congruence.
Qed.

(** *** Discovery *)

(** The segments of a directory in order of their names. *)
Definition segments_of (fs : Fs) : list SegmentPath :=
  merge_sort path_le (omap segment_path_of (map_to_list (fs_entries fs))).

Lemma for_each_noop {A} (l : list A) w :
  no_faults (w_fs w) → for_each l (λ _, w_call (call (mret ()))) w = (Ok (), w).
Proof.
  intros Hnf. induction l as [|x l IH]; [done|]. cbn [for_each].
  unfold mbind, M_bind, w_call, zoom in *. rewrite call_none by done. destruct w. apply IH.
Qed.

Lemma discover_segment_paths_run w :
  no_faults (w_fs w) → fs_root (w_fs w) = RootDir →
  discover_segment_paths w = (Ok (segments_of (w_fs w)), w).
Proof.
  intros Hnf Hr. unfold discover_segment_paths.
  rewrite (bind_ok _ _ w (Ok (map_to_list (fs_entries (w_fs w)))) w).
  - cbv beta iota. by rewrite (bind_ok _ _ w () w) by by apply for_each_noop.
  - unfold try_catch, w_call, zoom, fs_read_dir. rewrite call_none by done.
    unfold in_dir, mbind, M_bind, get_state. rewrite Hr. by destruct w.
Qed.

Lemma elem_of_segments_of fs p :
  p ∈ segments_of fs ↔
  path_file p = file_name (path_name p) ∧ segment_id (path_name p) < U64_LIMIT ∧
  ∃ i, fs_entries fs !! path_file p = Some (EntryFile i).
Proof.
  unfold segments_of. rewrite merge_sort_Permutation, list_elem_of_omap. split.
  - intros ([name e] & Hin & Hp). apply elem_of_map_to_list in Hin.
    unfold segment_path_of in Hp. cbn [fst snd] in Hp. destruct e as [i|]; [|done].
    apply fmap_Some in Hp as (n & Hn & ->). cbn [path_file path_name].
    apply parse_file_name_canonical in Hn as [-> Hn]. eauto.
  - intros (Hf & Hn & i & Hi). exists (path_file p, EntryFile i).
    split; [by apply elem_of_map_to_list|].
    unfold segment_path_of. cbn [fst snd]. rewrite Hf, parse_file_name_print by done.
    rewrite <-Hf. by destruct p.
Qed.

#[global] Instance path_le_total : Total path_le.
Proof. intros a b. unfold path_le, name_le. lia. Qed.
#[global] Instance path_le_trans : Transitive path_le.
Proof. intros a b c. unfold path_le, name_le. lia. Qed.

Definition path_lt (a b : SegmentPath) : Prop := name_lt (path_name a) (path_name b).

Lemma segments_of_NoDup fs : NoDup (segments_of fs).
Proof.
  unfold segments_of. rewrite merge_sort_Permutation.
  assert (H : ∀ l : list (string * DirEntry), NoDup l.*1 → NoDup (omap segment_path_of l)).
  { induction l as [|[s e] l IH]; [constructor|]. rewrite fmap_cons. cbn [fst].
    intros [Hs Hl]%list.NoDup_cons. cbn [omap list_omap].
    destruct (segment_path_of (s, e)) as [p|] eqn:Ep; [|by apply IH].
    apply list.NoDup_cons. split; [|by apply IH]. intros Hp.
    apply list_elem_of_omap in Hp as ([s' e'] & Hin & Hp').
    assert (Hsp : ∀ s e p, segment_path_of (s, e) = Some p → path_file p = s).
    { intros s0 e0 p0. unfold segment_path_of. cbn [fst snd]. destruct e0; [|done].
      by intros (n & _ & ->)%fmap_Some. }
    apply Hsp in Ep, Hp'. subst. apply Hs. rewrite list_elem_of_fmap. by exists (path_file p, e'). }
  apply H, NoDup_fst_map_to_list.
Qed.

(** Each name occurs once, in increasing order. *)
Lemma segments_of_sorted fs : StronglySorted path_lt (segments_of fs).
Proof.
  assert (Hs : StronglySorted path_le (segments_of fs)).
  { unfold segments_of. apply StronglySorted_merge_sort; apply _. }
  assert (Hn : NoDup (segments_of fs)) by apply segments_of_NoDup.
  assert (Hu : ∀ p q, p ∈ segments_of fs → q ∈ segments_of fs → path_name p = path_name q → p = q).
  { intros [np fp] [nq fq] [Hp _]%elem_of_segments_of [Hq _]%elem_of_segments_of. cbn in *.
    intros ->. by rewrite Hp, Hq. }
  revert Hs Hn Hu. generalize (segments_of fs). intros l Hs. induction Hs as [|p l Hs IH Hp]; [constructor|].
  intros [Hpl Hn]%list.NoDup_cons Hu. constructor.
  - apply IH; [done|]. intros q r Hq Hr. apply Hu; by right.
  - rewrite list.Forall_forall in *. intros q Hq. specialize (Hp q Hq).
    unfold path_le, name_le, path_lt, name_lt in *.
    destruct (N.eq_dec (segment_id (path_name p)) (segment_id (path_name q))) as [E|]; [|lia].
    exfalso. apply Hpl. rewrite (Hu p q); [done|by left|by right|].
    destruct (path_name p), (path_name q); cbn in *; congruence.
Qed.
