(* ===== verification/Replay.v ===== *)
(** * Recovery and replay, [src/storage.rs]

    The scans over segments: recovery of torn tails, the search for
    checkpoints and the replay of records into node states.  The three loops
    that read records differ only in what they do with a record body; they are
    instances of [read_records]. *)
From S2P Require Import Prelude Metrics Fs Text Noraft State Crc32c Codec Frame Segment.

(** ** Local state next to the files *)

Definition on_io {A B} (m : M Io B) : M (Io * A) B := zoom fst (λ io s, (io, s.2)) m.
Definition on_acc {A B} (m : M A B) : M (Io * A) B := zoom snd (λ a s, (s.1, a)) m.
Definition on_files {A B} (m : M World B) : M (World * A) B := zoom fst (λ w s, (w, s.2)) m.

(** Works on a file with access to the accumulator. *)
Definition with_file_acc {A B} (f : File) (m : M (Io * A) B) : M (World * A) B := λ s,
  let '(r, (io, a)) := m (mkIo (w_fs s.1) (w_metrics s.1) f, s.2) in
  (r, (mkWorld (io_fs io) (io_metrics io), a)).

(** [let mut a = ..; m(&mut a)?; Ok(a)]. *)
Definition with_local {A} (a : A) (m : M (World * A) ()) : M World A := λ w,
  match m (w, a) with
  | (Ok _, (w', a')) => (Ok a', w')
  | (Err e, (w', _)) => (Err e, w')
  end.

(** [OpenOptions::new().read(true).write(write)]. *)
Definition open_read_write (write : bool) : OpenOptions :=
  mkOpenOptions write false false false false.

(** The turns of a loop over the frames of a file of [len] bytes: each frame
    has a header of eight bytes. *)
Definition record_loop_fuel (len : N) : nat := S (S (N.to_nat (len / SEGMENT_RECORD_HEADER_LEN))).

(** What the loops do at the end of the complete frames. *)
Definition finish_records (allow_partial recover_partial : bool) (record_start len : N)
  : M Io () :=
  if record_start =? len then mret ()
  else if allow_partial then
    io_count replay_truncated ;;
    (if recover_partial then file_set_len record_start ;; file_seek record_start else mret ())
  else throw (invalid_data "partial record in inactive segment").

(** [scan_segment]: its loop and the function. *)
Definition scan_turn (allow_partial : bool) (len : N) : M Io (option ()) :=
  record_start ← file_stream_position;
  frame ← scan_record_frame;
  match frame with
  | Some _ => mret None
  | None => finish_records allow_partial true record_start len ;; mret (Some ())
  end.

Definition scan_segment (path : string) (allow_partial : bool) : M World () :=
  file ← w_call (fs_open path (open_read_write allow_partial));
  with_file file
    (header ← read_segment_header allow_partial true true;
     if negb header then mret ()
     else
       len ← file_len;
       loop_fuel (record_loop_fuel len) (scan_turn allow_partial len)).

(** [recover_storage_dir]. *)
Definition recover_storage_dir (active_segment : SegmentName) : M World () :=
  segments ← discover_segment_paths;
  for_each segments (λ segment,
    let allow_partial := bool_decide (path_name segment = active_segment) in
    scan_segment (path_file segment) allow_partial).

(** [replay_active_segment]. *)
Definition replay_active_segment (segments : list SegmentPath) (active_segment : SegmentName)
  (recover_partial : bool) : SegmentName :=
  if recover_partial then active_segment
  else
    match list.last segments with
    | Some segment => path_name segment
    | None => active_segment
    end.

(** The loop of [scan_checkpoint_positions], [replay_segment] and
    [replay_node_segment] over the records of a file; [handle] is the code
    after a complete body has been read at an offset. *)
Definition records_turn {A} (allow_partial recover_partial : bool) (len : N)
  (handle : N → list byte → M (Io * A) ()) : M (Io * A) (option ()) :=
  record_start ← on_io file_stream_position;
  body ← on_io (read_record_body true);
  match body with
  | Some body => handle record_start body ;; mret None
  | None =>
      on_io (finish_records allow_partial recover_partial record_start len) ;;
      mret (Some ())
  end.

Definition read_records {A} (allow_partial recover_partial : bool) (len : N)
  (handle : N → list byte → M (Io * A) ()) : M (Io * A) () :=
  loop_fuel (record_loop_fuel len) (records_turn allow_partial recover_partial len handle).

(** Opens a segment, checks its header and works on the records. *)
Definition with_segment {A} (segment : SegmentPath) (allow_partial recover_partial : bool)
  (m : N → M (Io * A) ()) : M (World * A) () :=
  file ← on_files (w_call (fs_open (path_file segment)
                             (open_read_write (recover_partial && allow_partial))));
  with_file_acc file
    (header ← on_io (read_segment_header allow_partial recover_partial true);
     if negb header then mret ()
     else
       len ← on_io file_len;
       m len).

Definition in_filter (filter : option (gset N)) (node_id : N) : bool :=
  match filter with
  | None => true
  | Some nodes => bool_decide (node_id ∈ nodes)
  end.

Section replay.
Context `{Noraft}.

(** The body of the loop of [scan_checkpoint_positions]. *)
Definition handle_checkpoint (name : SegmentName) (node_filter : option (gset N))
  (record_start : N) (body : list byte) : M (Io * gmap N RecordPosition) () :=
  node_id ← lift_result (decode_record_node_id body);
  if in_filter node_filter node_id then
    nr ← lift_result (decode_node_record body);
    if is_checkpoint (node_record nr) then
      on_acc (modify (<[node_id := mkRecordPosition name record_start]>))
    else mret ()
  else mret ().

(** [scan_checkpoint_positions]. *)
Definition scan_checkpoint_positions (segment : SegmentPath) (allow_partial : bool)
  (node_filter : option (gset N)) (start_offset : option N) (recover_partial : bool)
  : M (World * gmap N RecordPosition) () :=
  with_segment segment allow_partial recover_partial $ λ len,
    let start_offset := default SEGMENT_FILE_HEADER_LEN start_offset in
    if start_offset <? SEGMENT_FILE_HEADER_LEN then
      throw (invalid_data "checkpoint scan offset precedes records")
    else if len <? start_offset then
      throw (invalid_data "checkpoint scan offset exceeds segment length")
    else
      on_io (file_seek start_offset) ;;
      read_records allow_partial recover_partial len
        (handle_checkpoint (path_name segment) node_filter).

(** The body of the loop of [replay_segment]. *)
Definition handle_replay (name : SegmentName) (node_filter : option (gset N))
  (checkpoint_positions : gmap N RecordPosition) (record_start : N) (body : list byte)
  : M (Io * gmap N NodeState) () :=
  node_id ← lift_result (decode_record_node_id body);
  if in_filter node_filter node_id then
    let record_position := mkRecordPosition name record_start in
    if match checkpoint_positions !! node_id with
       | Some checkpoint => bool_decide (record_position_lt record_position checkpoint)
       | None => false
       end
    then mret ()
    else
      nr ← lift_result (decode_node_record body);
      let record_kind := metric_kind (node_record nr) in
      on_acc (replay_apply nr) ;;
      bytes ← lift_result (frame_len_from_body body);
      on_io (io_count (record_replayed record_kind bytes))
  else mret ().

(** [replay_segment]. *)
Definition replay_segment (segment : SegmentPath) (allow_partial : bool)
  (node_filter : option (gset N)) (checkpoint_positions : gmap N RecordPosition)
  (recover_partial : bool) : M (World * gmap N NodeState) () :=
  with_segment segment allow_partial recover_partial $ λ len,
    read_records allow_partial recover_partial len
      (handle_replay (path_name segment) node_filter checkpoint_positions).

(** The body of the loop of [replay_node_segment]. *)
Definition handle_node_replay (name : SegmentName) (target_node_id : N)
  (checkpoint_position : option RecordPosition) (record_start : N) (body : list byte)
  : M (Io * NodeState) () :=
  node_id ← lift_result (decode_record_node_id body);
  if node_id =? target_node_id then
    let record_position := mkRecordPosition name record_start in
    if match checkpoint_position with
       | Some checkpoint => bool_decide (record_position_lt record_position checkpoint)
       | None => false
       end
    then mret ()
    else
      nr ← lift_result (decode_node_record body);
      let record_kind := metric_kind (node_record nr) in
      on_acc (apply_record_to_state (node_record nr)) ;;
      bytes ← lift_result (frame_len_from_body body);
      on_io (io_count (record_replayed record_kind bytes))
  else mret ().

(** [replay_node_segment]. *)
Definition replay_node_segment (segment : SegmentPath) (allow_partial : bool)
  (target_node_id : N) (checkpoint_position : option RecordPosition) (recover_partial : bool)
  : M (World * NodeState) () :=
  with_segment segment allow_partial recover_partial $ λ len,
    read_records allow_partial recover_partial len
      (handle_node_replay (path_name segment) target_node_id checkpoint_position).

(** [find_checkpoint_positions_from]. *)
Definition find_checkpoint_positions_from (active_segment : SegmentName)
  (node_filter : option (gset N)) (start_position : option RecordPosition)
  (recover_partial : bool) : M World (gmap N RecordPosition) :=
  segments ← discover_segment_paths;
  let active_segment := replay_active_segment segments active_segment recover_partial in
  with_local ∅ $ for_each segments (λ segment,
    if match start_position with
       | Some start => bool_decide (name_lt (path_name segment) (position_segment start))
       | None => false
       end
    then mret ()
    else
      let allow_partial := bool_decide (path_name segment = active_segment) in
      let start_offset :=
        match start_position with
        | Some start =>
            if bool_decide (path_name segment = position_segment start)
            then Some (position_offset start) else None
        | None => None
        end in
      scan_checkpoint_positions segment allow_partial node_filter start_offset recover_partial).

(** [find_checkpoint_positions]. *)
Definition find_checkpoint_positions (active_segment : SegmentName)
  (node_filter : option (gset N)) (recover_partial : bool) : M World (gmap N RecordPosition) :=
  find_checkpoint_positions_from active_segment node_filter None recover_partial.

(** [replay_node_state]. *)
Definition replay_node_state (active_segment : SegmentName) (node_id : N)
  (checkpoint_hint : option RecordPosition) (recover_partial : bool) : M World NodeState :=
  let target_nodes : gset N := {[node_id]} in
  checkpoint_positions ← find_checkpoint_positions_from active_segment (Some target_nodes)
                           checkpoint_hint recover_partial;
  let checkpoint_position := checkpoint_positions !! node_id in
  segments ← discover_segment_paths;
  let active_segment := replay_active_segment segments active_segment recover_partial in
  with_local node_state_default $ for_each segments (λ segment,
    if match checkpoint_position with
       | Some checkpoint => bool_decide (name_lt (path_name segment) (position_segment checkpoint))
       | None => false
       end
    then mret ()
    else
      let allow_partial := bool_decide (path_name segment = active_segment) in
      replay_node_segment segment allow_partial node_id checkpoint_position recover_partial).

(** [checkpoint_positions.values().copied().min()]. *)
Definition min_position (positions : gmap N RecordPosition) : option RecordPosition :=
  match (btree_iter positions).*2 with
  | [] => None
  | p :: ps => Some (foldl (λ a b, if decide (record_position_lt b a) then b else a) p ps)
  end.

(** [checkpoint_positions_for_replay]. *)
Definition checkpoint_positions_for_replay (active_segment : SegmentName)
  (node_filter : option (gset N)) (checkpoint_hints : option (gmap N RecordPosition))
  (recover_partial : bool) : M World (gmap N RecordPosition * option SegmentName) :=
  match checkpoint_hints with
  | None =>
      positions ← find_checkpoint_positions active_segment node_filter recover_partial;
      mret (positions, None)
  | Some checkpoint_positions =>
      match min_position checkpoint_positions with
      | None => mret (checkpoint_positions, None)
      | Some start_position =>
          discovered ← find_checkpoint_positions_from active_segment node_filter
                         (Some start_position) recover_partial;
          mret (discovered ∪ checkpoint_positions, Some (position_segment start_position))
      end
  end.

(** [replay_storage_dir]. *)
Definition replay_storage_dir (active_segment : SegmentName) (node_filter : option (gset N))
  (checkpoint_hints : option (gmap N RecordPosition)) (recover_partial : bool)
  : M World (gmap N NodeState) :=
  r ← checkpoint_positions_for_replay active_segment node_filter checkpoint_hints recover_partial;
  let '(checkpoint_positions, replay_start_segment) := r in
  segments ← discover_segment_paths;
  let active_segment := replay_active_segment segments active_segment recover_partial in
  with_local ∅ $ for_each segments (λ segment,
    if match replay_start_segment with
       | Some start => bool_decide (name_lt (path_name segment) start)
       | None => false
       end
    then mret ()
    else
      let allow_partial := bool_decide (path_name segment = active_segment) in
      replay_segment segment allow_partial node_filter checkpoint_positions recover_partial).

End replay.
