(* ===== verification/Recovery.v ===== *)
(** * What the loops over a segment do

    Without faults, each loop of [Replay] is a fold over the complete frames of
    the segment, followed by what is done about the bytes after them. *)
From S2P Require Import Prelude Metrics Fs Text Noraft State Crc32c Codec Format Frame Segment.
From S2P Require Import Replay.

(** ** The specification *)

Definition io_world (io : Io) : World := mkWorld (io_fs io) (io_metrics io).

(** The offsets of the frames of [bodies] when the first is at [off]. *)
Fixpoint with_offsets (off : N) (bodies : list (list byte)) : list (N * list byte) :=
  match bodies with
  | [] => []
  | body :: bodies => (off, body) :: with_offsets (off + lenN (wire_frame body)) bodies
  end.

(** A handler of records as a function of the counters and the accumulator. *)
Definition handler (A : Type) : Type :=
  N → list byte → StorageMetrics * A → result () * (StorageMetrics * A).

Fixpoint fold_records {A} (h : handler A) (records : list (N * list byte))
  (s : StorageMetrics * A) : result () * (StorageMetrics * A) :=
  match records with
  | [] => (Ok (), s)
  | (off, body) :: records =>
      match h off body s with
      | (Ok _, s) => fold_records h records s
      | (Err e, s) => (Err e, s)
      end
  end.

(** The verdict on the bytes [t] after the complete frames. *)
Definition tail_result (allow_partial : bool) (t : list byte) : result () :=
  match frame_at t with
  | FrameTooLarge => Err (invalid_data "segment record is too large")
  | FrameCorrupt => Err (invalid_data "segment record checksum mismatch")
  | FrameShort | FrameOk _ =>
      if bool_decide (t = []) || allow_partial then Ok ()
      else Err (invalid_data "partial record in inactive segment")
  end.

Definition tail_metrics (allow_partial : bool) (t : list byte) (m : StorageMetrics) : StorageMetrics :=
  match frame_at t with
  | FrameTooLarge => m
  | FrameCorrupt => checksum_failed m
  | FrameShort | FrameOk _ =>
      if negb (bool_decide (t = [])) && allow_partial then replay_truncated m else m
  end.

(** A torn tail of a file that may be recovered is cut off. *)
Definition tail_cut (allow_partial recover_partial : bool) (t : list byte) : bool :=
  match frame_at t with
  | FrameShort => negb (bool_decide (t = [])) && allow_partial && recover_partial
  | _ => false
  end.

Definition tail_fs (allow_partial recover_partial : bool) (inode : N) (data t : list byte) (fs : Fs)
  : Fs :=
  if tail_cut allow_partial recover_partial t
  then update_data inode (takeN (lenN data - lenN t) data) fs
  else fs.

(** A loop over the frames [bodies] from [off], followed by [t], in the file
    [inode] with contents [data]. *)
Definition records_run {A} (allow_partial recover_partial : bool) (h : handler A)
  (inode : N) (data : list byte) (off : N) (bodies : list (list byte)) (t : list byte)
  (s : World * A) : result () * (World * A) :=
  match fold_records h (with_offsets off bodies) (w_metrics s.1, s.2) with
  | (Err e, (m, a)) => (Err e, (mkWorld (w_fs s.1) m, a))
  | (Ok _, (m, a)) =>
      (tail_result allow_partial t,
       (mkWorld (tail_fs allow_partial recover_partial inode data t (w_fs s.1))
                (tail_metrics allow_partial t m), a))
  end.

(** [handle] computes [h] and leaves files and handle alone. *)
Definition handles {A} (handle : N → list byte → M (Io * A) ()) (h : handler A) : Prop :=
  ∀ off body io a, no_faults (io_fs io) →
    handle off body (io, a) =
    let '(r, (m, a')) := h off body (io_metrics io, a) in (r, (set_io_metrics m io, a')).

(** Forgets the position of the handle. *)
Definition forget_file {A B} (r : result B * (Io * A)) : result B * (World * A) :=
  (r.1, (io_world r.2.1, r.2.2)).

(** ** Lemmas *)

Lemma on_io_run {A B} (m : M Io B) io (a : A) :
  on_io m (io, a) = let '(r, io') := m io in (r, (io', a)).
Proof. unfold on_io, zoom. simpl. by destruct (m io). Qed.

Lemma on_acc_run {A B} (m : M A B) io (a : A) :
  on_acc m (io, a) = let '(r, a') := m a in (r, (io, a')).
Proof. unfold on_acc, zoom. simpl. by destruct (m a). Qed.

Lemma with_offsets_app off b1 b2 :
  with_offsets off (b1 ++ b2) = with_offsets off b1 ++ with_offsets (off + lenN (frames_bytes b1)) b2.
Proof.
  revert off. induction b1 as [|b b1 IH]; intros off; cbn [with_offsets app].
  - change (lenN (frames_bytes [])) with 0. by rewrite N.add_0_r.
  - rewrite IH, frames_bytes_cons, lenN_app. by rewrite N.add_assoc.
Qed.

Lemma fold_records_app {A} (h : handler A) r1 r2 s :
  fold_records h (r1 ++ r2) s =
  match fold_records h r1 s with
  | (Ok _, s) => fold_records h r2 s
  | (Err e, s) => (Err e, s)
  end.
Proof.
  revert s. induction r1 as [|[off body] r1 IH]; intros s; [done|]. cbn [app fold_records].
  destruct (h off body s) as [[[]|e] s']; [apply IH|done].
Qed.

(** The position after the frames before the tail. *)
Lemma parse_position io bodies t :
  frames_parse (io_rest io) bodies t → file_pos (io_file io) ≤ lenN (io_data io) →
  file_pos (io_file io) + lenN (frames_bytes bodies) = lenN (io_data io) - lenN t ∧
  lenN t ≤ lenN (io_data io).
Proof.
  intros (Hd & _ & _) Hpos. apply (f_equal lenN) in Hd. rewrite lenN_app in Hd.
  unfold io_rest in Hd. rewrite lenN_dropN in Hd. lia.
Qed.

Lemma short_tail_view t : (∀ body, frame_at t ≠ FrameOk body) → 
  frame_at t = FrameShort ∨ frame_at t = FrameTooLarge ∨ frame_at t = FrameCorrupt.
Proof. intros H. destruct (frame_at t) eqn:E; auto. by destruct (H body). Qed.

(** What the loops do when no frame is left: [frame] is the last read. *)
Lemma finish_records_run allow recover io pos t :
  no_faults (io_fs io) → frame_at t = FrameShort → lenN t ≤ lenN (io_data io) →
  pos = lenN (io_data io) - lenN t → (recover && allow = true → file_writable (io_file io) = true) →
  (finish_records allow recover pos (lenN (io_data io)) io).1 = tail_result allow t ∧
  io_world (finish_records allow recover pos (lenN (io_data io)) io).2 =
    mkWorld (tail_fs allow recover (file_inode (io_file io)) (io_data io) t (io_fs io))
            (tail_metrics allow t (io_metrics io)).
Proof.
  intros Hnf Ht Hle -> Hw. unfold finish_records, tail_result, tail_fs, tail_cut, tail_metrics.
  rewrite Ht. case_bool_decide as Hnil.
  - subst t. rewrite lenN_nil, N.sub_0_r, N.eqb_refl. done.
  - assert (0 < lenN t) by (destruct t; [done|rewrite lenN_cons; lia]).
    rewrite (proj2 (N.eqb_neq _ _)) by lia. cbn [negb orb andb].
    destruct allow; [|done]. destruct recover; [|done].
    unfold mbind, M_bind, io_count, modify. cbn [andb] in *.
    rewrite file_truncate_run; [|done|by apply Hw|apply N.le_sub_l].
    rewrite file_seek_run by done. done.
Qed.

Lemma io_rest_frame_state count io body rest :
  io_rest io = wire_frame body ++ rest → lenN body ≤ MAX_RECORD_BODY_LEN →
  frame_state count io = advance (lenN (wire_frame body)) io ∧
  io_rest (advance (lenN (wire_frame body)) io) = rest.
Proof.
  intros Hr Hb. unfold frame_state. rewrite Hr, frame_at_wire, frame_consumed_wire by done.
  split; [done|]. by rewrite io_rest_advance, Hr, dropN_app_exact.
Qed.

Lemma advance_pos_le n io : n ≤ lenN (io_rest io) → file_pos (io_file io) ≤ lenN (io_data io) →
  file_pos (io_file (advance n io)) ≤ lenN (io_data (advance n io)).
Proof. unfold io_rest. rewrite lenN_dropN. unfold advance, io_data. simpl. lia. Qed.

Section loops.
Context {A : Type} (handle : N → list byte → M (Io * A) ()) (h : handler A).
Hypothesis Hhandle : handles handle h.
Context (allow recover : bool).

(** One turn at a complete frame. *)
Lemma records_turn_frame len body rest io a :
  no_faults (io_fs io) → io_rest io = wire_frame body ++ rest → lenN body ≤ MAX_RECORD_BODY_LEN →
  records_turn allow recover len handle (io, a) =
  match h (file_pos (io_file io)) body (io_metrics io, a) with
  | (Ok _, (m, a')) => (Ok None, (set_io_metrics m (advance (lenN (wire_frame body)) io), a'))
  | (Err e, (m, a')) => (Err e, (set_io_metrics m (advance (lenN (wire_frame body)) io), a'))
  end.
Proof using Hhandle.
  intros Hnf Hrest Hb. unfold records_turn, mbind, M_bind.
  rewrite on_io_run, file_stream_position_run by done.
  rewrite on_io_run, read_record_body_run by done.
  destruct (io_rest_frame_state true io body _ Hrest Hb) as [-> _].
  rewrite Hrest, frame_at_wire by done. cbn [frame_result id]. rewrite Hhandle by done.
  change (io_metrics (advance _ io)) with (io_metrics io).
  by destruct (h _ _ _) as [[[]|e] [m a']].
Qed.

(** The last turn. *)
Lemma records_turn_end t io a :
  no_faults (io_fs io) → io_rest io = t → (∀ body, frame_at t ≠ FrameOk body) →
  file_pos (io_file io) = lenN (io_data io) - lenN t → lenN t ≤ lenN (io_data io) →
  (recover && allow = true → file_writable (io_file io) = true) →
  let w' := mkWorld (tail_fs allow recover (file_inode (io_file io)) (io_data io) t (io_fs io))
                    (tail_metrics allow t (io_metrics io)) in
  ∃ io', io_world io' = w' ∧
  records_turn allow recover (lenN (io_data io)) handle (io, a) =
  match tail_result allow t with
  | Ok _ => (Ok (Some ()), (io', a))
  | Err e => (Err e, (io', a))
  end.
Proof using Type.
  intros Hnf Hrest Ht Hpos Htle Hw w'. unfold records_turn, mbind, M_bind.
  rewrite on_io_run, file_stream_position_run by done.
  rewrite on_io_run, read_record_body_run by done.
  unfold frame_state. rewrite Hrest.
  destruct (short_tail_view t Ht) as [E|[E|E]]; rewrite E; cbn [frame_result].
  - set (io1 := advance _ io). rewrite on_io_run.
    pose proof (finish_records_run allow recover io1 _ t Hnf E Htle Hpos Hw) as [H1 H2].
    change (io_data io1) with (io_data io) in *.
    destruct (finish_records allow recover _ _ io1) as [r io2]. cbn [fst snd] in H1, H2.
    exists io2. split; [exact H2|]. rewrite <-H1. by destruct r as [[]|].
  - unfold w', tail_result, tail_fs, tail_cut, tail_metrics. rewrite E.
    eexists. by split; [|reflexivity].
  - unfold w', tail_result, tail_fs, tail_cut, tail_metrics. rewrite E.
    eexists. by split; [|reflexivity].
Qed.

Lemma read_records_fuel fuel bodies t io a :
  (length bodies < fuel)%nat →
  no_faults (io_fs io) → frames_parse (io_rest io) bodies t →
  file_pos (io_file io) ≤ lenN (io_data io) →
  (recover && allow = true → file_writable (io_file io) = true) →
  forget_file (loop_fuel fuel (records_turn allow recover (lenN (io_data io)) handle) (io, a)) =
  records_run allow recover h (file_inode (io_file io)) (io_data io)
    (file_pos (io_file io)) bodies t (io_world io, a).
Proof using Hhandle.
  revert bodies io a. induction fuel as [|fuel IH]; intros bodies io a Hfuel Hnf Hp Hpos Hw; [lia|].
  pose proof (parse_position _ _ _ Hp Hpos) as [Hoff Htle]. destruct Hp as (Hrest & Hb & Ht).
  rewrite loop_fuel_step. unfold records_run. destruct bodies as [|body bodies].
  - change (lenN (frames_bytes [])) with 0 in Hoff. rewrite N.add_0_r in Hoff.
    destruct (records_turn_end t io a Hnf Hrest Ht Hoff Htle Hw) as (io' & Hio' & ->).
    cbn [with_offsets fold_records fst snd w_metrics io_world w_fs]. 
    destruct (tail_result allow t) as [[]|e]; unfold forget_file; cbn [fst snd]; by rewrite Hio'.
  - rewrite frames_bytes_cons, <-app_assoc in Hrest. pose proof (Forall_inv Hb) as Hb1.
    destruct (io_rest_frame_state true io body _ Hrest Hb1) as [_ Hrest'].
    rewrite (records_turn_frame _ _ _ _ _ Hnf Hrest Hb1).
    set (io1 := advance (lenN (wire_frame body)) io) in *.
    cbn [with_offsets fold_records]. cbn [w_metrics io_world fst snd].
    destruct (h (file_pos (io_file io)) body (io_metrics io, a)) as [[[]|e] [m a']]; [|done].
    change (lenN (io_data io)) with (lenN (io_data (set_io_metrics m io1))).
    rewrite (IH bodies (set_io_metrics m io1) a'); [done|simpl in Hfuel; lia|done| | |done].
    + split; [done|]. split; [by inversion Hb|done].
    + apply (advance_pos_le (lenN (wire_frame body)) io); [|done]. rewrite Hrest. len.
Qed.

(** The turns of the loops are within the fuel. *)
Lemma record_loop_fuel_enough io bodies t :
  frames_parse (io_rest io) bodies t → file_pos (io_file io) ≤ lenN (io_data io) →
  (length bodies < record_loop_fuel (lenN (io_data io)))%nat.
Proof using Type.
  intros Hp Hpos. pose proof (parse_position _ _ _ Hp Hpos) as [Hoff Htle].
  pose proof (frames_bytes_length bodies). unfold record_loop_fuel.
  change SEGMENT_RECORD_HEADER_LEN with 8.
  assert (lenN bodies ≤ lenN (io_data io) / 8).
  { apply N.div_le_lower_bound; lia. }
  unfold lenN in *. lia.
Qed.

(** The loop over the records of a file, with the fuel of the code. *)
Lemma read_records_run bodies t io a :
  no_faults (io_fs io) → frames_parse (io_rest io) bodies t →
  file_pos (io_file io) ≤ lenN (io_data io) →
  (recover && allow = true → file_writable (io_file io) = true) →
  forget_file (read_records allow recover (lenN (io_data io)) handle (io, a)) =
  records_run allow recover h (file_inode (io_file io)) (io_data io)
    (file_pos (io_file io)) bodies t (io_world io, a).
Proof using Hhandle.
  intros Hnf Hp Hpos Hw. apply read_records_fuel; try done. by eapply record_loop_fuel_enough.
Qed.
End loops.

(** *** The loop of [scan_segment]

    It is the loop over records with a handler that does nothing. *)

Definition skip_handler : handler () := λ _ _ s, (Ok (), s).

Lemma skip_handles : handles (λ _ _, mret ()) skip_handler.
Proof. intros off body io a _. by destruct io. Qed.

Lemma fold_records_skip records s : fold_records skip_handler records s = (Ok (), s).
Proof. by induction records as [|[off body] records IH]. Qed.

Lemma scan_turn_records allow len io :
  no_faults (io_fs io) →
  scan_turn allow len io =
  let '(r, (io', _)) := records_turn allow true len (λ _ _, mret ()) (io, ()) in (r, io').
Proof.
  intros Hnf. unfold scan_turn, records_turn, mbind, M_bind.
  rewrite file_stream_position_run, scan_record_frame_run by done.
  rewrite on_io_run, file_stream_position_run by done.
  rewrite on_io_run, read_record_body_run by done.
  destruct (frame_at (io_rest io)); cbn [frame_result]; try done.
  rewrite on_io_run. by destruct (finish_records _ _ _ _ _) as [[[]|] io'].
Qed.

Lemma records_turn_continues allow recover len io io' u :
  no_faults (io_fs io) →
  records_turn allow recover len (λ _ _, mret ()) (io, ()) = (Ok None, (io', u)) →
  no_faults (io_fs io').
Proof.
  intros Hnf. unfold records_turn, mbind, M_bind.
  rewrite on_io_run, file_stream_position_run by done.
  rewrite on_io_run, read_record_body_run by done.
  unfold frame_state. destruct (frame_at (io_rest io)); cbn [frame_result]; try done.
  - rewrite on_io_run. by destruct (finish_records _ _ _ _ _) as [[[]|] ?].
  - by intros [= <- _].
Qed.

Lemma scan_loop_records fuel allow len io :
  no_faults (io_fs io) →
  loop_fuel fuel (scan_turn allow len) io =
  let '(r, (io', _)) :=
    loop_fuel fuel (records_turn allow true len (λ _ _, mret ())) (io, ()) in (r, io').
Proof.
  revert io. induction fuel as [|fuel IH]; intros io Hnf; [done|].
  rewrite !loop_fuel_step, scan_turn_records by done.
  destruct (records_turn _ _ _ _ _) as [[[[]|]|e] [io' []]] eqn:E; [done| |done].
  apply IH. by apply records_turn_continues in E.
Qed.

(** *** The header *)

Definition header_result (allow_partial : bool) (d : list byte) : result bool :=
  if lenN d <? SEGMENT_FILE_HEADER_LEN then
    if allow_partial then Ok false
    else if lenN d =? 0 then Err (invalid_data "missing segment header")
    else Err (invalid_data "partial segment header in inactive segment")
  else if bool_decide (takeN SEGMENT_FILE_HEADER_LEN d = SEGMENT_FORMAT_MAGIC) then Ok true
  else Err (invalid_data "unsupported segment format").

(** The header of the file is torn and allowed to be. *)
Definition header_torn (allow_partial : bool) (d : list byte) : bool :=
  negb (lenN d =? 0) && (lenN d <? SEGMENT_FILE_HEADER_LEN) && allow_partial.

Definition header_metrics (allow_partial count : bool) (d : list byte) (m : StorageMetrics)
  : StorageMetrics :=
  if header_torn allow_partial d && count then replay_truncated m else m.

Definition header_fs (allow_partial recover_partial : bool) (inode : N) (d : list byte) (fs : Fs) : Fs :=
  if header_torn allow_partial d && recover_partial then update_data inode [] fs else fs.

Lemma read_segment_header_run allow recover count io :
  no_faults (io_fs io) → (recover && allow = true → file_writable (io_file io) = true) →
  ∃ f, (header_result allow (io_data io) = Ok true → f = seek_to 4 (io_file io)) ∧
  read_segment_header allow recover count io =
  (header_result allow (io_data io),
   mkIo (header_fs allow recover (file_inode (io_file io)) (io_data io) (io_fs io))
        (header_metrics allow count (io_data io) (io_metrics io)) f).
Proof.
  intros Hnf Hw. set (io0 := set_io_file (seek_to 0 (io_file io)) io).
  set (d := io_data io) in *. change (io_data io) with (io_data io0) in d.
  unfold read_segment_header, mbind, M_bind.
  rewrite file_seek_run by done. fold io0. rewrite file_len_run by done. fold d.
  unfold header_result, header_fs, header_metrics, header_torn.
  change SEGMENT_FILE_HEADER_LEN with 4.
  destruct (N.eqb_spec (lenN d) 0) as [H0|H0].
  { rewrite H0. cbn [negb andb]. change (0 <? 4) with true. cbv iota.
    destruct allow; (eexists; split; [|reflexivity]; done). }
  destruct (N.ltb_spec (lenN d) 4) as [H4|H4]; cbn [negb andb].
  - destruct allow; [|eexists; split; [|reflexivity]; done].
    destruct recover; cbn [andb].
    + destruct count; unfold io_count, modify, mret, M_ret.
      * rewrite file_truncate_run; [|done|by apply Hw|apply N.le_0_l].
        rewrite file_seek_run by done. eexists. split; [|reflexivity]. done.
      * rewrite file_truncate_run; [|done|by apply Hw|apply N.le_0_l].
        rewrite file_seek_run by done. eexists. split; [|reflexivity]. done.
    + destruct count; (eexists; split; [|reflexivity]; done).
  - rewrite file_read_exact_run by done. fold d. change (file_pos (io_file io0)) with 0.
    rewrite dropN_0, (proj2 (N.ltb_ge _ 4)) by done. rewrite N.min_l by done.
    exists (seek_to 4 (io_file io)). split; [done|]. by case_bool_decide.
Qed.

(** *** Opening a segment *)

(** [name] is a regular file of the directory with the contents [d]. *)
Definition is_file_with (fs : Fs) (name : string) (i : N) (d : list byte) : Prop :=
  fs_root fs = RootDir ∧ fs_entries fs !! name = Some (EntryFile i) ∧ data_of i fs = d.

Lemma fs_open_read_write_run fs name i d wr :
  no_faults fs → is_file_with fs name i d →
  fs_open name (open_read_write wr) fs = (Ok (mkFile i 0 wr false), fs).
Proof.
  intros Hnf (Hroot & He & _). unfold fs_open. rewrite call_none by done.
  unfold in_dir, mbind, M_bind, get_state. rewrite Hroot, He. cbn.
  by rewrite orb_false_r.
Qed.

(** The contents of a segment: header, complete frames, and the bytes after
    them. *)
Definition segment_data (bodies : list (list byte)) (t : list byte) : list byte :=
  SEGMENT_FORMAT_MAGIC ++ frames_bytes bodies ++ t.

Lemma segment_data_length bodies t :
  lenN (segment_data bodies t) = 4 + lenN (frames_bytes bodies) + lenN t.
Proof.
  unfold segment_data. rewrite !lenN_app. change (lenN SEGMENT_FORMAT_MAGIC) with 4. lia.
Qed.

Lemma header_result_data allow bodies t : header_result allow (segment_data bodies t) = Ok true.
Proof.
  unfold header_result. change SEGMENT_FILE_HEADER_LEN with 4.
  rewrite (proj2 (N.ltb_ge _ _)) by (rewrite segment_data_length; lia).
  by rewrite bool_decide_eq_true_2.
Qed.

Lemma header_torn_data allow bodies t : header_torn allow (segment_data bodies t) = false.
Proof.
  unfold header_torn. change SEGMENT_FILE_HEADER_LEN with 4.
  rewrite (proj2 (N.ltb_ge (lenN _) 4)) by (rewrite segment_data_length; lia).
  by rewrite andb_false_r.
Qed.

Lemma segment_data_drop b1 b2 t :
  dropN (4 + lenN (frames_bytes b1)) (segment_data (b1 ++ b2) t) = frames_bytes b2 ++ t.
Proof.
  unfold segment_data. rewrite frames_bytes_app, <-app_assoc, app_assoc.
  apply dropN_app_lenN. by rewrite lenN_app.
Qed.

(** After the header of a complete segment, the rest works at its first record. *)
Lemma with_segment_open {A} (m : N → M (Io * A) ()) segment allow recover w (a : A) i bodies t :
  no_faults (w_fs w) →
  is_file_with (w_fs w) (path_file segment) i (segment_data bodies t) →
  with_segment segment allow recover m (w, a) =
  forget_file (m (lenN (segment_data bodies t))
                 (mkIo (w_fs w) (w_metrics w) (mkFile i 4 (recover && allow) false), a)).
Proof.
  intros Hnf (Hroot & He & Hd). unfold with_segment. unfold mbind at 1, M_bind at 1.
  unfold on_files, w_call, zoom. cbn [fst snd].
  erewrite fs_open_read_write_run; [|done|done]. unfold with_file_acc. cbn [fst snd w_fs w_metrics].
  set (io := mkIo (w_fs w) (w_metrics w) _).
  assert (Hdata : io_data io = segment_data bodies t) by exact Hd.
  destruct (read_segment_header_run allow recover true io Hnf ltac:(done)) as (f' & Hf' & Hrun).
  rewrite Hdata, header_result_data in Hf', Hrun. rewrite (Hf' eq_refl) in Hrun. clear f' Hf'.
  unfold header_fs, header_metrics in Hrun. rewrite header_torn_data in Hrun. cbn [andb] in Hrun.
  unfold mbind, M_bind. rewrite on_io_run, Hrun. cbn [negb].
  rewrite on_io_run, file_len_run by done.
  change (io_data (mkIo _ _ _)) with (io_data io). rewrite Hdata. unfold forget_file, io_world.
  by destruct (m _ _) as [r [io' a']].
Qed.

Section segments.
Context {A : Type} (handle : N → list byte → M (Io * A) ()) (h : handler A).
Hypothesis Hhandle : handles handle h.

(** Reading a segment from a frame on. *)
Lemma with_segment_from segment allow recover w (a : A) i b1 b2 t :
  no_faults (w_fs w) →
  is_file_with (w_fs w) (path_file segment) i (segment_data (b1 ++ b2) t) →
  frames_parse (frames_bytes b2 ++ t) b2 t →
  with_segment segment allow recover
    (λ len, on_io (file_seek (4 + lenN (frames_bytes b1))) ;;
            read_records allow recover len handle) (w, a) =
  records_run allow recover h i (segment_data (b1 ++ b2) t) (4 + lenN (frames_bytes b1)) b2 t (w, a).
Proof using Hhandle.
  intros Hnf Hfile Hp. erewrite with_segment_open by done.
  unfold mbind, M_bind. rewrite on_io_run, file_seek_run by done.
  set (io := set_io_file _ _).
  assert (Hdata : io_data io = segment_data (b1 ++ b2) t) by apply Hfile.
  rewrite <-Hdata. pose proof (read_records_run handle h Hhandle allow recover b2 t io a) as Hrr.
  replace (io_world io) with w in Hrr by by destruct w. apply Hrr; try done.
  - assert (io_rest io = frames_bytes b2 ++ t) as ->; [|exact Hp].
    unfold io_rest. rewrite Hdata. apply segment_data_drop.
  - rewrite Hdata, segment_data_length, frames_bytes_app, lenN_app.
    change (file_pos (io_file io)) with (4 + lenN (frames_bytes b1)). lia.
Qed.

(** Reading a segment from its first record. *)
Lemma with_segment_all segment allow recover w (a : A) i bodies t :
  no_faults (w_fs w) →
  is_file_with (w_fs w) (path_file segment) i (segment_data bodies t) →
  frames_parse (frames_bytes bodies ++ t) bodies t →
  with_segment segment allow recover (λ len, read_records allow recover len handle) (w, a) =
  records_run allow recover h i (segment_data bodies t) 4 bodies t (w, a).
Proof using Hhandle.
  intros Hnf Hfile Hp. erewrite with_segment_open by done.
  set (io := mkIo _ _ _).
  assert (Hdata : io_data io = segment_data bodies t) by apply Hfile.
  rewrite <-Hdata. pose proof (read_records_run handle h Hhandle allow recover bodies t io a) as Hrr.
  replace (io_world io) with w in Hrr by by destruct w. apply Hrr; try done.
  - assert (io_rest io = frames_bytes bodies ++ t) as ->; [|exact Hp].
    unfold io_rest. rewrite Hdata. exact (segment_data_drop [] bodies t).
  - rewrite Hdata, segment_data_length. change (file_pos (io_file io)) with 4. lia.
Qed.
End segments.
