(* ===== verification/ReplayCorrect.v ===== *)
(** * Replay of a storage directory

    A directory whose segments hold complete records is a log of node records
    in position order.  Finding checkpoints and replaying nodes are functions
    of that log: a node's state is what its records since its last checkpoint
    make of the initial state, whatever hint the checkpoint index gives. *)
From S2P Require Import Prelude Metrics Fs Text Noraft State Crc32c Codec Format Frame Segment.
From S2P Require Import Replay Recovery.

(** ** The log of a directory *)

(** Segments with the bodies of their records. *)
Definition segment_contents : Type := SegmentName * list (list byte).

Definition segment_log (seg : segment_contents) : list (RecordPosition * list byte) :=
  (λ r, (mkRecordPosition seg.1 r.1, r.2)) <$> with_offsets SEGMENT_FILE_HEADER_LEN seg.2.

Definition log_of (segs : list segment_contents) : list (RecordPosition * list byte) :=
  segs ≫= segment_log.

Definition bodies_fit (bodies : list (list byte)) : Prop :=
  Forall (λ body, lenN body ≤ MAX_RECORD_BODY_LEN) bodies.

(** The file of a segment has exactly these records. *)
Definition holds_segment (fs : Fs) (p : SegmentPath) (seg : segment_contents) : Prop :=
  path_name p = seg.1 ∧ bodies_fit seg.2 ∧
  ∃ i, is_file_with fs (path_file p) i (segment_data seg.2 []).

(** The segments of the directory are complete and hold [segs]. *)
Definition clean_dir (fs : Fs) (segs : list segment_contents) : Prop :=
  no_faults fs ∧ fs_root fs = RootDir ∧ Forall2 (holds_segment fs) (segments_of fs) segs.

(** The contents of a file whose complete records are [bodies]: a header cut
    short, or a header, the records and a frame cut short. *)
Definition torn_data (d : list byte) (bodies : list (list byte)) : Prop :=
  (lenN d < SEGMENT_FILE_HEADER_LEN ∧ bodies = []) ∨
  (∃ t, d = segment_data bodies t ∧ frame_at t = FrameShort ∧ bodies_fit bodies).

(** A segment that is read as [seg]: it is complete, or its torn end is allowed
    and left as it is. *)
Definition reads_segment (fs : Fs) (allow recover : bool) (p : SegmentPath) (seg : segment_contents) : Prop :=
  path_name p = seg.1 ∧ bodies_fit seg.2 ∧
  ∃ i d, is_file_with fs (path_file p) i d ∧
         (d = segment_data seg.2 [] ∨ allow = true ∧ recover = false ∧ torn_data d seg.2).

(** The segments of the directory are read as [segs]. *)
Definition readable_dir (fs : Fs) (active : SegmentName) (recover : bool) (segs : list segment_contents) : Prop :=
  no_faults fs ∧ fs_root fs = RootDir ∧
  Forall2 (λ p, reads_segment fs (bool_decide (path_name p = replay_active_segment (segments_of fs) active recover))
                  recover p) (segments_of fs) segs.

Lemma holds_reads fs allow recover p seg : holds_segment fs p seg → reads_segment fs allow recover p seg.
Proof. intros (H1 & H2 & i & H3). split; [done|]. split; [done|]. eexists i, _. split; [exact H3|by left]. Qed.

Lemma clean_readable fs active recover segs : clean_dir fs segs → readable_dir fs active recover segs.
Proof.
  intros (Hnf & Hr & H). split; [done|]. split; [done|].
  generalize (replay_active_segment (segments_of fs) active recover). intros a.
  induction H; constructor; [by apply holds_reads|done].
Qed.

(** The records before a position are left out. *)
Definition not_before (start : option RecordPosition) (p : RecordPosition) : bool :=
  match start with
  | Some start => negb (bool_decide (record_position_lt p start))
  | None => true
  end.

Definition log_from {R} (start : option RecordPosition) (log : list (RecordPosition * R))
  : list (RecordPosition * R) :=
  filter (λ r, not_before start r.1 = true) log.

(** ** Handlers by position *)

Definition log_handler (A : Type) : Type :=
  RecordPosition → list byte → StorageMetrics * A → result () * (StorageMetrics * A).

Definition at_segment {A} (H : log_handler A) (name : SegmentName) : handler A :=
  λ off body, H (mkRecordPosition name off) body.

Fixpoint fold_log {A} (H : log_handler A) (log : list (RecordPosition * list byte))
  (s : StorageMetrics * A) : result () * (StorageMetrics * A) :=
  match log with
  | [] => (Ok (), s)
  | (p, body) :: log =>
      match H p body s with
      | (Ok _, s) => fold_log H log s
      | (Err e, s) => (Err e, s)
      end
  end.

(** A run that does to the accumulator what the fold does, and leaves the files
    as they are. *)
Definition reads_as {A} (fs : Fs) (x : result () * (World * A)) (r : result () * (StorageMetrics * A)) : Prop :=
  ∃ m, x = (r.1, (mkWorld fs m, r.2.2)).

(** The counters play no part in what a handler returns. *)
Definition blind {A} (H : log_handler A) : Prop :=
  ∀ p body m m' a, (H p body (m, a)).1 = (H p body (m', a)).1 ∧ (H p body (m, a)).2.2 = (H p body (m', a)).2.2.

(** ** Lemmas on folds over segments *)

Lemma fold_log_app {A} (H : log_handler A) l1 l2 s :
  fold_log H (l1 ++ l2) s =
  match fold_log H l1 s with
  | (Ok _, s) => fold_log H l2 s
  | (Err e, s) => (Err e, s)
  end.
Proof.
  revert s. induction l1 as [|[p body] l1 IH]; intros s; [done|]. cbn [app fold_log].
  destruct (H p body s) as [[[]|e] s']; [apply IH|done].
Qed.

Lemma fold_records_at {A} (H : log_handler A) name records s :
  fold_records (at_segment H name) records s =
  fold_log H ((λ r, (mkRecordPosition name r.1, r.2)) <$> records) s.
Proof.
  revert s. induction records as [|[off body] records IH]; intros s; [done|].
  rewrite fmap_cons. cbn [fold_records fold_log fst snd]. unfold at_segment at 1.
  by destruct (H _ body s) as [[[]|e] s'].
Qed.

(** A loop over a segment that has no torn tail, or one that is left alone. *)
Lemma records_run_reads {A} allow recover (h : handler A) i data off bodies t w a :
  t = [] ∨ allow = true ∧ recover = false ∧ frame_at t = FrameShort →
  reads_as (w_fs w) (records_run allow recover h i data off bodies t (w, a))
    (fold_records h (with_offsets off bodies) (w_metrics w, a)).
Proof.
  intros Ht. unfold records_run, reads_as. cbn [fst snd].
  destruct (fold_records _ _ _) as [[[]|e] [m a']]; [|by exists m]. cbn [fst snd].
  assert (tail_result allow t = Ok () ∧ tail_fs allow recover i data t (w_fs w) = w_fs w) as [-> ->]; [|by eexists].
  unfold tail_result, tail_fs, tail_cut. destruct Ht as [->|(-> & -> & Ht)].
  - rewrite frame_at_nil. by rewrite bool_decide_eq_true_2.
  - rewrite Ht, orb_true_r, andb_false_r. done.
Qed.

(** A segment with a torn header is read as an empty one. *)
Lemma with_segment_short {A} (m : N → M (Io * A) ()) segment w (a : A) i d :
  no_faults (w_fs w) → is_file_with (w_fs w) (path_file segment) i d → lenN d < SEGMENT_FILE_HEADER_LEN →
  reads_as (w_fs w) (with_segment segment true false m (w, a)) (Ok (), (w_metrics w, a)).
Proof.
  intros Hnf Hfile Hlen. pose proof Hfile as (Hroot & He & Hd). unfold with_segment. unfold mbind at 1, M_bind at 1.
  unfold on_files, w_call, zoom. cbn [fst snd].
  erewrite fs_open_read_write_run; [|done|done]. unfold with_file_acc. cbn [fst snd w_fs w_metrics].
  set (io := mkIo (w_fs w) (w_metrics w) _).
  assert (Hdata : io_data io = d) by exact Hd.
  destruct (read_segment_header_run true false true io Hnf ltac:(done)) as (f' & Hf' & Hrun).
  rewrite Hdata in Hf', Hrun. unfold mbind, M_bind. rewrite on_io_run, Hrun.
  unfold header_result, header_fs. rewrite (proj2 (N.ltb_lt _ _)), andb_false_r by done. by eexists.
Qed.

Section segment_loops.
Context {A : Type} (H : log_handler A).
Hypothesis Hblind : blind H.

Lemma fold_log_blind log m m' a :
  (fold_log H log (m, a)).1 = (fold_log H log (m', a)).1 ∧
  (fold_log H log (m, a)).2.2 = (fold_log H log (m', a)).2.2.
Proof using Hblind.
  revert m m' a. induction log as [|[p body] log IH]; intros m m' a; [done|]. cbn [fold_log].
  destruct (Hblind p body m m' a) as [H1 H2].
  destruct (H p body (m, a)) as [r [m1 a1]], (H p body (m', a)) as [r' [m1' a1']]. cbn [fst snd] in *. subst r' a1'.
  destruct r; [apply IH|done].
Qed.

Lemma reads_as_metrics fs x log m m' a : reads_as fs x (fold_log H log (m, a)) → reads_as fs x (fold_log H log (m', a)).
Proof using Hblind.
  intros (m1 & ->). destruct (fold_log_blind log m m' a) as [-> ->]. by eexists.
Qed.

(** A step of a loop over segments, skipped or run on part of the segment. *)
Definition segment_step (fs : Fs) (step : SegmentPath → M (World * A) ()) (p : SegmentPath)
  (log : list (RecordPosition * list byte)) : Prop :=
  ∀ m a, reads_as fs (step p (mkWorld fs m, a)) (fold_log H log (m, a)).

Lemma for_each_segments fs step paths logs m a :
  Forall2 (segment_step fs step) paths logs →
  reads_as fs (for_each paths step (mkWorld fs m, a)) (fold_log H (concat logs) (m, a)).
Proof using Hblind.
  intros Hsteps. revert m a. induction Hsteps as [|p log paths logs Hp Hsteps IH]; intros m a; [by exists m|].
  cbn [for_each concat]. unfold mbind, M_bind. destruct (Hp m a) as (m1 & ->). rewrite fold_log_app. cbn [w_fs].
  destruct (fold_log H log (m, a)) as [[[]|e] [m' a']]; cbn [fst snd]; [|by exists m1].
  by apply (reads_as_metrics _ _ _ m1), IH.
Qed.
End segment_loops.

Lemma filter_all {X} (P : X → Prop) `{!∀ x, Decision (P x)} l : Forall P l → filter P l = l.
Proof.
  induction 1 as [|x l Hx Hl IH]; [done|]. rewrite filter_cons_True by done. by rewrite IH.
Qed.

Lemma filter_none {X} (P : X → Prop) `{!∀ x, Decision (P x)} l :
  Forall (λ x, ¬ P x) l → filter P l = [].
Proof.
  induction 1 as [|x l Hx Hl IH]; [done|]. by rewrite filter_cons_False.
Qed.

(** *** Offsets *)

Lemma with_offsets_lower off bodies r : r ∈ with_offsets off bodies → off ≤ r.1.
Proof.
  revert off. induction bodies as [|b bodies IH]; intros off; cbn [with_offsets].
  - by intros ?%elem_of_nil.
  - rewrite elem_of_cons. intros [->|Hr]; [done|]. apply IH in Hr. lia.
Qed.

Lemma with_offsets_upper off bodies r :
  r ∈ with_offsets off bodies → r.1 < off + lenN (frames_bytes bodies).
Proof.
  revert off. induction bodies as [|b bodies IH]; intros off; cbn [with_offsets].
  - by intros ?%elem_of_nil.
  - rewrite frames_bytes_cons, lenN_app, wire_frame_length, elem_of_cons.
    intros [->|Hr]; cbn [fst]; [lia|]. apply IH in Hr. lia.
Qed.

Lemma with_offsets_sorted off bodies : StronglySorted N.lt (with_offsets off bodies).*1.
Proof.
  revert off. induction bodies as [|b bodies IH]; intros off; cbn [with_offsets]; [constructor|].
  rewrite fmap_cons. constructor; [apply IH|]. rewrite list.Forall_forall. intros x Hx.
  apply list_elem_of_fmap in Hx as (r & -> & Hr). apply with_offsets_lower in Hr.
  rewrite wire_frame_length in Hr. cbn [fst]. lia.
Qed.

(** A position of a record splits its segment. *)
Lemma with_offsets_split off bodies r :
  r ∈ with_offsets off bodies →
  ∃ b1 b2, bodies = b1 ++ r.2 :: b2 ∧ r.1 = off + lenN (frames_bytes b1).
Proof.
  revert off. induction bodies as [|b bodies IH]; intros off; cbn [with_offsets].
  - by intros ?%elem_of_nil.
  - rewrite elem_of_cons. intros [->|Hr].
    + exists [], bodies. split; [done|]. change (lenN (frames_bytes [])) with 0. cbn [fst]. lia.
    + destruct (IH _ Hr) as (b1 & b2 & -> & Ho). exists (b :: b1), b2. split; [done|].
      rewrite Ho, frames_bytes_cons, lenN_app. lia.
Qed.

Lemma segment_log_segment seg r : r ∈ segment_log seg → position_segment r.1 = seg.1.
Proof. unfold segment_log. rewrite list_elem_of_fmap. by intros (x & -> & _). Qed.

(** The part of a segment from an offset on. *)
Lemma segment_log_from name b1 b2 :
  let start := mkRecordPosition name (4 + lenN (frames_bytes b1)) in
  log_from (Some start) (segment_log (name, b1 ++ b2)) =
  (λ r, (mkRecordPosition name r.1, r.2)) <$> with_offsets (4 + lenN (frames_bytes b1)) b2.
Proof.
  intros start. unfold log_from, segment_log. cbn [fst snd].
  change SEGMENT_FILE_HEADER_LEN with 4. rewrite with_offsets_app, fmap_app, list.filter_app.
  rewrite filter_none, filter_all; [done| |].
  - rewrite list.Forall_forall. intros x Hx. apply list_elem_of_fmap in Hx as (r & -> & Hr).
    apply with_offsets_lower in Hr. cbn [not_before fst]. rewrite bool_decide_eq_false_2; [done|].
    unfold record_position_lt, name_lt. cbn. intros [?|[_ ?]]; lia.
  - rewrite list.Forall_forall. intros x Hx. apply list_elem_of_fmap in Hx as (r & -> & Hr).
    apply with_offsets_upper in Hr. cbn [not_before fst]. rewrite bool_decide_eq_true_2; [done|].
    right. by split.
Qed.

(** Whole segments before or after a position. *)
Lemma segment_log_before start seg :
  name_lt seg.1 (position_segment start) → log_from (Some start) (segment_log seg) = [].
Proof.
  intros Hlt. apply filter_none. rewrite list.Forall_forall. intros r Hr.
  apply segment_log_segment in Hr. cbn [not_before]. rewrite bool_decide_eq_true_2; [done|].
  left. by rewrite Hr.
Qed.

Lemma segment_log_after start seg :
  name_lt (position_segment start) seg.1 →
  log_from (Some start) (segment_log seg) = segment_log seg.
Proof.
  intros Hlt. apply filter_all. rewrite list.Forall_forall. intros r Hr.
  apply segment_log_segment in Hr. cbn [not_before]. rewrite bool_decide_eq_false_2; [done|].
  unfold record_position_lt, name_lt in *. rewrite Hr. intros [?|[E _]]; [lia|]. rewrite E in Hlt. lia.
Qed.

Lemma log_from_None {R} (log : list (RecordPosition * R)) : log_from None log = log.
Proof. apply filter_all. rewrite list.Forall_forall. done. Qed.

Lemma log_from_concat {R} start (logs : list (list (RecordPosition * R))) :
  log_from start (concat logs) = concat (log_from start <$> logs).
Proof.
  induction logs as [|l logs IH]; [done|]. cbn [concat]. rewrite fmap_cons. cbn [concat].
  rewrite <-IH. apply list.filter_app.
Qed.

(** *** Order of positions *)

#[global] Instance record_position_lt_trans : Transitive record_position_lt.
Proof.
  intros [[a] o1] [[b] o2] [[c] o3]. unfold record_position_lt, name_lt. cbn.
  intros [?|[E1 ?]] [?|[E2 ?]].
  - left. lia.
  - left. injection E2 as <-. lia.
  - left. injection E1 as <-. lia.
  - right. split; [congruence|lia].
Qed.

Lemma record_position_lt_irrefl p : ¬ record_position_lt p p.
Proof. unfold record_position_lt, name_lt. intros [?|[_ ?]]; lia. Qed.

Lemma segment_log_sorted seg : StronglySorted record_position_lt (segment_log seg).*1.
Proof.
  unfold segment_log. pose proof (with_offsets_sorted SEGMENT_FILE_HEADER_LEN seg.2) as Hs.
  revert Hs. generalize (with_offsets SEGMENT_FILE_HEADER_LEN seg.2). intros l.
  induction l as [|r l IH]; [constructor|]. rewrite !fmap_cons. cbn [fst].
  intros [Hs Hr]%StronglySorted_inv. constructor; [by apply IH|].
  rewrite list.Forall_forall in Hr. rewrite list.Forall_forall. intros p Hp.
  apply list_elem_of_fmap in Hp as (x & -> & Hx). apply list_elem_of_fmap in Hx as (y & -> & Hy).
  right. split; [done|]. apply Hr, (list_elem_of_fmap_2 fst), Hy.
Qed.

Lemma log_of_sorted (segs : list segment_contents) :
  StronglySorted name_lt segs.*1 → StronglySorted record_position_lt (log_of segs).*1.
Proof.
  induction segs as [|seg segs IH]; [constructor|]. rewrite fmap_cons.
  intros [Hs Hseg]%StronglySorted_inv. unfold log_of. rewrite bind_cons, fmap_app.
  apply StronglySorted_app_2; [|apply segment_log_sorted|by apply IH].
  intros x y Hx Hy. apply list_elem_of_fmap in Hx as (r & -> & Hr), Hy as (r' & -> & Hr').
  apply list_elem_of_bind in Hr' as (seg' & Hr' & Hin).
  apply segment_log_segment in Hr, Hr'. left. rewrite Hr, Hr'.
  rewrite list.Forall_forall in Hseg. apply Hseg. by apply list_elem_of_fmap_2.
Qed.

Lemma segment_names_sorted fs (P : SegmentPath → segment_contents → Prop) segs :
  (∀ p seg, P p seg → path_name p = seg.1) → Forall2 P (segments_of fs) segs → StronglySorted name_lt segs.*1.
Proof.
  intros HP Hsegs. pose proof (segments_of_sorted fs) as Hs. revert Hs.
  induction Hsegs as [|p seg paths segs Hp%HP Hsegs IH]; [constructor|].
  intros [Hs Hall]%StronglySorted_inv. rewrite fmap_cons. constructor; [by apply IH|].
  clear IH Hs. revert Hall. induction Hsegs as [|q seg' paths segs Hq%HP Hsegs IH]; [constructor|].
  intros [Hpq Hall]%list.Forall_cons. rewrite fmap_cons. constructor; [|by apply IH].
  unfold path_lt in Hpq. by rewrite <-Hp, <-Hq.
Qed.

Lemma readable_dir_sorted fs active recover segs : readable_dir fs active recover segs → StronglySorted name_lt segs.*1.
Proof. intros (_ & _ & H). eapply segment_names_sorted; [|exact H]. by intros p seg (? & _). Qed.

Lemma clean_dir_sorted fs segs : clean_dir fs segs → StronglySorted name_lt segs.*1.
Proof. intros (_ & _ & H). eapply segment_names_sorted; [|exact H]. by intros p seg (? & _). Qed.

(** ** The handlers of the code as functions *)

Section handlers.
Context `{Noraft}.

Definition H_checkpoint (node_filter : option (gset N)) : log_handler (gmap N RecordPosition) :=
  λ p body s,
  match decode_record_node_id body with
  | Err e => (Err e, s)
  | Ok node_id =>
      if in_filter node_filter node_id then
        match decode_node_record body with
        | Err e => (Err e, s)
        | Ok nr => (Ok (), (s.1, if is_checkpoint (node_record nr) then <[node_id := p]> s.2 else s.2))
        end
      else (Ok (), s)
  end.

(** A record that is replayed: applied, then counted. *)
Definition apply_and_count {A} (apply : NodeRecord → M A ()) (body : list byte)
  (s : StorageMetrics * A) : result () * (StorageMetrics * A) :=
  match decode_node_record body with
  | Err e => (Err e, s)
  | Ok nr =>
      match apply nr s.2 with
      | (Err e, a) => (Err e, (s.1, a))
      | (Ok _, a) =>
          match frame_len_from_body body with
          | Err e => (Err e, (s.1, a))
          | Ok n => (Ok (), (record_replayed (metric_kind (node_record nr)) n s.1, a))
          end
      end
  end.

Definition H_replay (node_filter : option (gset N)) (checkpoints : gmap N RecordPosition)
  : log_handler (gmap N NodeState) := λ p body s,
  match decode_record_node_id body with
  | Err e => (Err e, s)
  | Ok node_id =>
      if in_filter node_filter node_id && not_before (checkpoints !! node_id) p
      then apply_and_count replay_apply body s else (Ok (), s)
  end.

Definition H_node (target : N) (checkpoint : option RecordPosition) : log_handler NodeState :=
  λ p body s,
  match decode_record_node_id body with
  | Err e => (Err e, s)
  | Ok node_id =>
      if (node_id =? target) && not_before checkpoint p
      then apply_and_count (λ nr, apply_record_to_state (node_record nr)) body s else (Ok (), s)
  end.

Lemma blind_checkpoint node_filter : blind (H_checkpoint node_filter).
Proof. intros p body m m' a. unfold H_checkpoint. by repeat case_match. Qed.

Lemma blind_apply {A} (apply : NodeRecord → M A ()) body m m' (a : A) :
  (apply_and_count apply body (m, a)).1 = (apply_and_count apply body (m', a)).1 ∧
  (apply_and_count apply body (m, a)).2.2 = (apply_and_count apply body (m', a)).2.2.
Proof. unfold apply_and_count. cbn [fst snd]. by repeat case_match. Qed.

Lemma blind_replay node_filter cps : blind (H_replay node_filter cps).
Proof.
  intros p body m m' a. unfold H_replay. destruct (decode_record_node_id body); [|done].
  destruct (_ && _); [apply blind_apply|done].
Qed.

Lemma blind_node target checkpoint : blind (H_node target checkpoint).
Proof.
  intros p body m m' a. unfold H_node. destruct (decode_record_node_id body); [|done].
  destruct (_ && _); [apply blind_apply|done].
Qed.

Lemma set_io_metrics_same io : set_io_metrics (io_metrics io) io = io.
Proof. by destruct io. Qed.

Lemma handle_checkpoint_handles name node_filter :
  handles (handle_checkpoint name node_filter) (at_segment (H_checkpoint node_filter) name).
Proof.
  intros off body io a _. unfold handle_checkpoint, at_segment, H_checkpoint, mbind, M_bind, lift_result.
  destruct (decode_record_node_id body) as [id|e]; cbn; [|by rewrite set_io_metrics_same].
  destruct (in_filter node_filter id); cbn; [|by rewrite set_io_metrics_same].
  destruct (decode_node_record body) as [nr|e]; cbn; [|by rewrite set_io_metrics_same].
  rewrite set_io_metrics_same. by destruct (is_checkpoint _).
Qed.

Lemma apply_and_count_handles {A} (apply : NodeRecord → M A ()) body io (a : A) :
  (nr ← lift_result (decode_node_record body);
   let record_kind := metric_kind (node_record nr) in
   on_acc (apply nr) ;;
   bytes ← lift_result (frame_len_from_body body);
   on_io (io_count (record_replayed record_kind bytes))) (io, a) =
  let '(r, (m, a')) := apply_and_count apply body (io_metrics io, a) in
  (r, (set_io_metrics m io, a')).
Proof.
  unfold apply_and_count, mbind, M_bind, lift_result.
  destruct (decode_node_record body) as [nr|e]; cbn; [|by rewrite set_io_metrics_same].
  rewrite on_acc_run. destruct (apply nr a) as [[[]|e] a'];
    [|by rewrite set_io_metrics_same].
  destruct (frame_len_from_body body) as [n|e]; [done|by rewrite set_io_metrics_same].
Qed.

Lemma not_before_match (checkpoint : option RecordPosition) p :
  match checkpoint with
  | Some checkpoint => bool_decide (record_position_lt p checkpoint)
  | None => false
  end = negb (not_before checkpoint p).
Proof. destruct checkpoint; [|done]. cbn. by rewrite negb_involutive. Qed.

Lemma handle_replay_handles name node_filter checkpoints :
  handles (handle_replay name node_filter checkpoints)
          (at_segment (H_replay node_filter checkpoints) name).
Proof.
  intros off body io a _. unfold handle_replay, at_segment, H_replay.
  unfold mbind at 1, M_bind at 1. unfold lift_result at 1.
  destruct (decode_record_node_id body) as [id|e]; [|by cbn; rewrite set_io_metrics_same].
  destruct (in_filter node_filter id); [|by cbn; rewrite set_io_metrics_same].
  cbv zeta. rewrite not_before_match. cbn [andb]. destruct (not_before _ _); cbn [negb].
  - apply apply_and_count_handles.
  - by cbn; rewrite set_io_metrics_same.
Qed.

Lemma handle_node_replay_handles name target checkpoint :
  handles (handle_node_replay name target checkpoint) (at_segment (H_node target checkpoint) name).
Proof.
  intros off body io a _. unfold handle_node_replay, at_segment, H_node.
  unfold mbind at 1, M_bind at 1. unfold lift_result at 1.
  destruct (decode_record_node_id body) as [id|e]; [|by cbn; rewrite set_io_metrics_same].
  destruct (id =? target); [|by cbn; rewrite set_io_metrics_same].
  cbv zeta. rewrite not_before_match. cbn [andb]. destruct (not_before _ _); cbn [negb].
  - apply (apply_and_count_handles (λ nr, apply_record_to_state (node_record nr))).
  - by cbn; rewrite set_io_metrics_same.
Qed.

(** ** The loops over segments *)

(** A starting position is the position of a record. *)
Definition start_in (start : option RecordPosition) (segs : list segment_contents) : Prop :=
  match start with
  | Some start => start ∈ (log_of segs).*1
  | None => True
  end.

Lemma log_of_elem segs p :
  p ∈ (log_of segs).*1 → ∃ seg, seg ∈ segs ∧ p ∈ (segment_log seg).*1.
Proof.
  intros Hp. apply list_elem_of_fmap in Hp as (r & -> & Hr).
  apply list_elem_of_bind in Hr as (seg & Hr & Hin). exists seg. split; [done|].
  by apply list_elem_of_fmap_2.
Qed.

Lemma names_unique (segs : list segment_contents) seg1 seg2 :
  StronglySorted name_lt segs.*1 → seg1 ∈ segs → seg2 ∈ segs → seg1.1 = seg2.1 → seg1 = seg2.
Proof.
  induction segs as [|seg segs IH]; [by intros _ ?%elem_of_nil|]. rewrite fmap_cons.
  intros [Hs Hall]%StronglySorted_inv. rewrite list.Forall_forall in Hall.
  assert (Hlt : ∀ seg', seg' ∈ segs → seg.1 ≠ seg'.1).
  { intros seg' Hin E. specialize (Hall _ (list_elem_of_fmap_2 fst _ _ Hin)).
    rewrite E in Hall. unfold name_lt in Hall. lia. }
  rewrite !elem_of_cons. intros [->|H1] [->|H2] E; [done| | |by apply IH].
  - by destruct (Hlt seg2).
  - by destruct (Hlt seg1).
Qed.

(** The records of the start's segment from the start on. *)
Lemma start_split segs seg start :
  StronglySorted name_lt segs.*1 → start_in (Some start) segs → seg ∈ segs →
  seg.1 = position_segment start →
  ∃ b1 b2, seg.2 = b1 ++ b2 ∧ start = mkRecordPosition seg.1 (4 + lenN (frames_bytes b1)).
Proof.
  intros Hs Hstart Hin E. apply log_of_elem in Hstart as (seg' & Hin' & Hp).
  apply list_elem_of_fmap in Hp as (r & -> & Hr).
  pose proof (segment_log_segment _ _ Hr) as Hr1.
  assert (seg' = seg) as -> by (eapply names_unique; eauto; congruence).
  unfold segment_log in Hr. apply list_elem_of_fmap in Hr as ([off body] & -> & Hr).
  apply with_offsets_split in Hr as (b1 & b2 & Hb & Ho). cbn [fst snd] in *.
  exists b1, (body :: b2). split; [done|]. by rewrite Ho.
Qed.

Lemma is_file_with_world w m name i d :
  is_file_with (w_fs (mkWorld (w_fs w) m)) name i d ↔ is_file_with (w_fs w) name i d.
Proof. done. Qed.

(** What is read of a segment: nothing of one with a torn header, or frames and
    a torn end that is left alone. *)
Lemma reads_segment_cases allow recover d bodies :
  bodies_fit bodies →
  d = segment_data bodies [] ∨ allow = true ∧ recover = false ∧ torn_data d bodies →
  (lenN d < SEGMENT_FILE_HEADER_LEN ∧ bodies = [] ∧ allow = true ∧ recover = false) ∨
  ∃ t, d = segment_data bodies t ∧ (t = [] ∨ allow = true ∧ recover = false ∧ frame_at t = FrameShort) ∧
       ∀ b1 b2, bodies = b1 ++ b2 → frames_parse (frames_bytes b2 ++ t) b2 t.
Proof.
  intros Hfit [->|(-> & -> & [[Hs E]|(t & -> & Ht & _)])].
  - right. exists []. split; [done|]. split; [by left|]. intros b1 b2 ->. apply Forall_app in Hfit as [_ Hfit].
    rewrite app_nil_r. by apply frames_parse_clean.
  - by left.
  - right. exists t. split; [done|]. split; [by right|]. intros b1 b2 ->. apply Forall_app in Hfit as [_ Hfit].
    split; [done|]. split; [done|]. intros b. by rewrite Ht.
Qed.

(** [scan_checkpoint_positions] on a segment. *)
Lemma scan_checkpoint_positions_step fs m p seg allow node_filter start recover a :
  no_faults fs → reads_segment fs allow recover p seg →
  (∀ s, start = Some s → seg.1 = position_segment s →
    ∃ b1 b2, seg.2 = b1 ++ b2 ∧ s = mkRecordPosition seg.1 (4 + lenN (frames_bytes b1))) →
  match start with Some s => ¬ name_lt seg.1 (position_segment s) | None => True end →
  reads_as fs (scan_checkpoint_positions p allow node_filter
    (match start with
     | Some s => if bool_decide (path_name p = position_segment s) then Some (position_offset s) else None
     | None => None
     end) recover (mkWorld fs m, a)) (fold_log (H_checkpoint node_filter) (log_from start (segment_log seg)) (m, a)).
Proof.
  intros Hnf (Hname & Hfit & i & d & Hfile & Hd) Hsplit Hafter.
  destruct seg as [name bodies]. cbn [fst snd] in *. subst name.
  (* the part of the segment that is read *)
  assert (∃ b1 b2, bodies = b1 ++ b2 ∧
     default 4 (match start with
       | Some s => if bool_decide (path_name p = position_segment s) then Some (position_offset s) else None
       | None => None end) = 4 + lenN (frames_bytes b1) ∧
     log_from start (segment_log (path_name p, bodies)) =
       (λ r, (mkRecordPosition (path_name p) r.1, r.2)) <$> with_offsets (4 + lenN (frames_bytes b1)) b2)
    as (b1 & b2 & -> & Hoff & Hlog).
  { destruct start as [s|].
    - case_bool_decide as E.
      + destruct (Hsplit s eq_refl E) as (b1 & b2 & -> & ->). exists b1, b2.
        split; [done|]. split; [done|]. apply segment_log_from.
      + exists [], bodies. split; [done|]. split; [done|]. apply segment_log_after.
        unfold name_lt in *. cbn [fst]. destruct (path_name p), (position_segment s). cbn in *.
        assert (segment_id ≠ segment_id0) by congruence. lia.
    - exists [], bodies. split; [done|]. split; [done|]. apply log_from_None. }
  destruct (reads_segment_cases allow recover d (b1 ++ b2) Hfit Hd) as [(Hs & E & -> & ->)|(t & -> & Ht & Hp)].
  - apply app_eq_nil in E as [-> ->]. rewrite Hlog. cbn [with_offsets fmap list_fmap fold_log].
    unfold scan_checkpoint_positions. by eapply (with_segment_short _ p (mkWorld fs m)).
  - unfold scan_checkpoint_positions. change SEGMENT_FILE_HEADER_LEN with 4. rewrite Hoff.
    erewrite with_segment_open by done.
    rewrite (proj2 (N.ltb_ge (4 + _) 4)) by lia.
    rewrite (proj2 (N.ltb_ge _ (4 + _))) by (rewrite segment_data_length, frames_bytes_app, lenN_app; lia).
    pose proof (with_segment_from (handle_checkpoint (path_name p) node_filter) _
      (handle_checkpoint_handles _ _) p allow recover (mkWorld fs m) a i b1 b2 t Hnf Hfile (Hp b1 b2 eq_refl)) as Hrun.
    erewrite with_segment_open in Hrun by done. rewrite Hrun.
    rewrite Hlog, <-fold_records_at. by apply records_run_reads.
Qed.

(** ** Decoded logs *)

(** Every record of the log decodes. *)
Definition log_decodes (log : list (RecordPosition * list byte)) (nlog : list (RecordPosition * NodeRecord)) : Prop :=
  Forall2 (λ r nr, r.1 = nr.1 ∧ lenN r.2 ≤ MAX_RECORD_BODY_LEN ∧ decode_node_record r.2 = Ok nr.2)
          log nlog.

(** The records of a node, in order. *)
Definition node_history (n : N) (nlog : list (RecordPosition * NodeRecord)) : list SegmentRecord :=
  (λ r, node_record r.2) <$> filter (λ r, record_node_id r.2 = n) nlog.

(** The records of a node that replay does not skip. *)
Definition node_records (n : N) (checkpoint : option RecordPosition) (nlog : list (RecordPosition * NodeRecord))
  : list SegmentRecord := node_history n (log_from checkpoint nlog).

(** The position of the last checkpoint of a node. *)
Fixpoint last_checkpoint (n : N) (nlog : list (RecordPosition * NodeRecord)) : option RecordPosition :=
  match nlog with
  | [] => None
  | (p, nr) :: nlog =>
      match last_checkpoint n nlog with
      | Some q => Some q
      | None =>
          if (record_node_id nr =? n) && is_checkpoint (node_record nr) then Some p else None
      end
  end.

(** What is left of a history after dropping what the last checkpoint supersedes. *)
Fixpoint since_checkpoint (rs : list SegmentRecord) : list SegmentRecord :=
  match rs with
  | [] => []
  | r :: rest => if existsb is_checkpoint rest then since_checkpoint rest else r :: rest
  end.

Definition checkpoint_step (node_filter : option (gset N)) (acc : gmap N RecordPosition)
  (r : RecordPosition * NodeRecord) : gmap N RecordPosition :=
  if in_filter node_filter (record_node_id r.2) && is_checkpoint (node_record r.2)
  then <[record_node_id r.2 := r.1]> acc else acc.

Lemma decode_record_node_id_of body nr :
  decode_node_record body = Ok nr → decode_record_node_id body = Ok (record_node_id nr).
Proof.
  unfold decode_node_record, decode_record_node_id. intros Hd.
  destruct ((node_id ← decode_node_id; record ← decode_record; decoder_finish ;;
             mret (mkNodeRecord node_id record)) (decoder_new body)) as [r d] eqn:E.
  cbn [fst] in Hd. subst r. apply bind_ok_inv in E as (id & d1 & E1 & E).
  apply bind_ok_inv in E as (rec & d2 & _ & E). apply bind_ok_inv in E as (? & d3 & _ & E).
  injection E as <- <-. by rewrite E1.
Qed.

Lemma log_decodes_from start log nlog :
  log_decodes log nlog → log_decodes (log_from start log) (log_from start nlog).
Proof.
  induction 1 as [|r nr log nlog Hr Hlog IH]; [constructor|].
  destruct Hr as (E & Hr). unfold log_from. rewrite !filter_cons, E.
  case_decide; [|exact IH]. constructor; [done|exact IH].
Qed.

Lemma log_decodes_fst log nlog : log_decodes log nlog → log.*1 = nlog.*1.
Proof.
  induction 1 as [|r nr log nlog [E _] Hlog IH]; [done|]. rewrite !fmap_cons. congruence.
Qed.

Lemma frame_len_from_body_fits body :
  lenN body ≤ MAX_RECORD_BODY_LEN → frame_len_from_body body = Ok (8 + lenN body).
Proof.
  intros Hb. unfold frame_len_from_body, u64_try_from. change SEGMENT_RECORD_HEADER_LEN with 8.
  assert (MAX_RECORD_BODY_LEN + 8 < U64_LIMIT) by done. by rewrite (proj2 (N.ltb_lt _ _)) by lia.
Qed.

(** Collecting checkpoints never fails on a log that decodes. *)
Lemma fold_checkpoints node_filter log nlog m a :
  log_decodes log nlog →
  fold_log (H_checkpoint node_filter) log (m, a) =
  (Ok (), (m, foldl (checkpoint_step node_filter) a nlog)).
Proof.
  intros Hd. revert a. induction Hd as [|[p body] [q nr] log nlog Hr Hlog IH]; intros a; [done|].
  destruct Hr as (E & _ & Hdec). cbn [fst snd] in *. subst q. cbn [fold_log foldl].
  unfold H_checkpoint at 1. rewrite (decode_record_node_id_of _ _ Hdec), Hdec.
  unfold checkpoint_step at 2. cbn [fst snd]. destruct (in_filter _ _); cbn [andb]; [|apply IH].
  apply IH.
Qed.

Lemma foldl_checkpoint_lookup node_filter nlog a n :
  in_filter node_filter n = true →
  foldl (checkpoint_step node_filter) a nlog !! n =
  match last_checkpoint n nlog with Some p => Some p | None => a !! n end.
Proof.
  intros Hn. revert a. induction nlog as [|[p nr] nlog IH]; intros a; [done|].
  cbn [foldl last_checkpoint]. rewrite IH. destruct (last_checkpoint n nlog); [done|].
  unfold checkpoint_step. cbn [fst snd].
  destruct (N.eqb_spec (record_node_id nr) n) as [->|Hne].
  - rewrite Hn. cbn [andb]. destruct (is_checkpoint _); [by rewrite lookup_insert_eq|done].
  - cbn [andb]. destruct (_ && _); [by rewrite lookup_insert_ne|done].
Qed.

(** Replaying one node applies its records. *)
Lemma fold_node n checkpoint log nlog m st :
  log_decodes log nlog →
  ∃ m', fold_log (H_node n checkpoint) log (m, st) =
    let '(r, st') := apply_records (node_records n checkpoint nlog) st in (r, (m', st')).
Proof.
  intros Hd. revert m st. induction Hd as [|[p body] [q nr] log nlog Hr Hlog IH]; intros m st.
  { by exists m. }
  destruct Hr as (E & Hb & Hdec). cbn [fst snd] in *. subst q. cbn [fold_log].
  unfold H_node at 1. rewrite (decode_record_node_id_of _ _ Hdec).
  unfold node_records, log_from, node_history. rewrite filter_cons. cbn [fst].
  destruct (not_before checkpoint p) eqn:Enb; cbn [andb].
  2:{ rewrite andb_false_r, decide_False by done. apply IH. }
  rewrite decide_True, filter_cons, andb_true_r by done. cbn [snd].
  destruct (N.eqb_spec (record_node_id nr) n) as [->|Hne].
  2:{ rewrite decide_False by done. apply IH. }
  rewrite decide_True by done. rewrite fmap_cons. cbn [apply_records snd].
  unfold apply_and_count. rewrite Hdec. cbn [fst snd]. unfold mbind, M_bind.
  destruct (apply_record_to_state (node_record nr) st) as [[[]|e] st'].
  - rewrite frame_len_from_body_fits by done. apply IH.
  - by exists m.
Qed.

(** *** The last checkpoint of a sorted log *)

Lemma last_checkpoint_elem n nlog p :
  last_checkpoint n nlog = Some p → ∃ c, (p, mkNodeRecord n (RecordSnapshotCheckpoint c)) ∈ nlog.
Proof.
  induction nlog as [|[q nr] nlog IH]; [done|]. cbn [last_checkpoint].
  destruct (last_checkpoint n nlog) as [p'|] eqn:E.
  - intros [= ->]. destruct (IH eq_refl) as [c Hc]. exists c. by right.
  - destruct (N.eqb_spec (record_node_id nr) n) as [<-|]; [|done]. cbn [andb].
    destruct nr as [id [| | |c]]; try done. intros [= ->]. exists c. by left.
Qed.

Lemma last_checkpoint_app n l1 l2 :
  last_checkpoint n (l1 ++ l2) =
  match last_checkpoint n l2 with Some p => Some p | None => last_checkpoint n l1 end.
Proof.
  induction l1 as [|[p nr] l1 IH]; [cbn [app last_checkpoint]; by destruct (last_checkpoint n l2)|].
  cbn [app last_checkpoint]. rewrite IH. by destruct (last_checkpoint n l2).
Qed.

Lemma last_checkpoint_exists n nlog :
  existsb is_checkpoint (node_history n nlog) = true ↔ is_Some (last_checkpoint n nlog).
Proof.
  unfold node_history. induction nlog as [|[p nr] nlog IH]; [by split; [|intros []]|].
  rewrite filter_cons. cbn [last_checkpoint snd].
  destruct (last_checkpoint n nlog) as [q|].
  - case_decide; [|exact IH]. rewrite fmap_cons. cbn [existsb].
    rewrite orb_true_iff, IH. split; eauto.
  - destruct (N.eqb_spec (record_node_id nr) n) as [E|E];
      [rewrite decide_True by done|rewrite decide_False by done]; cbn [andb].
    + rewrite fmap_cons. cbn [existsb snd]. rewrite orb_true_iff.
      destruct (is_checkpoint (node_record nr)); [by split; eauto|].
      split; [intros [?|?]; [done|by apply IH]|by intros []].
    + exact IH.
Qed.

Lemma log_from_app {R} start (l1 l2 : list (RecordPosition * R)) :
  log_from start (l1 ++ l2) = log_from start l1 ++ log_from start l2.
Proof. apply list.filter_app. Qed.

(** Nothing of a sorted log from its first position on is left out. *)
Lemma log_from_sorted_cons {R} p (x : R) log :
  StronglySorted record_position_lt ((p, x) :: log).*1 →
  log_from (Some p) ((p, x) :: log) = (p, x) :: log.
Proof.
  rewrite fmap_cons. intros [_ Hall]%StronglySorted_inv. apply filter_all. constructor.
  - cbn. rewrite bool_decide_eq_false_2; [done|]. apply record_position_lt_irrefl.
  - rewrite list.Forall_forall. rewrite list.Forall_forall in Hall. intros r Hr. cbn [not_before].
    rewrite bool_decide_eq_false_2; [done|]. intros Hlt.
    apply (record_position_lt_irrefl p). etrans; [|exact Hlt].
    apply Hall. by apply list_elem_of_fmap_2.
Qed.

Lemma log_from_split {R} p (x : R) l1 l2 :
  StronglySorted record_position_lt (l1 ++ (p, x) :: l2).*1 →
  log_from (Some p) (l1 ++ (p, x) :: l2) = (p, x) :: l2.
Proof.
  intros Hs. rewrite fmap_app in Hs. rewrite log_from_app.
  assert (Hl1 : log_from (Some p) l1 = []).
  { apply filter_none. rewrite list.Forall_forall. intros r Hr. cbn [not_before].
    rewrite bool_decide_eq_true_2; [done|].
    eapply (StronglySorted_app_1_elem_of record_position_lt); [exact Hs| |by left].
    by apply list_elem_of_fmap_2. }
  rewrite Hl1. apply log_from_sorted_cons.
  by apply StronglySorted_app_1_r in Hs.
Qed.

Lemma since_checkpoint_none rs : existsb is_checkpoint rs = false → since_checkpoint rs = rs.
Proof. destruct rs as [|r rs]; [done|]. cbn. intros [_ ->]%orb_false_iff. done. Qed.

Lemma log_sorted_inv {R} p (x : R) log :
  StronglySorted record_position_lt ((p, x) :: log).*1 →
  StronglySorted record_position_lt log.*1 ∧ ∀ r, r ∈ log → record_position_lt p r.1.
Proof.
  rewrite fmap_cons. intros [Hs Hall]%StronglySorted_inv. split; [done|].
  rewrite list.Forall_forall in Hall. intros r Hr. apply Hall. by apply list_elem_of_fmap_2.
Qed.

(** The records from the last checkpoint on are the history since it. *)
Lemma node_records_since n nlog :
  StronglySorted record_position_lt nlog.*1 →
  node_records n (last_checkpoint n nlog) nlog = since_checkpoint (node_history n nlog).
Proof.
  induction nlog as [|[p nr] nlog IH]; intros Hs; [done|].
  pose proof (log_sorted_inv _ _ _ Hs) as [Hs' Hlt]. specialize (IH Hs').
  assert (Hex := last_checkpoint_exists n nlog). cbn [last_checkpoint].
  unfold node_history at 1. rewrite filter_cons. cbn [snd].
  destruct (last_checkpoint n nlog) as [q|] eqn:E.
  - assert (Hpq : record_position_lt p q).
    { apply last_checkpoint_elem in E as [c Hc]. by apply Hlt in Hc. }
    assert (Hnr : node_records n (Some q) ((p, nr) :: nlog) = node_records n (Some q) nlog).
    { unfold node_records, log_from. rewrite filter_cons_False; [done|].
      cbn. by rewrite bool_decide_eq_true_2. }
    rewrite Hnr, IH. case_decide; [|done]. rewrite fmap_cons. cbn [since_checkpoint].
    fold (node_history n nlog). by rewrite (proj2 Hex) by eauto.
  - assert (Hnone : existsb is_checkpoint (node_history n nlog) = false).
    { destruct (existsb _ _); [|done]. destruct (proj1 Hex eq_refl). done. }
    assert (Hall : ∀ cp, (cp = None ∨ cp = Some p) →
      node_records n cp ((p, nr) :: nlog) = node_history n ((p, nr) :: nlog)).
    { intros cp [->| ->]; unfold node_records; [by rewrite log_from_None|by rewrite log_from_sorted_cons]. }
    rewrite Hall by (destruct (_ && _); auto). unfold node_history at 1. rewrite filter_cons. cbn [snd].
    case_decide.
    + rewrite fmap_cons. cbn [since_checkpoint]. fold (node_history n nlog). by rewrite Hnone.
    + fold (node_history n nlog). by rewrite since_checkpoint_none.
Qed.

Lemma not_before_trans start p q :
  not_before start p = true → record_position_lt p q → not_before start q = true.
Proof.
  destruct start as [s|]; [|done]. cbn. rewrite !negb_true_iff, !bool_decide_eq_false.
  intros Hp Hpq Hq. apply Hp. by etrans.
Qed.

(** A search from a position that does not miss a checkpoint of the node
    finds the last one. *)
Lemma last_checkpoint_from n start nlog p c :
  StronglySorted record_position_lt nlog.*1 →
  (p, mkNodeRecord n (RecordSnapshotCheckpoint c)) ∈ nlog → not_before start p = true →
  last_checkpoint n (log_from start nlog) = last_checkpoint n nlog ∧
  ∃ q, last_checkpoint n nlog = Some q ∧ not_before start q = true.
Proof.
  intros Hs Hin Hp. induction nlog as [|[p0 nr] nlog IH]; [by apply elem_of_nil in Hin|].
  pose proof (log_sorted_inv _ _ _ Hs) as [Hs' Hlt].
  destruct (not_before start p0) eqn:E0.
  - assert (log_from start ((p0, nr) :: nlog) = (p0, nr) :: nlog) as ->.
    { apply filter_all. constructor; [done|]. rewrite list.Forall_forall. intros r Hr.
      apply (not_before_trans start p0); [done|by apply Hlt]. }
    split; [done|]. destruct (last_checkpoint n ((p0, nr) :: nlog)) as [q|] eqn:E.
    + exists q. split; [done|]. apply last_checkpoint_elem in E as [c' Hq].
      apply elem_of_cons in Hq as [[= -> _]|Hq]; [done|].
      apply (not_before_trans start p0); [done|]. by apply Hlt in Hq.
    + exfalso. assert (Hex : is_Some (last_checkpoint n ((p0, nr) :: nlog))); [|rewrite E in Hex; by destruct Hex].
      apply last_checkpoint_exists. unfold node_history. apply existsb_exists.
      exists (RecordSnapshotCheckpoint c). split; [|done].
      apply list_elem_of_In, list_elem_of_fmap. exists (p, mkNodeRecord n (RecordSnapshotCheckpoint c)).
      split; [done|]. by apply list_elem_of_filter.
  - apply elem_of_cons in Hin as [[= <- <-]|Hin]; [congruence|].
    destruct (IH Hs' Hin) as (Heq & q & Hq & Hqb).
    unfold log_from. rewrite filter_cons_False by (cbn [fst]; congruence). fold (log_from start nlog).
    cbn [last_checkpoint]. rewrite Heq, Hq. split; [done|]. by exists q.
Qed.

(** ** The searches and replays of a clean directory *)

(** The records of the segments that a loop does not skip. *)
Definition log_skip {R} (skip : SegmentName → bool) (log : list (RecordPosition * R))
  : list (RecordPosition * R) :=
  filter (λ r, skip (position_segment r.1) = false) log.

Lemma log_decodes_skip skip log nlog :
  log_decodes log nlog → log_decodes (log_skip skip log) (log_skip skip nlog).
Proof.
  induction 1 as [|r nr log nlog Hr Hlog IH]; [constructor|].
  destruct Hr as (E & Hr). unfold log_skip. rewrite !filter_cons, E.
  case_decide; [|exact IH]. constructor; [done|exact IH].
Qed.

Lemma log_skip_segments skip segs :
  log_skip skip (log_of segs) =
  concat ((λ seg : segment_contents, if skip seg.1 then [] else segment_log seg) <$> segs).
Proof.
  induction segs as [|seg segs IH]; [done|]. unfold log_of. rewrite bind_cons, fmap_cons.
  cbn [concat]. rewrite <-IH. unfold log_skip. rewrite list.filter_app. f_equal.
  destruct (skip seg.1) eqn:E; [apply filter_none|apply filter_all];
    rewrite list.Forall_forall; intros r Hr; apply segment_log_segment in Hr; rewrite Hr; congruence.
Qed.

Lemma log_from_skip {R} skip start (log : list (RecordPosition * R)) :
  (∀ p, skip (position_segment p) = true → not_before start p = false) →
  log_from start (log_skip skip log) = log_from start log.
Proof.
  intros Hskip. unfold log_from, log_skip. rewrite list_filter_filter. apply list_filter_iff.
  intros [p x]. cbn [fst]. split; [tauto|]. intros Hp. split; [done|].
  destruct (skip (position_segment p)) eqn:E; [|done]. apply Hskip in E. congruence.
Qed.

Lemma with_local_run {A} fs m (a : A) (f : M (World * A) ()) r m1 a' :
  reads_as fs (f (mkWorld fs m, a)) (r, (m1, a')) →
  ∃ m', with_local a f (mkWorld fs m) = (match r with Ok _ => Ok a' | Err e => Err e end, mkWorld fs m').
Proof. unfold with_local. intros (m' & ->). exists m'. by destruct r. Qed.

Lemma log_start_elem segs start :
  start_in start segs → match start with Some s => s ∈ (log_of segs).*1 | None => True end.
Proof. by destruct start. Qed.

Lemma find_checkpoint_positions_from_run fs m segs nlog active node_filter start recover :
  readable_dir fs active recover segs → log_decodes (log_of segs) nlog → start_in start segs →
  ∃ m', find_checkpoint_positions_from active node_filter start recover (mkWorld fs m) =
    (Ok (foldl (checkpoint_step node_filter) ∅ (log_from start nlog)), mkWorld fs m').
Proof.
  intros Hread Hdec Hstart. pose proof (readable_dir_sorted _ _ _ _ Hread) as Hsorted.
  destruct Hread as (Hnf & Hroot & Hsegs).
  unfold find_checkpoint_positions_from.
  rewrite (bind_ok _ _ _ _ _ (discover_segment_paths_run (mkWorld fs m) Hnf Hroot)).
  cbv zeta beta. cbn [w_fs].
  apply (with_local_run fs m ∅ _ (Ok ()) m).
  rewrite <-(fold_checkpoints node_filter (log_from start (log_of segs)) _ m ∅) by by apply log_decodes_from.
  assert (log_from start (log_of segs) = concat (log_from start <$> (segment_log <$> segs))) as ->.
  { rewrite <-log_from_concat. f_equal. clear. induction segs as [|seg segs IH]; [done|].
    unfold log_of. rewrite bind_cons, fmap_cons. cbn [concat]. by rewrite <-IH. }
  apply (for_each_segments (H_checkpoint node_filter) (blind_checkpoint node_filter) fs).
  assert (Hin : ∀ seg, seg ∈ segs → ∀ s, start = Some s → seg.1 = position_segment s →
    ∃ b1 b2, seg.2 = b1 ++ b2 ∧ s = mkRecordPosition seg.1 (4 + lenN (frames_bytes b1))).
  { intros seg Hseg s -> E. by eapply start_split. }
  revert Hin. clear Hstart Hsorted Hdec. revert Hsegs. generalize (replay_active_segment (segments_of fs) active recover).
  intros active' Hsegs. induction Hsegs as [|p seg paths segs Hp Hsegs IH]; intros Hin; [constructor|].
  rewrite !fmap_cons. constructor; [|apply IH; intros seg' Hs'; apply Hin; by right].
  intros m0 a. cbn beta. pose proof Hp as (Hname & _).
  revert Hp. generalize (bool_decide (path_name p = active')). intros allow Hp. destruct start as [s|].
  - case_bool_decide as Hlt.
    + rewrite Hname in Hlt. rewrite segment_log_before by done. by exists m0.
    + apply (scan_checkpoint_positions_step _ _ _ seg _ _ (Some s)); [done|exact Hp| |by rewrite <-Hname].
      apply Hin. by left.
  - by apply (scan_checkpoint_positions_step _ _ _ seg _ _ None).
Qed.

(** A loop that replays whole segments, some of them skipped. *)
Lemma for_each_replay {A} (handle : SegmentName → N → list byte → M (Io * A) ()) (hl : log_handler A)
    (skip : SegmentName → bool) active recover fs m segs (a : A) :
  (∀ name, handles (handle name) (at_segment hl name)) → blind hl →
  readable_dir fs active recover segs →
  reads_as fs (for_each (segments_of fs) (λ p,
    if skip (path_name p) then mret ()
    else with_segment p (bool_decide (path_name p = replay_active_segment (segments_of fs) active recover)) recover
           (λ len, read_records (bool_decide (path_name p = replay_active_segment (segments_of fs) active recover))
                     recover len (handle (path_name p)))) (mkWorld fs m, a))
  (fold_log hl (log_skip skip (log_of segs)) (m, a)).
Proof.
  intros Hh Hblind (Hnf & Hroot & Hsegs). rewrite log_skip_segments.
  apply (for_each_segments hl Hblind fs). revert Hsegs. generalize (replay_active_segment (segments_of fs) active recover).
  intros active' Hsegs. induction Hsegs as [|p seg paths segs Hp Hsegs IH]; [constructor|].
  rewrite fmap_cons. constructor; [|exact IH]. intros m0 a0. cbn beta.
  destruct Hp as (Hname & Hfit & i & d & Hfile & Hd). destruct seg as [name bodies]. cbn [fst snd] in *.
  subst name. destruct (skip (path_name p)); [by exists m0|]. cbv iota. revert Hd.
  generalize (bool_decide (path_name p = active')). intros allow Hd.
  destruct (reads_segment_cases allow recover d bodies Hfit Hd) as [(Hs & -> & -> & ->)|(t & -> & Ht & Hp)].
  - by eapply (with_segment_short _ p (mkWorld fs m0)).
  - rewrite (with_segment_all (handle (path_name p)) _ (Hh _) p allow recover (mkWorld fs m0) a0 i bodies t)
      by (try done; by apply (Hp [])).
    unfold segment_log. cbn [fst snd]. rewrite <-fold_records_at. by apply records_run_reads.
Qed.

(** What replaying a history from the initial state gives. *)
Definition replayed (rs : list SegmentRecord) : result NodeState :=
  match apply_records rs node_state_default with
  | (Ok _, s) => Ok s
  | (Err e, _) => Err e
  end.

(** The checkpoint hint of a node is the position of one of its checkpoints. *)
Definition hint_ok (n : N) (hint : option RecordPosition) (nlog : list (RecordPosition * NodeRecord))
  : Prop :=
  match hint with
  | Some p => ∃ c, (p, mkNodeRecord n (RecordSnapshotCheckpoint c)) ∈ nlog
  | None => True
  end.

Lemma hint_start n hint segs nlog :
  log_decodes (log_of segs) nlog → hint_ok n hint nlog → start_in hint segs.
Proof.
  intros Hdec. destruct hint as [p|]; [|done]. intros [c Hc]. cbn [start_in].
  rewrite (log_decodes_fst _ _ Hdec). apply list_elem_of_fmap.
  eexists. split; [|exact Hc]. done.
Qed.

Lemma hint_last_checkpoint n hint nlog :
  StronglySorted record_position_lt nlog.*1 → hint_ok n hint nlog →
  last_checkpoint n (log_from hint nlog) = last_checkpoint n nlog.
Proof.
  intros Hs. destruct hint as [p|]; [|by rewrite log_from_None]. intros [c Hc].
  apply (last_checkpoint_from n (Some p) nlog p c); [done|done|].
  cbn. rewrite bool_decide_eq_false_2; [done|]. apply record_position_lt_irrefl.
Qed.

Lemma not_before_segment cp p :
  match cp with
  | Some cp => bool_decide (name_lt (position_segment p) (position_segment cp))
  | None => false
  end = true → not_before cp p = false.
Proof.
  destruct cp as [cp|]; [|done]. rewrite bool_decide_eq_true. intros Hlt. cbn.
  rewrite bool_decide_eq_true_2; [done|]. by left.
Qed.

Lemma readable_log_sorted fs active recover segs nlog :
  readable_dir fs active recover segs → log_decodes (log_of segs) nlog → StronglySorted record_position_lt nlog.*1.
Proof.
  intros Hread Hdec. rewrite <-(log_decodes_fst _ _ Hdec). by eapply log_of_sorted, readable_dir_sorted.
Qed.

Lemma clean_log_sorted fs segs nlog :
  clean_dir fs segs → log_decodes (log_of segs) nlog → StronglySorted record_position_lt nlog.*1.
Proof. intros Hc. apply (readable_log_sorted fs first_append true). by apply clean_readable. Qed.

Lemma replay_node_state_run fs m segs nlog active n hint recover :
  readable_dir fs active recover segs → log_decodes (log_of segs) nlog → hint_ok n hint nlog →
  ∃ m', replay_node_state active n hint recover (mkWorld fs m) =
        (replayed (since_checkpoint (node_history n nlog)), mkWorld fs m').
Proof.
  intros Hread Hdec Hhint. pose proof (readable_log_sorted _ _ _ _ _ Hread Hdec) as Hs.
  unfold replay_node_state. cbv zeta.
  destruct (find_checkpoint_positions_from_run fs m segs nlog active (Some {[n]}) hint
    recover Hread Hdec (hint_start _ _ _ _ Hdec Hhint)) as [m1 Hfind].
  rewrite (bind_ok _ _ _ _ _ Hfind). cbv beta. clear Hfind m. rename m1 into m.
  rewrite foldl_checkpoint_lookup by (cbn; rewrite bool_decide_eq_true_2; [done|set_solver]).
  rewrite hint_last_checkpoint by done.
  assert (Hlk : (match last_checkpoint n nlog with Some p => Some p | None => (∅ : gmap N RecordPosition) !! n end)
                = last_checkpoint n nlog) by (by destruct (last_checkpoint n nlog)).
  rewrite Hlk. clear Hlk.
  pose proof Hread as (Hnf & Hroot & _).
  rewrite (bind_ok _ _ _ _ _ (discover_segment_paths_run (mkWorld fs m) Hnf Hroot)). cbv beta. cbn [w_fs].
  set (cp := last_checkpoint n nlog).
  set (skip := λ name, match cp with
    | Some checkpoint => bool_decide (name_lt name (position_segment checkpoint)) | None => false end).
  destruct (fold_node n cp _ _ m node_state_default (log_decodes_skip skip _ _ Hdec)) as [m' Hfold].
  pose proof (for_each_replay (λ name, handle_node_replay name n cp) (H_node n cp) skip active recover
    fs m segs node_state_default (λ name, handle_node_replay_handles name n cp) (blind_node n cp) Hread) as Hrun.
  rewrite Hfold in Hrun. unfold node_records in Hrun.
  rewrite log_from_skip in Hrun by (intros p; apply not_before_segment).
  fold (node_records n cp nlog) in Hrun. unfold cp in Hrun. rewrite node_records_since in Hrun by done.
  fold cp in Hrun. unfold replayed.
  destruct (apply_records (since_checkpoint (node_history n nlog)) node_state_default) as [r st].
  destruct (with_local_run _ _ _ _ _ _ _ Hrun) as [m2 Hrun']. exists m2. etrans; [exact Hrun'|]. by destruct r.
Qed.

Lemma node_records_cons n cp p nr nlog :
  node_records n cp ((p, nr) :: nlog) =
  (if not_before cp p && (record_node_id nr =? n) then [node_record nr] else []) ++ node_records n cp nlog.
Proof.
  unfold node_records, log_from, node_history. rewrite filter_cons. cbn [fst].
  destruct (not_before cp p); cbn [andb].
  - rewrite decide_True, filter_cons by done. cbn [snd].
    destruct (N.eqb_spec (record_node_id nr) n).
    + rewrite decide_True by done. by rewrite fmap_cons.
    + by rewrite decide_False by done.
  - by rewrite decide_False by done.
Qed.

(** The states of the nodes after a replay, or the first error. *)
Definition replays_nodes (node_filter : option (gset N)) (records : N → list SegmentRecord)
  (nodes : gmap N NodeState) (r : result ()) (nodes' : gmap N NodeState) : Prop :=
  match r with
  | Ok _ => ∀ n, in_filter node_filter n = true →
      apply_records (records n) (default node_state_default (nodes !! n)) =
        (Ok (), default node_state_default (nodes' !! n))
  | Err e => ∃ n, in_filter node_filter n = true ∧
      (apply_records (records n) (default node_state_default (nodes !! n))).1 = Err e
  end.

Lemma fold_replay node_filter cps log nlog m nodes :
  log_decodes log nlog →
  ∃ r m' nodes', fold_log (H_replay node_filter cps) log (m, nodes) = (r, (m', nodes')) ∧
    replays_nodes node_filter (λ n, node_records n (cps !! n) nlog) nodes r nodes'.
Proof.
  intros Hd. revert m nodes. induction Hd as [|[p body] [q nr] log nlog Hr Hlog IH]; intros m nodes.
  { exists (Ok ()), m, nodes. by split. }
  destruct Hr as (E & Hb & Hdec). cbn [fst snd] in *. subst q. cbn [fold_log].
  unfold H_replay at 1. rewrite (decode_record_node_id_of _ _ Hdec).
  set (id := record_node_id nr).
  destruct (in_filter node_filter id && not_before (cps !! id) p) eqn:Eapp.
  - apply andb_true_iff in Eapp as [Efil Enb].
    unfold apply_and_count. rewrite Hdec. cbn [fst snd]. unfold replay_apply. fold id.
    destruct (apply_record_to_state (node_record nr) (default node_state_default (nodes !! id)))
      as [[[]|e] st] eqn:Est.
    + rewrite frame_len_from_body_fits by done.
      destruct (IH (record_replayed (metric_kind (node_record nr)) (8 + lenN body) m)
                   (<[id := st]> nodes)) as (r & m' & nodes' & -> & Hrep).
      exists r, m', nodes'. split; [done|].
      assert (Hstep : ∀ n, apply_records (node_records n (cps !! n) ((p, nr) :: nlog))
                             (default node_state_default (nodes !! n)) =
                           apply_records (node_records n (cps !! n) nlog)
                             (default node_state_default (<[id := st]> nodes !! n))).
      { intros n. rewrite node_records_cons, apply_records_app. fold id.
        destruct (N.eqb_spec id n) as [<-|Hne].
        - rewrite Enb, lookup_insert_eq. cbn [andb default apply_records].
          unfold mbind, M_bind. by rewrite Est.
        - rewrite andb_false_r, lookup_insert_ne by done. done. }
      destruct r as [[]|e]; unfold replays_nodes in *.
      * intros n Hn. rewrite Hstep. by apply Hrep.
      * destruct Hrep as (n & Hn & He). exists n. by rewrite Hstep.
    + exists (Err e), m, (<[id := st]> nodes). split; [done|]. exists id. split; [done|].
      rewrite node_records_cons, apply_records_app. fold id. rewrite Enb, N.eqb_refl.
      cbn [andb apply_records]. unfold mbind, M_bind. by rewrite Est.
  - destruct (IH m nodes) as (r & m' & nodes' & -> & Hrep). exists r, m', nodes'. split; [done|].
    assert (Hstep : ∀ n, in_filter node_filter n = true →
      node_records n (cps !! n) ((p, nr) :: nlog) = node_records n (cps !! n) nlog).
    { intros n Hn. rewrite node_records_cons. fold id. destruct (N.eqb_spec id n) as [<-|].
      - rewrite Hn in Eapp. cbn [andb] in Eapp. by rewrite Eapp.
      - by rewrite andb_false_r. }
    destruct r as [[]|e]; unfold replays_nodes in *.
    + intros n Hn. rewrite Hstep by done. by apply Hrep.
    + destruct Hrep as (n & Hn & He). exists n. by rewrite Hstep.
Qed.

(** The hints of a set of nodes: none, or a checkpoint position for each. *)
Definition hints_ok (nodes : gset N) (hints : option (gmap N RecordPosition))
  (nlog : list (RecordPosition * NodeRecord)) : Prop :=
  match hints with
  | Some hs => dom hs = nodes ∧ ∀ n p, hs !! n = Some p → hint_ok n (Some p) nlog
  | None => True
  end.

Lemma foldl_min_position (ps : list RecordPosition) p :
  let m := foldl (λ a b, if decide (record_position_lt b a) then b else a) p ps in
  m ∈ p :: ps ∧ ∀ q, q ∈ p :: ps → not_before (Some m) q = true.
Proof.
  cbn zeta. revert p. induction ps as [|b ps IH]; intros p; cbn [foldl].
  - split; [by left|]. intros q [->|?%elem_of_nil]%elem_of_cons; [|done]. cbn.
    rewrite bool_decide_eq_false_2; [done|]. apply record_position_lt_irrefl.
  - destruct (IH (if decide (record_position_lt b p) then b else p)) as [Hin Hle].
    set (m := foldl _ _ ps) in *. split.
    + revert Hin. rewrite !elem_of_cons. case_decide; tauto.
    + assert (Hfst := Hle _ (list_elem_of_here _ _)).
      intros q Hq. rewrite !elem_of_cons in Hq. destruct Hq as [->|[->|Hq]]; [..|apply Hle; by right].
      * case_decide as Hlt; [|done]. by eapply not_before_trans.
      * case_decide as Hlt; [done|]. cbn in Hfst |- *.
        apply negb_true_iff, bool_decide_eq_false. apply negb_true_iff, bool_decide_eq_false in Hfst.
        intros Hbm. apply Hlt. destruct b as [[b] bo], p as [[p] po], m as [[m] mo].
        unfold record_position_lt, name_lt in *. cbn in *.
        destruct (N.lt_total b p) as [?|[->|?]]; [by left| |].
        -- right. split; [done|]. destruct Hbm as [?|[[= <-] ?]]; [exfalso; apply Hfst; by left|].
           destruct (N.lt_ge_cases bo po); [done|]. exfalso. apply Hfst. right. split; [done|lia].
        -- exfalso. apply Hfst. left. destruct Hbm as [?|[[= ->] ?]]; lia.
Qed.

Lemma min_position_Some hs start :
  min_position hs = Some start →
  (∃ n, hs !! n = Some start) ∧ ∀ n p, hs !! n = Some p → not_before (Some start) p = true.
Proof.
  unfold min_position. assert (Hiter : ∀ n p, (n, p) ∈ btree_iter hs ↔ hs !! n = Some p)
    by (intros; apply elem_of_btree_iter).
  revert Hiter. generalize (btree_iter hs). intros l Hiter.
  destruct l as [|[n0 p0] l]; [done|]. rewrite fmap_cons. cbn [snd]. intros [= <-].
  destruct (foldl_min_position l.*2 p0) as [Hin Hle]. set (m := foldl _ _ _) in *.
  change (p0 :: l.*2) with ((n0, p0) :: l).*2 in *. split.
  - apply list_elem_of_fmap in Hin as ([n p] & E & Hin). exists n. apply Hiter. cbn in E. by rewrite E.
  - intros n p Hnp. apply Hle. apply Hiter in Hnp. by apply (list_elem_of_fmap_2 snd) in Hnp.
Qed.

Lemma min_position_None hs : min_position hs = None → hs = ∅.
Proof.
  unfold min_position. intros H0. apply map_empty. intros n.
  destruct (hs !! n) as [p|] eqn:E; [|done]. apply elem_of_btree_iter in E.
  destruct (btree_iter hs) as [|[n0 p0] l]; [by apply elem_of_nil in E|done].
Qed.

Lemma in_filter_Some nodes n : in_filter (Some nodes) n = true ↔ n ∈ nodes.
Proof. cbn. apply bool_decide_eq_true. Qed.

(** The checkpoint positions that a replay of several nodes starts from. *)
Lemma checkpoint_positions_for_replay_run fs m segs nlog active nodes hints recover :
  readable_dir fs active recover segs → log_decodes (log_of segs) nlog → hints_ok nodes hints nlog →
  ∃ cps start m',
    checkpoint_positions_for_replay active (Some nodes) hints recover (mkWorld fs m) =
      (Ok (cps, start), mkWorld fs m') ∧
    ∀ n, n ∈ nodes →
      cps !! n = last_checkpoint n nlog ∧
      ∀ name, match start with Some start => bool_decide (name_lt name start) | None => false end = true →
        ∀ p, position_segment p = name → not_before (cps !! n) p = false.
Proof.
  intros Hread Hdec Hhints. pose proof (readable_log_sorted _ _ _ _ _ Hread Hdec) as Hs.
  destruct hints as [hs|].
  - destruct Hhints as [Hdom Hok]. unfold checkpoint_positions_for_replay.
    destruct (min_position hs) as [start|] eqn:Emin.
    + apply min_position_Some in Emin as [[n0 Hn0] Hmin].
      destruct (find_checkpoint_positions_from_run fs m segs nlog active (Some nodes)
        (Some start) recover Hread Hdec (hint_start n0 (Some start) _ _ Hdec (Hok _ _ Hn0))) as [m' Hfind].
      rewrite (bind_ok _ _ _ _ _ Hfind). eexists _, _, m'. split; [reflexivity|]. intros n Hn.
      assert (is_Some (hs !! n)) as [p Hp] by (apply elem_of_dom; by rewrite Hdom).
      destruct (Hok _ _ Hp) as [c Hc].
      destruct (last_checkpoint_from n (Some start) nlog p c Hs Hc (Hmin _ _ Hp)) as (Heq & q & Hq & Hqb).
      assert (Hlk : (foldl (checkpoint_step (Some nodes)) ∅ (log_from (Some start) nlog) ∪ hs) !! n
                    = last_checkpoint n nlog).
      { rewrite lookup_union, foldl_checkpoint_lookup, Heq, Hq by by apply in_filter_Some.
        by destruct (hs !! n). }
      rewrite Hlk. split; [done|]. intros name Hlt p' Hp'. apply bool_decide_eq_true in Hlt.
      rewrite Hq. cbn in Hqb |- *. rewrite bool_decide_eq_true_2; [done|].
      apply negb_true_iff, bool_decide_eq_false in Hqb.
      left. rewrite Hp'. unfold record_position_lt, name_lt in *.
      destruct (N.lt_ge_cases (segment_id (position_segment q)) (segment_id (position_segment start)));
        [exfalso; apply Hqb; by left|lia].
    + apply min_position_None in Emin as ->. eexists _, _, m. split; [reflexivity|].
      intros n Hn. rewrite dom_empty_L in Hdom. set_solver.
  - unfold checkpoint_positions_for_replay, find_checkpoint_positions.
    destruct (find_checkpoint_positions_from_run fs m segs nlog active (Some nodes) None recover Hread Hdec I) as [m' Hfind].
    rewrite (bind_ok _ _ _ _ _ Hfind). eexists _, _, m'. split; [reflexivity|]. intros n Hn.
    rewrite foldl_checkpoint_lookup, log_from_None by by apply in_filter_Some.
    rewrite lookup_empty. split; [by destruct (last_checkpoint n nlog)|done].
Qed.

Lemma replay_storage_dir_run fs m segs nlog active nodes hints recover :
  readable_dir fs active recover segs → log_decodes (log_of segs) nlog → hints_ok nodes hints nlog →
  ∃ r m', replay_storage_dir active (Some nodes) hints recover (mkWorld fs m) = (r, mkWorld fs m') ∧
  match r with
  | Ok states => ∀ n, n ∈ nodes →
      replayed (since_checkpoint (node_history n nlog)) = Ok (default node_state_default (states !! n))
  | Err e => ∃ n, n ∈ nodes ∧ replayed (since_checkpoint (node_history n nlog)) = Err e
  end.
Proof.
  intros Hread Hdec Hhints. pose proof (readable_log_sorted _ _ _ _ _ Hread Hdec) as Hs.
  destruct (checkpoint_positions_for_replay_run fs m segs nlog active nodes hints recover
              Hread Hdec Hhints) as (cps & start & m1 & Hcps & Hspec).
  unfold replay_storage_dir. rewrite (bind_ok _ _ _ _ _ Hcps). cbv beta iota. clear Hcps m. rename m1 into m.
  pose proof Hread as (Hnf & Hroot & _).
  rewrite (bind_ok _ _ _ _ _ (discover_segment_paths_run (mkWorld fs m) Hnf Hroot)). cbv beta. cbn [w_fs].
  set (skip := λ name, match start with Some start => bool_decide (name_lt name start) | None => false end).
  destruct (fold_replay (Some nodes) cps _ _ m ∅ (log_decodes_skip skip _ _ Hdec))
    as (r & m' & states & Hfold & Hrep).
  pose proof (for_each_replay (λ name, handle_replay name (Some nodes) cps) (H_replay (Some nodes) cps) skip active recover
    fs m segs ∅ (λ name, handle_replay_handles name (Some nodes) cps) (blind_replay _ _) Hread) as Hrun.
  rewrite Hfold in Hrun. cbn [fst snd] in Hrun. destruct (with_local_run _ _ _ _ _ _ _ Hrun) as [m2 Hrun'].
  eexists _, m2. split; [exact Hrun'|].
  assert (Hrec : ∀ n, n ∈ nodes →
    node_records n (cps !! n) (log_skip skip nlog) = since_checkpoint (node_history n nlog)).
  { intros n Hn. destruct (Hspec n Hn) as [Hcp Hsk]. unfold node_records.
    rewrite log_from_skip by (intros p Hp; by apply (Hsk (position_segment p))).
    fold (node_records n (cps !! n) nlog). rewrite Hcp. by apply node_records_since. }
  unfold replayed. destruct r as [[]|e]; unfold replays_nodes in Hrep.
  - intros n Hn. specialize (Hrep n (proj2 (in_filter_Some _ _) Hn)).
    rewrite Hrec, lookup_empty in Hrep by done. cbn [default] in Hrep. unfold default at 1 in Hrep. by rewrite Hrep.
  - destruct Hrep as (n & Hn & He). apply in_filter_Some in Hn. exists n. split; [done|].
    rewrite Hrec, lookup_empty in He by done. cbn [default] in He. unfold default in He.
    destruct (apply_records _ _) as [r st]. cbn [fst id] in He. by subst r.
Qed.
End handlers.
