(* ===== verification/RecoveryCorrect.v ===== *)
(** * Recovery of the active segment

    [scan_segment] on a segment with a torn end: the records that are complete
    are kept, the rest is cut off, and a second scan finds nothing to do. *)
From Stdlib Require Import Strings.Byte.
From S2P Require Import Prelude Metrics Fs Text Noraft State Crc32c Codec Format Frame Segment.
From S2P Require Import Replay Recovery.

(** ** [scan_segment] as a function of the contents of the file *)

Lemma scan_segment_open allow fs m path i d :
  no_faults fs → is_file_with fs path i d →
  scan_segment path allow (mkWorld fs m) =
  with_file (mkFile i 0 allow false)
    (header ← read_segment_header allow true true;
     if negb header then mret ()
     else len ← file_len; loop_fuel (record_loop_fuel len) (scan_turn allow len)) (mkWorld fs m).
Proof.
  intros Hnf Hfile. unfold scan_segment. unfold mbind at 1, M_bind at 1. unfold w_call, zoom.
  cbn [w_fs w_metrics]. by erewrite fs_open_read_write_run by done.
Qed.

(** A file with a complete header. *)
Lemma scan_segment_complete allow fs m path i bodies t :
  no_faults fs → is_file_with fs path i (segment_data bodies t) →
  frames_parse (frames_bytes bodies ++ t) bodies t →
  scan_segment path allow (mkWorld fs m) =
  (tail_result allow t,
   mkWorld (tail_fs allow true i (segment_data bodies t) t fs) (tail_metrics allow t m)).
Proof.
  intros Hnf Hfile Hp. erewrite scan_segment_open by done. destruct Hfile as (_ & _ & Hd).
  unfold with_file. cbn [w_fs w_metrics]. set (io := mkIo fs m _).
  assert (Hdata : io_data io = segment_data bodies t) by exact Hd.
  destruct (read_segment_header_run allow true true io Hnf ltac:(done)) as (f' & Hf' & Hrun).
  rewrite Hdata, header_result_data in Hf', Hrun. rewrite (Hf' eq_refl) in Hrun. clear f' Hf'.
  unfold header_fs, header_metrics in Hrun. rewrite header_torn_data in Hrun. cbn [andb] in Hrun.
  rewrite (bind_ok _ _ _ _ _ Hrun). cbn [negb].
  set (io1 := mkIo (io_fs io) (io_metrics io) _).
  rewrite (bind_ok _ _ _ _ _ (file_len_run io1 Hnf)). rewrite scan_loop_records by done.
  pose proof (read_records_run (λ _ _, mret ()) skip_handler skip_handles allow true bodies t io1 ())
    as Hrr.
  change (io_data io1) with (io_data io) in *. rewrite Hdata in *.
  unfold records_run in Hrr. rewrite fold_records_skip in Hrr.
  unfold read_records, forget_file in Hrr.
  destruct (loop_fuel _ _ (io1, ())) as [r [io2 []]]. cbn [fst snd] in Hrr.
  assert (Hrest : io_rest io1 = frames_bytes bodies ++ t).
  { unfold io_rest. change (io_data io1) with (io_data io). rewrite Hdata.
    exact (segment_data_drop [] bodies t). }
  rewrite Hrest in Hrr.
  assert (Hpos : file_pos (io_file io1) ≤ lenN (segment_data bodies t)).
  { rewrite segment_data_length. change (file_pos (io_file io1)) with 4. lia. }
  specialize (Hrr Hnf Hp Hpos ltac:(done)).
  pose proof (f_equal fst Hrr) as H1. pose proof (f_equal (λ x, x.2.1) Hrr) as H2.
  cbn [fst snd] in H1, H2. unfold io_world in H2. by rewrite <-H1, H2.
Qed.

(** A file without a complete header. *)
Lemma scan_segment_short allow fs m path i d :
  no_faults fs → is_file_with fs path i d → lenN d < SEGMENT_FILE_HEADER_LEN →
  scan_segment path allow (mkWorld fs m) =
  (match header_result allow d with Ok _ => Ok () | Err e => Err e end,
   mkWorld (header_fs allow true i d fs) (header_metrics allow true d m)).
Proof.
  intros Hnf Hfile Hlen. erewrite scan_segment_open by done. destruct Hfile as (_ & _ & Hd).
  unfold with_file. cbn [w_fs w_metrics]. set (io := mkIo fs m _).
  assert (Hdata : io_data io = d) by exact Hd.
  destruct (read_segment_header_run allow true true io Hnf ltac:(done)) as (f' & Hf' & Hrun).
  rewrite Hdata in Hf', Hrun. unfold mbind, M_bind. rewrite Hrun.
  unfold header_result. rewrite (proj2 (N.ltb_lt _ _)) by done. destruct allow; [done|].
  by destruct (lenN d =? 0).
Qed.

(** ** Truncated segments *)

(** Cutting a sequence of frames leaves complete frames and a torn one. *)
Lemma frames_cut bodies k :
  k ≤ lenN (frames_bytes bodies) →
  ∃ b1 b2 t, bodies = b1 ++ b2 ∧ takeN k (frames_bytes bodies) = frames_bytes b1 ++ t ∧
    lenN (frames_bytes b1) ≤ k ∧
    match b2 with
    | [] => t = []
    | body :: _ => ∃ lost, wire_frame body = t ++ lost ∧ lost ≠ []
    end.
Proof.
  revert k. induction bodies as [|body bodies IH]; intros k Hk.
  - exists [], [], []. split; [done|]. split; [|split; [apply N.le_0_l|done]].
    change (frames_bytes []) with (@nil byte). unfold takeN. by rewrite take_nil.
  - rewrite frames_bytes_cons in *. rewrite lenN_app in Hk.
    destruct (N.lt_ge_cases k (lenN (wire_frame body))) as [Hlt|Hge].
    + exists [], (body :: bodies), (takeN k (wire_frame body)). split; [done|].
      split; [by rewrite takeN_app_le by lia|].
      split; [change (lenN (frames_bytes [])) with 0; lia|].
      exists (dropN k (wire_frame body)). split; [by rewrite takeN_dropN|]. intros E.
      apply (f_equal lenN) in E. rewrite lenN_dropN, lenN_nil in E. lia.
    + destruct (IH (k - lenN (wire_frame body)) ltac:(lia)) as (b1 & b2 & t & -> & Ht & Hl & Hb2).
      exists (body :: b1), b2, t. split; [done|]. split; [|split; [|done]].
      * rewrite frames_bytes_cons, <-app_assoc, <-Ht. unfold takeN, lenN in *.
        rewrite take_app_ge by lia. do 2 f_equal. lia.
      * rewrite frames_bytes_cons, lenN_app. lia.
Qed.

(** The tail that a cut leaves. *)
Lemma torn_tail_parse b1 b2 t :
  Forall (λ body, lenN body ≤ MAX_RECORD_BODY_LEN) (b1 ++ b2) →
  match b2 with
  | [] => t = []
  | body :: _ => ∃ lost, wire_frame body = t ++ lost ∧ lost ≠ []
  end →
  frames_parse (frames_bytes b1 ++ t) b1 t ∧ frame_at t = FrameShort.
Proof.
  intros [Hb1 Hb2]%Forall_app. destruct b2 as [|body b2].
  - intros ->. split; [|done]. rewrite app_nil_r. by apply frames_parse_clean.
  - intros (lost & Hw & Hl). pose proof (Forall_inv Hb2) as Hb.
    split; [by apply (frames_parse_torn b1 body t lost)|by apply (frame_at_torn body t lost)].
Qed.

Lemma takeN_segment_data k bodies :
  4 ≤ k → k ≤ lenN (segment_data bodies []) →
  takeN k (segment_data bodies []) = SEGMENT_FORMAT_MAGIC ++ takeN (k - 4) (frames_bytes bodies).
Proof.
  intros Hk Hle. unfold segment_data. rewrite app_nil_r. unfold takeN.
  rewrite take_app_ge by (simpl; lia). f_equal. f_equal. simpl. lia.
Qed.

(** What is cut off a torn tail. *)
Lemma tail_fs_torn bodies t i fs :
  frame_at t = FrameShort →
  data_of i fs = segment_data bodies t →
  data_of i (tail_fs true true i (segment_data bodies t) t fs) = segment_data bodies [] ∧
  ∀ j, j ≠ i → data_of j (tail_fs true true i (segment_data bodies t) t fs) = data_of j fs.
Proof.
  intros Ht Hd. unfold tail_fs, tail_cut. rewrite Ht. cbn [andb].
  case_bool_decide as Hnil; cbn [negb andb].
  - subst t. by split.
  - split; [|intros j Hj; by rewrite data_of_update_data, decide_False by done].
    rewrite data_of_update_data, decide_True by done.
    unfold segment_data at 2 3. rewrite app_nil_r, app_assoc.
    rewrite segment_data_length. replace (4 + _ + lenN t - lenN t) with
      (lenN (SEGMENT_FORMAT_MAGIC ++ frames_bytes bodies)) by (rewrite lenN_app; change (lenN SEGMENT_FORMAT_MAGIC) with 4; lia).
    apply takeN_app_exact.
Qed.

(** The number of complete records in the first [k] bytes of a segment. *)
Definition complete_records (k : N) (bodies : list (list byte)) : list (list byte) :=
  (split_frames (dropN 4 (takeN k (segment_data bodies [])))).1.

Lemma split_frames_eq d bodies t : frames_parse d bodies t → split_frames d = (bodies, t).
Proof.
  intros H. destruct (frames_parse_unique _ _ _ _ _ (split_frames_parse d) H) as [<- <-].
  by destruct (split_frames d).
Qed.

Section properties.
Context (fs : Fs) (m : StorageMetrics) (path : string) (i : N).
Hypothesis Hnf : no_faults fs.

(** Scanning succeeds, leaves [kept] of the file and changes no other, and
    scanning again changes nothing. *)
Definition scanned_to (kept : list byte) : Prop := ∃ fs' m',
  scan_segment path true (mkWorld fs m) = (Ok (), mkWorld fs' m') ∧
  data_of i fs' = kept ∧ (∀ j, j ≠ i → data_of j fs' = data_of j fs) ∧
  fs_entries fs' = fs_entries fs ∧
  scan_segment path true (mkWorld fs' m') = (Ok (), mkWorld fs' m').

(** A torn header is removed. *)
Lemma torn_header_scanned d :
  lenN d < SEGMENT_FILE_HEADER_LEN → is_file_with fs path i d → scanned_to [].
Proof using Hnf.
  intros Hdl Hfile. pose proof Hfile as (Hroot & He & Hd).
  set (fs' := header_fs true true i d fs). set (m' := header_metrics true true d m).
  assert (Hd' : data_of i fs' = [] ∧ (∀ j, j ≠ i → data_of j fs' = data_of j fs) ∧
                fs_entries fs' = fs_entries fs ∧ no_faults fs' ∧ fs_root fs' = RootDir).
  { unfold fs', header_fs, header_torn. rewrite (proj2 (N.ltb_lt _ _)) by done.
    rewrite !andb_true_r. destruct (N.eqb_spec (lenN d) 0) as [E|E]; cbn [negb].
    - split; [|done]. rewrite Hd. destruct d; [done|]. rewrite lenN_cons in E. lia.
    - rewrite data_of_update_data, decide_True by done. split; [done|].
      split; [|done]. intros j Hj. by rewrite data_of_update_data, decide_False. }
  destruct Hd' as (Hd' & Hother & Hent & Hnf' & Hroot').
  exists fs', m'. rewrite (scan_segment_short true fs m path i d) by done.
  assert (Hhr : ∀ d, lenN d < SEGMENT_FILE_HEADER_LEN → header_result true d = Ok false).
  { intros d0 Hd0. unfold header_result. by rewrite (proj2 (N.ltb_lt _ _)). }
  rewrite Hhr by done. repeat (split; [done|]).
  rewrite (scan_segment_short true fs' m' path i []); [done|done| |done].
  split; [done|]. by rewrite Hent.
Qed.

(** A torn record is removed. *)
Lemma torn_record_scanned b1 b2 t :
  Forall (λ body, lenN body ≤ MAX_RECORD_BODY_LEN) (b1 ++ b2) →
  match b2 with
  | [] => t = []
  | body :: _ => ∃ lost, wire_frame body = t ++ lost ∧ lost ≠ []
  end →
  is_file_with fs path i (segment_data b1 t) → scanned_to (segment_data b1 []).
Proof using Hnf.
  intros Hb Hb2 Hfile. pose proof Hfile as (Hroot & He & Hd).
  destruct (torn_tail_parse b1 b2 t Hb Hb2) as [Hp Hshort].
  destruct (tail_fs_torn b1 t i fs Hshort Hd) as [Hd' Hother].
  set (fs' := tail_fs true true i (segment_data b1 t) t fs) in *.
  set (m' := tail_metrics true t m).
  assert (Hfs' : fs_entries fs' = fs_entries fs ∧ no_faults fs' ∧ fs_root fs' = RootDir).
  { unfold fs', tail_fs. by destruct (tail_cut _ _ _). }
  destruct Hfs' as (Hent & Hnf' & Hroot').
  exists fs', m'. rewrite (scan_segment_complete true fs m path i b1 t) by done.
  assert (Htr : tail_result true t = Ok ()) by (unfold tail_result; rewrite Hshort; by rewrite orb_true_r).
  rewrite Htr. do 4 (split; [done|]).
  rewrite (scan_segment_complete true fs' m' path i b1 []); [|done| |].
  - unfold tail_result, tail_fs, tail_cut, tail_metrics. rewrite frame_at_nil. by rewrite bool_decide_eq_true_2.
  - split; [done|]. by rewrite Hent.
  - rewrite app_nil_r. apply frames_parse_clean. by apply Forall_app in Hb as [? _].
Qed.

(** [C10] Recovery after a torn write.  The active segment was cut anywhere in
    the middle of its bytes by a crash; scanning it succeeds and leaves exactly
    the header and the records whose frames are complete (nothing at all when
    the header itself is torn), leaves every other file as it was, and scanning
    it again changes nothing. *)
Theorem torn_segment_recovered bodies k :
  Forall (λ body, lenN body ≤ MAX_RECORD_BODY_LEN) bodies →
  k ≤ lenN (segment_data bodies []) →
  is_file_with fs path i (takeN k (segment_data bodies [])) →
  ∃ kept fs' m',
    scan_segment path true (mkWorld fs m) = (Ok (), mkWorld fs' m') ∧
    data_of i fs' = kept ∧ (∀ j, j ≠ i → data_of j fs' = data_of j fs) ∧
    fs_entries fs' = fs_entries fs ∧
    (if k <? SEGMENT_FILE_HEADER_LEN then kept = []
     else ∃ b1 b2, bodies = b1 ++ b2 ∧ kept = segment_data b1 [] ∧ lenN kept ≤ k ∧
          match b2 with
          | [] => lenN kept = k
          | body :: _ => k < lenN kept + lenN (wire_frame body)
          end) ∧
    scan_segment path true (mkWorld fs' m') = (Ok (), mkWorld fs' m').
Proof using Hnf.
  intros Hb Hk Hfile. change SEGMENT_FILE_HEADER_LEN with 4. destruct (N.ltb_spec k 4) as [Hlt|Hge].
  - destruct (torn_header_scanned (takeN k (segment_data bodies []))) as (fs' & m' & H1 & H2 & H3 & H4 & H5); [|done|].
    { rewrite lenN_takeN. change SEGMENT_FILE_HEADER_LEN with 4. lia. }
    by exists [], fs', m'.
  - assert (Hk4 : k - 4 ≤ lenN (frames_bytes bodies))
      by (rewrite segment_data_length, lenN_nil in Hk; lia).
    rewrite takeN_segment_data in Hfile by done.
    destruct (frames_cut bodies (k - 4) Hk4) as (b1 & b2 & t & -> & Ht & Hl & Hb2).
    rewrite Ht in Hfile. fold (segment_data b1 t) in Hfile.
    destruct (torn_record_scanned b1 b2 t Hb Hb2 Hfile) as (fs' & m' & H1 & H2 & H3 & H4 & H5).
    exists (segment_data b1 []), fs', m'. do 4 (split; [done|]). split; [|done].
    exists b1, b2. split; [done|]. split; [done|]. rewrite segment_data_length, lenN_nil. split; [lia|].
    apply (f_equal lenN) in Ht. rewrite lenN_takeN, lenN_app in Ht. destruct b2 as [|body b2].
    + subst t. rewrite lenN_nil in Ht. lia.
    + destruct Hb2 as (lost & -> & Hlost). destruct lost; [done|]. rewrite lenN_app, lenN_cons. lia.
Qed.

(** [C27] Only the active segment may be torn: a sealed segment with bytes after
    its complete records is rejected as [InvalidData] and not modified, while a
    sealed segment of complete records is accepted as it is. *)
Theorem sealed_segment_checked bodies t :
  Forall (λ body, lenN body ≤ MAX_RECORD_BODY_LEN) bodies →
  (∀ body, frame_at t ≠ FrameOk body) →
  is_file_with fs path i (segment_data bodies t) →
  let '(r, w') := scan_segment path false (mkWorld fs m) in
  w_fs w' = fs ∧
  match r with
  | Ok _ => t = []
  | Err e => t ≠ [] ∧ error_kind e = InvalidData
  end.
Proof using Hnf.
  intros Hb Ht Hfile. rewrite (scan_segment_complete false fs m path i bodies t); [|done|done|done].
  assert (Hfs : tail_fs false true i (segment_data bodies t) t fs = fs).
  { unfold tail_fs, tail_cut. destruct (frame_at t); try done. by rewrite andb_false_r. }
  split; [done|]. unfold tail_result.
  destruct (short_tail_view t Ht) as [E|[E|E]]; rewrite E.
  - rewrite orb_false_r. by case_bool_decide.
  - split; [|done]. by intros ->.
  - split; [|done]. by intros ->.
Qed.
End properties.
