(* ===== verification/Json.v ===== *)
(** * Metadata files: the interface of the [nojson] crate and the file operations

    [nojson] is a dependency.  [Nojson] has the operations that the sources
    call and [NojsonLaws] what they rely on: what is formatted from a document
    that the sources could build ([doc_ok]) parses, and the members of the
    parsed object are those that were formatted.  The errors of
    the crate are not inspected, so its fallible operations are [option]s. *)
From Stdlib Require Import Strings.Byte Strings.String.
From stdpp Require Import countable.
From S2P Require Import Prelude Metrics Fs Text.

(** ** Values passed to the formatter *)

Definition newline : list byte := [Byte.x0a].

(** Keys of members: strings, and numbers that are printed as strings. *)
Inductive JsonKey := KeyString (s : string) | KeyU64 (n : N).

(** What the sources pass to [nojson::json]; [DocRaw] is written as it is. *)
#[warnings="-register-all"]
Inductive JsonDoc :=
  | DocU64 (n : N)
  | DocBool (b : bool)
  | DocString (s : string)
  | DocRaw (text : list byte)
  | DocObject (members : list (JsonKey * JsonDoc)).

Definition key_text (k : JsonKey) : string :=
  match k with KeyString s => s | KeyU64 n => u64_to_string n end.

(** ** The operations *)

Class Nojson := {
  RawJsonOwned : Type;
  RawJsonValue : Type;
  json_parse : list byte → option RawJsonOwned;
  json_value : RawJsonOwned → RawJsonValue;
  json_text : RawJsonOwned → list byte;
  (** [to_member(name)]: fails on what is not an object; the member if there is one. *)
  to_member : RawJsonValue → string → option (option RawJsonValue);
  to_object : RawJsonValue → option (list (RawJsonValue * RawJsonValue));
  to_unquoted_string_str : RawJsonValue → option string;
  json_to_u64 : RawJsonValue → option N;
  json_to_bool : RawJsonValue → option bool;
  json_to_string : RawJsonValue → option string;
  json_to_raw : RawJsonValue → option RawJsonOwned;
  (** [nojson::json(|f| ..).to_string()] with an indent of two and spacing. *)
  json_display : JsonDoc → list byte;
  (** [nojson::json(|f| ..)] displayed as it is. *)
  json_display_compact : JsonDoc → list byte;
}.

(** [to_member(name)?.required()?]. *)
Definition required_member `{Nojson} (v : RawJsonValue) (name : string) : option RawJsonValue :=
  m ← to_member v name; m.

(** The characters are ASCII, as in all strings that the sources format. *)
Definition ascii_text (s : string) : bool :=
  forallb (λ c, Ascii.N_of_ascii c <? 128) (String.list_ascii_of_string s).

Definition key_ok (k : JsonKey) : Prop :=
  match k with KeyString s => ascii_text s = true | KeyU64 n => n < U64_LIMIT end.

(** A document that can be formatted: its numbers are [u64]s, and what is
    written as it is is the text of a JSON value, a [RawJsonOwned]. *)
Fixpoint doc_ok `{Nojson} (d : JsonDoc) : Prop :=
  match d with
  | DocU64 n => n < U64_LIMIT
  | DocBool _ => True
  | DocString s => ascii_text s = true
  | DocRaw text => ∃ j, text = json_text j
  | DocObject members => foldr (λ m P, key_ok m.1 ∧ doc_ok m.2 ∧ P) True members
  end.

(** What the sources rely on.  [json_represents v d] says that [v] is the value
    that [d] was formatted from; [json_trim] drops the white space around a
    value, which is not part of it. *)
Class NojsonLaws `(NJ : Nojson) := {
  json_represents : RawJsonValue → JsonDoc → Prop;
  json_trim : RawJsonOwned → RawJsonOwned;
  json_trim_idem j : json_trim (json_trim j) = json_trim j;
  json_display_parse d :
    doc_ok d →
    utf8_valid (json_display d ++ newline) = true ∧
    ∃ j, json_parse (json_display d ++ newline) = Some j ∧
         json_represents (json_value j) d;
  json_display_compact_parse d :
    doc_ok d →
    ∃ j, json_parse (json_display_compact d) = Some j ∧ json_represents (json_value j) d;
  represents_u64 v n : n < U64_LIMIT → json_represents v (DocU64 n) → json_to_u64 v = Some n;
  json_to_u64_bound v n : json_to_u64 v = Some n → n < U64_LIMIT;
  represents_bool v b : json_represents v (DocBool b) → json_to_bool v = Some b;
  represents_string v s : json_represents v (DocString s) → json_to_string v = Some s;
  represents_raw v j : json_represents v (DocRaw (json_text j)) → json_to_raw v = Some (json_trim j);
  represents_object v ms :
    json_represents v (DocObject ms) →
    ∃ kvs, to_object v = Some kvs ∧
      Forall2 (λ kv m, to_unquoted_string_str kv.1 = Some (key_text m.1) ∧
                       json_represents kv.2 m.2) kvs ms;
  represents_member v ms i k d :
    json_represents v (DocObject ms) → ms !! i = Some (k, d) →
    (∀ j k' d', ms !! j = Some (k', d') → key_text k' = key_text k → j = i) →
    ∃ v', required_member v (key_text k) = Some v' ∧ json_represents v' d;
}.

(** ** Metadata files *)

(** [read_to_string] into an empty string. *)
Definition file_read_to_string : M Io (list byte) :=
  io ← get_state;
  text ← file_take_read_to_end (lenN (io_data io));
  if utf8_valid text then mret text
  else throw (IoError InvalidData (Message "stream did not contain valid UTF-8")).

(** [match File::open(&path) { .. }] of the [load] functions: the text of the
    file, or [None] when it does not exist. *)
Definition load_text (path : string) : M World (option (list byte)) :=
  r ← try_catch (w_call (fs_open path open_read));
  match r with
  | Ok file => text ← with_file file file_read_to_string; mret (Some text)
  | Err e => if bool_decide (error_kind e = NotFound) then mret None else throw e
  end.

Definition save_options : OpenOptions := mkOpenOptions true false true true false.

(** The body of the [save] functions: the text goes to a temporary file, which
    is synced and renamed over the old one. *)
Definition save_text (tmp_path path : string) (text : list byte) : M World () :=
  file ← w_call (fs_open tmp_path save_options);
  with_file file (file_write_all text ;; file_sync) ;;
  w_call (fs_rename tmp_path path) ;;
  w_call fs_sync_dir.

(** ** Lemmas *)

Lemma doc_object_ok `{Nojson} ms : Forall (λ m, key_ok m.1 ∧ doc_ok m.2) ms → doc_ok (DocObject ms).
Proof. induction 1 as [|m ms [Hk Hd] _ IH]; [done|]. by split. Qed.

Lemma ascii_text_append a b : ascii_text (String.append a b) = ascii_text a && ascii_text b.
Proof.
  unfold ascii_text. rewrite list_ascii_append. apply forallb_app.
Qed.

Lemma ascii_text_u64 n : n < U64_LIMIT → ascii_text (u64_to_string n) = true.
Proof.
  intros Hn. unfold ascii_text, u64_to_string. rewrite String.list_ascii_of_string_of_list_ascii.
  destruct (u64_digits_canonical n Hn) as (_ & Hd & _). induction Hd as [|c cs Hc _ IH]; [done|]. cbn [forallb].
  rewrite IH, andb_true_r. unfold is_ascii_digit, char_code in Hc. apply andb_true_iff in Hc as [_ Hc].
  apply N.leb_le in Hc. apply N.ltb_lt. lia.
Qed.

(** Member [i] of a formatted object. *)
Lemma member_of `{NL : NojsonLaws} v ms (i : nat) k d :
  json_represents v (DocObject ms) → ms !! i = Some (k, d) → NoDup (key_text <$> ms.*1) →
  ∃ v', required_member v (key_text k) = Some v' ∧ json_represents v' d.
Proof.
  intros Hv Hi Hnd. eapply represents_member; [done|done|].
  intros j k' d' Hj Hk. rewrite <-list_fmap_compose in Hnd.
  eapply (NoDup_lookup _ j i (key_text k)); [exact Hnd| |]; rewrite list_lookup_fmap.
  - rewrite Hj. cbn. by rewrite Hk.
  - by rewrite Hi.
Qed.
