(* ===== verification/Registry.v ===== *)
(** * The node registry, [src/registry.rs] *)
From Stdlib Require Import Strings.Byte Strings.String.
From S2P Require Import Prelude Metrics Fs Text Json State.

Definition NODE_REGISTRY_FILE_NAME : string := "nodes.json".
Definition NODE_REGISTRY_TMP_FILE_NAME : string := "nodes.json.tmp".
Definition NODE_REGISTRY_VERSION : N := 1.

Definition node_not_found_error : io_error :=
  IoError NotFound (Message "node storage has not been created").
Definition node_removed_error : io_error :=
  IoError NotFound (Message "node storage has been removed").
Definition node_already_exists_error : io_error :=
  IoError AlreadyExists (Message "node storage has already been created").

Section registry.
Context `{Nojson}.

(** [NodeMetadata]. *)
Record NodeMetadata := mkNodeMetadata { startup : bool; metadata : RawJsonOwned }.

(** [NodeMetadata::new] and its accessors. *)
Definition metadata_new (startup : bool) (metadata : RawJsonOwned) : NodeMetadata :=
  mkNodeMetadata startup metadata.
Definition metadata_startup (md : NodeMetadata) : bool := startup md.
Definition metadata_json (md : NodeMetadata) : RawJsonOwned := metadata md.
Definition into_metadata (md : NodeMetadata) : RawJsonOwned := metadata md.

(** [NodeMetadata::default]: the text is ["{}"]; [None] is the panic of [expect]. *)
Definition node_metadata_default : option NodeMetadata :=
  (λ json, mkNodeMetadata false json) <$> json_parse [Byte.x7b; Byte.x7d].

(** [NodeRegistryEntry]. *)
Record NodeRegistryEntry := mkNodeRegistryEntry {
  entry_metadata : NodeMetadata;
  entry_removed : bool;
}.

(** [NodeRegistry]. *)
Record NodeRegistry := mkNodeRegistry { registry_nodes : gmap N NodeRegistryEntry }.

Definition registry_default : NodeRegistry := mkNodeRegistry ∅.

(** ** Operations in memory *)

(** [NodeRegistry::create_node]. *)
Definition registry_create_node (node_id : N) (md : NodeMetadata) : M NodeRegistry () :=
  r ← get_state;
  match registry_nodes r !! node_id with
  | None =>
      modify (λ r, mkNodeRegistry (<[node_id := mkNodeRegistryEntry md false]> (registry_nodes r)))
  | Some _ => throw node_already_exists_error
  end.

(** [NodeRegistry::remove_node]. *)
Definition registry_remove_node (node_id : N) : M NodeRegistry () :=
  r ← get_state;
  match registry_nodes r !! node_id with
  | None => throw node_not_found_error
  | Some entry =>
      if entry_removed entry then throw node_removed_error
      else
        modify (λ r, mkNodeRegistry
          (<[node_id := mkNodeRegistryEntry (entry_metadata entry) true]> (registry_nodes r)))
  end.

Definition is_active (r : NodeRegistry) (node_id : N) : bool :=
  match registry_nodes r !! node_id with Some entry => negb (entry_removed entry) | None => false end.

Definition is_removed (r : NodeRegistry) (node_id : N) : bool :=
  match registry_nodes r !! node_id with Some entry => entry_removed entry | None => false end.

(** [NodeRegistry::metadata]. *)
Definition registry_metadata (r : NodeRegistry) (node_id : N) : option NodeMetadata :=
  entry ← registry_nodes r !! node_id;
  if entry_removed entry then None else Some (entry_metadata entry).

(** [NodeRegistry::nodes]. *)
Definition registry_active_nodes (r : NodeRegistry) : list (N * NodeMetadata) :=
  omap (λ p : N * NodeRegistryEntry,
    if entry_removed p.2 then None else Some (p.1, entry_metadata p.2))
    (btree_iter (registry_nodes r)).

Definition active_node_ids (r : NodeRegistry) : gset N := list_to_set (registry_active_nodes r).*1.

Definition active_node_count (r : NodeRegistry) : N :=
  lenN (filter (λ entry, entry_removed entry = false) (btree_iter (registry_nodes r)).*2).

Definition removed_node_count (r : NodeRegistry) : N :=
  lenN (filter (λ entry, entry_removed entry = true) (btree_iter (registry_nodes r)).*2).

(** ** The JSON form *)

(** [parse_node_registry_entry]. *)
Definition parse_node_registry_entry (v : RawJsonValue) : option NodeRegistryEntry :=
  startup_value ← required_member v "startup";
  startup ← json_to_bool startup_value;
  metadata_value ← required_member v "metadata";
  metadata ← json_to_raw metadata_value;
  removed_value ← required_member v "removed";
  removed ← json_to_bool removed_value;
  Some (mkNodeRegistryEntry (mkNodeMetadata startup metadata) removed).

(** The loop of [parse_node_registry] over the members of ["nodes"]. *)
Fixpoint parse_registry_nodes (kvs : list (RawJsonValue * RawJsonValue))
  (nodes : gmap N NodeRegistryEntry) : option (gmap N NodeRegistryEntry) :=
  match kvs with
  | [] => Some nodes
  | (key, v) :: kvs =>
      key_text ← to_unquoted_string_str key;
      node_id ← parse_u64 key_text;
      entry ← parse_node_registry_entry v;
      let '(old, nodes) := btree_insert node_id entry nodes in
      if bool_decide (is_Some old) then None else parse_registry_nodes kvs nodes
  end.

(** [parse_node_registry]. *)
Definition parse_node_registry (v : RawJsonValue) : option NodeRegistry :=
  version_value ← required_member v "version";
  version ← json_to_u64 version_value;
  if negb (version =? NODE_REGISTRY_VERSION) then None
  else
    nodes_value ← required_member v "nodes";
    members ← to_object nodes_value;
    nodes ← parse_registry_nodes members ∅;
    Some (mkNodeRegistry nodes).

(** [NodeRegistryEntryJson]. *)
Definition node_registry_entry_json (e : NodeRegistryEntry) : JsonDoc :=
  DocObject [
    (KeyString "startup", DocBool (startup (entry_metadata e)));
    (KeyString "metadata", DocRaw (json_text (metadata (entry_metadata e))));
    (KeyString "removed", DocBool (entry_removed e))
  ].

(** [NodeRegistryNodesJson] and the document of [format_node_registry]. *)
Definition node_registry_json (r : NodeRegistry) : JsonDoc :=
  DocObject [
    (KeyString "version", DocU64 NODE_REGISTRY_VERSION);
    (KeyString "nodes", DocObject
      ((λ p : N * NodeRegistryEntry, (KeyU64 p.1, node_registry_entry_json p.2)) <$>
         btree_iter (registry_nodes r)))
  ].

(** [format_node_registry]. *)
Definition format_node_registry (r : NodeRegistry) : list byte :=
  json_display (node_registry_json r) ++ newline.

(** ** The file *)

(** [NodeRegistry::load]. *)
Definition registry_load : M World NodeRegistry :=
  text ← load_text NODE_REGISTRY_FILE_NAME;
  match text with
  | None => mret registry_default
  | Some text =>
      match json_parse text with
      | None => throw invalid_json
      | Some json =>
          match parse_node_registry (json_value json) with
          | None => throw invalid_json
          | Some registry => mret registry
          end
      end
  end.

(** [NodeRegistry::save]. *)
Definition registry_save (r : NodeRegistry) : M World () :=
  save_text NODE_REGISTRY_TMP_FILE_NAME NODE_REGISTRY_FILE_NAME (format_node_registry r).

End registry.
