(* ===== verification/Checkpoint.v ===== *)
(** * The checkpoint index, [src/storage.rs]

    [CheckpointIndex] with its file, the validation of hints against the
    segments, and the garbage-collection barrier. *)
From Stdlib Require Import Strings.Byte Strings.String.
From S2P Require Import Prelude Metrics Fs Text Json Noraft State Crc32c Codec Frame Segment.
From S2P Require Import Registry.

Definition CHECKPOINT_INDEX_FILE_NAME : string := "checkpoints.json".
Definition CHECKPOINT_INDEX_TMP_FILE_NAME : string := "checkpoints.json.tmp".
Definition CHECKPOINT_INDEX_VERSION : N := 1.

(** [CheckpointNodeIndex] and [CheckpointIndex]. *)
Record CheckpointNodeIndex := mkCheckpointNodeIndex { checkpoint_position_of : RecordPosition }.
Record CheckpointIndex := mkCheckpointIndex { index_nodes : gmap N CheckpointNodeIndex }.

Definition index_default : CheckpointIndex := mkCheckpointIndex ∅.

(** [CheckpointIndex::checkpoint_position]. *)
Definition checkpoint_position (x : CheckpointIndex) (node_id : N) : option RecordPosition :=
  checkpoint_position_of <$> index_nodes x !! node_id.

(** The loop of [CheckpointIndex::checkpoint_positions]. *)
Fixpoint collect_positions (x : CheckpointIndex) (ids : list N) (positions : gmap N RecordPosition)
  : option (gmap N RecordPosition) :=
  match ids with
  | [] => Some positions
  | id :: ids =>
      p ← checkpoint_position x id;
      collect_positions x ids (<[id := p]> positions)
  end.

(** [CheckpointIndex::checkpoint_positions]. *)
Definition checkpoint_positions (x : CheckpointIndex) (node_ids : gset N)
  : option (gmap N RecordPosition) := collect_positions x (btree_elements node_ids) ∅.

(** [GcBarrier]. *)
Inductive GcBarrier := AllInactiveAppendSegments | Before (segment : SegmentName).

(** [GcBarrier::allows_delete]. *)
Definition allows_delete (b : GcBarrier) (segment : SegmentName) : bool :=
  match b with
  | AllInactiveAppendSegments => true
  | Before checkpoint_segment => bool_decide (name_lt segment checkpoint_segment)
  end.

(** The loop of [CheckpointIndex::gc_barrier]; [None] when a node has no checkpoint. *)
Fixpoint oldest_segment (x : CheckpointIndex) (ids : list N) (oldest : option SegmentName)
  : option (option SegmentName) :=
  match ids with
  | [] => Some oldest
  | id :: ids =>
      p ← checkpoint_position x id;
      let checkpoint_segment := position_segment p in
      oldest_segment x ids
        (Some (match oldest with
               | Some oldest => name_min oldest checkpoint_segment
               | None => checkpoint_segment
               end))
  end.

(** [CheckpointIndex::gc_barrier]. *)
Definition gc_barrier (x : CheckpointIndex) (active_node_ids : gset N) : option GcBarrier :=
  oldest ← oldest_segment x (btree_elements active_node_ids) None;
  Some (match oldest with
        | Some segment => Before segment
        | None => AllInactiveAppendSegments
        end).

(** [CheckpointIndex::set_checkpoint_position]. *)
Definition set_checkpoint_position (node_id : N) (p : RecordPosition) (x : CheckpointIndex)
  : CheckpointIndex := mkCheckpointIndex (<[node_id := mkCheckpointNodeIndex p]> (index_nodes x)).

(** [CheckpointIndex::remove_node]. *)
Definition index_remove_node (node_id : N) (x : CheckpointIndex) : CheckpointIndex :=
  mkCheckpointIndex (delete node_id (index_nodes x)).

(** [CheckpointIndex::len]. *)
Definition index_len (x : CheckpointIndex) : N := N.of_nat (size (index_nodes x)).

Section validate.
Context `{Noraft}.

(** [validate_checkpoint_position]. *)
Definition validate_checkpoint_position (node_id : N) (position : RecordPosition) : M World () :=
  exists_ ← segment_file_exists (position_segment position);
  if negb exists_ then throw (invalid_data "checkpoint index segment does not exist")
  else
    file ← w_call (fs_open (file_name (position_segment position)) open_read);
    with_file file
      (read_segment_header false false false ;;
       len ← file_len;
       if position_offset position <? SEGMENT_FILE_HEADER_LEN then
         throw (invalid_data "checkpoint index offset precedes records")
       else if len <? position_offset position then
         throw (invalid_data "checkpoint index offset exceeds segment length")
       else
         file_seek (position_offset position) ;;
         body ← read_record_body false;
         match body with
         | None => throw (invalid_data "checkpoint index offset does not point to a record")
         | Some body =>
             nr ← lift_result (decode_node_record body);
             if negb (record_node_id nr =? node_id) then
               throw (invalid_data "checkpoint index node ID mismatch")
             else if negb (is_checkpoint (node_record nr)) then
               throw (invalid_data "checkpoint index does not point to a checkpoint")
             else mret ()
         end).

(** [CheckpointIndex::validate_checkpoint_positions]. *)
Definition validate_checkpoint_positions (x : CheckpointIndex) : M World () :=
  for_each (btree_iter (index_nodes x)) (λ p : N * CheckpointNodeIndex,
    validate_checkpoint_position p.1 (checkpoint_position_of p.2)).
End validate.

Section json.
Context `{Nojson}.

(** [parse_checkpoint_node_index]. *)
Definition parse_checkpoint_node_index (v : RawJsonValue) : option CheckpointNodeIndex :=
  segment_value ← required_member v "checkpoint_segment";
  segment_name ← json_to_string segment_value;
  checkpoint_segment ← parse_file_name segment_name;
  offset_value ← required_member v "checkpoint_offset";
  checkpoint_offset ← json_to_u64 offset_value;
  Some (mkCheckpointNodeIndex (mkRecordPosition checkpoint_segment checkpoint_offset)).

(** The loop of [parse_checkpoint_index]. *)
Fixpoint parse_index_nodes (kvs : list (RawJsonValue * RawJsonValue))
  (nodes : gmap N CheckpointNodeIndex) : option (gmap N CheckpointNodeIndex) :=
  match kvs with
  | [] => Some nodes
  | (key, v) :: kvs =>
      key_text ← to_unquoted_string_str key;
      node_id ← parse_u64 key_text;
      node_index ← parse_checkpoint_node_index v;
      let '(old, nodes) := btree_insert node_id node_index nodes in
      if bool_decide (is_Some old) then None else parse_index_nodes kvs nodes
  end.

(** [parse_checkpoint_index]. *)
Definition parse_checkpoint_index (v : RawJsonValue) : option CheckpointIndex :=
  version_value ← required_member v "version";
  version ← json_to_u64 version_value;
  if negb (version =? CHECKPOINT_INDEX_VERSION) then None
  else
    nodes_value ← required_member v "nodes";
    members ← to_object nodes_value;
    nodes ← parse_index_nodes members ∅;
    Some (mkCheckpointIndex nodes).

(** [CheckpointNodeIndexJson]. *)
Definition checkpoint_node_index_json (x : CheckpointNodeIndex) : JsonDoc :=
  DocObject [
    (KeyString "checkpoint_segment", DocString (file_name (position_segment (checkpoint_position_of x))));
    (KeyString "checkpoint_offset", DocU64 (position_offset (checkpoint_position_of x)))
  ].

(** [CheckpointIndexNodesJson] and the document of [format_checkpoint_index]. *)
Definition checkpoint_index_json (x : CheckpointIndex) : JsonDoc :=
  DocObject [
    (KeyString "version", DocU64 CHECKPOINT_INDEX_VERSION);
    (KeyString "nodes", DocObject
      ((λ p : N * CheckpointNodeIndex, (KeyU64 p.1, checkpoint_node_index_json p.2)) <$>
         btree_iter (index_nodes x)))
  ].

(** [format_checkpoint_index]. *)
Definition format_checkpoint_index (x : CheckpointIndex) : list byte :=
  json_display (checkpoint_index_json x) ++ newline.

(** [CheckpointIndex::save]. *)
Definition index_save (x : CheckpointIndex) : M World () :=
  save_text CHECKPOINT_INDEX_TMP_FILE_NAME CHECKPOINT_INDEX_FILE_NAME (format_checkpoint_index x).

Context `{Noraft}.

(** The [retain] of [CheckpointIndex::load]: only active nodes are kept. *)
Definition retain_active (registry : NodeRegistry) (x : CheckpointIndex) : CheckpointIndex :=
  mkCheckpointIndex (filter (λ p : N * CheckpointNodeIndex, is_active registry p.1 = true) (index_nodes x)).

(** [CheckpointIndex::load]. *)
Definition index_load (registry : NodeRegistry) : M World CheckpointIndex :=
  text ← load_text CHECKPOINT_INDEX_FILE_NAME;
  match text with
  | None => mret index_default
  | Some text =>
      match json_parse text with
      | None => throw invalid_json
      | Some json =>
          match parse_checkpoint_index (json_value json) with
          | None => throw invalid_json
          | Some index =>
              let index := retain_active registry index in
              validate_checkpoint_positions index ;;
              mret index
          end
      end
  end.
End json.
