(* ===== verification/Engine.v ===== *)
(** * The storage engine, [src/storage.rs]

    [StorageEngine]: it owns the write lock, the counters, the registry, the
    checkpoint index and the segment writer; the files are the world it works
    on. *)
From Stdlib Require Import Strings.Byte Strings.String.
From S2P Require Import Prelude Metrics Fs Text Json Noraft State Crc32c Codec Frame Segment.
From S2P Require Import Replay Registry Checkpoint.

Definition DEFAULT_MAX_SEGMENT_LEN : N := 128 * 1024 * 1024.
Definition WRITE_LOCK_FILE_NAME : string := "write.lock".

(** ** The storage directory *)

(** [path.exists()] of the storage directory. *)
Definition root_exists : M World bool := w_call (
  outcome ← take_fault;
  fs ← get_state;
  mret (bool_decide (outcome = None ∧ fs_root fs ≠ RootMissing))).

(** [create_dir_all]; the parents are part of the path. *)
Definition create_dir_all : M World () := w_call (call (
  fs ← get_state;
  match fs_root fs with
  | RootDir => mret ()
  | RootNotDir => throw (os_error AlreadyExists)
  | RootMissing => modify (set_root RootDir false)
  end)).

(** [sync_parent_dir] of the storage directory: nothing to do when the path has
    no parent component. *)
Definition sync_root_parent : M World () := w_call (
  fs ← get_state;
  if fs_has_parent fs then
    call (mret ()) ;; call (modify (λ fs, set_root (fs_root fs) true fs))
  else mret ()).

(** [create_dir_all_synced]. *)
Definition create_dir_all_synced : M World () :=
  existed ← root_exists;
  create_dir_all ;;
  if negb existed then sync_root_parent else mret ().

Definition lock_options : OpenOptions := mkOpenOptions true false false true false.

(** [acquire_write_lock]. *)
Definition acquire_write_lock : M World File :=
  file ← w_call (fs_open WRITE_LOCK_FILE_NAME lock_options);
  r ← try_catch (w_call (fs_try_lock file));
  match r with
  | Ok _ => mret file
  | Err e =>
      if bool_decide (error_kind e = WouldBlock) then
        throw (IoError WouldBlock (Message "storage directory is already open for writing"))
      else throw e
  end.

Section engine.
Context `{Nojson} `{Noraft}.

(** ** [StorageEngine] *)

Record StorageEngine := mkStorageEngine {
  write_lock : File;
  engine_registry : NodeRegistry;
  engine_index : CheckpointIndex;
  engine_writer : SegmentWriter;
}.

(** The engine with the files and its counters. *)
Record EngineState := mkEngineState { es_world : World; es_engine : StorageEngine }.

Definition es_on_world {A} (m : M World A) : M EngineState A :=
  zoom es_world (λ w s, mkEngineState w (es_engine s)) m.
Definition es_on_writer {A} (m : M WriterState A) : M EngineState A :=
  zoom (λ s, mkWriterState (es_world s) (engine_writer (es_engine s)))
       (λ ws s, mkEngineState (ws_world ws)
          (mkStorageEngine (write_lock (es_engine s)) (engine_registry (es_engine s))
             (engine_index (es_engine s)) (ws_writer ws))) m.
Definition get_engine : M EngineState StorageEngine := s ← get_state; mret (es_engine s).
Definition count (f : StorageMetrics → StorageMetrics) : M EngineState () := es_on_world (w_count f).
Definition set_registry (r : NodeRegistry) : M EngineState () :=
  modify (λ s, mkEngineState (es_world s)
    (mkStorageEngine (write_lock (es_engine s)) r (engine_index (es_engine s))
       (engine_writer (es_engine s)))).
Definition set_index (x : CheckpointIndex) : M EngineState () :=
  modify (λ s, mkEngineState (es_world s)
    (mkStorageEngine (write_lock (es_engine s)) (engine_registry (es_engine s)) x
       (engine_writer (es_engine s)))).

(** Dropping the lock file releases the lock. *)
Definition release_lock (f : File) (w : World) : World :=
  mkWorld (set_locks (fs_locks (w_fs w) ∖ {[file_inode f]}) (w_fs w)) (w_metrics w).

Definition release_on_error {A} (f : File) (m : M World A) : M World A := λ w,
  match m w with
  | (Ok a, w') => (Ok a, w')
  | (Err e, w') => (Err e, release_lock f w')
  end.

(** [StorageEngine::with_max_segment_len]; [metrics] is a local variable until
    the engine is built, so the counters start from zero. *)
Definition with_max_segment_len (max_segment_len : N) : M World StorageEngine :=
  if max_segment_len =? 0 then throw (invalid_input "max segment length must be non-zero")
  else
    create_dir_all_synced ;;
    write_lock ← acquire_write_lock;
    release_on_error write_lock $
    active_segment ← select_active_append_segment;
    w_count (λ _, metrics_default) ;;
    recover_storage_dir active_segment ;;
    registry ← registry_load;
    checkpoint_index ← index_load registry;
    w_count (registry_loaded (active_node_count registry) (removed_node_count registry)) ;;
    w_count (checkpoint_index_loaded (index_len checkpoint_index)) ;;
    writer ← segment_writer_open active_segment max_segment_len;
    mret (mkStorageEngine write_lock registry checkpoint_index writer).

(** [StorageEngine::new]. *)
Definition engine_new : M World StorageEngine := with_max_segment_len DEFAULT_MAX_SEGMENT_LEN.

(** [StorageEngine::metrics]. *)
Definition engine_metrics (s : EngineState) : StorageMetrics := w_metrics (es_world s).

(** [StorageEngine::refresh_registry_metrics]. *)
Definition refresh_registry_metrics : M EngineState () :=
  e ← get_engine;
  count (node_counts_changed (active_node_count (engine_registry e))
                             (removed_node_count (engine_registry e))).

(** [StorageEngine::refresh_checkpoint_index_metrics]. *)
Definition refresh_checkpoint_index_metrics : M EngineState () :=
  e ← get_engine;
  count (checkpoint_index_changed (index_len (engine_index e))).

(** [StorageEngine::ensure_node_exists]. *)
Definition engine_ensure_node_exists (node_id : N) (operation : StorageOperationKind)
  : M EngineState () :=
  e ← get_engine;
  if is_active (engine_registry e) node_id then mret ()
  else if is_removed (engine_registry e) node_id then
    count (rejected_operation operation RemovedNode) ;;
    throw node_removed_error
  else
    count (rejected_operation operation UnknownNode) ;;
    throw node_not_found_error.

(** [StorageEngine::create_node]. *)
Definition create_node (node_id : N) (md : NodeMetadata) : M EngineState () :=
  e ← get_engine;
  let '(r, registry) := registry_create_node node_id md (engine_registry e) in
  lift_result r ;;
  append ← es_on_writer (writer_append node_id (RecordSnapshotCheckpoint initial_checkpoint));
  es_on_writer writer_sync ;;
  e ← get_engine;
  let checkpoint_index := set_checkpoint_position node_id append (engine_index e) in
  es_on_world (index_save checkpoint_index) ;;
  es_on_world (registry_save registry) ;;
  set_registry registry ;;
  set_index checkpoint_index ;;
  count node_created ;;
  refresh_registry_metrics ;;
  refresh_checkpoint_index_metrics.

(** [StorageEngine::node_metadata] and [StorageEngine::nodes]. *)
Definition node_metadata (e : StorageEngine) (node_id : N) : option NodeMetadata :=
  registry_metadata (engine_registry e) node_id.
Definition engine_nodes (e : StorageEngine) : list (N * NodeMetadata) :=
  registry_active_nodes (engine_registry e).

(** [StorageEngine::load]. *)
Definition engine_load (node_id : N) : M EngineState NodeState :=
  engine_ensure_node_exists node_id OpLoad ;;
  e ← get_engine;
  es_on_world (replay_node_state (active_segment (engine_writer e)) node_id
                 (checkpoint_position (engine_index e) node_id) true).

(** The states of the active nodes out of a replay: the loop at the end of
    [load_all]. *)
Definition node_states (ids : gset N) (replay : gmap N NodeState) : gmap N NodeState :=
  set_to_map (λ node_id, (node_id, default node_state_default (replay !! node_id))) ids.

(** [StorageEngine::load_all]. *)
Definition engine_load_all : M EngineState (gmap N NodeState) :=
  e ← get_engine;
  let active_node_ids := active_node_ids (engine_registry e) in
  if bool_decide (active_node_ids = ∅) then mret ∅
  else
    let checkpoint_hints := checkpoint_positions (engine_index e) active_node_ids in
    replay ← es_on_world (replay_storage_dir (active_segment (engine_writer e))
                            (Some active_node_ids) checkpoint_hints true);
    mret (node_states active_node_ids replay).

(** [StorageEngine::save_record]. *)
Definition save_record (node_id : N) (record : SegmentRecord) (operation : StorageOperationKind)
  : M EngineState () :=
  engine_ensure_node_exists node_id operation ;;
  es_on_writer (writer_append node_id record) ;;
  mret ().

Definition save_current_term (node_id term : N) : M EngineState () :=
  save_record node_id (RecordCurrentTerm term) OpSaveCurrentTerm.
Definition save_voted_for (node_id : N) (voted_for : option N) : M EngineState () :=
  save_record node_id (RecordVotedFor voted_for) OpSaveVotedFor.
Definition append_entries (node_id : N) (append : LogAppend) : M EngineState () :=
  save_record node_id (RecordAppend append) OpAppendEntries.

(** The loop of [StorageEngine::collect_garbage]; returns the number of deleted segments. *)
Fixpoint delete_segments (barrier : GcBarrier) (active : SegmentName) (segments : list SegmentPath)
  (deleted : N) : M EngineState N :=
  match segments with
  | [] => mret deleted
  | segment :: segments =>
      if bool_decide (path_name segment = active) then delete_segments barrier active segments deleted
      else if negb (allows_delete barrier (path_name segment)) then
        delete_segments barrier active segments deleted
      else
        r ← try_catch (es_on_world (w_call (fs_remove_file (path_file segment))));
        match r with
        | Ok _ => delete_segments barrier active segments (deleted + 1)
        | Err e =>
            if bool_decide (error_kind e = NotFound)
            then delete_segments barrier active segments deleted
            else throw e
        end
  end.

(** [StorageEngine::collect_garbage]. *)
Definition collect_garbage : M EngineState () :=
  count gc_ran ;;
  e ← get_engine;
  match gc_barrier (engine_index e) (active_node_ids (engine_registry e)) with
  | None => mret ()
  | Some barrier =>
      segments ← es_on_world discover_segment_paths;
      deleted ← delete_segments barrier (active_segment (engine_writer e)) segments 0;
      (if negb (deleted =? 0) then count (gc_deleted_segments deleted) else mret ()) ;;
      if negb (deleted =? 0) then es_on_world (w_call fs_sync_dir) else mret ()
  end.

(** [StorageEngine::save_snapshot]. *)
Definition save_snapshot (node_id : N) (checkpoint : SnapshotCheckpoint) : M EngineState () :=
  engine_ensure_node_exists node_id OpSaveSnapshot ;;
  lift_result (checkpoint_validate checkpoint) ;;
  append ← es_on_writer (writer_append node_id (RecordSnapshotCheckpoint checkpoint));
  es_on_writer writer_sync ;;
  e ← get_engine;
  let checkpoint_index := set_checkpoint_position node_id append (engine_index e) in
  es_on_world (index_save checkpoint_index) ;;
  set_index checkpoint_index ;;
  refresh_checkpoint_index_metrics ;;
  collect_garbage ;;
  count snapshot_checkpoint_saved.

(** [StorageEngine::remove_node]. *)
Definition remove_node (node_id : N) : M EngineState () :=
  engine_ensure_node_exists node_id OpRemoveNode ;;
  e ← get_engine;
  let '(r, registry) := registry_remove_node node_id (engine_registry e) in
  lift_result r ;;
  es_on_world (registry_save registry) ;;
  set_registry registry ;;
  e ← get_engine;
  let checkpoint_index := index_remove_node node_id (engine_index e) in
  es_on_world (index_save checkpoint_index) ;;
  set_index checkpoint_index ;;
  collect_garbage ;;
  count node_removed ;;
  refresh_registry_metrics ;;
  refresh_checkpoint_index_metrics.

(** [StorageEngine::sync]. *)
Definition engine_sync : M EngineState () :=
  count sync_requested ;;
  es_on_writer writer_sync.

(** Dropping the engine. *)
Definition engine_drop (s : EngineState) : World := release_lock (write_lock (es_engine s)) (es_world s).

End engine.
