(* ===== verification/ReadOnly.v ===== *)
(** * Read-only access, [src/storage.rs]

    [load], [load_all] and [nodes] read a storage directory without an engine
    and without the write lock. *)
From Stdlib Require Import Strings.Byte Strings.String.
From S2P Require Import Prelude Metrics Fs Text Json Noraft State Crc32c Codec Frame Segment.
From S2P Require Import Replay Registry Checkpoint Engine.

(** A reader counts in [StorageMetricsCounters::default()], which is dropped with
    it; the counters of the world are those of an engine. *)
Definition own_metrics {A} (m : M World A) : M World A := λ w,
  let '(r, w') := m (mkWorld (w_fs w) metrics_default) in (r, mkWorld (w_fs w') (w_metrics w)).

Section read_only.
Context `{NJ : Nojson} `{NR : Noraft}.

(** [ensure_node_exists]. *)
Definition ensure_node_exists (registry : NodeRegistry) (node_id : N) : result () :=
  if is_active registry node_id then Ok ()
  else if is_removed registry node_id then Err node_removed_error
  else Err node_not_found_error.

Record ReadOnlyStorage := mkReadOnlyStorage {
  ro_registry : NodeRegistry;
  ro_index : CheckpointIndex;
}.

(** [std::fs::metadata(&dir)?.is_dir()]. *)
Definition root_is_dir : M World bool := w_call (call (
  fs ← get_state;
  match fs_root fs with
  | RootMissing => throw (os_error NotFound)
  | RootNotDir => mret false
  | RootDir => mret true
  end)).

(** [ReadOnlyStorage::open]. *)
Definition read_only_open : M World ReadOnlyStorage :=
  is_dir ← root_is_dir;
  if negb is_dir then throw (invalid_input "storage path is not a directory")
  else
    registry ← registry_load;
    checkpoint_index ← index_load registry;
    w_count (registry_loaded (active_node_count registry) (removed_node_count registry)) ;;
    w_count (checkpoint_index_loaded (index_len checkpoint_index)) ;;
    mret (mkReadOnlyStorage registry checkpoint_index).

(** [ReadOnlyStorage::load]. *)
Definition read_only_load (s : ReadOnlyStorage) (node_id : N) : M World NodeState :=
  lift_result (ensure_node_exists (ro_registry s) node_id) ;;
  active ← select_active_append_segment;
  replay_node_state active node_id (checkpoint_position (ro_index s) node_id) false.

(** [ReadOnlyStorage::load_all]. *)
Definition read_only_load_all (s : ReadOnlyStorage) : M World (gmap N NodeState) :=
  let active_node_ids := active_node_ids (ro_registry s) in
  if bool_decide (active_node_ids = ∅) then mret ∅
  else
    let checkpoint_hints := checkpoint_positions (ro_index s) active_node_ids in
    active ← select_active_append_segment;
    replay ← replay_storage_dir active (Some active_node_ids) checkpoint_hints false;
    mret (node_states active_node_ids replay).

(** [load], [load_all] and [nodes]. *)
Definition load (node_id : N) : M World NodeState := own_metrics (s ← read_only_open; read_only_load s node_id).

Definition load_all : M World (gmap N NodeState) := own_metrics (s ← read_only_open; read_only_load_all s).

Definition nodes : M World (gmap N NodeMetadata) := own_metrics (
  s ← read_only_open;
  mret (list_to_map (registry_active_nodes (ro_registry s)))).
End read_only.
