(* ===== verification/WriterCorrect.v ===== *)
(** * The segment writer extends the log

    The writer's view of the active segment agrees with the file, and an append
    adds exactly one record to the log of the directory, in the active segment
    or in a fresh one. *)
From Stdlib Require Import Strings.Byte.
From S2P Require Import Prelude Metrics Fs Text Noraft State Crc32c Codec Format Frame Segment.
From S2P Require Import Replay Recovery ReplayCorrect.

(** ** Well-formed file systems *)

(** Names have inodes of their own, and the next inode is fresh. *)
Definition fs_wf (fs : Fs) : Prop :=
  (∀ name name' i, fs_entries fs !! name = Some (EntryFile i) →
     fs_entries fs !! name' = Some (EntryFile i) → name = name') ∧
  (∀ name i, fs_entries fs !! name = Some (EntryFile i) → i < fs_next_inode fs).

(** [fs'] has the segments of [fs]. *)
Definition same_segments (fs fs' : Fs) : Prop :=
  fs_root fs' = fs_root fs ∧ fs_faults fs' = fs_faults fs ∧
  ∀ name n, parse_file_name name = Some n →
    fs_entries fs' !! name = fs_entries fs !! name ∧
    ∀ i, fs_entries fs !! name = Some (EntryFile i) → data_of i fs' = data_of i fs.

(** The writer agrees with the files: the segments are complete, the active one
    is the last, and the writer's handle and length are those of its file. *)
Record writer_ok (fs : Fs) (w : SegmentWriter) (segs : list segment_contents)
  (bodies : list (list byte)) : Prop := {
  wo_clean : clean_dir fs (segs ++ [(active_segment w, bodies)]);
  wo_wf : fs_wf fs;
  wo_entry : fs_entries fs !! file_name (active_segment w) = Some (EntryFile (file_inode (writer_file w)));
  wo_data : data_of (file_inode (writer_file w)) fs = segment_data bodies [];
  wo_writable : file_writable (writer_file w) = true;
  wo_append : file_append (writer_file w) = true;
  wo_len : segment_len w = lenN (segment_data bodies []);
}.

(** The log of the writer's directory. *)
Definition writer_log (w : SegmentWriter) (segs : list segment_contents) (bodies : list (list byte))
  : list (RecordPosition * list byte) := log_of (segs ++ [(active_segment w, bodies)]).

(** ** Lemmas on directories *)

Lemma Forall2_In_l {A B} (R S : A → B → Prop) l k :
  Forall2 R l k → (∀ x y, x ∈ l → R x y → S x y) → Forall2 S l k.
Proof.
  induction 1 as [|x y l k Hxy Hlk IH]; intros HS; [constructor|]. constructor.
  - apply HS; [by left|done].
  - apply IH. intros x' y' Hx'. apply HS. by right.
Qed.

Lemma segments_of_unique fs l :
  StronglySorted path_lt l → (∀ p, p ∈ l ↔ p ∈ segments_of fs) → segments_of fs = l.
Proof.
  intros Hl Hin. pose proof (segments_of_sorted fs) as Hs.
  assert (Hnd : ∀ l, StronglySorted path_lt l → NoDup l).
  { induction 1 as [|p l' Hl' IH Hp]; [constructor|]. constructor; [|done].
    intros Hpl. rewrite list.Forall_forall in Hp. specialize (Hp p Hpl).
    unfold path_lt, name_lt in Hp. lia. }
  apply (StronglySorted_unique_strong path_lt); [|done|done|].
  - intros p q _ _ Hpq Hqp. unfold path_lt, name_lt in *. lia.
  - apply NoDup_Permutation; [by apply Hnd|by apply Hnd|]. intros p. by rewrite Hin.
Qed.

Lemma segment_paths_parse fs p : p ∈ segments_of fs → parse_file_name (path_file p) = Some (path_name p).
Proof. intros (-> & Hid & _)%elem_of_segments_of. by apply parse_file_name_print. Qed.

Lemma same_segments_of fs fs' : same_segments fs fs' → segments_of fs' = segments_of fs.
Proof.
  intros (_ & _ & Hs). apply segments_of_unique; [apply segments_of_sorted|].
  intros p. rewrite !elem_of_segments_of.
  assert (He : path_file p = file_name (path_name p) → segment_id (path_name p) < U64_LIMIT →
            fs_entries fs' !! path_file p = fs_entries fs !! path_file p).
  { intros Hf Hid. apply (Hs _ (path_name p)). rewrite Hf. by apply parse_file_name_print. }
  split; intros (Hf & Hid & i & Hi); (split; [done|]); (split; [done|]); exists i;
    specialize (He Hf Hid); congruence.
Qed.

Lemma same_segments_holds fs fs' p seg :
  same_segments fs fs' → p ∈ segments_of fs → holds_segment fs p seg → holds_segment fs' p seg.
Proof.
  intros (Hr & _ & Hs) Hp (Hn & Hb & i & Hroot & He & Hd). split; [done|]. split; [done|].
  destruct (Hs (path_file p) (path_name p) (segment_paths_parse _ _ Hp)) as [He' Hd'].
  exists i. split; [by rewrite Hr|]. split; [by rewrite He'|]. by rewrite (Hd' i He).
Qed.

Lemma same_segments_clean fs fs' segs : same_segments fs fs' → clean_dir fs segs → clean_dir fs' segs.
Proof.
  intros Hsame (Hnf & Hroot & Hsegs). pose proof Hsame as (Hr & Hf & _).
  split; [unfold no_faults in *; by rewrite Hf|]. split; [by rewrite Hr|].
  rewrite (same_segments_of _ _ Hsame). eapply Forall2_In_l; [exact Hsegs|].
  intros p seg Hp. by apply same_segments_holds.
Qed.

Lemma same_segments_refl fs : same_segments fs fs.
Proof. done. Qed.

Lemma same_segments_trans fs1 fs2 fs3 :
  same_segments fs1 fs2 → same_segments fs2 fs3 → same_segments fs1 fs3.
Proof.
  intros (Hr1 & Hf1 & H1) (Hr2 & Hf2 & H2). split; [congruence|]. split; [congruence|].
  intros name n Hn. destruct (H1 name n Hn) as [E1 D1], (H2 name n Hn) as [E2 D2].
  split; [congruence|]. intros i Hi. rewrite D2; [by apply D1|by rewrite E1].
Qed.

(** A writer survives changes outside the segments. *)
Lemma writer_ok_same fs fs' w segs bodies :
  same_segments fs fs' → fs_wf fs' → segment_id (active_segment w) < U64_LIMIT →
  writer_ok fs w segs bodies → writer_ok fs' w segs bodies.
Proof.
  intros Hsame Hwf Hid [Hc _ He Hd Hw Ha Hl].
  pose proof Hsame as (_ & _ & Hs).
  destruct (Hs _ _ (parse_file_name_print _ Hid)) as [He' Hd'].
  split; try done.
  - by eapply same_segments_clean.
  - by rewrite He'.
  - rewrite (Hd' _ He). exact Hd.
Qed.

Lemma Forall2_snoc_inv_r {A B} (R : A → B → Prop) l k y :
  Forall2 R l (k ++ [y]) → ∃ l' x, l = l' ++ [x] ∧ Forall2 R l' k ∧ R x y.
Proof.
  intros H. apply Forall2_app_inv_r in H as (l' & l2 & H1 & H2 & ->).
  apply Forall2_cons_inv_r in H2 as (x & l3 & Hx & H3 & ->).
  apply Forall2_nil_inv_r in H3 as ->. eauto.
Qed.

(** The active segment is the last one of the directory. *)
Lemma writer_segments fs w segs bodies :
  writer_ok fs w segs bodies →
  ∃ paths, segments_of fs = paths ++ [mkSegmentPath (active_segment w) (file_name (active_segment w))] ∧
           Forall2 (holds_segment fs) paths segs ∧ segment_id (active_segment w) < U64_LIMIT ∧
           bodies_fit bodies.
Proof.
  intros [(Hnf & Hroot & Hsegs) _ _ _ _ _ _].
  destruct (Forall2_snoc_inv_r _ _ _ _ Hsegs) as (paths & p & Heq & Hpaths & (Hn & Hb & _)).
  assert (Hin : p ∈ segments_of fs) by (rewrite Heq; apply elem_of_app; right; by left).
  apply elem_of_segments_of in Hin as (Hf & Hid & _). cbn [fst snd] in *.
  exists paths. rewrite Heq. destruct p as [n f]. cbn in *. subst. done.
Qed.

Lemma file_names_differ a b :
  segment_id a < U64_LIMIT → segment_id b < U64_LIMIT → a ≠ b → file_name a ≠ file_name b.
Proof. intros Ha Hb Hne E. by apply Hne, file_name_inj. Qed.

(** ** Appending to the active segment *)

Lemma segment_data_snoc bodies body :
  segment_data bodies [] ++ wire_frame body = segment_data (bodies ++ [body]) [].
Proof.
  unfold segment_data. rewrite frames_bytes_app, !app_nil_r, <-app_assoc. do 2 f_equal.
  unfold frames_bytes. cbn. by rewrite app_nil_r.
Qed.

(** The log grows by one record at the end. *)
Lemma log_of_snoc segs name bodies body :
  log_of (segs ++ [(name, bodies ++ [body])]) =
  log_of (segs ++ [(name, bodies)]) ++ [(mkRecordPosition name (lenN (segment_data bodies [])), body)].
Proof.
  unfold log_of. rewrite !bind_app, <-app_assoc. f_equal. cbn [mbind list_bind]. rewrite !app_nil_r.
  unfold segment_log. cbn [fst snd]. rewrite with_offsets_app, fmap_app. f_equal.
  by rewrite segment_data_length, lenN_nil, N.add_0_r.
Qed.

Lemma log_of_new segs name body :
  log_of (segs ++ [(name, [body])]) = log_of segs ++ [(mkRecordPosition name SEGMENT_FILE_HEADER_LEN, body)].
Proof. unfold log_of. by rewrite bind_app. Qed.

(** The entries of other segments have other inodes. *)
Lemma holds_segment_update fs i data p seg :
  holds_segment fs p seg → fs_entries fs !! path_file p ≠ Some (EntryFile i) →
  holds_segment (update_data i data fs) p seg.
Proof.
  intros (Hn & Hb & j & Hr & He & Hd) Hne. split; [done|]. split; [done|]. exists j.
  split; [done|]. split; [done|]. rewrite data_of_update_data, decide_False; [done|]. congruence.
Qed.

Lemma writer_ok_append fs w segs bodies body :
  writer_ok fs w segs bodies → lenN body ≤ MAX_RECORD_BODY_LEN →
  let f := writer_file w in
  let len := segment_len w + lenN (wire_frame body) in
  writer_ok (update_data (file_inode f) (data_of (file_inode f) fs ++ wire_frame body) fs)
            (mkSegmentWriter (active_segment w) (seek_to len f) len (max_segment_len w))
            segs (bodies ++ [body]).
Proof.
  intros Hok Hb f len. destruct (writer_segments _ _ _ _ Hok) as (paths & Hpaths & Hholds & Hid & Hfit).
  destruct Hok as [(Hnf & Hroot & Hsegs) Hwf He Hd Hw Ha Hl]. fold f in He, Hd, Hw, Ha.
  set (data' := data_of (file_inode f) fs ++ wire_frame body).
  assert (Hd' : data' = segment_data (bodies ++ [body]) []) by (unfold data'; by rewrite Hd, segment_data_snoc).
  assert (Hother : ∀ p seg, p ∈ paths → holds_segment fs p seg →
            holds_segment (update_data (file_inode f) data' fs) p seg).
  { intros p seg Hp Hseg. apply holds_segment_update; [done|]. intros Hpe.
    assert (Hin : p ∈ segments_of fs) by (rewrite Hpaths; apply elem_of_app; by left).
    apply elem_of_segments_of in Hin as (Hf & Hpid & _).
    pose proof (proj1 Hwf _ _ _ Hpe He) as E. rewrite Hf in E. apply file_name_inj in E; [|done..].
    pose proof (segments_of_sorted fs) as Hs. rewrite Hpaths in Hs.
    pose proof (StronglySorted_app_1_elem_of _ _ _ p _ Hs Hp (list_elem_of_here _ _)) as Hlt.
    unfold path_lt, name_lt in Hlt. cbn in Hlt. rewrite E in Hlt. lia. }
  split; cbn [active_segment writer_file segment_len]; try done.
  - split; [done|]. split; [done|]. change (segments_of (update_data _ _ fs)) with (segments_of fs).
    rewrite Hpaths. apply Forall2_app; [by eapply Forall2_In_l|]. constructor; [|constructor].
    split; [done|]. split; [by apply Forall_app; repeat constructor|]. cbn [snd path_file].
    exists (file_inode f). split; [done|]. split; [done|].
    rewrite data_of_update_data, decide_True by done. exact Hd'.
  - change (file_inode (seek_to len f)) with (file_inode f).
    rewrite data_of_update_data, decide_True by done. exact Hd'.
  - rewrite <-segment_data_snoc, lenN_app, <-Hl. done.
Qed.

(** ** The operations of the writer *)

Lemma with_file_kept_run {A} (f : File) (m : M Io A) w a io :
  m (mkIo (w_fs w) (w_metrics w) f) = (Ok a, io) →
  with_file_kept f m w = (Ok (a, io_file io), mkWorld (io_fs io) (io_metrics io)).
Proof. intros Hm. unfold with_file_kept, with_file. by rewrite (bind_ok _ _ _ _ _ Hm). Qed.

Lemma on_writer_file_run {A} (m : M Io A) ws a io :
  m (mkIo (w_fs (ws_world ws)) (w_metrics (ws_world ws)) (writer_file (ws_writer ws))) = (Ok a, io) →
  on_writer_file m ws =
  (Ok a, mkWriterState (mkWorld (io_fs io) (io_metrics io))
           (mkSegmentWriter (active_segment (ws_writer ws)) (io_file io) (segment_len (ws_writer ws))
              (max_segment_len (ws_writer ws)))).
Proof.
  intros Hm. unfold on_writer_file, get_writer, mbind, M_bind, get_state, mret, M_ret.
  unfold on_world, zoom. by rewrite (with_file_kept_run _ _ _ _ _ Hm).
Qed.

Lemma file_sync_run io :
  no_faults (io_fs io) →
  file_sync io = (Ok (), set_io_fs (sync_inode (file_inode (io_file io)) (io_fs io)) io).
Proof. intros Hnf. unfold file_sync. by rewrite (bind_ok _ _ _ _ _ (io_call_none io Hnf)). Qed.

Lemma sync_current_segment_run fs m w :
  no_faults fs →
  sync_current_segment (mkWriterState (mkWorld fs m) w) =
  (Ok (), mkWriterState (mkWorld (sync_inode (file_inode (writer_file w)) fs) (segment_synced m)) w).
Proof.
  intros Hnf. unfold sync_current_segment.
  erewrite bind_ok; [|eapply on_writer_file_run, file_sync_run; done]. by destruct w.
Qed.

Lemma sync_inode_same fs i : fs_wf fs → same_segments fs (sync_inode i fs) ∧ fs_wf (sync_inode i fs).
Proof.
  intros Hwf. split; [|done]. split; [done|]. split; [done|]. intros name n _. split; [done|].
  intros j _. apply data_of_sync_inode.
Qed.

(** [SegmentWriter::sync]: the file is synced unless nothing is pending. *)
Lemma writer_sync_run fs m w :
  no_faults fs → fs_wf fs →
  ∃ fs' m', writer_sync (mkWriterState (mkWorld fs m) w) = (Ok (), mkWriterState (mkWorld fs' m') w) ∧
    same_segments fs fs' ∧ fs_wf fs' ∧ unsynced_records m' = 0 ∧ unsynced_bytes m' = 0 ∧
    fs_entries fs' = fs_entries fs.
Proof.
  intros Hnf Hwf. unfold writer_sync, mbind, M_bind, get_state. cbn [ws_world w_metrics].
  destruct (N.eqb_spec (unsynced_records m) 0) as [Hr|Hr]; cbn [negb orb].
  - destruct (N.eqb_spec (unsynced_bytes m) 0) as [Hb|Hb]; cbn [negb].
    + exists fs, m. split; [done|]. split; [apply same_segments_refl|done].
    + rewrite sync_current_segment_run by done. eexists _, _. split; [reflexivity|].
      destruct (sync_inode_same fs (file_inode (writer_file w)) Hwf). done.
  - rewrite sync_current_segment_run by done. eexists _, _. split; [reflexivity|].
    destruct (sync_inode_same fs (file_inode (writer_file w)) Hwf). done.
Qed.

(** A new file of the directory. *)
Definition new_file (name : string) (fs : Fs) : Fs :=
  let i := fs_next_inode fs in
  let fs := set_inodes (<[i := mkInode [] []]> (fs_inodes fs)) (i + 1) fs in
  update_entries (<[name := EntryFile i]> (fs_entries fs)) fs.

Lemma new_file_data name fs j :
  data_of j (new_file name fs) = if decide (fs_next_inode fs = j) then [] else data_of j fs.
Proof.
  unfold data_of, inode_of, new_file. cbn. case_decide as E.
  - subst j. by rewrite lookup_insert_eq.
  - by rewrite lookup_insert_ne.
Qed.

Lemma new_file_wf name fs : fs_wf fs → fs_entries fs !! name = None → fs_wf (new_file name fs).
Proof.
  intros [Hinj Hb] Hname. unfold fs_wf, new_file. cbn. split.
  - intros a b i. rewrite !lookup_insert.
    case_decide; case_decide; subst; try done.
    + intros [= <-] Hi. apply Hb in Hi. lia.
    + intros Hi [= <-]. apply Hb in Hi. lia.
    + apply Hinj.
  - intros a i. rewrite lookup_insert. case_decide; [by intros [= <-]; lia|].
    intros Hi. apply Hb in Hi. lia.
Qed.

(** Creating a segment file and writing its header. *)
Definition new_segment_fs (name : string) (fs : Fs) : Fs :=
  update_data (fs_next_inode fs) SEGMENT_FORMAT_MAGIC (new_file name fs).

Lemma create_active_segment_file_run fs m name :
  no_faults fs → fs_root fs = RootDir → fs_entries fs !! name = None →
  create_active_segment_file name (mkWorld fs m) =
  (Ok (mkFile (fs_next_inode fs) 4 true true), mkWorld (new_segment_fs name fs) m).
Proof.
  intros Hnf Hr Hn. unfold create_active_segment_file.
  assert (Hopen : w_call (fs_open name create_active_options) (mkWorld fs m) =
    (Ok (mkFile (fs_next_inode fs) 0 true true), mkWorld (new_file name fs) m)).
  { unfold w_call, zoom, fs_open. cbn [w_fs]. rewrite call_none by done.
    unfold in_dir, mbind, M_bind, get_state. rewrite Hr, Hn. done. }
  rewrite (bind_ok _ _ _ _ _ Hopen).
  set (f := mkFile _ 0 true true).
  assert (Hw : file_write_all SEGMENT_FORMAT_MAGIC (mkIo (new_file name fs) m f) =
    (Ok (), mkIo (new_segment_fs name fs) m (mkFile (fs_next_inode fs) 4 true true))).
  { rewrite file_append_run by done. unfold io_data. cbn [io_file io_fs file_inode f].
    rewrite new_file_data, decide_True by done. done. }
  by rewrite (bind_ok _ _ _ _ _ (with_file_kept_run f _ (mkWorld (new_file name fs) m) _ _ Hw)).
Qed.

Lemma fs_sync_dir_run fs m :
  no_faults fs → fs_root fs = RootDir →
  w_call fs_sync_dir (mkWorld fs m) = (Ok (), mkWorld (sync_entries fs) m).
Proof.
  intros Hnf Hr. unfold w_call, zoom, fs_sync_dir. cbn [w_fs].
  rewrite (bind_ok _ _ fs () fs); [by rewrite call_none|].
  rewrite call_none by done. unfold in_dir, mbind, M_bind, get_state. by rewrite Hr.
Qed.

Definition rotated_fs (next : SegmentName) (i : N) (fs : Fs) : Fs :=
  sync_entries (new_segment_fs (file_name next) (sync_inode i fs)).

(** A file for a segment after all others is the last of the segments. *)
Lemma segments_of_new fs fs' next i :
  fs_entries fs' = <[file_name next := EntryFile i]> (fs_entries fs) →
  fs_entries fs !! file_name next = None → segment_id next < U64_LIMIT →
  (∀ p, p ∈ segments_of fs → path_lt p (mkSegmentPath next (file_name next))) →
  segments_of fs' = segments_of fs ++ [mkSegmentPath next (file_name next)].
Proof.
  intros Hent Hnone Hnid Hlt. apply segments_of_unique.
  - apply StronglySorted_app_2; [|apply segments_of_sorted|by repeat constructor].
    intros p q Hp Hq. apply list_elem_of_singleton in Hq as ->. by apply Hlt.
  - intros p. rewrite elem_of_app, list_elem_of_singleton, !elem_of_segments_of, Hent. split.
    + intros [(Hf & Hpid & j & Hj)| ->].
      * split; [done|]. split; [done|]. exists j. rewrite lookup_insert_ne; [done|].
        intros E. rewrite <-E, Hnone in Hj. done.
      * split; [done|]. split; [done|]. exists i. by rewrite lookup_insert_eq.
    + intros (Hf & Hpid & j & Hj). rewrite lookup_insert in Hj. case_decide as E.
      * right. rewrite Hf in E. apply file_name_inj in E; [|done..]. destruct p as [np fp].
        cbn in *. by subst.
      * left. eauto.
Qed.

(** Rotation: the old segment is synced and a fresh one follows it. *)
Lemma writer_ok_rotate fs w segs bodies next :
  writer_ok fs w segs bodies → segment_id next = segment_id (active_segment w) + 1 →
  segment_id next < U64_LIMIT → fs_entries fs !! file_name next = None →
  writer_ok (rotated_fs next (file_inode (writer_file w)) fs)
            (mkSegmentWriter next (mkFile (fs_next_inode fs) 4 true true) 4 (max_segment_len w))
            (segs ++ [(active_segment w, bodies)]) [].
Proof.
  intros Hok Hnext Hnid Hnone.
  destruct (writer_segments _ _ _ _ Hok) as (paths & Hpaths & Hholds & Hid & Hfit).
  pose proof Hok as [(Hnf & Hroot & Hsegs) Hwf He Hd Hw Ha Hl].
  set (i := file_inode (writer_file w)) in *. set (fs' := rotated_fs next i fs).
  destruct (sync_inode_same fs i Hwf) as [Hsame Hwf1].
  assert (Hdata : ∀ j, data_of j fs' =
    if decide (fs_next_inode fs = j) then SEGMENT_FORMAT_MAGIC else data_of j fs).
  { intros j. unfold fs', rotated_fs. change (data_of j (sync_entries ?x)) with (data_of j x).
    unfold new_segment_fs. rewrite data_of_update_data. change (fs_next_inode (sync_inode i fs)) with (fs_next_inode fs).
    case_decide; [done|]. rewrite new_file_data, decide_False by done. apply data_of_sync_inode. }
  assert (Hent : fs_entries fs' = <[file_name next := EntryFile (fs_next_inode fs)]> (fs_entries fs)) by done.
  set (pnext := mkSegmentPath next (file_name next)).
  assert (Hlt : ∀ p, p ∈ segments_of fs → path_lt p pnext).
  { intros p Hp. unfold path_lt, name_lt. cbn. rewrite Hnext. rewrite Hpaths in Hp.
    apply elem_of_app in Hp as [Hp|Hp].
    - pose proof (segments_of_sorted fs) as Hs. rewrite Hpaths in Hs.
      pose proof (StronglySorted_app_1_elem_of _ _ _ p _ Hs Hp (list_elem_of_here _ _)) as Hlt.
      unfold path_lt, name_lt in Hlt. cbn in Hlt. lia.
    - apply list_elem_of_singleton in Hp as ->. cbn. lia. }
  assert (Hsegs' : segments_of fs' = segments_of fs ++ [pnext]) by by eapply segments_of_new.
  split; cbn [active_segment writer_file segment_len]; try done.
  - split; [done|]. split; [done|]. rewrite Hsegs'. apply Forall2_app.
    + eapply Forall2_In_l; [exact Hsegs|]. intros p seg Hp (Hn & Hb & j & Hr & Hj & Hdj).
      split; [done|]. split; [done|]. exists j. split; [done|]. rewrite Hent, Hdata.
      rewrite lookup_insert_ne by (intros E; by rewrite <-E, Hnone in Hj). split; [done|].
      rewrite decide_False; [done|]. apply Hwf in Hj. lia.
    + constructor; [|constructor]. split; [done|]. split; [constructor|].
      exists (fs_next_inode fs). split; [done|]. cbn [path_file pnext].
      rewrite Hent, lookup_insert_eq, Hdata, decide_True by done. done.
  - pose proof (new_file_wf (file_name next) _ Hwf1 Hnone) as Hnw. exact Hnw.
  - rewrite Hent. by rewrite lookup_insert_eq.
  - cbn [file_inode]. by rewrite Hdata, decide_True.
Qed.

Lemma writer_rotate_run fs m w segs bodies :
  let next := mkSegmentName (segment_id (active_segment w) + 1) in
  writer_ok fs w segs bodies → segment_id next < U64_LIMIT → fs_entries fs !! file_name next = None →
  writer_rotate (mkWriterState (mkWorld fs m) w) =
  (Ok (), mkWriterState
     (mkWorld (rotated_fs next (file_inode (writer_file w)) fs)
              (segment_rotated (segment_id next) SEGMENT_FILE_HEADER_LEN (segment_synced m)))
     (mkSegmentWriter next (mkFile (fs_next_inode fs) 4 true true) 4 (max_segment_len w))).
Proof.
  intros next Hok Hid Hnone. pose proof Hok as [(Hnf & Hroot & _) Hwf _ _ _ _ _].
  unfold writer_rotate.
  rewrite (bind_ok _ _ _ _ _ (sync_current_segment_run fs m w Hnf)).
  set (ws1 := mkWriterState _ w).
  rewrite (bind_ok get_writer _ ws1 w ws1 eq_refl).
  assert (Hnext : next_append (active_segment w) = Ok next).
  { unfold next_append, segment_id_next, u64_checked_add. by rewrite (proj2 (N.ltb_lt _ _)). }
  rewrite (bind_ok (lift_result _) _ ws1 next ws1) by (unfold lift_result; by rewrite Hnext).
  erewrite (bind_ok (on_world _));
    [|unfold on_world, zoom; cbn [ws_world ws1]; by rewrite create_active_segment_file_run].
  erewrite (bind_ok (on_world _));
    [|unfold on_world, zoom, sync_parent_dir; cbn [ws_world]; by rewrite fs_sync_dir_run].
  done.
Qed.

(** *** Appending *)

(** The files that are not segments are as they were, and what is not a
    directory has not become one. *)
Definition same_metadata (fs fs' : Fs) : Prop :=
  fs_root fs' = fs_root fs ∧ fs_faults fs' = fs_faults fs ∧
  (∀ name, fs_entries fs !! name ≠ Some EntryOther → fs_entries fs' !! name ≠ Some EntryOther) ∧
  ∀ name, parse_file_name name = None →
    fs_entries fs' !! name = fs_entries fs !! name ∧
    ∀ i, fs_entries fs !! name = Some (EntryFile i) → data_of i fs' = data_of i fs.

Lemma same_metadata_trans fs1 fs2 fs3 :
  same_metadata fs1 fs2 → same_metadata fs2 fs3 → same_metadata fs1 fs3.
Proof.
  intros (Hr1 & Hf1 & Ho1 & H1) (Hr2 & Hf2 & Ho2 & H2). split; [congruence|]. split; [congruence|].
  split; [intros name Hn; by apply Ho2, Ho1|]. intros name Hn. destruct (H1 name Hn) as [E1 D1], (H2 name Hn) as [E2 D2].
  split; [congruence|]. intros i Hi. rewrite D2; [by apply D1|by rewrite E1].
Qed.

Lemma update_data_metadata fs i name n d :
  fs_wf fs → fs_entries fs !! name = Some (EntryFile i) → parse_file_name name = Some n →
  same_metadata fs (update_data i d fs).
Proof.
  intros [Hinj _] Hi Hn. split; [done|]. split; [done|]. split; [done|]. intros name' Hn'. split; [done|].
  intros j Hj. rewrite data_of_update_data, decide_False; [done|]. intros ->.
  rewrite (Hinj _ _ _ Hi Hj) in Hn. congruence.
Qed.

Lemma rotated_metadata fs i next :
  fs_wf fs → segment_id next < U64_LIMIT → same_metadata fs (rotated_fs next i fs).
Proof.
  intros [_ Hb] Hid. split; [done|]. split; [done|]. split.
  { intros name Hn. change (fs_entries (rotated_fs next i fs))
      with (<[file_name next := EntryFile (fs_next_inode fs)]> (fs_entries fs)).
    rewrite lookup_insert. by case_decide. }
  intros name Hn. split.
  - change (fs_entries (rotated_fs next i fs))
      with (<[file_name next := EntryFile (fs_next_inode fs)]> (fs_entries fs)).
    rewrite lookup_insert_ne; [done|]. intros <-. by rewrite parse_file_name_print in Hn.
  - intros j Hj. unfold rotated_fs, new_segment_fs.
    change (data_of j (sync_entries ?x)) with (data_of j x).
    apply Hb in Hj. change (fs_next_inode (sync_inode i fs)) with (fs_next_inode fs).
    rewrite data_of_update_data, decide_False by lia. rewrite new_file_data.
    change (fs_next_inode (sync_inode i fs)) with (fs_next_inode fs).
    rewrite decide_False by lia. apply data_of_sync_inode.
Qed.

Definition next_segment (w : SegmentWriter) : SegmentName :=
  mkSegmentName (segment_id (active_segment w) + 1).

(** Where the next record of a frame of [len] bytes goes. *)
Definition append_position (w : SegmentWriter) (len : N) : RecordPosition :=
  if should_rotate w len then mkRecordPosition (next_segment w) SEGMENT_FILE_HEADER_LEN
  else mkRecordPosition (active_segment w) (segment_len w).

(** A rotation finds an unused name. *)
Definition can_rotate (fs : Fs) (w : SegmentWriter) : Prop :=
  segment_id (next_segment w) < U64_LIMIT ∧ fs_entries fs !! file_name (next_segment w) = None.

Section append.
Context `{Noraft}.

(** The end of [writer_append], when the writer does not rotate any more. *)
Definition append_frame (record : SegmentRecord) (frame : list byte) (written_bytes : N)
  : M WriterState RecordPosition :=
  w ← get_writer;
  let record_position := mkRecordPosition (active_segment w) (segment_len w) in
  on_writer_file (file_write_all frame) ;;
  match u64_checked_add (segment_len w) written_bytes with
  | None => throw (invalid_data "segment length overflow")
  | Some len =>
      w ← get_writer;
      set_writer (mkSegmentWriter (active_segment w) (writer_file w) len (max_segment_len w)) ;;
      on_world (w_count (record_written (metric_kind record) written_bytes)) ;;
      on_world (w_count (segment_written len)) ;;
      mret record_position
  end.

Lemma append_frame_run fs m w record segs bodies body :
  writer_ok fs w segs bodies → lenN body ≤ MAX_RECORD_BODY_LEN →
  segment_len w + lenN (wire_frame body) < U64_LIMIT →
  let len := segment_len w + lenN (wire_frame body) in
  let w' := mkSegmentWriter (active_segment w) (seek_to len (writer_file w)) len (max_segment_len w) in
  let fs' := update_data (file_inode (writer_file w))
               (data_of (file_inode (writer_file w)) fs ++ wire_frame body) fs in
  append_frame record (wire_frame body) (lenN (wire_frame body)) (mkWriterState (mkWorld fs m) w) =
  (Ok (mkRecordPosition (active_segment w) (segment_len w)),
   mkWriterState (mkWorld fs' (segment_written len
     (record_written (metric_kind record) (lenN (wire_frame body)) m))) w').
Proof.
  intros [(Hnf & _) _ _ Hd Hw Ha Hl] Hb Hlen len w' fs'. unfold append_frame.
  set (ws := mkWriterState _ w).
  rewrite (bind_ok get_writer _ ws w ws eq_refl). cbv zeta.
  erewrite (bind_ok (on_writer_file _));
    [|apply on_writer_file_run; cbn [ws ws_world ws_writer w_fs w_metrics];
      apply file_append_run; done].
  unfold u64_checked_add. rewrite (proj2 (N.ltb_lt _ _)) by done. fold len.
  unfold io_data. cbn [io_fs io_file io_metrics set_io_file set_io_fs].
  unfold fs', w', ws. cbn [ws_writer]. rewrite Hd, <-Hl. done.
Qed.

Lemma should_rotate_fits w len :
  segment_len w ≤ SEGMENT_FILE_HEADER_LEN ∨ should_rotate w len = false →
  len ≤ 8 + MAX_RECORD_BODY_LEN → segment_len w + len < U64_LIMIT.
Proof.
  assert (4 + (8 + MAX_RECORD_BODY_LEN) < U64_LIMIT) by done.
  change SEGMENT_FILE_HEADER_LEN with 4 in *. unfold should_rotate, u64_checked_add.
  change SEGMENT_FILE_HEADER_LEN with 4.
  destruct (N.leb_spec (segment_len w) 4); [lia|]. intros [?|Hr]; [lia|].
  destruct (N.ltb_spec (segment_len w + len) U64_LIMIT); [done|done].
Qed.

(** [SegmentWriter::append]: one record is added at the announced position. *)
Lemma writer_append_run fs m w segs bodies n r body :
  writer_ok fs w segs bodies →
  encode_record_frame n r = Ok (wire_frame body) → lenN body ≤ MAX_RECORD_BODY_LEN →
  (should_rotate w (lenN (wire_frame body)) = true → can_rotate fs w) →
  ∃ fs' m' w' segs' bodies',
    writer_append n r (mkWriterState (mkWorld fs m) w) =
      (Ok (append_position w (lenN (wire_frame body))), mkWriterState (mkWorld fs' m') w') ∧
    writer_ok fs' w' segs' bodies' ∧
    writer_log w' segs' bodies' =
      writer_log w segs bodies ++ [(append_position w (lenN (wire_frame body)), body)] ∧
    max_segment_len w' = max_segment_len w ∧
    active_segment w' = position_segment (append_position w (lenN (wire_frame body))) ∧
    segment_len w' = position_offset (append_position w (lenN (wire_frame body))) + lenN (wire_frame body) ∧
    same_metadata fs fs'.
Proof.
  intros Hok Henc Hb Hrot.
  assert (Hfl : lenN (wire_frame body) ≤ 8 + MAX_RECORD_BODY_LEN) by (rewrite wire_frame_length; lia).
  assert (H64 : 8 + MAX_RECORD_BODY_LEN < U64_LIMIT) by done.
  destruct (writer_segments _ _ _ _ Hok) as (_ & _ & _ & Hid & _).
  unfold writer_append. set (ws := mkWriterState _ w).
  rewrite (bind_ok (lift_result _) _ ws (wire_frame body) ws) by (unfold lift_result; by rewrite Henc).
  unfold u64_try_from. rewrite (proj2 (N.ltb_lt _ _)) by lia.
  rewrite (bind_ok get_writer _ ws w ws eq_refl). unfold append_position.
  set (len := lenN (wire_frame body)) in *.
  destruct (should_rotate w len) eqn:Er.
  - destruct (Hrot eq_refl) as [Hnid Hnone].
    rewrite (bind_ok _ _ _ _ _ (writer_rotate_run fs m w segs bodies Hok Hnid Hnone)).
    fold (append_frame r (wire_frame body) len).
    pose proof (writer_ok_rotate fs w segs bodies (next_segment w) Hok eq_refl Hnid Hnone) as Hok1.
    set (fs1 := rotated_fs _ _ fs) in *. set (w1 := mkSegmentWriter (next_segment w) _ _ _) in *.
    assert (Hlen1 : segment_len w1 + len < U64_LIMIT) by (by apply should_rotate_fits; [left|]).
    unfold len. rewrite (append_frame_run fs1 _ w1 r _ _ body Hok1 Hb Hlen1).
    eexists _, _, _, _, _. split; [reflexivity|].
    split; [exact (writer_ok_append fs1 w1 _ _ body Hok1 Hb)|]. split; [|split; [done|split; [done|split; [done|]]]].
    + unfold writer_log. cbn [active_segment w1]. by rewrite app_nil_l, log_of_new.
    + eapply same_metadata_trans; [by apply rotated_metadata; [apply Hok|]|].
      destruct Hok1 as [_ Hwf1 He1 _ _ _ _].
      by eapply update_data_metadata, parse_file_name_print.
  - rewrite (bind_ok _ _ ws () ws eq_refl). fold (append_frame r (wire_frame body) len).
    assert (Hlen : segment_len w + len < U64_LIMIT) by (apply should_rotate_fits; [by right|done]).
    unfold ws, len. rewrite (append_frame_run fs m w r _ _ body Hok Hb Hlen).
    eexists _, _, _, _, _. split; [reflexivity|].
    split; [exact (writer_ok_append fs w _ _ body Hok Hb)|]. split; [|split; [done|split; [done|split; [done|]]]].
    + unfold writer_log. cbn [active_segment]. rewrite log_of_snoc. by rewrite (wo_len _ _ _ _ Hok).
    + destruct Hok as [_ Hwf He _ _ _ _]. by eapply update_data_metadata, parse_file_name_print.
Qed.
End append.
