(* ===== verification/MetadataCorrect.v ===== *)
(** * Saving metadata files

    [save_text] replaces a file without touching any other, and a crash or a
    failure at any point leaves either the old text or the new one. *)
From Stdlib Require Import Strings.Byte Strings.String.
From S2P Require Import Prelude Metrics Fs Text Json Noraft State Crc32c Codec Frame Segment.
From S2P Require Import Replay Recovery ReplayCorrect WriterCorrect.

(** A path that is not a directory. *)
Definition not_other (fs : Fs) (name : string) : Prop := fs_entries fs !! name ≠ Some EntryOther.

(** The file that [save_text] writes: the temporary file, if it is there. *)
Definition tmp_inode (fs : Fs) (tmp : string) : N :=
  match fs_entries fs !! tmp with Some (EntryFile i) => i | _ => fs_next_inode fs end.

(** The temporary file opened and truncated. *)
Definition tmp_opened (fs : Fs) (tmp : string) : Fs :=
  match fs_entries fs !! tmp with
  | Some (EntryFile i) => update_data i [] fs
  | _ => new_file tmp fs
  end.

Lemma open_tmp_run fs tmp :
  no_faults fs → fs_root fs = RootDir → not_other fs tmp →
  fs_open tmp save_options fs = (Ok (mkFile (tmp_inode fs tmp) 0 true false), tmp_opened fs tmp).
Proof.
  intros Hnf Hr Ho. unfold fs_open, tmp_inode, tmp_opened, not_other in *. rewrite call_none by done.
  unfold in_dir, mbind, M_bind, get_state. rewrite Hr.
  by destruct (fs_entries fs !! tmp) as [[i|]|].
Qed.

Lemma tmp_opened_spec fs tmp :
  fs_wf fs → not_other fs tmp →
  fs_wf (tmp_opened fs tmp) ∧
  fs_entries (tmp_opened fs tmp) = <[tmp := EntryFile (tmp_inode fs tmp)]> (fs_entries fs) ∧
  data_of (tmp_inode fs tmp) (tmp_opened fs tmp) = [] ∧
  (∀ j, j ≠ tmp_inode fs tmp → data_of j (tmp_opened fs tmp) = data_of j fs) ∧
  fs_root (tmp_opened fs tmp) = fs_root fs ∧ fs_faults (tmp_opened fs tmp) = fs_faults fs.
Proof.
  unfold tmp_opened, tmp_inode, not_other. intros Hwf Ho.
  destruct (fs_entries fs !! tmp) as [[i|]|] eqn:E; [|done|].
  - split; [done|]. split; [by rewrite insert_id|].
    split; [by rewrite data_of_update_data, decide_True|]. split; [|done].
    intros j Hj. by rewrite data_of_update_data, decide_False.
  - split; [by apply new_file_wf|]. split; [done|].
    split; [by rewrite new_file_data, decide_True|]. split; [|done].
    intros j Hj. by rewrite new_file_data, decide_False.
Qed.

(** Writing through a handle that is not in append mode. *)
Lemma file_overwrite_run io bytes :
  no_faults (io_fs io) → file_writable (io_file io) = true → file_append (io_file io) = false →
  file_write_all bytes io =
  (Ok (), set_io_file (seek_to (file_pos (io_file io) + lenN bytes) (io_file io))
            (set_io_fs (update_data (file_inode (io_file io))
                          (overwrite (io_data io) (file_pos (io_file io)) bytes) (io_fs io)) io)).
Proof.
  intros Hnf Hw Ha. unfold file_write_all, mbind, M_bind, io_call, zoom.
  rewrite take_fault_none by done. unfold get_state, modify.
  replace (set_io_fs (io_fs io) io) with io by by destruct io. by rewrite Hw, Ha.
Qed.

Lemma overwrite_empty bytes : overwrite [] 0 bytes = bytes.
Proof. unfold overwrite, takeN, dropN. rewrite take_nil, drop_nil. cbn. apply app_nil_r. Qed.

(** The files after a save without faults. *)
Definition saved_fs (tmp path : string) (text : list byte) (fs : Fs) : Fs :=
  let i := tmp_inode fs tmp in
  let fs := sync_inode i (update_data i text (tmp_opened fs tmp)) in
  sync_entries (update_entries (<[path := EntryFile i]> (delete tmp (fs_entries fs))) fs).

Lemma save_text_run fs m tmp path text :
  no_faults fs → fs_root fs = RootDir → fs_wf fs → not_other fs tmp → not_other fs path → tmp ≠ path →
  save_text tmp path text (mkWorld fs m) = (Ok (), mkWorld (saved_fs tmp path text fs) m).
Proof.
  intros Hnf Hr Hwf Ht Hp Hne. pose proof (tmp_opened_spec fs tmp Hwf Ht) as (_ & Hent & Hd & _ & Hr1 & Hf1).
  unfold save_text. set (i := tmp_inode fs tmp) in *. set (fs1 := tmp_opened fs tmp) in *.
  assert (Hopen : w_call (fs_open tmp save_options) (mkWorld fs m) =
            (Ok (mkFile i 0 true false), mkWorld fs1 m)).
  { unfold w_call, zoom. cbn [w_fs]. by rewrite open_tmp_run. }
  rewrite (bind_ok _ _ _ _ _ Hopen).
  set (fs2 := update_data i text fs1). set (fs3 := sync_inode i fs2).
  assert (Hnf1 : no_faults fs1) by (unfold no_faults in *; by rewrite Hf1).
  assert (Hwrite : with_file (mkFile i 0 true false) (file_write_all text ;; file_sync) (mkWorld fs1 m) =
            (Ok (), mkWorld fs3 m)).
  { unfold with_file. cbn [w_fs w_metrics]. set (io := mkIo fs1 m _).
    rewrite (bind_ok _ _ io () (mkIo fs2 m (mkFile i (lenN text) true false))).
    - by rewrite file_sync_run.
    - rewrite file_overwrite_run by done.
      change (io_data io) with (data_of i fs1). rewrite Hd.
      change (file_pos (io_file io)) with 0. rewrite overwrite_empty. done. }
  rewrite (bind_ok _ _ _ _ _ Hwrite).
  assert (Hrename : w_call (fs_rename tmp path) (mkWorld fs3 m) =
            (Ok (), mkWorld (update_entries (<[path := EntryFile i]> (delete tmp (fs_entries fs3))) fs3) m)).
  { unfold w_call, zoom, fs_rename. cbn [w_fs]. rewrite call_none by done.
    unfold in_dir, mbind, M_bind, get_state. change (fs_root fs3) with (fs_root fs1). rewrite Hr1, Hr.
    assert (fs_entries fs3 !! tmp = Some (EntryFile i)) as ->
      by (change (fs_entries fs3) with (fs_entries fs1); by rewrite Hent, lookup_insert_eq).
    assert (fs_entries fs3 !! path = fs_entries fs !! path) as ->
      by (change (fs_entries fs3) with (fs_entries fs1); by rewrite Hent, lookup_insert_ne).
    unfold not_other in Hp. by destruct (fs_entries fs !! path) as [[|]|]. }
  rewrite (bind_ok _ _ _ _ _ Hrename). rewrite fs_sync_dir_run; [reflexivity|exact Hnf1|].
  change (fs_root fs1 = RootDir). by rewrite Hr1.
Qed.

(** What a save changes. *)
Lemma saved_fs_spec fs tmp path text :
  fs_wf fs → not_other fs tmp → tmp ≠ path →
  let fs' := saved_fs tmp path text fs in
  let i := tmp_inode fs tmp in
  fs_wf fs' ∧ fs_root fs' = fs_root fs ∧ fs_faults fs' = fs_faults fs ∧
  fs_entries fs' = <[path := EntryFile i]> (delete tmp (fs_entries fs)) ∧ data_of i fs' = text ∧
  ∀ name j, name ≠ tmp → fs_entries fs !! name = Some (EntryFile j) → data_of j fs' = data_of j fs.
Proof.
  intros Hwf Ht Hne fs' i.
  pose proof (tmp_opened_spec fs tmp Hwf Ht) as ((Hinj & Hb) & Hent & Hd & Hother & Hr & Hf).
  fold i in Hent, Hother, Hd.
  assert (Hent' : fs_entries fs' = <[path := EntryFile i]> (delete tmp (fs_entries fs))).
  { unfold fs', saved_fs. cbn. fold i. by rewrite Hent, delete_insert_eq. }
  assert (Hnext : fs_next_inode fs' = fs_next_inode (tmp_opened fs tmp)) by done.
  assert (Hi : fs_entries (tmp_opened fs tmp) !! tmp = Some (EntryFile i)) by (by rewrite Hent, lookup_insert_eq).
  assert (Hold : ∀ name j, name ≠ tmp → fs_entries fs !! name = Some (EntryFile j) →
            fs_entries (tmp_opened fs tmp) !! name = Some (EntryFile j) ∧ j ≠ i).
  { intros name j Hn Hj. assert (He : fs_entries (tmp_opened fs tmp) !! name = Some (EntryFile j))
      by (by rewrite Hent, lookup_insert_ne). split; [done|]. intros ->. by apply Hn, (Hinj _ _ i). }
  split; [|split; [done|split; [done|split; [done|split]]]].
  - split.
    + intros a b j. rewrite Hent', !lookup_insert, !lookup_delete.
      repeat case_decide; subst; try done.
      * intros [= <-] Hj. apply Hold in Hj as [_ ?]; [done|congruence].
      * intros Hj [= <-]. apply Hold in Hj as [_ ?]; [done|congruence].
      * intros Ha Hb'. apply Hold in Ha as [Ha _]; [|congruence]. apply Hold in Hb' as [Hb' _]; [|congruence].
        by apply (Hinj _ _ j).
    + intros a j. rewrite Hent', Hnext, lookup_insert, lookup_delete. repeat case_decide; subst; try done.
      * intros [= <-]. by apply Hb in Hi.
      * intros Hj. apply Hold in Hj as [Hj _]; [|congruence]. by apply Hb in Hj.
  - unfold fs', saved_fs. fold i. cbv zeta. change (data_of i (sync_inode i (update_data i text (tmp_opened fs tmp))) = text).
    by rewrite data_of_sync_inode, data_of_update_data, decide_True.
  - intros name j Hn Hj. destruct (Hold _ _ Hn Hj) as [_ Hji].
    unfold fs', saved_fs. fold i. cbv zeta.
    change (data_of j (sync_inode i (update_data i text (tmp_opened fs tmp))) = data_of j fs).
    rewrite data_of_sync_inode, data_of_update_data, decide_False by done. by apply Hother.
Qed.

(** Saving metadata does not touch the segments. *)
Lemma saved_fs_segments fs tmp path text :
  fs_wf fs → not_other fs tmp → tmp ≠ path →
  parse_file_name tmp = None → parse_file_name path = None →
  same_segments fs (saved_fs tmp path text fs).
Proof.
  intros Hwf Ht Hne Hnt Hnp. destruct (saved_fs_spec fs tmp path text Hwf Ht Hne) as (_ & Hr & Hf & He & _ & Hd).
  split; [done|]. split; [done|]. intros name n Hn.
  assert (name ≠ tmp) by congruence. assert (name ≠ path) by congruence. split.
  - rewrite He. by rewrite lookup_insert_ne, lookup_delete_ne by congruence.
  - intros j Hj. by eapply Hd.
Qed.
