(* ===== verification/EngineCorrect.v ===== *)
(** * The engine implements a log of node records

    [engine_ok] relates an engine to the records its directory holds.  Saving
    appends one record, loading replays the node's records since its last
    checkpoint, and garbage collection only drops superseded records. *)
From Stdlib Require Import Strings.Byte Strings.String.
From S2P Require Import Prelude Metrics Fs Text Json Noraft State Crc32c Codec Format Frame.
From S2P Require Import Segment Replay Registry Checkpoint Engine Recovery ReplayCorrect.
From S2P Require Import WriterCorrect MetadataCorrect.

(** The names of the metadata files. *)
Definition metadata_names : list string :=
  [NODE_REGISTRY_FILE_NAME; NODE_REGISTRY_TMP_FILE_NAME;
   CHECKPOINT_INDEX_FILE_NAME; CHECKPOINT_INDEX_TMP_FILE_NAME].

Lemma metadata_names_not_segments name : name ∈ metadata_names → parse_file_name name = None.
Proof.
  unfold metadata_names. rewrite !elem_of_cons, elem_of_nil. intros [->|[->|[->|[->|[]]]]]; reflexivity.
Qed.

(** The names that the engine uses; no directory has one of them. *)
Definition owned_name (name : string) : Prop := name ∈ metadata_names ∨ is_Some (parse_file_name name).

Section barrier.
Context `{NJ : Nojson}.

Lemma oldest_segment_spec x ids oldest seg :
  oldest_segment x ids oldest = Some seg →
  (∀ n, n ∈ ids → ∃ p, checkpoint_position x n = Some p ∧
     ∃ s, seg = Some s ∧ name_le s (position_segment p)) ∧
  (∀ o, oldest = Some o → ∃ s, seg = Some s ∧ name_le s o) ∧
  (seg = None → ids = [] ∧ oldest = None).
Proof.
  revert oldest. induction ids as [|id ids IH]; intros oldest; cbn [oldest_segment].
  - intros [= ->]. split; [by intros n ?%elem_of_nil|]. split; [|done].
    intros o ->. exists o. split; [done|]. unfold name_le. lia.
  - intros (p & Hp & Ho)%bind_Some. apply IH in Ho as (Hids & Hold & Hnone).
    destruct (Hold _ eq_refl) as (s & -> & Hs).
    assert (Hmin : name_le s (position_segment p) ∧ ∀ o, oldest = Some o → name_le s o).
    { unfold name_min, name_le in *. destruct oldest as [o|].
      - case_decide; (split; [lia|]); intros ? [= <-]; lia.
      - by split. }
    destruct Hmin as [Hsp Hso]. split; [|split].
    + intros n. rewrite elem_of_cons. intros [->|Hn]; [|by apply Hids]. eauto.
    + intros o Ho. exists s. eauto.
    + done.
Qed.

(** What a barrier says of the active nodes. *)
Lemma gc_barrier_spec x ids b :
  gc_barrier x ids = Some b →
  match b with
  | Before seg => ∀ n, n ∈ ids → ∃ p, checkpoint_position x n = Some p ∧ name_le seg (position_segment p)
  | AllInactiveAppendSegments => ids = ∅
  end.
Proof.
  unfold gc_barrier. intros (seg & Hseg & Hb)%bind_Some. injection Hb as <-.
  apply oldest_segment_spec in Hseg as (Hids & _ & Hnone). destruct seg as [seg|].
  - intros n Hn. destruct (Hids n) as (p & Hp & s & [= <-] & Hs); [by apply elem_of_btree_elements|].
    eauto.
  - destruct (Hnone eq_refl) as [Hnil _]. apply set_eq. intros n.
    rewrite <-elem_of_btree_elements, Hnil. set_solver.
Qed.

Lemma elem_of_active_node_ids (r : NodeRegistry) n :
  n ∈ active_node_ids r ↔ is_active r n = true.
Proof.
  unfold active_node_ids, registry_active_nodes, is_active.
  rewrite elem_of_list_to_set, list_elem_of_fmap. split.
  - intros ([n' md] & -> & Hin). apply list_elem_of_omap in Hin as ([k entry] & Hin & He).
    apply elem_of_btree_iter in Hin. cbn [fst snd] in *.
    destruct (entry_removed entry) eqn:E; [done|]. injection He as <- _. by rewrite Hin, E.
  - destruct (registry_nodes r !! n) as [entry|] eqn:E; [|done].
    rewrite negb_true_iff. intros Hr. exists (n, entry_metadata entry). split; [done|].
    apply list_elem_of_omap. exists (n, entry). split; [by apply elem_of_btree_iter|].
    cbn [snd]. by rewrite Hr.
Qed.
End barrier.

Section engine.
Context `{NJ : Nojson} `{NL : NoraftLaws}.

(** What loading a node depends on: its records since its last checkpoint. *)
Definition node_view (n : N) (nlog : list (RecordPosition * NodeRecord)) : list SegmentRecord :=
  since_checkpoint (node_history n nlog).

(** The engine's directory holds the records [nlog], and its index points at
    checkpoints of the active nodes. *)
Record engine_ok (s : EngineState) (nlog : list (RecordPosition * NodeRecord)) : Prop := {
  eo_writer : ∃ segs bodies,
    writer_ok (w_fs (es_world s)) (engine_writer (es_engine s)) segs bodies ∧
    log_decodes (writer_log (engine_writer (es_engine s)) segs bodies) nlog;
  eo_names : ∀ name, owned_name name → not_other (w_fs (es_world s)) name;
  eo_index : ∀ n p, is_active (engine_registry (es_engine s)) n = true →
    checkpoint_position (engine_index (es_engine s)) n = Some p → hint_ok n (Some p) nlog;
}.

Lemma engine_ok_metrics fs m m' e nlog :
  engine_ok (mkEngineState (mkWorld fs m) e) nlog → engine_ok (mkEngineState (mkWorld fs m') e) nlog.
Proof. intros [H1 H2 H3]. by split. Qed.

(** ** Access checks *)

Lemma engine_ensure_active n op s :
  is_active (engine_registry (es_engine s)) n = true → engine_ensure_node_exists n op s = (Ok (), s).
Proof.
  intros Ha. unfold engine_ensure_node_exists.
  rewrite (bind_ok get_engine _ s (es_engine s) s eq_refl). by rewrite Ha.
Qed.

(** The error of an operation on a node that is not active. *)
Definition access_error (r : NodeRegistry) (n : N) : io_error :=
  if is_removed r n then node_removed_error else node_not_found_error.

Lemma engine_ensure_inactive n op fs m e :
  is_active (engine_registry e) n = false →
  engine_ensure_node_exists n op (mkEngineState (mkWorld fs m) e) =
  (Err (access_error (engine_registry e) n),
   mkEngineState (mkWorld fs (rejected_operation op
     (if is_removed (engine_registry e) n then RemovedNode else UnknownNode) m)) e).
Proof.
  intros Ha. unfold engine_ensure_node_exists, access_error.
  set (s := mkEngineState _ e). rewrite (bind_ok get_engine _ s e s eq_refl). rewrite Ha.
  by destruct (is_removed _ n).
Qed.

(** ** Loading *)

Lemma es_on_world_run {A} (m : M World A) w e r w' :
  m w = (r, w') → es_on_world m (mkEngineState w e) = (r, mkEngineState w' e).
Proof. intros H. unfold es_on_world, zoom. cbn [es_world]. by rewrite H. Qed.

Lemma engine_load_run fs m e nlog n :
  engine_ok (mkEngineState (mkWorld fs m) e) nlog → is_active (engine_registry e) n = true →
  ∃ m', engine_load n (mkEngineState (mkWorld fs m) e) =
        (replayed (node_view n nlog), mkEngineState (mkWorld fs m') e).
Proof.
  intros [(segs & bodies & Hw & Hdec) _ Hidx] Ha. cbn [es_world es_engine w_fs] in *.
  unfold engine_load. set (s := mkEngineState _ e).
  rewrite (bind_ok _ _ _ _ _ (engine_ensure_active n OpLoad s Ha)).
  rewrite (bind_ok get_engine _ s e s eq_refl).
  destruct (replay_node_state_run fs m _ nlog (active_segment (engine_writer e)) n
    (checkpoint_position (engine_index e) n) true (clean_readable _ _ _ _ (wo_clean _ _ _ _ Hw)) Hdec) as [m' Hrun].
  { destruct (checkpoint_position (engine_index e) n) as [p|] eqn:Ep; [by apply Hidx|done]. }
  exists m'. by apply es_on_world_run.
Qed.

(** ** Appending a record *)

Lemma node_history_app n l1 l2 : node_history n (l1 ++ l2) = node_history n l1 ++ node_history n l2.
Proof. unfold node_history. by rewrite list.filter_app, fmap_app. Qed.

Lemma node_history_one n p nr :
  node_history n [(p, nr)] = if decide (record_node_id nr = n) then [node_record nr] else [].
Proof. unfold node_history. rewrite filter_cons. cbn [snd]. by case_decide. Qed.

Lemma since_checkpoint_app rs r :
  since_checkpoint (rs ++ [r]) = if is_checkpoint r then [r] else since_checkpoint rs ++ [r].
Proof.
  induction rs as [|r0 rs IH]; cbn [app since_checkpoint existsb].
  - by destruct (is_checkpoint r).
  - rewrite existsb_app. cbn [existsb]. rewrite orb_false_r.
    destruct (is_checkpoint r); [by rewrite orb_true_r|]. rewrite orb_false_r.
    by destruct (existsb _ rs).
Qed.

(** A record of node [n] extends the view of [n] and no other. *)
Lemma node_view_snoc n n' p r nlog :
  node_view n' (nlog ++ [(p, mkNodeRecord n r)]) =
  if decide (n = n') then if is_checkpoint r then [r] else node_view n nlog ++ [r]
  else node_view n' nlog.
Proof.
  unfold node_view. rewrite node_history_app, node_history_one. cbn [record_node_id node_record].
  case_decide; [|by rewrite app_nil_r]. subst. apply since_checkpoint_app.
Qed.

Lemma hint_ok_app n hint l1 l2 : hint_ok n hint l1 → hint_ok n hint (l1 ++ l2).
Proof. destruct hint; [|done]. intros [c Hc]. exists c. apply elem_of_app. by left. Qed.

(** A value that can be stored: encodable, and made of machine integers. *)
Definition storable (n : N) (r : SegmentRecord) : Prop :=
  u64 n ∧ record_fit r ∧ record_u64 r ∧ record_encodable n r.

Lemma encode_storable n r : storable n r → encode_record_frame n r = Ok (wire_frame (wire_body n r)).
Proof.
  intros (_ & _ & _ & He). pose proof (encode_record_frame_spec n r) as Hs.
  destruct (encode_record_frame n r) as [frame|e]; [by destruct Hs as [_ ->]|by destruct Hs].
Qed.

(** Where the next record of the engine goes. *)
Definition next_position (e : StorageEngine) (n : N) (r : SegmentRecord) : RecordPosition :=
  append_position (engine_writer e) (lenN (wire_frame (wire_body n r))).

(** If the append rotates, the name of the next segment is free. *)
Definition rotation_free (fs : Fs) (e : StorageEngine) (n : N) (r : SegmentRecord) : Prop :=
  should_rotate (engine_writer e) (lenN (wire_frame (wire_body n r))) = true →
  can_rotate fs (engine_writer e).

(** The engine with another writer. *)
Definition with_writer (w : SegmentWriter) (e : StorageEngine) : StorageEngine :=
  mkStorageEngine (write_lock e) (engine_registry e) (engine_index e) w.

Lemma es_on_writer_run {A} (m : M WriterState A) fs mt e r fs' mt' w' :
  m (mkWriterState (mkWorld fs mt) (engine_writer e)) = (r, mkWriterState (mkWorld fs' mt') w') →
  es_on_writer m (mkEngineState (mkWorld fs mt) e) =
  (r, mkEngineState (mkWorld fs' mt') (with_writer w' e)).
Proof. intros H. unfold es_on_writer, zoom. cbn [es_world es_engine]. by rewrite H. Qed.

Lemma same_metadata_names fs fs' :
  same_metadata fs fs' → (∀ name, owned_name name → not_other fs name) →
  ∀ name, owned_name name → not_other fs' name.
Proof. intros (_ & _ & Ho & _) Hn name Hin. by apply Ho, Hn. Qed.

Lemma engine_append_run fs m e nlog n r :
  engine_ok (mkEngineState (mkWorld fs m) e) nlog → storable n r → rotation_free fs e n r →
  ∃ fs' m' w',
    es_on_writer (writer_append n r) (mkEngineState (mkWorld fs m) e) =
      (Ok (next_position e n r), mkEngineState (mkWorld fs' m') (with_writer w' e)) ∧
    engine_ok (mkEngineState (mkWorld fs' m') (with_writer w' e))
              (nlog ++ [(next_position e n r, mkNodeRecord n r)]) ∧
    max_segment_len w' = max_segment_len (engine_writer e) ∧
    segment_id (active_segment w') ≤ segment_id (active_segment (engine_writer e)) + 1 ∧
    same_metadata fs fs'.
Proof.
  intros [(segs & bodies & Hw & Hdec) Hnames Hidx] Hst Hrot. cbn [es_world es_engine w_fs] in *.
  pose proof Hst as (Hn & Hf & Hu & He).
  destruct (writer_append_run fs m (engine_writer e) segs bodies n r (wire_body n r) Hw
    (encode_storable n r Hst) (proj2 He) Hrot)
    as (fs' & m' & w' & segs' & bodies' & Hrun & Hw' & Hlog & Hmax & Hact & _ & Hmeta).
  exists fs', m', w'. split; [by apply es_on_writer_run|]. split; [|split; [done|split; [|done]]].
  2:{ rewrite Hact. unfold append_position. destruct (should_rotate _ _); cbn; lia. }
  split; cbn [es_world es_engine w_fs with_writer engine_writer engine_registry engine_index].
  - exists segs', bodies'. split; [done|]. rewrite Hlog. apply Forall2_app; [done|].
    constructor; [|constructor]. split; [done|]. split; [apply He|].
    by apply decode_node_record_wire.
  - by eapply same_metadata_names.
  - intros n' p Ha Hp. apply hint_ok_app. by apply Hidx.
Qed.

Lemma save_record_run fs m e nlog n r op :
  engine_ok (mkEngineState (mkWorld fs m) e) nlog → is_active (engine_registry e) n = true →
  storable n r → rotation_free fs e n r →
  ∃ fs' m' w',
    save_record n r op (mkEngineState (mkWorld fs m) e) =
      (Ok (), mkEngineState (mkWorld fs' m') (with_writer w' e)) ∧
    engine_ok (mkEngineState (mkWorld fs' m') (with_writer w' e))
              (nlog ++ [(next_position e n r, mkNodeRecord n r)]) ∧
    max_segment_len w' = max_segment_len (engine_writer e) ∧
    segment_id (active_segment w') ≤ segment_id (active_segment (engine_writer e)) + 1 ∧
    same_metadata fs fs'.
Proof.
  intros Hok Ha Hst Hrot.
  destruct (engine_append_run fs m e nlog n r Hok Hst Hrot) as (fs' & m' & w' & Hrun & Hrest).
  exists fs', m', w'. split; [|done]. unfold save_record.
  rewrite (bind_ok _ _ _ _ _ (engine_ensure_active n op (mkEngineState (mkWorld fs m) e) Ha)).
  by rewrite (bind_ok _ _ _ _ _ Hrun).
Qed.

(** The segment after the active one does not exist. *)
Lemma engine_can_rotate fs m e nlog n r :
  engine_ok (mkEngineState (mkWorld fs m) e) nlog →
  segment_id (next_segment (engine_writer e)) < U64_LIMIT → rotation_free fs e n r.
Proof.
  intros [(segs & bodies & Hw & _) Hnames _] Hid _. cbn [es_world es_engine w_fs] in *.
  split; [done|]. set (w := engine_writer e) in *. set (next := next_segment w) in *.
  destruct (fs_entries fs !! file_name next) as [[i|]|] eqn:E; [|by destruct (Hnames (file_name next) (or_intror (mk_is_Some _ _ (parse_file_name_print next Hid))))|done].
  exfalso. assert (Hin : mkSegmentPath next (file_name next) ∈ segments_of fs) by (apply elem_of_segments_of; eauto).
  destruct (writer_segments _ _ _ _ Hw) as (paths & Hpaths & _).
  pose proof (segments_of_sorted fs) as Hs. rewrite Hpaths in Hin, Hs.
  apply elem_of_app in Hin as [Hin|Hin].
  - pose proof (StronglySorted_app_1_elem_of _ _ _ _ _ Hs Hin (list_elem_of_here _ _)) as Hlt.
    unfold path_lt, name_lt in Hlt. cbn in Hlt. lia.
  - apply list_elem_of_singleton in Hin. injection Hin as Hn _. apply (f_equal segment_id) in Hn.
    unfold next, next_segment in Hn. cbn in Hn. lia.
Qed.

(** ** Saving the index and the registry *)

Lemma engine_ok_saved fs m e nlog tmp path text :
  tmp ∈ metadata_names → path ∈ metadata_names → tmp ≠ path →
  engine_ok (mkEngineState (mkWorld fs m) e) nlog →
  engine_ok (mkEngineState (mkWorld (saved_fs tmp path text fs) m) e) nlog ∧
  save_text tmp path text (mkWorld fs m) = (Ok (), mkWorld (saved_fs tmp path text fs) m).
Proof.
  intros Ht Hp Hne [(segs & bodies & Hw & Hdec) Hnames Hidx]. cbn [es_world es_engine w_fs] in *.
  pose proof (wo_wf _ _ _ _ Hw) as Hwf. pose proof (wo_clean _ _ _ _ Hw) as (Hnf & Hr & _).
  destruct (saved_fs_spec fs tmp path text Hwf (Hnames _ (or_introl Ht)) Hne) as (Hwf' & _ & _ & He & _ & _).
  destruct (writer_segments _ _ _ _ Hw) as (_ & _ & _ & Hid & _). split.
  - split; cbn [es_world es_engine w_fs]; [|intros name Hin; unfold not_other|done].
    + exists segs, bodies. split; [|done].
      eapply writer_ok_same; [|done|done|done].
      apply saved_fs_segments; [done|by apply Hnames; left|done|by apply metadata_names_not_segments..].
    + rewrite He, lookup_insert, lookup_delete. repeat case_decide; [done|done|]. by apply Hnames.
  - apply save_text_run; [done|done|done|by apply Hnames; left|by apply Hnames; left|done].
Qed.

Lemma engine_sync_run fs m e nlog :
  engine_ok (mkEngineState (mkWorld fs m) e) nlog →
  ∃ fs' m', es_on_writer writer_sync (mkEngineState (mkWorld fs m) e) =
      (Ok (), mkEngineState (mkWorld fs' m') e) ∧
    engine_ok (mkEngineState (mkWorld fs' m') e) nlog ∧ fs_entries fs' = fs_entries fs.
Proof.
  intros [(segs & bodies & Hw & Hdec) Hnames Hidx]. cbn [es_world es_engine w_fs] in *.
  pose proof (wo_wf _ _ _ _ Hw) as Hwf. pose proof (wo_clean _ _ _ _ Hw) as (Hnf & Hr & _).
  destruct (writer_segments _ _ _ _ Hw) as (_ & _ & _ & Hid & _).
  destruct (writer_sync_run fs m (engine_writer e) Hnf Hwf) as (fs' & m' & Hrun & Hs & Hwf' & _ & _ & Hent).
  exists fs', m'. split; [|split; [|done]].
  - rewrite (es_on_writer_run _ _ _ _ _ _ _ _ Hrun). by destruct e.
  - split; cbn [es_world es_engine w_fs]; [|intros name Hin; unfold not_other; rewrite Hent; by apply Hnames|done].
    exists segs, bodies. split; [|done]. by eapply writer_ok_same.
Qed.

(** ** Garbage collection *)

(** The segments that garbage collection deletes. *)
Definition deletable (b : GcBarrier) (active name : SegmentName) : bool :=
  negb (bool_decide (name = active)) && allows_delete b name.

Lemma delete_segments_cons b active p paths deleted :
  delete_segments b active (p :: paths) deleted =
  if deletable b active (path_name p) then
    r ← try_catch (es_on_world (w_call (fs_remove_file (path_file p))));
    match r with
    | Ok _ => delete_segments b active paths (deleted + 1)
    | Err e =>
        if bool_decide (error_kind e = NotFound) then delete_segments b active paths deleted
        else throw e
    end
  else delete_segments b active paths deleted.
Proof.
  cbn [delete_segments]. unfold deletable. case_bool_decide; [done|]. by destruct (allows_delete _ _).
Qed.

(** The files without the deleted segments. *)
Definition delete_files (names : list string) (fs : Fs) : Fs :=
  foldl (λ fs name, update_entries (delete name (fs_entries fs)) fs) fs names.

Lemma delete_files_entries names fs name :
  fs_entries (delete_files names fs) !! name =
  if decide (name ∈ names) then None else fs_entries fs !! name.
Proof.
  revert fs. induction names as [|x names IH]; intros fs; cbn [delete_files foldl].
  - rewrite decide_False by apply not_elem_of_nil. done.
  - fold (delete_files names (update_entries (delete x (fs_entries fs)) fs)). rewrite IH. cbn.
    rewrite lookup_delete. destruct (decide (name ∈ names)).
    + rewrite decide_True by (by right). done.
    + case_decide as E; [rewrite decide_True by (subst; by left); done|].
      rewrite decide_False; [done|]. rewrite elem_of_cons. by intros [->|?].
Qed.

Lemma delete_files_same names fs :
  fs_root (delete_files names fs) = fs_root fs ∧ fs_faults (delete_files names fs) = fs_faults fs ∧
  fs_inodes (delete_files names fs) = fs_inodes fs ∧
  fs_next_inode (delete_files names fs) = fs_next_inode fs.
Proof.
  revert fs. induction names as [|x names IH]; intros fs; [done|].
  exact (IH (update_entries (delete x (fs_entries fs)) fs)).
Qed.

Definition deleted_paths (b : GcBarrier) (active : SegmentName) (paths : list SegmentPath)
  : list SegmentPath := filter (λ p, deletable b active (path_name p) = true) paths.

Lemma delete_segments_run b active paths k fs m e :
  no_faults fs → fs_root fs = RootDir → NoDup (path_file <$> paths) →
  (∀ p, p ∈ paths → ∃ i, fs_entries fs !! path_file p = Some (EntryFile i)) →
  delete_segments b active paths k (mkEngineState (mkWorld fs m) e) =
  (Ok (k + lenN (deleted_paths b active paths)),
   mkEngineState (mkWorld (delete_files (path_file <$> deleted_paths b active paths) fs) m) e).
Proof.
  revert k fs. induction paths as [|p paths IH]; intros k fs Hnf Hr Hnd Hex.
  { cbn. unfold mret, M_ret. by rewrite N.add_0_r. }
  rewrite delete_segments_cons. rewrite fmap_cons in Hnd. apply list.NoDup_cons in Hnd as [Hp Hnd].
  unfold deleted_paths. rewrite filter_cons. destruct (deletable b active (path_name p)).
  - rewrite decide_True by done. fold (deleted_paths b active paths). rewrite fmap_cons.
    destruct (Hex p ltac:(by left)) as [i Hi].
    set (fs1 := update_entries (delete (path_file p) (fs_entries fs)) fs).
    rewrite (bind_ok _ _ _ (Ok ()) (mkEngineState (mkWorld fs1 m) e)).
    + rewrite IH; [|done|done|done|].
      * rewrite lenN_cons. do 2 f_equal. lia.
      * intros q Hq. destruct (Hex q ltac:(by right)) as [j Hj]. exists j. cbn.
        rewrite lookup_delete_ne; [done|]. intros E. apply Hp. rewrite E. by apply list_elem_of_fmap_2.
    + unfold try_catch. erewrite (es_on_world_run _ _ _ (Ok ()) (mkWorld fs1 m)); [done|].
      unfold w_call, zoom, fs_remove_file. cbn [w_fs]. rewrite call_none by done.
      unfold in_dir, mbind, M_bind, get_state. by rewrite Hr, Hi.
  - rewrite decide_False by done. apply IH; [done|done|done|]. intros q Hq. apply Hex. by right.
Qed.

Lemma segments_of_files_NoDup fs : NoDup (path_file <$> segments_of fs).
Proof.
  pose proof (segments_of_NoDup fs) as Hnd.
  assert (Hinj : ∀ p q, p ∈ segments_of fs → q ∈ segments_of fs → path_file p = path_file q → p = q).
  { intros [n f] [n' f'] (Hf & Hid & _)%elem_of_segments_of (Hf' & Hid' & _)%elem_of_segments_of.
    cbn in *. intros ->. rewrite Hf in Hf'. apply file_name_inj in Hf'; [by subst|done..]. }
  revert Hnd Hinj. generalize (segments_of fs). intros l Hnd. induction Hnd as [|p l Hp Hnd IH]; intros Hinj.
  - constructor.
  - rewrite fmap_cons. constructor.
    + intros (q & E & Hq)%list_elem_of_fmap. apply Hp. rewrite (Hinj p q); [done|by left|by right|done].
    + apply IH. intros q r Hq Hr. apply Hinj; by right.
Qed.

Lemma StronglySorted_filter' {X} (R : X → X → Prop) (P : X → Prop) `{!∀ x, Decision (P x)} l :
  StronglySorted R l → StronglySorted R (filter P l).
Proof.
  induction 1 as [|x l Hl IH Hx]; [constructor|]. rewrite filter_cons. case_decide; [|done].
  constructor; [done|]. rewrite list.Forall_forall in Hx |- *. intros y Hy.
  apply list_elem_of_filter in Hy as [_ Hy]. by apply Hx.
Qed.

(** The directory after deleting some of its segments. *)
Lemma segments_of_deleted fs (skip : SegmentName → bool) :
  let paths := filter (λ p, skip (path_name p) = true) (segments_of fs) in
  segments_of (delete_files (path_file <$> paths) fs) =
  filter (λ p, skip (path_name p) = false) (segments_of fs).
Proof.
  intros paths. apply segments_of_unique.
  - apply StronglySorted_filter', segments_of_sorted.
  - intros p. rewrite list_elem_of_filter, !elem_of_segments_of. split.
    + intros (Hs & Hf & Hid & i & Hi). split; [done|]. split; [done|]. exists i.
      rewrite delete_files_entries, decide_False; [done|].
      intros (q & E & Hq)%list_elem_of_fmap. apply list_elem_of_filter in Hq as [Hq Hin].
      apply elem_of_segments_of in Hin as (Hqf & Hqid & _).
      rewrite Hf, Hqf in E. apply file_name_inj in E; [|done..]. congruence.
    + intros (Hf & Hid & i & Hi). rewrite delete_files_entries in Hi. case_decide as Hd; [done|].
      split; [|eauto]. destruct (skip (path_name p)) eqn:E; [|done]. exfalso. apply Hd.
      apply list_elem_of_fmap_2, list_elem_of_filter. split; [done|].
      apply elem_of_segments_of. eauto.
Qed.

Lemma clean_dir_deleted fs segs skip :
  clean_dir fs segs →
  clean_dir (delete_files (path_file <$> filter (λ p, skip (path_name p) = true) (segments_of fs)) fs)
            (filter (λ seg : segment_contents, skip seg.1 = false) segs).
Proof.
  intros (Hnf & Hr & Hsegs). set (paths := filter (λ p, skip (path_name p) = true) (segments_of fs)).
  destruct (delete_files_same (path_file <$> paths) fs) as (Hr' & Hf' & Hi' & _).
  split; [unfold no_faults in *; by rewrite Hf'|]. split; [by rewrite Hr'|].
  unfold paths at 2. rewrite segments_of_deleted. fold paths.
  eapply Forall2_In_l.
  - apply Forall2_filter; [|exact Hsegs]. intros p seg (Hn & _). by rewrite Hn.
  - intros p seg Hp (Hn & Hb & i & Hri & He & Hd). split; [done|]. split; [done|]. exists i.
    apply list_elem_of_filter in Hp as [Hk Hp]. split; [by rewrite Hr'|]. split.
    + rewrite delete_files_entries, decide_False; [done|].
      intros (q & E & Hq)%list_elem_of_fmap. apply list_elem_of_filter in Hq as [Hqs Hq].
      apply elem_of_segments_of in Hp as (Hpf & Hpid & _), Hq as (Hqf & Hqid & _).
      rewrite Hpf, Hqf in E. apply file_name_inj in E; [|done..]. congruence.
    + unfold data_of, inode_of in *. by rewrite Hi'.
Qed.

Lemma log_skip_filter skip (segs : list segment_contents) :
  log_of (filter (λ seg : segment_contents, skip seg.1 = false) segs) = log_skip skip (log_of segs).
Proof.
  rewrite log_skip_segments. induction segs as [|seg segs IH]; [done|].
  rewrite filter_cons, fmap_cons. cbn [concat]. rewrite <-IH.
  destruct (skip seg.1); [by rewrite decide_False|by rewrite decide_True].
Qed.

(** Dropping records before the last checkpoint of a node keeps its view. *)
Lemma last_checkpoint_skip skip n nlog q :
  last_checkpoint n nlog = Some q → skip (position_segment q) = false →
  last_checkpoint n (log_skip skip nlog) = Some q.
Proof.
  assert (Hnone : ∀ l, last_checkpoint n l = None → last_checkpoint n (log_skip skip l) = None).
  { induction l as [|[p nr] l IHl]; [done|]. cbn [last_checkpoint]. unfold log_skip. rewrite filter_cons.
    destruct (last_checkpoint n l); [done|]. intros Hp. case_decide; cbn [last_checkpoint].
    - fold (log_skip skip l). by rewrite IHl.
    - by apply IHl. }
  induction nlog as [|[p nr] nlog IH]; [done|]. cbn [last_checkpoint]. unfold log_skip.
  rewrite filter_cons. fold (log_skip skip nlog). cbn [fst]. intros Hq Hk.
  destruct (last_checkpoint n nlog) as [q'|] eqn:E.
  - injection Hq as ->. case_decide; cbn [last_checkpoint]; by rewrite (IH eq_refl Hk).
  - assert (p = q) as -> by (by destruct (_ && _); [injection Hq|]).
    rewrite decide_True by done. cbn [last_checkpoint]. by rewrite Hnone.
Qed.

Lemma node_view_skip skip n nlog p c :
  StronglySorted record_position_lt nlog.*1 →
  (p, mkNodeRecord n (RecordSnapshotCheckpoint c)) ∈ nlog →
  (∀ q, skip (position_segment q) = true → record_position_lt q p) →
  node_view n (log_skip skip nlog) = node_view n nlog.
Proof.
  intros Hs Hin Hskip.
  assert (Hs' : StronglySorted record_position_lt (log_skip skip nlog).*1).
  { clear Hin. induction nlog as [|[q x] nlog IH]; [constructor|].
    pose proof (log_sorted_inv _ _ _ Hs) as [Hs1 Hlt]. unfold log_skip. rewrite filter_cons.
    case_decide; [|by apply IH]. rewrite fmap_cons. constructor; [by apply IH|].
    rewrite list.Forall_forall. intros y (r & -> & Hr)%list_elem_of_fmap.
    apply list_elem_of_filter in Hr as [_ Hr]. by apply Hlt. }
  destruct (last_checkpoint_from n (Some p) nlog p c Hs Hin) as (_ & q & Hq & Hqp).
  { cbn. rewrite bool_decide_eq_false_2; [done|]. apply record_position_lt_irrefl. }
  assert (Hqs : skip (position_segment q) = false).
  { destruct (skip (position_segment q)) eqn:E; [|done]. apply Hskip in E.
    cbn in Hqp. by rewrite bool_decide_eq_true_2 in Hqp. }
  unfold node_view. rewrite <-!node_records_since by done.
  rewrite (last_checkpoint_skip skip n nlog q), Hq by done. unfold node_records.
  rewrite log_from_skip; [done|]. intros r Hr. cbn. rewrite bool_decide_eq_true_2; [done|].
  apply Hskip in Hr. cbn in Hqp. apply negb_true_iff, bool_decide_eq_false in Hqp.
  destruct r as [[r] ro], p as [[p] po], q as [[q] qo]. unfold record_position_lt, name_lt in *. cbn in *.
  destruct (N.lt_total q p) as [?|[->|?]]; [exfalso; apply Hqp; by left| |].
  - destruct Hr as [?|[[= ->] ?]]; [by left|]. right. split; [done|].
    destruct (N.lt_ge_cases qo po); [exfalso; apply Hqp; by right|lia].
  - left. destruct Hr as [?|[[= ->] ?]]; lia.
Qed.

(** Deleting whole segments other than the active one. *)
Lemma engine_ok_deleted fs m e nlog skip :
  engine_ok (mkEngineState (mkWorld fs m) e) nlog →
  skip (active_segment (engine_writer e)) = false →
  (∀ n p, is_active (engine_registry e) n = true → checkpoint_position (engine_index e) n = Some p →
     skip (position_segment p) = false) →
  engine_ok (mkEngineState (mkWorld (delete_files
    (path_file <$> filter (λ p, skip (path_name p) = true) (segments_of fs)) fs) m) e)
    (log_skip skip nlog).
Proof.
  intros [(segs & bodies & Hw & Hdec) Hnames Hidx] Hact Hkeep. cbn [es_world es_engine w_fs] in *.
  set (files := path_file <$> filter _ (segments_of fs)).
  destruct (delete_files_same files fs) as (Hr & Hf & Hi & Hn).
  destruct (writer_segments _ _ _ _ Hw) as (_ & _ & _ & Hid & _).
  split; cbn [es_world es_engine w_fs].
  - exists (filter (λ seg : segment_contents, skip seg.1 = false) segs), bodies. split.
    + destruct Hw as [Hc Hwf He Hd Hwr Ha Hl]. split; try done.
      * pose proof (clean_dir_deleted fs _ skip Hc) as Hc'. rewrite list.filter_app, filter_cons in Hc'.
        cbn [fst] in Hc'. by rewrite decide_True in Hc' by exact Hact.
      * destruct Hwf as [Hinj Hb]. split.
        -- intros a b i. rewrite !delete_files_entries. repeat case_decide; try done. apply Hinj.
        -- intros a i. rewrite delete_files_entries, Hn. case_decide; [done|]. apply Hb.
      * rewrite delete_files_entries, decide_False; [done|].
        intros (q & E & Hq)%list_elem_of_fmap. apply list_elem_of_filter in Hq as [Hqs Hq].
        apply elem_of_segments_of in Hq as (Hqf & Hqid & _). rewrite Hqf in E.
        apply file_name_inj in E; [|done..]. congruence.
      * unfold data_of, inode_of in *. by rewrite Hi.
    + unfold writer_log in *.
      assert (filter (λ seg : segment_contents, skip seg.1 = false) segs ++ [(active_segment (engine_writer e), bodies)]
        = filter (λ seg : segment_contents, skip seg.1 = false) (segs ++ [(active_segment (engine_writer e), bodies)])) as ->.
      { rewrite list.filter_app, filter_cons. cbn [fst]. by rewrite decide_True by exact Hact. }
      rewrite log_skip_filter. by apply log_decodes_skip.
  - intros name Hin. unfold not_other. rewrite delete_files_entries. case_decide; [done|]. by apply Hnames.
  - intros n p Ha Hp. destruct (Hidx n p Ha Hp) as [c Hc]. exists c.
    apply list_elem_of_filter. split; [by eapply Hkeep|done].
Qed.

Lemma engine_ok_sync_entries fs m e nlog :
  engine_ok (mkEngineState (mkWorld fs m) e) nlog →
  engine_ok (mkEngineState (mkWorld (sync_entries fs) m) e) nlog.
Proof.
  intros [(segs & bodies & Hw & Hdec) Hnames Hidx]. split; [|done|done]. exists segs, bodies. split; [|done].
  destruct (writer_segments _ _ _ _ Hw) as (_ & _ & _ & Hid & _).
  eapply writer_ok_same; [|apply Hw|done|exact Hw]. done.
Qed.

(** The segments that may be deleted lie before the indexed checkpoints of the
    active nodes. *)
Lemma gc_deletable_before e b active n p q :
  gc_barrier (engine_index e) (active_node_ids (engine_registry e)) = Some b →
  is_active (engine_registry e) n = true → checkpoint_position (engine_index e) n = Some p →
  deletable b active (position_segment q) = true → record_position_lt q p.
Proof.
  intros Eb%gc_barrier_spec Ha Hp Hq. apply andb_true_iff in Hq as [_ Hq]. apply elem_of_active_node_ids in Ha.
  destruct b as [|seg]; [rewrite Eb in Ha; set_solver|].
  destruct (Eb n Ha) as (p' & Hp' & Hle). rewrite Hp in Hp'. injection Hp' as <-.
  cbn in Hq. apply bool_decide_eq_true in Hq. left. unfold name_lt, name_le in *. lia.
Qed.

(** Deleting them keeps the view of the active nodes. *)
Lemma gc_view fs m e nlog b n :
  engine_ok (mkEngineState (mkWorld fs m) e) nlog →
  gc_barrier (engine_index e) (active_node_ids (engine_registry e)) = Some b →
  is_active (engine_registry e) n = true →
  node_view n (log_skip (deletable b (active_segment (engine_writer e))) nlog) = node_view n nlog.
Proof.
  intros Hok Eb Ha. pose proof Hok as [(segs & bodies & Hw & Hdec) _ Hidx]. cbn [es_world es_engine w_fs] in *.
  pose proof (clean_log_sorted _ _ _ (wo_clean _ _ _ _ Hw) Hdec) as Hs.
  pose proof (gc_barrier_spec _ _ _ Eb) as Hb. destruct b as [|seg].
  - apply elem_of_active_node_ids in Ha. rewrite Hb in Ha. set_solver.
  - destruct (Hb n (proj2 (elem_of_active_node_ids _ _) Ha)) as (p & Hp & _).
    destruct (Hidx n p Ha Hp) as [c Hc]. eapply node_view_skip; [done|exact Hc|]. intros q.
    by eapply gc_deletable_before.
Qed.

(** [collect_garbage] succeeds and keeps the view of every active node. *)
Lemma collect_garbage_run fs m e nlog :
  engine_ok (mkEngineState (mkWorld fs m) e) nlog →
  ∃ fs' m' nlog',
    collect_garbage (mkEngineState (mkWorld fs m) e) = (Ok (), mkEngineState (mkWorld fs' m') e) ∧
    engine_ok (mkEngineState (mkWorld fs' m') e) nlog' ∧
    (∀ n, is_active (engine_registry e) n = true → node_view n nlog' = node_view n nlog) ∧
    nlog' `sublist_of` nlog.
Proof.
  intros Hok. pose proof Hok as [(segs & bodies & Hw & Hdec) _ Hidx]. cbn [es_world es_engine w_fs] in *.
  pose proof (wo_clean _ _ _ _ Hw) as Hclean. pose proof Hclean as (Hnf & Hr & _).
  pose proof (clean_log_sorted _ _ _ Hclean Hdec) as Hs.
  unfold collect_garbage. set (s0 := mkEngineState _ e).
  rewrite (bind_ok (count gc_ran) _ s0 () (mkEngineState (mkWorld fs (gc_ran m)) e) eq_refl).
  set (s1 := mkEngineState _ e). rewrite (bind_ok get_engine _ s1 e s1 eq_refl).
  destruct (gc_barrier (engine_index e) (active_node_ids (engine_registry e))) as [b|] eqn:Eb.
  2:{ exists fs, (gc_ran m), nlog. split; [done|]. split; [by eapply engine_ok_metrics|]. by split. }
  set (active := active_segment (engine_writer e)).
  rewrite (bind_ok _ _ _ _ _ (es_on_world_run _ _ e _ _
    (discover_segment_paths_run (mkWorld fs (gc_ran m)) Hnf Hr))). cbn [w_fs].
  rewrite (bind_ok _ _ _ _ _ (delete_segments_run b active (segments_of fs) 0 fs (gc_ran m) e Hnf Hr
    (segments_of_files_NoDup fs) ltac:(intros p Hp; by apply elem_of_segments_of in Hp as (_ & _ & ?)))).
  set (skip := deletable b active). set (del := deleted_paths b active (segments_of fs)).
  set (fs1 := delete_files (path_file <$> del) fs).
  assert (Hact : skip active = false) by (unfold skip, deletable; by rewrite bool_decide_eq_true_2).
  assert (Hok1 : ∀ m', engine_ok (mkEngineState (mkWorld fs1 m') e) (log_skip skip nlog)).
  { intros m'. apply (engine_ok_metrics _ m), engine_ok_deleted; [done|done|].
    intros n p Ha Hp. destruct (skip (position_segment p)) eqn:E; [|done].
    exfalso. eapply record_position_lt_irrefl. by eapply gc_deletable_before. }
  assert (Hview : ∀ n, is_active (engine_registry e) n = true →
            node_view n (log_skip skip nlog) = node_view n nlog) by (intros n; by eapply gc_view).
  rewrite N.add_0_l. destruct (N.eqb_spec (lenN del) 0) as [E0|E0]; cbn [negb].
  - exists fs1, (gc_ran m), (log_skip skip nlog). split; [done|]. split; [done|]. split; [done|].
    apply sublist_filter.
  - exists (sync_entries fs1), (gc_deleted_segments (lenN del) (gc_ran m)), (log_skip skip nlog).
    split; [|split; [by apply engine_ok_sync_entries|split; [done|apply sublist_filter]]].
    set (s2 := mkEngineState (mkWorld fs1 _) e).
    rewrite (bind_ok _ _ s2 () (mkEngineState (mkWorld fs1 (gc_deleted_segments (lenN del) (gc_ran m))) e) eq_refl).
    destruct (delete_files_same (path_file <$> del) fs) as (Hr1 & Hf1 & _).
    apply es_on_world_run. apply fs_sync_dir_run.
    + exact (eq_trans Hf1 Hnf).
    + exact (eq_trans Hr1 Hr).
Qed.

(** ** The operations on nodes *)

Lemma engine_ok_meta w e e' nlog :
  engine_ok (mkEngineState w e) nlog → engine_writer e' = engine_writer e →
  (∀ n p, is_active (engine_registry e') n = true → checkpoint_position (engine_index e') n = Some p →
     hint_ok n (Some p) nlog) →
  engine_ok (mkEngineState w e') nlog.
Proof.
  intros [Hw Hn _] Hwr Hidx. cbn [es_world es_engine] in *. split; cbn [es_world es_engine]; [|done|done].
  by rewrite Hwr.
Qed.

Lemma checkpoint_position_set x n p n' :
  checkpoint_position (set_checkpoint_position n p x) n' =
  if decide (n = n') then Some p else checkpoint_position x n'.
Proof.
  unfold checkpoint_position, set_checkpoint_position. cbn [index_nodes]. rewrite lookup_insert.
  by case_decide.
Qed.

Lemma checkpoint_position_remove x n n' p :
  checkpoint_position (index_remove_node n x) n' = Some p → n ≠ n' ∧ checkpoint_position x n' = Some p.
Proof.
  unfold checkpoint_position, index_remove_node. cbn [index_nodes]. rewrite lookup_delete.
  by case_decide.
Qed.

Lemma engine_ok_index w e nlog n p c :
  engine_ok (mkEngineState w e) nlog → (p, mkNodeRecord n (RecordSnapshotCheckpoint c)) ∈ nlog →
  engine_ok (mkEngineState w (mkStorageEngine (write_lock e) (engine_registry e)
               (set_checkpoint_position n p (engine_index e)) (engine_writer e))) nlog.
Proof.
  intros Hok Hin. eapply engine_ok_meta; [exact Hok|done|]. cbn [engine_registry engine_index].
  intros n' p' Ha. rewrite checkpoint_position_set. case_decide as E.
  - subst. intros [= <-]. by exists c.
  - by apply Hok.
Qed.

Lemma metadata_pairs :
  NODE_REGISTRY_TMP_FILE_NAME ∈ metadata_names ∧ NODE_REGISTRY_FILE_NAME ∈ metadata_names ∧
  CHECKPOINT_INDEX_TMP_FILE_NAME ∈ metadata_names ∧ CHECKPOINT_INDEX_FILE_NAME ∈ metadata_names.
Proof. unfold metadata_names. repeat split; set_solver. Qed.

Lemma index_save_run fs m e nlog x :
  engine_ok (mkEngineState (mkWorld fs m) e) nlog →
  ∃ fs', es_on_world (index_save x) (mkEngineState (mkWorld fs m) e) =
           (Ok (), mkEngineState (mkWorld fs' m) e) ∧
         engine_ok (mkEngineState (mkWorld fs' m) e) nlog.
Proof.
  intros Hok. destruct metadata_pairs as (_ & _ & Ht & Hp).
  destruct (engine_ok_saved fs m e nlog _ _ (format_checkpoint_index x) Ht Hp ltac:(done) Hok) as [Hok' Hrun].
  eexists. split; [by apply es_on_world_run|exact Hok'].
Qed.

Lemma registry_save_run fs m e nlog r :
  engine_ok (mkEngineState (mkWorld fs m) e) nlog →
  ∃ fs', es_on_world (registry_save r) (mkEngineState (mkWorld fs m) e) =
           (Ok (), mkEngineState (mkWorld fs' m) e) ∧
         engine_ok (mkEngineState (mkWorld fs' m) e) nlog.
Proof.
  intros Hok. destruct metadata_pairs as (Ht & Hp & _ & _).
  destruct (engine_ok_saved fs m e nlog _ _ (format_node_registry r) Ht Hp ltac:(done) Hok) as [Hok' Hrun].
  eexists. split; [by apply es_on_world_run|exact Hok'].
Qed.

Lemma count_run (f : StorageMetrics → StorageMetrics) fs m e :
  count f (mkEngineState (mkWorld fs m) e) = (Ok (), mkEngineState (mkWorld fs (f m)) e).
Proof. done. Qed.

Lemma refresh_index_run fs m e :
  refresh_checkpoint_index_metrics (mkEngineState (mkWorld fs m) e) =
  (Ok (), mkEngineState (mkWorld fs (checkpoint_index_changed (index_len (engine_index e)) m)) e).
Proof. done. Qed.

Lemma refresh_registry_run fs m e :
  refresh_registry_metrics (mkEngineState (mkWorld fs m) e) =
  (Ok (), mkEngineState (mkWorld fs (node_counts_changed (active_node_count (engine_registry e))
             (removed_node_count (engine_registry e)) m)) e).
Proof. done. Qed.

Lemma get_engine_run w e : get_engine (mkEngineState w e) = (Ok e, mkEngineState w e).
Proof. done. Qed.

Lemma set_index_run w e x :
  set_index x (mkEngineState w e) =
  (Ok (), mkEngineState w (mkStorageEngine (write_lock e) (engine_registry e) x (engine_writer e))).
Proof. done. Qed.

Lemma set_registry_run w e r :
  set_registry r (mkEngineState w e) =
  (Ok (), mkEngineState w (mkStorageEngine (write_lock e) r (engine_index e) (engine_writer e))).
Proof. done. Qed.

Lemma storable_checkpoint_valid n c : storable n (RecordSnapshotCheckpoint c) → checkpoint_validate c = Ok ().
Proof. intros (_ & _ & _ & (H & _) & _). exact H. Qed.

(** A checkpoint appended, synced and indexed: the common part of
    [create_node] and [save_snapshot]. *)
Lemma append_checkpoint_run fs m e nlog n c :
  engine_ok (mkEngineState (mkWorld fs m) e) nlog → storable n (RecordSnapshotCheckpoint c) →
  rotation_free fs e n (RecordSnapshotCheckpoint c) →
  let p := next_position e n (RecordSnapshotCheckpoint c) in
  ∃ fs' m' w',
    (append ← es_on_writer (writer_append n (RecordSnapshotCheckpoint c));
     es_on_writer writer_sync ;;
     mret append) (mkEngineState (mkWorld fs m) e) =
      (Ok p, mkEngineState (mkWorld fs' m') (with_writer w' e)) ∧
    engine_ok (mkEngineState (mkWorld fs' m') (with_writer w' e))
              (nlog ++ [(p, mkNodeRecord n (RecordSnapshotCheckpoint c))]) ∧
    segment_id (active_segment w') ≤ segment_id (active_segment (engine_writer e)) + 1.
Proof.
  intros Hok Hst Hrot p.
  destruct (engine_append_run fs m e nlog n _ Hok Hst Hrot)
    as (fs1 & m1 & w1 & Hrun & Hok1 & _ & Hact & _).
  destruct (engine_sync_run fs1 m1 _ _ Hok1) as (fs2 & m2 & Hsync & Hok2 & _).
  exists fs2, m2, w1. split; [|done].
  rewrite (bind_ok _ _ _ _ _ Hrun). by rewrite (bind_ok _ _ _ _ _ Hsync).
Qed.

(** Splits a sequence at its third step. *)
Lemma bind_regroup {S A B C} (m1 : M S A) (m2 : M S B) (f : A → M S C) s :
  (a ← m1; m2 ;; f a) s = ((a ← m1; m2 ;; mret a) ≫= f) s.
Proof.
  unfold mbind, M_bind, mret, M_ret. destruct (m1 s) as [[a|e] s1]; [|done].
  by destruct (m2 s1) as [[b|e] s2].
Qed.

Lemma save_snapshot_run fs m e nlog n c :
  engine_ok (mkEngineState (mkWorld fs m) e) nlog → is_active (engine_registry e) n = true →
  storable n (RecordSnapshotCheckpoint c) → rotation_free fs e n (RecordSnapshotCheckpoint c) →
  ∃ fs' m' e' nlog',
    save_snapshot n c (mkEngineState (mkWorld fs m) e) = (Ok (), mkEngineState (mkWorld fs' m') e') ∧
    engine_ok (mkEngineState (mkWorld fs' m') e') nlog' ∧
    engine_registry e' = engine_registry e ∧
    segment_id (active_segment (engine_writer e')) ≤ segment_id (active_segment (engine_writer e)) + 1 ∧
    (∀ n', is_active (engine_registry e) n' = true →
       node_view n' nlog' = if decide (n = n') then [RecordSnapshotCheckpoint c] else node_view n' nlog).
Proof.
  intros Hok Ha Hst Hrot. unfold save_snapshot.
  rewrite (bind_ok _ _ _ _ _ (engine_ensure_active n _ (mkEngineState (mkWorld fs m) e) Ha)).
  rewrite (bind_ok (lift_result _) _ _ () (mkEngineState (mkWorld fs m) e))
    by (unfold lift_result; by rewrite (storable_checkpoint_valid n)).
  rewrite bind_regroup.
  destruct (append_checkpoint_run fs m e nlog n c Hok Hst Hrot) as (fs1 & m1 & w1 & Hrun & Hok1 & Hact).
  set (p := next_position e n _) in *. set (nlog1 := nlog ++ _) in *.
  rewrite (bind_ok _ _ _ _ _ Hrun).
  rewrite (bind_ok _ _ _ _ _ (get_engine_run _ _)). cbv zeta.
  set (x := set_checkpoint_position n p (engine_index (with_writer w1 e))).
  destruct (index_save_run fs1 m1 _ _ x Hok1) as (fs2 & Hsave & Hok2).
  rewrite (bind_ok _ _ _ _ _ Hsave). rewrite (bind_ok _ _ _ _ _ (set_index_run _ _ x)).
  assert (Hin : (p, mkNodeRecord n (RecordSnapshotCheckpoint c)) ∈ nlog1)
    by (unfold nlog1; apply elem_of_app; right; by left).
  pose proof (engine_ok_index _ _ _ n p c Hok2 Hin) as Hok3. fold x in Hok3.
  set (e3 := mkStorageEngine _ _ x _) in *.
  rewrite (bind_ok _ _ _ _ _ (refresh_index_run fs2 m1 e3)).
  destruct (collect_garbage_run fs2 (checkpoint_index_changed (index_len x) m1) e3 nlog1
    (engine_ok_metrics _ _ _ _ _ Hok3))
    as (fs4 & m4 & nlog4 & Hgc & Hok4 & Hview & _).
  rewrite (bind_ok _ _ _ _ _ Hgc).
  eexists fs4, _, e3, nlog4. split; [reflexivity|]. split; [by eapply engine_ok_metrics|].
  split; [done|]. split; [exact Hact|]. intros n' Ha'. rewrite Hview by exact Ha'. unfold nlog1.
  rewrite node_view_snoc. by case_decide.
Qed.

(** *** The initial checkpoint *)

Lemma initial_checkpoint_validate : checkpoint_validate initial_checkpoint = Ok ().
Proof.
  apply checkpoint_validate_ok; [apply POSITION_ZERO_fit|]. split.
  - apply payloads_match_new. by rewrite POSITION_ZERO_eq.
  - apply entries_prev_new.
Qed.

Lemma initial_checkpoint_storable n : u64 n → storable n (RecordSnapshotCheckpoint initial_checkpoint).
Proof.
  intros Hn. assert (Hz : position_u64 POSITION_ZERO) by (by rewrite POSITION_ZERO_eq).
  assert (Hset : set_u64 ∅ ∧ set_limits ∅) by (split; [intros x; set_solver|done]).
  assert (Hcl : config_limits config_new ∧ config_u64 config_new)
    by (rewrite config_new_eq; split; (split; [apply Hset|split; apply Hset])).
  assert (Hlen : entries_len (entries_new POSITION_ZERO) = 0) by by rewrite entries_len_iter, entries_iter_new.
  split; [done|]. split; [apply POSITION_ZERO_fit|]. split; [|split].
  - split; [cbn; by rewrite TERM_ZERO_eq|]. split; [done|]. split; [exact Hz|]. split; [apply Hcl|].
    split; [cbn; by rewrite entries_prev_new|]. cbn. rewrite entries_iter_new. by split; [constructor|apply map_Forall_empty].
  - split; [apply initial_checkpoint_validate|]. split; [apply Hcl|].
    pose proof initial_checkpoint_validate as Hv. unfold checkpoint_validate in Hv.
    split; [by destruct (log_append_validate _) as [[]|]|]. cbn.
    rewrite Hlen, entries_iter_new. split; [done|]. split; [constructor|done].
  - unfold wire_body, wire_record, wire_checkpoint, wire_snapshot, wire_append, wire_entries,
      wire_position, wire_config, wire_node_set, wire_bytes.
    cbn [checkpoint_current_term checkpoint_voted_for checkpoint_snapshot checkpoint_suffix
         initial_checkpoint initial_suffix last_included snapshot_config snapshot_data append_entries_of
         append_payloads wire_optional_node].
    rewrite entries_iter_new, config_new_eq. rewrite !lenN_app, !lenN_le_bytes. done.
Qed.
End engine.
