(* ===== verification/NodeCorrect.v ===== *)
(** * The life cycle of a node

    Creating and removing a node, and loading all active nodes, over the log
    of records of [EngineCorrect]. *)
From Stdlib Require Import Strings.Byte Strings.String.
From S2P Require Import Prelude Metrics Fs Text Json Noraft State Crc32c Codec Format Frame.
From S2P Require Import Segment Replay Registry Checkpoint Engine Recovery ReplayCorrect.
From S2P Require Import WriterCorrect MetadataCorrect EngineCorrect.

Section registry.
Context `{NJ : Nojson}.

(** ** The registry in memory *)

(** What the registry says of a node ID: never used, in use, or reserved. *)
Inductive NodeStatus := Unknown | Active (md : NodeMetadata) | Removed.

Definition node_status (r : NodeRegistry) (n : N) : NodeStatus :=
  match registry_nodes r !! n with
  | None => Unknown
  | Some entry => if entry_removed entry then Removed else Active (entry_metadata entry)
  end.

Lemma is_active_status r n :
  is_active r n = match node_status r n with Active _ => true | _ => false end.
Proof. unfold is_active, node_status. destruct (_ !! n) as [[md []]|]; done. Qed.

Lemma is_removed_status r n :
  is_removed r n = match node_status r n with Removed => true | _ => false end.
Proof. unfold is_removed, node_status. destruct (_ !! n) as [[md []]|]; done. Qed.

(** Registering a node. *)
Definition registry_with (n : N) (md : NodeMetadata) (r : NodeRegistry) : NodeRegistry :=
  mkNodeRegistry (<[n := mkNodeRegistryEntry md false]> (registry_nodes r)).

Lemma registry_create_node_run n md r :
  registry_create_node n md r =
  match node_status r n with
  | Unknown => (Ok (), registry_with n md r)
  | _ => (Err node_already_exists_error, r)
  end.
Proof.
  unfold registry_create_node, node_status, mbind, M_bind, get_state, modify, throw.
  destruct (registry_nodes r !! n) as [[? []]|]; done.
Qed.

(** Reserving the ID of a node. *)
Definition registry_without (n : N) (md : NodeMetadata) (r : NodeRegistry) : NodeRegistry :=
  mkNodeRegistry (<[n := mkNodeRegistryEntry md true]> (registry_nodes r)).

Lemma registry_remove_node_run n r :
  registry_remove_node n r =
  match node_status r n with
  | Unknown => (Err node_not_found_error, r)
  | Active md => (Ok (), registry_without n md r)
  | Removed => (Err node_removed_error, r)
  end.
Proof.
  unfold registry_remove_node, node_status, mbind, M_bind, get_state, modify, throw.
  destruct (registry_nodes r !! n) as [[? []]|]; done.
Qed.

Lemma node_status_with n md r n' :
  node_status (registry_with n md r) n' = if decide (n = n') then Active md else node_status r n'.
Proof. unfold node_status, registry_with. cbn [registry_nodes]. rewrite lookup_insert. by case_decide. Qed.

Lemma node_status_without n md r n' :
  node_status (registry_without n md r) n' = if decide (n = n') then Removed else node_status r n'.
Proof. unfold node_status, registry_without. cbn [registry_nodes]. rewrite lookup_insert. by case_decide. Qed.
End registry.

Section node.
Context `{NJ : Nojson} `{NL : NoraftLaws}.

Lemma lift_result_ok {S} (s : S) : lift_result (Ok ()) s = (Ok (), s).
Proof. done. Qed.

(** ** Creating a node *)

Lemma create_node_run fs m e nlog n md :
  engine_ok (mkEngineState (mkWorld fs m) e) nlog → node_status (engine_registry e) n = Unknown →
  u64 n → rotation_free fs e n (RecordSnapshotCheckpoint initial_checkpoint) →
  ∃ fs' m' e' p,
    create_node n md (mkEngineState (mkWorld fs m) e) = (Ok (), mkEngineState (mkWorld fs' m') e') ∧
    engine_ok (mkEngineState (mkWorld fs' m') e')
      (nlog ++ [(p, mkNodeRecord n (RecordSnapshotCheckpoint initial_checkpoint))]) ∧
    engine_registry e' = registry_with n md (engine_registry e) ∧
    segment_id (active_segment (engine_writer e')) ≤ segment_id (active_segment (engine_writer e)) + 1.
Proof.
  intros Hok Hst Hn Hrot. unfold create_node.
  rewrite (bind_ok _ _ _ _ _ (get_engine_run _ _)), registry_create_node_run, Hst. cbv beta iota zeta.
  rewrite (bind_ok _ _ _ _ _ (lift_result_ok _)), bind_regroup.
  destruct (append_checkpoint_run fs m e nlog n _ Hok (initial_checkpoint_storable n Hn) Hrot)
    as (fs1 & m1 & w1 & Hrun & Hok1 & Hact).
  set (p := next_position e n _) in *. set (nlog1 := nlog ++ _) in *.
  rewrite (bind_ok _ _ _ _ _ Hrun), (bind_ok _ _ _ _ _ (get_engine_run _ _)). cbv zeta.
  set (e1 := with_writer w1 e) in *. set (x := set_checkpoint_position n p (engine_index e1)).
  destruct (index_save_run fs1 m1 _ _ x Hok1) as (fs2 & Hsave & Hok2).
  rewrite (bind_ok _ _ _ _ _ Hsave).
  destruct (registry_save_run fs2 m1 _ _ (registry_with n md (engine_registry e)) Hok2)
    as (fs3 & Hreg & Hok3).
  rewrite (bind_ok _ _ _ _ _ Hreg), (bind_ok _ _ _ _ _ (set_registry_run _ _ _)),
    (bind_ok _ _ _ _ _ (set_index_run _ _ x)).
  set (e4 := mkStorageEngine _ _ x _).
  rewrite (bind_ok _ _ _ _ _ (count_run _ _ _ _)), (bind_ok _ _ _ _ _ (refresh_registry_run _ _ _)),
    refresh_index_run.
  eexists fs3, _, e4, p. split; [reflexivity|]. split; [|done].
  eapply engine_ok_metrics, engine_ok_meta; [exact Hok3|done|].
  intros n' p'. rewrite is_active_status. unfold e4. cbn [engine_registry engine_index].
  rewrite node_status_with. unfold x. rewrite checkpoint_position_set. case_decide as E.
  - subst n'. intros _ [= <-]. exists initial_checkpoint. unfold nlog1. apply elem_of_app. right. by left.
  - intros Ha Hp. rewrite <-is_active_status in Ha. by apply Hok3.
Qed.

(** ** Removing a node *)

Lemma remove_node_run fs m e nlog n md :
  engine_ok (mkEngineState (mkWorld fs m) e) nlog → node_status (engine_registry e) n = Active md →
  ∃ fs' m' e' nlog',
    remove_node n (mkEngineState (mkWorld fs m) e) = (Ok (), mkEngineState (mkWorld fs' m') e') ∧
    engine_ok (mkEngineState (mkWorld fs' m') e') nlog' ∧
    engine_registry e' = registry_without n md (engine_registry e) ∧
    active_segment (engine_writer e') = active_segment (engine_writer e) ∧
    (∀ n', n' ≠ n → is_active (engine_registry e) n' = true → node_view n' nlog' = node_view n' nlog).
Proof.
  intros Hok Hst. assert (Ha : is_active (engine_registry e) n = true) by (by rewrite is_active_status, Hst).
  unfold remove_node.
  rewrite (bind_ok _ _ _ _ _ (engine_ensure_active n _ (mkEngineState (mkWorld fs m) e) Ha)).
  rewrite (bind_ok _ _ _ _ _ (get_engine_run _ _)), registry_remove_node_run, Hst. cbv beta iota zeta.
  set (r := registry_without n md _). rewrite (bind_ok _ _ _ _ _ (lift_result_ok _)).
  destruct (registry_save_run fs m e nlog r Hok) as (fs1 & Hreg & Hok1).
  rewrite (bind_ok _ _ _ _ _ Hreg), (bind_ok _ _ _ _ _ (set_registry_run _ _ _)),
    (bind_ok _ _ _ _ _ (get_engine_run _ _)). cbv zeta.
  set (e1 := mkStorageEngine (write_lock e) r (engine_index e) (engine_writer e)).
  set (x := index_remove_node n (engine_index e1)).
  assert (Hstep : ∀ (e' : StorageEngine) m', engine_registry e' = r → engine_writer e' = engine_writer e →
    (∀ n' p, checkpoint_position (engine_index e') n' = Some p →
       checkpoint_position (engine_index e) n' = Some p) →
    ∀ fs', engine_ok (mkEngineState (mkWorld fs' m') e) nlog → engine_ok (mkEngineState (mkWorld fs' m') e') nlog).
  { intros e' m' Hr Hw Hidx fs' Hok'. eapply engine_ok_meta; [exact Hok'|done|].
    intros n' p'. rewrite is_active_status, Hr. unfold r. rewrite node_status_without.
    case_decide; [done|]. rewrite <-is_active_status. intros Ha' Hp. apply Hok'; [done|]. by apply Hidx. }
  pose proof (Hstep e1 m eq_refl eq_refl ltac:(done) fs1 Hok1) as Hok2.
  destruct (index_save_run fs1 m e1 nlog x Hok2) as (fs2 & Hsave & Hok3).
  rewrite (bind_ok _ _ _ _ _ Hsave), (bind_ok _ _ _ _ _ (set_index_run _ _ x)).
  set (e2 := mkStorageEngine _ _ x _).
  assert (Hok4 : engine_ok (mkEngineState (mkWorld fs2 m) e2) nlog).
  { eapply engine_ok_meta; [exact Hok3|done|]. intros n' p' Ha' Hp'. apply Hok3; [done|].
    by apply checkpoint_position_remove in Hp' as [_ ?]. }
  destruct (collect_garbage_run fs2 m e2 nlog Hok4) as (fs3 & m3 & nlog3 & Hgc & Hok5 & Hview & _).
  rewrite (bind_ok _ _ _ _ _ Hgc), (bind_ok _ _ _ _ _ (count_run _ _ _ _)),
    (bind_ok _ _ _ _ _ (refresh_registry_run _ _ _)), refresh_index_run.
  eexists fs3, _, e2, nlog3. split; [reflexivity|]. split; [by eapply engine_ok_metrics|]. split; [done|]. split; [done|].
  intros n' Hne Ha'. apply Hview. unfold e2, e1. cbn [engine_registry].
  rewrite is_active_status in Ha' |- *. unfold r. rewrite node_status_without. by rewrite decide_False.
Qed.

(** ** Loading every node *)

Lemma collect_positions_spec x ids acc ps :
  collect_positions x ids acc = Some ps →
  dom ps = list_to_set ids ∪ dom acc ∧
  ∀ n p, ps !! n = Some p → checkpoint_position x n = Some p ∨ acc !! n = Some p.
Proof.
  revert acc. induction ids as [|id ids IH]; intros acc; cbn [collect_positions list_to_set].
  - intros [= ->]. split; [set_solver|]. eauto.
  - intros (p & Hp & Hc)%bind_Some. apply IH in Hc as [Hdom Hlk]. split.
    + rewrite Hdom, dom_insert_L. set_solver.
    + intros n q Hq. destruct (Hlk n q Hq) as [?|Hin]; [by left|]. rewrite lookup_insert in Hin.
      case_decide; [|by right]. simplify_eq. by left.
Qed.

Lemma checkpoint_positions_spec x ids ps :
  checkpoint_positions x ids = Some ps →
  dom ps = ids ∧ ∀ n p, ps !! n = Some p → checkpoint_position x n = Some p.
Proof.
  intros [Hdom Hlk]%collect_positions_spec. split.
  - rewrite Hdom. apply set_eq. intros n.
    rewrite elem_of_union, elem_of_list_to_set, elem_of_btree_elements. set_solver.
  - intros n p Hn. by destruct (Hlk n p Hn).
Qed.

Lemma node_states_lookup ids states n :
  node_states ids states !! n =
  if decide (n ∈ ids) then Some (default node_state_default (states !! n)) else None.
Proof.
  unfold node_states. apply option_eq. intros st. rewrite lookup_set_to_map by done.
  case_decide as E; [|naive_solver]. split; [intros (? & ? & [= -> <-]); done|intros [= <-]; eauto].
Qed.

(** The states of the active nodes. *)
Definition all_loaded (reg : NodeRegistry) (nlog : list (RecordPosition * NodeRecord)) (r : result (gmap N NodeState)) : Prop :=
  match r with
  | Ok states => ∀ n,
      match states !! n with
      | Some st => is_active reg n = true ∧ replayed (node_view n nlog) = Ok st
      | None => is_active reg n = false
      end
  | Err err => ∃ n, is_active reg n = true ∧ replayed (node_view n nlog) = Err err
  end.

Lemma none_loaded reg nlog : active_node_ids reg = ∅ → all_loaded reg nlog (Ok ∅).
Proof.
  intros He n. rewrite lookup_empty. apply not_true_is_false. rewrite <-elem_of_active_node_ids, He. set_solver.
Qed.

(** Replaying the active nodes with the hints of the index. *)
Lemma replay_active_run fs m segs nlog active recover reg x :
  readable_dir fs active recover segs → log_decodes (log_of segs) nlog →
  (∀ n p, is_active reg n = true → checkpoint_position x n = Some p → hint_ok n (Some p) nlog) →
  let ids := active_node_ids reg in
  ∃ r m', replay_storage_dir active (Some ids) (checkpoint_positions x ids) recover (mkWorld fs m) = (r, mkWorld fs m') ∧
    all_loaded reg nlog (match r with Ok states => Ok (node_states ids states) | Err e => Err e end).
Proof.
  intros Hread Hdec Hidx ids.
  assert (Hids : ∀ n, n ∈ ids ↔ is_active reg n = true) by (intros; apply elem_of_active_node_ids).
  set (hints := checkpoint_positions x ids).
  assert (Hhints : hints_ok ids hints nlog).
  { destruct hints as [ps|] eqn:E; [|done]. apply checkpoint_positions_spec in E as [Hdom Hps].
    split; [done|]. intros n p Hn. assert (n ∈ ids) by (rewrite <-Hdom; by eapply elem_of_dom_2).
    apply Hidx; [by apply Hids|by apply Hps]. }
  destruct (replay_storage_dir_run fs m _ nlog active ids hints recover Hread Hdec Hhints) as (r & m' & Hrun & Hr).
  exists r, m'. split; [done|]. destruct r as [states|err].
  - intros n. rewrite node_states_lookup. case_decide as Hn.
    + split; [by apply Hids|]. by apply Hr.
    + apply not_true_is_false. by rewrite <-Hids.
  - destruct Hr as (n & Hn & He). exists n. split; [by apply Hids|done].
Qed.

Lemma engine_load_all_run fs m e nlog :
  engine_ok (mkEngineState (mkWorld fs m) e) nlog →
  ∃ r m', engine_load_all (mkEngineState (mkWorld fs m) e) = (r, mkEngineState (mkWorld fs m') e) ∧
    all_loaded (engine_registry e) nlog r.
Proof.
  intros [(segs & bodies & Hw & Hdec) _ Hidx]. cbn [es_world es_engine w_fs] in *.
  unfold engine_load_all. rewrite (bind_ok _ _ _ _ _ (get_engine_run _ _)). cbv zeta.
  case_bool_decide as Hempty; [exists (Ok ∅), m; split; [done|by apply none_loaded]|].
  destruct (replay_active_run fs m _ nlog (active_segment (engine_writer e)) true (engine_registry e) (engine_index e)
    (clean_readable _ _ _ _ (wo_clean _ _ _ _ Hw)) Hdec Hidx) as (r & m' & Hrun & Hr).
  destruct r as [states|err].
  - rewrite (bind_ok _ _ _ _ _ (es_on_world_run _ _ _ _ _ Hrun)). by eexists (Ok _), m'.
  - exists (Err err), m'. by rewrite (bind_err _ _ _ _ _ (es_on_world_run _ _ _ _ _ Hrun)).
Qed.
End node.
