(* ===== verification/EngineSpec.v ===== *)
(** * The abstract store and the refinement

    What the engine promises: a map from node IDs to node states, which
    [create_node], [save_*], [save_snapshot] and [remove_node] change one node
    at a time.  [refines] relates an engine with its files to such a map, and
    the engine simulates it step by step while the calls to the operating
    system succeed. *)
From Stdlib Require Import Strings.Byte Strings.String.
From S2P Require Import Prelude Metrics Fs Text Json Noraft State Crc32c Codec Format Frame.
From S2P Require Import Segment Replay Registry Checkpoint Engine Recovery ReplayCorrect.
From S2P Require Import WriterCorrect MetadataCorrect EngineCorrect NodeCorrect.

Section spec.
Context `{NJ : Nojson} `{NL : NoraftLaws}.

(** ** The abstract store *)

(** A live node has metadata and a state, or the error that replaying its
    records gives; the ID of a removed node stays reserved. *)
Inductive NodeSpec := Live (md : NodeMetadata) (st : result NodeState) | Reserved.
Abbreviation Store := (gmap N NodeSpec).

(** One more record: a checkpoint replaces the state, the others update it. *)
Definition spec_apply (r : SegmentRecord) (st : result NodeState) : result NodeState :=
  match r, st with
  | RecordSnapshotCheckpoint c, _ => checkpoint_into_state c
  | _, Err e => Err e
  | _, Ok s => match apply_record_to_state r s with (Ok _, s) => Ok s | (Err e, _) => Err e end
  end.

Definition missing_error (o : option NodeSpec) : io_error :=
  match o with Some Reserved => node_removed_error | _ => node_not_found_error end.

Inductive Op :=
  | OpCreateNode (n : N) (md : NodeMetadata)
  | OpSaveTerm (n term : N)
  | OpSaveVote (n : N) (vote : option N)
  | OpAppend (n : N) (append : LogAppend)
  | OpSnapshot (n : N) (checkpoint : SnapshotCheckpoint)
  | OpRemove (n : N)
  | OpSync
  | OpLoadNode (n : N)
  | OpLoadNodes.

Inductive Reply := Done | LoadedNode (s : NodeState) | LoadedNodes (states : gmap N NodeState).

(** Saving a record of node [n] in the abstract store. *)
Inductive spec_save (n : N) (r : SegmentRecord) (σ : Store) : result Reply → Store → Prop :=
  | spec_saved md st :
      σ !! n = Some (Live md st) → record_encodable n r →
      spec_save n r σ (Ok Done) (<[n := Live md (spec_apply r st)]> σ)
  | spec_unsaved md st e :
      σ !! n = Some (Live md st) → ¬ record_encodable n r → error_kind e = InvalidInput →
      spec_save n r σ (Err e) σ
  | spec_save_missing :
      (∀ md st, σ !! n ≠ Some (Live md st)) → spec_save n r σ (Err (missing_error (σ !! n))) σ.

(** The state of every live node. *)
Definition loads_all (σ : Store) (states : gmap N NodeState) : Prop :=
  ∀ n, match states !! n with
       | Some s => ∃ md, σ !! n = Some (Live md (Ok s))
       | None => ∀ md st, σ !! n ≠ Some (Live md st)
       end.

(** The abstract store's steps. *)
Inductive spec_step (σ : Store) : Op → result Reply → Store → Prop :=
  | step_create n md :
      σ !! n = None →
      spec_step σ (OpCreateNode n md) (Ok Done)
        (<[n := Live md (checkpoint_into_state initial_checkpoint)]> σ)
  | step_create_exists n md :
      is_Some (σ !! n) → spec_step σ (OpCreateNode n md) (Err node_already_exists_error) σ
  | step_term n t r σ' : spec_save n (RecordCurrentTerm t) σ r σ' → spec_step σ (OpSaveTerm n t) r σ'
  | step_vote n v r σ' : spec_save n (RecordVotedFor v) σ r σ' → spec_step σ (OpSaveVote n v) r σ'
  | step_append n a r σ' : spec_save n (RecordAppend a) σ r σ' → spec_step σ (OpAppend n a) r σ'
  | step_snapshot n c r σ' :
      spec_save n (RecordSnapshotCheckpoint c) σ r σ' → spec_step σ (OpSnapshot n c) r σ'
  | step_remove n md st :
      σ !! n = Some (Live md st) → spec_step σ (OpRemove n) (Ok Done) (<[n := Reserved]> σ)
  | step_remove_missing n :
      (∀ md st, σ !! n ≠ Some (Live md st)) → spec_step σ (OpRemove n) (Err (missing_error (σ !! n))) σ
  | step_sync : spec_step σ OpSync (Ok Done) σ
  | step_load n md st :
      σ !! n = Some (Live md st) →
      spec_step σ (OpLoadNode n) (match st with Ok s => Ok (LoadedNode s) | Err e => Err e end) σ
  | step_load_missing n :
      (∀ md st, σ !! n ≠ Some (Live md st)) → spec_step σ (OpLoadNode n) (Err (missing_error (σ !! n))) σ
  | step_load_all states : loads_all σ states → spec_step σ OpLoadNodes (Ok (LoadedNodes states)) σ
  | step_load_all_error n md e :
      σ !! n = Some (Live md (Err e)) → spec_step σ OpLoadNodes (Err e) σ.

(** ** The engine's steps *)

Definition exec (op : Op) : M EngineState Reply :=
  match op with
  | OpCreateNode n md => create_node n md ;; mret Done
  | OpSaveTerm n t => save_current_term n t ;; mret Done
  | OpSaveVote n v => save_voted_for n v ;; mret Done
  | OpAppend n a => append_entries n a ;; mret Done
  | OpSnapshot n c => save_snapshot n c ;; mret Done
  | OpRemove n => remove_node n ;; mret Done
  | OpSync => engine_sync ;; mret Done
  | OpLoadNode n => s ← engine_load n; mret (LoadedNode s)
  | OpLoadNodes => states ← engine_load_all; mret (LoadedNodes states)
  end.

(** The arguments are made of machine integers. *)
Definition op_fit (op : Op) : Prop :=
  match op with
  | OpCreateNode n _ => u64 n
  | OpSaveTerm n t => u64 n ∧ u64 t
  | OpSaveVote n v => u64 n ∧ option_u64 v
  | OpAppend n a => u64 n ∧ record_fit (RecordAppend a) ∧ record_u64 (RecordAppend a)
  | OpSnapshot n c =>
      u64 n ∧ record_fit (RecordSnapshotCheckpoint c) ∧ record_u64 (RecordSnapshotCheckpoint c)
  | _ => True
  end.

(** The registry and the records say of each node what the store says. *)
Definition node_matches (reg : NodeRegistry) (nlog : list (RecordPosition * NodeRecord)) (n : N)
  (x : option NodeSpec) : Prop :=
  match x with
  | None => node_status reg n = Unknown
  | Some (Live md st) => node_status reg n = Active md ∧ replayed (node_view n nlog) = st
  | Some Reserved => node_status reg n = Removed
  end.

(** The engine implements the store [σ]. *)
Definition refines (s : EngineState) (σ : Store) : Prop :=
  ∃ nlog, engine_ok s nlog ∧ ∀ n, node_matches (engine_registry (es_engine s)) nlog n (σ !! n).

(** The ID of the active segment, which an operation advances by at most one. *)
Definition active_id (s : EngineState) : N := segment_id (active_segment (engine_writer (es_engine s))).

(** ** Lemmas *)

Lemma replayed_snoc rs r :
  replayed (if is_checkpoint r then [r] else rs ++ [r]) = spec_apply r (replayed rs).
Proof.
  assert (Hone : ∀ s, match apply_records [r] s with (Ok _, s) => Ok s | (Err e, _) => Err e end =
                 match apply_record_to_state r s with (Ok _, s) => Ok s | (Err e, _) => Err e end).
  { intros s. cbn [apply_records]. unfold mbind, M_bind, mret, M_ret.
    by destruct (apply_record_to_state r s) as [[[]|] ?]. }
  unfold replayed. destruct (is_checkpoint r) eqn:Er.
  - destruct r; try done. rewrite Hone. cbn [apply_record_to_state spec_apply].
    unfold mbind, M_bind, lift_result, modify. by destruct (checkpoint_into_state _).
  - rewrite apply_records_app. unfold mbind, M_bind.
    destruct (apply_records rs node_state_default) as [[[]|e] s]; [rewrite Hone|]; by destruct r.
Qed.

Lemma storable_dec n r :
  u64 n → record_fit r → record_u64 r →
  storable n r ∨ ¬ record_encodable n r ∧
                 ∃ e, encode_record_frame n r = Err e ∧ error_kind e = InvalidInput.
Proof.
  intros Hn Hf Hu. pose proof (encode_record_frame_spec n r) as Hs.
  destruct (encode_record_frame n r) as [frame|e].
  - left. by destruct Hs as [He _].
  - right. destruct Hs as [He Hk]. eauto.
Qed.

(** A record that does not encode is not written. *)
Lemma append_unencodable n r e w en :
  encode_record_frame n r = Err e →
  es_on_writer (writer_append n r) (mkEngineState w en) = (Err e, mkEngineState w en).
Proof.
  intros He. unfold es_on_writer, zoom, writer_append, mbind, M_bind, lift_result.
  cbn [es_world es_engine]. rewrite He. by destruct en.
Qed.

Section refinement.
Context (s : EngineState) (σ : Store) (Hr : refines s σ).

Lemma refines_live n md st : σ !! n = Some (Live md st) → is_active (engine_registry (es_engine s)) n = true.
Proof using Hr.
  destruct Hr as (nlog & _ & Hs). intros Hn. specialize (Hs n). rewrite Hn in Hs. unfold node_matches in Hs.
  by rewrite is_active_status, (proj1 Hs).
Qed.

Lemma refines_missing n :
  (∀ md st, σ !! n ≠ Some (Live md st)) →
  is_active (engine_registry (es_engine s)) n = false ∧
  access_error (engine_registry (es_engine s)) n = missing_error (σ !! n).
Proof using Hr.
  destruct Hr as (nlog & _ & Hs). intros Hn. specialize (Hs n). unfold node_matches in Hs.
  unfold access_error. rewrite is_active_status, is_removed_status.
  destruct (σ !! n) as [[md st|]|]; [by destruct (Hn md st)|by rewrite Hs..].
Qed.

Lemma refines_active n : is_active (engine_registry (es_engine s)) n = true → ∃ md st, σ !! n = Some (Live md st).
Proof using Hr.
  destruct Hr as (nlog & _ & Hs). specialize (Hs n). unfold node_matches in Hs. rewrite is_active_status.
  destruct (σ !! n) as [[md st|]|]; [eauto|by rewrite Hs..].
Qed.

Lemma live_or_missing n : (∃ md st, σ !! n = Some (Live md st)) ∨ ∀ md st, σ !! n ≠ Some (Live md st).
Proof. destruct (σ !! n) as [[md st|]|]; [left; eauto|by right..]. Qed.

(** An operation on a node that is not live. *)
Lemma ensure_missing n op :
  (∀ md st, σ !! n ≠ Some (Live md st)) →
  ∃ s', engine_ensure_node_exists n op s = (Err (missing_error (σ !! n)), s') ∧
        refines s' σ ∧ active_id s' = active_id s.
Proof using Hr.
  intros Hn. destruct (refines_missing n Hn) as [Ha He].
  destruct Hr as (nlog & Hok & Hs). destruct s as [[fs m] e]. cbn [es_engine] in *.
  rewrite engine_ensure_inactive, He by done. eexists. split; [reflexivity|]. split; [|done].
  exists nlog. split; [by eapply engine_ok_metrics|done].
Qed.
End refinement.

(** The store after a step on one node. *)
Lemma refines_update reg nlog (σ : Store) n x s' nlog' :
  (∀ n', node_matches reg nlog n' (σ !! n')) → engine_ok s' nlog' →
  (∀ n', n' ≠ n → node_status (engine_registry (es_engine s')) n' = node_status reg n') →
  (∀ n', n' ≠ n → is_active reg n' = true → node_view n' nlog' = node_view n' nlog) →
  node_matches (engine_registry (es_engine s')) nlog' n (Some x) →
  refines s' (<[n := x]> σ).
Proof.
  intros Hs Hok Hst Hview Hx. exists nlog'. split; [done|]. intros n'. rewrite lookup_insert.
  case_decide as E; [by subst|]. specialize (Hs n'). unfold node_matches in *.
  rewrite Hst by done. destruct (σ !! n') as [[md st|]|]; [|done|done].
  destruct Hs as [Ha Hv]. split; [done|]. rewrite Hview; [done|done|]. by rewrite is_active_status, Ha.
Qed.

(** ** The simulation, operation by operation *)

(** What a step from [s] with [σ] must give. *)
Definition simulates (op : Op) (s : EngineState) (σ : Store) : Prop :=
  let '(r, s') := exec op s in
  ∃ σ', spec_step σ op r σ' ∧ refines s' σ' ∧ active_id s' ≤ active_id s + 1.

Lemma simulates_intro op s σ r s' σ' :
  exec op s = (r, s') → spec_step σ op r σ' → refines s' σ' → active_id s' ≤ active_id s + 1 →
  simulates op s σ.
Proof. intros Hrun Hstep Hr Hid. unfold simulates. rewrite Hrun. eauto. Qed.

(** A program that first checks that the node exists. *)
Lemma exec_missing {A} n op (f : M EngineState A) (k : A → M EngineState Reply) s e s' :
  engine_ensure_node_exists n op s = (Err e, s') →
  (r ← (engine_ensure_node_exists n op ;; f); k r) s = (Err e, s').
Proof.
  intros H. apply bind_err. by apply bind_err.
Qed.

Section steps.
Context (s : EngineState) (σ : Store) (Hr : refines s σ) (Hid : active_id s + 1 < U64_LIMIT).

(** The four save operations. *)
Lemma save_record_simulates n r op sop :
  exec op = (save_record n r sop ;; mret Done) →
  (∀ r' σ', spec_save n r σ r' σ' → spec_step σ op r' σ') →
  u64 n → record_fit r → record_u64 r → simulates op s σ.
Proof using NL Hr Hid.
  intros Hexec Hspec Hn Hf Hu. destruct (live_or_missing σ n) as [(md & st & Hl)|Hm].
  - pose proof (refines_live s σ Hr n md st Hl) as Ha. pose proof Hr as (nlog & Hok & Hs).
    destruct s as [[fs m] e]. cbn [es_engine] in *.
    destruct (storable_dec n r Hn Hf Hu) as [Hst|(Hne & err & Herr & Hk)].
    + destruct (save_record_run fs m e nlog n r sop Hok Ha Hst (engine_can_rotate _ _ _ _ n r Hok Hid))
        as (fs' & m' & w' & Hrun & Hok' & _ & Hact & _).
      eapply simulates_intro; [rewrite Hexec; exact (bind_ok _ _ _ _ _ Hrun)| | |exact Hact].
      * apply Hspec. eapply spec_saved; [done|apply Hst].
      * eapply (refines_update _ _ _ _ _ _ _ Hs Hok'); [done| |].
        -- intros n' Hn' _. rewrite node_view_snoc. by rewrite decide_False by done.
        -- specialize (Hs n). rewrite Hl in Hs. destruct Hs as [Hst' Hv]. split; [exact Hst'|].
           rewrite node_view_snoc, decide_True by done. by rewrite replayed_snoc, Hv.
    + eapply (simulates_intro _ _ _ (Err err)); [| | |].
      * rewrite Hexec. apply bind_err. unfold save_record.
        rewrite (bind_ok _ _ _ _ _ (engine_ensure_active n sop (mkEngineState (mkWorld fs m) e) Ha)).
        apply bind_err. by apply append_unencodable.
      * apply Hspec. by eapply spec_unsaved.
      * exact Hr.
      * lia.
  - destruct (ensure_missing s σ Hr n sop Hm) as (s' & Hrun & Hr' & Hid').
    eapply simulates_intro; [rewrite Hexec; apply exec_missing; exact Hrun| |exact Hr'|lia].
    by apply Hspec, spec_save_missing.
Qed.

Lemma create_simulates n md : u64 n → simulates (OpCreateNode n md) s σ.
Proof using NL Hr Hid.
  intros Hn. pose proof Hr as (nlog & Hok & Hs). pose proof (Hs n) as Hsn. destruct s as [[fs m] e].
  cbn [es_engine] in *. destruct (σ !! n) as [x|] eqn:E.
  - eapply (simulates_intro _ _ _ (Err node_already_exists_error)); [| |exact Hr|lia].
    + cbn [exec]. apply bind_err. unfold create_node.
      rewrite (bind_ok _ _ _ _ _ (get_engine_run _ _)), registry_create_node_run. cbv beta iota zeta.
      destruct x as [md' st|]; [destruct Hsn as [-> _]|unfold node_matches in Hsn; rewrite Hsn]; done.
    + apply step_create_exists. by rewrite E.
  - destruct (create_node_run fs m e nlog n md Hok Hsn Hn (engine_can_rotate _ _ _ _ n _ Hok Hid))
      as (fs' & m' & e' & p & Hrun & Hok' & Hreg & Hact).
    eapply simulates_intro; [exact (bind_ok _ _ _ _ _ Hrun)|by apply step_create| |exact Hact].
    eapply (refines_update _ _ _ _ _ _ _ Hs Hok').
    + intros n' Hn'. cbn [es_engine]. rewrite Hreg, node_status_with. by rewrite decide_False.
    + intros n' Hn' _. rewrite node_view_snoc. by rewrite decide_False by done.
    + cbn [es_engine]. split; [rewrite Hreg, node_status_with; by rewrite decide_True|].
      rewrite node_view_snoc, decide_True by done. exact (replayed_snoc [] (RecordSnapshotCheckpoint _)).
Qed.

Lemma snapshot_simulates n c :
  u64 n → record_fit (RecordSnapshotCheckpoint c) → record_u64 (RecordSnapshotCheckpoint c) →
  simulates (OpSnapshot n c) s σ.
Proof using NL Hr Hid.
  intros Hn Hf Hu. destruct (live_or_missing σ n) as [(md & st & Hl)|Hm].
  2:{ destruct (ensure_missing s σ Hr n OpSaveSnapshot Hm) as (s' & Hrun & Hr' & Hid').
      eapply simulates_intro; [apply exec_missing; exact Hrun| |exact Hr'|lia].
      by apply step_snapshot, spec_save_missing. }
  pose proof (refines_live s σ Hr n md st Hl) as Ha. pose proof Hr as (nlog & Hok & Hs).
  destruct s as [[fs m] e]. cbn [es_engine] in *.
  destruct (storable_dec n (RecordSnapshotCheckpoint c) Hn Hf Hu) as [Hst|(Hne & err & Herr & Hk)].
  - destruct (save_snapshot_run fs m e nlog n c Hok Ha Hst (engine_can_rotate _ _ _ _ n _ Hok Hid))
      as (fs' & m' & e' & nlog' & Hrun & Hok' & Hreg & Hact & Hview).
    eapply simulates_intro; [exact (bind_ok _ _ _ _ _ Hrun)| | |exact Hact].
    + eapply step_snapshot, spec_saved; [done|apply Hst].
    + eapply (refines_update _ _ _ _ _ _ _ Hs Hok').
      * intros n' Hn'. cbn [es_engine]. by rewrite Hreg.
      * intros n' Hn' Ha'. rewrite Hview by done. by rewrite decide_False by done.
      * cbn [es_engine]. rewrite Hreg. specialize (Hs n). rewrite Hl in Hs. split; [apply Hs|].
        rewrite Hview by done. rewrite decide_True by done.
        exact (replayed_snoc [] (RecordSnapshotCheckpoint _)).
  - destruct (checkpoint_validate c) as [[]|verr] eqn:Ev;
      [eapply (simulates_intro _ _ _ (Err err))|eapply (simulates_intro _ _ _ (Err verr))];
      try (exact Hr || lia).
    all: try (eapply step_snapshot, spec_unsaved; [exact Hl|done|]; done || by eapply checkpoint_validate_error).
    all: cbn [exec]; apply bind_err; unfold save_snapshot;
      rewrite (bind_ok _ _ _ _ _ (engine_ensure_active n _ (mkEngineState (mkWorld fs m) e) Ha)).
    + rewrite (bind_ok (lift_result _) _ _ () (mkEngineState (mkWorld fs m) e)) by (unfold lift_result; by rewrite Ev).
      apply bind_err. by apply append_unencodable.
    + apply bind_err. unfold lift_result. by rewrite Ev.
Qed.

Lemma remove_simulates n : simulates (OpRemove n) s σ.
Proof using NL Hr Hid.
  destruct (live_or_missing σ n) as [(md & st & Hl)|Hm].
  2:{ destruct (ensure_missing s σ Hr n OpRemoveNode Hm) as (s' & Hrun & Hr' & Hid').
      eapply simulates_intro; [apply exec_missing; exact Hrun| |exact Hr'|lia].
      by apply step_remove_missing. }
  pose proof Hr as (nlog & Hok & Hs). pose proof (Hs n) as Hsn. rewrite Hl in Hsn. destruct Hsn as [Hact _].
  destruct s as [[fs m] e]. cbn [es_engine] in *.
  destruct (remove_node_run fs m e nlog n md Hok Hact)
    as (fs' & m' & e' & nlog' & Hrun & Hok' & Hreg & Hseg & Hview).
  eapply simulates_intro; [exact (bind_ok _ _ _ _ _ Hrun)|by eapply step_remove| |].
  - eapply (refines_update _ _ _ _ _ _ _ Hs Hok').
    + intros n' Hn'. cbn [es_engine]. rewrite Hreg, node_status_without. by rewrite decide_False.
    + exact Hview.
    + unfold node_matches. cbn [es_engine]. rewrite Hreg, node_status_without. by rewrite decide_True.
  - unfold active_id. cbn [es_engine]. rewrite Hseg. lia.
Qed.

Lemma sync_simulates : simulates OpSync s σ.
Proof using NL Hr Hid.
  pose proof Hr as (nlog & Hok & Hs). destruct s as [[fs m] e].
  destruct (engine_sync_run fs (sync_requested m) e nlog (engine_ok_metrics _ _ _ _ _ Hok))
    as (fs' & m' & Hrun & Hok' & _).
  eapply simulates_intro; [|apply step_sync|exists nlog; split; [exact Hok'|exact Hs]|unfold active_id; cbn; lia].
  assert (Hsync : engine_sync (mkEngineState (mkWorld fs m) e) = (Ok (), mkEngineState (mkWorld fs' m') e))
    by (unfold engine_sync; by rewrite (bind_ok _ _ _ _ _ (count_run _ _ _ _))).
  exact (bind_ok _ _ _ _ _ Hsync).
Qed.

Lemma load_simulates n : simulates (OpLoadNode n) s σ.
Proof using NL Hr Hid.
  destruct (live_or_missing σ n) as [(md & st & Hl)|Hm].
  - pose proof (refines_live s σ Hr n md st Hl) as Ha. pose proof Hr as (nlog & Hok & Hs).
    destruct s as [[fs m] e]. cbn [es_engine] in *.
    destruct (engine_load_run fs m e nlog n Hok Ha) as [m' Hrun].
    pose proof (Hs n) as Hsn. rewrite Hl in Hsn. destruct Hsn as [_ Hv]. rewrite Hv in Hrun.
    eapply (simulates_intro _ _ _ (match st with Ok s => Ok (LoadedNode s) | Err e => Err e end));
      [|by eapply step_load| |].
    + cbn [exec]. destruct st; [exact (bind_ok _ _ _ _ _ Hrun)|exact (bind_err _ _ _ _ _ Hrun)].
    + exists nlog. split; [by eapply engine_ok_metrics|exact Hs].
    + unfold active_id. cbn. lia.
  - destruct (ensure_missing s σ Hr n OpLoad Hm) as (s' & Hrun & Hr' & Hid').
    eapply simulates_intro; [apply exec_missing; exact Hrun|by apply step_load_missing|exact Hr'|lia].
Qed.

Lemma load_all_simulates : simulates OpLoadNodes s σ.
Proof using NL Hr Hid.
  pose proof Hr as (nlog & Hok & Hs). pose proof (refines_active s σ Hr) as Hact.
  destruct s as [[fs m] e]. cbn [es_engine] in *.
  destruct (engine_load_all_run fs m e nlog Hok) as (r & m' & Hrun & Hspec).
  assert (Hr' : refines (mkEngineState (mkWorld fs m') e) σ)
    by (exists nlog; split; [by eapply engine_ok_metrics|exact Hs]).
  destruct r as [states|err].
  - eapply simulates_intro; [exact (bind_ok _ _ _ _ _ Hrun)|apply step_load_all|exact Hr'|unfold active_id; cbn; lia].
    intros n. specialize (Hspec n). specialize (Hs n).
    destruct (states !! n) as [st|].
    + destruct Hspec as [Ha Hv]. destruct (Hact n Ha) as (md & st' & E). rewrite E in Hs.
      exists md. rewrite E. destruct Hs as [_ Hv']. congruence.
    + intros md st E. rewrite E in Hs. destruct Hs as [Hs _]. rewrite is_active_status, Hs in Hspec. done.
  - destruct Hspec as (n & Ha & Hv). destruct (Hact n Ha) as (md & st' & E).
    specialize (Hs n). rewrite E in Hs. destruct Hs as [_ Hv'].
    eapply simulates_intro; [exact (bind_err _ _ _ _ _ Hrun)| |exact Hr'|unfold active_id; cbn; lia].
    eapply (step_load_all_error _ n md). rewrite E. congruence.
Qed.
End steps.
End spec.
