(* ===== verification/Surface.v ===== *)
(** * Failures are not hidden

    Each operation of the engine either reports the error of a call that
    failed, or behaves as if all its calls had proceeded: no failure is dropped
    on the way.  ([exists] is the only call whose errors count as an answer;
    it is used when a directory is opened.) *)
From Stdlib Require Import Strings.Byte Strings.String.
From S2P Require Import Prelude Metrics Fs Text Json Noraft State Crc32c Codec Format Frame.
From S2P Require Import Segment Replay Registry Checkpoint Engine Recovery ReplayCorrect.
From S2P Require Import WriterCorrect MetadataCorrect EngineCorrect NodeCorrect EngineSpec.


(** ** States without failures *)

(** The same state, when the calls to come all proceed. *)
Class Faulty (S : Type) := { clear : S → S }.

#[global] Arguments clear {S _} s : simpl never.

#[global] Instance Fs_faulty : Faulty Fs := {| clear := set_faults [] |}.
#[global] Instance World_faulty : Faulty World := {| clear w := mkWorld (clear (w_fs w)) (w_metrics w) |}.
#[global] Instance Io_faulty : Faulty Io := {| clear io := mkIo (clear (io_fs io)) (io_metrics io) (io_file io) |}.
#[global] Instance WriterState_faulty : Faulty WriterState :=
  {| clear ws := mkWriterState (clear (ws_world ws)) (ws_writer ws) |}.
#[global] Instance EngineState_faulty `{Nojson} : Faulty EngineState :=
  {| clear s := mkEngineState (clear (es_world s)) (es_engine s) |}.
#[global] Instance prod_faulty {S A} `{Faulty S} : Faulty (S * A) := {| clear s := (clear s.1, s.2) |}.

Definition fault_error : io_error := os_error OtherError.

(** The error of a failed call, or what happens without failures. *)
Definition surfaces {S A} `{Faulty S} (m : M S A) : Prop := ∀ s,
  let '(r, s') := m s in r = Err fault_error ∨ m (clear s) = (r, clear s').

(** ** Rules *)

Section rules.
Context {S : Type} `{Faulty S}.

Lemma surfaces_ret {A} (a : A) : surfaces (S:=S) (mret a).
Proof. by right. Qed.

Lemma surfaces_throw {A} e : surfaces (S:=S) (throw e : M S A).
Proof. by right. Qed.

Lemma surfaces_lift {A} (r : result A) : surfaces (S:=S) (lift_result r).
Proof. by right. Qed.

Lemma surfaces_modify (f : S → S) : (∀ s, f (clear s) = clear (f s)) → surfaces (modify f).
Proof. intros Hf s. right. unfold modify. by rewrite Hf. Qed.

(** What is read of the state is not the list of outcomes. *)
Lemma surfaces_get {A} (f : S → M S A) :
  (∀ s, f (clear s) = f s) → (∀ s, surfaces (f s)) → surfaces (get_state ≫= f).
Proof.
  intros Hc Hf s. specialize (Hf s s). unfold mbind, M_bind, get_state. by rewrite Hc.
Qed.

Lemma surfaces_bind {A B} (m : M S A) (f : A → M S B) :
  surfaces m → (∀ a, surfaces (f a)) → surfaces (m ≫= f).
Proof.
  intros Hm Hf s. specialize (Hm s). unfold mbind, M_bind.
  destruct (m s) as [[a|e] s'].
  - destruct Hm as [|Hm]; [done|]. rewrite Hm. apply Hf.
  - destruct Hm as [[= ->]|Hm]; [by left|]. right. by rewrite Hm.
Qed.

(** The handler of an error passes the error of a failed call on. *)
Lemma surfaces_try {A B} (m : M S A) (f : result A → M S B) :
  surfaces m → (∀ r, surfaces (f r)) → (∀ s, (f (Err fault_error) s).1 = Err fault_error) →
  surfaces (try_catch m ≫= f).
Proof.
  intros Hm Hf Hp s. specialize (Hm s). unfold try_catch, mbind, M_bind.
  destruct (m s) as [r s'] eqn:E. destruct Hm as [->|Hm].
  - specialize (Hp s'). destruct (f _ s') as [r' s'']. left. exact Hp.
  - rewrite Hm. apply Hf.
Qed.

Lemma surfaces_for_each {A} (xs : list A) (f : A → M S ()) :
  (∀ x, surfaces (f x)) → surfaces (for_each xs f).
Proof.
  intros Hf. induction xs as [|x xs IH]; [apply surfaces_ret|]. cbn [for_each]. by apply surfaces_bind.
Qed.

Lemma surfaces_loop {A} fuel (body : M S (option A)) : surfaces body → surfaces (loop_fuel fuel body).
Proof.
  intros Hb. induction fuel as [|fuel IH]; [apply surfaces_throw|]. cbn [loop_fuel].
  apply surfaces_bind; [done|]. intros [a|]; [apply surfaces_ret|done].
Qed.

Lemma surfaces_zoom {T A} `{Faulty T} (get : S → T) set (m : M T A) :
  (∀ s, get (clear s) = clear (get s)) → (∀ t s, set (clear t) (clear s) = clear (set t s)) →
  surfaces m → surfaces (zoom get set m).
Proof.
  intros Hg Hs Hm s. specialize (Hm (get s)). unfold zoom. rewrite Hg.
  destruct (m (get s)) as [r t]. destruct Hm as [Hm|Hm]; [by left|]. right. by rewrite Hm, Hs.
Qed.
End rules.

Lemma surfaces_call {A} (op : M Fs A) : surfaces op → surfaces (call op).
Proof.
  intros Hop fs. unfold call, mbind, M_bind, take_fault.
  destruct (fs_faults fs) as [|[k|] f] eqn:E; [|by left|].
  - specialize (Hop fs). destruct (op fs) as [r fs']. destruct Hop as [?|Hop]; [by left|right].
    exact Hop.
  - specialize (Hop (set_faults f fs)). destruct (op _) as [r fs']. destruct Hop as [?|Hop]; [by left|right].
    exact Hop.
Qed.

Lemma surfaces_with_file {A} f (m : M Io A) : surfaces m → surfaces (with_file f m).
Proof.
  intros Hm w. specialize (Hm (mkIo (w_fs w) (w_metrics w) f)). unfold with_file.
  destruct (m _) as [r io]. destruct Hm as [?|Hm]; [by left|]. right.
  change (mkIo (w_fs (clear w)) (w_metrics (clear w)) f) with (clear (mkIo (w_fs w) (w_metrics w) f)). by rewrite Hm.
Qed.

Lemma surfaces_with_file_acc {A B} f (m : M (Io * A) B) : surfaces m → surfaces (with_file_acc f m).
Proof.
  intros Hm s. specialize (Hm (mkIo (w_fs s.1) (w_metrics s.1) f, s.2)). unfold with_file_acc.
  destruct (m _) as [r [io a]]. destruct Hm as [?|Hm]; [by left|]. right.
  change (mkIo (w_fs (clear s).1) (w_metrics (clear s).1) f, (clear s).2) with (clear (mkIo (w_fs s.1) (w_metrics s.1) f, s.2)).
  by rewrite Hm.
Qed.

Lemma surfaces_with_local {A} (a : A) (m : M (World * A) ()) : surfaces m → surfaces (with_local a m).
Proof.
  intros Hm w. specialize (Hm (w, a)). unfold with_local.
  change (clear w, a) with (clear (w, a)).
  destruct (m (w, a)) as [[[]|e] [w' a']]; (destruct Hm as [Hm|Hm]; [|right; by rewrite Hm]); [done|].
  left. congruence.
Qed.

Lemma surfaces_acc {A B} (m : M A B) : surfaces (S:=Io * A) (on_acc m).
Proof. intros [io a]. unfold on_acc, zoom. change (clear (io, a)).2 with a. cbn. destruct (m a) as [r a']. by right. Qed.

Lemma surfaces_write_all bytes : surfaces (file_write_all bytes).
Proof.
  intros [fs m [i p [] ap]]; unfold file_write_all, mbind, M_bind, io_call, zoom, take_fault; cbn [io_fs io_file];
    destruct (fs_faults fs) as [|[k|] fl] eqn:E; first [by left|by right].
Qed.

Create HintDb surfaces.
#[export] Hint Resolve surfaces_ret surfaces_throw surfaces_lift surfaces_acc surfaces_write_all : surfaces.
#[export] Hint Resolve surfaces_call surfaces_with_file surfaces_with_file_acc surfaces_with_local
  surfaces_loop : surfaces.
#[export] Hint Extern 2 (surfaces (modify _)) => (apply surfaces_modify; reflexivity) : surfaces.
#[export] Hint Extern 2 (surfaces (zoom _ _ _)) => (apply surfaces_zoom; [reflexivity|reflexivity|]) : surfaces.
#[export] Hint Extern 3 (surfaces (get_state ≫= _)) => (apply surfaces_get; [reflexivity|intros ?]) : surfaces.
#[export] Hint Extern 4 (surfaces (try_catch _ ≫= _)) =>
  (apply surfaces_try; [|intros [?|?]|reflexivity]) : surfaces.
#[export] Hint Extern 5 (surfaces (_ ≫= _)) => (apply surfaces_bind; [|intros ?]) : surfaces.
#[export] Hint Extern 5 (surfaces (for_each _ _)) => (apply surfaces_for_each; intros ?) : surfaces.
#[export] Hint Extern 6 (surfaces (if ?b then _ else _)) => destruct b : surfaces.
#[export] Hint Extern 6 (surfaces (match ?x with _ => _ end)) => destruct x : surfaces.
#[export] Hint Extern 7 (surfaces (let _ := _ in _)) => cbv zeta : surfaces.

(** Unfolds a program made of calls. *)
Ltac solve_surfaces := eauto 40 with surfaces.

(** ** Calls on files *)

Lemma surfaces_in_dir {A} (op : M Fs A) : surfaces op → surfaces (in_dir op).
Proof. intros Hop. unfold in_dir. solve_surfaces. Qed.
#[export] Hint Resolve surfaces_in_dir : surfaces.

Lemma surfaces_open name o : surfaces (fs_open name o).
Proof. unfold fs_open. solve_surfaces. Qed.
Lemma surfaces_is_file name : surfaces (fs_is_file name).
Proof. unfold fs_is_file. solve_surfaces. Qed.
Lemma surfaces_remove_file name : surfaces (fs_remove_file name).
Proof. unfold fs_remove_file. solve_surfaces. Qed.
Lemma surfaces_rename from to : surfaces (fs_rename from to).
Proof. unfold fs_rename. solve_surfaces. Qed.
Lemma surfaces_read_dir : surfaces fs_read_dir.
Proof. unfold fs_read_dir. solve_surfaces. Qed.
Lemma surfaces_sync_dir : surfaces fs_sync_dir.
Proof. unfold fs_sync_dir. solve_surfaces. Qed.
#[export] Hint Resolve surfaces_open surfaces_is_file surfaces_remove_file surfaces_rename
  surfaces_read_dir surfaces_sync_dir : surfaces.

Lemma surfaces_io_call {A} (op : M Fs A) : surfaces op → surfaces (io_call op).
Proof. by apply surfaces_zoom. Qed.
Lemma surfaces_io_count f : surfaces (io_count f).
Proof. by apply surfaces_modify. Qed.
Lemma surfaces_w_call {A} (op : M Fs A) : surfaces op → surfaces (w_call op).
Proof. by apply surfaces_zoom. Qed.
Lemma surfaces_w_count f : surfaces (w_count f).
Proof. by apply surfaces_modify. Qed.
#[export] Hint Resolve surfaces_io_call surfaces_io_count surfaces_w_call surfaces_w_count : surfaces.

Lemma surfaces_seek p : surfaces (file_seek p).
Proof. unfold file_seek. solve_surfaces. Qed.
Lemma surfaces_stream_position : surfaces file_stream_position.
Proof. unfold file_stream_position. solve_surfaces. Qed.
Lemma surfaces_len : surfaces file_len.
Proof. unfold file_len. solve_surfaces. Qed.
Lemma surfaces_read_exact n : surfaces (file_read_exact n).
Proof. unfold file_read_exact. solve_surfaces. Qed.
Lemma surfaces_take n : surfaces (file_take_read_to_end n).
Proof. unfold file_take_read_to_end. solve_surfaces. Qed.
Lemma surfaces_set_len n : surfaces (file_set_len n).
Proof. unfold file_set_len. solve_surfaces. Qed.
Lemma surfaces_file_sync : surfaces file_sync.
Proof. unfold file_sync. solve_surfaces. Qed.
#[export] Hint Resolve surfaces_seek surfaces_stream_position surfaces_len surfaces_read_exact
  surfaces_take surfaces_set_len surfaces_file_sync : surfaces.

(** ** Segments *)

Lemma surfaces_header allow recover cnt : surfaces (read_segment_header allow recover cnt).
Proof. unfold read_segment_header. solve_surfaces. Qed.
Lemma surfaces_finish allow recover start len : surfaces (finish_records allow recover start len).
Proof. unfold finish_records. solve_surfaces. Qed.
Lemma surfaces_discover : surfaces discover_segment_paths.
Proof. unfold discover_segment_paths. solve_surfaces. Qed.
#[export] Hint Resolve surfaces_header surfaces_finish surfaces_discover : surfaces.
Lemma surfaces_select : surfaces select_active_append_segment.
Proof. unfold select_active_append_segment. solve_surfaces. Qed.
#[export] Hint Resolve surfaces_select : surfaces.

Lemma surfaces_or_eof n : surfaces (read_exact_or_eof n).
Proof. unfold read_exact_or_eof. solve_surfaces. Qed.
Lemma surfaces_or_none {A} n (rest : list byte → M Io (option A)) :
  (∀ b, surfaces (rest b)) → surfaces (read_exact_or_none n rest).
Proof. intros Hr. unfold read_exact_or_none. pose proof surfaces_or_eof. solve_surfaces. Qed.
#[export] Hint Extern 5 (surfaces (read_exact_or_none _ _)) => (apply surfaces_or_none; intros ?) : surfaces.

Lemma surfaces_read_body cnt : surfaces (read_record_body cnt).
Proof. unfold read_record_body. solve_surfaces. Qed.
#[export] Hint Resolve surfaces_read_body : surfaces.

Section replay.
Context `{Noraft}.

Lemma surfaces_on_io {A B} (m : M Io B) : surfaces m → surfaces (S:=Io * A) (on_io m).
Proof. apply surfaces_zoom; [done|]. by intros t [io a]. Qed.
Lemma surfaces_on_files {A B} (m : M World B) : surfaces m → surfaces (S:=World * A) (on_files m).
Proof. apply surfaces_zoom; [done|]. by intros t [io a]. Qed.
Hint Resolve surfaces_on_io surfaces_on_files : surfaces.

Lemma surfaces_read_records {A} allow recover len (handle : N → list byte → M (Io * A) ()) :
  (∀ off body, surfaces (handle off body)) → surfaces (read_records allow recover len handle).
Proof. intros Hh. unfold read_records, records_turn. solve_surfaces. Qed.

Lemma surfaces_with_segment {A} segment allow recover (m : N → M (Io * A) ()) :
  (∀ len, surfaces (m len)) → surfaces (with_segment segment allow recover m).
Proof. intros Hm. unfold with_segment. solve_surfaces. Qed.

Lemma surfaces_scan_checkpoints segment allow filter start recover :
  surfaces (scan_checkpoint_positions segment allow filter start recover).
Proof.
  apply surfaces_with_segment. intros len. pose proof (surfaces_read_records (A:=gmap N RecordPosition) allow recover len).
  assert (∀ off body, surfaces (handle_checkpoint (path_name segment) filter off body))
    by (intros; unfold handle_checkpoint; solve_surfaces).
  solve_surfaces.
Qed.

Lemma surfaces_replay_segment segment allow filter positions recover :
  surfaces (replay_segment segment allow filter positions recover).
Proof.
  apply surfaces_with_segment. intros len. apply surfaces_read_records. intros off body.
  unfold handle_replay. solve_surfaces.
Qed.

Lemma surfaces_replay_node_segment segment allow n position recover :
  surfaces (replay_node_segment segment allow n position recover).
Proof.
  apply surfaces_with_segment. intros len. apply surfaces_read_records. intros off body.
  unfold handle_node_replay. solve_surfaces.
Qed.
Hint Resolve surfaces_scan_checkpoints surfaces_replay_segment surfaces_replay_node_segment : surfaces.

Lemma surfaces_find_checkpoints active filter start recover :
  surfaces (find_checkpoint_positions_from active filter start recover).
Proof. unfold find_checkpoint_positions_from. solve_surfaces. Qed.
Hint Resolve surfaces_find_checkpoints : surfaces.

Lemma surfaces_replay_node_state active n hint recover : surfaces (replay_node_state active n hint recover).
Proof. unfold replay_node_state. solve_surfaces. Qed.

Lemma surfaces_replay_storage_dir active filter hints recover :
  surfaces (replay_storage_dir active filter hints recover).
Proof. unfold replay_storage_dir, checkpoint_positions_for_replay, find_checkpoint_positions. solve_surfaces. Qed.
End replay.
#[export] Hint Resolve surfaces_replay_node_state surfaces_replay_storage_dir : surfaces.

(** ** The writer and the metadata files *)

Lemma surfaces_with_file_kept {A} f (m : M Io A) : surfaces m → surfaces (with_file_kept f m).
Proof. intros Hm. unfold with_file_kept. solve_surfaces. Qed.
Lemma surfaces_on_world {A} (m : M World A) : surfaces m → surfaces (on_world m).
Proof. by apply surfaces_zoom. Qed.
Lemma surfaces_get_writer {A} (f : SegmentWriter → M WriterState A) :
  (∀ w, surfaces (f w)) → surfaces (get_writer ≫= f).
Proof. intros Hf ws. exact (Hf (ws_writer ws) ws). Qed.
Lemma surfaces_set_writer w : surfaces (set_writer w).
Proof. by apply surfaces_modify. Qed.
#[export] Hint Resolve surfaces_with_file_kept surfaces_on_world surfaces_set_writer : surfaces.
#[export] Hint Extern 4 (surfaces (get_writer ≫= _)) => (apply surfaces_get_writer; intros ?) : surfaces.

Lemma surfaces_on_writer_file {A} (m : M Io A) : surfaces m → surfaces (on_writer_file m).
Proof. intros Hm. unfold on_writer_file. solve_surfaces. Qed.
#[export] Hint Resolve surfaces_on_writer_file : surfaces.

Lemma surfaces_create_active name : surfaces (create_active_segment_file name).
Proof. unfold create_active_segment_file. solve_surfaces. Qed.
Lemma surfaces_sync_current : surfaces sync_current_segment.
Proof. unfold sync_current_segment. solve_surfaces. Qed.
#[export] Hint Resolve surfaces_create_active surfaces_sync_current : surfaces.
Lemma surfaces_writer_sync : surfaces writer_sync.
Proof. unfold writer_sync. solve_surfaces. Qed.
Lemma surfaces_rotate : surfaces writer_rotate.
Proof. unfold writer_rotate, sync_parent_dir. solve_surfaces. Qed.
#[export] Hint Resolve surfaces_writer_sync surfaces_rotate : surfaces.

Lemma surfaces_writer_append `{Noraft} n r : surfaces (writer_append n r).
Proof. unfold writer_append. solve_surfaces. Qed.
Lemma surfaces_save_text tmp path text : surfaces (save_text tmp path text).
Proof. unfold save_text. solve_surfaces. Qed.
#[export] Hint Resolve surfaces_writer_append surfaces_save_text : surfaces.

(** ** The engine *)

Section engine.
Context `{NJ : Nojson} `{NR : Noraft}.

Lemma surfaces_es_world {A} (m : M World A) : surfaces m → surfaces (es_on_world m).
Proof. by apply surfaces_zoom. Qed.
Lemma surfaces_es_writer {A} (m : M WriterState A) : surfaces m → surfaces (es_on_writer m).
Proof. by apply surfaces_zoom. Qed.
Lemma surfaces_get_engine {A} (f : StorageEngine → M EngineState A) :
  (∀ e, surfaces (f e)) → surfaces (get_engine ≫= f).
Proof. intros Hf s. exact (Hf (es_engine s) s). Qed.
Lemma surfaces_count f : surfaces (count f).
Proof. apply surfaces_es_world, surfaces_w_count. Qed.
Lemma surfaces_set_registry r : surfaces (set_registry r).
Proof. by apply surfaces_modify. Qed.
Lemma surfaces_set_index x : surfaces (set_index x).
Proof. by apply surfaces_modify. Qed.
Hint Resolve surfaces_es_world surfaces_es_writer surfaces_count surfaces_set_registry surfaces_set_index : surfaces.
Hint Extern 4 (surfaces (get_engine ≫= _)) => (apply surfaces_get_engine; intros ?) : surfaces.

Lemma surfaces_ensure n op : surfaces (engine_ensure_node_exists n op).
Proof. unfold engine_ensure_node_exists. solve_surfaces. Qed.
Lemma surfaces_refresh_registry : surfaces refresh_registry_metrics.
Proof. unfold refresh_registry_metrics. solve_surfaces. Qed.
Lemma surfaces_refresh_index : surfaces refresh_checkpoint_index_metrics.
Proof. unfold refresh_checkpoint_index_metrics. solve_surfaces. Qed.
Hint Resolve surfaces_ensure surfaces_refresh_registry surfaces_refresh_index : surfaces.

Lemma surfaces_delete_segments b active paths k : surfaces (delete_segments b active paths k).
Proof.
  revert k. induction paths as [|p paths IH]; intros k; [apply surfaces_ret|].
  rewrite delete_segments_cons. solve_surfaces.
Qed.
Hint Resolve surfaces_delete_segments : surfaces.

Lemma surfaces_collect_garbage : surfaces collect_garbage.
Proof. unfold collect_garbage. solve_surfaces. Qed.
Hint Resolve surfaces_collect_garbage : surfaces.

Lemma surfaces_save_record n r op : surfaces (save_record n r op).
Proof. unfold save_record. solve_surfaces. Qed.
Hint Resolve surfaces_save_record : surfaces.

Lemma surfaces_exec op : surfaces (exec op).
Proof.
  destruct op; cbn [exec]; (apply surfaces_bind; [|intros ?; apply surfaces_ret]);
    unfold create_node, save_current_term, save_voted_for, append_entries, save_snapshot, remove_node,
      engine_sync, engine_load, engine_load_all, index_save, registry_save; solve_surfaces.
Qed.

(** [C38] No failure is hidden.  However the calls of an operation turn out, and
    whatever the directory holds, the operation reports the error of the
    operating system, or it does and returns exactly what it would if all its
    calls proceeded. *)
Theorem failures_are_reported (op : Op) (s : EngineState) :
  let '(r, s') := exec op s in
  r = Err (os_error OtherError) ∨ exec op (clear s) = (r, clear s').
Proof. apply surfaces_exec. Qed.
End engine.
