(* ===== verification/AsyncStore.v ===== *)
(** * The abstract store with durability

    [AsyncStore] splits the abstract store of [EngineSpec] into what a crash
    cannot take away and the records that are still pending.  [async_apply]
    says what an operation that returns success does to it, [crash_outcome]
    what a crash may leave: the durable store with some of the pending records,
    in order. *)
From Stdlib Require Import Strings.Byte Strings.String.
From S2P Require Import Prelude Metrics Fs Text Json Noraft State Crc32c Codec Format Frame.
From S2P Require Import Segment Replay Registry Checkpoint Engine Recovery ReplayCorrect.
From S2P Require Import WriterCorrect MetadataCorrect EngineCorrect NodeCorrect EngineSpec.

Section async.
Context `{NJ : Nojson} `{NL : NoraftLaws}.

(** A record updates the state of its node if it is live. *)
Definition apply_pending_one (σ : gmap N NodeSpec) (nr : NodeRecord) : gmap N NodeSpec :=
  match σ !! record_node_id nr with
  | Some (Live md st) => <[record_node_id nr := Live md (spec_apply (node_record nr) st)]> σ
  | _ => σ
  end.
Definition apply_pending (rs : list NodeRecord) (σ : gmap N NodeSpec) : gmap N NodeSpec :=
  foldl apply_pending_one σ rs.

Record AsyncStore := mkAsyncStore {
  durable_store : gmap N NodeSpec;
  pending_records : list NodeRecord;
}.

(** The store that operations see. *)
Definition async_view (A : AsyncStore) : gmap N NodeSpec :=
  apply_pending (pending_records A) (durable_store A).

(** What may be found after a crash. *)
Definition crash_outcome (A : AsyncStore) (σ : gmap N NodeSpec) : Prop :=
  ∃ rs, rs `prefix_of` pending_records A ∧ σ = apply_pending rs (durable_store A).

(** Pending records may become durable on their own, in order. *)
Definition flushed (A A' : AsyncStore) : Prop :=
  ∃ rs, pending_records A = rs ++ pending_records A' ∧
        durable_store A' = apply_pending rs (durable_store A).

Definition async_save (n : N) (r : SegmentRecord) (A : AsyncStore) : AsyncStore :=
  mkAsyncStore (durable_store A) (pending_records A ++ [mkNodeRecord n r]).
Definition async_flush (A : AsyncStore) : AsyncStore := mkAsyncStore (async_view A) [].

(** What an operation that returns success does. *)
Definition async_apply (op : Op) (A : AsyncStore) : AsyncStore :=
  match op with
  | OpCreateNode n md =>
      mkAsyncStore (<[n := Live md (checkpoint_into_state initial_checkpoint)]> (async_view A)) []
  | OpSaveTerm n t => async_save n (RecordCurrentTerm t) A
  | OpSaveVote n v => async_save n (RecordVotedFor v) A
  | OpAppend n a => async_save n (RecordAppend a) A
  | OpSnapshot n c => async_flush (async_save n (RecordSnapshotCheckpoint c) A)
  | OpRemove n => mkAsyncStore (<[n := Reserved]> (durable_store A)) (pending_records A)
  | OpSync => async_flush A
  | OpLoadNode _ | OpLoadNodes => A
  end.

(** ** Lemmas *)

Lemma apply_pending_app rs rs' σ : apply_pending (rs ++ rs') σ = apply_pending rs' (apply_pending rs σ).
Proof. apply foldl_app. Qed.

Lemma apply_pending_snoc rs r σ : apply_pending (rs ++ [r]) σ = apply_pending_one (apply_pending rs σ) r.
Proof. apply apply_pending_app. Qed.

Lemma apply_pending_one_live n r σ md st :
  σ !! n = Some (Live md st) →
  apply_pending_one σ (mkNodeRecord n r) = <[n := Live md (spec_apply r st)]> σ.
Proof. intros H. unfold apply_pending_one. cbn. by rewrite H. Qed.

Lemma apply_pending_one_lookup σ nr n :
  apply_pending_one σ nr !! n =
  if decide (record_node_id nr = n) then
    match σ !! n with Some (Live md st) => Some (Live md (spec_apply (node_record nr) st)) | x => x end
  else σ !! n.
Proof.
  unfold apply_pending_one. case_decide as E.
  - subst n. destruct (σ !! record_node_id nr) as [[md st|]|] eqn:H; [by rewrite lookup_insert_eq|done|done].
  - destruct (σ !! record_node_id nr) as [[md st|]|]; [by rewrite lookup_insert_ne|done|done].
Qed.

(** Records do not revive a removed node. *)
Lemma apply_pending_reserved rs n σ :
  apply_pending rs (<[n := Reserved]> σ) = <[n := Reserved]> (apply_pending rs σ).
Proof.
  revert σ. induction rs as [|r rs IH] using rev_ind; intros σ; [done|].
  rewrite !apply_pending_snoc, IH. apply map_eq. intros n'.
  rewrite apply_pending_one_lookup, !lookup_insert, apply_pending_one_lookup.
  by repeat case_decide.
Qed.

Lemma crash_outcome_view A : crash_outcome A (async_view A).
Proof. by exists (pending_records A). Qed.

Lemma flushed_refl A : flushed A A.
Proof. by exists []. Qed.

Lemma flushed_view A A' : flushed A A' → async_view A' = async_view A.
Proof. intros (rs & Hp & Hd). unfold async_view. by rewrite Hp, apply_pending_app, Hd. Qed.

(** A flush leaves a crash fewer choices. *)
Lemma flushed_outcome A A' σ : flushed A A' → crash_outcome A' σ → crash_outcome A σ.
Proof.
  intros (rs & Hp & Hd) (rs' & Hpre & ->). exists (rs ++ rs'). split.
  - rewrite Hp. by apply prefix_app.
  - by rewrite apply_pending_app, Hd.
Qed.

(** An operation after a flush. *)
Lemma flushed_apply op A A' : flushed A A' → flushed (async_apply op A) (async_apply op A').
Proof.
  intros Hf. pose proof (flushed_view _ _ Hf) as Hv. destruct Hf as (rs & Hp & Hd).
  assert (Hsave : ∀ n r, flushed (async_save n r A) (async_save n r A')).
  { intros n r. exists rs. split; [|exact Hd]. cbn. by rewrite Hp, <-app_assoc. }
  destruct op; cbn [async_apply].
  - exists []. cbn. by rewrite Hv.
  - apply Hsave.
  - apply Hsave.
  - apply Hsave.
  - exists []. split; [done|]. apply (flushed_view _ _ (Hsave n (RecordSnapshotCheckpoint checkpoint))).
  - exists rs. cbn. split; [done|]. by rewrite apply_pending_reserved, Hd.
  - exists []. cbn. by rewrite Hv.
  - by exists rs.
  - by exists rs.
Qed.

(** Without crashes the durable store is the store of [EngineSpec]. *)
Lemma async_apply_view op A r σ' :
  spec_step (async_view A) op (Ok r) σ' → async_view (async_apply op A) = σ'.
Proof.
  assert (Hsave : ∀ n rec rep σ', spec_save n rec (async_view A) (Ok rep) σ' →
            async_view (async_save n rec A) = σ').
  { intros n rec rep σ1 Hs. inversion Hs; subst. unfold async_view, async_save. cbn [durable_store pending_records].
    rewrite apply_pending_snoc. by apply apply_pending_one_live. }
  intros Hs. inversion Hs; subst; cbn [async_apply]; try done; try (by eapply Hsave).
  unfold async_view. cbn [durable_store pending_records]. by rewrite apply_pending_reserved.
Qed.
End async.
