(* ===== verification/JsonExample.v ===== *)
(** * A concrete JSON library

    An instance of [Nojson] that satisfies [NojsonLaws]: documents are printed
    as the digits of a binary code.  It shows that the laws are consistent, and
    the examples run on it. *)
From Stdlib Require Import Strings.Byte Strings.String.
From stdpp Require Import countable strings.
From S2P Require Import Prelude Metrics Fs Text Json.

(** ** A code for documents *)

#[global] Instance JsonKey_eq_dec : EqDecision JsonKey.
Proof. solve_decision. Defined.

#[global] Instance JsonKey_countable : Countable JsonKey.
Proof.
  refine (inj_countable' (λ k, match k with KeyString s => inl s | KeyU64 n => inr n end)
    (λ x, match x with inl s => KeyString s | inr n => KeyU64 n end) _).
  by intros [].
Defined.

#[global] Instance byte_countable : Countable byte.
Proof.
  refine (inj_countable Byte.to_N Byte.of_N _). intros b. apply Byte.of_to_N.
Defined.

Definition leaf : Type := N + bool + string + list byte + JsonKey.

Fixpoint doc_tree (d : JsonDoc) : gen_tree leaf :=
  match d with
  | DocU64 n => GenLeaf (inl (inl (inl (inl n))))
  | DocBool b => GenLeaf (inl (inl (inl (inr b))))
  | DocString s => GenLeaf (inl (inl (inr s)))
  | DocRaw t => GenLeaf (inl (inr t))
  | DocObject ms => GenNode 0 ((λ m, GenNode 1 [GenLeaf (inr m.1); doc_tree m.2]) <$> ms)
  end.

Fixpoint tree_doc (t : gen_tree leaf) : JsonDoc :=
  match t with
  | GenLeaf (inl (inl (inl (inl n)))) => DocU64 n
  | GenLeaf (inl (inl (inl (inr b)))) => DocBool b
  | GenLeaf (inl (inl (inr s))) => DocString s
  | GenLeaf (inl (inr t)) => DocRaw t
  | GenNode 0 ts => DocObject ((λ t, match t with
      | GenNode 1 [GenLeaf (inr k); t] => (k, tree_doc t)
      | _ => (KeyU64 0, DocU64 0)
      end) <$> ts)
  | _ => DocU64 0
  end.

Fixpoint tree_doc_tree (d : JsonDoc) : tree_doc (doc_tree d) = d.
Proof.
  destruct d as [| | | |ms]; [reflexivity..|]. cbn. f_equal. rewrite <-list_fmap_compose.
  induction ms as [|[k d] ms IH]; [reflexivity|]. cbn. f_equal; [|exact IH].
  f_equal. apply tree_doc_tree.
Qed.

#[global] Instance JsonDoc_eq_dec : EqDecision JsonDoc.
Proof. intros d d'. destruct (decide (doc_tree d = doc_tree d')) as [E|E].
  - left. rewrite <-(tree_doc_tree d), E. apply tree_doc_tree.
  - right. congruence.
Defined.

#[global] Instance JsonDoc_countable : Countable JsonDoc.
Proof. refine (inj_countable' doc_tree tree_doc _). exact tree_doc_tree. Defined.

(** ** Its digits as text *)

Fixpoint digits_of (p : positive) : list byte :=
  match p with
  | xH => []
  | xO p => Byte.x30 :: digits_of p
  | xI p => Byte.x31 :: digits_of p
  end.

Fixpoint of_digits (bs : list byte) : option positive :=
  match bs with
  | [] => Some xH
  | Byte.x30 :: bs => xO <$> of_digits bs
  | Byte.x31 :: bs => xI <$> of_digits bs
  | _ => None
  end.

Lemma of_digits_of p : of_digits (digits_of p) = Some p.
Proof. induction p as [p IH|p IH|]; cbn; by rewrite ?IH. Qed.

Lemma digits_utf8 p rest : utf8_valid rest = true → utf8_valid (digits_of p ++ rest) = true.
Proof. intros Hr. induction p as [p IH|p IH|]; [exact IH|exact IH|exact Hr]. Qed.

Definition display_doc (d : JsonDoc) : list byte := digits_of (encode d).
Definition parse_doc (text : list byte) : option JsonDoc := of_digits text ≫= decode.

Lemma parse_display d : parse_doc (display_doc d) = Some d.
Proof. unfold parse_doc, display_doc. rewrite of_digits_of. apply decode_encode. Qed.

(** White space around a document is ignored: the newline at its end. *)
Definition trim_newline (text : list byte) : list byte :=
  match list.last text with
  | Some Byte.x0a => take (length text - 1) text
  | _ => text
  end.

Lemma trim_newline_snoc text : trim_newline (text ++ newline) = text.
Proof.
  unfold trim_newline, newline. rewrite last_snoc. rewrite length_app. cbn [length].
  replace (length text + 1 - 1)%nat with (length text) by lia. by rewrite take_app_length.
Qed.

Lemma trim_newline_digits p : trim_newline (digits_of p) = digits_of p.
Proof.
  assert (Hl : list.last (digits_of p) ≠ Some Byte.x0a).
  { induction p as [p IH|p IH|]; [| |done]; cbn [digits_of]; rewrite last_cons;
      by destruct (list.last (digits_of p)). }
  unfold trim_newline. destruct (list.last (digits_of p)) as [[]|]; done.
Qed.

(** ** The instance *)

Definition find_member (name : string) (ms : list (JsonKey * JsonDoc)) : option JsonDoc :=
  snd <$> head (filter (λ m, key_text m.1 = name) ms).

#[export] Instance example_json : Nojson := {|
  RawJsonOwned := list byte;
  RawJsonValue := JsonDoc;
  json_parse text := if parse_doc (trim_newline text) is Some _ then Some text else None;
  json_value text := default (DocU64 0) (parse_doc (trim_newline text));
  json_text text := text;
  to_member v name := match v with DocObject ms => Some (find_member name ms) | _ => None end;
  to_object v :=
    match v with
    | DocObject ms => Some ((λ m, (DocString (key_text m.1), m.2)) <$> ms)
    | _ => None
    end;
  to_unquoted_string_str v := match v with DocString s => Some s | _ => None end;
  json_to_u64 v := match v with DocU64 n => if n <? U64_LIMIT then Some n else None | _ => None end;
  json_to_bool v := match v with DocBool b => Some b | _ => None end;
  json_to_string v := match v with DocString s => Some s | _ => None end;
  json_to_raw v := match v with DocRaw text => Some text | _ => None end;
  json_display := display_doc;
  json_display_compact := display_doc;
|}.

Lemma find_member_lookup ms i k d :
  ms !! i = Some (k, d) →
  (∀ j k' d', ms !! j = Some (k', d') → key_text k' = key_text k → j = i) →
  find_member (key_text k) ms = Some d.
Proof.
  unfold find_member. revert i. induction ms as [|[k0 d0] ms IH]; intros i Hi Hu; [done|].
  rewrite filter_cons. cbn [fst]. destruct (decide (key_text k0 = key_text k)) as [E|E].
  - pose proof (Hu 0%nat k0 d0 eq_refl E) as <-. by injection Hi as -> ->.
  - destruct i as [|i]; [by injection Hi as -> ->|]. apply (IH i); [done|].
    intros j k' d' Hj Hk. specialize (Hu (S j) k' d' Hj Hk). lia.
Qed.

#[export] Instance example_json_laws : NojsonLaws example_json.
Proof.
  refine {| json_represents (v : @RawJsonValue example_json) d := v = d;
            json_trim (text : @RawJsonOwned example_json) := text |}.
  - done.
  - intros d _. split.
    + unfold json_display, example_json, display_doc. by apply digits_utf8.
    + exists (display_doc d ++ newline). cbn. rewrite trim_newline_snoc, parse_display. done.
  - intros d _. exists (display_doc d). pose proof (parse_display d) as H. unfold display_doc in *.
    cbn [json_parse json_display_compact json_value example_json]. unfold display_doc.
    rewrite trim_newline_digits, H. done.
  - intros v n Hn ->. cbn. by rewrite (proj2 (N.ltb_lt _ _) Hn).
  - intros [k| | | |] n; cbn; [|done..]. destruct (N.ltb_spec k U64_LIMIT); [|done]. by intros [= <-].
  - by intros v b ->.
  - by intros v s ->.
  - by intros v j ->.
  - intros v ms ->. eexists. split; [reflexivity|]. apply Forall2_fmap_l, Forall_Forall2_diag.
    by apply list.Forall_true.
  - intros v ms i k d -> Hi Hu. exists d. split; [|done].
    unfold required_member. cbn [to_member example_json mbind option_bind].
    by apply (find_member_lookup ms i).
Defined.
