(* ===== verification/MetricsJson.v ===== *)
(** * The JSON rendering of the metrics, [src/metrics.rs]

    The [DisplayJson] implementations as values passed to the formatter, and
    the [Display] implementations as the text it gives. *)
From Stdlib Require Import Strings.Byte Strings.String.
From S2P Require Import Prelude Metrics Fs Text Json JsonExample.

(** [RecordKindMetrics::fmt]. *)
Definition record_kind_json (k : RecordKindMetrics) : JsonDoc :=
  DocObject [
    (KeyString "current_term", DocU64 (rk_current_term k));
    (KeyString "voted_for", DocU64 (rk_voted_for k));
    (KeyString "log_append", DocU64 (rk_log_append k));
    (KeyString "snapshot_checkpoint", DocU64 (rk_snapshot_checkpoint k))
  ].

(** [OperationKindMetrics::fmt]. *)
Definition operation_kind_json (k : OperationKindMetrics) : JsonDoc :=
  DocObject [
    (KeyString "load", DocU64 (ok_load k));
    (KeyString "save_current_term", DocU64 (ok_save_current_term k));
    (KeyString "save_voted_for", DocU64 (ok_save_voted_for k));
    (KeyString "append_entries", DocU64 (ok_append_entries k));
    (KeyString "save_snapshot", DocU64 (ok_save_snapshot k));
    (KeyString "remove_node", DocU64 (ok_remove_node k))
  ].

(** [RejectedOperationMetrics::fmt]. *)
Definition rejected_json (r : RejectedOperationMetrics) : JsonDoc :=
  DocObject [
    (KeyString "unknown_nodes", operation_kind_json (rejected_unknown_nodes r));
    (KeyString "removed_nodes", operation_kind_json (rejected_removed_nodes r))
  ].

(** [StorageMetrics::fmt]. *)
Definition storage_metrics_json (m : StorageMetrics) : JsonDoc :=
  DocObject [
    (KeyString "records_written", record_kind_json (records_written m));
    (KeyString "bytes_written", record_kind_json (bytes_written m));
    (KeyString "records_replayed", record_kind_json (records_replayed m));
    (KeyString "bytes_replayed", record_kind_json (bytes_replayed m));
    (KeyString "segment_rotations", DocU64 (segment_rotations m));
    (KeyString "syncs", DocU64 (syncs m));
    (KeyString "durable_syncs", DocU64 (durable_syncs m));
    (KeyString "replay_truncations", DocU64 (replay_truncations m));
    (KeyString "checksum_failures", DocU64 (checksum_failures m));
    (KeyString "nodes_created", DocU64 (nodes_created m));
    (KeyString "nodes_removed", DocU64 (nodes_removed m));
    (KeyString "rejected_operations", rejected_json (rejected_operations m));
    (KeyString "snapshot_checkpoints_saved", DocU64 (snapshot_checkpoints_saved m));
    (KeyString "gc_runs", DocU64 (gc_runs m));
    (KeyString "gc_segments_deleted", DocU64 (gc_segments_deleted m));
    (KeyString "active_nodes", DocU64 (active_nodes m));
    (KeyString "removed_nodes", DocU64 (removed_nodes m));
    (KeyString "checkpoint_index_nodes", DocU64 (checkpoint_index_nodes m));
    (KeyString "active_append_segment_id", DocU64 (active_append_segment_id m));
    (KeyString "active_append_segment_len_bytes", DocU64 (active_append_segment_len_bytes m));
    (KeyString "unsynced_records", DocU64 (unsynced_records m));
    (KeyString "unsynced_bytes", DocU64 (unsynced_bytes m))
  ].

Section display.
Context `{Nojson}.

(** [display_json] and the [Display] implementations. *)
Definition display_json (d : JsonDoc) : list byte := json_display_compact d.
Definition display_metrics (m : StorageMetrics) : list byte := display_json (storage_metrics_json m).
Definition display_record_kind (k : RecordKindMetrics) : list byte := display_json (record_kind_json k).
Definition display_operation_kind (k : OperationKindMetrics) : list byte :=
  display_json (operation_kind_json k).
Definition display_rejected (r : RejectedOperationMetrics) : list byte := display_json (rejected_json r).
End display.

(** ** Reading the rendering *)

Section read.
Context `{Nojson}.

Definition read_u64 (v : RawJsonValue) (name : string) : option N :=
  required_member v name ≫= json_to_u64.

Definition read_record_kind (v : RawJsonValue) : option RecordKindMetrics :=
  t ← read_u64 v "current_term"; o ← read_u64 v "voted_for"; a ← read_u64 v "log_append";
  c ← read_u64 v "snapshot_checkpoint"; Some (mkRecordKindMetrics t o a c).

Definition read_operation_kind (v : RawJsonValue) : option OperationKindMetrics :=
  l ← read_u64 v "load"; t ← read_u64 v "save_current_term"; o ← read_u64 v "save_voted_for";
  a ← read_u64 v "append_entries"; c ← read_u64 v "save_snapshot"; r ← read_u64 v "remove_node";
  Some (mkOperationKindMetrics l t o a c r).

Definition read_rejected (v : RawJsonValue) : option RejectedOperationMetrics :=
  u ← required_member v "unknown_nodes" ≫= read_operation_kind;
  r ← required_member v "removed_nodes" ≫= read_operation_kind;
  Some (mkRejectedOperationMetrics u r).

Definition read_metrics (v : RawJsonValue) : option StorageMetrics :=
  rw ← required_member v "records_written" ≫= read_record_kind;
  bw ← required_member v "bytes_written" ≫= read_record_kind;
  rr ← required_member v "records_replayed" ≫= read_record_kind;
  br ← required_member v "bytes_replayed" ≫= read_record_kind;
  x1 ← read_u64 v "segment_rotations"; x2 ← read_u64 v "syncs"; x3 ← read_u64 v "durable_syncs";
  x4 ← read_u64 v "replay_truncations"; x5 ← read_u64 v "checksum_failures";
  x6 ← read_u64 v "nodes_created"; x7 ← read_u64 v "nodes_removed";
  ro ← required_member v "rejected_operations" ≫= read_rejected;
  x8 ← read_u64 v "snapshot_checkpoints_saved"; x9 ← read_u64 v "gc_runs";
  x10 ← read_u64 v "gc_segments_deleted"; x11 ← read_u64 v "active_nodes";
  x12 ← read_u64 v "removed_nodes"; x13 ← read_u64 v "checkpoint_index_nodes";
  x14 ← read_u64 v "active_append_segment_id"; x15 ← read_u64 v "active_append_segment_len_bytes";
  x16 ← read_u64 v "unsynced_records"; x17 ← read_u64 v "unsynced_bytes";
  Some (mkStorageMetrics rw bw rr br x1 x2 x3 x4 x5 x6 x7 ro x8 x9 x10 x11 x12 x13 x14 x15 x16 x17).
End read.

(** ** Bounds *)

Definition record_kind_u64 (k : RecordKindMetrics) : Prop :=
  let '(mkRecordKindMetrics t v a c) := k in Forall (λ n, n < U64_LIMIT) [t; v; a; c].
Definition operation_kind_u64 (k : OperationKindMetrics) : Prop :=
  let '(mkOperationKindMetrics l t v a s r) := k in Forall (λ n, n < U64_LIMIT) [l; t; v; a; s; r].
Definition rejected_u64 (r : RejectedOperationMetrics) : Prop :=
  operation_kind_u64 (rejected_unknown_nodes r) ∧ operation_kind_u64 (rejected_removed_nodes r).
Definition metrics_u64 (m : StorageMetrics) : Prop :=
  Forall record_kind_u64 [records_written m; bytes_written m; records_replayed m; bytes_replayed m] ∧
  rejected_u64 (rejected_operations m) ∧
  Forall (λ n, n < U64_LIMIT)
    [segment_rotations m; syncs m; durable_syncs m; replay_truncations m; checksum_failures m;
     nodes_created m; nodes_removed m; snapshot_checkpoints_saved m; gc_runs m; gc_segments_deleted m;
     active_nodes m; removed_nodes m; checkpoint_index_nodes m; active_append_segment_id m;
     active_append_segment_len_bytes m; unsynced_records m; unsynced_bytes m].

(** ** Lemmas *)

Section lemmas.
Context `{NL : NojsonLaws}.

Lemma read_u64_member v ms (i : nat) name n :
  json_represents v (DocObject ms) → ms !! i = Some (KeyString name, DocU64 n) →
  NoDup (key_text <$> ms.*1) → n < U64_LIMIT → read_u64 v name = Some n.
Proof.
  intros Hv Hi Hnd Hn. destruct (member_of v ms i (KeyString name) _ Hv Hi Hnd) as (v' & E & H).
  unfold read_u64. cbn [key_text] in E. rewrite E. cbn. by apply represents_u64.
Qed.

Lemma read_member {A} (read : RawJsonValue → option A) v ms (i : nat) name d a :
  json_represents v (DocObject ms) → ms !! i = Some (KeyString name, d) →
  NoDup (key_text <$> ms.*1) → (∀ v', json_represents v' d → read v' = Some a) →
  required_member v name ≫= read = Some a.
Proof.
  intros Hv Hi Hnd Hr. destruct (member_of v ms i (KeyString name) _ Hv Hi Hnd) as (v' & E & H).
  cbn [key_text] in E. rewrite E. cbn. by apply Hr.
Qed.
End lemmas.

(** The members of a literal object have names of their own. *)
Ltac distinct_names := apply (bool_decide_unpack _); vm_compute; exact I.
(** Reads member [i] next. *)
Ltac next_u64 Hv i Hb :=
  erewrite (read_u64_member _ _ i _ _ Hv eq_refl); [|distinct_names|exact Hb]; cbn [mbind option_bind].
Ltac next_member Hv i read H :=
  erewrite (read_member read _ _ i _ _ _ Hv eq_refl); [|distinct_names|intros ?; by apply H];
  cbn [mbind option_bind].

Section rendering.
Context `{NL : NojsonLaws}.

Lemma read_record_kind_json v k :
  record_kind_u64 k → json_represents v (record_kind_json k) → read_record_kind v = Some k.
Proof.
  destruct k as [t o a c]. unfold record_kind_u64. rewrite !list.Forall_cons. intros (Ht & Ho & Ha & Hc & _) Hv.
  unfold read_record_kind.
  next_u64 Hv 0%nat Ht. next_u64 Hv 1%nat Ho. next_u64 Hv 2%nat Ha. next_u64 Hv 3%nat Hc. done.
Qed.

Lemma read_operation_kind_json v k :
  operation_kind_u64 k → json_represents v (operation_kind_json k) → read_operation_kind v = Some k.
Proof.
  destruct k as [l t o a c r]. unfold operation_kind_u64. rewrite !list.Forall_cons.
  intros (Hl & Ht & Ho & Ha & Hc & Hr & _) Hv. unfold read_operation_kind.
  next_u64 Hv 0%nat Hl. next_u64 Hv 1%nat Ht. next_u64 Hv 2%nat Ho. next_u64 Hv 3%nat Ha.
  next_u64 Hv 4%nat Hc. next_u64 Hv 5%nat Hr. done.
Qed.

Lemma read_rejected_json v r :
  rejected_u64 r → json_represents v (rejected_json r) → read_rejected v = Some r.
Proof.
  intros [Hu Hr] Hv. unfold read_rejected.
  next_member Hv 0%nat read_operation_kind read_operation_kind_json.
  next_member Hv 1%nat read_operation_kind read_operation_kind_json. by destruct r.
Qed.

(** The documents of the metrics. *)
Lemma record_kind_json_ok k : record_kind_u64 k → doc_ok (record_kind_json k).
Proof using Type.
  destruct k. unfold record_kind_u64. rewrite !list.Forall_cons. intros (? & ? & ? & ? & _). by repeat split.
Qed.
Lemma operation_kind_json_ok k : operation_kind_u64 k → doc_ok (operation_kind_json k).
Proof using Type.
  destruct k. unfold operation_kind_u64. rewrite !list.Forall_cons. intros (? & ? & ? & ? & ? & ? & _). by repeat split.
Qed.
Lemma rejected_json_ok r : rejected_u64 r → doc_ok (rejected_json r).
Proof using Type.
  intros [Hu Hr]. split; [done|]. split; [by apply operation_kind_json_ok|].
  split; [done|]. split; [by apply operation_kind_json_ok|done].
Qed.
Lemma metrics_json_ok m : metrics_u64 m → doc_ok (storage_metrics_json m).
Proof using Type.
  intros (Hk & Hr & Hb). rewrite !list.Forall_cons in Hk. rewrite !list.Forall_cons in Hb. apply doc_object_ok.
  repeat (apply list.Forall_cons; split; [split; [reflexivity|cbn [snd]]|]); try apply list.Forall_nil.
  all: first [apply record_kind_json_ok; tauto|by apply rejected_json_ok|cbn [doc_ok]; tauto].
Qed.

(** [C40] The JSON rendering of the metrics loses nothing: the text of [Display]
    parses, and the members read back give every counter its value. *)
Theorem metrics_json_roundtrip m :
  metrics_u64 m →
  ∃ j, json_parse (display_metrics m) = Some j ∧ read_metrics (json_value j) = Some m.
Proof.
  intros Hm. destruct (json_display_compact_parse (storage_metrics_json m) (metrics_json_ok m Hm)) as (j & Hj & Hv).
  destruct Hm as (Hk & Hr & Hb).
  exists j. split; [exact Hj|]. revert Hv. generalize (json_value j). intros v Hv.
  rewrite !list.Forall_cons in Hk. rewrite !list.Forall_cons in Hb. destruct Hk as (K0 & K1 & K2 & K3 & _).
  destruct Hb as (B0 & B1 & B2 & B3 & B4 & B5 & B6 & B7 & B8 & B9 & B10 & B11 & B12 & B13 & B14 & B15 & B16 & _).
  unfold read_metrics.
  next_member Hv 0%nat read_record_kind read_record_kind_json.
  next_member Hv 1%nat read_record_kind read_record_kind_json.
  next_member Hv 2%nat read_record_kind read_record_kind_json.
  next_member Hv 3%nat read_record_kind read_record_kind_json.
  next_u64 Hv 4%nat B0. next_u64 Hv 5%nat B1. next_u64 Hv 6%nat B2. next_u64 Hv 7%nat B3.
  next_u64 Hv 8%nat B4. next_u64 Hv 9%nat B5. next_u64 Hv 10%nat B6.
  next_member Hv 11%nat read_rejected read_rejected_json.
  next_u64 Hv 12%nat B7. next_u64 Hv 13%nat B8. next_u64 Hv 14%nat B9. next_u64 Hv 15%nat B10.
  next_u64 Hv 16%nat B11. next_u64 Hv 17%nat B12. next_u64 Hv 18%nat B13. next_u64 Hv 19%nat B14.
  next_u64 Hv 20%nat B15. next_u64 Hv 21%nat B16. by destruct m.
Qed.
End rendering.

(** ** Witness *)

Definition example_metrics : StorageMetrics :=
  record_written KindLogAppend 100 (segment_opened 3 4 metrics_default).

Lemma metrics_json_roundtrip_witness :
  ∃ j, json_parse (display_metrics example_metrics) = Some j ∧
       read_metrics (json_value j) = Some example_metrics.
Proof.
  apply metrics_json_roundtrip. repeat apply conj; repeat (apply list.Forall_cons; split);
    repeat apply conj; repeat (apply list.Forall_cons; split); try apply list.Forall_nil; reflexivity.
Defined.
