(* ===== verification/EngineExample.v ===== *)
(** * A concrete engine

    A storage directory with an empty segment and the engine that works on it:
    the starting point of the examples. *)
From Stdlib Require Import Strings.Byte Strings.String.
From S2P Require Import Prelude Metrics Fs Text Json Noraft State Crc32c Codec Format Frame.
From S2P Require Import Segment Replay Registry Checkpoint Engine Recovery ReplayCorrect.
From S2P Require Import WriterCorrect MetadataCorrect EngineCorrect NodeCorrect EngineSpec.
From S2P Require Import JsonExample.
#[local] Existing Instance ListLog.instance.
#[local] Existing Instance ListLog.laws.

Definition fresh_fs : Fs :=
  mkFs RootDir true true
    {[ WRITE_LOCK_FILE_NAME := EntryFile 0; "append-0.segment"%string := EntryFile 1 ]} []
    {[ 0 := mkInode [] []; 1 := mkInode SEGMENT_FORMAT_MAGIC [] ]} 2 {[ 0 ]} [].

Definition fresh_writer : SegmentWriter :=
  mkSegmentWriter first_append (mkFile 1 4 true true) 4 DEFAULT_MAX_SEGMENT_LEN.

Definition fresh_engine : StorageEngine :=
  mkStorageEngine (mkFile 0 0 true false) registry_default index_default fresh_writer.

Definition fresh_world : World := mkWorld fresh_fs metrics_default.
Definition fresh_state : EngineState := mkEngineState fresh_world fresh_engine.

Definition fresh_path : SegmentPath := mkSegmentPath first_append "append-0.segment".

Lemma fresh_entries name :
  fs_entries fresh_fs !! name =
  if decide (name = WRITE_LOCK_FILE_NAME) then Some (EntryFile 0)
  else if decide (name = "append-0.segment"%string) then Some (EntryFile 1) else None.
Proof.
  cbn. destruct (decide (name = WRITE_LOCK_FILE_NAME)) as [->|Hl]; [done|].
  rewrite lookup_insert_ne by done. destruct (decide (name = "append-0.segment"%string)) as [->|Hs]; [done|].
  by rewrite lookup_singleton_ne.
Qed.

Lemma fresh_segments : segments_of fresh_fs = [fresh_path].
Proof. reflexivity. Qed.

Lemma fresh_clean : clean_dir fresh_fs [(first_append, [])].
Proof.
  split; [done|]. split; [done|]. rewrite fresh_segments. constructor; [|constructor].
  split; [done|]. split; [constructor|]. exists 1. by split.
Qed.

Lemma fresh_wf : fs_wf fresh_fs.
Proof.
  split.
  - intros a b i. rewrite !fresh_entries. intros Ha Hb. by repeat case_decide; simplify_eq.
  - intros a i. rewrite fresh_entries. by repeat case_decide; intros [= <-].
Qed.

Lemma fresh_writer_ok : writer_ok fresh_fs fresh_writer [] [].
Proof. split; try done; [apply fresh_clean|apply fresh_wf]. Qed.

Lemma fresh_can_rotate : can_rotate fresh_fs fresh_writer.
Proof. by split. Qed.

Lemma fresh_ok : engine_ok fresh_state [].
Proof.
  split.
  - exists [], []. split; [apply fresh_writer_ok|constructor].
  - intros name _. change (fs_entries fresh_fs !! name ≠ Some EntryOther). rewrite fresh_entries.
    by repeat case_decide.
  - intros n p. done.
Qed.

Lemma fresh_refines : refines fresh_state ∅.
Proof. exists []. split; [apply fresh_ok|]. intros n. by rewrite lookup_empty. Qed.

(** After creating node 7. *)
Definition example_metadata : NodeMetadata := mkNodeMetadata true [Byte.x30].

Lemma fresh_create_simulates : simulates (OpCreateNode 7 example_metadata) fresh_state ∅.
Proof. apply create_simulates; [apply fresh_refines|done|done]. Qed.

Lemma one_node :
  ∃ s, refines s (<[7 := Live example_metadata (checkpoint_into_state initial_checkpoint)]> ∅) ∧
       active_id s ≤ 1 ∧ is_active (engine_registry (es_engine s)) 7 = true.
Proof.
  pose proof fresh_create_simulates as H. unfold simulates in H. destruct (exec _ fresh_state) as [r s].
  destruct H as (σ & Hstep & Hr & Hid). exists s.
  assert (Hσ : σ = <[7 := Live example_metadata (checkpoint_into_state initial_checkpoint)]> ∅).
  { inversion Hstep as [| n md [x Hx]| | | | | | | | | | |]; subst; [done|]. by rewrite lookup_empty in Hx. }
  subst σ. split; [done|]. split; [exact Hid|].
  eapply (refines_live s _ Hr 7). apply lookup_insert_eq.
Qed.

(** Records of that node. *)
Definition example_term : SegmentRecord := RecordCurrentTerm 3.

Lemma example_term_storable : storable 7 example_term.
Proof. by repeat split. Qed.

(** A directory with two records of node 7: its initial checkpoint and a term. *)
Definition example_records (p q : RecordPosition) : list (RecordPosition * NodeRecord) :=
  [(p, mkNodeRecord 7 (RecordSnapshotCheckpoint initial_checkpoint)); (q, mkNodeRecord 7 example_term)].

Lemma example_dir :
  ∃ fs segs p q, clean_dir fs segs ∧ log_decodes (log_of segs) (example_records p q).
Proof.
  assert (Hrot : rotation_free fresh_fs fresh_engine 7 (RecordSnapshotCheckpoint initial_checkpoint))
    by (by eapply engine_can_rotate; [exact fresh_ok|]).
  destruct (create_node_run fresh_fs metrics_default fresh_engine [] 7 example_metadata fresh_ok
    eq_refl eq_refl Hrot) as (fs1 & m1 & e1 & p & _ & Hok1 & _ & Hid1).
  assert (Hid : segment_id (next_segment (engine_writer e1)) < U64_LIMIT)
    by (eapply N.le_lt_trans; [apply N.add_le_mono_r, Hid1|reflexivity]).
  destruct (engine_append_run fs1 m1 e1 _ 7 example_term Hok1 example_term_storable
    (engine_can_rotate _ _ _ _ 7 example_term Hok1 Hid)) as (fs2 & m2 & w2 & _ & [Hw _ _] & _).
  destruct Hw as (segs & bodies & Hw & Hdec).
  exists fs2, (segs ++ [(active_segment w2, bodies)]), p, (next_position e1 7 example_term).
  split; [apply Hw|exact Hdec].
Qed.
