(* ===== verification/EngineTheorems.v ===== *)
(** * What the engine guarantees

    The properties of the engine's operations, while the calls to the operating
    system succeed; [Faults] has those that hold when they fail. *)
From Stdlib Require Import Strings.Byte Strings.String.
From S2P Require Import Prelude Metrics Fs Text Json Noraft State Crc32c Codec Format Frame.
From S2P Require Import Segment Replay Registry Checkpoint Engine Recovery ReplayCorrect.
From S2P Require Import WriterCorrect MetadataCorrect EngineCorrect NodeCorrect EngineSpec.
From S2P Require Import JsonExample EngineExample.

Section traces.
Context `{NJ : Nojson} `{NL : NoraftLaws}.

(** A sequence of operations with their replies. *)
Fixpoint exec_all (ops : list Op) (s : EngineState) : list (result Reply) * EngineState :=
  match ops with
  | [] => ([], s)
  | op :: ops =>
      let '(r, s) := exec op s in
      let '(rs, s) := exec_all ops s in (r :: rs, s)
  end.

Inductive spec_run : gmap N NodeSpec → list Op → list (result Reply) → gmap N NodeSpec → Prop :=
  | run_nil σ : spec_run σ [] [] σ
  | run_cons σ op ops r rs σ1 σ2 :
      spec_step σ op r σ1 → spec_run σ1 ops rs σ2 → spec_run σ (op :: ops) (r :: rs) σ2.

Lemma exec_simulates op s σ :
  refines s σ → op_fit op → active_id s + 1 < U64_LIMIT → simulates op s σ.
Proof.
  intros Hr Hf Hid. destruct op; cbn [op_fit] in Hf.
  - by apply create_simulates.
  - apply (save_record_simulates s σ Hr Hid n (RecordCurrentTerm term) _ OpSaveCurrentTerm); try easy.
    by constructor.
  - apply (save_record_simulates s σ Hr Hid n (RecordVotedFor vote) _ OpSaveVotedFor); try easy.
    by constructor.
  - destruct Hf as (? & ? & ?).
    apply (save_record_simulates s σ Hr Hid n (RecordAppend append) _ OpAppendEntries); try easy.
    by constructor.
  - destruct Hf as (? & ? & ?). by apply snapshot_simulates.
  - by apply remove_simulates.
  - by apply sync_simulates.
  - by apply load_simulates.
  - by apply load_all_simulates.
Qed.

Lemma exec_all_simulates ops s σ :
  refines s σ → Forall op_fit ops → active_id s + lenN ops < U64_LIMIT →
  let '(rs, s') := exec_all ops s in ∃ σ', spec_run σ ops rs σ' ∧ refines s' σ'.
Proof.
  revert s σ. induction ops as [|op ops IH]; intros s σ Hr Hf Hid; cbn [exec_all].
  { exists σ. split; [constructor|done]. }
  rewrite lenN_cons in Hid. apply list.Forall_cons in Hf as [Hop Hf].
  pose proof (exec_simulates op s σ Hr Hop ltac:(lia)) as Hsim. unfold simulates in Hsim.
  destruct (exec op s) as [r s1]. destruct Hsim as (σ1 & Hstep & Hr1 & Hid1).
  specialize (IH s1 σ1 Hr1 Hf ltac:(lia)). destruct (exec_all ops s1) as [rs s2].
  destruct IH as (σ2 & Hrun & Hr2). exists σ2. split; [by econstructor|done].
Qed.

Lemma spec_step_reserved σ op r σ' n :
  spec_step σ op r σ' → σ !! n = Some Reserved → σ' !! n = Some Reserved.
Proof.
  assert (Hsave : ∀ n' rec r σ', spec_save n' rec σ r σ' → σ !! n = Some Reserved → σ' !! n = Some Reserved).
  { intros n' rec r' σ1 Hs Hn. inversion Hs; subst; try done. rewrite lookup_insert_ne; [done|congruence]. }
  intros Hs Hn. inversion Hs; subst; eauto.
  - rewrite lookup_insert_ne; [done|congruence].
  - rewrite lookup_insert. by case_decide.
Qed.

Lemma spec_run_reserved σ ops rs σ' n :
  spec_run σ ops rs σ' → σ !! n = Some Reserved → σ' !! n = Some Reserved.
Proof.
  induction 1 as [|σ op ops r rs σ1 σ2 Hs Hr IH]; [done|]. intros Hn. apply IH. by eapply spec_step_reserved.
Qed.
End traces.

Section lemmas.
Context `{NJ : Nojson} `{NL : NoraftLaws}.

(** What loading a node returns, from the store. *)
Definition spec_load (x : option NodeSpec) : result NodeState :=
  match x with Some (Live _ st) => st | _ => Err (missing_error x) end.

Lemma refines_load s σ n : refines s σ → (engine_load n s).1 = spec_load (σ !! n).
Proof.
  intros Hr. destruct (live_or_missing σ n) as [(md & st & Hl)|Hm].
  - pose proof (refines_live s σ Hr n md st Hl) as Ha. rewrite Hl. destruct Hr as (nlog & Hok & Hs).
    specialize (Hs n). rewrite Hl in Hs. destruct Hs as [_ Hv]. destruct s as [[fs m] e].
    destruct (engine_load_run fs m e nlog n Hok Ha) as [m' ->]. exact Hv.
  - destruct (ensure_missing s σ Hr n OpLoad Hm) as (s' & Hrun & _).
    unfold engine_load. rewrite (bind_err _ _ _ _ _ Hrun).
    destruct (σ !! n) as [[md st|]|]; [by destruct (Hm md st)|done..].
Qed.

(** An operation that changes the store at [n] shows up in later loads. *)
Lemma loads_after s σ s' n x :
  refines s σ → refines s' (<[n := x]> σ) →
  (engine_load n s').1 = spec_load (Some x) ∧
  ∀ n', n' ≠ n → (engine_load n' s').1 = (engine_load n' s).1.
Proof.
  intros Hr Hr'. split.
  - by rewrite (refines_load _ _ _ Hr'), lookup_insert_eq.
  - intros n' Hn. by rewrite (refines_load _ _ _ Hr'), (refines_load _ _ _ Hr), lookup_insert_ne.
Qed.

Lemma exec_done (m : M EngineState ()) s r s' :
  (m ;; mret Done) s = (r, s') → m s = (match r with Ok _ => Ok () | Err e => Err e end, s').
Proof.
  unfold mbind, M_bind, mret, M_ret. destruct (m s) as [[[]|e] s1]; by intros [= <- <-].
Qed.
End lemmas.

Section properties.
Context `{NJ : Nojson} `{NL : NoraftLaws}.

(** [C1] The engine refines the abstract store: starting from related states,
    every sequence of operations on any nodes, with any arguments, succeeding
    or not, gives the replies of the abstract store and ends in related
    states.  The replies say what each operation returns on every branch:
    unknown and removed nodes, records that cannot be encoded, states that
    cannot be replayed. *)
Theorem engine_refines_store (ops : list Op) (s : EngineState) (σ : gmap N NodeSpec) :
  refines s σ → Forall op_fit ops → active_id s + lenN ops < U64_LIMIT →
  let '(rs, s') := exec_all ops s in ∃ σ', spec_run σ ops rs σ' ∧ refines s' σ'.
Proof. apply exec_all_simulates. Qed.

(** [C8] A saved record is what later loads see: saving a term, a vote or an
    append that can be encoded succeeds, loading the node afterwards gives the
    previous state with that record applied, and no other node is affected -
    also when the append rotated to a new segment. *)
Theorem saved_record_is_loaded (s : EngineState) (σ : gmap N NodeSpec) n r op :
  refines s σ → active_id s + 1 < U64_LIMIT → is_active (engine_registry (es_engine s)) n = true →
  storable n r →
  let '(res, s') := save_record n r op s in
  res = Ok () ∧
  (engine_load n s').1 = spec_apply r (engine_load n s).1 ∧
  ∀ n', n' ≠ n → (engine_load n' s').1 = (engine_load n' s).1.
Proof.
  intros Hr Hid Ha Hst. destruct (refines_active s σ Hr n Ha) as (md & st & Hl).
  pose proof (refines_load s σ n Hr) as Hload. rewrite Hl in Hload.
  pose proof Hr as (nlog & Hok & Hs). destruct s as [[fs m] e].
  destruct (save_record_run fs m e nlog n r op Hok Ha Hst (engine_can_rotate _ _ _ _ n r Hok Hid))
    as (fs' & m' & w' & -> & Hok' & _). split; [done|]. rewrite Hload.
  apply (loads_after _ σ _ n (Live md (spec_apply r st)) Hr).
  eapply (refines_update _ _ _ _ _ _ _ Hs Hok'); [done| |].
  - intros n' Hn' _. rewrite node_view_snoc. by rewrite decide_False by done.
  - specialize (Hs n). rewrite Hl in Hs. destruct Hs as [Hst' Hv]. split; [exact Hst'|].
    rewrite node_view_snoc, decide_True by done. by rewrite replayed_snoc, Hv.
Qed.

(** [C17] Creating a node: it succeeds exactly for an ID that was never used,
    the node then loads as its initial checkpoint, and no other node is
    affected; for an ID in use or reserved it is an [AlreadyExists] error that
    changes nothing. *)
Theorem create_node_correct (s : EngineState) (σ : gmap N NodeSpec) n md :
  refines s σ → active_id s + 1 < U64_LIMIT → u64 n →
  let '(res, s') := create_node n md s in
  match node_status (engine_registry (es_engine s)) n with
  | Unknown =>
      res = Ok () ∧ node_status (engine_registry (es_engine s')) n = Active md ∧
      (engine_load n s').1 = checkpoint_into_state initial_checkpoint ∧
      ∀ n', n' ≠ n → (engine_load n' s').1 = (engine_load n' s).1
  | _ => res = Err node_already_exists_error ∧ s' = s
  end.
Proof.
  intros Hr Hid Hn. pose proof Hr as (nlog & Hok & Hs). pose proof (Hs n) as Hsn.
  destruct (node_status (engine_registry (es_engine s)) n) as [|md'|] eqn:Est.
  2,3: unfold create_node; destruct s as [w e]; rewrite (bind_ok _ _ _ _ _ (get_engine_run _ _)),
    registry_create_node_run; cbn [es_engine] in Est; rewrite Est; done.
  pose proof (create_simulates s σ Hr Hid n md Hn) as Hsim. unfold simulates in Hsim. cbn [exec] in Hsim.
  destruct ((create_node n md ;; mret Done) s) as [r s'] eqn:E in Hsim. apply exec_done in E. rewrite E.
  destruct Hsim as (σ' & Hstep & Hr' & _).
  unfold node_matches in Hsn. rewrite Est in Hsn.
  assert (Hnone : σ !! n = None) by (by destruct (σ !! n) as [[]|]; [destruct Hsn| |]).
  inversion Hstep; subst; [|by match goal with H : is_Some _ |- _ => rewrite Hnone in H; destruct H end].
  split; [done|]. split; [|by apply (loads_after _ _ _ _ _ Hr Hr')].
  destruct Hr' as (nlog' & _ & Hs'). specialize (Hs' n). rewrite lookup_insert_eq in Hs'. apply Hs'.
Qed.

(** [C16] Removing a node keeps its ID reserved for ever: after any further
    operations, the node cannot be loaded or created again, and removing it did
    not affect any other node. *)
Theorem removed_id_is_reserved (s : EngineState) (σ : gmap N NodeSpec) n ops md :
  refines s σ → is_active (engine_registry (es_engine s)) n = true → Forall op_fit ops →
  active_id s + 1 + lenN ops + 1 < U64_LIMIT → u64 n →
  let '(res, s1) := remove_node n s in
  let s2 := (exec_all ops s1).2 in
  res = Ok () ∧
  (∀ n', n' ≠ n → (engine_load n' s1).1 = (engine_load n' s).1) ∧
  (engine_load n s2).1 = Err node_removed_error ∧
  (create_node n md s2).1 = Err node_already_exists_error.
Proof.
  intros Hr Ha Hf Hid Hn. destruct (refines_active s σ Hr n Ha) as (md' & st & Hl).
  pose proof (remove_simulates s σ Hr ltac:(lia) n) as Hsim. unfold simulates in Hsim. cbn [exec] in Hsim.
  destruct ((remove_node n ;; mret Done) s) as [r s1] eqn:E in Hsim. apply exec_done in E. rewrite E. cbv zeta.
  destruct Hsim as (σ1 & Hstep & Hr1 & Hid1).
  inversion Hstep; subst; [|by match goal with H : ∀ _ _, _ ≠ _ |- _ => destruct (H md' st) end].
  split; [done|]. split; [by apply (loads_after _ _ _ _ _ Hr Hr1)|].
  pose proof (exec_all_simulates ops s1 _ Hr1 Hf ltac:(lia)) as Hrun.
  destruct (exec_all ops s1) as [rs s2]. destruct Hrun as (σ2 & Hrun & Hr2). cbn [snd].
  pose proof (spec_run_reserved _ _ _ _ n Hrun (lookup_insert_eq _ _ _)) as Hres.
  split; [by rewrite (refines_load _ _ _ Hr2), Hres|].
  destruct Hr2 as (nlog2 & _ & Hs2). specialize (Hs2 n). unfold node_matches in Hs2. rewrite Hres in Hs2.
  unfold create_node. destruct s2 as [w2 e2]. rewrite (bind_ok _ _ _ _ _ (get_engine_run _ _)),
    registry_create_node_run. cbn [es_engine] in Hs2. by rewrite Hs2.
Qed.

(** [C9] A snapshot replaces the state of its node: a checkpoint that can be
    encoded is saved, the node then loads as exactly the state the checkpoint
    records, whatever was there before, and the garbage collection that follows
    does not change what any other node loads as. *)
Theorem save_snapshot_correct (s : EngineState) (σ : gmap N NodeSpec) n c :
  refines s σ → active_id s + 1 < U64_LIMIT → is_active (engine_registry (es_engine s)) n = true →
  storable n (RecordSnapshotCheckpoint c) →
  let '(res, s') := save_snapshot n c s in
  res = Ok () ∧
  (engine_load n s').1 = checkpoint_into_state c ∧
  ∀ n', n' ≠ n → (engine_load n' s').1 = (engine_load n' s).1.
Proof.
  intros Hr Hid Ha Hst. destruct (refines_active s σ Hr n Ha) as (md & st & Hl).
  pose proof Hst as (Hn & Hf & Hu & He).
  pose proof (snapshot_simulates s σ Hr Hid n c Hn Hf Hu) as Hsim. unfold simulates in Hsim. cbn [exec] in Hsim.
  destruct ((save_snapshot n c ;; mret Done) s) as [r s'] eqn:E in Hsim. apply exec_done in E. rewrite E.
  destruct Hsim as (σ' & Hstep & Hr' & _). inversion Hstep as [| | | | |n0 c0 r0 σ0 Hsave| | | | | | |]; subst.
  inversion Hsave as [md1 st1 Hl1|md1 st1 e1 _ Hne|Hm]; subst; [|done|by destruct (Hm md st)].
  split; [done|]. apply (loads_after _ _ _ _ _ Hr Hr').
Qed.

(** [C18] [load_all] agrees with [load]: it returns a state for exactly the
    active nodes, the one [load] returns, and it fails only with an error that
    [load] returns for one of them. *)
Theorem load_all_agrees_with_load (s : EngineState) (σ : gmap N NodeSpec) :
  refines s σ →
  match (engine_load_all s).1 with
  | Ok states => ∀ n,
      match states !! n with
      | Some st => is_active (engine_registry (es_engine s)) n = true ∧ (engine_load n s).1 = Ok st
      | None => is_active (engine_registry (es_engine s)) n = false
      end
  | Err e => ∃ n, is_active (engine_registry (es_engine s)) n = true ∧ (engine_load n s).1 = Err e
  end.
Proof.
  intros (nlog & Hok & Hs). destruct s as [[fs m] e].
  assert (Hload : ∀ n, is_active (engine_registry e) n = true →
    (engine_load n (mkEngineState (mkWorld fs m) e)).1 = replayed (node_view n nlog)).
  { intros n Ha. by destruct (engine_load_run fs m e nlog n Hok Ha) as [m' ->]. }
  destruct (engine_load_all_run fs m e nlog Hok) as (r & m' & -> & Hspec). cbn [fst es_engine].
  destruct r as [states|err].
  - intros n. specialize (Hspec n). destruct (states !! n); [|done].
    destruct Hspec as [Ha Hv]. by rewrite Hload.
  - destruct Hspec as (n & Ha & Hv). exists n. by rewrite Hload.
Qed.
End properties.

Section witnesses.
#[local] Existing Instance ListLog.instance.
#[local] Existing Instance ListLog.laws.

Definition example_ops : list Op :=
  [OpCreateNode 7 example_metadata; OpSaveTerm 7 3; OpSaveVote 7 (Some 2); OpSync; OpLoadNode 7;
   OpRemove 7; OpSaveTerm 7 4; OpCreateNode 7 example_metadata; OpLoadNodes].

Lemma example_ops_fit : Forall op_fit example_ops.
Proof. by repeat constructor. Qed.

Lemma engine_refines_store_witness :
  refines fresh_state ∅ ∧ Forall op_fit example_ops ∧
  let '(rs, s') := exec_all example_ops fresh_state in ∃ σ', spec_run ∅ example_ops rs σ' ∧ refines s' σ'.
Proof.
  split; [exact fresh_refines|]. split; [exact example_ops_fit|].
  apply (engine_refines_store example_ops fresh_state ∅);
    [exact fresh_refines|exact example_ops_fit|reflexivity].
Defined.

Lemma small_id k : k ≤ 1 → k + 1 < U64_LIMIT.
Proof. intros H. eapply N.le_lt_trans; [apply N.add_le_mono_r, H|reflexivity]. Qed.

Lemma saved_record_is_loaded_witness :
  ∃ s, is_active (engine_registry (es_engine s)) 7 = true ∧
  let '(res, s') := save_record 7 example_term OpSaveCurrentTerm s in
  res = Ok () ∧
  (engine_load 7 s').1 = spec_apply example_term (engine_load 7 s).1 ∧
  ∀ n', n' ≠ 7 → (engine_load n' s').1 = (engine_load n' s).1.
Proof.
  destruct one_node as (s & Hr & Hid & Ha). exists s. split; [exact Ha|].
  eapply saved_record_is_loaded; [exact Hr|exact (small_id _ Hid)|exact Ha|exact example_term_storable].
Defined.

Lemma create_node_correct_witness :
  let '(res, s') := create_node 7 example_metadata fresh_state in
  res = Ok () ∧ node_status (engine_registry (es_engine s')) 7 = Active example_metadata ∧
  (engine_load 7 s').1 = checkpoint_into_state initial_checkpoint ∧
  ∀ n', n' ≠ 7 → (engine_load n' s').1 = (engine_load n' fresh_state).1.
Proof.
  apply (create_node_correct fresh_state ∅ 7 example_metadata); [exact fresh_refines|reflexivity..].
Defined.

Lemma removed_id_is_reserved_witness :
  ∃ s, is_active (engine_registry (es_engine s)) 7 = true ∧
  let '(res, s1) := remove_node 7 s in
  let s2 := (exec_all example_ops s1).2 in
  res = Ok () ∧
  (∀ n', n' ≠ 7 → (engine_load n' s1).1 = (engine_load n' s).1) ∧
  (engine_load 7 s2).1 = Err node_removed_error ∧
  (create_node 7 example_metadata s2).1 = Err node_already_exists_error.
Proof.
  destruct one_node as (s & Hr & Hid & Ha). exists s. split; [exact Ha|].
  eapply removed_id_is_reserved; [exact Hr|exact Ha|exact example_ops_fit| |reflexivity].
  eapply N.le_lt_trans; [do 3 apply N.add_le_mono_r; exact Hid|reflexivity].
Defined.

Lemma save_snapshot_correct_witness :
  ∃ s, is_active (engine_registry (es_engine s)) 7 = true ∧
  let '(res, s') := save_snapshot 7 initial_checkpoint s in
  res = Ok () ∧
  (engine_load 7 s').1 = checkpoint_into_state initial_checkpoint ∧
  ∀ n', n' ≠ 7 → (engine_load n' s').1 = (engine_load n' s).1.
Proof.
  destruct one_node as (s & Hr & Hid & Ha). exists s. split; [exact Ha|].
  eapply save_snapshot_correct; [exact Hr|exact (small_id _ Hid)|exact Ha|].
  by apply initial_checkpoint_storable.
Defined.

Lemma load_all_agrees_with_load_witness :
  ∃ s, is_active (engine_registry (es_engine s)) 7 = true ∧
  match (engine_load_all s).1 with
  | Ok states => ∀ n,
      match states !! n with
      | Some st => is_active (engine_registry (es_engine s)) n = true ∧ (engine_load n s).1 = Ok st
      | None => is_active (engine_registry (es_engine s)) n = false
      end
  | Err e => ∃ n, is_active (engine_registry (es_engine s)) n = true ∧ (engine_load n s).1 = Err e
  end.
Proof.
  destruct one_node as (s & Hr & Hid & Ha). exists s. split; [exact Ha|].
  eapply load_all_agrees_with_load. exact Hr.
Defined.
End witnesses.
