(* ===== verification/SegmentTheorems.v ===== *)
(** * Properties of the append segments *)
From Stdlib Require Import Strings.Byte Strings.String.
From S2P Require Import Prelude Metrics Fs Text Noraft State Crc32c Codec Format Frame.
From S2P Require Import CodecCorrect Segment Replay Recovery ReplayCorrect WriterCorrect Json.
From S2P Require Import Engine EngineExample.

(** ** Lemmas *)

Lemma foldl_name_max names name :
  foldl name_max name names ∈ name :: names ∧ ∀ n, n ∈ name :: names → name_le n (foldl name_max name names).
Proof.
  revert name. induction names as [|x names IH]; intros name; cbn [foldl].
  - split; [by left|]. intros n ->%list_elem_of_singleton. unfold name_le. lia.
  - destruct (IH (name_max name x)) as [Hin Hle]. unfold name_max, name_le in *. split.
    + rewrite !elem_of_cons in *. destruct Hin as [->|Hin]; [case_decide; auto|auto].
    + intros n. rewrite !elem_of_cons. pose proof (Hle _ (list_elem_of_here _ _)) as Hm.
      intros [->|[->|Hn]]; [..|apply Hle; by right]; case_decide; lia.
Qed.

Lemma sync_inode_crash fs i j fs' :
  crash (sync_inode i fs) fs' → j = i → data_of j fs' = data_of j fs.
Proof.
  intros (_ & _ & _ & Hd & _) ->. destruct (Hd i) as [Hv _]. rewrite data_of_sync_inode in Hv.
  unfold inode_of, sync_inode in Hv. cbn in Hv. by rewrite lookup_insert_eq in Hv.
Qed.

Section properties.

(** Segment names are canonical: a file name is that of a segment exactly
    when it is what printing the segment's 64-bit ID gives, so no two names
    denote one segment, and leading zeros, signs and overflowing numbers are not
    segment names. *)
Theorem segment_names_canonical (s : string) (name : SegmentName) :
  parse_file_name s = Some name ↔ s = file_name name ∧ segment_id name < U64_LIMIT.
Proof.
  split; [apply parse_file_name_canonical|]. intros [-> Hid]. by apply parse_file_name_print.
Qed.

(** [C35] Discovery: in a readable directory the segments found are the regular
    files with segment names, each once and in increasing order, and the active
    segment is the greatest of them, or the first segment if there is none. *)
Theorem discovery_correct (w : World) :
  no_faults (w_fs w) → fs_root (w_fs w) = RootDir →
  ∃ paths active,
    discover_segment_paths w = (Ok paths, w) ∧ select_active_append_segment w = (Ok active, w) ∧
    StronglySorted path_lt paths ∧
    (∀ p, p ∈ paths ↔ path_file p = file_name (path_name p) ∧ segment_id (path_name p) < U64_LIMIT ∧
                      ∃ i, fs_entries (w_fs w) !! path_file p = Some (EntryFile i)) ∧
    (if bool_decide (paths = []) then active = first_append
     else active ∈ path_name <$> paths ∧ ∀ p, p ∈ paths → name_le (path_name p) active).
Proof.
  intros Hnf Hr. pose proof (discover_segment_paths_run w Hnf Hr) as Hrun.
  exists (segments_of (w_fs w)).
  assert (Hsel : ∃ active, select_active_append_segment w = (Ok active, w) ∧
    if bool_decide (segments_of (w_fs w) = []) then active = first_append
    else active ∈ path_name <$> segments_of (w_fs w) ∧
         ∀ p, p ∈ segments_of (w_fs w) → name_le (path_name p) active).
  { unfold select_active_append_segment. rewrite (bind_ok _ _ _ _ _ Hrun).
    destruct (segments_of (w_fs w)) as [|p paths]; [by exists first_append|].
    rewrite fmap_cons. eexists. split; [reflexivity|].
    destruct (foldl_name_max (path_name <$> paths) (path_name p)) as [Hin Hle].
    split; [exact Hin|]. intros q Hq. apply Hle.
    change (path_name q ∈ path_name <$> (p :: paths)). by apply list_elem_of_fmap_2. }
  destruct Hsel as (active & Hsel & Hact). exists active. repeat (split; [done|]).
  split; [apply segments_of_sorted|]. split; [intros p; apply elem_of_segments_of|exact Hact].
Qed.

(** [C21] An append adds exactly one record to the log of the directory, at the
    position it returns, which is after every record there was; and the segment
    it goes to stays within the maximum length unless that record is the only
    one of the segment. *)
Theorem append_extends_log `{NL : Noraft} fs m w segs bodies n r body :
  writer_ok fs w segs bodies → can_rotate fs w → lenN body ≤ MAX_RECORD_BODY_LEN →
  encode_record_frame n r = Ok (wire_frame body) →
  let '(res, ws) := writer_append n r (mkWriterState (mkWorld fs m) w) in
  ∃ p segs' bodies', res = Ok p ∧
    writer_ok (w_fs (ws_world ws)) (ws_writer ws) segs' bodies' ∧
    writer_log (ws_writer ws) segs' bodies' = writer_log w segs bodies ++ [(p, body)] ∧
    (∀ q, q ∈ (writer_log w segs bodies).*1 → record_position_lt q p) ∧
    (segment_len (ws_writer ws) ≤ max_segment_len w ∨ position_offset p = SEGMENT_FILE_HEADER_LEN).
Proof.
  intros Hok Hrot Hb Henc.
  destruct (writer_append_run fs m w segs bodies n r body Hok Henc Hb (λ _, Hrot))
    as (fs' & m' & w' & segs' & bodies' & -> & Hok' & Hlog & Hmax & Hact & Hlen & _).
  set (p := append_position w (lenN (wire_frame body))) in *. cbn [ws_world ws_writer w_fs].
  exists p, segs', bodies'. split; [done|]. split; [done|]. split; [done|]. split.
  - pose proof (log_of_sorted (segs' ++ [(active_segment w', bodies')])
      (clean_dir_sorted _ _ (wo_clean _ _ _ _ Hok'))) as Hs.
    fold (writer_log w' segs' bodies') in Hs. rewrite Hlog, fmap_app in Hs.
    intros q Hq. eapply StronglySorted_app_1_elem_of; [exact Hs|exact Hq|by left].
  - rewrite Hlen. unfold p, append_position.
    destruct (should_rotate w (lenN (wire_frame body))) eqn:Er; [by right|].
    cbn [position_offset]. unfold should_rotate in Er.
    destruct (N.leb_spec (segment_len w) SEGMENT_FILE_HEADER_LEN) as [Hle|Hgt].
    + right. apply N.le_antisymm; [exact Hle|]. rewrite (wo_len _ _ _ _ Hok).
      unfold segment_data. rewrite lenN_app. apply N.le_add_r.
    + left. unfold u64_checked_add in Er. destruct (_ <? U64_LIMIT); [|done].
      by apply N.ltb_ge in Er.
Qed.

(** [sync] with pending records makes them durable: it succeeds, the
    pending counters are zero, and whatever a crash leaves afterwards, the
    active segment has all its bytes. *)
Theorem sync_makes_durable fs m w :
  no_faults fs → unsynced_records m ≠ 0 ∨ unsynced_bytes m ≠ 0 →
  let '(res, ws) := writer_sync (mkWriterState (mkWorld fs m) w) in
  res = Ok () ∧ ws_writer ws = w ∧
  unsynced_records (w_metrics (ws_world ws)) = 0 ∧ unsynced_bytes (w_metrics (ws_world ws)) = 0 ∧
  ∀ fs', crash (w_fs (ws_world ws)) fs' →
    data_of (file_inode (writer_file w)) fs' = data_of (file_inode (writer_file w)) fs.
Proof.
  intros Hnf Hp. unfold writer_sync, mbind, M_bind, get_state. cbn [ws_world w_metrics].
  assert (negb (unsynced_records m =? 0) || negb (unsynced_bytes m =? 0) = true) as ->.
  { apply orb_true_iff. destruct Hp as [Hp|Hp]; [left|right]; by apply negb_true_iff, N.eqb_neq. }
  rewrite sync_current_segment_run by done. repeat (split; [done|]).
  intros fs' Hc. exact (sync_inode_crash _ _ _ _ Hc eq_refl).
Qed.

(** Rotation seals the old segment: once the writer has moved to the next
    segment, no crash can lose a byte of the segment it left or the name of the
    one it moved to. *)
Theorem rotation_seals_segment fs m w segs bodies :
  writer_ok fs w segs bodies → can_rotate fs w →
  let '(res, ws) := writer_rotate (mkWriterState (mkWorld fs m) w) in
  res = Ok () ∧ active_segment (ws_writer ws) = next_segment w ∧
  ∀ fs', crash (w_fs (ws_world ws)) fs' →
    data_of (file_inode (writer_file w)) fs' = segment_data bodies [] ∧
    fs_entries fs' !! file_name (active_segment w) = Some (EntryFile (file_inode (writer_file w))) ∧
    fs_entries fs' !! file_name (next_segment w) = Some (EntryFile (file_inode (writer_file (ws_writer ws)))).
Proof.
  intros Hok [Hid Hnone].
  rewrite (writer_rotate_run fs m w segs bodies Hok Hid Hnone). fold (next_segment w) in *.
  cbn [ws_world ws_writer w_fs writer_file file_inode active_segment]. split; [done|]. split; [done|].
  intros fs' (_ & Hent & _ & Hd & _). cbn in Hent. rewrite list_elem_of_singleton in Hent. rewrite Hent.
  pose proof (wo_entry _ _ _ _ Hok) as He. pose proof (wo_wf _ _ _ _ Hok) as [_ Hb].
  split; [|split].
  - destruct (Hd (file_inode (writer_file w))) as [Hv _]. rewrite <-(wo_data _ _ _ _ Hok).
    set (i := file_inode (writer_file w)) in *. apply Hb in He.
    unfold rotated_fs, new_segment_fs, update_data, new_file, sync_inode, data_of, inode_of in Hv.
    cbn in Hv. rewrite !lookup_insert_ne, !lookup_insert_eq in Hv by lia. exact Hv.
  - rewrite lookup_insert_ne; [exact He|]. intros E. by rewrite <-E, Hnone in He.
  - apply lookup_insert_eq.
Qed.
End properties.

(** ** Witnesses *)

Lemma discovery_correct_witness :
  ∃ paths active,
    discover_segment_paths fresh_world = (Ok paths, fresh_world) ∧
    select_active_append_segment fresh_world = (Ok active, fresh_world) ∧ active ∈ path_name <$> paths.
Proof.
  destruct (discovery_correct fresh_world eq_refl eq_refl) as (paths & active & Hd & Hs & _ & _ & Ha).
  exists paths, active. split; [exact Hd|]. split; [exact Hs|].
  assert (paths = [fresh_path]) as ->.
  { rewrite discover_segment_paths_run in Hd by reflexivity.
    apply (f_equal (λ r, match r.1 with Ok l => l | Err _ => [] end)) in Hd. cbn [fst] in Hd.
    rewrite <-Hd. exact fresh_segments. }
  exact (proj1 Ha).
Defined.

Lemma append_extends_log_witness :
  let '(res, ws) := @writer_append ListLog.instance 3 Example_record.record
                      (mkWriterState fresh_world fresh_writer) in
  ∃ p segs' bodies', res = Ok p ∧
    writer_ok (w_fs (ws_world ws)) (ws_writer ws) segs' bodies' ∧
    writer_log (ws_writer ws) segs' bodies' = [(p, Example_record.body)].
Proof.
  assert (Hb : lenN Example_record.body ≤ MAX_RECORD_BODY_LEN) by (vm_compute; discriminate).
  assert (He : @encode_record_frame ListLog.instance 3 Example_record.record = Ok (wire_frame Example_record.body)).
  { pose proof (@encode_record_frame_spec ListLog.instance 3 Example_record.record) as Hs.
    pose proof (@encode_record_body_spec ListLog.instance 3 Example_record.record) as Hs'.
    rewrite Example_record.body_encoded in Hs'. destruct Hs' as [Henc ->].
    destruct (@encode_record_frame ListLog.instance 3 Example_record.record) as [frame|e].
    - destruct Hs as [_ ->]. reflexivity.
    - destruct Hs as [Hne _]. destruct (Hne Henc). }
  pose proof (@append_extends_log ListLog.instance fresh_fs metrics_default fresh_writer [] [] 3
    Example_record.record Example_record.body fresh_writer_ok fresh_can_rotate Hb He) as H.
  change (mkWorld fresh_fs metrics_default) with fresh_world in H.
  destruct (writer_append _ _ _) as [res ws]. destruct H as (p & segs' & bodies' & H1 & H2 & H3 & _).
  exists p, segs', bodies'. split; [exact H1|]. split; [exact H2|exact H3].
Defined.

Lemma sync_makes_durable_witness :
  let '(res, ws) := writer_sync (mkWriterState (mkWorld fresh_fs
                      (record_written KindCurrentTerm 30 metrics_default)) fresh_writer) in
  res = Ok () ∧ unsynced_records (w_metrics (ws_world ws)) = 0 ∧
  ∀ fs', crash (w_fs (ws_world ws)) fs' → data_of 1 fs' = SEGMENT_FORMAT_MAGIC.
Proof.
  assert (Hp : unsynced_records (record_written KindCurrentTerm 30 metrics_default) ≠ 0)
    by (vm_compute; discriminate).
  pose proof (sync_makes_durable fresh_fs (record_written KindCurrentTerm 30 metrics_default) fresh_writer
    eq_refl (or_introl Hp)) as H.
  destruct (writer_sync _) as [res ws]. destruct H as (H1 & _ & H2 & _ & H3).
  split; [exact H1|]. split; [exact H2|exact H3].
Defined.

Lemma rotation_seals_segment_witness :
  let '(res, ws) := writer_rotate (mkWriterState fresh_world fresh_writer) in
  res = Ok () ∧ active_segment (ws_writer ws) = mkSegmentName 1 ∧
  ∀ fs', crash (w_fs (ws_world ws)) fs' → data_of 1 fs' = SEGMENT_FORMAT_MAGIC.
Proof.
  pose proof (rotation_seals_segment fresh_fs metrics_default fresh_writer [] [] fresh_writer_ok
    fresh_can_rotate) as H.
  change (mkWorld fresh_fs metrics_default) with fresh_world in H.
  destruct (writer_rotate _) as [res ws]. destruct H as (H1 & H2 & H3).
  split; [exact H1|]. split; [exact H2|]. intros fs' Hc. exact (proj1 (H3 fs' Hc)).
Defined.
