(* ===== verification/ReplayTheorems.v ===== *)
(** * Properties of replay and recovery *)
From Stdlib Require Import Strings.Byte Strings.String.
From S2P Require Import Prelude Metrics Fs Text Noraft State Crc32c Codec Format Frame.
From S2P Require Import CodecCorrect Segment Replay Recovery ReplayCorrect RecoveryCorrect.
From S2P Require Import WriterCorrect Json Engine EngineCorrect EngineExample.

(** ** Lemmas *)

Section lemmas.
Context `{Noraft}.

(** Replay may skip what the last checkpoint supersedes. *)
Lemma apply_since_checkpoint rs s s1 :
  apply_records rs s = (Ok (), s1) →
  ∃ s0, (existsb is_checkpoint rs = false → s0 = s) ∧
        ∀ s2, (existsb is_checkpoint rs = false → s2 = s) →
              apply_records (since_checkpoint rs) s2 = (Ok (), s1).
Proof.
  revert s. induction rs as [|r rs IH]; intros s Hrun.
  - exists s. split; [done|]. intros s2 Hs2. cbn in Hrun |- *. injection Hrun as <-. by rewrite Hs2.
  - cbn [since_checkpoint existsb]. exists s. split; [done|]. intros s2 Hs2.
    apply apply_records_cons_ok in Hrun as (s' & Hr & Hrs).
    destruct (existsb is_checkpoint rs) eqn:E.
    + destruct (IH s' Hrs) as (_ & _ & Hsince). by apply Hsince.
    + rewrite orb_false_r in Hs2. destruct (is_checkpoint r) eqn:Er.
      * destruct r as [| | |c]; try done. eapply (apply_records_from_checkpoint c rs s).
        apply apply_records_cons_ok. eauto.
      * rewrite Hs2 by done. apply apply_records_cons_ok. eauto.
Qed.

Lemma replayed_since rs s : replayed rs = Ok s → replayed (since_checkpoint rs) = Ok s.
Proof.
  unfold replayed. destruct (apply_records rs node_state_default) as [[[]|] s1] eqn:E; [|done].
  intros [= <-]. destruct (apply_since_checkpoint rs _ _ E) as (_ & _ & Hs). by rewrite Hs.
Qed.
End lemmas.

Section properties.
Context `{NL : NoraftLaws}.

(** [C19] Loading one node does not depend on the checkpoint index: with no hint,
    or with the position of any checkpoint of the node, replay of a directory
    of complete records changes no file and returns the replay of the node's
    records since its last checkpoint; if replaying all of the node's records
    succeeds, that is the same state. *)
Theorem replay_independent_of_hint fs m segs nlog active n hint recover :
  readable_dir fs active recover segs → log_decodes (log_of segs) nlog → hint_ok n hint nlog →
  let '(r, w) := replay_node_state active n hint recover (mkWorld fs m) in
  w_fs w = fs ∧ r = replayed (since_checkpoint (node_history n nlog)) ∧
  ∀ s, replayed (node_history n nlog) = Ok s → r = Ok s.
Proof.
  intros Hc Hd Hh. destruct (replay_node_state_run fs m segs nlog active n hint recover Hc Hd Hh) as [m' ->].
  split; [done|]. split; [done|]. intros s Hs. by apply replayed_since.
Qed.

(** [C20] Loading several nodes in one pass, from hints for all of them or from
    none, gives each of them what loading it alone gives; if it fails, then for
    a reason that loading one of them alone has. *)
Theorem replay_of_many_nodes fs m segs nlog active nodes hints recover :
  readable_dir fs active recover segs → log_decodes (log_of segs) nlog → hints_ok nodes hints nlog →
  let '(r, w) := replay_storage_dir active (Some nodes) hints recover (mkWorld fs m) in
  w_fs w = fs ∧
  match r with
  | Ok states => ∀ n, n ∈ nodes →
      (replay_node_state active n None recover (mkWorld fs m)).1 =
      Ok (default node_state_default (states !! n))
  | Err e => ∃ n, n ∈ nodes ∧ (replay_node_state active n None recover (mkWorld fs m)).1 = Err e
  end.
Proof.
  intros Hc Hd Hh.
  assert (Hone : ∀ n, (replay_node_state active n None recover (mkWorld fs m)).1 =
                      replayed (since_checkpoint (node_history n nlog))).
  { intros n. by destruct (replay_node_state_run fs m segs nlog active n None recover Hc Hd I) as [m' ->]. }
  destruct (replay_storage_dir_run fs m segs nlog active nodes hints recover Hc Hd Hh) as (r & m' & -> & Hr).
  split; [done|]. destruct r as [states|e].
  - intros n Hn. rewrite Hone. by apply Hr.
  - destruct Hr as (n & Hn & He). exists n. by rewrite Hone.
Qed.
End properties.

(** ** Witnesses *)

Section witnesses.
#[local] Existing Instance ListLog.instance.
#[local] Existing Instance ListLog.laws.

Lemma replay_independent_of_hint_witness :
  ∃ fs p q,
    let '(r, w) := replay_node_state first_append 7 (Some p) false (mkWorld fs metrics_default) in
    w_fs w = fs ∧ r = replayed (since_checkpoint (node_history 7 (example_records p q))) ∧
    ∀ s, replayed (node_history 7 (example_records p q)) = Ok s → r = Ok s.
Proof.
  destruct example_dir as (fs & segs & p & q & Hc & Hd). exists fs, p, q.
  apply (replay_independent_of_hint fs metrics_default segs); [exact (clean_readable _ _ _ _ Hc)|exact Hd|].
  exists initial_checkpoint. by left.
Defined.

Lemma replay_of_many_nodes_witness :
  ∃ fs p,
    let '(r, w) := replay_storage_dir first_append (Some {[7]}) (Some {[7 := p]}) false
                     (mkWorld fs metrics_default) in
    w_fs w = fs ∧
    match r with
    | Ok states => ∀ n, n ∈ ({[7]} : gset N) →
        (replay_node_state first_append n None false (mkWorld fs metrics_default)).1 =
        Ok (default node_state_default (states !! n))
    | Err e => ∃ n, n ∈ ({[7]} : gset N) ∧
        (replay_node_state first_append n None false (mkWorld fs metrics_default)).1 = Err e
    end.
Proof.
  destruct example_dir as (fs & segs & p & q & Hc & Hd). exists fs, p.
  apply (replay_of_many_nodes fs metrics_default segs (example_records p q)); [exact (clean_readable _ _ _ _ Hc)|exact Hd|].
  split; [apply dom_singleton_L|]. intros n p' Hn. apply lookup_singleton_Some in Hn as [<- <-].
  exists initial_checkpoint. by left.
Defined.

(** A torn segment: its second record was cut. *)
Definition torn_bodies : list (list byte) := [[Byte.x01]; [Byte.x02]].
Definition torn_fs (data : list byte) : Fs :=
  mkFs RootDir true true {[ "append-0.segment"%string := EntryFile 1 ]} [] {[ 1 := mkInode data [] ]} 2 ∅ [].

Lemma torn_file data : is_file_with (torn_fs data) "append-0.segment" 1 data.
Proof. by split. Qed.

Lemma torn_bodies_fit : Forall (λ body, lenN body ≤ MAX_RECORD_BODY_LEN) torn_bodies.
Proof. repeat constructor; vm_compute; discriminate. Qed.

Lemma torn_segment_recovered_witness :
  ∃ kept fs' m',
    scan_segment "append-0.segment" true
      (mkWorld (torn_fs (takeN 20 (segment_data torn_bodies []))) metrics_default) =
      (Ok (), mkWorld fs' m') ∧
    data_of 1 fs' = kept ∧ lenN kept ≤ 20.
Proof.
  destruct (torn_segment_recovered (torn_fs (takeN 20 (segment_data torn_bodies []))) metrics_default
    "append-0.segment" 1 eq_refl torn_bodies 20 torn_bodies_fit) as (kept & fs' & m' & Hrun & Hk & _ & _ & H & _).
  - vm_compute. discriminate.
  - apply torn_file.
  - change (20 <? SEGMENT_FILE_HEADER_LEN) with false in H. destruct H as (b1 & b2 & _ & _ & Hlen & _).
    exists kept, fs', m'. split; [exact Hrun|]. split; [exact Hk|exact Hlen].
Defined.

Lemma sealed_segment_checked_witness :
  let '(r, w') := scan_segment "append-0.segment" false
    (mkWorld (torn_fs (segment_data torn_bodies [Byte.x00])) metrics_default) in
  w_fs w' = torn_fs (segment_data torn_bodies [Byte.x00]) ∧ is_ok r = false.
Proof.
  pose proof (sealed_segment_checked (torn_fs (segment_data torn_bodies [Byte.x00])) metrics_default
    "append-0.segment" 1 eq_refl torn_bodies [Byte.x00] torn_bodies_fit
    ltac:(intros body; vm_compute; discriminate) (torn_file _)) as H.
  destruct (scan_segment _ _ _) as [r w']. destruct H as [H1 H2]. split; [exact H1|].
  destruct r; [discriminate H2|reflexivity].
Defined.
End witnesses.
