(* ===== verification/Faults.v ===== *)
(** * Failures and crashes

    Rules for reasoning about programs whose calls may fail at any point, and
    what the metadata files and the segments are after such a failure, or after
    a crash of the system at that point. *)
From Stdlib Require Import Strings.Byte Strings.String.
From S2P Require Import Prelude Metrics Fs Text Json.

(** ** Postconditions *)

Definition hoare {S A} (P : S → Prop) (m : M S A) (Q : result A → S → Prop) : Prop :=
  ∀ s, P s → let '(r, s') := m s in Q r s'.

Lemma hoare_consequence {S A} (P P' : S → Prop) (m : M S A) (Q Q' : result A → S → Prop) :
  hoare P' m Q' → (∀ s, P s → P' s) → (∀ r s, Q' r s → Q r s) → hoare P m Q.
Proof. intros Hm HP HQ s Hs. specialize (Hm s (HP s Hs)). destruct (m s). by apply HQ. Qed.

Lemma hoare_ret {S A} (P : S → Prop) (a : A) (Q : result A → S → Prop) :
  (∀ s, P s → Q (Ok a) s) → hoare P (mret a) Q.
Proof. intros H s Hs. by apply H. Qed.

Lemma hoare_throw {S A} (P : S → Prop) e (Q : result A → S → Prop) :
  (∀ s, P s → Q (Err e) s) → hoare P (throw e) Q.
Proof. intros H s Hs. by apply H. Qed.

Lemma hoare_modify {S} (P : S → Prop) (f : S → S) (Q : result () → S → Prop) :
  (∀ s, P s → Q (Ok ()) (f s)) → hoare P (modify f) Q.
Proof. intros H s Hs. by apply H. Qed.

(** The intermediate assertion holds of successes; failures end the program. *)
Lemma hoare_bind {S A B} (P : S → Prop) (m : M S A) (R : A → S → Prop) (f : A → M S B)
  (Q : result B → S → Prop) :
  hoare P m (λ r s, match r with Ok a => R a s | Err e => Q (Err e) s end) →
  (∀ a, hoare (R a) (f a) Q) → hoare P (m ≫= f) Q.
Proof.
  intros Hm Hf s Hs. specialize (Hm s Hs). unfold mbind, M_bind.
  destruct (m s) as [[a|e] s']; [by apply Hf|done].
Qed.

Lemma hoare_get {S B} (P : S → Prop) (f : S → M S B) (Q : result B → S → Prop) :
  (∀ s0, P s0 → hoare (λ s, s = s0) (f s0) Q) → hoare P (get_state ≫= f) Q.
Proof. intros Hf s Hs. unfold mbind, M_bind, get_state. by apply (Hf s Hs s). Qed.

(** ** Calls that may fail *)

(** An assertion that does not look at the outcomes of the calls to come. *)
Definition stable (P : Fs → Prop) : Prop := ∀ fs f, P fs → P (set_faults f fs).

Lemma take_fault_spec fs : ∃ o f, take_fault fs = (Ok o, set_faults f fs).
Proof.
  unfold take_fault. destruct (fs_faults fs) as [|o f] eqn:E; [|by exists o, f].
  exists None, []. destruct fs. cbn in *. by subst.
Qed.

Lemma hoare_fault (P : Fs → Prop) : stable P → hoare P take_fault (λ r fs, is_ok r = true ∧ P fs).
Proof.
  intros HP fs Hfs. unfold take_fault. destruct (fs_faults fs); split; try done. by apply HP.
Qed.

Lemma hoare_call {A} (P : Fs → Prop) (op : M Fs A) (Q : result A → Fs → Prop) :
  stable P → (∀ fs, P fs → Q (Err (os_error OtherError)) fs) → hoare P op Q → hoare P (call op) Q.
Proof.
  intros HP HQ Hop. unfold call. eapply (hoare_bind _ _ (λ _, P)).
  - eapply hoare_consequence; [by apply hoare_fault|done|]. by intros [a|e] fs [? ?].
  - intros [k|]; [by apply hoare_throw|done].
Qed.

Lemma hoare_in_dir {A} (P : Fs → Prop) (op : M Fs A) (Q : result A → Fs → Prop) :
  (∀ e fs, P fs → Q (Err e) fs) → hoare P op Q → hoare P (in_dir op) Q.
Proof.
  intros HQ Hop fs Hfs. unfold in_dir, mbind, M_bind, get_state.
  specialize (Hop fs Hfs). by destruct (fs_root fs); [apply HQ|apply HQ|].
Qed.

Lemma hoare_w_call {A} (P : Fs → Prop) (op : M Fs A) (Q : result A → Fs → Prop) :
  hoare P op Q → hoare (λ w, P (w_fs w)) (w_call op) (λ r w, Q r (w_fs w)).
Proof.
  intros Hop w Hw. unfold w_call, zoom. specialize (Hop (w_fs w) Hw). by destruct (op (w_fs w)).
Qed.

Lemma hoare_io_call {A} (P : Fs → Prop) (J : File → Prop) (op : M Fs A) (Q : result A → Fs → Prop) :
  hoare P op Q →
  hoare (λ io, P (io_fs io) ∧ J (io_file io)) (io_call op) (λ r io, Q r (io_fs io) ∧ J (io_file io)).
Proof.
  intros Hop io [Hio HJ]. unfold io_call, zoom. specialize (Hop (io_fs io) Hio).
  by destruct (op (io_fs io)).
Qed.

Lemma hoare_with_file {A} (P : Fs → Prop) (f : File) (m : M Io A) (Q : result A → Fs → Prop) :
  hoare (λ io, P (io_fs io) ∧ io_file io = f) m (λ r io, Q r (io_fs io)) →
  hoare (λ w, P (w_fs w)) (with_file f m) (λ r w, Q r (w_fs w)).
Proof.
  intros Hm w Hw. unfold with_file. specialize (Hm (mkIo (w_fs w) (w_metrics w) f) (conj Hw eq_refl)).
  by destruct (m _).
Qed.

Lemma hoare_try_catch {S A} (P : S → Prop) (m : M S A) (Q : result (result A) → S → Prop) :
  hoare P m (λ r s, Q (Ok r) s) → hoare P (try_catch m) Q.
Proof. intros Hm s Hs. unfold try_catch. specialize (Hm s Hs). by destruct (m s). Qed.

(** An assertion that a program keeps, whatever it returns. *)
Definition keeps {S A} (P : S → Prop) (m : M S A) : Prop := hoare P m (λ _, P).

Lemma keeps_bind {S A B} (P : S → Prop) (m : M S A) (f : A → M S B) :
  keeps P m → (∀ a, keeps P (f a)) → keeps P (m ≫= f).
Proof.
  intros Hm Hf. eapply (hoare_bind _ _ (λ _, P)); [|exact Hf].
  eapply hoare_consequence; [exact Hm|done|]. by intros [].
Qed.

Lemma keeps_ret {S A} (P : S → Prop) (a : A) : keeps P (mret a).
Proof. by apply hoare_ret. Qed.

Lemma keeps_throw {S A} (P : S → Prop) e : keeps P (throw e : M S A).
Proof. by apply hoare_throw. Qed.

Lemma keeps_for_each {S A} (P : S → Prop) (xs : list A) (f : A → M S ()) :
  (∀ x, keeps P (f x)) → keeps P (for_each xs f).
Proof.
  intros Hf. induction xs as [|x xs IH]; [apply keeps_ret|]. cbn [for_each]. by apply keeps_bind.
Qed.

Lemma keeps_call {A} (P : Fs → Prop) (op : M Fs A) : stable P → keeps P op → keeps P (call op).
Proof. intros HP Hop. by apply hoare_call. Qed.

Lemma keeps_in_dir {A} (P : Fs → Prop) (op : M Fs A) : keeps P op → keeps P (in_dir op).
Proof. intros Hop. by apply hoare_in_dir. Qed.
