(* ===== verification/Termination.v ===== *)
(** * Termination of the loops over segments

    The loops of recovery and replay stop whatever the files hold and whichever
    calls fail: every turn that goes on has moved the handle forward by a frame
    header within the file, so the fuel of the model is never used up. *)
From Stdlib Require Import Strings.Byte Strings.String.
From S2P Require Import Prelude Metrics Fs Text Json Noraft State Crc32c Codec Format DecodeSound.
From S2P Require Import Frame Segment Replay Registry Checkpoint Engine ReadOnly Faults JsonExample EngineExample.

Definition fuel_error : io_error := IoError OtherError FuelExhausted.

(** The result is not that of a loop cut short. *)
Definition not_fuel {A} (r : result A) : Prop := r ≠ Err fuel_error.

(** A program that never runs out of fuel. *)
Definition ends {S A} (m : M S A) : Prop := ∀ s, not_fuel (m s).1.

Lemma not_fuel_kind {A} (e : io_error) : error_kind e ≠ OtherError → not_fuel (Err (A:=A) e).
Proof. intros He [= ->]. by apply He. Qed.

Lemma not_fuel_err {A B} (e : io_error) : not_fuel (Err (A:=A) e) → not_fuel (Err (A:=B) e).
Proof. unfold not_fuel. intros H [= ->]. by apply H. Qed.

(** ** Rules *)

Section rules.
Context {S : Type}.

Lemma ends_ret {A} (a : A) : ends (S:=S) (mret a).
Proof. by intros s. Qed.

Lemma ends_throw {A} e : e ≠ fuel_error → ends (S:=S) (throw e : M S A).
Proof. intros He s [= ->]. by apply He. Qed.

Lemma ends_get : ends (@get_state S).
Proof. by intros s. Qed.

Lemma ends_modify (f : S → S) : ends (modify f).
Proof. by intros s. Qed.

Lemma ends_lift {A} (r : result A) : not_fuel r → ends (S:=S) (lift_result r).
Proof. by intros Hr s. Qed.

Lemma ends_bind {A B} (m : M S A) (f : A → M S B) : ends m → (∀ a, ends (f a)) → ends (m ≫= f).
Proof.
  intros Hm Hf s. specialize (Hm s). unfold mbind, M_bind. destruct (m s) as [[a|e] s']; [apply Hf|].
  by eapply not_fuel_err.
Qed.

(** Inspecting the outcome of a call. *)
Lemma ends_try {A B} (m : M S A) (f : result A → M S B) :
  ends m → (∀ r, not_fuel r → ends (f r)) → ends (try_catch m ≫= f).
Proof.
  intros Hm Hf s. unfold try_catch, mbind, M_bind. specialize (Hm s).
  destruct (m s) as [r s']. by apply Hf.
Qed.

Lemma ends_for_each {A} (xs : list A) (f : A → M S ()) : (∀ x, ends (f x)) → ends (for_each xs f).
Proof.
  intros Hf. induction xs as [|x xs IH]; [apply ends_ret|]. cbn [for_each]. by apply ends_bind.
Qed.

Lemma ends_zoom {T A} (get : S → T) set (m : M T A) : ends m → ends (zoom get set m).
Proof. intros Hm s. unfold zoom. specialize (Hm (get s)). by destruct (m (get s)). Qed.
End rules.

Lemma ends_take_fault : ends take_fault.
Proof. intros s. unfold take_fault. by destruct (fs_faults s). Qed.

Lemma ends_call {A} (op : M Fs A) : ends op → ends (call op).
Proof.
  intros Hop. unfold call. apply ends_bind; [apply ends_take_fault|].
  intros [k|]; [by apply ends_throw|done].
Qed.

Lemma ends_in_dir {A} (op : M Fs A) : ends op → ends (in_dir op).
Proof.
  intros Hop. unfold in_dir. apply ends_bind; [apply ends_get|].
  intros fs. destruct (fs_root fs); [by apply ends_throw..|done].
Qed.

Lemma ends_with_file {A} f (m : M Io A) : ends m → ends (with_file f m).
Proof. intros Hm w. unfold with_file. specialize (Hm (mkIo (w_fs w) (w_metrics w) f)). by destruct (m _). Qed.

Lemma ends_with_local {A} (a : A) (m : M (World * A) ()) : ends m → ends (with_local a m).
Proof.
  intros Hm w. unfold with_local. specialize (Hm (w, a)). destruct (m (w, a)) as [[[]|e] [w' a']]; [done|].
  by eapply not_fuel_err.
Qed.

Lemma ends_release {A} f (m : M World A) : ends m → ends (release_on_error f m).
Proof.
  intros Hm w. unfold release_on_error. specialize (Hm w). destruct (m w) as [[a|e] w']; [done|].
  by eapply not_fuel_err.
Qed.

Create HintDb ends.
#[export] Hint Resolve ends_ret ends_get ends_modify ends_take_fault : ends.
#[export] Hint Extern 1 (ends (throw _)) => (apply ends_throw; discriminate) : ends.
#[export] Hint Extern 1 (ends (throw ?e)) =>
  (apply ends_throw; match goal with H : not_fuel (Err e) |- _ => by intros ->; apply H end) : ends.
#[export] Hint Extern 4 (ends (try_catch _ ≫= _)) => (apply ends_try; [|intros [?|?] ?]) : ends.
#[export] Hint Extern 5 (ends (_ ≫= _)) => (apply ends_bind; [|intros ?]) : ends.
#[export] Hint Extern 5 (ends (for_each _ _)) => (apply ends_for_each; intros ?) : ends.
#[export] Hint Resolve ends_call ends_in_dir ends_zoom ends_with_file ends_with_local ends_release : ends.
#[export] Hint Extern 6 (ends (if ?b then _ else _)) => destruct b : ends.
#[export] Hint Extern 6 (ends (match ?x with _ => _ end)) => destruct x : ends.
#[export] Hint Extern 7 (ends (let _ := _ in _)) => cbv zeta : ends.

(** Unfolds a program made of calls. *)
Ltac solve_ends := eauto 30 with ends.

Lemma ends_fs_open name o : ends (fs_open name o).
Proof. unfold fs_open. solve_ends. Qed.
Lemma ends_fs_is_file name : ends (fs_is_file name).
Proof. unfold fs_is_file. solve_ends. Qed.
Lemma ends_fs_exists name : ends (fs_exists name).
Proof. unfold fs_exists. solve_ends. Qed.
Lemma ends_fs_read_dir : ends fs_read_dir.
Proof. unfold fs_read_dir. solve_ends. Qed.
Lemma ends_fs_sync_dir : ends fs_sync_dir.
Proof. unfold fs_sync_dir. solve_ends. Qed.
Lemma ends_fs_try_lock f : ends (fs_try_lock f).
Proof. unfold fs_try_lock. solve_ends. Qed.
#[export] Hint Resolve ends_fs_open ends_fs_is_file ends_fs_exists ends_fs_read_dir ends_fs_sync_dir
  ends_fs_try_lock : ends.

(** ** Calls on a file *)

Lemma ends_io_call {A} (op : M Fs A) : ends op → ends (io_call op).
Proof. apply ends_zoom. Qed.
Lemma ends_io_count f : ends (io_count f).
Proof. apply ends_modify. Qed.
Lemma ends_w_call {A} (op : M Fs A) : ends op → ends (w_call op).
Proof. apply ends_zoom. Qed.
Lemma ends_w_count f : ends (w_count f).
Proof. apply ends_modify. Qed.
#[export] Hint Resolve ends_io_call ends_io_count ends_w_call ends_w_count : ends.

Lemma ends_file_seek p : ends (file_seek p).
Proof. unfold file_seek. solve_ends. Qed.
Lemma ends_file_seek_end : ends file_seek_end.
Proof. unfold file_seek_end. solve_ends. Qed.
Lemma ends_file_stream_position : ends file_stream_position.
Proof. unfold file_stream_position. solve_ends. Qed.
Lemma ends_file_len : ends file_len.
Proof. unfold file_len. solve_ends. Qed.
Lemma ends_file_read_exact n : ends (file_read_exact n).
Proof. unfold file_read_exact. solve_ends. Qed.
Lemma ends_file_take n : ends (file_take_read_to_end n).
Proof. unfold file_take_read_to_end. solve_ends. Qed.
Lemma ends_file_write_all b : ends (file_write_all b).
Proof. unfold file_write_all. solve_ends. Qed.
Lemma ends_file_set_len n : ends (file_set_len n).
Proof. unfold file_set_len. solve_ends. Qed.
#[export] Hint Resolve ends_file_seek ends_file_seek_end ends_file_stream_position ends_file_len
  ends_file_read_exact ends_file_take ends_file_write_all ends_file_set_len : ends.

Lemma ends_read_segment_header allow recover cnt : ends (read_segment_header allow recover cnt).
Proof. unfold read_segment_header. solve_ends. Qed.

Lemma ends_finish_records allow recover start len : ends (finish_records allow recover start len).
Proof. unfold finish_records. solve_ends. Qed.

Lemma ends_discover : ends discover_segment_paths.
Proof. unfold discover_segment_paths. solve_ends. Qed.

Lemma ends_select : ends select_active_append_segment.
Proof. unfold select_active_append_segment. pose proof ends_discover. solve_ends. Qed.
#[export] Hint Resolve ends_read_segment_header ends_finish_records ends_discover ends_select : ends.

(** ** The readers of frames move forward *)

(** A handle on contents [d] at offset [p]. *)
Definition file_at (d : list byte) (p : N) (io : Io) : Prop := io_data io = d ∧ file_pos (io_file io) = p.

(** Reading [n] bytes took them from the file. *)
Definition took (d : list byte) (p n : N) (io : Io) : Prop := p + n ≤ N.max p (lenN d) ∧ file_at d (p + n) io.

Lemma hoare_no_call d p :
  hoare (file_at d p) (io_call (call (mret ())))
    (λ r io, match r with Ok _ => file_at d p io | Err e => e ≠ fuel_error end).
Proof.
  intros io [Hd Hp]. unfold io_call, zoom, call, mbind, M_bind.
  destruct (take_fault_spec (io_fs io)) as (o & f & ->). by destruct o.
Qed.

Lemma file_read_exact_took n d p :
  hoare (file_at d p) (file_read_exact n)
    (λ r io, match r with Ok bytes => lenN bytes = n ∧ took d p n io | Err e => e ≠ fuel_error end).
Proof.
  unfold file_read_exact. eapply (hoare_bind _ _ (λ _, file_at d p)).
  { eapply hoare_consequence; [apply hoare_no_call|done|]. by intros [[]|e] io H. }
  intros []. apply hoare_get. intros io0 [Hd Hp]. cbv zeta. set (got := takeN n (dropN (file_pos (io_file io0)) (io_data io0))).
  intros io ->. unfold mbind, M_bind, modify. destruct (N.ltb_spec (lenN got) n) as [Hl|Hl]; [done|].
  unfold mret, M_ret. assert (Hg : lenN got = n) by (unfold got in *; rewrite lenN_takeN in *; lia).
  split; [done|]. split.
  - unfold got in Hg. rewrite lenN_takeN, lenN_dropN, Hp, Hd in Hg. lia.
  - split; [exact Hd|]. cbn. by rewrite Hg, Hp.
Qed.

Lemma read_exact_or_eof_took n d p :
  hoare (file_at d p) (read_exact_or_eof n)
    (λ r io, match r with
             | Ok (Some bytes) => lenN bytes = n ∧ took d p n io
             | Ok None => True
             | Err e => e ≠ fuel_error
             end).
Proof.
  unfold read_exact_or_eof. eapply (hoare_bind _ _ (λ r io,
    match r with Ok bytes => lenN bytes = n ∧ took d p n io | Err e => e ≠ fuel_error end)).
  - apply hoare_try_catch. apply file_read_exact_took.
  - intros [bytes|e] io Hio; cbn; [exact Hio|]. case_bool_decide; [done|exact Hio].
Qed.

Lemma read_exact_or_none_took {A} n (rest : list byte → M Io (option A)) d p
  (Q : option A → Io → Prop) :
  (∀ bytes, lenN bytes = n →
     hoare (took d p n) (rest bytes) (λ r io, match r with Ok a => Q a io | Err e => e ≠ fuel_error end)) →
  (∀ io, Q None io) →
  hoare (file_at d p) (read_exact_or_none n rest)
    (λ r io, match r with Ok a => Q a io | Err e => e ≠ fuel_error end).
Proof.
  intros Hrest HN. unfold read_exact_or_none. eapply (hoare_bind _ _ (λ r io,
    match r with Some bytes => lenN bytes = n ∧ took d p n io | None => True end)).
  - eapply hoare_consequence; [apply read_exact_or_eof_took|done|]. by intros [[bytes|]|e] io H.
  - intros [bytes|] io Hio; [|apply HN]. destruct Hio as [Hl Ht]. by apply Hrest.
Qed.

(** A complete frame is at least a header long and lies within the file. *)
Definition frame_taken {A} (d : list byte) (p : N) (o : option A) (io : Io) : Prop :=
  match o with
  | Some _ => ∃ q, p + SEGMENT_RECORD_HEADER_LEN ≤ q ∧ q ≤ lenN d ∧ file_at d q io
  | None => True
  end.

Lemma read_record_body_taken cnt d p :
  hoare (file_at d p) (read_record_body cnt)
    (λ r io, match r with Ok o => frame_taken d p o io | Err e => e ≠ fuel_error end).
Proof.
  unfold read_record_body. apply read_exact_or_none_took; [|done].
  intros header Hh. cbv zeta. destruct (_ <? from_le header); [by apply hoare_throw|].
  intros io [Hb Hat]. revert io Hat.
  apply (read_exact_or_none_took SEGMENT_CHECKSUM_LEN _ d (p + SEGMENT_RECORD_BASE_HEADER_LEN) (frame_taken d p)); [|done].
  intros checksum Hc. cbv zeta. unfold file_take_read_to_end.
  intros io [Hb2 Hat]. revert io Hat.
  change SEGMENT_RECORD_BASE_HEADER_LEN with 4 in *. change SEGMENT_CHECKSUM_LEN with 4 in *.
  eapply (hoare_bind _ _ (λ got io, ∃ q, p + 8 ≤ q ∧ q ≤ lenN d ∧ file_at d q io)).
  - eapply (hoare_bind _ _ (λ _, file_at d (p + 4 + 4))).
    { eapply hoare_consequence; [apply hoare_no_call|done|]. by intros [[]|e] io H. }
    intros []. apply hoare_get. intros io0 [Hd Hp]. intros io ->. cbv zeta.
    unfold mbind, M_bind, modify, mret, M_ret. cbn. rewrite Hp, Hd.
    exists (p + 4 + 4 + lenN (takeN (from_le header) (dropN (p + 4 + 4) d))).
    split; [lia|]. split; [rewrite lenN_takeN, lenN_dropN; lia|]. by split.
  - intros body io Hq. destruct (negb _); [done|]. destruct (negb _); [|exact Hq].
    destruct cnt; done.
Qed.

(** The checked chunks lie within the file. *)
Definition chunks_taken {A} (d : list byte) (p : N) (o : option A) (io : Io) : Prop :=
  match o with
  | Some _ => ∃ q, p ≤ q ∧ q ≤ lenN d ∧ file_at d q io
  | None => True
  end.

Lemma scan_body_chunks_taken fuel crc n d p :
  n / SCAN_BUFFER_LEN < N.of_nat fuel → p ≤ lenN d →
  hoare (file_at d p) (scan_body_chunks fuel crc n)
    (λ r io, match r with Ok o => chunks_taken d p o io | Err e => e ≠ fuel_error end).
Proof.
  revert crc n p. induction fuel as [|fuel IH]; intros crc n p Hf Hp; [by apply N.nlt_0_r in Hf|].
  cbn [scan_body_chunks].
  destruct (N.eqb_spec n 0) as [|Hn]; [apply hoare_ret; intros io Hat; exists p; done|].
  apply read_exact_or_none_took; [|done].
  intros buffer Hb io [Hle Hat]. set (k := N.min n SCAN_BUFFER_LEN) in *.
  destruct (N.eq_dec (n - k) 0) as [E|E].
  { rewrite E. destruct fuel; (exists (p + k); split; [lia|split; [lia|exact Hat]]). }
  assert (Hk : k = SCAN_BUFFER_LEN) by lia.
  assert (Hfuel : (n - k) / SCAN_BUFFER_LEN < N.of_nat fuel).
  { replace n with (n - k + 1 * SCAN_BUFFER_LEN) in Hf by lia. rewrite N.div_add in Hf by done. lia. }
  specialize (IH (update crc buffer) (n - k) (p + k) Hfuel ltac:(lia) io Hat).
  destruct (scan_body_chunks _ _ _ io) as [[[]|e] io']; [|done|done].
  destruct IH as (q & Hq & ?). exists q. split; [lia|done].
Qed.

Lemma scan_record_frame_taken d p :
  hoare (file_at d p) scan_record_frame
    (λ r io, match r with Ok o => frame_taken d p o io | Err e => e ≠ fuel_error end).
Proof.
  unfold scan_record_frame. apply read_exact_or_none_took; [|done].
  intros header Hh. cbv zeta. destruct (_ <? from_le header); [by apply hoare_throw|].
  intros io [Hb Hat]. revert io Hat.
  apply (read_exact_or_none_took SEGMENT_CHECKSUM_LEN _ d (p + SEGMENT_RECORD_BASE_HEADER_LEN) (frame_taken d p)); [|done].
  intros checksum Hc io [Hb2 Hat]. cbv zeta.
  change SEGMENT_RECORD_BASE_HEADER_LEN with 4 in *. change SEGMENT_CHECKSUM_LEN with 4 in *.
  pose proof (scan_body_chunks_taken (scan_body_fuel (from_le header)) crc_new (from_le header) d (p + 4 + 4)
    ltac:(unfold scan_body_fuel; lia) ltac:(lia) io Hat) as H.
  unfold mbind, M_bind. destruct (scan_body_chunks _ _ _ io) as [[[crc|]|e] io']; [|done|exact H].
  destruct (negb _); [done|]. destruct H as (q & Hq & Hql & Hqat). exists q.
  change SEGMENT_RECORD_HEADER_LEN with 8. split; [lia|done].
Qed.

(** ** The loops over records *)

(** A loop whose turns decrease a measure. *)
Lemma loop_ends {S A} (I : S → Prop) (μ : S → N) (body : M S (option A)) fuel s :
  (∀ s, I s → let '(r, s') := body s in
     not_fuel r ∧ (r = Ok None → I s' ∧ μ s' < μ s)) →
  I s → μ s < N.of_nat fuel → not_fuel (loop_fuel fuel body s).1.
Proof.
  intros Hbody. revert s. induction fuel as [|fuel IH]; intros s Hs Hf; [by apply N.nlt_0_r in Hf|].
  rewrite loop_fuel_step. specialize (Hbody s Hs).
  destruct (body s) as [[[a|]|e] s']; destruct Hbody as [Hr Hn].
  - done.
  - destruct (Hn eq_refl) as [Hs' Hlt]. apply IH; [done|lia].
  - by eapply not_fuel_err.
Qed.

(** The frames that still fit behind the handle. *)
Definition frames_left (io : Io) : N := (lenN (io_data io) - file_pos (io_file io)) / SEGMENT_RECORD_HEADER_LEN.
Definition within (len : N) (io : Io) : Prop := lenN (io_data io) = len ∧ file_pos (io_file io) ≤ len.

Lemma frames_left_lt d p q io io' :
  file_at d p io → file_at d q io' → p + SEGMENT_RECORD_HEADER_LEN ≤ q → q ≤ lenN d →
  frames_left io' < frames_left io.
Proof.
  unfold frames_left. intros [-> ->] [-> ->] Hpq Hq. change SEGMENT_RECORD_HEADER_LEN with 8 in *.
  apply N.lt_le_trans with ((lenN d - q + 1 * 8) / 8); [rewrite N.div_add by done; lia|].
  apply N.Div0.div_le_mono. lia.
Qed.

Lemma frames_left_fuel len io :
  within len io → frames_left io < N.of_nat (record_loop_fuel len).
Proof.
  intros [<- Hp]. unfold frames_left, record_loop_fuel. change SEGMENT_RECORD_HEADER_LEN with 8 in *.
  pose proof (N.Div0.div_le_mono (lenN (io_data io) - file_pos (io_file io)) (lenN (io_data io)) 8 ltac:(lia)). lia.
Qed.

Lemma within_at len io : within len io → file_at (io_data io) (file_pos (io_file io)) io.
Proof. done. Qed.

(** The loop of [scan_segment]. *)
Lemma scan_loop_ends allow len io :
  within len io → not_fuel (loop_fuel (record_loop_fuel len) (scan_turn allow len) io).1.
Proof.
  intros Hw. apply (loop_ends (within len) frames_left); [|done|by apply frames_left_fuel].
  clear io Hw. intros io [Hl Hp]. unfold scan_turn.
  pose proof (hoare_no_call (io_data io) (file_pos (io_file io)) io ltac:(done)) as Hc.
  unfold file_stream_position. unfold mbind, M_bind.
  destruct (io_call (call (mret ())) io) as [[[]|e] io1]; [|by split; [intros [= ->]; apply Hc|]].
  unfold get_state, mret, M_ret.
  pose proof (scan_record_frame_taken _ _ io1 Hc) as Hs.
  destruct (scan_record_frame io1) as [[[[]|]|e] io2].
  - split; [done|]. intros _. destruct Hs as (q & Hpq & Hq & Hat). split.
    + destruct Hat as [Hd Hpos]. split; [by rewrite Hd|]. rewrite Hpos. lia.
    + by eapply frames_left_lt.
  - pose proof (ends_finish_records allow true (file_pos (io_file io1)) len io2) as Hf.
    destruct (finish_records _ _ _ _ io2) as [[]]; split; try done; by eapply not_fuel_err.
  - split; [|done]. intros [= ->]. by apply Hs.
Qed.

(** ** The header and the length *)

(** The handle is within the file. *)
Definition inside (io : Io) : Prop := file_pos (io_file io) ≤ lenN (io_data io).

Lemma hoare_ends {S A} (P : S → Prop) (m : M S A) (Q : A → S → Prop) :
  ends m → hoare P m (λ r s, match r with Ok a => Q a s | Err _ => True end) →
  hoare P m (λ r s, match r with Ok a => Q a s | Err e => e ≠ fuel_error end).
Proof.
  intros He Hm s Hs. specialize (He s). specialize (Hm s Hs). destruct (m s) as [[a|e] s']; [done|].
  intros ->. by apply He.
Qed.

(** A call without effect on the file. *)
Lemma hoare_call_io (P : Io → Prop) :
  (∀ io fs, P io → data_of (file_inode (io_file io)) fs = io_data io → P (set_io_fs fs io)) →
  hoare P (io_call (call (mret ()))) (λ r io, match r with Ok _ => P io | Err _ => True end).
Proof.
  intros HP io Hio. unfold io_call, zoom, call, mbind, M_bind.
  destruct (take_fault_spec (io_fs io)) as (o & f & ->). destruct o; [done|]. by apply HP.
Qed.

Lemma file_len_hoare (P : Io → Prop) :
  (∀ io fs, P io → data_of (file_inode (io_file io)) fs = io_data io → P (set_io_fs fs io)) →
  hoare P file_len (λ r io, match r with Ok len => P io ∧ len = lenN (io_data io) | Err _ => True end).
Proof.
  intros HP. unfold file_len. eapply (hoare_bind _ _ (λ _, P)).
  - eapply hoare_consequence; [by apply hoare_call_io|done|]. by intros [[]|] io H.
  - intros [] io Hio. done.
Qed.

Lemma read_segment_header_inside allow recover cnt :
  hoare (λ _, True) (read_segment_header allow recover cnt)
    (λ r io, match r with Ok true => inside io | _ => True end).
Proof.
  intros io _. unfold read_segment_header. unfold mbind at 1, M_bind at 1.
  destruct (file_seek 0 io) as [[[]|e] io1]; [|done].
  unfold mbind at 1, M_bind at 1.
  pose proof (file_len_hoare (λ _, True) ltac:(done) io1 I) as Hl.
  destruct (file_len io1) as [[len|e] io2]; [|done]. destruct Hl as [_ ->].
  destruct (_ =? 0); [by destruct allow|].
  destruct (lenN (io_data io2) <? SEGMENT_FILE_HEADER_LEN).
  - destruct (allow && recover); [|destruct allow; [by destruct cnt|done]].
    unfold mbind, M_bind.
    destruct ((if cnt then io_count replay_truncated else mret ()) io2) as [[[]|e] io3]; [|done].
    destruct (file_set_len 0 io3) as [[[]|e] io4]; [|done].
    by destruct (file_seek 0 io4) as [[[]|e] io5].
  - unfold mbind, M_bind.
    pose proof (file_read_exact_took SEGMENT_FILE_HEADER_LEN _ _ io2 (conj eq_refl eq_refl)) as Ht.
    destruct (file_read_exact _ io2) as [[magic|e] io3]; [|done]. destruct Ht as (_ & Hle & Hd & Hp).
    destruct (negb _); [done|]. unfold mret, M_ret, inside. rewrite Hd, Hp.
    change SEGMENT_FILE_HEADER_LEN with 4 in *. lia.
Qed.

(** ** The functions over segments *)

Lemma ends_scan_segment path allow : ends (scan_segment path allow).
Proof.
  unfold scan_segment. apply ends_bind; [solve_ends|]. intros f. apply ends_with_file.
  intros io. unfold mbind at 1, M_bind at 1.
  pose proof (ends_read_segment_header allow true true io) as He.
  pose proof (read_segment_header_inside allow true true io I) as Hi.
  destruct (read_segment_header _ _ _ io) as [[[]|e] io1]; [|done|by eapply not_fuel_err].
  cbn [negb]. unfold mbind, M_bind. pose proof (ends_file_len io1) as Hel.
  pose proof (file_len_hoare inside ltac:(intros ? fs H Hd; unfold inside, io_data in *; cbn; by rewrite Hd) io1 Hi) as Hl.
  destruct (file_len io1) as [[len|e] io2]; [|by eapply not_fuel_err].
  destruct Hl as [Hin ->]. by apply scan_loop_ends.
Qed.

Section records.
Context {A : Type}.

(** The code after a record leaves the file alone. *)
Definition handler_ends (handle : N → list byte → M (Io * A) ()) : Prop :=
  ∀ start body io a, let '(r, (io', _)) := handle start body (io, a) in
    not_fuel r ∧ io_data io' = io_data io ∧ file_pos (io_file io') = file_pos (io_file io).

Lemma on_io_eq {B} (m : M Io B) io (a : A) : on_io m (io, a) = let '(r, io') := m io in (r, (io', a)).
Proof. done. Qed.

Lemma read_records_ends allow recover len handle io a :
  handler_ends handle → within len io → not_fuel (read_records allow recover len handle (io, a)).1.
Proof.
  intros Hh Hw. unfold read_records.
  apply (loop_ends (λ s, within len s.1) (λ s, frames_left s.1)); [|done|by apply frames_left_fuel].
  clear io a Hw. intros [io a] [Hl Hp]. cbn [fst] in *. unfold records_turn.
  unfold mbind at 1, M_bind at 1. rewrite on_io_eq.
  pose proof (hoare_no_call (io_data io) (file_pos (io_file io)) io ltac:(done)) as Hc.
  unfold file_stream_position. unfold mbind at 1, M_bind at 1.
  destruct (io_call (call (mret ())) io) as [[[]|e] io1]; [|by split; [intros [= ->]; apply Hc|]].
  unfold get_state, mret at 1, M_ret at 1. unfold mbind at 1, M_bind at 1. unfold mbind at 1, M_bind at 1.
  rewrite on_io_eq. pose proof (read_record_body_taken true _ _ io1 Hc) as Hs.
  destruct (read_record_body true io1) as [[[body|]|e] io2].
  - destruct Hs as (q & Hpq & Hq & Hat). unfold mbind, M_bind.
    specialize (Hh (file_pos (io_file io1)) body io2 a).
    destruct (handle _ body (io2, a)) as [[[]|e] [io3 a3]]; destruct Hh as (Hr & Hd3 & Hp3).
    + split; [done|]. intros _. cbn [fst]. destruct Hat as [Hd Hpos].
      assert (Hat3 : file_at (io_data io) q io3) by (split; congruence).
      split; [split; [by rewrite Hd3, Hd|rewrite Hp3, Hpos; lia]|exact (frames_left_lt _ _ q io io3 (conj eq_refl eq_refl) Hat3 Hpq Hq)].
    + split; [by eapply not_fuel_err|done].
  - unfold mbind, M_bind. rewrite on_io_eq.
    pose proof (ends_finish_records allow recover (file_pos (io_file io1)) len io2) as Hf.
    destruct (finish_records _ _ _ _ io2) as [[[]|e] io3]; split; try done; by eapply not_fuel_err.
  - split; [|done]. intros [= ->]. by apply Hs.
Qed.

(** Opening a segment and working on its records. *)
Lemma ends_with_segment segment allow recover (m : N → M (Io * A) ()) :
  (∀ len io a, within len io → not_fuel (m len (io, a)).1) →
  ends (with_segment segment allow recover m).
Proof.
  intros Hm. unfold with_segment. apply ends_bind; [unfold on_files; solve_ends|].
  intros f [w a]. unfold with_file_acc. cbn [fst snd].
  set (io := mkIo _ _ f). unfold mbind at 1, M_bind at 1. rewrite on_io_eq.
  pose proof (ends_read_segment_header allow recover true io) as He.
  pose proof (read_segment_header_inside allow recover true io I) as Hi.
  destruct (read_segment_header _ _ _ io) as [[[]|e] io1]; [|done|by eapply not_fuel_err].
  cbn [negb]. unfold mbind, M_bind. rewrite on_io_eq. pose proof (ends_file_len io1) as Hel.
  pose proof (file_len_hoare inside ltac:(intros ? fs H Hd; unfold inside, io_data in *; cbn; by rewrite Hd) io1 Hi) as Hl.
  destruct (file_len io1) as [[len|e] io2]; [|by eapply not_fuel_err].
  destruct Hl as [Hin ->]. specialize (Hm (lenN (io_data io2)) io2 a ltac:(done)).
  by destruct (m _ (io2, a)) as [r [io3 a3]].
Qed.
End records.

(** ** The records *)

Section replay.
Context `{NL : NoraftLaws}.

Lemma check_all_kind {A} (check : A → result ()) xs :
  (∀ x, not_fuel (check x)) → not_fuel (check_all check xs).
Proof.
  intros Hc. induction xs as [|x xs IH]; [done|]. cbn. specialize (Hc x).
  destruct (check x) as [[]|e]; [exact IH|exact Hc].
Qed.

Lemma log_append_validate_ends a : not_fuel (log_append_validate a).
Proof.
  unfold log_append_validate.
  match goal with |- context [check_all ?f ?l] =>
    pose proof (check_all_kind f l ltac:(intros ?; cbv beta; by destruct (_ && _))) as H;
    destruct (check_all f l) as [[]|e]; [|exact H] end.
  apply check_all_kind. intros x. by case_bool_decide.
Qed.

Lemma ends_apply_append a : ends (apply_append_owned a).
Proof.
  unfold apply_append_owned. pose proof (ends_lift (S:=NodeState) _ (log_append_validate_ends a)).
  apply ends_bind; [done|]. intros _. cbv zeta. apply ends_bind; [solve_ends|]. intros s.
  destruct (log_append_suffix _ _) as [ok l]. solve_ends.
Qed.

Lemma ends_apply_snapshot s : ends (apply_snapshot s).
Proof.
  unfold apply_snapshot. apply ends_bind; [solve_ends|]. intros st.
  apply ends_bind; [|solve_ends]. apply ends_lift. unfold retained_log_entries_after_snapshot.
  by repeat case_match; intros [=].
Qed.

Lemma checkpoint_into_state_ends c : not_fuel (checkpoint_into_state c).
Proof.
  unfold checkpoint_into_state, checkpoint_validate.
  pose proof (log_append_validate_ends (checkpoint_suffix c)) as Hv.
  destruct (log_append_validate _) as [[]|e]; [|by eapply not_fuel_err].
  case_bool_decide; [by intros [=]|]. cbv zeta.
  match goal with |- context [?m node_state_default] => assert (Hb : ends m) end.
  { apply ends_bind; [unfold apply_current_term; solve_ends|]. intros _.
    apply ends_bind; [unfold apply_voted_for; solve_ends|]. intros _.
    apply ends_bind; [apply ends_apply_snapshot|]. intros _. apply ends_apply_append. }
  specialize (Hb node_state_default).
  match goal with |- context [?m node_state_default] => destruct (m node_state_default) as [[[]|e] s] end;
    [done|by eapply not_fuel_err].
Qed.

Lemma ends_apply_record r : ends (apply_record_to_state r).
Proof.
  destruct r as [t|v|a|c]; cbn [apply_record_to_state].
  - unfold apply_current_term. solve_ends.
  - unfold apply_voted_for. solve_ends.
  - apply ends_apply_append.
  - pose proof (ends_lift (S:=NodeState) _ (checkpoint_into_state_ends c)). solve_ends.
Qed.

Lemma ends_replay_apply nr : ends (replay_apply nr).
Proof.
  intros nodes. unfold replay_apply.
  pose proof (ends_apply_record (node_record nr) (default node_state_default (nodes !! record_node_id nr))) as H.
  by destruct (apply_record_to_state _ _).
Qed.

Lemma decode_node_record_ends body : not_fuel (decode_node_record body).
Proof.
  pose proof (decode_node_record_reads body) as H.
  destruct (decode_node_record body) as [nr|e]; [done|]. apply not_fuel_kind. by rewrite H.
Qed.

Lemma decode_record_node_id_ends body : not_fuel (decode_record_node_id body).
Proof.
  unfold decode_record_node_id, decode_node_id. pose proof (get_u64_reads (decoder_new body)) as H.
  destruct (get_u64 _) as [[n|e] d]; [done|]. apply not_fuel_kind. by rewrite H.
Qed.

Lemma frame_len_from_body_ends body : not_fuel (frame_len_from_body body).
Proof. unfold frame_len_from_body. by case_match; intros [=]. Qed.

(** ** The handlers *)

(** A handler made of steps on the accumulator and on the counters. *)
Definition step_ends {A B} (m : M (Io * A) B) : Prop :=
  ∀ io a, let '(r, (io', _)) := m (io, a) in
    not_fuel r ∧ io_data io' = io_data io ∧ file_pos (io_file io') = file_pos (io_file io).

Lemma step_ends_bind {A B C} (m : M (Io * A) B) (f : B → M (Io * A) C) :
  step_ends m → (∀ b, step_ends (f b)) → step_ends (m ≫= f).
Proof.
  intros Hm Hf io a. unfold mbind, M_bind. specialize (Hm io a).
  destruct (m (io, a)) as [[b|e] [io1 a1]]; destruct Hm as (Hr & Hd & Hp).
  - specialize (Hf b io1 a1). destruct (f b (io1, a1)) as [r [io2 a2]]. destruct Hf as (? & ? & ?).
    split; [done|]. split; congruence.
  - split; [by eapply not_fuel_err|done].
Qed.

Lemma step_ends_lift {A B} (r : result B) : not_fuel r → step_ends (A:=A) (lift_result r).
Proof. by intros Hr io a. Qed.

Lemma step_ends_ret {A B} (b : B) : step_ends (A:=A) (mret b).
Proof. by intros io a. Qed.

Lemma step_ends_acc {A B} (m : M A B) : ends m → step_ends (on_acc m).
Proof. intros Hm io a. unfold on_acc, zoom. cbn [snd]. specialize (Hm a). by destruct (m a). Qed.

Lemma step_ends_count {A} f : step_ends (A:=A) (on_io (io_count f)).
Proof. by intros io a. Qed.

#[local] Hint Resolve step_ends_lift step_ends_ret step_ends_acc step_ends_count decode_node_record_ends
  decode_record_node_id_ends frame_len_from_body_ends ends_replay_apply ends_apply_record ends_modify : ends.
#[local] Hint Extern 5 (step_ends (_ ≫= _)) => (apply step_ends_bind; [|intros ?]) : ends.
#[local] Hint Extern 6 (step_ends (if ?b then _ else _)) => destruct b : ends.
#[local] Hint Extern 7 (step_ends (let _ := _ in _)) => cbv zeta : ends.

Lemma handle_checkpoint_ends name filter : handler_ends (handle_checkpoint name filter).
Proof.
  intros start body. change (step_ends (handle_checkpoint name filter start body)).
  unfold handle_checkpoint. solve_ends.
Qed.

Lemma handle_replay_ends name filter positions : handler_ends (handle_replay name filter positions).
Proof.
  intros start body. change (step_ends (handle_replay name filter positions start body)).
  unfold handle_replay. solve_ends.
Qed.

Lemma handle_node_replay_ends name n position : handler_ends (handle_node_replay name n position).
Proof.
  intros start body. change (step_ends (handle_node_replay name n position start body)).
  unfold handle_node_replay. solve_ends.
Qed.

(** ** Replay and recovery *)

Lemma ends_replay_segment segment allow filter positions recover :
  ends (replay_segment segment allow filter positions recover).
Proof.
  apply ends_with_segment. intros len io a Hw. apply read_records_ends; [apply handle_replay_ends|done].
Qed.

Lemma ends_replay_node_segment segment allow n position recover :
  ends (replay_node_segment segment allow n position recover).
Proof.
  apply ends_with_segment. intros len io a Hw. apply read_records_ends; [apply handle_node_replay_ends|done].
Qed.

Lemma ends_scan_checkpoints segment allow filter start recover :
  ends (scan_checkpoint_positions segment allow filter start recover).
Proof.
  apply ends_with_segment. intros len io a [Hl Hp]. cbv zeta.
  set (o := default SEGMENT_FILE_HEADER_LEN start). destruct (o <? SEGMENT_FILE_HEADER_LEN); [by intros [=]|].
  destruct (N.ltb_spec len o) as [|Ho]; [by intros [=]|].
  unfold mbind, M_bind. rewrite on_io_eq. unfold file_seek. unfold mbind, M_bind.
  pose proof (hoare_no_call (io_data io) (file_pos (io_file io)) io ltac:(done)) as Hc.
  destruct (io_call (call (mret ())) io) as [[[]|e] io1]; [|intros [= ->]; by apply Hc].
  unfold modify. destruct Hc as [Hd _]. apply read_records_ends; [apply handle_checkpoint_ends|].
  split; [|exact Ho]. rewrite <-Hl, <-Hd. done.
Qed.

Lemma ends_for_segments {A} (segments : list SegmentPath) (skip : SegmentPath → bool)
  (f : SegmentPath → M (World * A) ()) :
  (∀ p, ends (f p)) → ends (for_each segments (λ p, if skip p then mret () else f p)).
Proof. intros Hf. apply ends_for_each. intros p. destruct (skip p); [apply ends_ret|apply Hf]. Qed.

Lemma ends_find_checkpoints active filter start recover :
  ends (find_checkpoint_positions_from active filter start recover).
Proof.
  unfold find_checkpoint_positions_from. apply ends_bind; [apply ends_discover|]. intros segments. cbv zeta.
  apply ends_with_local, ends_for_segments. intros p. apply ends_scan_checkpoints.
Qed.

Lemma ends_replay_node_state active n hint recover : ends (replay_node_state active n hint recover).
Proof.
  unfold replay_node_state. cbv zeta. apply ends_bind; [apply ends_find_checkpoints|]. intros ps.
  apply ends_bind; [apply ends_discover|]. intros segments. cbv zeta.
  apply ends_with_local, ends_for_segments. intros p. apply ends_replay_node_segment.
Qed.

Lemma ends_replay_storage_dir active filter hints recover : ends (replay_storage_dir active filter hints recover).
Proof.
  unfold replay_storage_dir. apply ends_bind.
  - unfold checkpoint_positions_for_replay, find_checkpoint_positions. pose proof ends_find_checkpoints.
    destruct hints as [ps|]; [destruct (min_position ps)|]; solve_ends.
  - intros [ps start]. apply ends_bind; [apply ends_discover|]. intros segments. cbv zeta.
    apply ends_with_local, ends_for_segments. intros p. apply ends_replay_segment.
Qed.

Lemma ends_recover_storage_dir active : ends (recover_storage_dir active).
Proof.
  unfold recover_storage_dir. pose proof ends_scan_segment. solve_ends.
Qed.

(** ** Metadata files *)

Lemma ends_load_text path : ends (load_text path).
Proof. unfold load_text, file_read_to_string. solve_ends. Qed.

Lemma ends_read_record_body cnt : ends (read_record_body cnt).
Proof.
  intros io. pose proof (read_record_body_taken cnt _ _ io (conj eq_refl eq_refl)) as H.
  destruct (read_record_body cnt io) as [[]]; [done|]. intros [= ->]. by apply H.
Qed.

Lemma ends_validate_position n p : ends (validate_checkpoint_position n p).
Proof.
  unfold validate_checkpoint_position, segment_file_exists. pose proof ends_read_record_body.
  pose proof (λ b, ends_lift (S:=Io) _ (decode_node_record_ends b)). solve_ends.
Qed.

Lemma ends_open_active name : ends (open_active_segment_file name).
Proof. unfold open_active_segment_file, with_file_kept. solve_ends. Qed.

Lemma ends_writer_open active max_len : ends (segment_writer_open active max_len).
Proof.
  unfold segment_writer_open, sync_parent_dir, with_file_kept. pose proof ends_open_active. solve_ends.
Qed.

Context `{NJ : Nojson}.

Lemma ends_registry_load : ends registry_load.
Proof. unfold registry_load. pose proof ends_load_text. solve_ends. Qed.

Lemma ends_index_load reg : ends (index_load reg).
Proof.
  unfold index_load, validate_checkpoint_positions. pose proof ends_load_text.
  pose proof ends_validate_position. solve_ends.
Qed.

(** ** The engine *)

Lemma ends_create_dir : ends create_dir_all_synced.
Proof. unfold create_dir_all_synced, root_exists, create_dir_all, sync_root_parent. solve_ends. Qed.

Lemma ends_write_lock : ends acquire_write_lock.
Proof. unfold acquire_write_lock. solve_ends. Qed.

Lemma ends_open max_len : ends (with_max_segment_len max_len).
Proof.
  unfold with_max_segment_len. destruct (_ =? 0); [solve_ends|].
  pose proof ends_create_dir. pose proof ends_write_lock. pose proof ends_recover_storage_dir.
  pose proof ends_registry_load. pose proof ends_index_load. pose proof ends_writer_open. solve_ends.
Qed.

Lemma ends_ensure n op : ends (engine_ensure_node_exists n op).
Proof. unfold engine_ensure_node_exists, get_engine, count, es_on_world. solve_ends. Qed.

Lemma ends_engine_load n : ends (engine_load n).
Proof.
  unfold engine_load, get_engine, es_on_world. pose proof ends_ensure. pose proof ends_replay_node_state. solve_ends.
Qed.

Lemma ends_engine_load_all : ends engine_load_all.
Proof.
  unfold engine_load_all, get_engine, es_on_world. pose proof ends_replay_storage_dir. solve_ends.
Qed.

Lemma ends_read_only_open : ends read_only_open.
Proof.
  unfold read_only_open, root_is_dir. pose proof ends_registry_load. pose proof ends_index_load. solve_ends.
Qed.

Lemma ends_own {A} (m : M World A) : ends m → ends (own_metrics m).
Proof.
  intros Hm w. unfold own_metrics. specialize (Hm (mkWorld (w_fs w) metrics_default)).
  by destruct (m _).
Qed.

Lemma ends_load n : ends (load n).
Proof.
  apply ends_own. unfold read_only_load. pose proof ends_read_only_open. pose proof ends_replay_node_state.
  assert (∀ r, ends (S:=World) (lift_result (ensure_node_exists r n))).
  { intros r. apply ends_lift. unfold ensure_node_exists. by repeat case_match; intros [=]. }
  solve_ends.
Qed.

Lemma ends_load_all : ends load_all.
Proof.
  apply ends_own. unfold read_only_load_all. pose proof ends_read_only_open. pose proof ends_replay_storage_dir. solve_ends.
Qed.

(** [C39] The loops over the segments stop.  Whatever the directory holds and
    whichever calls fail, opening it, loading one node or all nodes, through
    the engine or read-only, comes to a result without using up the turns that
    the model allows its loops: a turn that goes on has consumed a frame of the
    file. *)
Theorem segment_loops_terminate max_len n :
  (∀ w, not_fuel (with_max_segment_len max_len w).1) ∧
  (∀ s, not_fuel (engine_load n s).1) ∧ (∀ s, not_fuel (engine_load_all s).1) ∧
  (∀ w, not_fuel (load n w).1) ∧ (∀ w, not_fuel (load_all w).1).
Proof.
  split; [apply ends_open|]. split; [apply ends_engine_load|]. split; [apply ends_engine_load_all|].
  split; [apply ends_load|apply ends_load_all].
Qed.
End replay.

(** ** Witness *)

Section witness.
#[local] Existing Instance ListLog.instance.
#[local] Existing Instance ListLog.laws.

(** A directory whose segment is a header and a stray byte, while the third call fails. *)
Definition stray_world : World :=
  mkWorld (set_faults [None; None; Some 0]
    (update_data 1 (SEGMENT_FORMAT_MAGIC ++ [Byte.x07]) (set_locks ∅ fresh_fs))) metrics_default.

Lemma segment_loops_terminate_witness :
  not_fuel (with_max_segment_len 1000 stray_world).1 ∧ not_fuel (load_all stray_world).1.
Proof.
  destruct (segment_loops_terminate 1000 7) as (H1 & _ & _ & _ & H2). split; [apply H1|apply H2].
Defined.
End witness.
