(* ===== verification/FuzzTarget.v ===== *)
(** * The fuzz target, [fuzz/fuzz_targets/fuzz_segment.rs]

    What the fuzzer runs on arbitrary bytes.  The segments it builds around a
    body hold exactly that body as a record, so the fuzzed body reaches the
    decoder; that opening and loading stop on any bytes is in [Termination].
    Each segment has a temporary directory of its own, which is gone afterwards. *)
From Stdlib Require Import Strings.Byte Strings.String.
From S2P Require Import Prelude Metrics Fs Text Json Noraft State Crc32c Codec Format.
From S2P Require Import Frame Segment Replay Registry Checkpoint Engine Recovery.

Definition SEGMENT_FILE_NAME : string := "append-0.segment".

(** The registry that the target writes: node 1, not removed.  The quotes of
    the text are written as bytes. *)
Definition quote : list byte := [Byte.x22].
Definition text (s : string) : list byte := list_byte_of_string s.
Definition NODE_REGISTRY : list byte :=
  text "{" ++ quote ++ text "version" ++ quote ++ text ":1," ++ quote ++ text "nodes" ++ quote ++
  text ":{" ++ quote ++ text "1" ++ quote ++ text ":{" ++ quote ++ text "startup" ++ quote ++
  text ":true," ++ quote ++ text "metadata" ++ quote ++ text ":{}," ++ quote ++ text "removed" ++
  quote ++ text ":false}}}".

(** [crc32c] of the target, bit by bit. *)
Definition fuzz_crc_bit (crc : N) : N :=
  if N.land crc 1 =? 0 then N.shiftr crc 1 else N.lxor (N.shiftr crc 1) 0x82F63B78.
Definition fuzz_crc32c (bytes : list byte) : N :=
  N.lxor (foldl (λ crc b, Nat.iter 8 fuzz_crc_bit (N.lxor crc (byte_to_N b))) (N.ones 32) bytes) (N.ones 32).

(** [segment_file_with_record]. *)
Definition segment_file_with_record (body : list byte) : option (list byte) :=
  body_len ← u32_try_from (lenN body);
  Some (SEGMENT_FORMAT_MAGIC ++ le_bytes 4 body_len ++ le_bytes 4 (fuzz_crc32c body) ++ body).

(** [std::fs::write]. *)
Definition write_options : OpenOptions := mkOpenOptions true false true true false.
Definition fs_write (path : string) (contents : list byte) : M World () :=
  file ← w_call (fs_open path write_options);
  with_file file (file_write_all contents).

(** ** The directory for temporary files *)

(** What a path in [std::env::temp_dir] names. *)
Inductive TempEntry := TempDirectory (contents : Fs) | TempOther.

(** The static counter [NEXT_ID] and the entries; the outcomes of the calls on
    the entries are taken like those of [Fs], and each directory that is created
    brings the outcomes of the calls in it. *)
Record Temp := mkTemp {
  temp_next_id : N;
  temp_entries : gmap string TempEntry;
  temp_faults : list (option N);
  temp_dir_faults : list (list (option N));
}.

Definition set_temp_entries (e : gmap string TempEntry) (t : Temp) : Temp :=
  mkTemp (temp_next_id t) e (temp_faults t) (temp_dir_faults t).

Definition temp_outcome : M Temp (option N) := λ t,
  match temp_faults t with
  | [] => (Ok None, t)
  | outcome :: rest => (Ok outcome, mkTemp (temp_next_id t) (temp_entries t) rest (temp_dir_faults t))
  end.

(** [NEXT_ID.fetch_add(1, Ordering::Relaxed)]. *)
Definition fetch_add_next_id : M Temp N := λ t,
  (Ok (temp_next_id t),
   mkTemp ((temp_next_id t + 1) mod U64_LIMIT) (temp_entries t) (temp_faults t) (temp_dir_faults t)).

(** [std::fs::remove_dir_all]; a failure may have removed some of the files. *)
Definition remove_dir_all (path : string) : M Temp () :=
  outcome ← temp_outcome;
  t ← get_state;
  match temp_entries t !! path, outcome with
  | Some (TempDirectory fs), None => modify (set_temp_entries (delete path (temp_entries t)))
  | Some (TempDirectory fs), Some k =>
      let rest := list_to_map (drop (N.to_nat k) (map_to_list (fs_entries fs))) in
      modify (set_temp_entries (<[path := TempDirectory (update_entries rest fs)]> (temp_entries t))) ;;
      throw (os_error OtherError)
  | _, Some _ => throw (os_error OtherError)
  | Some TempOther, None => throw (os_error NotADirectory)
  | None, None => throw (os_error NotFound)
  end.

(** A new directory. *)
Definition empty_dir (faults : list (option N)) : Fs := mkFs RootDir true false ∅ [] ∅ 0 ∅ faults.

(** [std::fs::create_dir]. *)
Definition create_dir (path : string) : M Temp () :=
  outcome ← temp_outcome;
  t ← get_state;
  match outcome, temp_entries t !! path with
  | Some _, _ => throw (os_error OtherError)
  | None, Some _ => throw (os_error AlreadyExists)
  | None, None =>
      let dir := empty_dir (default [] (head (temp_dir_faults t))) in
      modify (λ t, mkTemp (temp_next_id t) (<[path := TempDirectory dir]> (temp_entries t))
                          (temp_faults t) (tail (temp_dir_faults t)))
  end.

(** Work in the directory at [path]. *)
Definition at_path (path : string) (m : M World ()) : M Temp () := λ t,
  match temp_entries t !! path with
  | Some (TempDirectory fs) =>
      let '(r, w) := m (mkWorld fs metrics_default) in
      (r, set_temp_entries (<[path := TempDirectory (w_fs w)]> (temp_entries t)) t)
  | _ => (Err (os_error NotFound), t)
  end.

Section target.
Context `{Nojson} `{Noraft}.

(** [std::process::id()]. *)
Context (process_id : N).

(** [TempDir] is its path. *)
Definition temp_dir_path (id : N) : string :=
  "sukari-fuzz-segment-" +:+ u64_to_string process_id +:+ "-" +:+ u64_to_string id.

(** [TempDir::new]. *)
Definition temp_dir_new : M Temp (option string) :=
  id ← fetch_add_next_id;
  let path := temp_dir_path id in
  let create :=
    r ← try_catch (create_dir path);
    match r with Err _ => mret None | Ok _ => mret (Some path) end in
  r ← try_catch (remove_dir_all path);
  match r with
  | Ok _ => create
  | Err e => if bool_decide (error_kind e = NotFound) then create else mret None
  end.

(** [TempDir::drop]. *)
Definition temp_dir_drop (path : string) : M Temp () :=
  try_catch (remove_dir_all path) ;; mret ().

(** [let _ = engine.load_all();], then the engine is dropped. *)
Definition load_and_drop (e : StorageEngine) : M World () := λ w,
  (Ok (), engine_drop (engine_load_all (mkEngineState w e)).2).

(** [exercise_segment] in its temporary directory. *)
Definition exercise_in_dir (segment : list byte) : M World () :=
  r ← try_catch (fs_write NODE_REGISTRY_FILE_NAME NODE_REGISTRY);
  match r with
  | Err _ => mret ()
  | Ok _ =>
      r ← try_catch (fs_write SEGMENT_FILE_NAME segment);
      match r with
      | Err _ => mret ()
      | Ok _ =>
          engine ← try_catch engine_new;
          match engine with
          | Err _ => mret ()
          | Ok e => load_and_drop e
          end
      end
  end.

(** [exercise_segment]; the directory is dropped on every return. *)
Definition exercise_segment (segment : list byte) : M Temp () :=
  dir ← temp_dir_new;
  match dir with
  | None => mret ()
  | Some path => at_path path (exercise_in_dir segment) ;; temp_dir_drop path
  end.

Definition exercise_record (body : list byte) : M Temp () :=
  match segment_file_with_record body with
  | Some segment => exercise_segment segment
  | None => mret ()
  end.

(** The closure of [fuzz_target!]. *)
Definition fuzz_target (data : list byte) : M Temp () :=
  exercise_segment data ;;
  exercise_record (le_bytes 8 1 ++ data) ;;
  exercise_record data.

(** ** Cleaning up *)

(** The target itself never fails. *)
Lemma exercise_in_dir_ok segment w : (exercise_in_dir segment w).1 = Ok ().
Proof.
  unfold exercise_in_dir, try_catch. unfold mbind, M_bind at 1.
  destruct (fs_write _ _ w) as [[[]|e] w1]; [|done]. unfold mbind, M_bind at 1.
  destruct (fs_write _ _ w1) as [[[]|e] w2]; [|done]. unfold mbind, M_bind at 1.
  by destruct (engine_new w2) as [[eng|e] w3].
Qed.

Lemma remove_dir_all_run path t :
  temp_faults t = [] →
  remove_dir_all path t =
    match temp_entries t !! path with
    | Some (TempDirectory _) => (Ok (), set_temp_entries (delete path (temp_entries t)) t)
    | Some TempOther => (Err (os_error NotADirectory), t)
    | None => (Err (os_error NotFound), t)
    end.
Proof.
  intros Hf. unfold remove_dir_all, temp_outcome, mbind, M_bind. rewrite Hf. cbn.
  by destruct (temp_entries t !! path) as [[fs|]|].
Qed.

(** The state with a new directory. *)
Definition with_new_dir (path : string) (t : Temp) : Temp :=
  mkTemp ((temp_next_id t + 1) mod U64_LIMIT)
    (<[path := TempDirectory (empty_dir (default [] (head (temp_dir_faults t))))]> (temp_entries t)) []
    (tail (temp_dir_faults t)).

Lemma new_temp_dir_run path t :
  temp_faults t = [] → temp_entries t !! path = None →
  create_dir path t =
    (Ok (), mkTemp (temp_next_id t)
              (<[path := TempDirectory (empty_dir (default [] (head (temp_dir_faults t))))]> (temp_entries t)) []
              (tail (temp_dir_faults t))).
Proof.
  intros Hf E. unfold create_dir, temp_outcome, mbind, M_bind. rewrite Hf. cbn. rewrite E. unfold modify. by rewrite Hf.
Qed.

Lemma temp_dir_new_run t :
  temp_faults t = [] → temp_entries t !! temp_dir_path (temp_next_id t) ≠ Some TempOther →
  temp_dir_new t = (Ok (Some (temp_dir_path (temp_next_id t))), with_new_dir (temp_dir_path (temp_next_id t)) t).
Proof.
  destruct t as [n entries faults dirs]. cbn [temp_next_id temp_entries temp_faults]. intros -> Hother.
  unfold temp_dir_new. set (t1 := mkTemp ((n + 1) mod U64_LIMIT) entries [] dirs).
  rewrite (bind_ok fetch_add_next_id _ (mkTemp n entries [] dirs) n t1 eq_refl). cbv zeta. set (path := temp_dir_path n) in *.
  unfold mbind, M_bind at 1, try_catch at 1. rewrite remove_dir_all_run by done. cbn [t1 temp_entries].
  destruct (entries !! path) as [[fs|]|] eqn:E; [|done|].
  - unfold try_catch, mbind, M_bind. rewrite new_temp_dir_run; [|done|apply lookup_delete_eq].
    unfold with_new_dir. cbn [set_temp_entries temp_entries]. by rewrite insert_delete_eq.
  - rewrite bool_decide_eq_true_2 by done. unfold try_catch, mbind, M_bind. by rewrite new_temp_dir_run.
Qed.

(** However the calls in the directory turn out: when the directory can be
    made and removed, nothing is left of the run, nor of an earlier process with
    the same ID. *)
Lemma exercise_segment_cleans segment t :
  temp_faults t = [] → temp_entries t !! temp_dir_path (temp_next_id t) ≠ Some TempOther →
  exercise_segment segment t =
    (Ok (), mkTemp ((temp_next_id t + 1) mod U64_LIMIT)
                   (delete (temp_dir_path (temp_next_id t)) (temp_entries t)) []
                   (tail (temp_dir_faults t))).
Proof.
  intros Hf Hother. unfold exercise_segment. rewrite (bind_ok _ _ _ _ _ (temp_dir_new_run t Hf Hother)).
  set (path := temp_dir_path (temp_next_id t)). set (dir := empty_dir (default [] (head (temp_dir_faults t)))).
  pose proof (exercise_in_dir_ok segment (mkWorld dir metrics_default)) as Hok.
  assert (Hat : ∃ fs, at_path path (exercise_in_dir segment) (with_new_dir path t) =
    (Ok (), set_temp_entries (<[path := TempDirectory fs]> (temp_entries t)) (with_new_dir path t))).
  { unfold at_path. cbn [with_new_dir temp_entries]. rewrite lookup_insert_eq. fold dir.
    destruct (exercise_in_dir segment _) as [r w]. cbn in Hok. subst r. exists (w_fs w).
    by rewrite insert_insert_eq. }
  destruct Hat as [fs Hat]. rewrite (bind_ok _ _ _ _ _ Hat).
  unfold temp_dir_drop, mbind, M_bind, try_catch. rewrite remove_dir_all_run by done.
  cbn [set_temp_entries temp_entries]. rewrite lookup_insert_eq, delete_insert_eq. done.
Qed.

(** The target makes a directory for each of its two or three segments, and
    removes it. *)
Lemma fuzz_target_cleans data t :
  temp_faults t = [] → (∀ id, temp_entries t !! temp_dir_path id ≠ Some TempOther) →
  ∃ ids t', fuzz_target data t = (Ok (), t') ∧ (length ids ≤ 3)%nat ∧
    temp_entries t' = foldr (λ id, delete (temp_dir_path id)) (temp_entries t) ids ∧ temp_faults t' = [].
Proof.
  set (goal := λ (m : M Temp ()) (k : nat), ∀ t, temp_faults t = [] →
    (∀ id, temp_entries t !! temp_dir_path id ≠ Some TempOther) →
    ∃ ids t', m t = (Ok (), t') ∧ (length ids ≤ k)%nat ∧
      temp_entries t' = foldr (λ id, delete (temp_dir_path id)) (temp_entries t) ids ∧ temp_faults t' = []).
  assert (Hseg : ∀ segment, goal (exercise_segment segment) 1%nat).
  { intros segment t1 Hf Ho. rewrite (exercise_segment_cleans segment t1 Hf (Ho _)).
    by exists [temp_next_id t1], (mkTemp ((temp_next_id t1 + 1) mod U64_LIMIT)
      (delete (temp_dir_path (temp_next_id t1)) (temp_entries t1)) [] (tail (temp_dir_faults t1))). }
  assert (Hrec : ∀ body, goal (exercise_record body) 1%nat).
  { intros body t1 Hf Ho. unfold exercise_record. destruct (segment_file_with_record body); [by apply Hseg|].
    exists [], t1. split; [done|]. cbn. split; [lia|done]. }
  assert (Hbind : ∀ m1 m2 a b, goal m1 a → goal m2 b → goal (m1 ;; m2) (a + b)%nat).
  { intros m1 m2 a b H1 H2 t1 Hf Ho. destruct (H1 t1 Hf Ho) as (ids1 & t2 & E1 & Hl1 & He1 & Hf1).
    destruct (H2 t2 Hf1) as (ids2 & t3 & E2 & Hl2 & He2 & Hf2).
    { intros id. rewrite He1. clear -Ho. induction ids1 as [|i ids IH]; [apply Ho|]. cbn.
      rewrite lookup_delete. by case_decide. }
    exists (ids2 ++ ids1), t3. rewrite (bind_ok _ _ _ _ _ E1). split; [done|]. split; [rewrite length_app; lia|].
    split; [|done]. by rewrite He2, He1, foldr_app. }
  exact (Hbind _ _ 1%nat 2%nat (Hseg _) (Hbind _ _ 1%nat 1%nat (Hrec _) (Hrec _)) t).
Qed.
End target.

(** ** Lemmas *)

Lemma fuzz_crc32c_eq bytes : fuzz_crc32c bytes = crc32c bytes.
Proof. rewrite crc32c_reference. reflexivity. Qed.

(** A segment around a body holds exactly that body. *)
Lemma segment_file_with_record_data body s :
  segment_file_with_record body = Some s → s = segment_data [body] [].
Proof.
  unfold segment_file_with_record, u32_try_from. case_match; [|done]. cbn. intros [= <-].
  rewrite fuzz_crc32c_eq. unfold segment_data, frames_bytes, wire_frame. cbn.
  by rewrite <-crc32c_reference, !app_nil_r.
Qed.
