(* ===== verification/UnitTests.v ===== *)
(** * The unit tests of [codec.rs] and [crc32c.rs]

    The tests of the two modules as functions that say whether they pass, on the
    definitions of [Codec] and [Crc32c]: the model is run on what the sources are
    tested with. *)
From Stdlib Require Import Strings.Byte Strings.String.
From S2P Require Import Prelude Crc32c Codec.

(** ** [codec.rs] *)

Definition encoder_with_len_for_test (len : N) : Encoder := mkEncoder [] len.

(** [expect_err] with the kind of the error, and the two assertions on the
    encoder after it. *)
Definition rejected_at (len : N) (outcome : result () * Encoder) : bool :=
  match outcome.1 with
  | Ok _ => false
  | Err err => bool_decide (error_kind err = InvalidInput)
  end && bool_decide (enc_bytes outcome.2 = []) && (enc_len outcome.2 =? len).

Definition encoder_rejects_record_body_limit_before_integer_write : bool :=
  rejected_at MAX_RECORD_BODY_LEN
    (put_u8 Byte.x00 (encoder_with_len_for_test MAX_RECORD_BODY_LEN)).

Definition encoder_rejects_record_body_limit_before_byte_write : bool :=
  rejected_at (MAX_RECORD_BODY_LEN - 3)
    (put_bytes [] (encoder_with_len_for_test (MAX_RECORD_BODY_LEN - 3))).

Lemma codec_tests_pass :
  encoder_rejects_record_body_limit_before_integer_write = true ∧
  encoder_rejects_record_body_limit_before_byte_write = true.
Proof. by vm_compute. Qed.

(** ** [crc32c.rs] *)

Definition ascii (s : string) : list byte := list_byte_of_string s.

Definition known_vectors : bool :=
  (crc32c (ascii "") =? 0) && (crc32c (ascii "123456789") =? 0xE3069283) &&
  (crc32c (ascii "The quick brown fox jumps over the lazy dog") =? 0x22620404).

(** [(0..n).map(|i| (i % 251) as u8).collect()]. *)
Definition test_input (n : nat) : list byte :=
  (λ i, default Byte.x00 (Byte.of_N (N.of_nat i mod 251))) <$> seq 0 n.

(** [chunks(size)]; the fuel is the length of the input. *)
Fixpoint chunks_fuel (fuel size : nat) (input : list byte) : list (list byte) :=
  match fuel, input with
  | S fuel, _ :: _ => take size input :: chunks_fuel fuel size (drop size input)
  | _, _ => []
  end.
Definition chunks (size : nat) (input : list byte) : list (list byte) := chunks_fuel (length input) size input.

Definition streaming_equals_one_shot : bool :=
  let input := test_input (N.to_nat 10000) in
  let one_shot := crc32c input in
  let crc := foldl update crc_new (chunks 37 input) in
  value crc =? one_shot.

Definition fast_path_matches_byte_at_a_time : bool :=
  let input := test_input 512 in
  forallb (λ len, let data := take len input in crc32c data =? crc32c_byte_at_a_time data)
          (seq 0 (S (length input))).

Lemma known_vectors_pass : known_vectors = true.
Proof. by vm_compute. Qed.

Lemma streaming_passes : streaming_equals_one_shot = true.
Proof. by vm_compute. Qed.

Lemma fast_path_passes : fast_path_matches_byte_at_a_time = true.
Proof. by vm_compute. Qed.

(** What the second test samples holds for every input and every size. *)
Lemma chunks_concat size input : (0 < size)%nat → concat (chunks size input) = input.
Proof.
  intros Hs. unfold chunks.
  assert (H : ∀ fuel l, (length l ≤ fuel)%nat → concat (chunks_fuel fuel size l) = l); [|by apply H].
  induction fuel as [|fuel IH]; intros [|b l] Hl; [done|cbn in Hl; lia|done|].
  cbn [chunks_fuel concat]. rewrite IH, take_drop; [done|]. rewrite length_drop. cbn in Hl |- *. lia.
Qed.

Lemma streaming_any_chunks size input :
  (0 < size)%nat → value (foldl update crc_new (chunks size input)) = crc32c input.
Proof.
  intros Hs. rewrite <-(chunks_concat size input Hs) at 2. unfold crc32c. f_equal.
  pose proof crc_new_u32 as Hc. revert Hc. generalize (chunks size input) crc_new. clear.
  intros l. induction l as [|x l IH]; intros c Hc; cbn [foldl concat].
  - apply Crc32c_eq. by rewrite update_state.
  - rewrite IH by by apply update_u32. by apply update_app.
Qed.
