(* ===== verification/MetadataFaults.v ===== *)
(** * Replacing a metadata file is atomic

    [save_text] when its calls may fail, or the system crash, at any point. *)
From Stdlib Require Import Strings.Byte Strings.String.
From S2P Require Import Prelude Metrics Fs Text Json Noraft State Crc32c Codec Frame Segment.
From S2P Require Import Replay Recovery ReplayCorrect WriterCorrect MetadataCorrect Faults.
From S2P Require Import EngineExample.

(** The contents of a file of the directory. *)
Definition file_text (fs : Fs) (name : string) : option (list byte) :=
  match fs_entries fs !! name with Some (EntryFile i) => Some (data_of i fs) | _ => None end.

(** The file is the same after a crash: its name and contents are synced. *)
Definition settled (fs : Fs) (name : string) : Prop :=
  (∀ e, e ∈ fs_entries_unsynced fs → e !! name = fs_entries fs !! name) ∧
  (∀ i, fs_entries fs !! name = Some (EntryFile i) → i_unsynced (inode_of i fs) = []).

(** What may be found after the system stopped in state [fs]: [fs] itself when
    only the process died, or what a crash leaves. *)
Definition may_become (fs fs' : Fs) : Prop := fs' = fs ∨ crash fs fs'.

Section save.
Context (fs0 : Fs) (tmp path : string) (text : list byte).
Hypothesis Hwf : fs_wf fs0.
Hypothesis Hne : tmp ≠ path.
Hypothesis Hset : settled fs0 path.

(** The old file's inode is as it was. *)
Definition old_inode_kept (fs : Fs) : Prop :=
  ∀ j, fs_entries fs0 !! path = Some (EntryFile j) → inode_of j fs = inode_of j fs0.

Definition untouched (fs : Fs) : Prop :=
  (∀ e, e ∈ fs_entries fs :: fs_entries_unsynced fs → e !! path = fs_entries fs0 !! path) ∧
  old_inode_kept fs.

(** The temporary file is open on inode [i]. *)
Definition opened (i : N) (fs : Fs) : Prop :=
  untouched fs ∧ fs_entries fs !! tmp = Some (EntryFile i) ∧
  ∀ j, fs_entries fs0 !! path = Some (EntryFile j) → i ≠ j.

Definition renamed (i : N) (fs : Fs) : Prop :=
  (∀ e, e ∈ fs_entries fs :: fs_entries_unsynced fs →
     e !! path = fs_entries fs0 !! path ∨ e !! path = Some (EntryFile i)) ∧
  fs_entries fs !! path = Some (EntryFile i) ∧ old_inode_kept fs ∧ inode_of i fs = mkInode text [].

(** What holds when [save_text] returns. *)
Definition saved_or_not (r : result ()) (fs : Fs) : Prop :=
  match r with
  | Ok _ => ∃ i, renamed i fs ∧ fs_entries_unsynced fs = []
  | Err _ => untouched fs ∨ ∃ i, renamed i fs
  end.

Lemma inode_of_update i j d fs : i ≠ j → inode_of j (update_data i d fs) = inode_of j fs.
Proof. intros H. unfold inode_of, update_data. cbn. by rewrite lookup_insert_ne. Qed.

Lemma inode_of_sync i j fs : i ≠ j → inode_of j (sync_inode i fs) = inode_of j fs.
Proof. intros H. unfold inode_of, sync_inode. cbn. by rewrite lookup_insert_ne. Qed.

Lemma opened_update i d fs : opened i fs → opened i (update_data i d fs).
Proof.
  intros ((He & Hk) & Ht & Hi). split; [|done]. split; [done|].
  intros j Hj. rewrite inode_of_update by by apply Hi. by apply Hk.
Qed.

Lemma opened_sync i fs : opened i fs → opened i (sync_inode i fs).
Proof.
  intros ((He & Hk) & Ht & Hi). split; [|done]. split; [done|].
  intros j Hj. rewrite inode_of_sync by by apply Hi. by apply Hk.
Qed.

(** The start, before the outcome of the first call is taken. *)
Definition starting (fs : Fs) : Prop := ∃ f, fs = set_faults f fs0.

Lemma starting_untouched fs : starting fs → untouched fs.
Proof using Hset.
  intros [f ->]. split; [|done]. intros e He. cbn in He.
  apply elem_of_cons in He as [->|He]; [done|]. by apply Hset.
Qed.

Lemma open_hoare :
  hoare starting (fs_open tmp save_options)
    (λ r fs, match r with
             | Ok f => opened (file_inode f) fs ∧ data_of (file_inode f) fs = [] ∧
                       file_pos f = 0 ∧ file_writable f = true ∧ file_append f = false
             | Err _ => untouched fs
             end).
Proof using Hwf Hne Hset.
  unfold fs_open. apply hoare_call; [by intros fs f [f' ->]; exists f|by apply starting_untouched|].
  apply hoare_in_dir; [intros e; apply starting_untouched|].
  intros fs Hs. pose proof (starting_untouched fs Hs) as [He Hk]. destruct Hs as [f ->].
  unfold mbind, M_bind, get_state. cbn [fs_entries set_faults].
  destruct Hwf as [Hinj Hb]. destruct (fs_entries fs0 !! tmp) as [[i|]|] eqn:Et.
  - cbn. split; [|split; [by rewrite data_of_update_data, decide_True|done]].
    assert (Hi : ∀ j, fs_entries fs0 !! path = Some (EntryFile j) → i ≠ j).
    { intros j Hj ->. by apply Hne, (Hinj _ _ j). }
    apply opened_update. by split.
  - split; [exact He|exact Hk].
  - cbn. split; [|by unfold data_of, inode_of; cbn; rewrite lookup_insert_eq].
    split; [split|split].
    + cbn. intros e Hin. apply elem_of_cons in Hin as [->|Hin]; [by rewrite lookup_insert_ne|by apply He].
    + intros j Hj. rewrite <-Hk by done. unfold inode_of. cbn. rewrite lookup_insert_ne; [done|].
      apply Hb in Hj. lia.
    + cbn. by rewrite lookup_insert_eq.
    + intros j Hj. apply Hb in Hj. cbn. lia.
Qed.

Lemma opened_faults i f fs : opened i fs → opened i (set_faults f fs).
Proof. done. Qed.

Lemma write_hoare f :
  file_pos f = 0 → file_writable f = true → file_append f = false →
  hoare (λ io, (opened (file_inode f) (io_fs io) ∧ data_of (file_inode f) (io_fs io) = []) ∧ io_file io = f)
        (file_write_all text ;; file_sync)
        (λ r io, match r with
                 | Ok _ => opened (file_inode f) (io_fs io) ∧ inode_of (file_inode f) (io_fs io) = mkInode text []
                 | Err _ => untouched (io_fs io)
                 end).
Proof.
  intros Hpos Hw Ha. set (i := file_inode f).
  eapply (hoare_bind _ _ (λ _ io, (opened i (io_fs io) ∧ data_of i (io_fs io) = text) ∧ file_inode (io_file io) = i)).
  - intros [fs m f'] [[Hop Hd] Hf]. cbn [io_fs io_file] in *. subst f'.
    unfold file_write_all, mbind, M_bind, io_call, zoom. cbn [io_fs].
    destruct (take_fault_spec fs) as (o & fl & ->). unfold get_state, modify.
    cbn [io_file set_io_fs io_fs]. rewrite Hw, Ha. cbn [negb]. fold i.
    assert (Hdata : io_data (mkIo (set_faults fl fs) m f) = []) by exact Hd.
    unfold set_io_fs at 2 3 4. cbn [io_metrics io_fs io_file]. rewrite Hdata, Hpos, overwrite_empty.
    pose proof (opened_faults i fl _ Hop) as Hop'.
    destruct o as [k|]; cbn.
    + by apply (opened_update i (takeN k text)).
    + split; [|done]. split; [by apply opened_update|]. by rewrite data_of_update_data, decide_True.
  - intros []. eapply (hoare_bind _ _ (λ _ io, (opened i (io_fs io) ∧ data_of i (io_fs io) = text) ∧ file_inode (io_file io) = i)).
    + eapply hoare_consequence; [apply (hoare_io_call
        (λ fs, opened i fs ∧ data_of i fs = text) (λ f, file_inode f = i) _
        (λ r fs, match r with Ok _ => opened i fs ∧ data_of i fs = text | Err _ => untouched fs end))
        |intros io H; exact H|].
      * apply (hoare_call (λ fs, opened i fs ∧ data_of i fs = text) _
          (λ r fs, match r with Ok _ => opened i fs ∧ data_of i fs = text | Err _ => untouched fs end)).
        -- intros fs fl Hfs. exact Hfs.
        -- intros fs [Hfs _]. apply Hfs.
        -- by apply hoare_ret.
      * intros [[]|e] io Hio; [exact Hio|apply Hio].
    + intros []. apply hoare_modify. intros io [[Hop Hd] Hi]. cbn. rewrite Hi. split; [by apply opened_sync|].
      unfold inode_of, sync_inode. cbn. by rewrite lookup_insert_eq, Hd.
Qed.

Lemma rename_hoare i :
  hoare (λ fs, opened i fs ∧ inode_of i fs = mkInode text []) (fs_rename tmp path)
        (λ r fs, match r with Ok _ => renamed i fs | Err _ => untouched fs end).
Proof.
  unfold fs_rename. apply hoare_call; [intros fs fl H; exact H|by intros fs [[? _] _]|].
  apply hoare_in_dir; [by intros e fs [[? _] _]|].
  intros fs [[[He Hk] [Ht Hi]] Hin]. unfold mbind, M_bind, get_state. rewrite Ht.
  pose proof (He _ (list_elem_of_here _ _)) as Hp. rewrite Hp.
  assert (Hren : renamed i (update_entries (<[path:=EntryFile i]> (delete tmp (fs_entries fs))) fs)).
  { split; [|split; [|by split]].
    - cbn. intros e. rewrite elem_of_cons. intros [->|Hin'].
      + right. apply lookup_insert_eq.
      + left. by apply He.
    - cbn. apply lookup_insert_eq. }
  destruct (fs_entries fs0 !! path) as [[|]|] eqn:E; [exact Hren|split; [|exact Hk]; by rewrite E|exact Hren].
Qed.

Lemma sync_dir_hoare i :
  hoare (renamed i) fs_sync_dir
        (λ r fs, match r with Ok _ => renamed i fs ∧ fs_entries_unsynced fs = [] | Err _ => renamed i fs end).
Proof.
  assert (Hst : stable (renamed i)) by (intros fs fl H; exact H).
  unfold fs_sync_dir. eapply (hoare_bind _ _ (λ _, renamed i)).
  - apply hoare_call; [exact Hst|done|]. apply hoare_in_dir; [done|]. by apply hoare_ret.
  - intros []. apply hoare_call; [exact Hst|done|]. apply hoare_modify.
    intros fs (He & Hp & Hr). split; [|done]. split; [|done].
    intros e Hin. apply list_elem_of_singleton in Hin as ->. by right.
Qed.

Lemma save_text_hoare :
  hoare (λ w, starting (w_fs w)) (save_text tmp path text) (λ r w, saved_or_not r (w_fs w)).
Proof using Hwf Hne Hset.
  unfold save_text. eapply hoare_bind.
  { eapply hoare_consequence; [apply (hoare_w_call _ _ _ open_hoare)|done|].
    intros [f|e] w Hw; [exact Hw|]. by left. }
  intros f w (Hop & Hd & Hpos & Hwr & Ha). revert w Hop Hd. 
  enough (H : hoare (λ w, opened (file_inode f) (w_fs w) ∧ data_of (file_inode f) (w_fs w) = [])
    (with_file f (file_write_all text ;; file_sync) ;; w_call (fs_rename tmp path) ;; w_call fs_sync_dir)
    (λ r w, saved_or_not r (w_fs w))) by (intros w Hop Hd; by apply H).
  eapply (hoare_bind _ _ (λ _ w, opened (file_inode f) (w_fs w) ∧ inode_of (file_inode f) (w_fs w) = mkInode text [])).
  { eapply hoare_consequence.
    - apply (hoare_with_file (λ fs, opened (file_inode f) fs ∧ data_of (file_inode f) fs = []) f _
        (λ r fs, match r with
                 | Ok _ => opened (file_inode f) fs ∧ inode_of (file_inode f) fs = mkInode text []
                 | Err _ => untouched fs
                 end)). by apply write_hoare.
    - done.
    - intros [[]|e] w Hw; [exact Hw|by left]. }
  intros []. eapply (hoare_bind _ _ (λ _ w, renamed (file_inode f) (w_fs w))).
  { eapply hoare_consequence; [apply (hoare_w_call _ _ _ (rename_hoare (file_inode f)))|done|].
    intros [[]|e] w Hw; [exact Hw|by left]. }
  intros []. eapply hoare_consequence; [apply (hoare_w_call _ _ _ (sync_dir_hoare (file_inode f)))|done|].
  intros [[]|e] w Hw; [by exists (file_inode f)|]. right. by exists (file_inode f).
Qed.

(** ** After a crash *)

Lemma file_text_old fs fs' :
  fs_entries fs' !! path = fs_entries fs0 !! path → old_inode_kept fs →
  (∀ i, i_unsynced (inode_of i fs) = [] → data_of i fs' = data_of i fs) →
  file_text fs' path = file_text fs0 path.
Proof using Hset.
  intros He Hk Hd. unfold file_text. rewrite He.
  destruct (fs_entries fs0 !! path) as [[i|]|] eqn:E; [|done|done].
  rewrite Hd; [unfold data_of; by rewrite Hk|]. rewrite Hk by done. by apply Hset.
Qed.

Lemma may_become_data fs fs' :
  may_become fs fs' →
  fs_entries fs' ∈ fs_entries fs :: fs_entries_unsynced fs ∧
  ∀ i, i_unsynced (inode_of i fs) = [] → data_of i fs' = data_of i fs.
Proof.
  intros [->|(_ & He & _ & Hd & _)]; [split; [by left|done]|]. split; [done|].
  intros i Hi. destruct (Hd i) as [Hv _]. by rewrite Hi in Hv.
Qed.

Lemma file_text_renamed i fs fs' :
  renamed i fs → may_become fs fs' →
  (file_text fs' path = file_text fs0 path ∨ file_text fs' path = Some text) ∧
  (fs_entries_unsynced fs = [] → file_text fs' path = Some text).
Proof using Hset.
  intros (He & Hp & Hk & Hi) [Hin Hd]%may_become_data.
  assert (Hnew : fs_entries fs' !! path = Some (EntryFile i) → file_text fs' path = Some text).
  { intros E. unfold file_text. rewrite E, Hd by by rewrite Hi. unfold data_of. by rewrite Hi. }
  split.
  - destruct (He _ Hin) as [E|E]; [left; by eapply file_text_old|right; by apply Hnew].
  - intros Hu. rewrite Hu in Hin. apply list_elem_of_singleton in Hin. apply Hnew. by rewrite Hin.
Qed.
End save.

(** [C11] Replacing a metadata file is atomic, whatever fails.  The calls of
    [save_text] (for [nodes.json] and [checkpoints.json]) may each succeed or
    fail, a write after any number of bytes; the process may die or the system
    crash at any point.  Then the file has its old contents or its new ones,
    and it has the new ones if [save_text] returned success. *)
Theorem metadata_save_is_atomic fs m tmp path text :
  fs_wf fs → tmp ≠ path → settled fs path →
  let '(r, w) := save_text tmp path text (mkWorld fs m) in
  ∀ fs', may_become (w_fs w) fs' →
    match r with
    | Ok _ => file_text fs' path = Some text
    | Err _ => file_text fs' path = file_text fs path ∨ file_text fs' path = Some text
    end.
Proof.
  intros Hwf Hne Hset.
  pose proof (save_text_hoare fs tmp path text Hwf Hne Hset (mkWorld fs m)) as H.
  destruct (save_text tmp path text (mkWorld fs m)) as [r w].
  assert (Hs : saved_or_not fs path text r (w_fs w)).
  { apply H. exists (fs_faults fs). by destruct fs. }
  intros fs' Hb. destruct r as [[]|e].
  - destruct Hs as (i & Hr & Hu). by eapply file_text_renamed.
  - destruct Hs as [[He Hk]|[i Hr]].
    + left. apply may_become_data in Hb as [Hin Hd]. eapply file_text_old; [done| |done|done]. by apply He.
    + by eapply file_text_renamed.
Qed.

(** ** Witnesses *)

(** A save that fails in the middle of its write, then a crash. *)
Lemma metadata_save_is_atomic_witness :
  let fs := set_faults [None; Some 2] fresh_fs in
  let '(r, w) := save_text "nodes.json.tmp" "nodes.json" [Byte.x01; Byte.x02; Byte.x03] (mkWorld fs metrics_default) in
  is_ok r = false ∧
  ∀ fs', crash (w_fs w) fs' →
    file_text fs' "nodes.json" = file_text fs "nodes.json" ∨
    file_text fs' "nodes.json" = Some [Byte.x01; Byte.x02; Byte.x03].
Proof.
  cbv zeta. pose proof (metadata_save_is_atomic (set_faults [None; Some 2] fresh_fs) metrics_default
    "nodes.json.tmp" "nodes.json" [Byte.x01; Byte.x02; Byte.x03] fresh_wf ltac:(discriminate)) as H.
  assert (Hok : is_ok (save_text "nodes.json.tmp" "nodes.json" [Byte.x01; Byte.x02; Byte.x03]
    (mkWorld (set_faults [None; Some 2] fresh_fs) metrics_default)).1 = false) by reflexivity.
  destruct (save_text _ _ _ _) as [r w]. cbn [fst] in Hok. split; [exact Hok|].
  destruct r as [|e]; [discriminate Hok|]. intros fs' Hc. apply H; [|right; exact Hc].
  split; [intros e' He'; apply elem_of_nil in He'; destruct He'|intros i Hi; discriminate Hi].
Defined.
