(* ===== verification/GcFaults.v ===== *)
(** * Garbage collection deletes only superseded segments

    [collect_garbage] when its calls may fail at any point. *)
From Stdlib Require Import Strings.Byte Strings.String.
From S2P Require Import Prelude Metrics Fs Text Json Noraft State Crc32c Codec Frame Segment.
From S2P Require Import Replay Registry Checkpoint Engine Recovery ReplayCorrect WriterCorrect.
From S2P Require Import MetadataCorrect EngineCorrect Faults.

Section gc.
Context `{NJ : Nojson} `{NR : Noraft}.

(** No record that an active node needs is in segment [seg]: the indexed
    checkpoint of every active node is in a later one. *)
Definition superseded (e : StorageEngine) (seg : SegmentName) : Prop :=
  ∀ n, is_active (engine_registry e) n = true →
    ∃ p, checkpoint_position (engine_index e) n = Some p ∧ name_lt seg (position_segment p).

(** [fs] is [fs0] without some superseded segments. *)
Definition only_superseded_deleted (e : StorageEngine) (fs0 fs : Fs) : Prop :=
  fs_root fs = fs_root fs0 ∧ fs_inodes fs = fs_inodes fs0 ∧
  ∀ name, fs_entries fs !! name = fs_entries fs0 !! name ∨
          fs_entries fs !! name = None ∧
          ∃ seg, parse_file_name name = Some seg ∧ seg ≠ active_segment (engine_writer e) ∧
                 superseded e seg.

Section state.
Context (e : StorageEngine) (fs0 : Fs).

Definition gc_kept (s : EngineState) : Prop :=
  es_engine s = e ∧ only_superseded_deleted e fs0 (w_fs (es_world s)).

Lemma only_superseded_stable : stable (only_superseded_deleted e fs0).
Proof. intros fs f H. exact H. Qed.

Lemma keeps_world {A} (op : M Fs A) :
  keeps (only_superseded_deleted e fs0) op → keeps gc_kept (es_on_world (w_call op)).
Proof.
  intros Hop [[fs m] e'] [He Hfs]. cbn in He, Hfs. unfold es_on_world, w_call, zoom. cbn [es_world w_fs].
  specialize (Hop fs Hfs). destruct (op fs) as [r fs']. by split.
Qed.

Lemma keeps_count f : keeps gc_kept (count f).
Proof. intros [[fs m] e'] H. exact H. Qed.

Lemma keeps_remove name seg :
  parse_file_name name = Some seg → seg ≠ active_segment (engine_writer e) → superseded e seg →
  keeps (only_superseded_deleted e fs0) (fs_remove_file name).
Proof.
  intros Hn Ha Hs. apply keeps_call; [apply only_superseded_stable|]. apply keeps_in_dir.
  intros fs (Hr & Hi & He). unfold mbind, M_bind, get_state.
  destruct (fs_entries fs !! name) as [[i|]|]; [|done|done]. split; [done|]. split; [done|].
  intros name'. cbn. rewrite lookup_delete. case_decide as E; [|by apply He]. subst name'. right. eauto.
Qed.

(** Discovery, with the segments that it returns. *)
Lemma discover_hoare :
  hoare gc_kept (es_on_world discover_segment_paths)
    (λ r s, gc_kept s ∧
       match r with Ok paths => ∀ p, p ∈ paths → parse_file_name (path_file p) = Some (path_name p) | _ => True end).
Proof.
  intros [[fs m] e'] [He Hfs]. cbn in He, Hfs. unfold es_on_world, zoom. cbn [es_world].
  assert (H : hoare (λ w, only_superseded_deleted e fs0 (w_fs w)) discover_segment_paths
    (λ r w, only_superseded_deleted e fs0 (w_fs w) ∧
       match r with Ok paths => ∀ p, p ∈ paths → parse_file_name (path_file p) = Some (path_name p) | _ => True end)).
  { unfold discover_segment_paths.
    eapply (hoare_bind _ _ (λ _ w, only_superseded_deleted e fs0 (w_fs w))).
    - apply hoare_try_catch. apply (hoare_w_call _ _ (λ _, only_superseded_deleted e fs0)).
      apply keeps_call; [apply only_superseded_stable|]. apply keeps_in_dir.
      intros fs1 H1. exact H1.
    - intros [entries|err].
      + eapply (hoare_bind _ _ (λ _ w, only_superseded_deleted e fs0 (w_fs w))).
        * eapply hoare_consequence; [apply (keeps_for_each (λ w, only_superseded_deleted e fs0 (w_fs w)))|done|].
          -- intros x. apply (hoare_w_call _ _ (λ _, only_superseded_deleted e fs0)).
             apply keeps_call; [apply only_superseded_stable|apply keeps_ret].
          -- intros [[]|] w Hw; [exact Hw|by split].
        * intros []. apply hoare_ret. intros w Hw. split; [exact Hw|].
          intros p Hp. rewrite merge_sort_Permutation in Hp. apply list_elem_of_omap in Hp as ([nm en] & _ & Hp).
          unfold segment_path_of in Hp. cbn [fst snd] in Hp. destruct en as [i|]; [|done].
          apply fmap_Some in Hp as (n & Hn & ->). exact Hn.
      + case_bool_decide; [apply hoare_ret|apply hoare_throw]; intros w Hw; (split; [exact Hw|]); [|done].
        intros p Hp. by apply elem_of_nil in Hp. }
  specialize (H (mkWorld fs m) Hfs). destruct (discover_segment_paths (mkWorld fs m)) as [r w'].
  destruct H as [H1 H2]. exact (conj (conj He H1) H2).
Qed.

Lemma keeps_delete_segments b paths k :
  (∀ p, p ∈ paths → parse_file_name (path_file p) = Some (path_name p)) →
  (∀ seg, allows_delete b seg = true → superseded e seg) →
  keeps gc_kept (delete_segments b (active_segment (engine_writer e)) paths k).
Proof.
  intros Hp Hb. revert k. induction paths as [|p paths IH]; intros k; [apply keeps_ret|].
  assert (IH' : ∀ k, keeps gc_kept (delete_segments b (active_segment (engine_writer e)) paths k))
    by (intros; apply IH; intros q Hq; apply Hp; by right).
  rewrite delete_segments_cons. destruct (deletable b _ (path_name p)) eqn:Ed; [|apply IH'].
  unfold deletable in Ed. apply andb_true_iff in Ed as [Ha Hd].
  apply negb_true_iff, bool_decide_eq_false in Ha.
  apply keeps_bind.
  - apply hoare_try_catch. apply keeps_world. eapply keeps_remove; [apply Hp; by left|done|by apply Hb].
  - intros [[]|err]; [apply IH'|]. case_bool_decide; [apply IH'|apply keeps_throw].
Qed.

Lemma keeps_collect_garbage : keeps gc_kept collect_garbage.
Proof.
  unfold collect_garbage. apply keeps_bind; [apply keeps_count|]. intros [].
  intros s Hs. unfold mbind at 1, M_bind at 1, get_engine, get_state, mbind at 1, M_bind at 1, mret at 1, M_ret.
  pose proof Hs as [He _]. rewrite He.
  destruct (gc_barrier (engine_index e) (active_node_ids (engine_registry e))) as [b|] eqn:Eb; [|exact Hs].
  apply gc_barrier_spec in Eb.
  assert (Hb : ∀ seg, allows_delete b seg = true → superseded e seg).
  { intros seg Hd n Hn. apply elem_of_active_node_ids in Hn. destruct b as [|bseg].
    - rewrite Eb in Hn. set_solver.
    - destruct (Eb n Hn) as (p & Hp & Hle). exists p. split; [done|].
      cbn in Hd. apply bool_decide_eq_true in Hd. unfold name_lt, name_le in *. lia. }
  revert s Hs He. enough (H : keeps gc_kept
    (segments ← es_on_world discover_segment_paths;
     deleted ← delete_segments b (active_segment (engine_writer e)) segments 0;
     (if negb (deleted =? 0) then count (gc_deleted_segments deleted) else mret ()) ;;
     if negb (deleted =? 0) then es_on_world (w_call fs_sync_dir) else mret ()))
    by (intros s Hs _; exact (H s Hs)).
  eapply (hoare_bind _ _ (λ paths s, gc_kept s ∧ ∀ p, p ∈ paths → parse_file_name (path_file p) = Some (path_name p))).
  { eapply hoare_consequence; [apply discover_hoare|done|]. intros [paths|err] s; [done|by intros [? _]]. }
  intros paths s [Hs Hp]. revert s Hs. apply keeps_bind; [by apply keeps_delete_segments|].
  intros deleted. apply keeps_bind; [destruct (negb _); [apply keeps_count|apply keeps_ret]|].
  intros []. destruct (negb _); [|apply keeps_ret]. apply keeps_world. unfold fs_sync_dir.
  apply keeps_bind; [|intros []]; (apply keeps_call; [apply only_superseded_stable|]).
  - apply keeps_in_dir, keeps_ret.
  - apply hoare_modify. intros fs H. exact H.
Qed.
End state.

(** [C12] Garbage collection is safe whatever fails: however its calls turn out,
    what it has done to the directory is to delete segments that are not the
    active one and lie before the indexed checkpoints of all active nodes.  No
    other file is deleted, no file is modified, and the engine is unchanged. *)
Theorem gc_deletes_only_superseded (s : EngineState) :
  let '(_, s') := collect_garbage s in
  es_engine s' = es_engine s ∧
  only_superseded_deleted (es_engine s) (w_fs (es_world s)) (w_fs (es_world s')).
Proof.
  pose proof (keeps_collect_garbage (es_engine s) (w_fs (es_world s)) s) as H.
  destruct (collect_garbage s) as [r s']. apply H. split; [done|]. split; [done|]. split; [done|]. by left.
Qed.
End gc.
