(* ===== verification/LoadCorrect.v ===== *)
(** * Loading metadata files

    What is saved is what is loaded, for the registry and for the checkpoint
    index, given the laws of the JSON library. *)
From Stdlib Require Import Strings.Byte Strings.String.
From S2P Require Import Prelude Metrics Fs Text Json Noraft State Crc32c Codec Format Frame.
From S2P Require Import Segment Replay Registry Checkpoint Engine Recovery ReplayCorrect.
From S2P Require Import WriterCorrect MetadataCorrect MetadataFaults.

(** ** The text of a file *)

Lemma file_read_to_string_run io :
  no_faults (io_fs io) → file_pos (io_file io) = 0 → utf8_valid (io_data io) = true →
  file_read_to_string io =
  (Ok (io_data io), set_io_file (seek_to (lenN (io_data io)) (io_file io)) io).
Proof.
  intros Hnf Hp Hu. unfold file_read_to_string.
  rewrite (bind_ok get_state _ io io io eq_refl).
  rewrite (bind_ok _ _ _ _ _ (file_take_read_to_end_run io Hnf _)).
  rewrite Hp, dropN_0, takeN_all by lia. rewrite Hu, N.add_0_l, N.min_id. done.
Qed.

Lemma load_text_missing fs m path :
  no_faults fs → fs_root fs = RootDir → fs_entries fs !! path = None →
  load_text path (mkWorld fs m) = (Ok None, mkWorld fs m).
Proof.
  intros Hnf Hr He. unfold load_text.
  erewrite (bind_ok (try_catch _)); [|unfold try_catch, w_call, zoom, fs_open; cbn [w_fs];
    rewrite call_none by done; unfold in_dir, mbind, M_bind, get_state; by rewrite Hr, He].
  done.
Qed.

Lemma load_text_run fs m path text :
  no_faults fs → fs_root fs = RootDir → file_text fs path = Some text → utf8_valid text = true →
  load_text path (mkWorld fs m) = (Ok (Some text), mkWorld fs m).
Proof.
  intros Hnf Hr Ht Hu. unfold file_text in Ht. destruct (fs_entries fs !! path) as [[i|]|] eqn:He; try done.
  injection Ht as <-. unfold load_text.
  assert (Hopen : try_catch (w_call (fs_open path open_read)) (mkWorld fs m) =
                  (Ok (Ok (mkFile i 0 false false)), mkWorld fs m)).
  { unfold try_catch, w_call, zoom, fs_open. cbn [w_fs]. rewrite call_none by done.
    unfold in_dir, mbind, M_bind, get_state. by rewrite Hr, He. }
  rewrite (bind_ok _ _ _ _ _ Hopen).
  rewrite (bind_ok _ _ _ (data_of i fs) (mkWorld fs m)); [done|].
  unfold with_file. cbn [w_fs w_metrics]. by rewrite file_read_to_string_run.
Qed.

Section json.
Context `{NL : NojsonLaws}.

(** ** The registry *)

(** The metadata of a node comes back without the white space around it. *)
Definition trim_entry (x : NodeRegistryEntry) : NodeRegistryEntry :=
  mkNodeRegistryEntry (mkNodeMetadata (startup (entry_metadata x)) (json_trim (metadata (entry_metadata x))))
    (entry_removed x).

Definition trim_registry (r : NodeRegistry) : NodeRegistry :=
  mkNodeRegistry (trim_entry <$> registry_nodes r).

Lemma parse_entry_represents v x :
  json_represents v (node_registry_entry_json x) → parse_node_registry_entry v = Some (trim_entry x).
Proof.
  intros Hv. assert (Hnd : NoDup ["startup"; "metadata"; "removed"]%string)
    by (apply (bool_decide_unpack _); vm_compute; done).
  unfold parse_node_registry_entry.
  destruct (member_of v _ 0 (KeyString "startup") _ Hv eq_refl Hnd) as (v1 & E1 & H1).
  destruct (member_of v _ 1 (KeyString "metadata") _ Hv eq_refl Hnd) as (v2 & E2 & H2).
  destruct (member_of v _ 2 (KeyString "removed") _ Hv eq_refl Hnd) as (v3 & E3 & H3).
  cbn [key_text] in *. rewrite E1. cbn [mbind option_bind].
  rewrite (represents_bool _ _ H1). cbn [mbind option_bind]. rewrite E2. cbn [mbind option_bind].
  rewrite (represents_raw _ _ H2). cbn [mbind option_bind]. rewrite E3. cbn [mbind option_bind].
  by rewrite (represents_bool _ _ H3).
Qed.

(** The map that a loop over the members of ["nodes"] builds. *)
Definition insert_all {V W} (f : V → W) (l : list (N * V)) (acc : gmap N W) : gmap N W :=
  foldl (λ acc p, <[p.1 := f p.2]> acc) acc l.

Lemma insert_all_lookup {V W} (f : V → W) l (acc : gmap N W) n :
  insert_all f l acc !! n =
  match list.last (filter (λ p, p.1 = n) l) with Some p => Some (f p.2) | None => acc !! n end.
Proof.
  revert acc. induction l as [|[k v] l IH]; intros acc; [done|].
  change (insert_all f ((k, v) :: l) acc) with (insert_all f l (<[k := f v]> acc)). rewrite IH, filter_cons. cbn [fst].
  case_decide as E.
  - subst k. rewrite last_cons. destruct (list.last _); [done|]. by rewrite lookup_insert_eq.
  - destruct (list.last _); [done|]. by rewrite lookup_insert_ne.
Qed.

Lemma insert_all_iter {V W} (f : V → W) (m : gmap N V) : insert_all f (btree_iter m) ∅ = f <$> m.
Proof.
  apply map_eq. intros n. rewrite insert_all_lookup, lookup_fmap, lookup_empty.
  destruct (list.last (filter (λ p, p.1 = n) (btree_iter m))) as [[k v]|] eqn:E.
  - apply last_Some_elem_of, list_elem_of_filter in E as [<- Hin].
    apply elem_of_btree_iter in Hin. cbn. by rewrite Hin.
  - apply last_None in E. destruct (m !! n) as [v|] eqn:Em; [|done].
    apply elem_of_btree_iter in Em.
    assert (Hin : (n, v) ∈ filter (λ p : N * V, p.1 = n) (btree_iter m)) by (by apply list_elem_of_filter).
    rewrite E in Hin. by apply elem_of_nil in Hin.
Qed.

Lemma parse_registry_nodes_run kvs (l : list (N * NodeRegistryEntry)) acc :
  Forall2 (λ kv (m : JsonKey * JsonDoc), to_unquoted_string_str kv.1 = Some (key_text m.1) ∧ json_represents kv.2 m.2) kvs
    ((λ p, (KeyU64 p.1, node_registry_entry_json p.2)) <$> l) →
  NoDup l.*1 → Forall (λ n, n < U64_LIMIT) l.*1 → (∀ n, n ∈ l.*1 → acc !! n = None) →
  parse_registry_nodes kvs acc = Some (insert_all trim_entry l acc).
Proof.
  revert kvs acc. induction l as [|[n x] l IH]; intros kvs acc Hkv Hnd Hb Hacc.
  { apply Forall2_nil_inv_r in Hkv as ->. done. }
  rewrite fmap_cons in Hkv. apply Forall2_cons_inv_r in Hkv as ([k v] & kvs' & [Hk Hv] & Hkvs & ->).
  rewrite fmap_cons in Hnd, Hb, Hacc. cbn [fst snd key_text] in *.
  apply list.NoDup_cons in Hnd as [Hn Hnd]. apply list.Forall_cons in Hb as [Hbn Hb].
  cbn [parse_registry_nodes]. rewrite Hk. cbn [mbind option_bind].
  rewrite parse_u64_to_string by done. cbn [mbind option_bind].
  rewrite (parse_entry_represents _ _ Hv). cbn [mbind option_bind]. unfold btree_insert.
  rewrite Hacc by by left. rewrite bool_decide_eq_false_2 by by intros [].
  rewrite IH; [done|done|done|done|]. intros n' Hn'. rewrite lookup_insert_ne by (by intros ->).
  apply Hacc. by right.
Qed.

Lemma btree_iter_keys_Forall {V} (P : N → Prop) (m : gmap N V) :
  map_Forall (λ n _, P n) m → Forall P (btree_iter m).*1.
Proof.
  intros Hm. rewrite list.Forall_forall. intros n ([k v] & -> & Hin)%list_elem_of_fmap.
  apply elem_of_btree_iter in Hin. by apply (Hm k v).
Qed.

Lemma parse_registry_represents v r :
  map_Forall (λ n _, n < U64_LIMIT) (registry_nodes r) →
  json_represents v (node_registry_json r) → parse_node_registry v = Some (trim_registry r).
Proof.
  intros Hb Hv. assert (Hnd : NoDup ["version"; "nodes"]%string)
    by (apply (bool_decide_unpack _); vm_compute; done).
  unfold parse_node_registry.
  destruct (member_of v _ 0 (KeyString "version") _ Hv eq_refl Hnd) as (v1 & E1 & H1).
  destruct (member_of v _ 1 (KeyString "nodes") _ Hv eq_refl Hnd) as (v2 & E2 & H2).
  cbn [key_text] in *. rewrite E1. cbn [mbind option_bind].
  rewrite (represents_u64 _ NODE_REGISTRY_VERSION eq_refl H1). cbn [mbind option_bind].
  rewrite N.eqb_refl. cbn [negb]. rewrite E2. cbn [mbind option_bind].
  apply represents_object in H2 as (kvs & -> & Hkvs). cbn [mbind option_bind].
  rewrite (parse_registry_nodes_run kvs (btree_iter (registry_nodes r)) ∅); [|done|apply btree_iter_NoDup|by apply btree_iter_keys_Forall|done].
  cbn [mbind option_bind]. by rewrite insert_all_iter.
Qed.

(** The documents of the registry. *)
Lemma registry_json_ok r : map_Forall (λ n _, n < U64_LIMIT) (registry_nodes r) → doc_ok (node_registry_json r).
Proof.
  intros Hb. split; [done|]. split; [done|]. split; [done|]. split; [|done]. apply doc_object_ok.
  apply list.Forall_fmap, list.Forall_forall. intros [n x] Hin. apply elem_of_btree_iter in Hin. split; [by apply (Hb n x)|].
  split; [done|]. split; [done|]. split; [done|]. split; [by eexists|by repeat split].
Qed.

(** [NodeRegistry::load] of a file that [NodeRegistry::save] wrote. *)
Lemma registry_load_run fs m r :
  no_faults fs → fs_root fs = RootDir → map_Forall (λ n _, n < U64_LIMIT) (registry_nodes r) →
  file_text fs NODE_REGISTRY_FILE_NAME = Some (format_node_registry r) →
  registry_load (mkWorld fs m) = (Ok (trim_registry r), mkWorld fs m).
Proof.
  intros Hnf Hr Hb Ht. destruct (json_display_parse (node_registry_json r) (registry_json_ok r Hb)) as (Hu & j & Hj & Hrep).
  unfold registry_load. rewrite (bind_ok _ _ _ _ _ (load_text_run fs m _ _ Hnf Hr Ht Hu)). cbv beta iota.
  unfold format_node_registry. rewrite Hj. by rewrite (parse_registry_represents _ r Hb Hrep).
Qed.
End json.

(** ** The checkpoint index *)

Section index.
Context `{NL : NojsonLaws}.

Definition index_entry_fit (x : CheckpointNodeIndex) : Prop :=
  segment_id (position_segment (checkpoint_position_of x)) < U64_LIMIT ∧
  position_offset (checkpoint_position_of x) < U64_LIMIT.

(** The index is made of machine integers. *)
Definition index_fit (x : CheckpointIndex) : Prop :=
  map_Forall (λ n e, n < U64_LIMIT ∧ index_entry_fit e) (index_nodes x).

Lemma parse_node_index_represents v x :
  index_entry_fit x → json_represents v (checkpoint_node_index_json x) →
  parse_checkpoint_node_index v = Some x.
Proof.
  intros [Hid Hoff] Hv. assert (Hnd : NoDup ["checkpoint_segment"; "checkpoint_offset"]%string)
    by (apply (bool_decide_unpack _); vm_compute; done).
  unfold parse_checkpoint_node_index.
  destruct (member_of v _ 0 (KeyString "checkpoint_segment") _ Hv eq_refl Hnd) as (v1 & E1 & H1).
  destruct (member_of v _ 1 (KeyString "checkpoint_offset") _ Hv eq_refl Hnd) as (v2 & E2 & H2).
  cbn [key_text] in *. rewrite E1. cbn [mbind option_bind].
  rewrite (represents_string _ _ H1). cbn [mbind option_bind].
  rewrite parse_file_name_print by done. cbn [mbind option_bind]. rewrite E2. cbn [mbind option_bind].
  rewrite (represents_u64 _ _ Hoff H2). by destruct x as [[]].
Qed.

Lemma parse_index_nodes_run kvs (l : list (N * CheckpointNodeIndex)) acc :
  Forall2 (λ kv (m : JsonKey * JsonDoc), to_unquoted_string_str kv.1 = Some (key_text m.1) ∧ json_represents kv.2 m.2) kvs
    ((λ p, (KeyU64 p.1, checkpoint_node_index_json p.2)) <$> l) →
  NoDup l.*1 → Forall (λ p, p.1 < U64_LIMIT ∧ index_entry_fit p.2) l → (∀ n, n ∈ l.*1 → acc !! n = None) →
  parse_index_nodes kvs acc = Some (insert_all id l acc).
Proof.
  revert kvs acc. induction l as [|[n x] l IH]; intros kvs acc Hkv Hnd Hb Hacc.
  { apply Forall2_nil_inv_r in Hkv as ->. done. }
  rewrite fmap_cons in Hkv. apply Forall2_cons_inv_r in Hkv as ([k v] & kvs' & [Hk Hv] & Hkvs & ->).
  rewrite fmap_cons in Hnd, Hacc. cbn [fst snd key_text] in *.
  apply list.NoDup_cons in Hnd as [Hn Hnd]. apply list.Forall_cons in Hb as [[Hbn Hx] Hb].
  cbn [parse_index_nodes]. rewrite Hk. cbn [mbind option_bind].
  rewrite parse_u64_to_string by done. cbn [mbind option_bind].
  rewrite (parse_node_index_represents v x Hx Hv). cbn [mbind option_bind]. unfold btree_insert.
  rewrite Hacc by by left. rewrite bool_decide_eq_false_2 by by intros [].
  rewrite IH; [done|done|done|done|]. intros n' Hn'. rewrite lookup_insert_ne by (by intros ->).
  apply Hacc. by right.
Qed.

Lemma parse_index_represents v x :
  index_fit x → json_represents v (checkpoint_index_json x) → parse_checkpoint_index v = Some x.
Proof.
  intros Hb Hv. assert (Hnd : NoDup ["version"; "nodes"]%string)
    by (apply (bool_decide_unpack _); vm_compute; done).
  unfold parse_checkpoint_index.
  destruct (member_of v _ 0 (KeyString "version") _ Hv eq_refl Hnd) as (v1 & E1 & H1).
  destruct (member_of v _ 1 (KeyString "nodes") _ Hv eq_refl Hnd) as (v2 & E2 & H2).
  cbn [key_text] in *. rewrite E1. cbn [mbind option_bind].
  rewrite (represents_u64 _ CHECKPOINT_INDEX_VERSION eq_refl H1). cbn [mbind option_bind].
  rewrite N.eqb_refl. cbn [negb]. rewrite E2. cbn [mbind option_bind].
  apply represents_object in H2 as (kvs & -> & Hkvs). cbn [mbind option_bind].
  rewrite (parse_index_nodes_run kvs (btree_iter (index_nodes x)) ∅); [|done|apply btree_iter_NoDup| |done].
  - cbn [mbind option_bind]. rewrite insert_all_iter, map_fmap_id. by destruct x.
  - rewrite list.Forall_forall. intros [n e] Hin. apply elem_of_btree_iter in Hin. exact (Hb n e Hin).
Qed.
End index.

(** ** Checking the index against the segments *)

Section validate.
Context `{NR : Noraft}.

(** The segments [segs] are files of the directory, complete or with torn ends. *)
Definition segments_held (fs : Fs) (segs : list segment_contents) : Prop :=
  no_faults fs ∧ fs_root fs = RootDir ∧
  ∀ seg, seg ∈ segs → ∃ path allow recover, path_file path = file_name seg.1 ∧ reads_segment fs allow recover path seg.

Lemma readable_dir_held fs active recover segs : readable_dir fs active recover segs → segments_held fs segs.
Proof.
  intros (Hnf & Hr & Hsegs). split; [done|]. split; [done|]. intros seg Hseg.
  apply list_elem_of_lookup in Hseg as [k Hk].
  destruct (Forall2_lookup_r _ _ _ _ _ Hsegs Hk) as (path & Hp & Hh). eexists path, _, _. split; [|exact Hh].
  apply list_elem_of_lookup_2, elem_of_segments_of in Hp as (-> & _). by destruct Hh as [-> _].
Qed.

Lemma clean_dir_held fs segs : clean_dir fs segs → segments_held fs segs.
Proof. intros Hc. by eapply (readable_dir_held fs first_append true), clean_readable. Qed.

(** A record of the log is a frame of its segment's file. *)
Lemma log_record_in_file fs segs p body :
  segments_held fs segs → (p, body) ∈ log_of segs →
  ∃ path i b1 b2 t,
    path_file path = file_name (position_segment p) ∧
    is_file_with fs (path_file path) i (segment_data (b1 ++ body :: b2) t) ∧
    Forall (λ b, lenN b ≤ MAX_RECORD_BODY_LEN) (b1 ++ body :: b2) ∧
    position_offset p = 4 + lenN (frames_bytes b1).
Proof.
  intros (_ & _ & Hsegs) Hin. apply list_elem_of_bind in Hin as ([name bodies] & Hin & Hseg).
  pose proof (segment_log_segment _ _ Hin) as Hname. cbn [fst] in Hname.
  unfold segment_log in Hin. apply list_elem_of_fmap in Hin as ([off b] & E & Hin).
  apply with_offsets_split in Hin as (b1 & b2 & Hb & Ho). cbn [fst snd] in *. injection E as -> <-. subst bodies off.
  destruct (Hsegs _ Hseg) as (path & allow & recover & Hp & Hn & Hfit & i & d & Hfile & Hd). cbn [fst snd] in *.
  destruct (reads_segment_cases allow recover d _ Hfit Hd) as [(_ & E & _)|(t & -> & _)].
  { by apply app_eq_nil in E as [_ ?]. }
  exists path, i, b1, b2, t. split; [|done]. by rewrite Hname.
Qed.

Lemma validate_checkpoint_position_run fs m segs nlog n p c :
  segments_held fs segs → log_decodes (log_of segs) nlog →
  (p, mkNodeRecord n (RecordSnapshotCheckpoint c)) ∈ nlog →
  validate_checkpoint_position n p (mkWorld fs m) = (Ok (), mkWorld fs m).
Proof.
  intros Hc Hd Hin. pose proof Hc as (Hnf & Hr & _).
  apply list_elem_of_lookup in Hin as [k Hk].
  destruct (Forall2_lookup_r _ _ _ _ _ Hd Hk) as ([p' body] & Hlog & Hp & Hlen & Hdec).
  cbn [fst snd] in *. subst p'. apply list_elem_of_lookup_2 in Hlog.
  destruct (log_record_in_file fs segs p body Hc Hlog) as (path & i & b1 & b2 & t & Hfile & Hf & Hfit & Hoff).
  rewrite Hfile in Hf. pose proof Hf as (_ & He & Hdata).
  unfold validate_checkpoint_position.
  rewrite (bind_ok _ _ _ true (mkWorld fs m)).
  2:{ unfold segment_file_exists, try_catch, w_call, zoom, mbind, M_bind, fs_is_file. cbn [w_fs].
      rewrite call_none by done. unfold in_dir, mbind, M_bind, get_state. by rewrite Hr, He. }
  cbn [negb].
  rewrite (bind_ok _ _ _ (mkFile i 0 false false) (mkWorld fs m)).
  2:{ unfold w_call, zoom. cbn [w_fs]. unfold fs_open. rewrite call_none by done.
      unfold in_dir, mbind, M_bind, get_state. by rewrite Hr, He. }
  unfold with_file. cbn [w_fs w_metrics]. set (io := mkIo fs m _).
  assert (Hio : io_data io = segment_data (b1 ++ body :: b2) t) by exact Hdata.
  destruct (read_segment_header_run false false false io Hnf ltac:(done)) as (f & Hf4 & Hrun).
  rewrite Hio, header_result_data in Hf4, Hrun. rewrite (Hf4 eq_refl) in Hrun.
  unfold header_fs, header_metrics in Hrun. rewrite header_torn_data in Hrun. cbn [andb] in Hrun.
  rewrite (bind_ok _ _ _ _ _ Hrun). set (io4 := mkIo _ _ _).
  assert (Hio4 : io_data io4 = segment_data (b1 ++ body :: b2) t) by exact Hdata.
  rewrite (bind_ok _ _ _ _ _ (file_len_run io4 Hnf)), Hio4, Hoff.
  change SEGMENT_FILE_HEADER_LEN with 4.
  rewrite (proj2 (N.ltb_ge (4 + _) 4)) by lia.
  rewrite (proj2 (N.ltb_ge _ (4 + _))) by (rewrite segment_data_length, frames_bytes_app, lenN_app; lia).
  rewrite (bind_ok _ _ _ _ _ (file_seek_run io4 Hnf _)). set (io5 := set_io_file _ io4).
  assert (Hrest : io_rest io5 = wire_frame body ++ frames_bytes b2 ++ t).
  { unfold io_rest. change (io_data io5) with (io_data io4). rewrite Hio4.
    change (file_pos (io_file io5)) with (4 + lenN (frames_bytes b1)).
    by rewrite segment_data_drop, frames_bytes_cons, <-app_assoc. }
  assert (Hb : lenN body ≤ MAX_RECORD_BODY_LEN) by (by apply Forall_app in Hfit as [_ ?%Forall_inv]).
  assert (Hread : read_record_body false io5 = (Ok (Some body), frame_state false io5)).
  { rewrite read_record_body_run by done. by rewrite Hrest, frame_at_wire. }
  rewrite (bind_ok _ _ _ _ _ Hread). cbv beta iota.
  unfold lift_result, mbind, M_bind. rewrite Hdec. cbn [record_node_id node_record is_checkpoint negb].
  rewrite N.eqb_refl. cbn [negb]. unfold mret, M_ret.
  unfold frame_state. by rewrite Hrest, frame_at_wire.
Qed.

Lemma validate_positions_run fs m segs nlog x :
  segments_held fs segs → log_decodes (log_of segs) nlog →
  (∀ n p, checkpoint_position x n = Some p → hint_ok n (Some p) nlog) →
  validate_checkpoint_positions x (mkWorld fs m) = (Ok (), mkWorld fs m).
Proof.
  intros Hc Hd Hx. unfold validate_checkpoint_positions.
  assert (Hall : Forall (λ p : N * CheckpointNodeIndex, ∃ c,
    (checkpoint_position_of p.2, mkNodeRecord p.1 (RecordSnapshotCheckpoint c)) ∈ nlog) (btree_iter (index_nodes x))).
  { rewrite list.Forall_forall. intros [n e] Hin. apply elem_of_btree_iter in Hin.
    apply (Hx n). unfold checkpoint_position. by rewrite Hin. }
  induction Hall as [|[n e] l [c Hin] Hl IH]; [done|]. cbn [for_each].
  by rewrite (bind_ok _ _ _ _ _ (validate_checkpoint_position_run fs m segs nlog n _ c Hc Hd Hin)).
Qed.
End validate.

Section index_load.
Context `{NL : NojsonLaws} `{NR : Noraft}.

(** The documents of the index. *)
Lemma index_json_ok x : index_fit x → doc_ok (checkpoint_index_json x).
Proof.
  intros Hb. split; [done|]. split; [done|]. split; [done|]. split; [|done]. apply doc_object_ok.
  apply list.Forall_fmap, list.Forall_forall. intros [n e] Hin. apply elem_of_btree_iter in Hin.
  destruct (Hb n e Hin) as [Hn [Hid Hoff]]. split; [done|].
  split; [done|]. split; [|by repeat split].
  change (ascii_text (file_name (position_segment (checkpoint_position_of e))) = true). unfold file_name.
  by rewrite !ascii_text_append, ascii_text_u64.
Qed.

(** [CheckpointIndex::load] of a file that [CheckpointIndex::save] wrote. *)
Lemma index_load_run fs m segs nlog reg x :
  segments_held fs segs → log_decodes (log_of segs) nlog → index_fit x →
  (∀ n p, checkpoint_position (retain_active reg x) n = Some p → hint_ok n (Some p) nlog) →
  file_text fs CHECKPOINT_INDEX_FILE_NAME = Some (format_checkpoint_index x) →
  index_load reg (mkWorld fs m) = (Ok (retain_active reg x), mkWorld fs m).
Proof.
  intros Hc Hd Hb Hx Ht. pose proof Hc as (Hnf & Hr & _).
  destruct (json_display_parse (checkpoint_index_json x) (index_json_ok x Hb)) as (Hu & j & Hj & Hrep).
  unfold index_load. rewrite (bind_ok _ _ _ _ _ (load_text_run fs m _ _ Hnf Hr Ht Hu)). cbv beta iota.
  unfold format_checkpoint_index. rewrite Hj, (parse_index_represents _ x Hb Hrep). cbv beta iota zeta.
  by rewrite (bind_ok _ _ _ _ _ (validate_positions_run fs m segs nlog _ Hc Hd Hx)).
Qed.
End index_load.
