(* ===== verification/OpenCorrect.v ===== *)
(** * Opening a storage directory

    [with_max_segment_len] on a directory that an engine left, possibly with a
    torn end of its active segment, or on a path where nothing is yet. *)
From Stdlib Require Import Strings.Byte Strings.String.
From S2P Require Import Prelude Metrics Fs Text Json Noraft State Crc32c Codec Format Frame.
From S2P Require Import Segment Replay Registry Checkpoint Engine Recovery RecoveryCorrect.
From S2P Require Import ReplayCorrect WriterCorrect MetadataCorrect MetadataFaults EngineCorrect.
From S2P Require Import LoadCorrect.

(** ** The active segment *)

(** What recovery leaves of a torn segment. *)
Definition recovered_data (d : list byte) (bodies : list (list byte)) : list byte :=
  if lenN d <? SEGMENT_FILE_HEADER_LEN then [] else segment_data bodies [].

Definition active_path (active : SegmentName) : SegmentPath := mkSegmentPath active (file_name active).

(** The segments of a directory: sealed ones and the active one with contents
    [d], or none at all. *)
Inductive segments_are (fs : Fs) (active : SegmentName) :
  list segment_contents → option (list byte) → list (list byte) → Prop :=
  | no_segments :
      segments_of fs = [] → active = first_append → not_other fs (file_name active) →
      segments_are fs active [] None []
  | some_segments paths segs i d bodies :
      segments_of fs = paths ++ [active_path active] → Forall2 (holds_segment fs) paths segs →
      segment_id active < U64_LIMIT → is_file_with fs (file_name active) i d → torn_data d bodies →
      segments_are fs active segs (Some d) bodies.

Lemma segment_data_not_short bodies t : (lenN (segment_data bodies t) <? SEGMENT_FILE_HEADER_LEN) = false.
Proof. apply N.ltb_ge. rewrite segment_data_length. change SEGMENT_FILE_HEADER_LEN with 4. lia. Qed.

Lemma torn_data_recovered d bodies :
  torn_data d bodies →
  (recovered_data d bodies = [] ∧ bodies = []) ∨
  (recovered_data d bodies = segment_data bodies [] ∧ bodies_fit bodies).
Proof.
  unfold recovered_data. intros [[Hd ->]|(t & -> & _ & Hf)].
  - left. by rewrite (proj2 (N.ltb_lt _ _)).
  - right. by rewrite segment_data_not_short.
Qed.

Lemma torn_data_fit d bodies : torn_data d bodies → bodies_fit bodies.
Proof. intros [[_ ->]|(t & _ & _ & H)]; [constructor|exact H]. Qed.

(** Changes of one file's contents. *)
Definition same_but (i : N) (fs fs' : Fs) : Prop :=
  fs_root fs' = fs_root fs ∧ fs_faults fs' = fs_faults fs ∧ fs_entries fs' = fs_entries fs ∧
  fs_next_inode fs' = fs_next_inode fs ∧ fs_locks fs' = fs_locks fs ∧
  ∀ j, j ≠ i → data_of j fs' = data_of j fs.

Lemma same_but_refl i fs : same_but i fs fs.
Proof. done. Qed.

Lemma same_but_update i d fs : same_but i fs (update_data i d fs).
Proof. repeat (split; [done|]). intros j Hj. by rewrite data_of_update_data, decide_False. Qed.

(** The contents of a file are, or become, [d]. *)
Definition cut_to (i : N) (d : list byte) (fs fs' : Fs) : Prop :=
  (fs' = fs ∧ data_of i fs = d) ∨ fs' = update_data i d fs.

Lemma cut_to_same_but i d fs fs' : cut_to i d fs fs' → same_but i fs fs' ∧ data_of i fs' = d.
Proof.
  intros [[-> Hd]| ->]; [done|]. split; [apply same_but_update|]. by rewrite data_of_update_data, decide_True.
Qed.

(** The counters of pending records do not change. *)
Definition same_pending (m m' : StorageMetrics) : Prop :=
  unsynced_records m' = unsynced_records m ∧ unsynced_bytes m' = unsynced_bytes m.

(** Scanning the active segment. *)
Lemma scan_active_run fs m path i d bodies :
  no_faults fs → is_file_with fs path i d → torn_data d bodies →
  ∃ fs' m', scan_segment path true (mkWorld fs m) = (Ok (), mkWorld fs' m') ∧
    cut_to i (recovered_data d bodies) fs fs' ∧ same_pending m m'.
Proof.
  intros Hnf Hf. pose proof Hf as (_ & _ & Hd). intros [[Hs ->]|(t & -> & Ht & Hb)].
  - rewrite (scan_segment_short true fs m path i d Hnf Hf Hs).
    unfold header_result, recovered_data. rewrite (proj2 (N.ltb_lt _ _)) by done.
    eexists _, _. split; [reflexivity|]. split; [|unfold header_metrics; by destruct (_ && _)].
    unfold header_fs, header_torn. rewrite (proj2 (N.ltb_lt _ _)) by done. rewrite !andb_true_r.
    destruct (N.eqb_spec (lenN d) 0) as [E|E]; cbn [negb].
    + left. split; [done|]. rewrite Hd. destruct d; [done|]. rewrite lenN_cons in E. lia.
    + by right.
  - assert (Hp : frames_parse (frames_bytes bodies ++ t) bodies t).
    { split; [done|]. split; [done|]. intros b. by rewrite Ht. }
    rewrite (scan_segment_complete true fs m path i bodies t Hnf Hf Hp).
    unfold tail_result, recovered_data. rewrite Ht, orb_true_r, segment_data_not_short.
    eexists _, _. split; [reflexivity|]. split; [|unfold tail_metrics; by repeat case_match].
    destruct (tail_fs_torn bodies t i fs Ht Hd) as [Hi _]. unfold tail_fs in *.
    destruct (tail_cut _ _ _); [right|by left]. rewrite data_of_update_data, decide_True in Hi by done. by rewrite Hi.
Qed.

(** Scanning a sealed segment. *)
Lemma scan_sealed_run fs m p seg :
  no_faults fs → holds_segment fs p seg →
  scan_segment (path_file p) false (mkWorld fs m) = (Ok (), mkWorld fs m).
Proof.
  intros Hnf (_ & Hb & i & Hf).
  rewrite (scan_segment_complete false fs m (path_file p) i seg.2 []); [done|done|done|].
  rewrite app_nil_r. by apply frames_parse_clean.
Qed.

Lemma for_each_app {S A} (l1 l2 : list A) (f : A → M S ()) s :
  for_each (l1 ++ l2) f s = (for_each l1 f ;; for_each l2 f) s.
Proof.
  revert s. induction l1 as [|x l1 IH]; intros s; [done|]. cbn [app for_each].
  unfold mbind, M_bind in *. destruct (f x s) as [[a|e] s']; [apply IH|done].
Qed.

Lemma sealed_names fs paths active p :
  segments_of fs = paths ++ [active_path active] → p ∈ paths → name_lt (path_name p) active.
Proof.
  intros Hp Hin. pose proof (segments_of_sorted fs) as Hs. rewrite Hp in Hs.
  exact (StronglySorted_app_1_elem_of _ _ _ p _ Hs Hin (list_elem_of_here _ _)).
Qed.

(** A reader reads them as they are. *)
Lemma segments_readable fs any active segs d bodies :
  no_faults fs → fs_root fs = RootDir → segments_are fs active segs d bodies →
  readable_dir fs any false (match d with Some _ => segs ++ [(active, bodies)] | None => [] end).
Proof.
  intros Hnf Hr Hs. split; [done|]. split; [done|].
  destruct Hs as [Hsegs _ _|paths segs i d bodies Hsegs Hh Hid Hf Ht]; rewrite Hsegs; [constructor|].
  apply Forall2_app.
  - generalize (replay_active_segment (paths ++ [active_path active]) any false). intros a. clear Hsegs.
    induction Hh; constructor; [by apply holds_reads|done].
  - constructor; [|constructor]. unfold replay_active_segment. rewrite last_snoc, bool_decide_eq_true_2 by done.
    split; [done|]. split; [by eapply torn_data_fit|]. exists i, d. split; [done|by right].
Qed.

(** [recover_storage_dir]: only the torn end of the active segment is cut. *)
Lemma recover_storage_dir_run fs m active segs d bodies :
  no_faults fs → fs_root fs = RootDir → segments_are fs active segs d bodies →
  ∃ fs' m', recover_storage_dir active (mkWorld fs m) = (Ok (), mkWorld fs' m') ∧
    match d with
    | None => fs' = fs
    | Some d => ∃ i, fs_entries fs !! file_name active = Some (EntryFile i) ∧
                     cut_to i (recovered_data d bodies) fs fs'
    end ∧ same_pending m m'.
Proof.
  intros Hnf Hr Hs. unfold recover_storage_dir.
  rewrite (bind_ok _ _ _ _ _ (discover_segment_paths_run (mkWorld fs m) Hnf Hr)). cbn [w_fs].
  destruct Hs as [Hsegs _ _|paths segs i d bodies Hsegs Hh Hid Hf Ht]; rewrite Hsegs.
  { by exists fs, m. }
  rewrite for_each_app.
  assert (Hsealed : ∀ paths' segs', Forall2 (holds_segment fs) paths' segs' →
    (∀ p, p ∈ paths' → name_lt (path_name p) active) →
    for_each paths' (λ segment, let allow_partial := bool_decide (path_name segment = active) in
      scan_segment (path_file segment) allow_partial) (mkWorld fs m) = (Ok (), mkWorld fs m)).
  { induction 1 as [|p seg paths' segs' Hp Hps IH]; intros Hlt; [done|]. cbn [for_each].
    rewrite bool_decide_eq_false_2.
    - rewrite (bind_ok _ _ _ _ _ (scan_sealed_run fs m p seg Hnf Hp)). apply IH. intros q Hq. apply Hlt. by right.
    - intros E. specialize (Hlt p ltac:(by left)). unfold name_lt in Hlt. rewrite E in Hlt. lia. }
  rewrite (bind_ok _ _ _ _ _ (Hsealed _ _ Hh (λ p, sealed_names fs paths active p Hsegs))).
  cbn [for_each active_path path_name path_file]. rewrite bool_decide_eq_true_2 by done.
  destruct (scan_active_run fs m (file_name active) i d bodies Hnf Hf Ht) as (fs' & m' & Hrun & Hcut & Hm).
  rewrite (bind_ok _ _ _ _ _ Hrun). exists fs', m'. split; [done|]. split; [|done]. exists i. split; [apply Hf|done].
Qed.

(** ** Opening the writer *)

(** The directory after recovery. *)
Inductive recovered_are (fs : Fs) (active : SegmentName) :
  list segment_contents → list (list byte) → Prop :=
  | recovered_none :
      segments_of fs = [] → active = first_append → fs_entries fs !! file_name active = None →
      recovered_are fs active [] []
  | recovered_some paths segs i bodies :
      segments_of fs = paths ++ [active_path active] → Forall2 (holds_segment fs) paths segs →
      segment_id active < U64_LIMIT → fs_entries fs !! file_name active = Some (EntryFile i) →
      (data_of i fs = [] ∧ bodies = []) ∨ (data_of i fs = segment_data bodies [] ∧ bodies_fit bodies) →
      recovered_are fs active segs bodies.

Lemma same_but_segments_of i fs fs' : same_but i fs fs' → segments_of fs' = segments_of fs.
Proof. intros (_ & _ & He & _). unfold segments_of. by rewrite He. Qed.

(** The sealed segments are not in the file of the active one. *)
Lemma sealed_not_active fs paths active i p :
  fs_wf fs → segments_of fs = paths ++ [active_path active] → segment_id active < U64_LIMIT →
  fs_entries fs !! file_name active = Some (EntryFile i) → p ∈ paths →
  fs_entries fs !! path_file p ≠ Some (EntryFile i).
Proof.
  intros [Hinj _] Hp Hid He Hin Hpe. pose proof (sealed_names fs paths active p Hp Hin) as Hlt.
  assert (Hins : p ∈ segments_of fs) by (rewrite Hp; apply elem_of_app; by left).
  apply elem_of_segments_of in Hins as (Hf & Hpid & _).
  pose proof (Hinj _ _ _ Hpe He) as E. rewrite Hf in E. apply file_name_inj in E; [|done..].
  unfold name_lt in Hlt. rewrite E in Hlt. lia.
Qed.

Lemma sealed_same_but fs fs' i paths segs active :
  fs_wf fs → segments_of fs = paths ++ [active_path active] → segment_id active < U64_LIMIT →
  fs_entries fs !! file_name active = Some (EntryFile i) → same_but i fs fs' →
  Forall2 (holds_segment fs) paths segs → Forall2 (holds_segment fs') paths segs.
Proof.
  intros Hwf Hp Hid He (Hr & _ & Hent & _ & _ & Hd) Hh. eapply Forall2_In_l; [exact Hh|].
  intros p seg Hin (Hn & Hb & j & Hjr & Hje & Hjd). split; [done|]. split; [done|]. exists j.
  split; [by rewrite Hr|]. split; [by rewrite Hent|]. rewrite Hd; [done|].
  intros ->. by eapply sealed_not_active.
Qed.

Lemma segments_are_recovered fs fs' active segs d bodies :
  fs_wf fs → segments_are fs active segs d bodies →
  match d with
  | None => fs' = fs
  | Some d => ∃ i, fs_entries fs !! file_name active = Some (EntryFile i) ∧
                   cut_to i (recovered_data d bodies) fs fs'
  end →
  recovered_are fs' active segs bodies.
Proof.
  intros Hwf [Hs Ha Ho|paths segs' i d' bodies' Hs Hh Hid (Hr & He & Hd) Ht].
  - intros ->. constructor; [done|done|]. subst active.
    destruct (fs_entries fs !! file_name first_append) as [[i|]|] eqn:E; [|done|done].
    assert (Hin : active_path first_append ∈ segments_of fs).
    { apply elem_of_segments_of. split; [done|]. split; [done|]. by exists i. }
    rewrite Hs in Hin. by apply elem_of_nil in Hin.
  - intros (j & Hj & [Hsame Hdata]%cut_to_same_but). assert (j = i) as -> by congruence.
    apply (recovered_some fs' active paths segs' i bodies').
    + by rewrite (same_but_segments_of i fs fs' Hsame).
    + by eapply sealed_same_but.
    + done.
    + destruct Hsame as (_ & _ & -> & _). done.
    + rewrite Hdata. by apply torn_data_recovered.
Qed.

Lemma log_of_empty_active segs active : log_of (segs ++ [(active, [])]) = log_of segs.
Proof. unfold log_of. rewrite bind_app. apply app_nil_r. Qed.

Lemma recovered_held fs active segs bodies :
  no_faults fs → fs_root fs = RootDir → recovered_are fs active segs bodies →
  ∃ segs', segments_held fs segs' ∧ log_of segs' = log_of (segs ++ [(active, bodies)]).
Proof.
  intros Hnf Hr Hs. destruct Hs as [Hp|paths segs' i bodies' Hp Hh Hid He Hd].
  { exists []. rewrite log_of_empty_active. split; [|done]. split; [done|]. split; [done|].
    by intros seg ?%elem_of_nil. }
  assert (Ht : torn_data (data_of i fs) bodies').
  { destruct Hd as [[-> ->]|[-> Hb]]; [by left|right]. by exists []. }
  eapply (segments_readable fs first_append active) in Hr as Hread; [|done|by eapply some_segments].
  eexists. split; [by eapply readable_dir_held|done].
Qed.

(** The file of the active segment, with a header. *)
Definition with_header (d : list byte) : list byte := if lenN d =? 0 then SEGMENT_FORMAT_MAGIC else d.

Lemma open_active_existing fs m name i :
  no_faults fs → fs_root fs = RootDir → fs_entries fs !! name = Some (EntryFile i) →
  ∃ fs' f, open_active_segment_file name (mkWorld fs m) = (Ok f, mkWorld fs' m) ∧
    file_inode f = i ∧ file_writable f = true ∧ file_append f = true ∧
    cut_to i (with_header (data_of i fs)) fs fs'.
Proof.
  intros Hnf Hr He. unfold open_active_segment_file.
  rewrite (bind_ok _ _ _ (mkFile i 0 true true) (mkWorld fs m)).
  2:{ unfold w_call, zoom. cbn [w_fs]. unfold fs_open. rewrite call_none by done.
      unfold in_dir, mbind, M_bind, get_state. by rewrite Hr, He. }
  set (io := mkIo fs m (mkFile i 0 true true)).
  assert (Hd : io_data io = data_of i fs) by done. unfold with_header.
  destruct (N.eqb_spec (lenN (data_of i fs)) 0) as [E|E].
  - set (fs1 := update_data i (data_of i fs ++ SEGMENT_FORMAT_MAGIC) fs).
    exists fs1, (mkFile i 4 true true). split; [|repeat (split; [done|])].
    + erewrite bind_ok; [|apply (with_file_kept_run _ _ (mkWorld fs m) () (mkIo fs1 m (mkFile i 4 true true)))]; [done|].
      fold io. change (mkIo (w_fs (mkWorld fs m)) (w_metrics (mkWorld fs m)) (mkFile i 0 true true)) with io.
      rewrite (bind_ok _ _ _ _ _ (file_len_run io Hnf)), Hd, E. change (0 =? 0) with true. cbv iota.
      rewrite file_append_run by done. rewrite Hd, E. done.
    + right. unfold fs1. destruct (data_of i fs); [done|]. rewrite lenN_cons in E. lia.
  - exists fs, (mkFile i 0 true true). split; [|repeat (split; [done|]); by left].
    erewrite bind_ok; [|apply (with_file_kept_run _ _ (mkWorld fs m) () io)]; [done|].
    change (mkIo (w_fs (mkWorld fs m)) (w_metrics (mkWorld fs m)) (mkFile i 0 true true)) with io.
    rewrite (bind_ok _ _ _ _ _ (file_len_run io Hnf)), Hd. by rewrite (proj2 (N.eqb_neq _ _)).
Qed.

Lemma open_active_new fs m name :
  no_faults fs → fs_root fs = RootDir → fs_entries fs !! name = None →
  open_active_segment_file name (mkWorld fs m) =
  (Ok (mkFile (fs_next_inode fs) 4 true true), mkWorld (new_segment_fs name fs) m).
Proof.
  intros Hnf Hr He. unfold open_active_segment_file. set (i := fs_next_inode fs).
  rewrite (bind_ok _ _ _ (mkFile i 0 true true) (mkWorld (new_file name fs) m)).
  2:{ unfold w_call, zoom. cbn [w_fs]. unfold fs_open. rewrite call_none by done.
      unfold in_dir, mbind, M_bind, get_state. by rewrite Hr, He. }
  set (io := mkIo (new_file name fs) m (mkFile i 0 true true)).
  assert (Hd : io_data io = []) by (unfold io_data; cbn [io io_file io_fs file_inode]; unfold i; by rewrite new_file_data, decide_True).
  erewrite bind_ok; [|apply (with_file_kept_run _ _ (mkWorld (new_file name fs) m) ()
    (mkIo (new_segment_fs name fs) m (mkFile i 4 true true)))]; [done|].
  change (mkIo (w_fs (mkWorld (new_file name fs) m)) (w_metrics (mkWorld (new_file name fs) m)) (mkFile i 0 true true)) with io.
  rewrite (bind_ok _ _ _ _ _ (file_len_run io Hnf)), Hd. change (lenN [] =? 0) with true. cbv iota.
  rewrite file_append_run by done. by rewrite Hd.
Qed.

(** The directory of a new segment file. *)
Lemma new_segment_segments fs active :
  segments_of fs = [] → segment_id active < U64_LIMIT → fs_entries fs !! file_name active = None →
  segments_of (new_segment_fs (file_name active) fs) = [active_path active].
Proof.
  intros Hs Hid Hn. apply segments_of_unique; [by repeat constructor|].
  assert (Hent : fs_entries (new_segment_fs (file_name active) fs) =
    <[file_name active := EntryFile (fs_next_inode fs)]> (fs_entries fs)) by done.
  intros p. rewrite list_elem_of_singleton, elem_of_segments_of, Hent. split.
  - intros ->. split; [done|]. split; [done|]. eexists. apply lookup_insert_eq.
  - intros (Hf & Hpid & i & Hi). rewrite lookup_insert in Hi. case_decide as E.
    + rewrite Hf in E. apply file_name_inj in E; [|done..]. destruct p as [n f]. cbn in *. by subst.
    + assert (Hin : p ∈ segments_of fs) by (apply elem_of_segments_of; eauto).
      rewrite Hs in Hin. by apply elem_of_nil in Hin.
Qed.

Lemma fs_exists_run fs m name :
  no_faults fs → fs_root fs = RootDir →
  w_call (fs_exists name) (mkWorld fs m) = (Ok (bool_decide (is_Some (fs_entries fs !! name))), mkWorld fs m).
Proof.
  intros Hnf Hr. unfold w_call, zoom, fs_exists. cbn [w_fs].
  rewrite (bind_ok _ _ _ _ _ (take_fault_none fs Hnf)). unfold mbind, M_bind, get_state, mret, M_ret.
  rewrite Hr. do 2 f_equal. apply bool_decide_ext. naive_solver.
Qed.

(** The end of [SegmentWriter::open]. *)
Lemma open_writer_end fs m active max_len f :
  no_faults fs →
  (r ← with_file_kept f file_seek_end;
   w_count (segment_opened (segment_id active) r.1) ;;
   mret (mkSegmentWriter active r.2 r.1 max_len)) (mkWorld fs m) =
  (Ok (mkSegmentWriter active (seek_to (lenN (data_of (file_inode f) fs)) f) (lenN (data_of (file_inode f) fs)) max_len),
   mkWorld fs (segment_opened (segment_id active) (lenN (data_of (file_inode f) fs)) m)).
Proof.
  intros Hnf. set (io := mkIo fs m f). set (len := lenN (data_of (file_inode f) fs)).
  assert (Hseek : file_seek_end (mkIo (w_fs (mkWorld fs m)) (w_metrics (mkWorld fs m)) f) =
                  (Ok len, mkIo fs m (seek_to len f))).
  { unfold file_seek_end. by rewrite (bind_ok _ _ _ _ _ (io_call_none io Hnf)). }
  rewrite (bind_ok _ _ _ _ _ (with_file_kept_run f _ (mkWorld fs m) _ _ Hseek)). done.
Qed.

(** What opening the writer does to the directory. *)
Definition writer_opened (active : SegmentName) (fs fs' : Fs) : Prop :=
  match fs_entries fs !! file_name active with
  | Some (EntryFile i) => cut_to i (with_header (data_of i fs)) fs fs'
  | _ => fs' = sync_entries (new_segment_fs (file_name active) fs)
  end.

(** Opening the writer gives a writer on these segments. *)
Definition writer_opens (fs : Fs) (m : StorageMetrics) (active : SegmentName) (segs : list segment_contents)
  (bodies : list (list byte)) (max_len : N) : Prop :=
  ∃ fs' m' w, segment_writer_open active max_len (mkWorld fs m) = (Ok w, mkWorld fs' m') ∧
    writer_ok fs' w segs bodies ∧ active_segment w = active ∧ max_segment_len w = max_len ∧
    same_metadata fs fs' ∧ writer_opened active fs fs' ∧ same_pending m m'.

(** In a directory without segments. *)
Lemma writer_opens_first fs m active max_len :
  no_faults fs → fs_root fs = RootDir → fs_wf fs → segments_of fs = [] → active = first_append →
  fs_entries fs !! file_name active = None → writer_opens fs m active [] [] max_len.
Proof.
  intros Hnf Hr Hwf Hs Ha Hn. unfold writer_opens, segment_writer_open.
  rewrite (bind_ok _ _ _ _ _ (fs_exists_run fs m (file_name active) Hnf Hr)).
  rewrite Hn. rewrite bool_decide_eq_false_2 by by intros []. cbn [negb].
  rewrite (bind_ok _ _ _ _ _ (open_active_new fs m _ Hnf Hr Hn)).
  set (fs1 := new_segment_fs (file_name active) fs). set (i := fs_next_inode fs).
  rewrite (bind_ok _ _ _ _ _ (fs_sync_dir_run fs1 m Hnf Hr)).
  rewrite open_writer_end by done. cbn [file_inode].
  assert (Hid : segment_id active < U64_LIMIT) by (by rewrite Ha).
  assert (Hdi : data_of i (sync_entries fs1) = SEGMENT_FORMAT_MAGIC).
  { unfold fs1, new_segment_fs. change (data_of i (sync_entries ?x)) with (data_of i x).
    by rewrite data_of_update_data, decide_True. }
  rewrite Hdi. eexists _, _, _. split; [reflexivity|].
  assert (Hent : fs_entries (sync_entries fs1) = <[file_name active := EntryFile i]> (fs_entries fs)) by done.
  split; [|split; [done|split; [done|split; [|split; [unfold writer_opened; by rewrite Hn|done]]]]].
  - split; cbn [active_segment writer_file segment_len file_inode seek_to file_writable file_append]; try done.
    + split; [done|]. split; [done|]. change (segments_of (sync_entries fs1)) with (segments_of fs1).
      unfold fs1. rewrite new_segment_segments by done. constructor; [|constructor].
      split; [done|]. split; [constructor|]. exists i. split; [done|].
      split; [exact (lookup_insert_eq (fs_entries fs) _ _)|exact Hdi].
    + exact (new_file_wf _ _ Hwf Hn).
    + exact (lookup_insert_eq (fs_entries fs) _ _).
  - split; [done|]. split; [done|]. split.
    + intros name Hname. rewrite Hent, lookup_insert. by case_decide.
    + intros name Hname. split.
      * rewrite Hent, lookup_insert_ne; [done|]. intros <-. by rewrite parse_file_name_print in Hname.
      * intros j Hj. apply Hwf in Hj. unfold fs1, new_segment_fs.
         change (data_of j (sync_entries ?x)) with (data_of j x).
         rewrite data_of_update_data, decide_False by lia. rewrite new_file_data. by rewrite decide_False by lia.
Qed.

(** On the active segment, whose header may be missing. *)
Lemma writer_opens_existing fs m active paths segs i bodies max_len :
  no_faults fs → fs_root fs = RootDir → fs_wf fs →
  segments_of fs = paths ++ [active_path active] → Forall2 (holds_segment fs) paths segs →
  segment_id active < U64_LIMIT → fs_entries fs !! file_name active = Some (EntryFile i) →
  (data_of i fs = [] ∧ bodies = []) ∨ (data_of i fs = segment_data bodies [] ∧ bodies_fit bodies) →
  writer_opens fs m active segs bodies max_len.
Proof.
  intros Hnf Hr Hwf Hs Hh Hid He Hd. unfold writer_opens, segment_writer_open.
  rewrite (bind_ok _ _ _ _ _ (fs_exists_run fs m (file_name active) Hnf Hr)).
  rewrite He. rewrite bool_decide_eq_true_2 by done. cbn [negb].
  destruct (open_active_existing fs m (file_name active) i Hnf Hr He)
    as (fs1 & f & Hopen & Hfi & Hfw & Hfa & Hcut). pose proof (cut_to_same_but _ _ _ _ Hcut) as [Hsame Hdata].
  rewrite (bind_ok _ _ _ _ _ Hopen). rewrite (bind_ok _ _ (mkWorld fs1 m) () (mkWorld fs1 m) eq_refl).
  pose proof Hsame as (Hr1 & Hf1 & Hent & Hnext & _ & Hother).
  rewrite open_writer_end by (unfold no_faults; by rewrite Hf1). rewrite Hfi.
  assert (Hd1 : data_of i fs1 = segment_data bodies [] ∧ bodies_fit bodies).
  { rewrite Hdata. unfold with_header. destruct Hd as [[-> ->]|[-> Hb]]; [split; [done|constructor]|].
    rewrite (proj2 (N.eqb_neq _ _)); [done|]. rewrite segment_data_length. lia. }
  destruct Hd1 as [Hd1 Hb]. rewrite Hd1. eexists _, _, _. split; [reflexivity|].
  split; [|split; [done|split; [done|split; [|split; [unfold writer_opened; by rewrite He|done]]]]].
  - split; cbn [active_segment writer_file segment_len]; try done.
    + split; [unfold no_faults; by rewrite Hf1|]. split; [by rewrite Hr1|].
      rewrite (same_but_segments_of i fs fs1 Hsame), Hs. apply Forall2_app.
      * by eapply sealed_same_but.
      * constructor; [|constructor]. split; [done|]. split; [exact Hb|]. exists i.
         split; [by rewrite Hr1|]. split; [by rewrite Hent|exact Hd1].
    + unfold fs_wf. rewrite Hent, Hnext. exact Hwf.
    + change (file_inode (seek_to _ f)) with (file_inode f). by rewrite Hfi, Hent.
    + change (file_inode (seek_to _ f)) with (file_inode f). by rewrite Hfi.
  - split; [done|]. split; [done|]. split; [intros name Hname; by rewrite Hent|].
    intros name Hname. split; [by rewrite Hent|]. intros j Hj. apply Hother. intros ->.
    assert (name = file_name active) as -> by (by eapply (proj1 Hwf)).
    by rewrite parse_file_name_print in Hname.
Qed.

Lemma segment_writer_open_run fs m active segs bodies max_len :
  no_faults fs → fs_root fs = RootDir → fs_wf fs → recovered_are fs active segs bodies →
  writer_opens fs m active segs bodies max_len.
Proof.
  intros Hnf Hr Hwf [Hs Ha Hn|paths segs' i bodies' Hs Hh Hid He Hd];
    [by apply writer_opens_first|by eapply writer_opens_existing].
Qed.

(** ** The directory and the lock *)

(** The metadata files are as they were. *)
Definition same_metadata_files (fs fs' : Fs) : Prop :=
  ∀ name, name ∈ metadata_names →
    fs_entries fs' !! name = fs_entries fs !! name ∧ file_text fs' name = file_text fs name.

Lemma same_metadata_files_trans fs1 fs2 fs3 :
  same_metadata_files fs1 fs2 → same_metadata_files fs2 fs3 → same_metadata_files fs1 fs3.
Proof. intros H1 H2 name Hn. destruct (H1 name Hn), (H2 name Hn). split; congruence. Qed.

Lemma same_but_metadata fs fs' i active :
  fs_wf fs → segment_id active < U64_LIMIT → fs_entries fs !! file_name active = Some (EntryFile i) →
  same_but i fs fs' → same_metadata_files fs fs'.
Proof.
  intros [Hinj _] Hid He (_ & _ & Hent & _ & _ & Hd) name Hn. split; [by rewrite Hent|].
  unfold file_text. rewrite Hent. destruct (fs_entries fs !! name) as [[j|]|] eqn:E; [|done|done].
  rewrite Hd; [done|]. intros ->. pose proof (Hinj _ _ _ E He) as ->.
  apply metadata_names_not_segments in Hn. by rewrite parse_file_name_print in Hn.
Qed.

(** The directory exists, or nothing is at its path. *)
Definition root_ready (fs : Fs) : Prop :=
  fs_root fs = RootDir ∨ fs_root fs = RootMissing ∧ fs_entries fs = ∅.

(** The name of the directory in its parent: one that is created is synced if
    its path has a parent. *)
Definition root_synced_after (fs : Fs) : bool :=
  match fs_root fs with RootMissing => fs_has_parent fs | _ => fs_root_synced fs end.

Lemma create_dir_run fs m :
  no_faults fs → root_ready fs →
  ∃ fs', create_dir_all_synced (mkWorld fs m) = (Ok (), mkWorld fs' m) ∧
    fs_root fs' = RootDir ∧ fs_faults fs' = fs_faults fs ∧ fs_entries fs' = fs_entries fs ∧
    fs_inodes fs' = fs_inodes fs ∧ fs_next_inode fs' = fs_next_inode fs ∧ fs_locks fs' = fs_locks fs ∧
    fs_entries_unsynced fs' = fs_entries_unsynced fs ∧ fs_root_synced fs' = root_synced_after fs.
Proof.
  intros Hnf Hr. unfold create_dir_all_synced.
  assert (Hex : root_exists (mkWorld fs m) = (Ok (bool_decide (fs_root fs ≠ RootMissing)), mkWorld fs m)).
  { unfold root_exists, w_call, zoom. cbn [w_fs]. rewrite (bind_ok _ _ _ _ _ (take_fault_none fs Hnf)).
    unfold mbind, M_bind, get_state, mret, M_ret. do 2 f_equal. apply bool_decide_ext. naive_solver. }
  rewrite (bind_ok _ _ _ _ _ Hex). unfold create_dir_all. destruct Hr as [Hr|[Hr He]].
  - rewrite (bind_ok _ _ _ () (mkWorld fs m)).
    + rewrite bool_decide_eq_true_2 by (by rewrite Hr). exists fs. unfold root_synced_after. rewrite Hr. done.
    + unfold w_call, zoom. cbn [w_fs]. rewrite call_none by done. unfold mbind, M_bind, get_state. by rewrite Hr.
  - set (fs1 := set_root RootDir false fs).
    rewrite (bind_ok _ _ _ () (mkWorld fs1 m)).
    2:{ unfold w_call, zoom. cbn [w_fs]. rewrite call_none by done. unfold mbind, M_bind, get_state. by rewrite Hr. }
    rewrite bool_decide_eq_false_2 by (intros Hne; by apply Hne). cbn [negb]. unfold sync_root_parent, w_call, zoom.
    cbn [w_fs]. unfold mbind, M_bind, get_state, root_synced_after. rewrite Hr. change (fs_has_parent fs1) with (fs_has_parent fs).
    destruct (fs_has_parent fs).
    + rewrite call_none by done. unfold mret, M_ret. rewrite call_none by done. eexists. split; [reflexivity|]. done.
    + eexists. split; [reflexivity|]. done.
Qed.

(** The directory with the lock file. *)
Definition lock_file (fs : Fs) : Fs :=
  match fs_entries fs !! WRITE_LOCK_FILE_NAME with
  | Some _ => fs
  | None => new_file WRITE_LOCK_FILE_NAME fs
  end.

Lemma acquire_write_lock_run fs m :
  no_faults fs → fs_root fs = RootDir → fs_wf fs → fs_locks fs = ∅ → not_other fs WRITE_LOCK_FILE_NAME →
  ∃ fs' f, acquire_write_lock (mkWorld fs m) = (Ok f, mkWorld fs' m) ∧
    fs_root fs' = RootDir ∧ no_faults fs' ∧ fs_wf fs' ∧ fs_locks fs' = {[file_inode f]} ∧
    (∀ name, name ≠ WRITE_LOCK_FILE_NAME → fs_entries fs' !! name = fs_entries fs !! name) ∧
    (∀ name j, fs_entries fs !! name = Some (EntryFile j) → data_of j fs' = data_of j fs) ∧
    fs' = set_locks (fs_locks fs') (lock_file fs).
Proof.
  intros Hnf Hr Hwf Hl Ho. unfold lock_file. unfold acquire_write_lock.
  assert (Hlock : ∀ fs1 f, no_faults fs1 → fs_locks fs1 = ∅ →
    try_catch (w_call (fs_try_lock f)) (mkWorld fs1 m) =
    (Ok (Ok ()), mkWorld (set_locks ({[file_inode f]} ∪ fs_locks fs1) fs1) m)).
  { intros fs1 f Hnf1 Hl1. unfold try_catch, w_call, zoom, fs_try_lock. cbn [w_fs].
    rewrite call_none by done. unfold mbind, M_bind, get_state. by rewrite bool_decide_eq_false_2 by (rewrite Hl1; set_solver). }
  destruct (fs_entries fs !! WRITE_LOCK_FILE_NAME) as [[i|]|] eqn:E; [|done|].
  - rewrite (bind_ok _ _ _ (mkFile i 0 true false) (mkWorld fs m)).
    2:{ unfold w_call, zoom. cbn [w_fs]. unfold fs_open. rewrite call_none by done.
        unfold in_dir, mbind, M_bind, get_state. by rewrite Hr, E. }
    rewrite (bind_ok _ _ _ _ _ (Hlock fs _ Hnf Hl)). cbv beta iota.
    eexists _, _. split; [reflexivity|]. split; [done|]. split; [done|]. split; [exact Hwf|].
    split; [cbn; rewrite Hl; by rewrite union_empty_r_L|done].
  - set (fs1 := new_file WRITE_LOCK_FILE_NAME fs).
    rewrite (bind_ok _ _ _ (mkFile (fs_next_inode fs) 0 true false) (mkWorld fs1 m)).
    2:{ unfold w_call, zoom. cbn [w_fs]. unfold fs_open. rewrite call_none by done.
        unfold in_dir, mbind, M_bind, get_state. by rewrite Hr, E. }
    rewrite (bind_ok _ _ _ _ _ (Hlock fs1 _ Hnf Hl)). cbv beta iota.
    eexists _, _. split; [reflexivity|]. split; [done|]. split; [done|]. split; [exact (new_file_wf _ _ Hwf E)|].
    split; [cbn; rewrite Hl; by rewrite union_empty_r_L|]. split.
    + intros name Hn. cbn. by rewrite lookup_insert_ne.
    + split; [|done]. intros name j Hj. change (data_of j (set_locks _ fs1)) with (data_of j fs1). unfold fs1.
      rewrite new_file_data, decide_False; [done|]. apply Hwf in Hj. lia.
Qed.

Lemma segments_are_same fs fs' active segs d bodies :
  same_segments fs fs' → segments_are fs active segs d bodies → segments_are fs' active segs d bodies.
Proof.
  intros Hsame. pose proof (same_segments_of fs fs' Hsame) as Hseg. pose proof Hsame as (Hr & _ & Hs).
  intros [Hn Ha Ho|paths segs' i d' bodies' Hp Hh Hid (Hfr & Hfe & Hfd) Ht].
  - constructor; [by rewrite Hseg|done|]. unfold not_other in *.
    assert (Hid : segment_id active < U64_LIMIT) by (by rewrite Ha).
    by rewrite (proj1 (Hs _ _ (parse_file_name_print active Hid))).
  - apply (some_segments fs' active paths segs' i d' bodies').
    + by rewrite Hseg.
    + eapply Forall2_In_l; [exact Hh|]. intros p seg Hin Hps.
      apply (same_segments_holds fs fs' p seg Hsame); [|done]. rewrite Hp. apply elem_of_app. by left.
    + done.
    + destruct (Hs _ _ (parse_file_name_print active Hid)) as [He Hd].
      split; [by rewrite Hr|]. split; [by rewrite He|]. by rewrite (Hd i Hfe).
    + done.
Qed.

Section open.
Context `{NJL : NojsonLaws} `{NL : NoraftLaws}.

(** What the metadata files say; a missing file stands for an empty table. *)
Definition registry_stored (fs : Fs) (reg : NodeRegistry) : Prop :=
  (fs_entries fs !! NODE_REGISTRY_FILE_NAME = None ∧ reg = registry_default) ∨
  ∃ r, file_text fs NODE_REGISTRY_FILE_NAME = Some (format_node_registry r) ∧
       map_Forall (λ n _, n < U64_LIMIT) (registry_nodes r) ∧ reg = trim_registry r.

Definition index_stored (fs : Fs) (reg : NodeRegistry) (x : CheckpointIndex) : Prop :=
  (fs_entries fs !! CHECKPOINT_INDEX_FILE_NAME = None ∧ x = index_default) ∨
  ∃ x0, file_text fs CHECKPOINT_INDEX_FILE_NAME = Some (format_checkpoint_index x0) ∧
        index_fit x0 ∧ x = retain_active reg x0.

(** A directory that can be opened when it is not locked: its active segment
    may have a torn end, the other segments are complete, the records decode,
    and the index points at checkpoints. *)
Record stored (fs : Fs) (active : SegmentName) (segs : list segment_contents) (d : option (list byte))
  (bodies : list (list byte)) (nlog : list (RecordPosition * NodeRecord)) (reg : NodeRegistry)
  (x : CheckpointIndex) : Prop := {
  sd_faults : no_faults fs;
  sd_root : root_ready fs;
  sd_wf : fs_wf fs;
  sd_names : ∀ name, owned_name name ∨ name = WRITE_LOCK_FILE_NAME → not_other fs name;
  sd_segments : segments_are fs active segs d bodies;
  sd_log : log_decodes (log_of (segs ++ [(active, bodies)])) nlog;
  sd_registry : registry_stored fs reg;
  sd_index : index_stored fs reg x;
  sd_hints : ∀ n p, checkpoint_position x n = Some p → hint_ok n (Some p) nlog;
}.

Lemma stored_registry_load fs m reg :
  no_faults fs → fs_root fs = RootDir → registry_stored fs reg →
  registry_load (mkWorld fs m) = (Ok reg, mkWorld fs m).
Proof.
  intros Hnf Hr [[He ->]|(r & Ht & Hb & ->)].
  - unfold registry_load. by rewrite (bind_ok _ _ _ _ _ (load_text_missing fs m _ Hnf Hr He)).
  - by apply registry_load_run.
Qed.

Lemma stored_index_load fs m segs nlog reg x :
  segments_held fs segs → log_decodes (log_of segs) nlog → index_stored fs reg x →
  (∀ n p, checkpoint_position x n = Some p → hint_ok n (Some p) nlog) →
  index_load reg (mkWorld fs m) = (Ok x, mkWorld fs m).
Proof.
  intros Hh Hd Hx Hhint. pose proof Hh as (Hnf & Hr & _). destruct Hx as [[He ->]|(x0 & Ht & Hb & ->)].
  - unfold index_load. by rewrite (bind_ok _ _ _ _ _ (load_text_missing fs m _ Hnf Hr He)).
  - by eapply index_load_run.
Qed.

Lemma registry_stored_same fs fs' reg :
  same_metadata_files fs fs' → registry_stored fs reg → registry_stored fs' reg.
Proof.
  intros Hs. destruct (Hs NODE_REGISTRY_FILE_NAME ltac:(unfold metadata_names; set_solver)) as [He Ht].
  intros [[Hn ->]|(r & Hr & Hb & ->)]; [left|right].
  - by rewrite He.
  - exists r. by rewrite Ht.
Qed.

Lemma index_stored_same fs fs' reg x :
  same_metadata_files fs fs' → index_stored fs reg x → index_stored fs' reg x.
Proof.
  intros Hs. destruct (Hs CHECKPOINT_INDEX_FILE_NAME ltac:(unfold metadata_names; set_solver)) as [He Ht].
  intros [[Hn ->]|(r & Hr & Hb & ->)]; [left|right].
  - by rewrite He.
  - exists r. by rewrite Ht.
Qed.

Lemma same_data_metadata fs fs' :
  (∀ name, name ∈ metadata_names → fs_entries fs' !! name = fs_entries fs !! name) →
  (∀ name j, fs_entries fs !! name = Some (EntryFile j) → data_of j fs' = data_of j fs) →
  same_metadata_files fs fs'.
Proof.
  intros He Hd name Hn. split; [by apply He|]. unfold file_text. rewrite He by done.
  destruct (fs_entries fs !! name) as [[j|]|] eqn:E; [|done|done]. by rewrite (Hd name j E).
Qed.

Lemma owned_not_lock name : owned_name name → name ≠ WRITE_LOCK_FILE_NAME.
Proof.
  intros [Hn|[n Hn]] ->; [|done]. revert Hn. unfold metadata_names.
  rewrite !elem_of_cons, elem_of_nil. by intros [?|[?|[?|[?|[]]]]].
Qed.

(** Opening, step by step: the directory is there, the lock is taken, the torn
    end is cut off, the writer is opened. *)
Definition lock_taken (fs fs' : Fs) : Prop :=
  ∃ fs1, fs_root fs1 = RootDir ∧ fs_entries fs1 = fs_entries fs ∧ fs_entries_unsynced fs1 = fs_entries_unsynced fs ∧
    fs_inodes fs1 = fs_inodes fs ∧ fs_next_inode fs1 = fs_next_inode fs ∧ fs_root_synced fs1 = root_synced_after fs ∧
    fs' = set_locks (fs_locks fs') (lock_file fs1).

Definition end_cut (active : SegmentName) (d : option (list byte)) (bodies : list (list byte)) (fs fs' : Fs) : Prop :=
  match d with
  | None => fs' = fs
  | Some d => ∃ i, fs_entries fs !! file_name active = Some (EntryFile i) ∧ cut_to i (recovered_data d bodies) fs fs'
  end.

Definition opening (active : SegmentName) (d : option (list byte)) (bodies : list (list byte)) (fs fs' : Fs) : Prop :=
  ∃ fs1 fs2, lock_taken fs fs1 ∧ end_cut active d bodies fs1 fs2 ∧ writer_opened active fs2 fs'.

Lemma opening_root_synced active d bodies fs fs' :
  opening active d bodies fs fs' → fs_root_synced fs' = root_synced_after fs.
Proof.
  assert (Hcut : ∀ i x fs fs', cut_to i x fs fs' → fs_root_synced fs' = fs_root_synced fs) by by intros i x f f' [[-> _]| ->].
  intros (fs1 & fs2 & (fs0 & _ & _ & _ & _ & _ & <- & Hfs1) & Hend & Hw). unfold writer_opened in Hw.
  assert (H1 : fs_root_synced fs1 = fs_root_synced fs0).
  { rewrite Hfs1. unfold lock_file. by destruct (fs_entries fs0 !! WRITE_LOCK_FILE_NAME). }
  assert (H2 : fs_root_synced fs2 = fs_root_synced fs1).
  { destruct d as [d|]; [destruct Hend as (i & _ & Hend); by apply Hcut in Hend|cbn in Hend; by rewrite Hend]. }
  rewrite <-H1, <-H2.
  destruct (fs_entries fs2 !! file_name active) as [[i|]|]; [by apply Hcut in Hw|by subst fs'..].
Qed.

(** The directory when the lock has been taken. *)
Lemma lock_stored fs m active segs d bodies nlog reg x :
  fs_locks fs = ∅ → stored fs active segs d bodies nlog reg x →
  ∃ fs' f, (create_dir_all_synced ;; acquire_write_lock) (mkWorld fs m) = (Ok f, mkWorld fs' m) ∧
    no_faults fs' ∧ fs_root fs' = RootDir ∧ fs_wf fs' ∧ fs_locks fs' = {[file_inode f]} ∧
    (∀ name, owned_name name → not_other fs' name) ∧
    segments_are fs' active segs d bodies ∧ registry_stored fs' reg ∧ index_stored fs' reg x ∧ lock_taken fs fs'.
Proof.
  intros Hl [Hnf Hr Hwf Hn Hs Hlog Hreg Hx Hh].
  destruct (create_dir_run fs m Hnf Hr) as (fs1 & Hcreate & Hr1 & Hf1 & He1 & Hi1 & Hn1 & Hl1 & Hu1 & Hs1).
  assert (Hd1 : ∀ j, data_of j fs1 = data_of j fs) by (intros j; unfold data_of, inode_of; by rewrite Hi1).
  destruct (acquire_write_lock_run fs1 m) as (fs2 & f & Hlock & Hr2 & Hf2 & Hwf2 & Hl2 & He2 & Hd2 & Hfs2).
  { unfold no_faults. by rewrite Hf1. }
  { done. }
  { unfold fs_wf. by rewrite He1, Hn1. }
  { by rewrite Hl1. }
  { unfold not_other. rewrite He1. apply Hn. by right. }
  exists fs2, f. rewrite (bind_ok _ _ _ _ _ Hcreate). split; [done|].
  assert (Hent : ∀ name, owned_name name → fs_entries fs2 !! name = fs_entries fs !! name).
  { intros name Ho. rewrite He2 by by apply owned_not_lock. by rewrite He1. }
  assert (Hdata : ∀ name j, fs_entries fs !! name = Some (EntryFile j) → data_of j fs2 = data_of j fs).
  { intros name j Hj. rewrite (Hd2 name), Hd1; [done|by rewrite He1]. }
  assert (Hmeta : same_metadata_files fs fs2).
  { apply same_data_metadata; [|done]. intros name Hin. apply Hent. by left. }
  split; [done|]. split; [done|]. split; [done|]. split; [done|]. split; [|split; [|split; [|split; [|by exists fs1]]]].
  - intros name Ho. unfold not_other. rewrite Hent by done. apply Hn. by left.
  - destruct Hr as [Hroot|[Hroot Hempty]].
    + eapply segments_are_same; [|done]. split; [by rewrite Hroot|]. split; [unfold no_faults in *; congruence|].
      intros name n Hp. split; [apply Hent; right; eauto|]. by apply Hdata.
    + destruct Hs as [Hs Ha Ho|paths segs' i d' bodies' _ _ _ (Hfr & _) _]; [|congruence].
      assert (Hno : ∀ name, owned_name name → fs_entries fs2 !! name = None)
        by (intros name Hown; rewrite Hent by done; by rewrite Hempty, lookup_empty).
      constructor; [|done|].
      * destruct (segments_of fs2) as [|p l] eqn:E; [done|]. exfalso.
        assert (Hin : p ∈ segments_of fs2) by (rewrite E; by left).
        apply elem_of_segments_of in Hin as (Hpf & Hpid & i & Hi).
        rewrite Hno in Hi; [done|]. right. rewrite Hpf. exists (path_name p). by apply parse_file_name_print.
      * unfold not_other. rewrite Hno; [done|]. right. exists active. rewrite Ha. by apply parse_file_name_print.
  - by eapply registry_stored_same.
  - by eapply index_stored_same.
Qed.

Lemma select_active_run fs m active segs d bodies :
  no_faults fs → fs_root fs = RootDir → segments_are fs active segs d bodies →
  select_active_append_segment (mkWorld fs m) = (Ok active, mkWorld fs m).
Proof.
  intros Hnf Hr Hs. unfold select_active_append_segment.
  rewrite (bind_ok _ _ _ _ _ (discover_segment_paths_run (mkWorld fs m) Hnf Hr)). cbn [w_fs].
  destruct Hs as [Hs -> _|paths segs' i d' bodies' Hs _ _ _ _]; rewrite Hs; [done|].
  assert (Hlt : ∀ p, p ∈ paths → name_lt (path_name p) active) by (intros p; by apply (sealed_names fs)).
  assert (Hfold : ∀ l acc, name_le acc active → (∀ p : SegmentPath, p ∈ l → name_lt (path_name p) active) →
    foldl name_max acc (path_name <$> (l ++ [active_path active])) = active).
  { induction l as [|p l IH]; intros acc Hacc Hl.
    - cbn. unfold name_max. by rewrite decide_True.
    - cbn [app]. rewrite fmap_cons. cbn [foldl]. apply IH; [|intros q Hq; apply Hl; by right].
      specialize (Hl p ltac:(by left)). unfold name_max, name_lt, name_le in *. case_decide; lia. }
  destruct paths as [|p paths]; [done|]. cbn [app]. rewrite fmap_cons.
  rewrite Hfold; [done| |intros q Hq; apply Hlt; by right].
  specialize (Hlt p ltac:(by left)). unfold name_lt, name_le in *. lia.
Qed.
(** After recovery, the metadata files are as they were. *)
Lemma recovery_run fs m active segs d bodies nlog reg x :
  no_faults fs → fs_root fs = RootDir → fs_wf fs → (∀ name, owned_name name → not_other fs name) →
  segments_are fs active segs d bodies → registry_stored fs reg → index_stored fs reg x →
  log_decodes (log_of (segs ++ [(active, bodies)])) nlog →
  (∀ n p, checkpoint_position x n = Some p → hint_ok n (Some p) nlog) →
  ∃ fs' m', recover_storage_dir active (mkWorld fs m) = (Ok (), mkWorld fs' m') ∧
    no_faults fs' ∧ fs_root fs' = RootDir ∧ fs_wf fs' ∧ fs_locks fs' = fs_locks fs ∧
    (∀ name, owned_name name → not_other fs' name) ∧ recovered_are fs' active segs bodies ∧
    (∀ m, registry_load (mkWorld fs' m) = (Ok reg, mkWorld fs' m)) ∧
    (∀ m, index_load reg (mkWorld fs' m) = (Ok x, mkWorld fs' m)) ∧ end_cut active d bodies fs fs' ∧
    same_pending m m'.
Proof.
  intros Hnf Hr Hwf Hn Hs Hreg Hx Hlog Hh.
  destruct (recover_storage_dir_run fs m active segs d bodies Hnf Hr Hs) as (fs' & m' & Hrun & Hspec & Hm).
  pose proof (segments_are_recovered fs fs' active segs d bodies Hwf Hs Hspec) as Hrec.
  assert (Hsame : ∃ i, same_but i fs fs' ∧ same_metadata_files fs fs').
  { destruct Hs as [| paths segs' i d' bodies' _ _ Hid _ _].
    - subst fs'. by exists 0.
    - destruct Hspec as (j & Hj & [Hsame _]%cut_to_same_but). exists j. split; [done|]. by eapply same_but_metadata. }
  destruct Hsame as (i & (Hr' & Hf' & He' & Hnx' & Hl' & _) & Hmeta).
  assert (Hnf' : no_faults fs') by (unfold no_faults; by rewrite Hf').
  assert (Hroot' : fs_root fs' = RootDir) by by rewrite Hr'.
  destruct (recovered_held fs' active segs bodies Hnf' Hroot' Hrec) as (segs' & Hheld & Hsegs').
  exists fs', m'. split; [done|]. split; [done|]. split; [done|].
  split; [unfold fs_wf; by rewrite He', Hnx'|]. split; [done|].
  split; [intros name Ho; unfold not_other; rewrite He'; by apply Hn|]. split; [done|]. split; [|split; [|by split]].
  - intros m0. apply stored_registry_load; [done|done|]. by eapply registry_stored_same.
  - intros m0. eapply stored_index_load; [exact Hheld|rewrite Hsegs'; exact Hlog| |exact Hh].
    by eapply index_stored_same.
Qed.

(** [StorageEngine::with_max_segment_len] on a directory that can be opened. *)
Lemma with_max_segment_len_run fs m max_len active segs d bodies nlog reg x :
  max_len ≠ 0 → fs_locks fs = ∅ → stored fs active segs d bodies nlog reg x →
  ∃ fs' m' e, with_max_segment_len max_len (mkWorld fs m) = (Ok e, mkWorld fs' m') ∧
    engine_ok (mkEngineState (mkWorld fs' m') e) nlog ∧
    engine_registry e = reg ∧ engine_index e = x ∧
    active_segment (engine_writer e) = active ∧ max_segment_len (engine_writer e) = max_len ∧
    opening active d bodies fs fs' ∧ same_pending metrics_default m'.
Proof.
  intros Hmax Hlk Hst. unfold with_max_segment_len. rewrite (proj2 (N.eqb_neq _ _) Hmax).
  destruct (lock_stored fs m active segs d bodies nlog reg x Hlk Hst)
    as (fs1 & f & Hlock & Hnf1 & Hr1 & Hwf1 & Hl1 & Hn1 & Hs1 & Hreg1 & Hx1 & Ho1).
  destruct Hst as [_ _ _ _ _ Hlog _ _ Hh].
  unfold mbind at 1, M_bind at 1 in Hlock. unfold mbind at 1, M_bind at 1.
  destruct (create_dir_all_synced (mkWorld fs m)) as [[[]|e0] w0]; [|done].
  rewrite (bind_ok _ _ _ _ _ Hlock). unfold release_on_error.
  rewrite (bind_ok _ _ _ _ _ (select_active_run fs1 m active segs d bodies Hnf1 Hr1 Hs1)).
  rewrite (bind_ok _ _ _ () (mkWorld fs1 metrics_default)) by done.
  destruct (recovery_run fs1 metrics_default active segs d bodies nlog reg x Hnf1 Hr1 Hwf1 Hn1 Hs1 Hreg1 Hx1 Hlog Hh)
    as (fs2 & m2 & Hrec & Hnf2 & Hr2 & Hwf2 & Hl2 & Hn2 & Hs2 & Hrl & Hil & Ho2 & Hm2).
  rewrite (bind_ok _ _ _ _ _ Hrec), (bind_ok _ _ _ _ _ (Hrl m2)), (bind_ok _ _ _ _ _ (Hil m2)).
  set (m3 := registry_loaded (active_node_count reg) (removed_node_count reg) m2).
  rewrite (bind_ok _ _ _ () (mkWorld fs2 m3)) by done.
  set (m4 := checkpoint_index_loaded (index_len x) m3).
  rewrite (bind_ok _ _ _ () (mkWorld fs2 m4)) by done.
  destruct (segment_writer_open_run fs2 m4 active segs bodies max_len Hnf2 Hr2 Hwf2 Hs2)
    as (fs3 & m5 & w & Hopen & Hw & Hact & Hmaxl & Hmeta & Ho3 & Hm3).
  rewrite (bind_ok _ _ _ _ _ Hopen). eexists fs3, m5, _. split; [reflexivity|].
  split; [|do 4 (split; [done|]); split; [by exists fs1, fs2|destruct Hm2, Hm3; split; by etrans]]. split; cbn [es_world es_engine w_fs engine_writer engine_registry engine_index].
  - exists segs, bodies. split; [exact Hw|]. unfold writer_log. by rewrite Hact.
  - by eapply same_metadata_names.
  - intros n p _ Hp. by apply Hh.
Qed.
End open.
