(* ===== verification/Durability.v ===== *)
(** * What survives a crash

    [disk_ok] describes a directory between two operations of the engine: its
    current contents, and how much of them every crash leaves.  [crashes_to]
    says what may be found when the process dies or the system crashes; the
    lemmas here give it for every intermediate state of the engine's writes. *)
From Stdlib Require Import Strings.Byte Strings.String.
From S2P Require Import Prelude Metrics Fs Text Json Noraft State Crc32c Codec Format Frame.
From S2P Require Import Segment Replay Registry Checkpoint Engine Recovery RecoveryCorrect.
From S2P Require Import ReplayCorrect WriterCorrect MetadataCorrect MetadataFaults EngineCorrect.
From S2P Require Import LoadCorrect OpenCorrect.

(** ** Stopping *)

(** The contents a stop may leave in an inode. *)
Definition leaves (fs : Fs) (i : N) (c : list byte) : Prop :=
  crash_versions (data_of i fs) (i_unsynced (inode_of i fs)) c.

Definition dir_versions (fs : Fs) : list (gmap string DirEntry) := fs_entries fs :: fs_entries_unsynced fs.

(** The process died, or the system crashed: the directory is one of its
    versions and every file has contents that a crash may leave. *)
Definition stopped (fs fs' : Fs) : Prop :=
  fs_root fs' = fs_root fs ∧ fs_next_inode fs' = fs_next_inode fs ∧
  fs_entries fs' ∈ dir_versions fs ∧ ∀ i, leaves fs i (data_of i fs').

Lemma crash_versions_current d older : crash_versions d older d.
Proof. destruct older; cbn; [done|by left]. Qed.

Lemma leaves_current fs i : leaves fs i (data_of i fs).
Proof. apply crash_versions_current. Qed.

Lemma crash_stopped fs fs' : crash fs fs' → stopped fs fs'.
Proof. intros (Hr & He & _ & Hd & Hn & _). repeat (split; [done|]). intros i. apply Hd. Qed.

(** A process that dies leaves the files as they are; its locks are released. *)
Lemma death_stopped fs locks faults : stopped fs (set_locks locks (set_faults faults fs)).
Proof. split; [done|]. split; [done|]. split; [by left|]. intros i. exact (leaves_current fs i). Qed.

(** ** Disks *)

(** A directory that can be opened, by its current contents: the sealed
    segments, the complete records of the active one, the metadata files. *)
Record on_disk (fs : Fs) (sealed : list segment_contents) (active : SegmentName)
  (bodies : list (list byte)) (reg idx : option (list byte)) : Prop := {
  od_root : fs_root fs = RootDir;
  od_wf : fs_wf fs;
  od_names : ∀ name, owned_name name ∨ name = WRITE_LOCK_FILE_NAME → not_other fs name;
  od_segments : ∃ d, segments_are fs active sealed (Some d) bodies;
  od_registry : file_text fs NODE_REGISTRY_FILE_NAME = reg;
  od_index : file_text fs CHECKPOINT_INDEX_FILE_NAME = idx;
}.

(** The same, by the log of its records. *)
Definition holds_log (fs : Fs) (l : list (RecordPosition * list byte)) (reg idx : option (list byte)) : Prop :=
  ∃ sealed active bodies, on_disk fs sealed active bodies reg idx ∧ l = log_of (sealed ++ [(active, bodies)]).

(** Whenever the process or the system stops, the directory holds a log and
    metadata files as [Q] says. *)
Definition crashes_to (fs : Fs)
  (Q : list (RecordPosition * list byte) → option (list byte) → option (list byte) → Prop) : Prop :=
  ∀ fs', stopped fs fs' → ∃ l reg idx, holds_log fs' l reg idx ∧ Q l reg idx.

Lemma crashes_to_mono fs (Q Q' : list (RecordPosition * list byte) → option (list byte) → option (list byte) → Prop) :
  crashes_to fs Q → (∀ l r x, Q l r x → Q' l r x) → crashes_to fs Q'.
Proof. intros H HQ fs' Hs. destruct (H fs' Hs) as (l & r & x & Hh & Hq). exists l, r, x. auto. Qed.

(** The contents under a name do not change at a crash. *)
Definition file_synced (fs : Fs) (name : string) : Prop :=
  ∀ j, fs_entries fs !! name = Some (EntryFile j) → i_unsynced (inode_of j fs) = [].

(** What a crash leaves: the directory is settled up to the lock file, the
    sealed segments and the metadata files are synced, and the active segment
    keeps at least the records [durable], with at most a torn record after
    those that survive. *)
Record disk_safe (fs : Fs) (sealed : list segment_contents) (active : SegmentName) (i : N)
  (bodies durable : list (list byte)) (reg idx : option (list byte)) : Prop := {
  ds_root : fs_root fs = RootDir;
  ds_wf : fs_wf fs;
  ds_names : ∀ name, owned_name name ∨ name = WRITE_LOCK_FILE_NAME → not_other fs name;
  ds_dirs : ∀ e, e ∈ fs_entries_unsynced fs →
    e = fs_entries fs ∨ e = delete WRITE_LOCK_FILE_NAME (fs_entries fs);
  ds_segments : ∃ paths, segments_of fs = paths ++ [active_path active] ∧ Forall2 (holds_segment fs) paths sealed;
  ds_sealed : ∀ p, p ∈ segments_of fs → path_name p ≠ active → file_synced fs (path_file p);
  ds_id : segment_id active < U64_LIMIT;
  ds_active : fs_entries fs !! file_name active = Some (EntryFile i);
  ds_leaves : ∀ c, leaves fs i c → ∃ b, torn_data c b ∧ durable `prefix_of` b ∧ b `prefix_of` bodies;
  ds_registry : file_text fs NODE_REGISTRY_FILE_NAME = reg;
  ds_registry_synced : file_synced fs NODE_REGISTRY_FILE_NAME;
  ds_index : file_text fs CHECKPOINT_INDEX_FILE_NAME = idx;
  ds_index_synced : file_synced fs CHECKPOINT_INDEX_FILE_NAME;
}.

(** Between two operations the active segment is complete. *)
Record disk_ok (fs : Fs) (sealed : list segment_contents) (active : SegmentName) (i : N)
  (bodies durable : list (list byte)) (reg idx : option (list byte)) : Prop := {
  dk_safe : disk_safe fs sealed active i bodies durable reg idx;
  dk_data : data_of i fs = segment_data bodies [];
  dk_fit : bodies_fit bodies;
}.

(** ** Logs and prefixes *)

Lemma log_of_prefix sealed active b1 b2 :
  b1 `prefix_of` b2 → log_of (sealed ++ [(active, b1)]) `prefix_of` log_of (sealed ++ [(active, b2)]).
Proof.
  intros [k ->]. unfold log_of. rewrite !bind_app. apply prefix_app. cbn. rewrite !app_nil_r.
  unfold segment_log. cbn [fst snd]. rewrite with_offsets_app, fmap_app. by eexists.
Qed.

(** A prefix of a frame behind complete records. *)
Lemma torn_between bodies body c :
  bodies_fit bodies → lenN body ≤ MAX_RECORD_BODY_LEN →
  segment_data bodies [] `prefix_of` c → c `prefix_of` segment_data bodies [] ++ wire_frame body →
  torn_data c bodies ∨ torn_data c (bodies ++ [body]).
Proof.
  intros Hf Hb [t ->] Ht. apply prefix_app_inv in Ht as [lost Hl].
  assert (Hc : segment_data bodies [] ++ t = segment_data bodies t).
  { unfold segment_data. by rewrite app_nil_r, <-app_assoc. }
  destruct lost as [|x lost].
  - right. right. exists []. rewrite app_nil_r in Hl. subst t. split; [by apply segment_data_snoc|].
    split; [done|]. apply Forall_app. by repeat constructor.
  - left. right. exists t. split; [done|]. split; [|done]. by eapply frame_at_torn.
Qed.

Lemma torn_complete bodies : bodies_fit bodies → torn_data (segment_data bodies []) bodies.
Proof. right. by exists []. Qed.

(** The two segment headers cut short. *)
Lemma torn_header c : c `prefix_of` SEGMENT_FORMAT_MAGIC → torn_data c [].
Proof.
  intros [t Ht]. destruct t as [|x t].
  - rewrite app_nil_r in Ht. subst c. apply (torn_complete []). constructor.
  - left. split; [|done]. apply (f_equal lenN) in Ht. rewrite lenN_app, lenN_cons in Ht.
    change (lenN SEGMENT_FORMAT_MAGIC) with 4 in Ht. change SEGMENT_FILE_HEADER_LEN with 4. lia.
Qed.

(** ** What a settled directory crashes to *)

(** The segments of a directory with the same segment files. *)
Lemma segments_of_agree fs fs' :
  (∀ name n, parse_file_name name = Some n → fs_entries fs' !! name = fs_entries fs !! name) →
  segments_of fs' = segments_of fs.
Proof.
  intros Hs. apply segments_of_unique; [apply segments_of_sorted|]. intros p. rewrite !elem_of_segments_of.
  assert (He : path_file p = file_name (path_name p) → segment_id (path_name p) < U64_LIMIT →
            fs_entries fs' !! path_file p = fs_entries fs !! path_file p).
  { intros Hf Hid. apply (Hs _ (path_name p)). rewrite Hf. by apply parse_file_name_print. }
  split; intros (Hf & Hid & j & Hj); (split; [done|]); (split; [done|]); exists j; specialize (He Hf Hid); congruence.
Qed.

Lemma leaves_synced fs j c : i_unsynced (inode_of j fs) = [] → leaves fs j c → c = data_of j fs.
Proof. unfold leaves. by intros ->. Qed.

Section mount.
Context (fs : Fs) (sealed : list segment_contents) (active : SegmentName) (i : N).
Context (bodies durable : list (list byte)) (reg idx : option (list byte)).
Hypothesis Hsafe : disk_safe fs sealed active i bodies durable reg idx.

(** A directory with the segment files of [fs], after a stop. *)
Lemma mount fs' :
  fs_root fs' = RootDir → fs_wf fs' →
  (∀ name, owned_name name ∨ name = WRITE_LOCK_FILE_NAME → not_other fs' name) →
  (∀ name n, parse_file_name name = Some n → fs_entries fs' !! name = fs_entries fs !! name) →
  (∀ name n j, parse_file_name name = Some n → fs_entries fs !! name = Some (EntryFile j) →
     leaves fs j (data_of j fs')) →
  ∃ b, durable `prefix_of` b ∧ b `prefix_of` bodies ∧
       on_disk fs' sealed active b (file_text fs' NODE_REGISTRY_FILE_NAME) (file_text fs' CHECKPOINT_INDEX_FILE_NAME).
Proof using Hsafe.
  intros Hr Hwf Hn He Hd. destruct Hsafe as [_ _ _ _ (paths & Hp & Hh) Hsync Hid Ha Hl _ _ _ _].
  pose proof (parse_file_name_print active Hid) as Hpa.
  destruct (Hl _ (Hd _ _ _ Hpa Ha)) as (b & Ht & Hdb & Hbb). exists b. split; [done|]. split; [done|].
  split; try done. exists (data_of i fs').
  apply (some_segments fs' active paths sealed i); [by rewrite (segments_of_agree fs fs' He)| |done| |done].
  - eapply Forall2_In_l; [exact Hh|]. intros p seg Hin (Hpn & Hb & j & _ & Hj & Hdj).
    assert (Hps : p ∈ segments_of fs) by (rewrite Hp; apply elem_of_app; by left).
    split; [done|]. split; [done|]. exists j. split; [done|].
    pose proof (segment_paths_parse fs p Hps) as Hpp. split; [by rewrite (He _ _ Hpp)|].
    rewrite <-Hdj. apply leaves_synced; [|by eapply Hd].
    apply (Hsync p Hps); [|exact Hj]. intros E. pose proof (sealed_names fs paths active p Hp Hin) as Hlt.
    rewrite E in Hlt. unfold name_lt in Hlt. lia.
  - split; [done|]. by rewrite (He _ _ Hpa).
Qed.

Lemma lock_not_owned : parse_file_name WRITE_LOCK_FILE_NAME = None.
Proof. reflexivity. Qed.

(** The versions of the directory differ in the lock file only. *)
Lemma version_lookup e name :
  e ∈ dir_versions fs → name ≠ WRITE_LOCK_FILE_NAME → e !! name = fs_entries fs !! name.
Proof using Hsafe.
  intros [->|Hin]%elem_of_cons Hn; [done|]. destruct (ds_dirs _ _ _ _ _ _ _ _ Hsafe e Hin) as [->| ->]; [done|].
  by rewrite lookup_delete_ne.
Qed.

Lemma version_lookup_some e name x : e ∈ dir_versions fs → e !! name = Some x → fs_entries fs !! name = Some x.
Proof using Hsafe.
  intros [->|Hin]%elem_of_cons; [done|]. destruct (ds_dirs _ _ _ _ _ _ _ _ Hsafe e Hin) as [->| ->]; [done|].
  rewrite lookup_delete. by case_decide.
Qed.

Lemma version_wf fs' :
  fs_entries fs' ∈ dir_versions fs → fs_next_inode fs ≤ fs_next_inode fs' → fs_wf fs'.
Proof using Hsafe.
  intros He Hn. destruct (ds_wf _ _ _ _ _ _ _ _ Hsafe) as [Hinj Hb]. split.
  - intros a b j Ha Hb'. eapply Hinj; by eapply version_lookup_some.
  - intros a j Ha. apply (version_lookup_some _ _ _ He), Hb in Ha. lia.
Qed.

Lemma version_names fs' :
  fs_entries fs' ∈ dir_versions fs →
  ∀ name, owned_name name ∨ name = WRITE_LOCK_FILE_NAME → not_other fs' name.
Proof using Hsafe.
  intros He name Hn Ho. apply (version_lookup_some _ _ _ He) in Ho. by eapply (ds_names _ _ _ _ _ _ _ _ Hsafe).
Qed.

(** A synced file of the directory after a stop. *)
Lemma version_text fs' name :
  fs_entries fs' ∈ dir_versions fs →
  (∀ j, fs_entries fs !! name = Some (EntryFile j) → leaves fs j (data_of j fs')) →
  name ≠ WRITE_LOCK_FILE_NAME → file_synced fs name → file_text fs' name = file_text fs name.
Proof using Hsafe.
  intros He Hd Hn Hs. unfold file_text. rewrite (version_lookup _ _ He Hn).
  destruct (fs_entries fs !! name) as [[j|]|] eqn:E; [|done|done]. f_equal.
  apply leaves_synced; [by apply Hs|by apply Hd].
Qed.

(** The records that a crash leaves. *)
Definition between_logs (l : list (RecordPosition * list byte)) : Prop :=
  log_of (sealed ++ [(active, durable)]) `prefix_of` l ∧ l `prefix_of` log_of (sealed ++ [(active, bodies)]).

Lemma disk_safe_stopped fs' :
  stopped fs fs' → ∃ b, durable `prefix_of` b ∧ b `prefix_of` bodies ∧ on_disk fs' sealed active b reg idx.
Proof using Hsafe.
  intros (Hr & Hn & He & Hd).
  destruct (mount fs') as (b & Hdb & Hbb & Hod).
  - rewrite Hr. apply Hsafe.
  - apply version_wf; [done|lia].
  - by apply version_names.
  - intros name n Hp. apply version_lookup; [done|]. by intros ->.
  - intros name n j _ _. apply Hd.
  - rewrite (version_text fs' NODE_REGISTRY_FILE_NAME) in Hod by (done || apply Hsafe || (intros; apply Hd)).
    rewrite (version_text fs' CHECKPOINT_INDEX_FILE_NAME) in Hod by (done || apply Hsafe || (intros; apply Hd)).
    rewrite (ds_registry _ _ _ _ _ _ _ _ Hsafe), (ds_index _ _ _ _ _ _ _ _ Hsafe) in Hod.
    by exists b.
Qed.

Lemma disk_safe_crashes :
  crashes_to fs (λ l r x, between_logs l ∧ r = reg ∧ x = idx).
Proof using Hsafe.
  intros fs' Hs. destruct (disk_safe_stopped fs' Hs) as (b & Hdb & Hbb & Hod).
  exists (log_of (sealed ++ [(active, b)])), reg, idx. split; [by exists sealed, active, b|].
  split; [|done]. split; by apply log_of_prefix.
Qed.
End mount.

(** ** Changes of the active segment *)

Lemma inode_of_update_eq i d fs :
  inode_of i (update_data i d fs) = mkInode d (data_of i fs :: i_unsynced (inode_of i fs)).
Proof. unfold inode_of, update_data. cbn. by rewrite lookup_insert_eq. Qed.

Lemma inode_of_sync_eq i fs : inode_of i (sync_inode i fs) = mkInode (data_of i fs) [].
Proof. unfold inode_of, sync_inode. cbn. by rewrite lookup_insert_eq. Qed.

Lemma leaves_update fs i d c :
  leaves (update_data i d fs) i c ↔ c = d ∨ between (data_of i fs) d c ∨ leaves fs i c.
Proof. unfold leaves, data_of at 1. by rewrite inode_of_update_eq. Qed.

Lemma leaves_sync fs i c : leaves (sync_inode i fs) i c ↔ c = data_of i fs.
Proof. unfold leaves, data_of at 1. by rewrite inode_of_sync_eq. Qed.

(** [fs'] differs from [fs] in the contents of one file only. *)
Definition changed_inode (i : N) (fs fs' : Fs) : Prop :=
  fs_root fs' = fs_root fs ∧ fs_entries fs' = fs_entries fs ∧
  fs_entries_unsynced fs' = fs_entries_unsynced fs ∧ fs_next_inode fs' = fs_next_inode fs ∧
  ∀ j, j ≠ i → inode_of j fs' = inode_of j fs.

Lemma changed_update i d fs : changed_inode i fs (update_data i d fs).
Proof. repeat (split; [done|]). intros j Hj. by apply inode_of_update. Qed.

Lemma changed_sync i fs : changed_inode i fs (sync_inode i fs).
Proof. repeat (split; [done|]). intros j Hj. by apply inode_of_sync. Qed.

Lemma changed_faults i fs fs' f : changed_inode i fs fs' → changed_inode i fs (set_faults f fs').
Proof. done. Qed.

Lemma not_segment_registry : parse_file_name NODE_REGISTRY_FILE_NAME = None.
Proof. reflexivity. Qed.
Lemma not_segment_index : parse_file_name CHECKPOINT_INDEX_FILE_NAME = None.
Proof. reflexivity. Qed.

Lemma disk_safe_change fs fs' sealed active i bodies durable bodies' durable' reg idx :
  disk_safe fs sealed active i bodies durable reg idx → changed_inode i fs fs' →
  (∀ c, leaves fs' i c → ∃ b, torn_data c b ∧ durable' `prefix_of` b ∧ b `prefix_of` bodies') →
  disk_safe fs' sealed active i bodies' durable' reg idx.
Proof.
  intros Hs (Hr & He & Hu & Hnx & Hi) Hl. pose proof (ds_wf _ _ _ _ _ _ _ _ Hs) as Hwf.
  pose proof (parse_file_name_print active (ds_id _ _ _ _ _ _ _ _ Hs)) as Hpa.
  pose proof (ds_active _ _ _ _ _ _ _ _ Hs) as Ha.
  assert (Hmeta : ∀ name j, parse_file_name name = None → fs_entries fs !! name = Some (EntryFile j) → j ≠ i).
  { intros name j Hn Hj ->. rewrite (proj1 Hwf _ _ _ Hj Ha) in Hn. congruence. }
  assert (Htext : ∀ name, parse_file_name name = None → file_text fs' name = file_text fs name).
  { intros name Hn. unfold file_text. rewrite He. destruct (fs_entries fs !! name) as [[j|]|] eqn:E; [|done|done].
    unfold data_of. by rewrite Hi by by eapply Hmeta. }
  assert (Hsync : ∀ name, parse_file_name name = None → file_synced fs name → file_synced fs' name).
  { intros name Hn Hsy j. rewrite He. intros Hj. rewrite Hi by by eapply Hmeta. by apply Hsy. }
  assert (Hsegs : segments_of fs' = segments_of fs) by (unfold segments_of; by rewrite He).
  destruct Hs as [H1 _ H3 H4 (paths & Hp & Hh) H6 H7 _ _ H10 H11 H12 H13].
  split; try done.
  - by rewrite Hr.
  - unfold fs_wf. by rewrite He, Hnx.
  - intros name Hn. unfold not_other. rewrite He. by apply H3.
  - rewrite Hu, He. exact H4.
  - exists paths. rewrite Hsegs. split; [done|]. eapply Forall2_In_l; [exact Hh|].
    intros p seg Hin (Hn & Hb & j & Hjr & Hje & Hjd). split; [done|]. split; [done|]. exists j.
    split; [by rewrite Hr|]. split; [by rewrite He|]. unfold data_of. rewrite Hi; [done|].
    intros ->. by eapply sealed_not_active.
  - intros p. rewrite Hsegs. intros Hin Hne j. rewrite He. intros Hj. rewrite Hi; [by eapply H6|].
    intros ->. rewrite Hp in Hin. apply elem_of_app in Hin as [Hin|Hin].
    + by eapply sealed_not_active.
    + apply list_elem_of_singleton in Hin as ->. by apply Hne.
  - by rewrite He.
  - rewrite Htext by apply not_segment_registry. exact H10.
  - by apply Hsync.
  - rewrite Htext by apply not_segment_index. exact H12.
  - by apply Hsync.
Qed.

(** Nothing depends on the outcomes of the calls to come. *)
Lemma disk_safe_faults fs f sealed active i bodies durable reg idx :
  disk_safe fs sealed active i bodies durable reg idx →
  disk_safe (set_faults f fs) sealed active i bodies durable reg idx.
Proof.
  intros Hs. apply (disk_safe_change fs _ sealed active i bodies durable); [done|done|].
  apply (ds_leaves _ _ _ _ _ _ _ _ Hs).
Qed.

Lemma crashes_to_faults fs f Q : crashes_to fs Q → crashes_to (set_faults f fs) Q.
Proof. intros H fs' Hs. apply H. exact Hs. Qed.

(** The durable records are among the records. *)
Lemma disk_durable fs sealed active i bodies durable reg idx :
  disk_safe fs sealed active i bodies durable reg idx → durable `prefix_of` bodies.
Proof.
  intros Hs. destruct (ds_leaves _ _ _ _ _ _ _ _ Hs _ (leaves_current fs i)) as (b & _ & H1 & H2).
  by etrans.
Qed.

Section active.
Context (fs : Fs) (sealed : list segment_contents) (active : SegmentName) (i : N).
Context (bodies durable : list (list byte)) (reg idx : option (list byte)).
Hypothesis Hok : disk_ok fs sealed active i bodies durable reg idx.

(** Writing part of a frame. *)
Lemma disk_append body k :
  lenN body ≤ MAX_RECORD_BODY_LEN →
  disk_safe (update_data i (data_of i fs ++ takeN k (wire_frame body)) fs) sealed active i
    (bodies ++ [body]) durable reg idx.
Proof using Hok.
  intros Hb. destruct Hok as [Hs Hd Hf].
  apply (disk_safe_change fs _ sealed active i bodies durable); [done|apply changed_update|].
  intros c. rewrite leaves_update, Hd.
  assert (Hcase : segment_data bodies [] `prefix_of` c →
    c `prefix_of` segment_data bodies [] ++ takeN k (wire_frame body) →
    ∃ b, torn_data c b ∧ durable `prefix_of` b ∧ b `prefix_of` bodies ++ [body]).
  { intros H1 H2. assert (H3 : c `prefix_of` segment_data bodies [] ++ wire_frame body).
    { etrans; [exact H2|]. apply prefix_app. unfold takeN. apply prefix_take. }
    pose proof (disk_durable _ _ _ _ _ _ _ _ Hs) as Hp.
    destruct (torn_between bodies body c Hf Hb H1 H3) as [Ht|Ht].
    - exists bodies. split; [done|]. split; [done|]. by apply prefix_app_r.
    - exists (bodies ++ [body]). split; [done|]. split; [|done]. by apply prefix_app_r. }
  intros [->|[[[H1 H2]|[H1 H2]]|Hl]].
  - apply Hcase; [by apply prefix_app_r|done].
  - by apply Hcase.
  - apply Hcase.
    + etrans; [|exact H1]. by apply prefix_app_r.
    + etrans; [exact H2|]. by apply prefix_app_r.
  - destruct (ds_leaves _ _ _ _ _ _ _ _ Hs c Hl) as (b & Ht & H1 & H2). exists b.
    split; [done|]. split; [done|]. by apply prefix_app_r.
Qed.

Lemma disk_append_full body :
  lenN body ≤ MAX_RECORD_BODY_LEN →
  disk_ok (update_data i (data_of i fs ++ wire_frame body) fs) sealed active i
    (bodies ++ [body]) durable reg idx.
Proof using Hok.
  intros Hb. split.
  - pose proof (disk_append body (lenN (wire_frame body)) Hb) as H. by rewrite takeN_all in H by lia.
  - rewrite data_of_update_data, decide_True by done. rewrite (dk_data _ _ _ _ _ _ _ _ Hok). apply segment_data_snoc.
  - apply Forall_app. split; [apply Hok|by repeat constructor].
Qed.

Lemma disk_sync : disk_ok (sync_inode i fs) sealed active i bodies bodies reg idx.
Proof using Hok.
  destruct Hok as [Hs Hd Hf]. split; [|by rewrite data_of_sync_inode|done].
  apply (disk_safe_change fs _ sealed active i bodies durable); [done|apply changed_sync|].
  intros c Hc. apply leaves_sync in Hc as ->. exists bodies. rewrite Hd. split; [by apply torn_complete|done].
Qed.
End active.
