(* ===== verification/DurableWriter.v ===== *)
(** * What the writer leaves at a crash

    The segment writer when its calls may fail, or the system crash, at any
    point: whatever survives is a prefix of the records appended, and at least
    what a sync made durable. *)
From Stdlib Require Import Strings.Byte Strings.String.
From S2P Require Import Prelude Metrics Fs Text Json Noraft State Crc32c Codec Format Frame.
From S2P Require Import Segment Replay Registry Checkpoint Engine Recovery RecoveryCorrect.
From S2P Require Import ReplayCorrect WriterCorrect MetadataCorrect MetadataFaults EngineCorrect.
From S2P Require Import LoadCorrect OpenCorrect Faults Durability Surface.

(** ** A new segment file *)

Section rotation.
Context (fs : Fs) (next : SegmentName).
Let i' := fs_next_inode fs.

(** The states while the new file is created and its header written. *)
Record creating (fs1 : Fs) : Prop := {
  cr_root : fs_root fs1 = fs_root fs;
  cr_entries : fs_entries fs1 = <[file_name next := EntryFile i']> (fs_entries fs);
  cr_dirs : ∀ e, e ∈ fs_entries_unsynced fs1 → e ∈ dir_versions fs;
  cr_next : i' < fs_next_inode fs1;
  cr_inodes : ∀ j, j ≠ i' → inode_of j fs1 = inode_of j fs;
  cr_leaves : ∀ c, leaves fs1 i' c → c `prefix_of` SEGMENT_FORMAT_MAGIC;
}.

Lemma creating_new : creating (new_file (file_name next) fs).
Proof.
  split; try done.
  - cbn. unfold i'. lia.
  - intros j Hj. unfold inode_of, new_file. cbn. by rewrite lookup_insert_ne.
  - intros c. unfold leaves, data_of, inode_of, new_file. cbn. rewrite lookup_insert_eq. cbn. intros ->.
    by apply prefix_nil.
Qed.

Lemma creating_header fs1 d :
  creating fs1 → data_of i' fs1 = [] → d `prefix_of` SEGMENT_FORMAT_MAGIC → creating (update_data i' d fs1).
Proof.
  intros [H1 H2 H3 H4 H5 H6] Hd Hp. split; try done.
  - intros j Hj. rewrite inode_of_update by done. by apply H5.
  - intros c. rewrite leaves_update, Hd. intros [->|[[[_ H]|[H1' H2']]|H]]; [done|by etrans| |by apply H6].
    apply prefix_nil_inv in H2' as ->. by apply prefix_nil.
Qed.

Context (sealed : list segment_contents) (active : SegmentName) (i : N).
Context (bodies : list (list byte)) (reg idx : option (list byte)).
Hypothesis Hok : disk_ok fs sealed active i bodies bodies reg idx.
Hypothesis Hsynced : i_unsynced (inode_of i fs) = [].
Hypothesis Hnext : name_lt active next.
Hypothesis Hnid : segment_id next < U64_LIMIT.
Hypothesis Hnone : fs_entries fs !! file_name next = None.

Lemma creating_wf fs1 : creating fs1 → fs_wf fs1.
Proof using Hok Hnone Hnid.
  intros [_ He _ Hn _ _]. destruct (ds_wf _ _ _ _ _ _ _ _ (dk_safe _ _ _ _ _ _ _ _ Hok)) as [Hinj Hb]. split.
  - intros a b j. rewrite He, !lookup_insert. repeat case_decide; subst; try done.
    + intros [= <-] Hj. apply Hb in Hj. unfold i' in Hj. lia.
    + intros Hj [= <-]. apply Hb in Hj. unfold i' in Hj. lia.
    + apply Hinj.
  - intros a j. rewrite He, lookup_insert. case_decide; [by intros [= <-]|].
    intros Hj. apply Hb in Hj. unfold i' in *. lia.
Qed.

(** The segments once the new file is in the directory. *)
Lemma segments_of_insert fs1 :
  fs_entries fs1 = <[file_name next := EntryFile i']> (fs_entries fs) →
  segments_of fs1 = segments_of fs ++ [active_path next].
Proof using Hok Hnext Hnid Hnone.
  intros He. destruct (ds_segments _ _ _ _ _ _ _ _ (dk_safe _ _ _ _ _ _ _ _ Hok)) as (paths & Hp & _).
  assert (Hlt : ∀ p, p ∈ segments_of fs → path_lt p (active_path next)).
  { intros p. rewrite Hp, elem_of_app. intros [Hin|Hin].
    - pose proof (sealed_names fs paths active p Hp Hin) as H. unfold path_lt, name_lt in *. cbn. lia.
    - apply list_elem_of_singleton in Hin as ->. exact Hnext. }
  by eapply segments_of_new.
Qed.

(** The old segments, after a stop. *)
Lemma old_segments_hold fs' :
  fs_root fs' = fs_root fs →
  (∀ p, p ∈ segments_of fs → fs_entries fs' !! path_file p = fs_entries fs !! path_file p) →
  (∀ name j, fs_entries fs !! name = Some (EntryFile j) → leaves fs j (data_of j fs')) →
  Forall2 (holds_segment fs') (segments_of fs) (sealed ++ [(active, bodies)]).
Proof using Hok Hsynced Hnid.
  intros Hr He Hd. destruct Hok as [Hs Hdata Hfit].
  destruct (ds_segments _ _ _ _ _ _ _ _ Hs) as (paths & Hp & Hh). rewrite Hp in He |- *. apply Forall2_app.
  - eapply Forall2_In_l; [exact Hh|]. intros p seg Hin (Hpn & Hb & j & Hjr & Hj & Hdj).
    split; [done|]. split; [done|]. exists j. split; [by rewrite Hr|].
    split; [rewrite He; [done|apply elem_of_app; by left]|]. rewrite <-Hdj.
    apply leaves_synced; [|by eapply Hd]. apply (ds_sealed _ _ _ _ _ _ _ _ Hs p); [|intros E|exact Hj].
    + rewrite Hp. apply elem_of_app. by left.
    + pose proof (sealed_names fs paths active p Hp Hin) as Hlt. rewrite E in Hlt. unfold name_lt in Hlt. lia.
  - constructor; [|constructor]. pose proof (ds_active _ _ _ _ _ _ _ _ Hs) as Ha.
    split; [done|]. split; [done|]. exists i. split; [by rewrite Hr; apply Hs|].
    split; [rewrite He; [exact Ha|apply elem_of_app; right; by left]|]. cbn [snd]. rewrite <-Hdata.
    apply leaves_synced; [done|by eapply Hd].
Qed.

(** A stop while the new file is being made that loses its name. *)
Lemma stop_without_segment fs' :
  fs_root fs' = fs_root fs → fs_next_inode fs ≤ fs_next_inode fs' → fs_entries fs' ∈ dir_versions fs →
  (∀ name j, fs_entries fs !! name = Some (EntryFile j) → leaves fs j (data_of j fs')) →
  holds_log fs' (log_of (sealed ++ [(active, bodies)])) reg idx.
Proof using Hok.
  intros Hr Hn Hv Hd. pose proof (dk_safe _ _ _ _ _ _ _ _ Hok) as Hs.
  destruct (mount fs sealed active i bodies bodies reg idx Hs fs') as (b & Hdb & Hbb & Hod).
  - rewrite Hr. apply Hs.
  - eapply version_wf; [exact Hs|done|done].
  - by eapply version_names.
  - intros name n Hp. eapply version_lookup; [exact Hs|done|]. by intros ->.
  - intros name n j _. by apply Hd.
  - rewrite (version_text fs sealed active i bodies bodies reg idx Hs fs' NODE_REGISTRY_FILE_NAME) in Hod
      by (done || apply Hs || (intros j; apply Hd)).
    rewrite (version_text fs sealed active i bodies bodies reg idx Hs fs' CHECKPOINT_INDEX_FILE_NAME) in Hod
      by (done || apply Hs || (intros j; apply Hd)).
    rewrite (ds_registry _ _ _ _ _ _ _ _ Hs), (ds_index _ _ _ _ _ _ _ _ Hs) in Hod.
    assert (b = bodies) as -> by (by apply (anti_symm prefix)). by exists sealed, active, bodies.
Qed.

(** A stop that keeps it. *)
Lemma stop_with_segment fs' :
  fs_root fs' = fs_root fs → fs_wf fs' → fs_entries fs' = <[file_name next := EntryFile i']> (fs_entries fs) →
  (∀ name j, fs_entries fs !! name = Some (EntryFile j) → leaves fs j (data_of j fs')) →
  data_of i' fs' `prefix_of` SEGMENT_FORMAT_MAGIC →
  holds_log fs' (log_of (sealed ++ [(active, bodies)])) reg idx.
Proof using Hok Hsynced Hnext Hnid Hnone.
  intros Hr Hwf Hv Hd Hp. pose proof (dk_safe _ _ _ _ _ _ _ _ Hok) as Hs.
  assert (Hlook : ∀ name, name ≠ file_name next → fs_entries fs' !! name = fs_entries fs !! name).
  { intros name Hne. by rewrite Hv, lookup_insert_ne. }
  assert (Htext : ∀ name, parse_file_name name = None → file_synced fs name → file_text fs' name = file_text fs name).
  { intros name Hpn Hsy. unfold file_text.
    rewrite Hlook by (intros ->; by rewrite parse_file_name_print in Hpn).
    destruct (fs_entries fs !! name) as [[j|]|] eqn:E; [|done|done]. f_equal.
    apply leaves_synced; [by apply Hsy|by eapply Hd]. }
  exists (sealed ++ [(active, bodies)]), next, [].
  split; [|symmetry; apply log_of_empty_active]. split.
  - rewrite Hr. apply Hs.
  - exact Hwf.
  - intros name Hname. unfold not_other. rewrite Hv, lookup_insert. case_decide; [done|]. by apply (ds_names _ _ _ _ _ _ _ _ Hs).
  - exists (data_of i' fs'). apply (some_segments fs' next (segments_of fs) _ i').
    + by apply segments_of_insert.
    + apply old_segments_hold; [done| |exact Hd]. intros p Hin. apply Hlook.
      apply elem_of_segments_of in Hin as (_ & _ & j & Hj). congruence.
    + done.
    + split; [by rewrite Hr; apply Hs|]. split; [|done]. by rewrite Hv, lookup_insert_eq.
    + by apply torn_header.
  - rewrite Htext; [apply Hs|done|apply Hs].
  - rewrite Htext; [apply Hs|done|apply Hs].
Qed.

Lemma creating_crashes fs1 :
  creating fs1 →
  crashes_to fs1 (λ l r x, l = log_of (sealed ++ [(active, bodies)]) ∧ r = reg ∧ x = idx).
Proof using Hok Hsynced Hnext Hnid Hnone.
  intros Hc fs' (Hr & Hn & He & Hd). pose proof Hc as [Cr Ce Cd Cn Ci Cl].
  pose proof (ds_wf _ _ _ _ _ _ _ _ (dk_safe _ _ _ _ _ _ _ _ Hok)) as [_ Hb].
  assert (Hd' : ∀ name j, fs_entries fs !! name = Some (EntryFile j) → leaves fs j (data_of j fs')).
  { intros name j Hj. specialize (Hd j). unfold leaves, data_of in Hd |- *. rewrite (Ci j) in Hd; [done|].
    apply Hb in Hj. unfold i'. lia. }
  exists (log_of (sealed ++ [(active, bodies)])), reg, idx. split; [|done]. rewrite Cr in Hr.
  apply elem_of_cons in He as [He|He].
  - apply stop_with_segment; [done| |by rewrite He, Ce|done|apply Cl, Hd].
    assert (Hc' : creating (set_entries (fs_entries fs') [] fs1)) by (rewrite He; split; [done..|set_solver|done|done|done]).
    destruct (creating_wf _ Hc') as [W1 W2]. split; [exact W1|]. intros a j Hj. rewrite Hn. exact (W2 a j Hj).
  - apply stop_without_segment; [done| |by apply Cd|done]. unfold i' in Cn. lia.
Qed.

(** The new segment, when the directory is synced. *)
Lemma created_ok fs1 :
  creating fs1 → fs_entries_unsynced fs1 = [] → data_of i' fs1 = SEGMENT_FORMAT_MAGIC →
  disk_ok fs1 (sealed ++ [(active, bodies)]) next i' [] [] reg idx.
Proof using Hok Hsynced Hnext Hnid Hnone.
  intros Hc Hu Hdata. pose proof Hc as [Cr Ce Cd Cn Ci Cl]. pose proof (dk_safe _ _ _ _ _ _ _ _ Hok) as Hs.
  pose proof (ds_wf _ _ _ _ _ _ _ _ Hs) as [Hinj Hb].
  assert (Hlook : ∀ name, name ≠ file_name next → fs_entries fs1 !! name = fs_entries fs !! name).
  { intros name Hne. by rewrite Ce, lookup_insert_ne. }
  assert (Hino : ∀ name j, fs_entries fs !! name = Some (EntryFile j) → inode_of j fs1 = inode_of j fs).
  { intros name j Hj. apply Ci. apply Hb in Hj. unfold i'. lia. }
  assert (Htext : ∀ name, parse_file_name name = None →
            file_text fs1 name = file_text fs name ∧ (file_synced fs name → file_synced fs1 name)).
  { intros name Hp. assert (Hne : name ≠ file_name next) by (intros ->; by rewrite parse_file_name_print in Hp).
    unfold file_text, file_synced. rewrite (Hlook name Hne). split.
    - destruct (fs_entries fs !! name) as [[j|]|] eqn:E; [|done|done]. unfold data_of. by rewrite (Hino name).
    - intros Hsy j Hj. rewrite (Hino name) by done. by apply Hsy. }
  assert (Hsegs : segments_of fs1 = segments_of fs ++ [active_path next]) by by apply segments_of_insert.
  split; [|done|constructor]. split.
  - rewrite Cr. apply Hs.
  - by apply creating_wf.
  - intros name Hname. unfold not_other. rewrite Ce, lookup_insert. case_decide; [done|]. by apply (ds_names _ _ _ _ _ _ _ _ Hs).
  - rewrite Hu. by intros e ?%elem_of_nil.
  - exists (segments_of fs). split; [done|]. apply old_segments_hold; [done| |].
    + intros p Hin. apply Hlook. apply elem_of_segments_of in Hin as (_ & _ & j & Hj). congruence.
    + intros name j Hj. unfold leaves, data_of. rewrite (Hino name) by done. apply crash_versions_current.
  - intros p. rewrite Hsegs, elem_of_app, list_elem_of_singleton. intros [Hin| ->]; [intros _|done].
    pose proof Hin as (_ & _ & k & Hk)%elem_of_segments_of. intros j.
    rewrite Hlook by congruence. intros Hj. rewrite (Hino _ _ Hj).
    destruct (decide (path_name p = active)) as [E|E]; [|by apply (ds_sealed _ _ _ _ _ _ _ _ Hs p)].
    apply elem_of_segments_of in Hin as (Hf & _). rewrite Hf, E in Hj.
    pose proof (ds_active _ _ _ _ _ _ _ _ Hs) as Ha. congruence.
  - done.
  - by rewrite Ce, lookup_insert_eq.
  - intros c Hc'. exists []. split; [by apply torn_header, Cl|done].
  - rewrite (proj1 (Htext _ not_segment_registry)). apply Hs.
  - apply Htext; [done|apply Hs].
  - rewrite (proj1 (Htext _ not_segment_index)). apply Hs.
  - apply Htext; [done|apply Hs].
Qed.
End rotation.

(** ** Calls that may fail, with what they leave *)

Lemma set_faults_twice f g fs : set_faults f (set_faults g fs) = set_faults f fs.
Proof. done. Qed.

Lemma call_cases {A} (op : M Fs A) fs :
  ∃ f, call op fs = (Err fault_error, set_faults f fs) ∨ call op fs = op (set_faults f fs).
Proof.
  unfold call, mbind, M_bind. destruct (take_fault_spec fs) as (o & f & ->). exists f.
  destruct o; [by left|by right].
Qed.

(** A call that leaves the files as they are. *)
Lemma io_skip_cases fs m fl :
  ∃ f, io_call (call (mret ())) (mkIo fs m fl) = (Err fault_error, mkIo (set_faults f fs) m fl) ∨
       io_call (call (mret ())) (mkIo fs m fl) = (Ok (), mkIo (set_faults f fs) m fl).
Proof.
  unfold io_call, zoom. cbn [io_fs]. destruct (call_cases (mret ()) fs) as (f & [->| ->]); exists f; [by left|by right].
Qed.

Lemma file_sync_cases fs m fl :
  ∃ f, file_sync (mkIo fs m fl) = (Err fault_error, mkIo (set_faults f fs) m fl) ∨
       file_sync (mkIo fs m fl) = (Ok (), mkIo (set_faults f (sync_inode (file_inode fl) fs)) m fl).
Proof.
  unfold file_sync. destruct (io_skip_cases fs m fl) as (f & [H|H]); exists f.
  - left. by rewrite (bind_err _ _ _ _ _ H).
  - right. by rewrite (bind_ok _ _ _ _ _ H).
Qed.

Lemma file_append_cases fs m fl bytes :
  file_writable fl = true → file_append fl = true →
  let data := data_of (file_inode fl) fs in
  ∃ f, (∃ k fl', file_write_all bytes (mkIo fs m fl) =
          (Err fault_error, mkIo (set_faults f (update_data (file_inode fl) (data ++ takeN k bytes) fs)) m fl')) ∨
       file_write_all bytes (mkIo fs m fl) =
          (Ok (), mkIo (set_faults f (update_data (file_inode fl) (data ++ bytes) fs)) m
                    (seek_to (lenN data + lenN bytes) fl)).
Proof.
  intros Hw Ha data. unfold file_write_all, mbind, M_bind, io_call, zoom. cbn [io_fs].
  destruct (take_fault_spec fs) as (o & f & ->). exists f. unfold get_state, modify.
  cbn [io_file set_io_fs io_fs]. rewrite Hw, Ha. cbn [negb].
  set (io := set_io_fs _ _). change (io_data io) with data.
  assert (Ho : ∀ b, overwrite data (lenN data) b = data ++ b).
  { intros b. unfold overwrite. rewrite (takeN_all (lenN data)) by lia. rewrite N.sub_diag.
    cbn [N.to_nat replicate]. by rewrite dropN_all by lia; rewrite app_nil_l, app_nil_r. }
  rewrite Ho. destruct o as [k|]; [left|right].
  - exists k. eexists. reflexivity.
  - reflexivity.
Qed.

Lemma sync_dir_cases fs m :
  fs_root fs = RootDir →
  ∃ f, w_call fs_sync_dir (mkWorld fs m) = (Err fault_error, mkWorld (set_faults f fs) m) ∨
       w_call fs_sync_dir (mkWorld fs m) = (Ok (), mkWorld (set_faults f (sync_entries fs)) m).
Proof.
  intros Hr. unfold w_call, zoom, fs_sync_dir. cbn [w_fs].
  destruct (call_cases (in_dir (mret ())) fs) as (f & [H|H]).
  { exists f. left. by rewrite (bind_err _ _ _ _ _ H). }
  unfold in_dir, mbind, M_bind, get_state in H. change (fs_root (set_faults f fs)) with (fs_root fs) in H.
  rewrite Hr in H. destruct (call_cases (modify sync_entries) (set_faults f fs)) as (g & [H'|H']); exists g.
  - left. rewrite (bind_ok _ _ fs () (set_faults f fs)) by done. by rewrite H'.
  - right. rewrite (bind_ok _ _ fs () (set_faults f fs)) by done. by rewrite H'.
Qed.

Lemma with_file_kept_cases {A} (fl : File) (m : M Io A) fs mt r io :
  m (mkIo fs mt fl) = (r, io) →
  with_file_kept fl m (mkWorld fs mt) =
  (match r with Ok a => Ok (a, io_file io) | Err e => Err e end, mkWorld (io_fs io) (io_metrics io)).
Proof.
  intros Hm. unfold with_file_kept, with_file. cbn [w_fs w_metrics].
  unfold mbind, M_bind. rewrite Hm. by destruct r.
Qed.

(** Creating a segment file stops before or in the middle, or succeeds. *)
Lemma create_file_cases fs m name :
  fs_root fs = RootDir → fs_entries fs !! name = None →
  ∃ f, create_active_segment_file name (mkWorld fs m) = (Err fault_error, mkWorld (set_faults f fs) m) ∨
       (∃ k, create_active_segment_file name (mkWorld fs m) =
          (Err fault_error, mkWorld (set_faults f (update_data (fs_next_inode fs)
             (takeN k SEGMENT_FORMAT_MAGIC) (new_file name fs))) m)) ∨
       create_active_segment_file name (mkWorld fs m) =
          (Ok (mkFile (fs_next_inode fs) 4 true true), mkWorld (set_faults f (new_segment_fs name fs)) m).
Proof.
  intros Hr Hn. unfold create_active_segment_file. set (i := fs_next_inode fs). set (fl := mkFile i 0 true true).
  assert (Hopen : ∃ f, w_call (fs_open name create_active_options) (mkWorld fs m) =
      (Err fault_error, mkWorld (set_faults f fs) m) ∨
    w_call (fs_open name create_active_options) (mkWorld fs m) =
      (Ok fl, mkWorld (set_faults f (new_file name fs)) m)).
  { unfold w_call, zoom, fs_open. cbn [w_fs]. set (op := in_dir _).
    destruct (call_cases op fs) as (f & [H|H]); exists f; rewrite H; [by left|right].
    unfold op, in_dir, mbind, M_bind, get_state. change (fs_root (set_faults f fs)) with (fs_root fs). rewrite Hr.
    change (fs_entries (set_faults f fs)) with (fs_entries fs). by rewrite Hn. }
  destruct Hopen as (f & [H|H]).
  { exists f. left. by rewrite (bind_err _ _ _ _ _ H). }
  rewrite (bind_ok _ _ _ _ _ H). set (fs1 := set_faults f (new_file name fs)).
  assert (Hd : data_of i fs1 = []).
  { unfold fs1. change (data_of i (set_faults f ?x)) with (data_of i x). unfold i. by rewrite new_file_data, decide_True. }
  destruct (file_append_cases fs1 m fl SEGMENT_FORMAT_MAGIC eq_refl eq_refl) as (g & [(k & fl' & Hw)|Hw]);
    cbn [file_inode fl] in Hw; rewrite Hd in Hw; exists g; right; [left|right].
  - exists k. rewrite (bind_err _ _ _ _ _ (with_file_kept_cases _ _ _ _ _ _ Hw)). done.
  - rewrite (bind_ok _ _ _ _ _ (with_file_kept_cases _ _ _ _ _ _ Hw)). done.
Qed.

(** ** The writer *)

(** The writer and the directory it works on: [L] is the log of its records,
    [D] what of it survives any crash. *)
Record writer_disk (ws : WriterState) (L D : list (RecordPosition * list byte)) (reg idx : option (list byte)) : Prop := {
  wd_disk : ∃ sealed bodies durable,
    disk_ok (w_fs (ws_world ws)) sealed (active_segment (ws_writer ws)) (file_inode (writer_file (ws_writer ws)))
      bodies durable reg idx ∧
    L = log_of (sealed ++ [(active_segment (ws_writer ws), bodies)]) ∧
    D = log_of (sealed ++ [(active_segment (ws_writer ws), durable)]) ∧
    segment_len (ws_writer ws) = lenN (segment_data bodies []);
  wd_writable : file_writable (writer_file (ws_writer ws)) = true;
  wd_append : file_append (writer_file (ws_writer ws)) = true;
  wd_synced : unsynced_records (w_metrics (ws_world ws)) = 0 → unsynced_bytes (w_metrics (ws_world ws)) = 0 → D = L;
}.

Lemma writer_disk_faults fs m w f L D reg idx :
  writer_disk (mkWriterState (mkWorld fs m) w) L D reg idx →
  writer_disk (mkWriterState (mkWorld (set_faults f fs) m) w) L D reg idx.
Proof.
  intros [(sealed & bodies & durable & [Hs Hd Hf] & HL & HD & Hl) Hw Ha Hsy]. split; try done.
  exists sealed, bodies, durable. split; [|done]. split; [by apply disk_safe_faults|done|done].
Qed.

Lemma writer_disk_crashes ws L D reg idx :
  writer_disk ws L D reg idx →
  crashes_to (w_fs (ws_world ws)) (λ l r x, D `prefix_of` l ∧ l `prefix_of` L ∧ r = reg ∧ x = idx).
Proof.
  intros [(sealed & bodies & durable & [Hs _ _] & -> & -> & _) _ _ _].
  eapply crashes_to_mono; [by eapply disk_safe_crashes|]. by intros l r x ([H1 H2] & H3 & H4).
Qed.

Lemma writer_disk_prefix ws L D reg idx : writer_disk ws L D reg idx → D `prefix_of` L.
Proof.
  intros [(sealed & bodies & durable & [Hs _ _] & -> & -> & _) _ _ _].
  apply log_of_prefix. by eapply disk_durable.
Qed.

Lemma on_writer_file_cases {A} (m : M Io A) fs mt w r io :
  m (mkIo fs mt (writer_file w)) = (r, io) →
  on_writer_file m (mkWriterState (mkWorld fs mt) w) =
  match r with
  | Ok a => (Ok a, mkWriterState (mkWorld (io_fs io) (io_metrics io))
              (mkSegmentWriter (active_segment w) (io_file io) (segment_len w) (max_segment_len w)))
  | Err e => (Err e, mkWriterState (mkWorld (io_fs io) (io_metrics io)) w)
  end.
Proof.
  intros Hm. unfold on_writer_file, get_writer, mbind, M_bind, get_state, mret, M_ret.
  unfold on_world, zoom. cbn [ws_world ws_writer]. rewrite (with_file_kept_cases _ _ _ _ _ _ Hm). by destruct r.
Qed.

Lemma sync_current_cases fs m w :
  ∃ f, sync_current_segment (mkWriterState (mkWorld fs m) w) =
         (Err fault_error, mkWriterState (mkWorld (set_faults f fs) m) w) ∨
       sync_current_segment (mkWriterState (mkWorld fs m) w) =
         (Ok (), mkWriterState (mkWorld (set_faults f (sync_inode (file_inode (writer_file w)) fs)) (segment_synced m)) w).
Proof.
  unfold sync_current_segment. destruct (file_sync_cases fs m (writer_file w)) as (f & [H|H]); exists f;
    apply on_writer_file_cases in H; cbn [io_fs io_metrics io_file] in H.
  - left. by rewrite (bind_err _ _ _ _ _ H).
  - right. rewrite (bind_ok _ _ _ _ _ H). by destruct w.
Qed.

Lemma writer_disk_sync fs m w L D reg idx :
  writer_disk (mkWriterState (mkWorld fs m) w) L D reg idx →
  writer_disk (mkWriterState (mkWorld (sync_inode (file_inode (writer_file w)) fs) (segment_synced m)) w) L L reg idx.
Proof.
  intros [(sealed & bodies & durable & Hok & HL & HD & Hl) Hw Ha Hsy]. split; try done.
  exists sealed, bodies, bodies. split; [by eapply disk_sync|done].
Qed.

(** What an operation of the writer may do: on success [Q] holds; when a call
    fails, what a crash leaves is as [C] says. *)
Definition writer_outcome {A} (Q : A → WriterState → Prop)
  (C : list (RecordPosition * list byte) → option (list byte) → option (list byte) → Prop)
  (r : result A) (ws : WriterState) : Prop :=
  match r with
  | Ok a => Q a ws
  | Err e => e = fault_error ∧ crashes_to (w_fs (ws_world ws)) C
  end.

(** [SegmentWriter::sync]: all records become durable. *)
Lemma writer_sync_disk ws L D reg idx :
  writer_disk ws L D reg idx →
  let '(r, ws') := writer_sync ws in
  ws_writer ws' = ws_writer ws ∧
  writer_outcome (λ _ ws, writer_disk ws L L reg idx)
    (λ l r x, D `prefix_of` l ∧ l `prefix_of` L ∧ r = reg ∧ x = idx) r ws'.
Proof.
  intros Hwd. destruct ws as [[fs m] w]. unfold writer_sync, mbind, M_bind, get_state. cbn [ws_world w_metrics].
  destruct (negb (unsynced_records m =? 0) || negb (unsynced_bytes m =? 0)) eqn:E.
  - destruct (sync_current_cases fs m w) as (f & [->| ->]); (split; [done|]); cbn.
    + split; [done|]. apply crashes_to_faults. exact (writer_disk_crashes _ _ _ _ _ Hwd).
    + apply writer_disk_faults. by eapply writer_disk_sync.
  - apply orb_false_iff in E as [E1 E2]. apply negb_false_iff, N.eqb_eq in E1, E2. split; [done|]. cbn.
    pose proof (wd_synced _ _ _ _ _ Hwd E1 E2) as ->. exact Hwd.
Qed.

Definition log_between (D L : list (RecordPosition * list byte)) (reg idx : option (list byte))
  (l : list (RecordPosition * list byte)) (r x : option (list byte)) : Prop :=
  D `prefix_of` l ∧ l `prefix_of` L ∧ r = reg ∧ x = idx.

Lemma next_append_run w :
  segment_id (next_segment w) < U64_LIMIT → next_append (active_segment w) = Ok (next_segment w).
Proof.
  intros Hid. unfold next_append, segment_id_next, u64_checked_add, next_segment in *.
  by rewrite (proj2 (N.ltb_lt _ _)).
Qed.

(** The active segment after it was synced. *)
Lemma synced_disk_ok fs sealed active i bodies durable reg idx f :
  disk_ok fs sealed active i bodies durable reg idx →
  disk_ok (set_faults f (sync_inode i fs)) sealed active i bodies bodies reg idx ∧
  i_unsynced (inode_of i (set_faults f (sync_inode i fs))) = [].
Proof.
  intros Hok. split.
  - destruct (disk_sync _ _ _ _ _ _ _ _ Hok) as [A1 A2 A3]. split; [by apply disk_safe_faults|done|done].
  - change (inode_of i (set_faults f ?x)) with (inode_of i x). by rewrite inode_of_sync_eq.
Qed.

(** The writer on a new segment whose name is synced. *)
Lemma rotated_writer_disk fs m fl max_len sealed active i next bodies reg idx fs' :
  disk_ok fs sealed active i bodies bodies reg idx → i_unsynced (inode_of i fs) = [] → name_lt active next →
  segment_id next < U64_LIMIT → fs_entries fs !! file_name next = None →
  creating fs next fs' → fs_entries_unsynced fs' = [] → data_of (fs_next_inode fs) fs' = SEGMENT_FORMAT_MAGIC →
  file_inode fl = fs_next_inode fs → file_writable fl = true → file_append fl = true →
  writer_disk (mkWriterState (mkWorld fs' m) (mkSegmentWriter next fl 4 max_len))
    (log_of (sealed ++ [(active, bodies)])) (log_of (sealed ++ [(active, bodies)])) reg idx.
Proof.
  intros Hok Hi Hlt Hnid Hnone Hc Hu Hd Hfi Hw Ha. split; [|done|done|done].
  exists (sealed ++ [(active, bodies)]), [], []. cbn [ws_world ws_writer w_fs active_segment writer_file]. rewrite Hfi.
  split; [by eapply created_ok|]. split; [|split]; [symmetry; apply log_of_empty_active..|done].
Qed.

(** [SegmentWriter::rotate]: all records become durable. *)
Lemma writer_rotate_disk ws L D reg idx :
  writer_disk ws L D reg idx → can_rotate (w_fs (ws_world ws)) (ws_writer ws) →
  let '(r, ws') := writer_rotate ws in
  writer_outcome (λ _ ws', writer_disk ws' L L reg idx ∧
      ws_writer ws' = mkSegmentWriter (next_segment (ws_writer ws)) (writer_file (ws_writer ws')) 4
                        (max_segment_len (ws_writer ws)))
    (log_between D L reg idx) r ws'.
Proof.
  intros Hwd [Hnid Hnone]. destruct ws as [[fs m] w]. cbn [ws_world ws_writer w_fs] in *.
  set (next := next_segment w) in *. unfold writer_rotate.
  pose proof Hwd as [(sealed & bodies & durable & Hok & HL & HD & Hl) Hw Ha Hsy].
  cbn [ws_world ws_writer w_fs] in *.
  destruct (sync_current_cases fs m w) as (f & [H|H]).
  { rewrite (bind_err _ _ _ _ _ H). split; [done|]. apply crashes_to_faults. exact (writer_disk_crashes _ _ _ _ _ Hwd). }
  rewrite (bind_ok _ _ _ _ _ H). set (i := file_inode (writer_file w)) in *.
  set (fs1 := set_faults f (sync_inode i fs)). set (ws1 := mkWriterState _ w).
  rewrite (bind_ok get_writer _ ws1 w ws1 eq_refl).
  rewrite (bind_ok (lift_result _) _ ws1 next ws1) by (unfold lift_result; by rewrite next_append_run).
  destruct (synced_disk_ok _ _ _ _ _ _ _ _ f Hok) as [Hok1 Hi1]. fold i fs1 in Hok1, Hi1.
  assert (Hlt : name_lt (active_segment w) next) by (unfold name_lt, next, next_segment; cbn; lia).
  assert (Hroot : fs_root fs1 = RootDir) by apply (ds_root _ _ _ _ _ _ _ _ (dk_safe _ _ _ _ _ _ _ _ Hok1)).
  pose proof (creating_new fs1 next) as Hc0.
  pose proof (creating_crashes fs1 next sealed (active_segment w) i bodies reg idx Hok1 Hi1 Hlt Hnid Hnone) as Hcr.
  assert (Hbet : ∀ fs2 f', creating fs1 next fs2 → crashes_to (set_faults f' fs2) (log_between D L reg idx)).
  { intros fs2 f' Hc. apply crashes_to_faults. eapply crashes_to_mono; [by apply Hcr|].
    intros l r x (-> & -> & ->). unfold log_between. rewrite HL, HD.
    split; [by apply log_of_prefix, (disk_durable _ _ _ _ _ _ _ _ (dk_safe _ _ _ _ _ _ _ _ Hok))|done]. }
  assert (Hh : ∀ k, creating fs1 next (update_data (fs_next_inode fs1) (takeN k SEGMENT_FORMAT_MAGIC) (new_file (file_name next) fs1))).
  { intros k. apply creating_header; [exact Hc0|by rewrite new_file_data, decide_True|unfold takeN; apply prefix_take]. }
  destruct (create_file_cases fs1 (segment_synced m) (file_name next) Hroot Hnone) as (g & Hcreate).
  assert (Hlift : ∀ r w1, create_active_segment_file (file_name next) (mkWorld fs1 (segment_synced m)) = (r, w1) →
    on_world (create_active_segment_file (file_name next)) ws1 = (r, mkWriterState w1 w)).
  { intros r w1 E. unfold on_world, zoom, ws1. cbn [ws_world]. fold fs1. by rewrite E. }
  destruct Hcreate as [E|[(k & E)|E]]; apply Hlift in E.
  - rewrite (bind_err _ _ _ _ _ E). split; [done|]. apply crashes_to_faults.
    eapply crashes_to_mono; [exact (disk_safe_crashes _ _ _ _ _ _ _ _ (dk_safe _ _ _ _ _ _ _ _ Hok1))|].
    intros l r x ([P1 P2] & -> & ->). unfold log_between. rewrite HL, HD. split; [|done]. etrans; [|exact P1].
    by apply log_of_prefix, (disk_durable _ _ _ _ _ _ _ _ (dk_safe _ _ _ _ _ _ _ _ Hok)).
  - rewrite (bind_err _ _ _ _ _ E). split; [done|]. by apply Hbet.
  - rewrite (bind_ok _ _ _ _ _ E). set (fl := mkFile _ 4 true true).
    set (fs2 := set_faults g (new_segment_fs (file_name next) fs1)). set (ws2 := mkWriterState _ w).
    assert (Hc2 : creating fs1 next fs2) by (destruct (Hh 4); by split).
    assert (Hroot2 : fs_root fs2 = RootDir) by exact Hroot.
    destruct (sync_dir_cases fs2 (segment_synced m) Hroot2) as (h & [E2|E2]).
    + rewrite (bind_err _ _ ws2 fault_error (mkWriterState (mkWorld (set_faults h fs2) (segment_synced m)) w)).
      2:{ unfold on_world, zoom, ws2, sync_parent_dir. cbn [ws_world]. fold fs2. by rewrite E2. }
      split; [done|]. exact (Hbet fs2 h Hc2).
    + set (fs3 := set_faults h (sync_entries fs2)).
      rewrite (bind_ok _ _ ws2 () (mkWriterState (mkWorld fs3 (segment_synced m)) w)).
      2:{ unfold on_world, zoom, ws2, sync_parent_dir. cbn [ws_world]. fold fs2. by rewrite E2. }
      split; [|done]. rewrite HL. apply (rotated_writer_disk fs1 _ _ _ _ _ i); try done.
      * destruct Hc2 as [C1 C2 C3 C4 C5 C6]. split; try done. intros e He. by apply elem_of_nil in He.
      * change (data_of (fs_next_inode fs1) (update_data (fs_next_inode fs1) SEGMENT_FORMAT_MAGIC
          (new_file (file_name next) fs1)) = SEGMENT_FORMAT_MAGIC).
        by rewrite data_of_update_data, decide_True.
Qed.

(** The directory after a failed or a complete write of a frame. *)
Lemma writer_disk_write fs m w L D reg idx body :
  writer_disk (mkWriterState (mkWorld fs m) w) L D reg idx → lenN body ≤ MAX_RECORD_BODY_LEN →
  let i := file_inode (writer_file w) in
  let p := mkRecordPosition (active_segment w) (segment_len w) in
  (∀ k, crashes_to (update_data i (data_of i fs ++ takeN k (wire_frame body)) fs) (log_between D (L ++ [(p, body)]) reg idx)) ∧
  ∀ m' fl, file_inode fl = i → file_writable fl = true → file_append fl = true → unsynced_records m' ≠ 0 →
    writer_disk (mkWriterState (mkWorld (update_data i (data_of i fs ++ wire_frame body) fs) m')
      (mkSegmentWriter (active_segment w) fl (segment_len w + lenN (wire_frame body)) (max_segment_len w)))
      (L ++ [(p, body)]) D reg idx.
Proof.
  intros [(sealed & bodies & durable & Hok & HL & HD & Hl) _ _ _] Hb i p. cbn [ws_world ws_writer w_fs] in *.
  assert (HL' : L ++ [(p, body)] = log_of (sealed ++ [(active_segment w, bodies ++ [body])])).
  { rewrite log_of_snoc, HL. unfold p. by rewrite Hl. }
  split.
  - intros k. eapply crashes_to_mono; [by eapply disk_safe_crashes, disk_append|].
    intros l r x ([H1 H2] & -> & ->). unfold log_between. by rewrite HL', HD.
  - intros m' fl Hfi Hfw Hfa Hm. split; cbn [ws_world ws_writer w_fs w_metrics writer_file]; [|done|done|done].
    exists sealed, (bodies ++ [body]), durable. cbn [active_segment segment_len writer_file]. rewrite Hfi.
    split; [by apply disk_append_full|]. split; [done|]. split; [done|].
    by rewrite <-segment_data_snoc, lenN_app, Hl.
Qed.

Lemma unsynced_after_write len k n m : unsynced_records (segment_written len (record_written k n m)) ≠ 0.
Proof.
  assert (H : ∀ x, increment x 1 ≠ 0).
  { intros x. unfold increment, u64_saturating_add. assert (u64_max ≠ 0) by done. lia. }
  apply H.
Qed.

Section append.
Context `{Noraft}.

(** The end of [SegmentWriter::append], after a possible rotation. *)
Lemma append_frame_disk ws L D reg idx r body :
  writer_disk ws L D reg idx → lenN body ≤ MAX_RECORD_BODY_LEN →
  segment_len (ws_writer ws) + lenN (wire_frame body) < U64_LIMIT →
  let p := mkRecordPosition (active_segment (ws_writer ws)) (segment_len (ws_writer ws)) in
  let '(res, ws') := append_frame r (wire_frame body) (lenN (wire_frame body)) ws in
  writer_outcome (λ p' ws', p' = p ∧ writer_disk ws' (L ++ [(p, body)]) D reg idx)
    (log_between D (L ++ [(p, body)]) reg idx) res ws'.
Proof.
  intros Hwd Hb Hlen p. destruct ws as [[fs m] w]. cbn [ws_writer] in *. unfold append_frame.
  destruct (writer_disk_write fs m w L D reg idx body Hwd Hb) as [Hpart Hfull].
  pose proof (wd_writable _ _ _ _ _ Hwd) as Hw. pose proof (wd_append _ _ _ _ _ Hwd) as Ha.
  cbn [ws_writer] in Hw, Ha. set (ws := mkWriterState _ w).
  rewrite (bind_ok get_writer _ ws w ws eq_refl). cbv zeta.
  destruct (file_append_cases fs m (writer_file w) (wire_frame body) Hw Ha) as (f & [(k & fl' & E)|E]);
    apply on_writer_file_cases in E; cbn [io_fs io_metrics io_file] in E.
  - rewrite (bind_err _ _ _ _ _ E). split; [done|]. apply crashes_to_faults, Hpart.
  - rewrite (bind_ok _ _ _ _ _ E). unfold u64_checked_add. rewrite (proj2 (N.ltb_lt _ _)) by done.
    match goal with |- let '(_, _) := ?prog in _ => assert (Hrun : prog = (Ok p,
      mkWriterState (mkWorld (set_faults f (update_data (file_inode (writer_file w))
          (data_of (file_inode (writer_file w)) fs ++ wire_frame body) fs))
        (segment_written (segment_len w + lenN (wire_frame body))
          (record_written (metric_kind r) (lenN (wire_frame body)) m)))
        (mkSegmentWriter (active_segment w)
          (seek_to (lenN (data_of (file_inode (writer_file w)) fs) + lenN (wire_frame body)) (writer_file w))
          (segment_len w + lenN (wire_frame body)) (max_segment_len w)))) by reflexivity; rewrite Hrun end.
    split; [done|]. apply writer_disk_faults. apply Hfull; [done|done|done|]. apply unsynced_after_write.
Qed.

(** [SegmentWriter::append]: one record more, which is not durable yet; a
    rotation makes the others durable. *)
Lemma writer_append_disk ws L D reg idx n r body :
  writer_disk ws L D reg idx →
  encode_record_frame n r = Ok (wire_frame body) → lenN body ≤ MAX_RECORD_BODY_LEN →
  (should_rotate (ws_writer ws) (lenN (wire_frame body)) = true → can_rotate (w_fs (ws_world ws)) (ws_writer ws)) →
  let p := append_position (ws_writer ws) (lenN (wire_frame body)) in
  let '(res, ws') := writer_append n r ws in
  writer_outcome (λ p' ws', p' = p ∧ ∃ D', D `prefix_of` D' ∧ D' `prefix_of` L ∧
      writer_disk ws' (L ++ [(p, body)]) D' reg idx)
    (log_between D (L ++ [(p, body)]) reg idx) res ws'.
Proof.
  intros Hwd Henc Hb Hrot p.
  assert (Hfl : lenN (wire_frame body) ≤ 8 + MAX_RECORD_BODY_LEN) by (rewrite wire_frame_length; lia).
  assert (H64 : 8 + MAX_RECORD_BODY_LEN < U64_LIMIT) by done.
  pose proof (writer_disk_prefix _ _ _ _ _ Hwd) as HDL.
  unfold writer_append. rewrite (bind_ok (lift_result _) _ ws (wire_frame body) ws) by (unfold lift_result; by rewrite Henc).
  unfold u64_try_from. rewrite (proj2 (N.ltb_lt _ _)) by lia.
  rewrite (bind_ok get_writer _ ws (ws_writer ws) ws eq_refl). unfold p, append_position.
  set (w := ws_writer ws) in *. set (len := lenN (wire_frame body)) in *.
  destruct (should_rotate w len) eqn:Er.
  - pose proof (writer_rotate_disk ws L D reg idx Hwd (Hrot eq_refl)) as Hr.
    destruct (writer_rotate ws) as [[[]|e] ws1] eqn:E.
    + destruct Hr as [Hwd1 Hws1]. rewrite (bind_ok _ _ _ _ _ E). fold (append_frame r (wire_frame body) len).
      assert (Hlen : segment_len (ws_writer ws1) + len < U64_LIMIT) by (rewrite Hws1; by apply should_rotate_fits; [left|]).
      pose proof (append_frame_disk ws1 L L reg idx r body Hwd1 Hb Hlen) as Hap. fold len in Hap.
      destruct (append_frame r (wire_frame body) len ws1) as [[p'|e] ws']; cbn [writer_outcome] in *;
        rewrite Hws1 in Hap; cbn [active_segment segment_len] in Hap.
      * destruct Hap as [-> Hap]. split; [done|]. exists L. done.
      * destruct Hap as [-> Hap]. split; [done|]. eapply crashes_to_mono; [exact Hap|].
        intros l r' x (H1 & H2 & H3). split; [by etrans|done].
    + destruct Hr as [-> Hr]. rewrite (bind_err _ _ _ _ _ E). split; [done|].
      eapply crashes_to_mono; [exact Hr|]. intros l r' x (H1 & H2 & H3). split; [done|]. split; [|done].
      by apply prefix_app_r.
  - rewrite (bind_ok _ _ ws () ws eq_refl). fold (append_frame r (wire_frame body) len).
    assert (Hlen : segment_len w + len < U64_LIMIT) by (apply should_rotate_fits; [by right|done]).
    pose proof (append_frame_disk ws L D reg idx r body Hwd Hb Hlen) as Hap. fold w len in Hap.
    destruct (append_frame r (wire_frame body) len ws) as [[p'|e] ws']; cbn [writer_outcome] in *; [|done].
    destruct Hap as [-> Hap]. split; [done|]. exists D. done.
Qed.
End append.
