(* ===== verification/DurableMetadata.v ===== *)
(** * What saving a metadata file leaves at a crash

    [save_text] for the registry or the index, in a directory with segments:
    its calls may fail, or the system crash, at any point.  The log is not
    affected and the file has its old or its new contents. *)
From Stdlib Require Import Strings.Byte Strings.String.
From S2P Require Import Prelude Metrics Fs Text Json Noraft State Crc32c Codec Format Frame.
From S2P Require Import Segment Replay Registry Checkpoint Engine Recovery RecoveryCorrect.
From S2P Require Import ReplayCorrect WriterCorrect MetadataCorrect MetadataFaults EngineCorrect.
From S2P Require Import LoadCorrect OpenCorrect Faults Durability Surface DurableWriter.

(** The files of the registry and of the index, with their temporary files. *)
Inductive metadata_pair : string → string → Prop :=
  | registry_pair : metadata_pair NODE_REGISTRY_TMP_FILE_NAME NODE_REGISTRY_FILE_NAME
  | index_pair : metadata_pair CHECKPOINT_INDEX_TMP_FILE_NAME CHECKPOINT_INDEX_FILE_NAME.

Lemma pair_facts tmp path :
  metadata_pair tmp path →
  tmp ≠ path ∧ parse_file_name tmp = None ∧ parse_file_name path = None ∧ owned_name tmp ∧ owned_name path ∧
  tmp ≠ WRITE_LOCK_FILE_NAME ∧ path ≠ WRITE_LOCK_FILE_NAME ∧
  tmp ≠ NODE_REGISTRY_FILE_NAME ∧ tmp ≠ CHECKPOINT_INDEX_FILE_NAME ∧
  (path = NODE_REGISTRY_FILE_NAME ∨ path = CHECKPOINT_INDEX_FILE_NAME).
Proof.
  assert (Ho : ∀ name, name ∈ metadata_names → owned_name name) by (intros; by left).
  intros []; (do 3 (split; [done|])); (do 2 (split; [apply Ho; unfold metadata_names; set_solver|])); (do 4 (split; [done|])); auto.
Qed.

(** The texts after the file at [path] was replaced. *)
Definition new_registry (path : string) (text : list byte) (reg : option (list byte)) : option (list byte) :=
  if decide (path = NODE_REGISTRY_FILE_NAME) then Some text else reg.
Definition new_index (path : string) (text : list byte) (idx : option (list byte)) : option (list byte) :=
  if decide (path = CHECKPOINT_INDEX_FILE_NAME) then Some text else idx.

(** ** Directories with other metadata files *)

Section meta.
Context (fs : Fs) (sealed : list segment_contents) (active : SegmentName) (i : N).
Context (bodies durable : list (list byte)) (reg idx : option (list byte)).
Hypothesis Hsafe : disk_safe fs sealed active i bodies durable reg idx.

(** A directory with the segments of [fs] and settled metadata files. *)
Lemma disk_safe_meta fs' :
  fs_root fs' = fs_root fs → fs_wf fs' → fs_entries_unsynced fs' = [] →
  (∀ name, owned_name name ∨ name = WRITE_LOCK_FILE_NAME → not_other fs' name) →
  (∀ name n, parse_file_name name = Some n → fs_entries fs' !! name = fs_entries fs !! name) →
  (∀ name n j, parse_file_name name = Some n → fs_entries fs !! name = Some (EntryFile j) →
     inode_of j fs' = inode_of j fs) →
  file_synced fs' NODE_REGISTRY_FILE_NAME → file_synced fs' CHECKPOINT_INDEX_FILE_NAME →
  disk_safe fs' sealed active i bodies durable (file_text fs' NODE_REGISTRY_FILE_NAME)
    (file_text fs' CHECKPOINT_INDEX_FILE_NAME).
Proof using Hsafe.
  intros Hr Hwf Hu Hn He Hi Hsr Hsx. pose proof (segments_of_agree fs fs' He) as Hsegs.
  pose proof Hsafe as [H1 _ _ _ (paths & Hp & Hh) H6 Hid Ha Hl _ _ _ _].
  pose proof (parse_file_name_print active Hid) as Hpa. split; try done.
  - by rewrite Hr.
  - rewrite Hu. by intros e ?%elem_of_nil.
  - exists paths. rewrite Hsegs. split; [done|]. eapply Forall2_In_l; [exact Hh|].
    intros p seg Hin (Hpn & Hb & j & Hjr & Hj & Hdj).
    assert (Hps : p ∈ segments_of fs) by (rewrite Hp; apply elem_of_app; by left).
    pose proof (segment_paths_parse fs p Hps) as Hpp. split; [done|]. split; [done|]. exists j.
    split; [by rewrite Hr|]. split; [by rewrite (He _ _ Hpp)|]. unfold data_of. by rewrite (Hi _ _ _ Hpp Hj).
  - intros p. rewrite Hsegs. intros Hin Hne j. pose proof (segment_paths_parse fs p Hin) as Hpp.
    rewrite (He _ _ Hpp). intros Hj. rewrite (Hi _ _ _ Hpp Hj). by apply (H6 p).
  - by rewrite (He _ _ Hpa).
  - intros c. unfold leaves, data_of. rewrite (Hi _ _ _ Hpa Ha). apply Hl.
Qed.
End meta.

(** ** The states of a save *)

Section save.
Context (fs : Fs) (sealed : list segment_contents) (active : SegmentName) (i : N).
Context (bodies durable : list (list byte)) (reg idx : option (list byte)).
Hypothesis Hsafe : disk_safe fs sealed active i bodies durable reg idx.
Context (tmp path : string) (text : list byte).
Hypothesis Hpair : metadata_pair tmp path.
Let t := tmp_inode fs tmp.

Definition entries_opened : gmap string DirEntry := <[tmp := EntryFile t]> (fs_entries fs).
Definition entries_renamed : gmap string DirEntry := <[path := EntryFile t]> (delete tmp (fs_entries fs)).

(** Other files do not share the inode of the temporary file. *)
Lemma tmp_apart name j : name ≠ tmp → fs_entries fs !! name = Some (EntryFile j) → j ≠ t.
Proof using Hsafe.
  intros Hn Hj ->. destruct (ds_wf _ _ _ _ _ _ _ _ Hsafe) as [Hinj Hb]. unfold t, tmp_inode in Hj.
  destruct (fs_entries fs !! tmp) as [[k|]|] eqn:E; [by apply Hn, (Hinj _ _ k)|apply Hb in Hj; lia..].
Qed.

(** A state of a save: the directory has been changed up to a version in [E]. *)
Record saving (E : gmap string DirEntry → Prop) (fs1 : Fs) : Prop := {
  sv_root : fs_root fs1 = fs_root fs;
  sv_dirs : ∀ e, e ∈ dir_versions fs1 → e ∈ dir_versions fs ∨ E e;
  sv_next : t < fs_next_inode fs1 ∧ fs_next_inode fs ≤ fs_next_inode fs1;
  sv_inodes : ∀ j, j ≠ t → inode_of j fs1 = inode_of j fs;
}.

Lemma saving_wf fs1 :
  t < fs_next_inode fs1 → fs_next_inode fs ≤ fs_next_inode fs1 →
  fs_entries fs1 ∈ dir_versions fs ∨ fs_entries fs1 = entries_opened ∨ fs_entries fs1 = entries_renamed →
  fs_wf fs1.
Proof using Hsafe Hpair.
  intros Ht Hn [Hv|Hv]; [by eapply version_wf|].
  destruct (ds_wf _ _ _ _ _ _ _ _ Hsafe) as [Hinj Hb].
  assert (H : ∃ key, ∀ a j, fs_entries fs1 !! a = Some (EntryFile j) →
    (a = key ∧ j = t) ∨ (a ≠ tmp ∧ fs_entries fs !! a = Some (EntryFile j))).
  { destruct Hv as [-> | ->]; [exists tmp|exists path]; intros a j; unfold entries_opened, entries_renamed;
      rewrite !lookup_insert, ?lookup_delete; repeat case_decide; try done; intros Hj; simplify_eq; auto. }
  destruct H as [key H]. split.
  - intros a b j Ha Hb'. apply H in Ha, Hb'.
    destruct Ha as [[-> ->]|[Hna Ha]], Hb' as [[-> Hj]|[Hnb Hb']]; [done| | |by eapply Hinj].
    + by apply tmp_apart in Hb'.
    + subst j. by apply tmp_apart in Ha.
  - intros a j Ha. apply H in Ha as [[_ ->]|[_ Ha]]; [done|]. apply Hb in Ha. lia.
Qed.

Lemma saving_lookup e name n :
  e ∈ dir_versions fs ∨ e = entries_opened ∨ e = entries_renamed →
  parse_file_name name = Some n → e !! name = fs_entries fs !! name.
Proof using Hsafe Hpair.
  destruct (pair_facts _ _ Hpair) as (_ & Ht & Hp & _). intros [Hv|[-> | ->]] Hn.
  - eapply version_lookup; [exact Hsafe|done|]. by intros ->.
  - unfold entries_opened. rewrite lookup_insert_ne; [done|]. intros ->. congruence.
  - unfold entries_renamed. rewrite lookup_insert_ne, lookup_delete_ne; [done|intros ->; congruence..].
Qed.

Lemma saving_names e name :
  e ∈ dir_versions fs ∨ e = entries_opened ∨ e = entries_renamed →
  owned_name name ∨ name = WRITE_LOCK_FILE_NAME → e !! name ≠ Some EntryOther.
Proof using Hsafe.
  intros Hv Hn. pose proof (ds_names _ _ _ _ _ _ _ _ Hsafe name Hn) as Ho. unfold not_other in Ho.
  destruct Hv as [Hv|[-> | ->]].
  - intros He. by apply Ho, (version_lookup_some _ _ _ _ _ _ _ _ Hsafe _ _ _ Hv).
  - unfold entries_opened. rewrite lookup_insert. by case_decide.
  - unfold entries_renamed. rewrite lookup_insert, lookup_delete. by repeat case_decide.
Qed.

(** A stop in such a state. *)
Lemma saving_crashes E fs1 :
  saving E fs1 → (∀ e, E e → e = entries_opened ∨ e = entries_renamed ∧ inode_of t fs1 = mkInode text []) →
  crashes_to fs1 (λ l r x, between_logs sealed active bodies durable l ∧
    ((r = reg ∧ x = idx) ∨ (r = new_registry path text reg ∧ x = new_index path text idx))).
Proof using Hsafe Hpair.
  intros [Sr Sd [Sn Sn'] Si] HE fs' (Hr & Hn & He & Hd). destruct (pair_facts _ _ Hpair) as (Hne & Hpt & Hpp & Hot & Hop & Htl & Hpl & Ht1 & Ht2 & Hcase).
  assert (Hv : fs_entries fs' ∈ dir_versions fs ∨ fs_entries fs' = entries_opened ∨
    (fs_entries fs' = entries_renamed ∧ data_of t fs' = text)).
  { apply Sd in He as [He|He]; [by left|right]. apply HE in He as [He|[He Hi]]; [by left|right]. split; [done|].
    specialize (Hd t). unfold leaves, data_of in Hd. rewrite Hi in Hd. exact Hd. }
  assert (Hv' : fs_entries fs' ∈ dir_versions fs ∨ fs_entries fs' = entries_opened ∨ fs_entries fs' = entries_renamed) by tauto.
  assert (Hd' : ∀ name j, name ≠ tmp → fs_entries fs !! name = Some (EntryFile j) → leaves fs j (data_of j fs')).
  { intros name j Hnt Hj. specialize (Hd j). unfold leaves, data_of in Hd |- *. rewrite (Si j) in Hd; [done|].
    by eapply tmp_apart. }
  destruct (mount fs sealed active i bodies durable reg idx Hsafe fs') as (b & Hdb & Hbb & Hod).
  { rewrite Hr, Sr. apply Hsafe. }
  { apply saving_wf; [lia|lia|done]. }
  { intros name Hname. by eapply saving_names. }
  { intros name n Hp. by eapply saving_lookup. }
  { intros name n j Hp. apply Hd'. intros ->. congruence. }
  exists (log_of (sealed ++ [(active, b)])), (file_text fs' NODE_REGISTRY_FILE_NAME), (file_text fs' CHECKPOINT_INDEX_FILE_NAME).
  split; [by exists sealed, active, b|]. split; [split; by apply log_of_prefix|].
  assert (Hold : ∀ name, name ≠ tmp → name ≠ WRITE_LOCK_FILE_NAME → file_synced fs name →
    fs_entries fs' !! name = fs_entries fs !! name → file_text fs' name = file_text fs name).
  { intros name Hnt Hnl Hsy Hl. unfold file_text. rewrite Hl.
    destruct (fs_entries fs !! name) as [[j|]|] eqn:Ej; [|done|done].
    f_equal. apply leaves_synced; [by apply Hsy|by eapply Hd']. }
  pose proof Hsafe as [_ _ _ _ _ _ _ _ _ Hreg Hsr Hidx Hsx].
  assert (Hkept : ∀ name, name ≠ tmp → name ≠ WRITE_LOCK_FILE_NAME →
    fs_entries fs' ∈ dir_versions fs ∨ fs_entries fs' = entries_opened → fs_entries fs' !! name = fs_entries fs !! name).
  { intros name Hnt Hnl [H| ->]; [by eapply version_lookup|]. unfold entries_opened. by rewrite lookup_insert_ne. }
  destruct Hv as [Hv|[Hv|[Hv Ht]]].
  1,2: left; rewrite <-Hreg, <-Hidx; split; (apply Hold; [done..|]); apply Hkept; auto.
  right. assert (Hnew : file_text fs' path = Some text).
  { unfold file_text. rewrite Hv. unfold entries_renamed. by rewrite lookup_insert_eq, Ht. }
  assert (Hother : ∀ name, name ≠ path → name ≠ tmp → fs_entries fs' !! name = fs_entries fs !! name).
  { intros name Hnp Hnt. rewrite Hv. unfold entries_renamed. by rewrite lookup_insert_ne, lookup_delete_ne. }
  unfold new_registry, new_index. rewrite <-Hreg, <-Hidx.
  destruct Hcase as [-> | ->]; (split; (case_decide as Ep; [|]); try done).
  - apply Hold; [done..|]. by apply Hother.
  - apply Hold; [done..|]. by apply Hother.
Qed.

Lemma saving_start : saving (λ e, e = entries_opened) (tmp_opened fs tmp).
Proof using Hsafe Hpair.
  destruct (pair_facts _ _ Hpair) as (_ & _ & _ & Hot & _).
  pose proof (ds_names _ _ _ _ _ _ _ _ Hsafe tmp (or_introl Hot)) as Ho. unfold not_other in Ho.
  pose proof (ds_wf _ _ _ _ _ _ _ _ Hsafe) as [_ Hb]. unfold entries_opened, t, tmp_opened, tmp_inode.
  destruct (fs_entries fs !! tmp) as [[k|]|] eqn:E; [|done|].
  - split; [done|by left| |].
    + unfold t, tmp_inode. rewrite E. apply Hb in E. cbn. lia.
    + unfold t, tmp_inode. rewrite E. intros j Hj. by apply inode_of_update.
  - split; [done| | |].
    + intros e He. apply elem_of_cons in He as [->|He]; [by right|by left].
    + unfold t, tmp_inode. rewrite E. cbn. lia.
    + unfold t, tmp_inode. rewrite E. intros j Hj. unfold inode_of, new_file. cbn. by rewrite lookup_insert_ne.
Qed.

Lemma saving_changed E fs1 fs2 : saving E fs1 → changed_inode t fs1 fs2 → saving E fs2.
Proof.
  intros [Sr Sd Sn Si] (Cr & Ce & Cu & Cn & Ci). split.
  - by rewrite Cr.
  - intros e. unfold dir_versions. rewrite Ce, Cu. apply Sd.
  - by rewrite Cn.
  - intros j Hj. rewrite Ci by done. by apply Si.
Qed.

Lemma saving_renamed fs1 :
  saving (λ e, e = entries_opened) fs1 → saving (λ e, e = entries_opened ∨ e = entries_renamed)
    (update_entries entries_renamed fs1).
Proof.
  intros [Sr Sd Sn Si]. split; try done. intros e He. apply elem_of_cons in He as [->|He]; [by right; right|].
  apply Sd in He as [?|?]; [by left|right; by left].
Qed.

(** The directory after a complete save. *)
Lemma saved_safe fs1 :
  saving (λ e, e = entries_opened ∨ e = entries_renamed) fs1 → fs_entries fs1 = entries_renamed →
  inode_of t fs1 = mkInode text [] →
  disk_safe (sync_entries fs1) sealed active i bodies durable (new_registry path text reg) (new_index path text idx).
Proof using Hsafe Hpair.
  intros [Sr Sd [Sn Sn'] Si] He Hi.
  destruct (pair_facts _ _ Hpair) as (Hne & Hpt & Hpp & Hot & Hop & Htl & Hpl & Ht1 & Ht2 & Hcase).
  assert (Hother : ∀ name, name ≠ path → name ≠ tmp → fs_entries fs1 !! name = fs_entries fs !! name).
  { intros name Hnp Hnt. rewrite He. unfold entries_renamed. by rewrite lookup_insert_ne, lookup_delete_ne. }
  assert (Hino : ∀ name j, name ≠ tmp → fs_entries fs !! name = Some (EntryFile j) → inode_of j fs1 = inode_of j fs).
  { intros name j Hnt Hj. apply Si. by eapply tmp_apart. }
  assert (Hpe : fs_entries fs1 !! path = Some (EntryFile t)) by (rewrite He; apply lookup_insert_eq).
  assert (Htext : ∀ name, name ≠ path → name ≠ tmp →
    file_text fs1 name = file_text fs name ∧ (file_synced fs name → file_synced fs1 name)).
  { intros name Hnp Hnt. unfold file_text, file_synced. rewrite Hother by done. split.
    - destruct (fs_entries fs !! name) as [[j|]|] eqn:Ej; [|done|done]. unfold data_of. by rewrite (Hino name).
    - intros Hsy j Hj. rewrite (Hino name) by done. by apply Hsy. }
  assert (Hnew : file_text fs1 path = Some text ∧ file_synced fs1 path).
  { unfold file_text, file_synced. rewrite Hpe. unfold data_of. rewrite Hi. split; [done|].
    intros j [= <-]. by rewrite Hi. }
  pose proof Hsafe as [_ _ _ _ _ _ _ _ _ Hreg Hsr Hidx Hsx].
  assert (Hr : file_text fs1 NODE_REGISTRY_FILE_NAME = new_registry path text reg ∧ file_synced fs1 NODE_REGISTRY_FILE_NAME).
  { unfold new_registry. case_decide as E; [by rewrite <-E|].
    destruct (Htext NODE_REGISTRY_FILE_NAME) as [T1 T2]; [done|done|]. rewrite T1, Hreg. auto. }
  assert (Hx : file_text fs1 CHECKPOINT_INDEX_FILE_NAME = new_index path text idx ∧ file_synced fs1 CHECKPOINT_INDEX_FILE_NAME).
  { unfold new_index. case_decide as E; [by rewrite <-E|].
    destruct (Htext CHECKPOINT_INDEX_FILE_NAME) as [T1 T2]; [done|done|]. rewrite T1, Hidx. auto. }
  destruct Hr as [<- Hr], Hx as [<- Hx].
  apply (disk_safe_meta fs sealed active i bodies durable reg idx Hsafe (sync_entries fs1)); try done.
  - apply saving_wf; [done|done|]. by right; right.
  - intros name Hname. unfold not_other. cbn. rewrite He. eapply saving_names; [|exact Hname]. by right; right.
  - intros name n Hn. cbn. apply Hother; congruence.
  - intros name n j Hn Hj. change (inode_of j (sync_entries fs1)) with (inode_of j fs1).
    apply (Hino name); [congruence|done].
Qed.
End save.

(** ** [save_text] *)

Lemma open_tmp_cases fs m tmp :
  fs_root fs = RootDir → not_other fs tmp →
  ∃ f, w_call (fs_open tmp save_options) (mkWorld fs m) = (Err fault_error, mkWorld (set_faults f fs) m) ∨
       w_call (fs_open tmp save_options) (mkWorld fs m) =
         (Ok (mkFile (tmp_inode fs tmp) 0 true false), mkWorld (set_faults f (tmp_opened fs tmp)) m).
Proof.
  intros Hr Ho. unfold w_call, zoom, fs_open. cbn [w_fs]. set (op := in_dir _).
  destruct (call_cases op fs) as (f & [H|H]); exists f; rewrite H; [by left|right].
  unfold op, in_dir, mbind, M_bind, get_state. change (fs_root (set_faults f fs)) with (fs_root fs). rewrite Hr.
  change (fs_entries (set_faults f fs)) with (fs_entries fs). unfold not_other, tmp_inode, tmp_opened in *.
  by destruct (fs_entries fs !! tmp) as [[i|]|].
Qed.

Lemma write_and_sync_cases fs m i text :
  data_of i fs = [] →
  ∃ f, (∃ d, with_file (mkFile i 0 true false) (file_write_all text ;; file_sync) (mkWorld fs m) =
          (Err fault_error, mkWorld (set_faults f (update_data i d fs)) m)) ∨
       with_file (mkFile i 0 true false) (file_write_all text ;; file_sync) (mkWorld fs m) =
          (Ok (), mkWorld (set_faults f (sync_inode i (update_data i text fs))) m).
Proof.
  intros Hd. unfold with_file. cbn [w_fs w_metrics]. set (fl := mkFile i 0 true false).
  assert (Hw : ∃ f o, file_write_all text (mkIo fs m fl) =
    (match o with None => Ok () | Some _ => Err fault_error end,
     mkIo (set_faults f (update_data i (match o with None => text | Some k => takeN k text end) fs)) m
       (seek_to (lenN (match o with None => text | Some k => takeN k text end)) fl))).
  { unfold file_write_all, mbind, M_bind, io_call, zoom. cbn [io_fs].
    destruct (take_fault_spec fs) as (o & f & ->). exists f, o. unfold get_state, modify.
    cbn [io_file set_io_fs io_fs fl file_writable file_append negb file_pos].
    assert (Hio : io_data (set_io_fs (set_faults f fs) (mkIo fs m fl)) = []) by exact Hd.
    rewrite Hio, overwrite_empty.
    by destruct o. }
  destruct Hw as (f & [k|] & Hw).
  - exists f. left. exists (takeN k text). by rewrite (bind_err _ _ _ _ _ Hw).
  - rewrite (bind_ok _ _ _ _ _ Hw). set (fs1 := set_faults f (update_data i text fs)).
    destruct (file_sync_cases fs1 m (seek_to (lenN text) fl)) as (g & [H|H]); rewrite H; exists g.
    + left. by exists text.
    + right. done.
Qed.

Lemma rename_cases fs m tmp path i :
  fs_root fs = RootDir → fs_entries fs !! tmp = Some (EntryFile i) → not_other fs path →
  ∃ f, w_call (fs_rename tmp path) (mkWorld fs m) = (Err fault_error, mkWorld (set_faults f fs) m) ∨
       w_call (fs_rename tmp path) (mkWorld fs m) =
         (Ok (), mkWorld (set_faults f (update_entries (<[path := EntryFile i]> (delete tmp (fs_entries fs))) fs)) m).
Proof.
  intros Hr Ht Ho. unfold w_call, zoom, fs_rename. cbn [w_fs]. set (op := in_dir _).
  destruct (call_cases op fs) as (f & [H|H]); exists f; rewrite H; [by left|right].
  unfold op, in_dir, mbind, M_bind, get_state. change (fs_root (set_faults f fs)) with (fs_root fs). rewrite Hr.
  change (fs_entries (set_faults f fs)) with (fs_entries fs). rewrite Ht. unfold not_other in Ho.
  by destruct (fs_entries fs !! path) as [[j|]|].
Qed.

Lemma tmp_opened_facts fs tmp :
  fs_wf fs → not_other fs tmp →
  fs_root (tmp_opened fs tmp) = fs_root fs ∧
  fs_entries (tmp_opened fs tmp) = <[tmp := EntryFile (tmp_inode fs tmp)]> (fs_entries fs) ∧
  data_of (tmp_inode fs tmp) (tmp_opened fs tmp) = [].
Proof. intros Hwf Ho. by destruct (tmp_opened_spec fs tmp Hwf Ho) as (_ & H1 & H2 & _ & H3 & _). Qed.

Lemma save_text_safe fs m sealed active i bodies durable reg idx tmp path text :
  disk_safe fs sealed active i bodies durable reg idx → metadata_pair tmp path →
  let '(r, w) := save_text tmp path text (mkWorld fs m) in
  w_metrics w = m ∧
  match r with
  | Ok _ => data_of i (w_fs w) = data_of i fs ∧
      disk_safe (w_fs w) sealed active i bodies durable (new_registry path text reg) (new_index path text idx)
  | Err e => e = fault_error ∧
      crashes_to (w_fs w) (λ l r x, between_logs sealed active bodies durable l ∧
        ((r = reg ∧ x = idx) ∨ (r = new_registry path text reg ∧ x = new_index path text idx)))
  end.
Proof.
  intros Hs Hp. destruct (pair_facts _ _ Hp) as (Hne & Hpt & Hpp & Hot & Hop & _).
  pose proof (ds_root _ _ _ _ _ _ _ _ Hs) as Hr. pose proof (ds_wf _ _ _ _ _ _ _ _ Hs) as Hwf.
  pose proof (ds_names _ _ _ _ _ _ _ _ Hs tmp (or_introl Hot)) as Ho.
  pose proof (ds_names _ _ _ _ _ _ _ _ Hs path (or_introl Hop)) as Ho'.
  destruct (tmp_opened_facts fs tmp Hwf Ho) as (Or & Oe & Od). set (t := tmp_inode fs tmp) in *.
  pose proof (saving_start fs sealed active i bodies durable reg idx Hs tmp path Hp) as Hs0.
  assert (Hcr : ∀ E fs1 f, saving fs tmp E fs1 →
    (∀ e, E e → e = entries_opened fs tmp ∨ e = entries_renamed fs tmp path ∧ inode_of t fs1 = mkInode text []) →
    crashes_to (set_faults f fs1) (λ l r x, between_logs sealed active bodies durable l ∧
        ((r = reg ∧ x = idx) ∨ (r = new_registry path text reg ∧ x = new_index path text idx)))).
  { intros E fs1 f H1 H2. apply crashes_to_faults. by apply (saving_crashes fs sealed active i bodies durable reg idx Hs tmp path text Hp E). }
  unfold save_text. destruct (open_tmp_cases fs m tmp Hr Ho) as (f & [H|H]).
  { rewrite (bind_err _ _ _ _ _ H). split; [done|]. split; [done|]. apply crashes_to_faults.
    eapply crashes_to_mono; [exact (disk_safe_crashes _ _ _ _ _ _ _ _ Hs)|]. cbn. tauto. }
  rewrite (bind_ok _ _ _ _ _ H). set (fs1 := set_faults f (tmp_opened fs tmp)).
  assert (Hs1 : ∀ d, saving fs tmp (λ e, e = entries_opened fs tmp) (update_data t d fs1)).
  { intros d. eapply saving_changed; [exact Hs0|]. apply (changed_update t d fs1). }
  destruct (write_and_sync_cases fs1 m t text Od) as (g & [(d & H1)|H1]).
  { rewrite (bind_err _ _ _ _ _ H1). split; [done|]. split; [done|]. eapply Hcr; [apply Hs1|]. auto. }
  rewrite (bind_ok _ _ _ _ _ H1). set (fs2 := set_faults g (sync_inode t (update_data t text fs1))).
  assert (Hi2 : inode_of t fs2 = mkInode text []).
  { unfold fs2. change (inode_of t (set_faults g ?x)) with (inode_of t x).
    by rewrite inode_of_sync_eq, data_of_update_data, decide_True. }
  assert (Hs2 : saving fs tmp (λ e, e = entries_opened fs tmp) fs2).
  { eapply saving_changed; [apply (Hs1 text)|]. apply (changed_sync t). }
  assert (Hr2 : fs_root fs2 = RootDir) by (rewrite <-Hr; exact Or).
  assert (He2 : fs_entries fs2 = entries_opened fs tmp) by exact Oe.
  assert (Ht2 : fs_entries fs2 !! tmp = Some (EntryFile t)) by (rewrite He2; apply lookup_insert_eq).
  assert (Ho2 : not_other fs2 path) by (unfold not_other; rewrite He2; unfold entries_opened; by rewrite lookup_insert_ne).
  destruct (rename_cases fs2 m tmp path t Hr2 Ht2 Ho2) as (h & [H2|H2]).
  { rewrite (bind_err _ _ _ _ _ H2). split; [done|]. split; [done|]. eapply Hcr; [exact Hs2|]. auto. }
  rewrite (bind_ok _ _ _ _ _ H2).
  assert (Hren : <[path:=EntryFile t]> (delete tmp (fs_entries fs2)) = entries_renamed fs tmp path).
  { rewrite He2. unfold entries_opened, entries_renamed. by rewrite delete_insert_eq. }
  rewrite Hren. set (fs3 := update_entries (entries_renamed fs tmp path) fs2).
  pose proof (saving_renamed fs tmp path fs2 Hs2) as Hs3. fold fs3 in Hs3.
  destruct (sync_dir_cases (set_faults h fs3) m Hr2) as (k & [H3|H3]); rewrite H3.
  - split; [done|]. split; [done|]. apply (Hcr _ fs3 k Hs3). intros e [?|?]; [by left|by right].
  - split; [done|]. cbn. split.
    + change (data_of i (set_faults k (sync_entries (set_faults h fs3)))) with (data_of i fs3).
      unfold data_of. f_equal. apply (sv_inodes _ _ _ _ Hs3).
      eapply (tmp_apart fs sealed active i bodies durable reg idx Hs tmp (file_name active));
        [|apply (ds_active _ _ _ _ _ _ _ _ Hs)].
      intros E. pose proof (parse_file_name_print active (ds_id _ _ _ _ _ _ _ _ Hs)) as Hpa. congruence.
    + apply (disk_safe_faults (sync_entries fs3) k).
      exact (saved_safe fs sealed active i bodies durable reg idx Hs tmp path text Hp fs3 Hs3 eq_refl Hi2).
Qed.

(** Saving next to a writer. *)
Lemma save_text_disk fs m w L D reg idx tmp path text :
  writer_disk (mkWriterState (mkWorld fs m) w) L D reg idx → metadata_pair tmp path →
  let '(r, world) := save_text tmp path text (mkWorld fs m) in
  match r with
  | Ok _ => writer_disk (mkWriterState world w) L D (new_registry path text reg) (new_index path text idx)
  | Err e => e = fault_error ∧
      crashes_to (w_fs world) (λ l r x, D `prefix_of` l ∧ l `prefix_of` L ∧
        ((r = reg ∧ x = idx) ∨ (r = new_registry path text reg ∧ x = new_index path text idx)))
  end.
Proof.
  intros [(sealed & bodies & durable & [Hs Hd Hf] & HL & HD & Hl) Hw Ha Hsy] Hp.
  pose proof (save_text_safe fs m _ _ _ _ _ _ _ tmp path text Hs Hp) as H.
  destruct (save_text tmp path text (mkWorld fs m)) as [[[]|e] [fs' m']]; cbn [w_metrics w_fs] in H.
  - destruct H as (-> & Hd' & Hs'). split; try done. exists sealed, bodies, durable.
    split; [|done]. split; [exact Hs'| |done]. exact (eq_trans Hd' Hd).
  - destruct H as (-> & -> & H). split; [done|]. eapply crashes_to_mono; [exact H|].
    intros l r x [[H1 H2] H3]. rewrite HL, HD. done.
Qed.
