(* ===== verification/Tidy.v ===== *)
(** * Segments keep their files

    A segment file keeps its inode from creation to deletion: no version of the
    directory, synced or not, gives the inode to another name ([tidy]).  Every
    operation of the engine keeps this, also when its calls fail.  That is proved
    of any property of the directory that single calls keep ([FileInvariant]);
    another is the place of the directory itself ([placed]). *)
From Stdlib Require Import Strings.Byte Strings.String.
From S2P Require Import Prelude Metrics Fs Text Json Noraft State Crc32c Codec Format Frame.
From S2P Require Import Segment Replay Registry Checkpoint Engine Recovery ReplayCorrect.
From S2P Require Import WriterCorrect MetadataCorrect EngineCorrect NodeCorrect EngineSpec Faults Durability DurableMetadata.

Definition is_segment_name (name : string) : Prop := is_Some (parse_file_name name).

Record tidy (fs : Fs) : Prop := {
  td_bound : ∀ e name j, e ∈ dir_versions fs → e !! name = Some (EntryFile j) → j < fs_next_inode fs;
  td_segments : ∀ e e' name name' j, e ∈ dir_versions fs → e' ∈ dir_versions fs → is_segment_name name →
    e !! name = Some (EntryFile j) → e' !! name' = Some (EntryFile j) → name' = name;
}.

(** ** Changes of the directory *)

Lemma tidy_subset fs fs' :
  tidy fs → dir_versions fs' ⊆ dir_versions fs → fs_next_inode fs ≤ fs_next_inode fs' → tidy fs'.
Proof.
  intros [Hb Hs] Hv Hn. split.
  - intros e name j He Hj. apply Hv in He. specialize (Hb e name j He Hj). lia.
  - intros e e' name name' j He He'. apply Hv in He, He'. by apply Hs.
Qed.

Lemma tidy_same fs fs' :
  tidy fs → dir_versions fs' = dir_versions fs → fs_next_inode fs' = fs_next_inode fs → tidy fs'.
Proof. intros Ht Hv Hn. apply (tidy_subset fs); [done|by rewrite Hv|by rewrite Hn]. Qed.

(** A new version whose files are at their names, but for other files than segments. *)
Lemma tidy_update fs e2 :
  tidy fs →
  (∀ name j, e2 !! name = Some (EntryFile j) → ∃ e name', e ∈ dir_versions fs ∧ e !! name' = Some (EntryFile j) ∧
     (name' = name ∨ ¬ is_segment_name name' ∧ ¬ is_segment_name name)) →
  tidy (update_entries e2 fs).
Proof.
  intros [Hb Hs] He2.
  assert (Hold : ∀ e name j, e ∈ dir_versions (update_entries e2 fs) → e !! name = Some (EntryFile j) →
    ∃ e0 name', e0 ∈ dir_versions fs ∧ e0 !! name' = Some (EntryFile j) ∧
      (name' = name ∨ ¬ is_segment_name name' ∧ ¬ is_segment_name name)).
  { intros e name j [->|He]%elem_of_cons Hj; [by apply He2|]. exists e, name. split; [exact He|]. split; [done|by left]. }
  split.
  - intros e name j He Hj. destruct (Hold e name j He Hj) as (e0 & name' & He0 & Hj0 & _). by eapply Hb.
  - intros e e' a b j He He' Ha Hea Heb.
    destruct (Hold e a j He Hea) as (e0 & a' & He0 & Ha0 & [->|[_ Hn]]); [|done].
    destruct (Hold e' b j He' Heb) as (e1 & b' & He1 & Hb1 & Hb').
    pose proof (Hs e0 e1 a b' j He0 He1 Ha Ha0 Hb1) as ->. by destruct Hb' as [->|[Hn _]].
Qed.

Lemma tidy_new_file name fs : tidy fs → tidy (new_file name fs).
Proof.
  intros [Hb Hs]. set (i := fs_next_inode fs).
  assert (Hold : ∀ e a j, e ∈ dir_versions (new_file name fs) → e !! a = Some (EntryFile j) →
    (∃ e0, e0 ∈ dir_versions fs ∧ e0 !! a = Some (EntryFile j)) ∨ (a = name ∧ j = i)).
  { intros e a j [->|He]%elem_of_cons Hj; [|left; by exists e].
    change (fs_entries (new_file name fs)) with (<[name := EntryFile i]> (fs_entries fs)) in Hj.
    apply lookup_insert_Some in Hj as [[-> Hij]|[_ Hj]]; [right; split; congruence|left].
    exists (fs_entries fs). split; [by left|done]. }
  split.
  - intros e a j He Hj. change (fs_next_inode (new_file name fs)) with (i + 1).
    destruct (Hold e a j He Hj) as [(e0 & He0 & Hj0)|[_ ->]]; [|lia]. specialize (Hb e0 a j He0 Hj0). unfold i. lia.
  - intros e e' a b j He He' Ha Hea Heb.
    destruct (Hold e a j He Hea) as [(e0 & He0 & Ha0)|[-> Ei]], (Hold e' b j He' Heb) as [(e1 & He1 & Hb1)|[-> Ej]].
    + exact (Hs e0 e1 a b j He0 He1 Ha Ha0 Hb1).
    + specialize (Hb e0 a j He0 Ha0). unfold i in *. lia.
    + specialize (Hb e1 b j He1 Hb1). unfold i in *. lia.
    + done.
Qed.

(** A directory that a stop leaves. *)
Lemma tidy_disk_safe fs sealed active i bodies durable reg idx :
  disk_safe fs sealed active i bodies durable reg idx → tidy fs.
Proof.
  intros Hs. pose proof (ds_wf _ _ _ _ _ _ _ _ Hs) as [Hinj Hb]. split.
  - intros e name j He Hj. eapply Hb, (version_lookup_some fs); done.
  - intros e e' a b j He He' _ Ha Hb'. apply (version_lookup_some fs _ _ _ _ _ _ _ Hs) in Ha, Hb'; [|done..].
    by eapply Hinj.
Qed.

(** ** Invariants of the calls *)

(** What the path of the directory names, whether it has a parent, and whether
    its name there is synced. *)
Definition place (fs : Fs) : Root * bool * bool := (fs_root fs, fs_has_parent fs, fs_root_synced fs).

(** What every call on a file or in the directory keeps, a rename of a segment
    apart. *)
Class FileInvariant (I : Fs → Prop) : Prop := {
  fi_same fs fs' : I fs → dir_versions fs' = dir_versions fs → fs_next_inode fs' = fs_next_inode fs →
    place fs' = place fs → I fs';
  fi_new_file name fs : I fs → I (new_file name fs);
  fi_delete name fs : I fs → I (update_entries (delete name (fs_entries fs)) fs);
  fi_rename from to x fs : ¬ is_segment_name from → ¬ is_segment_name to → fs_entries fs !! from = Some x →
    I fs → I (update_entries (<[to := x]> (delete from (fs_entries fs))) fs);
  fi_sync fs : I fs → I (sync_entries fs);
}.

#[export] Instance tidy_invariant : FileInvariant tidy.
Proof.
  split.
  - intros fs fs' Ht Hv Hn _. by apply (tidy_same fs).
  - intros name fs. apply tidy_new_file.
  - intros name fs Ht. apply tidy_update; [done|]. intros a j [_ Ha]%lookup_delete_Some.
    exists (fs_entries fs), a. split; [by left|]. split; [done|by left].
  - intros from to x fs Hf Hto E Ht. apply tidy_update; [done|].
    intros a j [[<- ->]|[Hne [Hd Ha]%lookup_delete_Some]]%lookup_insert_Some.
    + exists (fs_entries fs), from. split; [by left|]. split; [done|by right].
    + exists (fs_entries fs), a. split; [by left|]. split; [done|by left].
  - intros fs Ht. apply (tidy_subset fs); [done| |done]. intros e [->|He%elem_of_nil]%elem_of_cons; [by left|done].
Qed.

(** The directory stays where it is. *)
Definition placed (c : Root * bool * bool) (fs : Fs) : Prop := place fs = c.

#[export] Instance placed_invariant c : FileInvariant (placed c).
Proof. split; unfold placed; [by intros fs fs' H _ _ ->|by intros..]. Qed.

(** ** Programs *)

(** The states of programs with files. *)
Class HasFiles (S : Type) := { files_of : S → Fs }.

#[global] Instance Fs_files : HasFiles Fs := {| files_of fs := fs |}.
#[global] Instance World_files : HasFiles World := {| files_of := w_fs |}.
#[global] Instance Io_files : HasFiles Io := {| files_of := io_fs |}.
#[global] Instance WriterState_files : HasFiles WriterState := {| files_of ws := w_fs (ws_world ws) |}.
#[global] Instance EngineState_files `{Nojson} : HasFiles EngineState := {| files_of s := w_fs (es_world s) |}.
#[global] Instance prod_files {S A} `{HasFiles S} : HasFiles (S * A) := {| files_of s := files_of s.1 |}.

Section programs.
Context (I : Fs → Prop) `{!FileInvariant I}.

Definition tidies {S A} `{HasFiles S} (m : M S A) : Prop := keeps (λ s, I (files_of s)) m.

Lemma invariant_stable : stable I.
Proof using All. intros fs f Ht. by apply (fi_same fs). Qed.

Section rules.
Context {S : Type} `{HasFiles S}.

Lemma tidies_ret {A} (a : A) : tidies (S:=S) (mret a).
Proof. apply keeps_ret. Qed.
Lemma tidies_throw {A} e : tidies (S:=S) (throw e : M S A).
Proof. apply keeps_throw. Qed.
Lemma tidies_lift {A} (r : result A) : tidies (S:=S) (lift_result r).
Proof. by intros s Hs. Qed.
Lemma tidies_get : tidies (@get_state S).
Proof. by intros s Hs. Qed.
Lemma tidies_modify (f : S → S) : (∀ s, I (files_of s) → I (files_of (f s))) → tidies (modify f).
Proof. intros Hf s. exact (Hf s). Qed.
Lemma tidies_bind {A B} (m : M S A) (f : A → M S B) : tidies m → (∀ a, tidies (f a)) → tidies (m ≫= f).
Proof. apply keeps_bind. Qed.
Lemma tidies_try {A} (m : M S A) : tidies m → tidies (try_catch m).
Proof. intros Hm s Hs. unfold try_catch. specialize (Hm s Hs). by destruct (m s). Qed.
Lemma tidies_for_each {A} (xs : list A) (f : A → M S ()) : (∀ x, tidies (f x)) → tidies (for_each xs f).
Proof. apply keeps_for_each. Qed.
Lemma tidies_loop {A} fuel (body : M S (option A)) : tidies body → tidies (loop_fuel fuel body).
Proof.
  intros Hb. induction fuel as [|fuel IH]; [apply tidies_throw|]. cbn [loop_fuel].
  apply tidies_bind; [done|]. intros [a|]; [apply tidies_ret|done].
Qed.
Lemma tidies_zoom {T A} `{HasFiles T} (get : S → T) set (m : M T A) :
  (∀ s, files_of (get s) = files_of s) → (∀ t s, files_of (set t s) = files_of t) →
  tidies m → tidies (zoom get set m).
Proof.
  intros Hg Hs Hm s Ht. assert (Hget : I (files_of (get s))) by by rewrite Hg.
  unfold zoom. specialize (Hm (get s) Hget).
  destruct (m (get s)) as [r t]. by rewrite Hs.
Qed.
End rules.

Lemma tidies_fault : tidies take_fault.
Proof. intros fs Hfs. pose proof (hoare_fault I invariant_stable fs Hfs) as Hf. by destruct (take_fault fs) as [r fs'], Hf. Qed.
Lemma tidies_call {A} (op : M Fs A) : tidies op → tidies (call op).
Proof. apply keeps_call, invariant_stable. Qed.
Lemma tidies_in_dir {A} (op : M Fs A) : tidies op → tidies (in_dir op).
Proof. apply keeps_in_dir. Qed.
Lemma tidies_with_file {A} f (m : M Io A) : tidies m → tidies (with_file f m).
Proof. intros Hm w Hw. unfold with_file. specialize (Hm (mkIo (w_fs w) (w_metrics w) f) Hw). by destruct (m _). Qed.
Lemma tidies_with_file_acc {A B} f (m : M (Io * A) B) : tidies m → tidies (with_file_acc f m).
Proof.
  intros Hm s Hs. unfold with_file_acc. specialize (Hm (mkIo (w_fs s.1) (w_metrics s.1) f, s.2) Hs).
  by destruct (m _) as [r [io a]].
Qed.
Lemma tidies_with_local {A} (a : A) (m : M (World * A) ()) : tidies m → tidies (with_local a m).
Proof. intros Hm w Hw. unfold with_local. specialize (Hm (w, a) Hw). by destruct (m _) as [[[]|] [w' a']]. Qed.
Lemma tidies_acc {A B} (m : M A B) : tidies (S:=Io * A) (on_acc m).
Proof. intros [io a] Hs. unfold on_acc, zoom. cbn. by destruct (m a). Qed.
Lemma tidies_release {A} f (m : M World A) : tidies m → tidies (release_on_error f m).
Proof. intros Hm w Hw. unfold release_on_error. specialize (Hm w Hw). destruct (m w) as [[a|e] w']; [done|]. by apply (fi_same (w_fs w')). Qed.

Create HintDb tidy.
#[local] Hint Resolve tidies_ret tidies_throw tidies_lift tidies_get tidies_try tidies_fault tidies_call tidies_in_dir
  tidies_with_file tidies_with_file_acc tidies_with_local tidies_acc tidies_loop tidies_release : tidy.
#[local] Hint Extern 2 (tidies (modify _)) => 
  (apply tidies_modify; intros ? Ht; first [exact Ht|apply (fi_same _ _ Ht); reflexivity]) : tidy.
#[local] Hint Extern 2 (tidies (zoom _ _ _)) => (apply tidies_zoom; [reflexivity|reflexivity|]) : tidy.
#[local] Hint Extern 5 (tidies (_ ≫= _)) => (apply tidies_bind; [|intros ?]) : tidy.
#[local] Hint Extern 5 (tidies (for_each _ _)) => (apply tidies_for_each; intros ?) : tidy.
#[local] Hint Extern 6 (tidies (if ?b then _ else _)) => destruct b : tidy.
#[local] Hint Extern 6 (tidies (match ?x with _ => _ end)) => destruct x : tidy.
#[local] Hint Extern 7 (tidies (let _ := _ in _)) => cbv zeta : tidy.

(** Unfolds a program made of calls. *)
Ltac solve_tidy := eauto 40 with tidy.

(** ** Calls *)

Lemma tidies_exists name : tidies (fs_exists name).
Proof. unfold fs_exists. solve_tidy. Qed.
Lemma tidies_is_file name : tidies (fs_is_file name).
Proof. unfold fs_is_file. solve_tidy. Qed.
Lemma tidies_read_dir : tidies fs_read_dir.
Proof. unfold fs_read_dir. solve_tidy. Qed.
Lemma tidies_try_lock f : tidies (fs_try_lock f).
Proof. unfold fs_try_lock. solve_tidy. Qed.

Lemma tidies_open name o : tidies (fs_open name o).
Proof.
  unfold fs_open. apply tidies_call, tidies_in_dir. intros fs Ht. unfold mbind, M_bind, get_state.
  change (files_of fs) with fs in Ht. destruct (fs_entries fs !! name) as [[i|]|] eqn:E.
  - destruct (opt_create_new o); [done|]. destruct (opt_truncate o); [|done]. by apply (fi_same fs).
  - by destruct (opt_create_new o).
  - destruct (opt_create o || opt_create_new o); [|done]. by apply fi_new_file.
Qed.

Lemma tidies_remove_file name : tidies (fs_remove_file name).
Proof.
  unfold fs_remove_file. apply tidies_call, tidies_in_dir. intros fs Ht. unfold mbind, M_bind, get_state.
  change (files_of fs) with fs in Ht. destruct (fs_entries fs !! name) as [[i|]|]; try done.
  by apply fi_delete.
Qed.

Lemma tidies_rename from to : ¬ is_segment_name from → ¬ is_segment_name to → tidies (fs_rename from to).
Proof.
  intros Hf Hto. unfold fs_rename. apply tidies_call, tidies_in_dir. intros fs Ht. unfold mbind, M_bind, get_state.
  change (files_of fs) with fs in Ht. destruct (fs_entries fs !! from) as [x|] eqn:E; [|done].
  pose proof (fi_rename from to x fs Hf Hto E Ht).
  by destruct (fs_entries fs !! to) as [[]|].
Qed.

Lemma tidies_sync_dir : tidies fs_sync_dir.
Proof.
  unfold fs_sync_dir. apply tidies_bind; [solve_tidy|]. intros _. apply tidies_call, tidies_modify. intros fs Ht.
  by apply fi_sync.
Qed.
#[local] Hint Resolve tidies_exists tidies_is_file tidies_read_dir tidies_try_lock tidies_open tidies_remove_file
  tidies_sync_dir : tidy.

Lemma tidies_io_call {A} (op : M Fs A) : tidies op → tidies (io_call op).
Proof. by apply tidies_zoom. Qed.
Lemma tidies_io_count f : tidies (io_count f).
Proof. unfold io_count. solve_tidy. Qed.
Lemma tidies_w_call {A} (op : M Fs A) : tidies op → tidies (w_call op).
Proof. by apply tidies_zoom. Qed.
Lemma tidies_w_count f : tidies (w_count f).
Proof. unfold w_count. solve_tidy. Qed.
#[local] Hint Resolve tidies_io_call tidies_io_count tidies_w_call tidies_w_count : tidy.

Lemma tidies_seek p : tidies (file_seek p).
Proof. unfold file_seek. solve_tidy. Qed.
Lemma tidies_seek_end : tidies file_seek_end.
Proof. unfold file_seek_end. solve_tidy. Qed.
Lemma tidies_stream_position : tidies file_stream_position.
Proof. unfold file_stream_position. solve_tidy. Qed.
Lemma tidies_len : tidies file_len.
Proof. unfold file_len. solve_tidy. Qed.
Lemma tidies_read_exact n : tidies (file_read_exact n).
Proof. unfold file_read_exact. solve_tidy. Qed.
Lemma tidies_take n : tidies (file_take_read_to_end n).
Proof. unfold file_take_read_to_end. solve_tidy. Qed.
Lemma tidies_write_all b : tidies (file_write_all b).
Proof. unfold file_write_all. solve_tidy. Qed.
Lemma tidies_set_len n : tidies (file_set_len n).
Proof. unfold file_set_len. solve_tidy. Qed.
Lemma tidies_file_sync : tidies file_sync.
Proof. unfold file_sync. solve_tidy. Qed.
#[local] Hint Resolve tidies_seek tidies_seek_end tidies_stream_position tidies_len tidies_read_exact tidies_take
  tidies_write_all tidies_set_len tidies_file_sync : tidy.

(** ** Segments *)

Lemma tidies_header allow recover cnt : tidies (read_segment_header allow recover cnt).
Proof. unfold read_segment_header. solve_tidy. Qed.
Lemma tidies_finish allow recover start len : tidies (finish_records allow recover start len).
Proof. unfold finish_records. solve_tidy. Qed.
Lemma tidies_discover : tidies discover_segment_paths.
Proof. unfold discover_segment_paths. solve_tidy. Qed.
#[local] Hint Resolve tidies_header tidies_finish tidies_discover : tidy.
Lemma tidies_select : tidies select_active_append_segment.
Proof. unfold select_active_append_segment. solve_tidy. Qed.
Lemma tidies_or_none {A} n (rest : list byte → M Io (option A)) :
  (∀ b, tidies (rest b)) → tidies (read_exact_or_none n rest).
Proof. intros Hr. unfold read_exact_or_none, read_exact_or_eof. solve_tidy. Qed.
#[local] Hint Resolve tidies_select : tidy.
#[local] Hint Extern 5 (tidies (read_exact_or_none _ _)) => (apply tidies_or_none; intros ?) : tidy.
Lemma tidies_read_body cnt : tidies (read_record_body cnt).
Proof. unfold read_record_body. solve_tidy. Qed.
Lemma tidies_scan_chunks fuel crc n : tidies (scan_body_chunks fuel crc n).
Proof. revert crc n. induction fuel as [|fuel IH]; intros crc n; cbn [scan_body_chunks]; solve_tidy. Qed.
#[local] Hint Resolve tidies_read_body tidies_scan_chunks : tidy.
Lemma tidies_scan_frame : tidies scan_record_frame.
Proof. unfold scan_record_frame. solve_tidy. Qed.
#[local] Hint Resolve tidies_scan_frame : tidy.
Lemma tidies_scan_segment path allow : tidies (scan_segment path allow).
Proof. unfold scan_segment, scan_turn. solve_tidy. Qed.
#[local] Hint Resolve tidies_scan_segment : tidy.
Lemma tidies_recover active : tidies (recover_storage_dir active).
Proof. unfold recover_storage_dir. solve_tidy. Qed.
#[local] Hint Resolve tidies_recover : tidy.

Section replay.
Context `{Noraft}.

Lemma tidies_on_io {A B} (m : M Io B) : tidies m → tidies (S:=Io * A) (on_io m).
Proof. by apply tidies_zoom. Qed.
Lemma tidies_on_files {A B} (m : M World B) : tidies m → tidies (S:=World * A) (on_files m).
Proof. by apply tidies_zoom. Qed.
#[local] Hint Resolve tidies_on_io tidies_on_files : tidy.

Lemma tidies_read_records {A} allow recover len (handle : N → list byte → M (Io * A) ()) :
  (∀ off body, tidies (handle off body)) → tidies (read_records allow recover len handle).
Proof. intros Hh. unfold read_records, records_turn. solve_tidy. Qed.

Lemma tidies_with_segment {A} segment allow recover (m : N → M (Io * A) ()) :
  (∀ len, tidies (m len)) → tidies (with_segment segment allow recover m).
Proof. intros Hm. unfold with_segment. solve_tidy. Qed.

Lemma tidies_scan_checkpoints segment allow filter start recover :
  tidies (scan_checkpoint_positions segment allow filter start recover).
Proof.
  apply tidies_with_segment. intros len. pose proof (tidies_read_records (A:=gmap N RecordPosition) allow recover len).
  assert (∀ off body, tidies (handle_checkpoint (path_name segment) filter off body))
    by (intros; unfold handle_checkpoint; solve_tidy).
  solve_tidy.
Qed.

Lemma tidies_replay_segment segment allow filter positions recover :
  tidies (replay_segment segment allow filter positions recover).
Proof. apply tidies_with_segment. intros len. apply tidies_read_records. intros off body. unfold handle_replay. solve_tidy. Qed.

Lemma tidies_replay_node_segment segment allow n position recover :
  tidies (replay_node_segment segment allow n position recover).
Proof. apply tidies_with_segment. intros len. apply tidies_read_records. intros off body. unfold handle_node_replay. solve_tidy. Qed.
#[local] Hint Resolve tidies_scan_checkpoints tidies_replay_segment tidies_replay_node_segment : tidy.

Lemma tidies_find_checkpoints active filter start recover :
  tidies (find_checkpoint_positions_from active filter start recover).
Proof. unfold find_checkpoint_positions_from. solve_tidy. Qed.
#[local] Hint Resolve tidies_find_checkpoints : tidy.

Lemma tidies_replay_node_state active n hint recover : tidies (replay_node_state active n hint recover).
Proof. unfold replay_node_state. solve_tidy. Qed.

Lemma tidies_replay_storage_dir active filter hints recover :
  tidies (replay_storage_dir active filter hints recover).
Proof. unfold replay_storage_dir, checkpoint_positions_for_replay, find_checkpoint_positions. solve_tidy. Qed.
End replay.
#[local] Hint Resolve tidies_replay_node_state tidies_replay_storage_dir : tidy.

(** ** The writer and the metadata files *)

Lemma tidies_with_file_kept {A} f (m : M Io A) : tidies m → tidies (with_file_kept f m).
Proof. intros Hm. unfold with_file_kept. solve_tidy. Qed.
Lemma tidies_on_world {A} (m : M World A) : tidies m → tidies (on_world m).
Proof. by apply tidies_zoom. Qed.
#[local] Hint Resolve tidies_with_file_kept tidies_on_world : tidy.
Lemma tidies_on_writer_file {A} (m : M Io A) : tidies m → tidies (on_writer_file m).
Proof. intros Hm. unfold on_writer_file, get_writer, set_writer. solve_tidy. Qed.
Lemma tidies_create_active name : tidies (create_active_segment_file name).
Proof. unfold create_active_segment_file. solve_tidy. Qed.
Lemma tidies_open_active name : tidies (open_active_segment_file name).
Proof. unfold open_active_segment_file. solve_tidy. Qed.
#[local] Hint Resolve tidies_on_writer_file tidies_create_active tidies_open_active : tidy.
Lemma tidies_sync_current : tidies sync_current_segment.
Proof. unfold sync_current_segment. solve_tidy. Qed.
#[local] Hint Resolve tidies_sync_current : tidy.
Lemma tidies_writer_sync : tidies writer_sync.
Proof. unfold writer_sync. solve_tidy. Qed.
Lemma tidies_rotate : tidies writer_rotate.
Proof. unfold writer_rotate, sync_parent_dir, get_writer, set_writer. solve_tidy. Qed.
#[local] Hint Resolve tidies_writer_sync tidies_rotate : tidy.
Lemma tidies_writer_append `{Noraft} n r : tidies (writer_append n r).
Proof. unfold writer_append, get_writer, set_writer. solve_tidy. Qed.
Lemma tidies_writer_open active max_len : tidies (segment_writer_open active max_len).
Proof. unfold segment_writer_open, sync_parent_dir. solve_tidy. Qed.
Lemma tidies_load_text path : tidies (load_text path).
Proof. unfold load_text, file_read_to_string. solve_tidy. Qed.
#[local] Hint Resolve tidies_writer_append tidies_writer_open tidies_load_text : tidy.

Lemma tidies_save_text tmp path text : metadata_pair tmp path → tidies (save_text tmp path text).
Proof.
  intros Hp. destruct (pair_facts _ _ Hp) as (_ & Hpt & Hpp & _). unfold save_text.
  assert (∀ name, parse_file_name name = None → ¬ is_segment_name name) by (intros name Hn [n Hs]; congruence).
  pose proof (tidies_rename tmp path). solve_tidy.
Qed.

(** ** The engine *)

Section engine.
Context `{NJ : Nojson} `{NR : Noraft}.

Lemma tidies_es_world {A} (m : M World A) : tidies m → tidies (es_on_world m).
Proof. by apply tidies_zoom. Qed.
Lemma tidies_es_writer {A} (m : M WriterState A) : tidies m → tidies (es_on_writer m).
Proof. by apply tidies_zoom. Qed.
Lemma tidies_registry_save E : tidies (registry_save E).
Proof. apply tidies_save_text, registry_pair. Qed.
Lemma tidies_index_save x : tidies (index_save x).
Proof. apply tidies_save_text, index_pair. Qed.
Lemma tidies_count f : tidies (count f).
Proof. apply tidies_es_world, tidies_w_count. Qed.
#[local] Hint Resolve tidies_es_world tidies_es_writer tidies_registry_save tidies_index_save tidies_count : tidy.

Lemma tidies_ensure n op : tidies (engine_ensure_node_exists n op).
Proof. unfold engine_ensure_node_exists, get_engine. solve_tidy. Qed.
Lemma tidies_delete_segments b active paths k : tidies (delete_segments b active paths k).
Proof.
  revert k. induction paths as [|p paths IH]; intros k; [apply tidies_ret|].
  rewrite delete_segments_cons. solve_tidy.
Qed.
#[local] Hint Resolve tidies_ensure tidies_delete_segments : tidy.
Lemma tidies_collect_garbage : tidies collect_garbage.
Proof. unfold collect_garbage, get_engine. solve_tidy. Qed.
#[local] Hint Resolve tidies_collect_garbage : tidy.
Lemma tidies_save_record n r op : tidies (save_record n r op).
Proof. unfold save_record. solve_tidy. Qed.
#[local] Hint Resolve tidies_save_record : tidy.

(** Every operation, however its calls turn out. *)
Lemma tidies_exec op : tidies (exec op).
Proof.
  destruct op; cbn [exec]; (apply tidies_bind; [|intros ?; apply tidies_ret]);
    unfold create_node, save_current_term, save_voted_for, append_entries, save_snapshot, remove_node,
      engine_sync, engine_load, engine_load_all, refresh_registry_metrics, refresh_checkpoint_index_metrics,
      get_engine, set_registry, set_index; solve_tidy.
Qed.
Lemma tidies_segment_exists name : tidies (segment_file_exists name).
Proof. unfold segment_file_exists. solve_tidy. Qed.
#[local] Hint Resolve tidies_segment_exists : tidy.
Lemma tidies_validate_position n p : tidies (validate_checkpoint_position n p).
Proof. unfold validate_checkpoint_position. solve_tidy. Qed.
Lemma tidies_validate x : tidies (validate_checkpoint_positions x).
Proof. apply tidies_for_each. intros [n y]. apply tidies_validate_position. Qed.
#[local] Hint Resolve tidies_validate : tidy.

(** Opening, once there is a directory. *)
Lemma tidies_write_lock : tidies acquire_write_lock.
Proof. unfold acquire_write_lock. solve_tidy. Qed.
Lemma tidies_registry_load : tidies registry_load.
Proof. unfold registry_load. solve_tidy. Qed.
Lemma tidies_index_load reg : tidies (index_load reg).
Proof. unfold index_load. solve_tidy. Qed.
#[local] Hint Resolve tidies_write_lock tidies_registry_load tidies_index_load : tidy.

Lemma tidies_opening lock max_len : tidies (
  release_on_error lock $
    active_segment ← select_active_append_segment;
    w_count (λ _, metrics_default) ;;
    recover_storage_dir active_segment ;;
    registry ← registry_load;
    checkpoint_index ← index_load registry;
    w_count (registry_loaded (active_node_count registry) (removed_node_count registry)) ;;
    w_count (checkpoint_index_loaded (index_len checkpoint_index)) ;;
    writer ← segment_writer_open active_segment max_len;
    mret (mkStorageEngine lock registry checkpoint_index writer)).
Proof. solve_tidy. Qed.
End engine.
End programs.
