(* ===== verification/DurableGc.v ===== *)
(** * What garbage collection leaves at a crash

    Segments are deleted one by one and the directory is synced at the end: a
    crash finds some of them deleted, and nothing else changed. *)
From Stdlib Require Import Strings.Byte Strings.String.
From S2P Require Import Prelude Metrics Fs Text Json Noraft State Crc32c Codec Format Frame.
From S2P Require Import Segment Replay Registry Checkpoint Engine Recovery RecoveryCorrect.
From S2P Require Import ReplayCorrect WriterCorrect MetadataCorrect MetadataFaults EngineCorrect.
From S2P Require Import LoadCorrect OpenCorrect Faults Durability Surface DurableWriter.

(** ** Directories without some of their segments *)

(** The files of the segments with the names [skip]. *)
Definition skipped_files (skip : SegmentName → bool) (fs : Fs) : list string :=
  path_file <$> filter (λ p, skip (path_name p) = true) (segments_of fs).

Definition without_segments (skip : SegmentName → bool) (fs : Fs) : gmap string DirEntry :=
  fs_entries (delete_files (skipped_files skip fs) fs).

Definition kept (skip : SegmentName → bool) (sealed : list segment_contents) : list segment_contents :=
  filter (λ seg : segment_contents, skip seg.1 = false) sealed.

Lemma kept_log skip sealed active bodies :
  skip active = false →
  log_of (kept skip sealed ++ [(active, bodies)]) = log_skip skip (log_of (sealed ++ [(active, bodies)])).
Proof.
  intros Ha. rewrite <-log_skip_filter. unfold kept. rewrite list.filter_app, filter_cons. cbn [fst].
  by rewrite decide_True by exact Ha.
Qed.

Lemma skipped_files_segments skip fs name :
  name ∈ skipped_files skip fs → ∃ n, parse_file_name name = Some n ∧ skip n = true.
Proof.
  intros (p & -> & Hp)%list_elem_of_fmap. apply list_elem_of_filter in Hp as [Hs Hp].
  exists (path_name p). split; [by apply (segment_paths_parse fs)|done].
Qed.

Lemma without_lookup skip fs name :
  (∀ n, parse_file_name name = Some n → skip n = false) →
  without_segments skip fs !! name = fs_entries fs !! name.
Proof.
  intros Hn. unfold without_segments. rewrite delete_files_entries, decide_False; [done|].
  intros (n & Hp & Hs)%skipped_files_segments. rewrite (Hn n Hp) in Hs. done.
Qed.

Lemma without_lookup_some skip fs name e :
  without_segments skip fs !! name = Some e → fs_entries fs !! name = Some e.
Proof. unfold without_segments. rewrite delete_files_entries. by case_decide. Qed.

Section deleted.
Context (fs fs' : Fs) (skip : SegmentName → bool) (sealed : list segment_contents) (active : SegmentName).
Hypothesis Hskip : skip active = false.
Hypothesis Hroot : fs_root fs' = fs_root fs.
Hypothesis Hent : fs_entries fs' = without_segments skip fs.

Lemma deleted_segments : segments_of fs' = filter (λ p, skip (path_name p) = false) (segments_of fs).
Proof using Hent.
  rewrite <-segments_of_deleted. unfold segments_of. by rewrite Hent.
Qed.

Lemma deleted_wf : fs_wf fs → fs_next_inode fs' = fs_next_inode fs → fs_wf fs'.
Proof using Hent.
  intros [Hinj Hb] Hn. unfold fs_wf. rewrite Hent, Hn. split.
  - intros a b j Ha%without_lookup_some Hb'%without_lookup_some. by eapply Hinj.
  - intros a j Ha%without_lookup_some. by eapply Hb.
Qed.

Lemma deleted_text name :
  parse_file_name name = None →
  (∀ j, fs_entries fs !! name = Some (EntryFile j) → data_of j fs' = data_of j fs) → file_text fs' name = file_text fs name.
Proof using Hent.
  intros Hn Hd. unfold file_text. rewrite Hent, without_lookup by congruence.
  destruct (fs_entries fs !! name) as [[j|]|] eqn:E; [|done|done]. by rewrite Hd.
Qed.

Lemma deleted_split paths :
  segments_of fs = paths ++ [active_path active] →
  segments_of fs' = filter (λ p, skip (path_name p) = false) paths ++ [active_path active].
Proof using Hent Hskip.
  intros Hp. rewrite deleted_segments, Hp, list.filter_app, filter_cons. cbn [path_name active_path].
  by rewrite decide_True.
Qed.

Lemma deleted_holds paths :
  segments_of fs = paths ++ [active_path active] → Forall2 (holds_segment fs) paths sealed →
  (∀ p j, p ∈ paths → fs_entries fs !! path_file p = Some (EntryFile j) → data_of j fs' = data_of j fs) →
  Forall2 (holds_segment fs') (filter (λ p, skip (path_name p) = false) paths) (kept skip sealed).
Proof using Hent Hroot.
  intros Hp Hh Hd. eapply Forall2_In_l.
  - apply Forall2_filter; [|exact Hh]. intros p seg (Hn & _). by rewrite Hn.
  - intros p seg Hin (Hn & Hb & j & Hjr & Hj & Hdj). apply list_elem_of_filter in Hin as [Hk Hin].
    split; [done|]. split; [done|]. exists j. split; [by rewrite Hroot|]. split.
    + rewrite Hent, without_lookup; [done|]. intros n Hpn.
      assert (Hps : p ∈ segments_of fs) by (rewrite Hp; apply elem_of_app; by left).
      rewrite (segment_paths_parse fs p Hps) in Hpn. by injection Hpn as <-.
    + rewrite (Hd p j Hin Hj). done.
Qed.
End deleted.

Lemma on_disk_deleted fs fs' skip sealed active bodies reg idx :
  on_disk fs sealed active bodies reg idx → skip active = false →
  fs_root fs' = fs_root fs → fs_next_inode fs' = fs_next_inode fs →
  fs_entries fs' = without_segments skip fs → (∀ j, data_of j fs' = data_of j fs) →
  on_disk fs' (kept skip sealed) active bodies reg idx.
Proof.
  intros [H1 H2 H3 (d & Hs) H5 H6] Hsk Hr Hn He Hd. split.
  - by rewrite Hr.
  - by eapply deleted_wf.
  - intros name Hname. unfold not_other. rewrite He. intros Ho%without_lookup_some. by eapply H3.
  - exists d. inversion Hs as [|paths segs i d' b Hp Hh Hid (Fr & Fe & Fd) Ht]; subst.
    apply (some_segments fs' active (filter (λ p, skip (path_name p) = false) paths) _ i).
    + by apply (deleted_split fs).
    + apply (deleted_holds fs fs' skip sealed active Hr He paths Hp Hh). intros p j _ _. apply Hd.
    + done.
    + split; [by rewrite Hr|]. split; [|done]. rewrite He, without_lookup; [done|].
      intros n. rewrite parse_file_name_print by done. by intros [= <-].
    + exact Ht.
  - rewrite (deleted_text fs fs' skip He); [done|done|]. intros j _. apply Hd.
  - rewrite (deleted_text fs fs' skip He); [done|done|]. intros j _. apply Hd.
Qed.

(** The directory after the deletions and a sync. *)
Lemma disk_ok_deleted fs fs' skip sealed active i bodies durable reg idx :
  disk_ok fs sealed active i bodies durable reg idx → skip active = false →
  fs_root fs' = fs_root fs → fs_next_inode fs' = fs_next_inode fs →
  fs_entries fs' = without_segments skip fs → fs_entries_unsynced fs' = [] →
  (∀ j, inode_of j fs' = inode_of j fs) →
  disk_ok fs' (kept skip sealed) active i bodies durable reg idx.
Proof.
  intros [[H1 H2 H3 H4 (paths & Hp & Hh) H6 Hid Ha Hl H10 H11 H12 H13] Hd Hf] Hsk Hr Hn He Hu Hi.
  assert (Hdata : ∀ j, data_of j fs' = data_of j fs) by (intros j; unfold data_of; by rewrite Hi).
  assert (Hsync : ∀ name, file_synced fs name → file_synced fs' name).
  { intros name Hs j. rewrite He, Hi. intros Hj%without_lookup_some. by apply Hs. }
  split; [|by rewrite Hdata|done]. split.
  - by rewrite Hr.
  - by eapply deleted_wf.
  - intros name Hname. unfold not_other. rewrite He. intros Ho%without_lookup_some. by eapply H3.
  - rewrite Hu. by intros e ?%elem_of_nil.
  - exists (filter (λ p, skip (path_name p) = false) paths). split; [by apply (deleted_split fs)|].
    apply (deleted_holds fs fs' skip sealed active Hr He paths Hp Hh). intros p j _ _. apply Hdata.
  - intros p. rewrite (deleted_segments fs fs' skip He). intros [_ Hin]%list_elem_of_filter Hne. by apply Hsync, (H6 p).
  - done.
  - rewrite He, without_lookup; [done|]. intros n. rewrite parse_file_name_print by done. by intros [= <-].
  - intros c. unfold leaves. rewrite Hdata, Hi. apply Hl.
  - rewrite (deleted_text fs fs' skip He); [done|done|]. intros j _. apply Hdata.
  - by apply Hsync.
  - rewrite (deleted_text fs fs' skip He); [done|done|]. intros j _. apply Hdata.
  - by apply Hsync.
Qed.

(** ** Deleting one segment after the other *)

Lemma filter_sublist_id {A} (P : A → Prop) `{!∀ x, Decision (P x)} (l k : list A) :
  l `sublist_of` k → NoDup k → (∀ x, x ∈ k → (P x ↔ x ∈ l)) → filter P k = l.
Proof.
  induction 1 as [|x l k Hs IH|x l k Hs IH]; [done| |]; intros [Hx Hnd]%list.NoDup_cons HP; rewrite filter_cons.
  - rewrite decide_True by (apply HP; by left). f_equal. apply IH; [done|]. intros y Hy.
    rewrite HP by by right. rewrite elem_of_cons. split; [|by right]. intros [->|?]; done.
  - rewrite decide_False.
    + apply IH; [done|]. intros y Hy. apply HP. by right.
    + rewrite HP by by left. intros Hl. apply Hx. by eapply elem_of_sublist.
Qed.

Lemma prefix_sublist {A} (l k : list A) : l `prefix_of` k → l `sublist_of` k.
Proof. intros [m ->]. by apply sublist_inserts_r. Qed.

(** A set of segment names as a test. *)
Definition named_in (paths : list SegmentPath) (n : SegmentName) : bool :=
  bool_decide (n ∈ path_name <$> paths).

Lemma skipped_files_named fs paths :
  paths `sublist_of` segments_of fs → skipped_files (named_in paths) fs = path_file <$> paths.
Proof.
  intros Hs. unfold skipped_files. f_equal. apply filter_sublist_id; [done|apply segments_of_NoDup|].
  intros p Hp. unfold named_in. rewrite bool_decide_eq_true. split; [|by apply list_elem_of_fmap_2].
  intros (q & E & Hq)%list_elem_of_fmap. assert (Hq' : q ∈ segments_of fs) by by eapply elem_of_sublist.
  apply elem_of_segments_of in Hp as (Hf & _), Hq' as (Hf' & _).
  assert (p = q) as ->; [|done]. destruct p, q; cbn in *. by subst.
Qed.

Lemma delete_files_app l1 l2 fs : delete_files (l1 ++ l2) fs = delete_files l2 (delete_files l1 fs).
Proof. apply foldl_app. Qed.

(** The versions of the directory after deletions. *)
Lemma delete_files_versions names fs e :
  e ∈ dir_versions (delete_files names fs) →
  e ∈ dir_versions fs ∨ ∃ pre, pre `prefix_of` names ∧ e = fs_entries (delete_files pre fs).
Proof.
  induction names as [|name names IH] using rev_ind; [by left|].
  rewrite delete_files_app. intros [->|He]%elem_of_cons.
  - right. exists (names ++ [name]). split; [done|]. by rewrite delete_files_app.
  - apply IH in He as [?|(pre & Hp & He)]; [by left|right]. exists pre. split; [by apply prefix_app_r|done].
Qed.

Lemma delete_files_faults names f fs : delete_files names (set_faults f fs) = set_faults f (delete_files names fs).
Proof. revert fs. induction names as [|x names IH]; intros fs; [done|]. unfold delete_files in *. exact (IH (update_entries (delete x (fs_entries fs)) fs)). Qed.

Section gc.
Context `{NJ : Nojson} `{NR : Noraft}.

(** Deletable segments: not the active one, and superseded. *)
Definition may_delete (e : StorageEngine) (skip : SegmentName → bool) : Prop :=
  skip (active_segment (engine_writer e)) = false ∧
  ∀ n q, is_active (engine_registry e) n = true → skip (position_segment q) = true →
    ∃ p, checkpoint_position (engine_index e) n = Some p ∧ record_position_lt q p.

Lemma remove_file_cases fs m e name i :
  fs_root fs = RootDir → fs_entries fs !! name = Some (EntryFile i) →
  ∃ f, es_on_world (w_call (fs_remove_file name)) (mkEngineState (mkWorld fs m) e) =
         (Err fault_error, mkEngineState (mkWorld (set_faults f fs) m) e) ∨
       es_on_world (w_call (fs_remove_file name)) (mkEngineState (mkWorld fs m) e) =
         (Ok (), mkEngineState (mkWorld (set_faults f (delete_files [name] fs)) m) e).
Proof.
  intros Hr He. unfold es_on_world, w_call, zoom, fs_remove_file. cbn [es_world w_fs]. set (op := in_dir _).
  destruct (call_cases op fs) as (f & [H|H]); exists f; rewrite H; [by left|right].
  unfold op, in_dir, mbind, M_bind, get_state. change (fs_root (set_faults f fs)) with (fs_root fs). rewrite Hr.
  change (fs_entries (set_faults f fs)) with (fs_entries fs). by rewrite He.
Qed.

(** The deletions stop after some segments, or delete them all. *)
Lemma delete_segments_cases b active paths k fs m e :
  fs_root fs = RootDir → NoDup (path_file <$> paths) →
  (∀ p, p ∈ paths → ∃ i, fs_entries fs !! path_file p = Some (EntryFile i)) →
  let del := deleted_paths b active paths in
  ∃ f, (∃ dels, dels `prefix_of` del ∧
          delete_segments b active paths k (mkEngineState (mkWorld fs m) e) =
          (Err fault_error, mkEngineState (mkWorld (set_faults f (delete_files (path_file <$> dels) fs)) m) e)) ∨
       delete_segments b active paths k (mkEngineState (mkWorld fs m) e) =
         (Ok (k + lenN del), mkEngineState (mkWorld (set_faults f (delete_files (path_file <$> del) fs)) m) e).
Proof.
  revert k fs. induction paths as [|p paths IH]; intros k fs Hr Hnd Hex; cbv zeta.
  { exists (fs_faults fs). right. cbn. unfold mret, M_ret. rewrite N.add_0_r. by destruct fs. }
  rewrite delete_segments_cons. rewrite fmap_cons in Hnd. apply list.NoDup_cons in Hnd as [Hp Hnd].
  unfold deleted_paths. rewrite filter_cons. destruct (deletable b active (path_name p)).
  - rewrite decide_True by done. fold (deleted_paths b active paths).
    destruct (Hex p ltac:(by left)) as [i Hi].
    destruct (remove_file_cases fs m e (path_file p) i Hr Hi) as (f & [H|H]).
    + exists f. left. exists []. split; [apply prefix_nil|].
      unfold try_catch, mbind, M_bind. by rewrite H.
    + assert (Hex' : ∀ q, q ∈ paths → ∃ i, fs_entries (set_faults f (delete_files [path_file p] fs)) !! path_file q = Some (EntryFile i)).
      { intros q Hq. destruct (Hex q ltac:(by right)) as [j Hj]. exists j. cbn.
        rewrite lookup_delete_ne; [done|]. intros E. apply Hp. rewrite E. by apply list_elem_of_fmap_2. }
      destruct (IH (k + 1) (set_faults f (delete_files [path_file p] fs)) Hr Hnd Hex') as (g & Hg).
      assert (Hstep : ∀ r, delete_segments b active paths (k + 1)
          (mkEngineState (mkWorld (set_faults f (delete_files [path_file p] fs)) m) e) = r →
        (r0 ← try_catch (es_on_world (w_call (fs_remove_file (path_file p))));
         match r0 with
         | Ok _ => delete_segments b active paths (k + 1)
         | Err e => if bool_decide (error_kind e = NotFound) then delete_segments b active paths k else throw e
         end) (mkEngineState (mkWorld fs m) e) = r).
      { intros r <-. unfold try_catch, mbind, M_bind. by rewrite H. }
      exists g. destruct Hg as [(dels & Hd & Hg)|Hg]; apply Hstep in Hg.
      * left. exists (p :: dels). split; [by apply prefix_cons|]. by rewrite Hg, fmap_cons, delete_files_faults.
      * right. rewrite Hg, fmap_cons, lenN_cons, delete_files_faults. replace (k + 1 + lenN (deleted_paths b active paths)) with (k + (1 + lenN (deleted_paths b active paths))) by lia. done.
  - rewrite decide_False by done. apply IH; [done|done|]. intros q Hq. apply Hex. by right.
Qed.
Lemma log_skip_none {R} (l : list (RecordPosition * R)) skip :
  (∀ r, r ∈ l → skip (position_segment r.1) = false) → log_skip skip l = l.
Proof.
  intros Hl. unfold log_skip. induction l as [|r l IH]; [done|]. rewrite filter_cons, decide_True by (apply Hl; by left).
  f_equal. apply IH. intros r' Hr'. apply Hl. by right.
Qed.

(** What a crash leaves of a log when segments are being deleted. *)
Definition skipped_between (e : StorageEngine) (D L : list (RecordPosition * list byte)) (reg idx : option (list byte))
  (l : list (RecordPosition * list byte)) (r x : option (list byte)) : Prop :=
  ∃ skip l0, may_delete e skip ∧ l = log_skip skip l0 ∧ log_between D L reg idx l0 r x.

Lemma delete_files_crashes fs f sealed (e : StorageEngine) i bodies durable reg idx dels :
  let active := active_segment (engine_writer e) in
  disk_ok fs sealed active i bodies durable reg idx →
  dels `sublist_of` segments_of fs →
  (∀ dels', dels' `prefix_of` dels → may_delete e (named_in dels')) → may_delete e (λ _, false) →
  crashes_to (set_faults f (delete_files (path_file <$> dels) fs))
    (skipped_between e (log_of (sealed ++ [(active, durable)])) (log_of (sealed ++ [(active, bodies)])) reg idx).
Proof.
  intros active [Hs _ _] Hdel Hmay Hnone. apply crashes_to_faults. intros fs' (Hr & Hn & He & Hd).
  destruct (delete_files_same (path_file <$> dels) fs) as (Sr & _ & Si & Sn).
  assert (Hd' : ∀ j, leaves fs j (data_of j fs')).
  { intros j. specialize (Hd j). unfold leaves, data_of, inode_of in Hd |- *. by rewrite Si in Hd. }
  apply delete_files_versions in He as [He|(pre & Hpre & He)].
  - destruct (disk_safe_stopped fs sealed active i bodies durable reg idx Hs fs') as (b & H1 & H2 & Hod).
    { split; [by rewrite Hr|]. split; [by rewrite Hn|]. done. }
    exists (log_of (sealed ++ [(active, b)])), reg, idx. split; [by exists sealed, active, b|].
    exists (λ _, false), (log_of (sealed ++ [(active, b)])). split; [done|].
    split; [by rewrite log_skip_none|]. split; [by apply log_of_prefix|]. split; [by apply log_of_prefix|done].
  - set (fs2 := set_entries (fs_entries fs) [] fs').
    destruct (disk_safe_stopped fs sealed active i bodies durable reg idx Hs fs2) as (b & H1 & H2 & Hod).
    { split; [by cbn; rewrite Hr|]. split; [by cbn; rewrite Hn|]. split; [by left|done]. }
    assert (Hpd : ∃ dels', dels' `prefix_of` dels ∧ pre = path_file <$> dels').
    { destruct Hpre as [post Hpre]. apply fmap_app_inv in Hpre as (d1 & d2 & -> & -> & ->).
      exists d1. split; [by eexists|done]. }
    destruct Hpd as (dels' & Hdp & ->). destruct (Hmay dels' Hdp) as [Hma Hmk].
    assert (Hsf : skipped_files (named_in dels') fs2 = path_file <$> dels').
    { change (skipped_files (named_in dels') fs2) with (skipped_files (named_in dels') fs).
      apply skipped_files_named. etrans; [|exact Hdel]. by apply prefix_sublist. }
    assert (Hod' : on_disk fs' (kept (named_in dels') sealed) active b reg idx).
    { apply (on_disk_deleted fs2 fs'); [done|exact Hma|done|done| |done].
      rewrite He. unfold without_segments. rewrite Hsf. apply map_eq. intros name.
      by rewrite !delete_files_entries. }
    exists (log_of (kept (named_in dels') sealed ++ [(active, b)])), reg, idx.
    split; [by exists (kept (named_in dels') sealed), active, b|].
    exists (named_in dels'), (log_of (sealed ++ [(active, b)])). split; [done|].
    split; [by apply kept_log|]. split; [by apply log_of_prefix|]. split; [by apply log_of_prefix|done].
Qed.

Lemma discover_cases fs m :
  fs_root fs = RootDir →
  ∃ f, discover_segment_paths (mkWorld fs m) = (Err fault_error, mkWorld (set_faults f fs) m) ∨
       discover_segment_paths (mkWorld fs m) = (Ok (segments_of fs), mkWorld (set_faults f fs) m).
Proof.
  intros Hr. unfold discover_segment_paths.
  assert (Hread : ∃ f, w_call fs_read_dir (mkWorld fs m) = (Err fault_error, mkWorld (set_faults f fs) m) ∨
    w_call fs_read_dir (mkWorld fs m) = (Ok (map_to_list (fs_entries fs)), mkWorld (set_faults f fs) m)).
  { unfold w_call, zoom, fs_read_dir. cbn [w_fs]. set (op := in_dir _).
    destruct (call_cases op fs) as (f & [H|H]); exists f; rewrite H; [by left|right].
    unfold op, in_dir, mbind, M_bind, get_state. change (fs_root (set_faults f fs)) with (fs_root fs). by rewrite Hr. }
  assert (Hloop : ∀ (entries : list (string * DirEntry)) g, ∃ f,
    for_each entries (λ _, w_call (call (mret ()))) (mkWorld (set_faults g fs) m) = (Err fault_error, mkWorld (set_faults f fs) m) ∨
    for_each entries (λ _, w_call (call (mret ()))) (mkWorld (set_faults g fs) m) = (Ok (), mkWorld (set_faults f fs) m)).
  { induction entries as [|x entries IH]; intros g; [by exists g; right|]. cbn [for_each].
    assert (Hc : ∃ f, w_call (call (mret ())) (mkWorld (set_faults g fs) m) = (Err fault_error, mkWorld (set_faults f fs) m) ∨
      w_call (call (mret ())) (mkWorld (set_faults g fs) m) = (Ok (), mkWorld (set_faults f fs) m)).
    { unfold w_call, zoom. cbn [w_fs]. destruct (call_cases (mret ()) (set_faults g fs)) as (f & [-> | ->]); exists f; [by left|by right]. }
    destruct Hc as (f & [Hc|Hc]); [exists f; left; by rewrite (bind_err _ _ _ _ _ Hc)|].
    rewrite (bind_ok _ _ _ _ _ Hc). apply IH. }
  destruct Hread as (f & [H|H]).
  - exists f. left. unfold try_catch, mbind, M_bind. by rewrite H.
  - unfold try_catch. destruct (Hloop (map_to_list (fs_entries fs)) f) as (g & [Hg|Hg]); exists g.
    + left. unfold mbind at 1, M_bind at 1. rewrite H. by rewrite (bind_err _ _ _ _ _ Hg).
    + right. unfold mbind at 1, M_bind at 1. rewrite H. by rewrite (bind_ok _ _ _ _ _ Hg).
Qed.

Lemma may_delete_mono e (skip skip' : SegmentName → bool) :
  (∀ n, skip' n = true → skip n = true) → may_delete e skip → may_delete e skip'.
Proof.
  intros Hs [H1 H2]. split.
  - apply not_true_is_false. intros H%Hs. congruence.
  - intros n q Ha Hq. by eapply H2, Hs.
Qed.

Lemma may_delete_none e : may_delete e (λ _, false).
Proof. by split. Qed.

(** What the barrier allows to delete. *)
Lemma deletable_may_delete e b :
  gc_barrier (engine_index e) (active_node_ids (engine_registry e)) = Some b →
  may_delete e (deletable b (active_segment (engine_writer e))).
Proof.
  intros Eb%gc_barrier_spec. split; [unfold deletable; by rewrite bool_decide_eq_true_2|].
  intros n q Ha Hq. apply andb_true_iff in Hq as [_ Hq]. apply elem_of_active_node_ids in Ha.
  destruct b as [|seg]; [rewrite Eb in Ha; set_solver|].
  destruct (Eb n Ha) as (p & Hp & Hle). exists p. split; [done|].
  cbn in Hq. apply bool_decide_eq_true in Hq. left. unfold name_lt, name_le in *. lia.
Qed.

(** The writer of an engine. *)
Definition engine_disk (s : EngineState) (L D : list (RecordPosition * list byte)) (reg idx : option (list byte)) : Prop :=
  writer_disk (mkWriterState (es_world s) (engine_writer (es_engine s))) L D reg idx.

Lemma writer_disk_metrics fs m m' w L D reg idx :
  writer_disk (mkWriterState (mkWorld fs m) w) L D reg idx →
  unsynced_records m' = unsynced_records m → unsynced_bytes m' = unsynced_bytes m →
  writer_disk (mkWriterState (mkWorld fs m') w) L D reg idx.
Proof.
  intros [H1 H2 H3 H4] E1 E2. split; [done|done|done|]. cbn in *. by rewrite E1, E2.
Qed.

(** What [collect_garbage] does to the directory: it deletes the deletable
    segments and syncs the directory, or stops at a call that fails. *)
Lemma collect_garbage_cases fs m e :
  fs_root fs = RootDir →
  match gc_barrier (engine_index e) (active_node_ids (engine_registry e)) with
  | None => collect_garbage (mkEngineState (mkWorld fs m) e) = (Ok (), mkEngineState (mkWorld fs (gc_ran m)) e)
  | Some b =>
      let del := deleted_paths b (active_segment (engine_writer e)) (segments_of fs) in
      ∃ f m', (m' = gc_ran m ∨ del ≠ [] ∧ m' = gc_deleted_segments (lenN del) (gc_ran m)) ∧
        ((∃ dels, dels `prefix_of` del ∧ collect_garbage (mkEngineState (mkWorld fs m) e) =
            (Err fault_error, mkEngineState (mkWorld (set_faults f (delete_files (path_file <$> dels) fs)) m') e)) ∨
         (del = [] ∧ collect_garbage (mkEngineState (mkWorld fs m) e) =
            (Ok (), mkEngineState (mkWorld (set_faults f fs) m') e)) ∨
         (del ≠ [] ∧ m' = gc_deleted_segments (lenN del) (gc_ran m) ∧ collect_garbage (mkEngineState (mkWorld fs m) e) =
            (Ok (), mkEngineState (mkWorld (set_faults f (sync_entries (delete_files (path_file <$> del) fs))) m') e)))
  end.
Proof.
  intros Hr. unfold collect_garbage. set (s0 := mkEngineState (mkWorld fs m) e).
  rewrite (bind_ok (count gc_ran) _ s0 () (mkEngineState (mkWorld fs (gc_ran m)) e) eq_refl).
  set (s1 := mkEngineState _ e). rewrite (bind_ok get_engine _ s1 e s1 eq_refl).
  destruct (gc_barrier (engine_index e) (active_node_ids (engine_registry e))) as [b|]; [|done].
  set (active := active_segment (engine_writer e)). cbv zeta.
  destruct (discover_cases fs (gc_ran m) Hr) as (f & [H|H]).
  { exists f, (gc_ran m). split; [by left|]. left. exists []. split; [apply prefix_nil|].
    by rewrite (bind_err _ _ _ _ _ (es_on_world_run _ _ e _ _ H)). }
  rewrite (bind_ok _ _ _ _ _ (es_on_world_run _ _ e _ _ H)). set (fs1 := set_faults f fs).
  set (del := deleted_paths b active (segments_of fs)).
  destruct (delete_segments_cases b active (segments_of fs) 0 fs1 (gc_ran m) e Hr (segments_of_files_NoDup fs)
    ltac:(intros p Hp; by apply elem_of_segments_of in Hp as (_ & _ & ?))) as (g & [(dels & Hp & E)|E]).
  { exists g, (gc_ran m). split; [by left|]. left. exists dels. split; [done|].
    rewrite (bind_err _ _ _ _ _ E). unfold fs1. by rewrite delete_files_faults. }
  rewrite (bind_ok _ _ _ _ _ E). fold del. rewrite N.add_0_l. unfold fs1. rewrite delete_files_faults.
  set (fs2 := delete_files (path_file <$> del) fs).
  destruct (N.eqb_spec (lenN del) 0) as [E0|E0]; cbn [negb].
  - assert (Hnil : del = []) by (destruct del; [done|rewrite lenN_cons in E0; lia]).
    exists g, (gc_ran m). split; [by left|]. right. left. split; [done|]. unfold fs2. by rewrite Hnil.
  - assert (Hne : del ≠ []) by (intros E'; by rewrite E' in E0).
    set (s2 := mkEngineState _ e). set (m2 := gc_deleted_segments (lenN del) (gc_ran m)).
    rewrite (bind_ok (count _) _ s2 () (mkEngineState (mkWorld (set_faults g fs2) m2) e)) by done.
    destruct (delete_files_same (path_file <$> del) fs) as (Sr & _).
    assert (Hr2 : fs_root (set_faults g fs2) = RootDir) by (cbn; unfold fs2; by rewrite Sr).
    destruct (sync_dir_cases (set_faults g fs2) m2 Hr2) as (h & [E2|E2]);
      rewrite (es_on_world_run _ _ e _ _ E2); exists h, m2; (split; [by right|]).
    + left. by exists del.
    + right. by right.
Qed.

(** [collect_garbage]: segments before the indexed checkpoints are gone. *)
Lemma collect_garbage_disk s L D reg idx :
  engine_disk s L D reg idx →
  let '(r, s') := collect_garbage s in
  es_engine s' = es_engine s ∧
  match r with
  | Ok _ => ∃ skip, may_delete (es_engine s) skip ∧ engine_disk s' (log_skip skip L) (log_skip skip D) reg idx
  | Err e => e = fault_error ∧ crashes_to (w_fs (es_world s')) (skipped_between (es_engine s) D L reg idx)
  end.
Proof.
  intros Hd. destruct s as [[fs m] e]. unfold engine_disk in *. cbn [es_world es_engine] in *.
  pose proof Hd as [(sealed & bodies & durable & Hok & HL & HD & Hl) Hw Ha Hsy]. cbn [ws_world ws_writer w_fs w_metrics] in *.
  pose proof (collect_garbage_cases fs m e (ds_root _ _ _ _ _ _ _ _ (dk_safe _ _ _ _ _ _ _ _ Hok))) as Hc.
  assert (Hsame : ∀ f m', same_pending m m' → ∃ skip, may_delete e skip ∧
    writer_disk (mkWriterState (mkWorld (set_faults f fs) m') (engine_writer e)) (log_skip skip L) (log_skip skip D) reg idx).
  { intros f m' [H1 H2]. exists (λ _, false). split; [apply may_delete_none|]. rewrite !log_skip_none by done.
    apply writer_disk_faults. by eapply writer_disk_metrics. }
  destruct (gc_barrier (engine_index e) (active_node_ids (engine_registry e))) as [b|] eqn:Eb.
  2:{ rewrite Hc. split; [done|]. cbn [es_world es_engine]. specialize (Hsame (fs_faults fs) (gc_ran m) (conj eq_refl eq_refl)). by destruct fs. }
  pose proof (deletable_may_delete e b Eb) as Hmay. set (active := active_segment (engine_writer e)) in *.
  set (del := deleted_paths b active (segments_of fs)) in *.
  assert (Hdel : ∀ dels, dels `prefix_of` del → dels `sublist_of` segments_of fs).
  { intros dels Hp. etrans; [by apply prefix_sublist|]. apply sublist_filter. }
  assert (Hmd : ∀ dels, dels `prefix_of` del → may_delete e (named_in dels)).
  { intros dels Hp. eapply may_delete_mono; [|exact Hmay]. intros n Hn. unfold named_in in Hn.
    apply bool_decide_eq_true, list_elem_of_fmap in Hn as (p & -> & Hin).
    eapply elem_of_sublist in Hin; [|by apply prefix_sublist]. by apply list_elem_of_filter in Hin as [? _]. }
  destruct Hc as (f & m' & Hcnt & Hc). assert (Hm : same_pending m m') by by destruct Hcnt as [->|[_ ->]].
  destruct Hc as [(dels & Hp & ->)|[[Hnil ->]|(_ & _ & ->)]]; (split; [done|]); cbn [es_world es_engine w_fs].
  - split; [done|]. rewrite HD, HL. apply (delete_files_crashes fs f sealed e (file_inode (writer_file (engine_writer e))));
      [done|by apply Hdel| |apply may_delete_none]. intros dels' Hp'. apply Hmd. by etrans.
  - by apply Hsame.
  - exists (named_in del). split; [by apply Hmd|]. destruct Hm as [Hm1 Hm2].
    destruct (delete_files_same (path_file <$> del) fs) as (Sr & _ & Si & Sn). apply writer_disk_faults.
    eapply writer_disk_metrics; [|exact Hm1|exact Hm2].
    split; [|exact Hw|exact Ha|intros E3 E4; by rewrite (Hsy E3 E4)].
    exists (kept (named_in del) sealed), bodies, durable. cbn [ws_world ws_writer w_fs].
    assert (Hact : named_in del active = false) by (by apply Hmd).
    split; [|split; [by rewrite HL, kept_log|split; [by rewrite HD, kept_log|done]]].
    eapply (disk_ok_deleted fs); [done|exact Hact|by cbn; rewrite Sr|by cbn; rewrite Sn| |done|].
    + cbn. unfold without_segments. rewrite skipped_files_named by by apply Hdel. done.
    + intros j. unfold inode_of. cbn. by rewrite Si.
Qed.
End gc.
