(* ===== verification/GcProgress.v ===== *)
(** * Garbage collection leaves nothing superseded

    When [collect_garbage] returns, every segment that could go is gone, and
    the directory has been synced. *)
From Stdlib Require Import Strings.Byte Strings.String.
From S2P Require Import Prelude Metrics Fs Text Json Noraft State Crc32c Codec Format Frame Segment.
From S2P Require Import Replay Registry Checkpoint Engine Recovery RecoveryCorrect ReplayCorrect WriterCorrect.
From S2P Require Import MetadataCorrect EngineCorrect NodeCorrect EngineSpec AsyncStore LoadCorrect OpenCorrect.
From S2P Require Import MetadataFaults Faults GcFaults Durability Surface DurableWriter DurableMetadata DurableGc.
From S2P Require Import JsonExample EngineExample.

Section barrier.
Context `{NJ : Nojson}.

(** The barrier is the segment of a checkpoint. *)
Lemma oldest_segment_exact x ids oldest s :
  oldest_segment x ids oldest = Some (Some s) →
  oldest = Some s ∨ ∃ n p, n ∈ ids ∧ checkpoint_position x n = Some p ∧ position_segment p = s.
Proof.
  revert oldest. induction ids as [|id ids IH]; intros oldest; cbn [oldest_segment].
  - intros [= ->]. by left.
  - intros (p & Hp & [E|(n & q & Hn & Hq)]%IH)%bind_Some; [|right; exists n, q; split; [by right|done]].
    assert (E' : position_segment p = s ∨ oldest = Some s).
    { destruct oldest as [o|]; [|left; congruence]. unfold name_min in E. case_decide; [right|left]; congruence. }
    destruct E' as [E'|E']; [right; exists id, p; split; [by left|done]|by left].
Qed.

Lemma oldest_segment_none x ids oldest :
  oldest_segment x ids oldest = None → ∃ n, n ∈ ids ∧ checkpoint_position x n = None.
Proof.
  revert oldest. induction ids as [|id ids IH]; intros oldest; cbn [oldest_segment]; [done|].
  intros H. destruct (checkpoint_position x id) as [p|] eqn:E; [|exists id; split; [by left|done]].
  apply IH in H as (n & Hn & Hp). exists n. split; [by right|done].
Qed.

(** What may not go is needed. *)
Lemma not_deletable_needed e seg :
  match gc_barrier (engine_index e) (active_node_ids (engine_registry e)) with
  | Some b => allows_delete b seg = false
  | None => True
  end → ¬ superseded e seg.
Proof.
  unfold gc_barrier. destruct (oldest_segment _ _ _) as [[s|]|] eqn:E; cbn [mbind option_bind allows_delete].
  - intros Hs%bool_decide_eq_false Hsup. apply oldest_segment_exact in E as [?|(n & p & Hn & Hp & <-)]; [done|].
    apply elem_of_btree_elements, elem_of_active_node_ids, Hsup in Hn as (q & Hq & Hlt). congruence.
  - done.
  - intros _ Hsup. apply oldest_segment_none in E as (n & Hn & Hp).
    apply elem_of_btree_elements, elem_of_active_node_ids, Hsup in Hn as (q & Hq & _). congruence.
Qed.
End barrier.

Section gc.
Context `{NJ : Nojson} `{NR : Noraft}.

(** When no call fails, garbage collection returns. *)
Lemma collect_garbage_returns s :
  no_faults (w_fs (es_world s)) → fs_root (w_fs (es_world s)) = RootDir → (collect_garbage s).1 = Ok ().
Proof.
  destruct s as [[fs m] e]. cbn [es_world w_fs]. intros Hnf Hr. unfold collect_garbage.
  set (s0 := mkEngineState _ e).
  rewrite (bind_ok (count gc_ran) _ s0 () (mkEngineState (mkWorld fs (gc_ran m)) e) eq_refl).
  set (s1 := mkEngineState _ e). rewrite (bind_ok get_engine _ s1 e s1 eq_refl).
  destruct (gc_barrier _ _) as [b|]; [|done]. set (active := active_segment (engine_writer e)).
  rewrite (bind_ok _ _ _ _ _ (es_on_world_run _ _ e _ _
    (discover_segment_paths_run (mkWorld fs (gc_ran m)) Hnf Hr))). cbn [w_fs].
  rewrite (bind_ok _ _ _ _ _ (delete_segments_run b active (segments_of fs) 0 fs (gc_ran m) e Hnf Hr
    (segments_of_files_NoDup fs) ltac:(intros p Hp; by apply elem_of_segments_of in Hp as (_ & _ & ?)))).
  set (del := deleted_paths b active (segments_of fs)). rewrite N.add_0_l.
  destruct (N.eqb_spec (lenN del) 0) as [E0|E0]; cbn [negb]; [done|].
  destruct (delete_files_same (path_file <$> del) fs) as (Hr1 & Hf1 & _).
  set (s2 := mkEngineState (mkWorld (delete_files (path_file <$> del) fs) _) e).
  rewrite (bind_ok (count _) _ s2 () (mkEngineState (mkWorld (delete_files (path_file <$> del) fs)
    (gc_deleted_segments (lenN del) (gc_ran m))) e) eq_refl).
  erewrite es_on_world_run; [done|]. apply fs_sync_dir_run; [exact (eq_trans Hf1 Hnf)|exact (eq_trans Hr1 Hr)].
Qed.

(** A crash of a directory without unsynced changes keeps its segments. *)
Lemma synced_segments fs fs' : fs_entries_unsynced fs = [] → crash fs fs' → segments_of fs' = segments_of fs.
Proof.
  intros Hu (_ & He & _). rewrite Hu in He. apply list_elem_of_singleton in He. unfold segments_of. by rewrite He.
Qed.

(** [C13] Garbage collection is complete.  It returns when no call fails; and
    when it returns, no segment but the active one is left that all active
    nodes have an indexed checkpoint after, and a segment that it deleted is not
    brought back by a crash. *)
Theorem gc_leaves_nothing_superseded (s : EngineState) :
  fs_root (w_fs (es_world s)) = RootDir →
  (no_faults (w_fs (es_world s)) → (collect_garbage s).1 = Ok ()) ∧
  ∀ s', collect_garbage s = (Ok (), s') →
  (∀ p, p ∈ segments_of (w_fs (es_world s')) → path_name p ≠ active_segment (engine_writer (es_engine s)) →
        ¬ superseded (es_engine s) (path_name p)) ∧
  (∀ p fs', p ∈ segments_of (w_fs (es_world s)) → p ∉ segments_of (w_fs (es_world s')) →
            crash (w_fs (es_world s')) fs' → p ∉ segments_of fs').
Proof.
  intros Hr. split; [intros; by apply collect_garbage_returns|]. destruct s as [[fs m] e]. cbn [es_world es_engine w_fs] in *.
  pose proof (collect_garbage_cases fs m e Hr) as Hc. pose proof (not_deletable_needed e) as Hneed.
  destruct (gc_barrier _ _) as [b|]; [|rewrite Hc; intros s' [= <-]; split; [|done]; intros p _ _; by apply Hneed].
  set (active := active_segment (engine_writer e)) in *. set (del := deleted_paths b active (segments_of fs)) in *.
  assert (Hkeep : ∀ p, p ∈ segments_of fs → p ∉ del → path_name p ≠ active → ¬ superseded e (path_name p)).
  { intros p Hp Hd Ha. apply Hneed. apply not_true_is_false. intros Hb. apply Hd. apply list_elem_of_filter.
    split; [|done]. unfold deletable. by rewrite bool_decide_eq_false_2, Hb. }
  destruct Hc as (f & m' & _ & [(dels & _ & ->)|[[Hnil ->]|(_ & _ & ->)]]); [done|..]; intros s' [= <-]; cbn [es_world w_fs].
  - split; [|done]. intros p Hp. apply Hkeep; [done|]. rewrite Hnil. apply not_elem_of_nil.
  - split; [|intros p fs' _ Hp Hcr; apply synced_segments in Hcr as ->; [exact Hp|done]].
    intros p Hp. apply elem_of_segments_of in Hp as (Hpf & Hid & i & Hi). cbn in Hi.
    rewrite delete_files_entries in Hi. case_decide as Hd; [done|]. apply Hkeep.
    + apply elem_of_segments_of. split; [done|]. split; [done|]. by exists i.
    + intros Hin. apply Hd. by apply list_elem_of_fmap_2.
Qed.
End gc.

(** ** Witness

    Segments of at most five bytes, so that every record but the first gets a
    segment of its own.  Node 7 is created (segment 0), saves a term (segment 1)
    and a snapshot (segment 2); the garbage collection of the last fails to list
    the directory, so that segments 0 and 1 are left although nothing needs them. *)

Section witness.
#[local] Existing Instance ListLog.instance.
#[local] Existing Instance ListLog.laws.

Definition with_faults (f : list (option N)) (s : EngineState) : EngineState :=
  mkEngineState (mkWorld (set_faults f (w_fs (es_world s))) (w_metrics (es_world s))) (es_engine s).

Definition short_state : EngineState :=
  mkEngineState fresh_world
    (mkStorageEngine (mkFile 0 0 true false) registry_default index_default
       (mkSegmentWriter first_append (mkFile 1 4 true true) 4 5)).

Definition before_snapshot : EngineState :=
  (exec (OpSaveTerm 7 3) (exec (OpCreateNode 7 example_metadata) short_state).2).2.

Definition uncollected : EngineState :=
  with_faults [] (exec (OpSnapshot 7 initial_checkpoint) (with_faults (repeat None 17 ++ [Some 0]) before_snapshot)).2.

Definition uncollected_path (id : N) : SegmentPath :=
  mkSegmentPath (mkSegmentName id) (file_name (mkSegmentName id)).

Definition collected : EngineState := (collect_garbage uncollected).2.

Lemma gc_leaves_nothing_superseded_witness :
  segments_of (w_fs (es_world uncollected)) = uncollected_path <$> [0; 1; 2] ∧
  segments_of (w_fs (es_world collected)) = [uncollected_path 2] ∧
  (∀ p, p ∈ segments_of (w_fs (es_world collected)) → path_name p ≠ mkSegmentName 2 →
        ¬ superseded (es_engine uncollected) (path_name p)) ∧
  ∀ fs', crash (w_fs (es_world collected)) fs' → uncollected_path 1 ∉ segments_of fs'.
Proof.
  assert (Hbefore : segments_of (w_fs (es_world uncollected)) = uncollected_path <$> [0; 1; 2])
    by (vm_compute; reflexivity).
  assert (Hafter : segments_of (w_fs (es_world collected)) = [uncollected_path 2]) by (vm_compute; reflexivity).
  assert (Hroot : fs_root (w_fs (es_world uncollected)) = RootDir) by (vm_compute; reflexivity).
  assert (Hfaults : no_faults (w_fs (es_world uncollected))) by (vm_compute; reflexivity).
  assert (Hactive : active_segment (engine_writer (es_engine uncollected)) = mkSegmentName 2) by (vm_compute; reflexivity).
  destruct (gc_leaves_nothing_superseded uncollected Hroot) as [Hok H].
  assert (Hrun : collect_garbage uncollected = (Ok (), collected)).
  { unfold collected. rewrite <-(Hok Hfaults). apply surjective_pairing. }
  destruct (H collected Hrun) as [Hgone Hback]. rewrite Hactive in Hgone.
  split; [exact Hbefore|]. split; [exact Hafter|]. split; [exact Hgone|].
  intros fs'. apply Hback; [rewrite Hbefore; right; left|]. rewrite Hafter.
  intros Hin. apply list_elem_of_singleton in Hin. discriminate Hin.
Defined.
End witness.
