(* ===== verification/Reads.v ===== *)
(** * Loading does not change the directory

    A load from a directory whose segments are complete leaves every file as it
    is, also when some of its calls fail: the repairs of a torn end that replay
    may make do not happen.  The counters of pending records do not change
    either. *)
From Stdlib Require Import Strings.Byte Strings.String.
From S2P Require Import Prelude Metrics Fs Text Json Noraft State Crc32c Codec Format Frame.
From S2P Require Import Segment Replay Registry Checkpoint Engine Recovery RecoveryCorrect.
From S2P Require Import ReplayCorrect WriterCorrect MetadataCorrect EngineCorrect NodeCorrect.
From S2P Require Import EngineSpec Faults Durability Surface DurableWriter DurableGc.

(** ** What is observed *)

Definition pending_view (m : StorageMetrics) : N * N := (unsynced_records m, unsynced_bytes m).
Definition io_view (io : Io) : Fs * (N * N) * N :=
  (clear (io_fs io), pending_view (io_metrics io), file_inode (io_file io)).
Definition world_view (w : World) : Fs * (N * N) := (clear (w_fs w), pending_view (w_metrics w)).

(** A program that keeps an observation. *)
Definition quiet {S T A} (o : S → T) (m : M S A) : Prop := ∀ c, keeps (λ s, o s = c) m.

Section rules.
Context {S T : Type} (o : S → T).

Lemma quiet_ret {A} (a : A) : quiet o (mret a).
Proof. intros c. apply keeps_ret. Qed.
Lemma quiet_throw {A} e : quiet o (throw e : M S A).
Proof. intros c. apply keeps_throw. Qed.
Lemma quiet_lift {A} (r : result A) : quiet o (lift_result r).
Proof. by intros c s Hs. Qed.
Lemma quiet_modify (f : S → S) : (∀ s, o (f s) = o s) → quiet o (modify f).
Proof. intros Hf c. apply hoare_modify. intros s Hs. by rewrite Hf. Qed.
Lemma quiet_get : quiet o get_state.
Proof. by intros c s Hs. Qed.
Lemma quiet_bind {A B} (m : M S A) (f : A → M S B) : quiet o m → (∀ a, quiet o (f a)) → quiet o (m ≫= f).
Proof. intros Hm Hf c. apply keeps_bind; [apply Hm|]. intros a. apply Hf. Qed.
Lemma quiet_try {A} (m : M S A) : quiet o m → quiet o (try_catch m).
Proof. intros Hm c. apply hoare_try_catch. apply Hm. Qed.
Lemma quiet_for_each {A} (xs : list A) (f : A → M S ()) : (∀ x, quiet o (f x)) → quiet o (for_each xs f).
Proof. intros Hf c. apply keeps_for_each. intros x. apply Hf. Qed.

Lemma quiet_zoom {S' T' A} (o' : S' → T') (get : S → S') set (m : M S' A) :
  (∀ t s, o' t = o' (get s) → o (set t s) = o s) → quiet o' m → quiet o (zoom get set m).
Proof.
  intros Hs Hm c s Hc. specialize (Hm _ (get s) eq_refl). unfold zoom. destruct (m (get s)) as [r t].
  by rewrite Hs.
Qed.
End rules.

Lemma quiet_call {A} (op : M Fs A) : quiet clear op → quiet clear (call op).
Proof. intros Hop c. apply keeps_call; [|apply Hop]. intros fs f Hfs. exact Hfs. Qed.

Create HintDb quiet.
#[export] Hint Resolve quiet_ret quiet_throw quiet_lift quiet_get quiet_try quiet_call : quiet.
#[export] Hint Extern 2 (quiet _ (modify _)) => (apply quiet_modify; reflexivity) : quiet.
#[export] Hint Extern 5 (quiet _ (_ ≫= _)) => (apply quiet_bind; [|intros ?]) : quiet.
#[export] Hint Extern 5 (quiet _ (for_each _ _)) => (apply quiet_for_each; intros ?) : quiet.
#[export] Hint Extern 6 (quiet _ (if ?b then _ else _)) => destruct b : quiet.
#[export] Hint Extern 6 (quiet _ (match ?x with _ => _ end)) => destruct x : quiet.
#[export] Hint Extern 7 (quiet _ (let _ := _ in _)) => cbv zeta : quiet.

Ltac solve_quiet := eauto 30 with quiet.

Lemma quiet_io_call {A} (op : M Fs A) : quiet clear op → quiet io_view (io_call op).
Proof. apply quiet_zoom. intros fs io H. unfold io_view. cbn. by rewrite H. Qed.
Lemma quiet_w_call {A} (op : M Fs A) : quiet clear op → quiet world_view (w_call op).
Proof. apply quiet_zoom. intros fs w H. unfold world_view. cbn. by rewrite H. Qed.
Lemma quiet_in_dir {A} (op : M Fs A) : quiet clear op → quiet clear (in_dir op).
Proof. intros Hop. unfold in_dir. solve_quiet. Qed.
#[export] Hint Resolve quiet_io_call quiet_w_call quiet_in_dir : quiet.

(** Opening for reading and writing, without truncation. *)
Lemma quiet_open name write : quiet clear (fs_open name (open_read_write write)).
Proof. unfold fs_open, open_read_write. cbn [opt_create opt_create_new opt_truncate orb]. solve_quiet. Qed.
Lemma quiet_read_dir : quiet clear fs_read_dir.
Proof. unfold fs_read_dir. solve_quiet. Qed.
#[export] Hint Resolve quiet_open quiet_read_dir : quiet.

Lemma quiet_seek p : quiet io_view (file_seek p).
Proof. unfold file_seek. solve_quiet. Qed.
Lemma quiet_stream_position : quiet io_view file_stream_position.
Proof. unfold file_stream_position. solve_quiet. Qed.
Lemma quiet_len : quiet io_view file_len.
Proof. unfold file_len. solve_quiet. Qed.
Lemma quiet_read_exact n : quiet io_view (file_read_exact n).
Proof. unfold file_read_exact. solve_quiet. Qed.
Lemma quiet_take n : quiet io_view (file_take_read_to_end n).
Proof. unfold file_take_read_to_end. solve_quiet. Qed.
#[export] Hint Resolve quiet_seek quiet_stream_position quiet_len quiet_read_exact quiet_take : quiet.

Lemma quiet_or_none {A} n (rest : list byte → M Io (option A)) :
  (∀ b, quiet io_view (rest b)) → quiet io_view (read_exact_or_none n rest).
Proof. intros Hr. unfold read_exact_or_none, read_exact_or_eof. solve_quiet. Qed.

Lemma quiet_read_body cnt : quiet io_view (read_record_body cnt).
Proof.
  unfold read_record_body, io_count. apply quiet_or_none. intros b. cbv zeta.
  case_match; [apply quiet_throw|]. apply quiet_or_none. solve_quiet.
Qed.

Lemma quiet_discover : quiet world_view discover_segment_paths.
Proof. unfold discover_segment_paths. solve_quiet. Qed.
#[export] Hint Resolve quiet_read_body quiet_discover : quiet.

(** A quiet program, at a state. *)
Lemma quiet_at {S T A} (o : S → T) (m : M S A) s r s' : quiet o m → m s = (r, s') → o s' = o s.
Proof. intros Hm E. specialize (Hm _ s eq_refl). by rewrite E in Hm. Qed.

(** ** Complete segments *)

(** The handle is at the start of a record of a complete file, or at its end. *)
Definition at_record (bodies : list (list byte)) (io : Io) : Prop :=
  io_data io = segment_data bodies [] ∧ bodies_fit bodies ∧
  ∃ b1 b2, bodies = b1 ++ b2 ∧ file_pos (io_file io) = 4 + lenN (frames_bytes b1).

Lemma io_view_data io io' : io_view io' = io_view io → io_data io' = io_data io.
Proof.
  intros H. pose proof (f_equal (λ v, v.1.1) H) as Hc. pose proof (f_equal snd H) as Hi. cbn in Hc, Hi.
  unfold io_data. rewrite Hi. change (data_of ?j ?fs) with (data_of j (clear fs)). by rewrite Hc.
Qed.

Lemma clear_io_data io : io_data (clear io) = io_data io.
Proof. done. Qed.

Section loop.
Context {A : Type} (handle : N → list byte → M (Io * A) ()).

(** The code after a record has been read: it counts and works on its own state. *)
Definition quiet_handler : Prop :=
  ∀ off body, quiet (λ s : Io * A, (io_view s.1, file_pos (io_file s.1))) (handle off body).

Hypothesis Hh : quiet_handler.
Context (allow recover : bool) (bodies : list (list byte)).

(** The invariant of the loops. *)
Definition loop_at (v : Fs * (N * N) * N) (s : Io * A) : Prop := io_view s.1 = v ∧ at_record bodies s.1.

Lemma read_body_at v io :
  io_view io = v → at_record bodies io →
  let '(r, io') := read_record_body true io in
  io_view io' = v ∧
  match r with
  | Ok (Some _) => at_record bodies io'
  | Ok None => file_pos (io_file io) = lenN (io_data io)
  | Err _ => True
  end.
Proof.
  intros Hv (Hd & Hf & b1 & b2 & Hb & Hp).
  assert (Hrest : io_rest io = frames_bytes b2).
  { unfold io_rest. by rewrite Hd, Hp, Hb, segment_data_drop, app_nil_r. }
  pose proof (surfaces_read_body true io) as Hs. destruct (read_record_body true io) as [r io'] eqn:E.
  pose proof (quiet_at _ _ _ _ _ (quiet_read_body true) E) as Hq. split; [congruence|].
  destruct r as [o|e]; [|done]. destruct Hs as [|Hs]; [done|]. rewrite read_record_body_run in Hs by done.
  assert (Hf2 : bodies_fit b2) by (rewrite Hb in Hf; by apply Forall_app in Hf as [_ ?]).
  apply pair_equal_spec in Hs as [Ho Hst]. change (io_rest (clear io)) with (io_rest io) in Ho. rewrite Hrest in Ho.
  destruct b2 as [|b b2].
  - change (frames_bytes []) with (@nil byte) in Ho. rewrite frame_at_nil in Ho. injection Ho as <-.
    rewrite Hd, Hp, Hb, segment_data_length, lenN_nil, app_nil_r. lia.
  - rewrite frames_bytes_cons in Ho, Hrest. apply list.Forall_cons in Hf2 as [Hbl _].
    rewrite frame_at_wire in Ho by done. injection Ho as <-.
    pose proof (io_rest_frame_state true (clear io) b (frames_bytes b2) Hrest Hbl) as [Hadv _].
    assert (Hio : clear io' = advance (lenN (wire_frame b)) (clear io)) by (transitivity (frame_state true (clear io)); [by symmetry|exact Hadv]).
    split; [by rewrite (io_view_data _ _ Hq)|]. split; [done|]. exists (b1 ++ [b]), b2.
    split; [by rewrite Hb, <-app_assoc|].
    change (file_pos (io_file (clear io')) = 4 + lenN (frames_bytes (b1 ++ [b]))). rewrite Hio.
    change (file_pos (io_file io) + lenN (wire_frame b) = 4 + lenN (frames_bytes (b1 ++ [b]))).
    rewrite Hp, frames_bytes_app, lenN_app, frames_bytes_cons, app_nil_r. lia.
Qed.

(** The result of a call of [stream_position]. *)
Lemma stream_position_at io :
  let '(r, io') := file_stream_position io in
  io_view io' = io_view io ∧ file_pos (io_file io') = file_pos (io_file io) ∧
  match r with Ok p => p = file_pos (io_file io) | Err _ => True end.
Proof.
  destruct io as [fs m fl]. unfold file_stream_position.
  destruct (io_skip_cases fs m fl) as (f & [H|H]); [by rewrite (bind_err _ _ _ _ _ H)|].
  by rewrite (bind_ok _ _ _ _ _ H).
Qed.

Lemma at_record_moved io io' :
  io_view io' = io_view io → file_pos (io_file io') = file_pos (io_file io) →
  at_record bodies io → at_record bodies io'.
Proof. intros Hv Hp (Hd & Hf & b1 & b2 & H). rewrite <-Hp in H. split; [by rewrite (io_view_data _ _ Hv)|]. eauto. Qed.

(** One turn of the loop: it never finds a torn end. *)
Lemma records_turn_at v s :
  loop_at v s →
  let '(r, s') := records_turn allow recover (lenN (segment_data bodies [])) handle s in
  io_view s'.1 = v ∧ (r = Ok None → loop_at v s').
Proof using Hh.
  intros [Hv Ha]. destruct s as [io a]. cbn [fst] in *. unfold records_turn.
  pose proof (stream_position_at io) as Hp. destruct (file_stream_position io) as [[p|e] io1] eqn:E1.
  2:{ rewrite (bind_err (on_io _) _ _ e (io1, a)) by (unfold on_io, zoom; cbn; by rewrite E1).
      split; [|done]. cbn. rewrite (proj1 Hp). done. }
  destruct Hp as (Hv1 & Hp1 & ->).
  rewrite (bind_ok (on_io _) _ _ (file_pos (io_file io)) (io1, a)) by (unfold on_io, zoom; cbn; by rewrite E1).
  pose proof (read_body_at v io1 ltac:(by rewrite Hv1) (at_record_moved _ _ Hv1 Hp1 Ha)) as Hb.
  destruct (read_record_body true io1) as [[[body|]|e] io2] eqn:E2.
  - rewrite (bind_ok (on_io _) _ _ (Some body) (io2, a)) by (unfold on_io, zoom; cbn; by rewrite E2).
    destruct Hb as [Hv2 Ha2]. pose proof (Hh (file_pos (io_file io)) body _ (io2, a) eq_refl) as Hq.
    unfold mbind, M_bind. destruct (handle _ _ (io2, a)) as [[[]|e] [io3 a']]; cbn [fst] in Hq |- *;
      apply pair_equal_spec in Hq as [Hq1 Hq2]; (split; [exact (eq_trans Hq1 Hv2)|]); [|done]. intros _. split; [exact (eq_trans Hq1 Hv2)|].
    exact (at_record_moved io2 io3 Hq1 Hq2 Ha2).
  - rewrite (bind_ok (on_io _) _ _ None (io2, a)) by (unfold on_io, zoom; cbn; by rewrite E2).
    destruct Hb as [Hv2 Hend]. rewrite Hp1 in Hend. unfold finish_records.
    rewrite (proj2 (N.eqb_eq _ _)); [done|]. rewrite Hend, (io_view_data _ _ Hv1). by destruct Ha as [-> _].
  - rewrite (bind_err (on_io _) _ _ e (io2, a)) by (unfold on_io, zoom; cbn; by rewrite E2).
    split; [|done]. apply Hb.
Qed.

Lemma read_records_at v s :
  loop_at v s → io_view (read_records allow recover (lenN (segment_data bodies [])) handle s).2.1 = v.
Proof using Hh.
  unfold read_records. generalize (record_loop_fuel (lenN (segment_data bodies []))). intros fuel. revert s.
  induction fuel as [|fuel IH]; intros s Hs; [apply Hs|]. cbn [loop_fuel]. pose proof (records_turn_at v s Hs) as Ht.
  unfold mbind, M_bind. destruct (records_turn _ _ _ _ s) as [[[u|]|e] s']; [exact (proj1 Ht)| |exact (proj1 Ht)].
  by apply IH, Ht.
Qed.
End loop.

(** The result of asking for the length. *)
Lemma file_len_at io :
  let '(r, io') := file_len io in
  io_view io' = io_view io ∧ io_file io' = io_file io ∧
  match r with Ok len => len = lenN (io_data io) | Err _ => True end.
Proof.
  destruct io as [fs m fl]. unfold file_len.
  destruct (io_skip_cases fs m fl) as (f & [H|H]); [by rewrite (bind_err _ _ _ _ _ H)|].
  by rewrite (bind_ok _ _ _ _ _ H).
Qed.

(** The header of a complete segment. *)
Lemma header_view bodies allow recover io :
  io_data io = segment_data bodies [] → io_view (read_segment_header allow recover true io).2 = io_view io.
Proof.
  intros Hd. unfold read_segment_header. unfold mbind at 1, M_bind at 1.
  pose proof (quiet_seek 0 _ io eq_refl) as H1. destruct (file_seek 0 io) as [[[]|e] io1]; [|exact H1].
  cbv beta in H1. unfold mbind at 1, M_bind at 1. pose proof (file_len_at io1) as Hl.
  destruct (file_len io1) as [[len|e] io2]; destruct Hl as (H2 & _ & Hl); [|exact (eq_trans H2 H1)].
  rewrite Hl, (io_view_data _ _ H1), Hd. change SEGMENT_FILE_HEADER_LEN with 4.
  rewrite (proj2 (N.eqb_neq _ _)) by (rewrite segment_data_length; lia).
  rewrite (proj2 (N.ltb_ge _ _)) by (rewrite segment_data_length; lia).
  match goal with |- io_view (?prog io2).2 = _ => assert (Hq : quiet io_view prog) by solve_quiet;
    specialize (Hq _ io2 eq_refl); destruct (prog io2) as [r io3] end.
  cbv beta in Hq. cbn [snd].
  exact (eq_trans Hq (eq_trans H2 H1)).
Qed.

Lemma header_at bodies allow recover io :
  io_data io = segment_data bodies [] → (recover && allow = true → file_writable (io_file io) = true) →
  let '(r, io') := read_segment_header allow recover true io in
  io_view io' = io_view io ∧ (r = Ok true → file_pos (io_file io') = 4).
Proof.
  intros Hd Hw. pose proof (surfaces_header allow recover true io) as Hs.
  pose proof (header_view bodies allow recover io Hd) as Hv.
  destruct (read_segment_header_run allow recover true (clear io) ltac:(done) Hw) as (f & Hf & Hrun).
  change (io_data (clear io)) with (io_data io) in Hf, Hrun. rewrite Hd, header_result_data in Hf, Hrun.
  destruct (read_segment_header allow recover true io) as [r io']. split; [exact Hv|]. intros ->.
  destruct Hs as [|Hs]; [done|]. rewrite Hrun in Hs. apply pair_equal_spec in Hs as [_ Hs].
  change (file_pos (io_file (clear io')) = 4). rewrite <-Hs. cbn [io_file]. by rewrite Hf.
Qed.

(** Opening a file of the directory. *)
Lemma open_at name write w i :
  fs_entries (w_fs w) !! name = Some (EntryFile i) →
  let '(r, w') := w_call (fs_open name (open_read_write write)) w in
  world_view w' = world_view w ∧ (∀ f, r = Ok f → f = mkFile i 0 write false).
Proof.
  intros He. destruct w as [fs m]. cbn [w_fs] in He. unfold w_call, zoom, fs_open. cbn [w_fs].
  set (op := in_dir _). destruct (call_cases op fs) as (f & [H|H]); rewrite H; [done|]. clear H.
  unfold op, in_dir, mbind, M_bind, get_state, throw, mret, M_ret. change (fs_root (set_faults f fs)) with (fs_root fs).
  destruct (fs_root fs); [done|done|]. change (fs_entries (set_faults f fs)) with (fs_entries fs). rewrite He.
  cbn. split; [done|]. intros fl [= <-]. by destruct write.
Qed.

(** A complete segment is not changed by a program that does not change it
    behind its header. *)
Lemma with_segment_at {A} segment allow recover (m : N → M (Io * A) ()) bodies i (s : World * A) :
  fs_entries (w_fs s.1) !! path_file segment = Some (EntryFile i) →
  data_of i (w_fs s.1) = segment_data bodies [] →
  (∀ io a, io_data io = segment_data bodies [] → file_pos (io_file io) = 4 →
     io_view (m (lenN (segment_data bodies [])) (io, a)).2.1 = io_view io) →
  world_view (with_segment segment allow recover m s).2.1 = world_view s.1.
Proof.
  destruct s as [w a]. cbn [fst]. intros He Hd Hm. unfold with_segment.
  pose proof (open_at (path_file segment) (recover && allow) w i He) as Ho.
  unfold mbind at 1, M_bind at 1. unfold on_files, zoom at 1. cbn [fst].
  destruct (w_call _ w) as [[f|e] [fs1 m1]]; [|apply Ho]. destruct Ho as [Hv Hfile]. rewrite (Hfile f eq_refl). clear Hfile.
  unfold with_file_acc. cbn [fst snd w_fs w_metrics].
  set (io := mkIo fs1 m1 (mkFile i 0 (recover && allow) false)).
  assert (Hio : io_data io = segment_data bodies []).
  { rewrite <-Hd. unfold world_view in Hv. cbn [w_fs] in Hv. apply pair_equal_spec in Hv as [Hc _].
    change (data_of i (clear fs1) = data_of i (clear (w_fs w))). by rewrite Hc. }
  assert (Hend : ∀ io', io_view io' = io_view io → world_view (mkWorld (io_fs io') (io_metrics io')) = world_view w).
  { intros io' H. rewrite <-Hv. apply (f_equal fst) in H. exact H. }
  pose proof (header_at bodies allow recover io Hio ltac:(done)) as Hh.
  unfold mbind at 1, M_bind at 1. unfold on_io at 1, zoom at 1. cbn [fst].
  destruct (read_segment_header allow recover true io) as [[h|e] io1]; [|apply Hend, Hh]. destruct Hh as [H1 Hp].
  destruct h; cbn [negb]; [|by apply Hend]. specialize (Hp eq_refl).
  pose proof (file_len_at io1) as Hl. unfold mbind, M_bind. unfold on_io, zoom. cbn [fst snd].
  destruct (file_len io1) as [[len|e] io2]; destruct Hl as (H2 & H3 & Hl); [|by apply Hend; rewrite H2].
  pose proof (io_view_data _ _ H1) as Hd1. pose proof (io_view_data _ _ H2) as Hd2.
  specialize (Hm io2 a ltac:(congruence) ltac:(congruence)). rewrite Hl, Hd1, Hio.
  destruct (m _ (io2, a)) as [r [io3 a3]]. cbn [fst snd] in *. apply Hend. congruence.
Qed.

(** ** Replay *)

Lemma quiet_on_io {A B T} (o : Io → T) (m : M Io B) : quiet o m → quiet (λ s : Io * A, o s.1) (on_io m).
Proof. by apply quiet_zoom. Qed.
Lemma quiet_on_acc {A B T} (o : Io → T) (m : M A B) : quiet (λ s : Io * A, o s.1) (on_acc m).
Proof. intros c [io a] H. unfold on_acc, zoom. cbn [snd]. by destruct (m a). Qed.

Section replay.
Context `{Noraft}.

Abbreviation io_at := (λ s, (io_view s.1, file_pos (io_file s.1))).

Lemma quiet_handle_acc {A B} (m : M A B) : quiet io_at (on_acc m).
Proof. exact (quiet_on_acc (λ io, (io_view io, file_pos (io_file io))) m). Qed.
Lemma quiet_handle_count {A} k n : quiet (S:=Io * A) io_at (on_io (io_count (record_replayed k n))).
Proof.
  apply (quiet_on_io (λ io, (io_view io, file_pos (io_file io)))). apply quiet_modify. reflexivity.
Qed.
Hint Resolve quiet_handle_acc quiet_handle_count : quiet.

Lemma handle_checkpoint_quiet name filter : quiet_handler (handle_checkpoint name filter).
Proof. intros off body. unfold handle_checkpoint. solve_quiet. Qed.
Lemma handle_replay_quiet name filter positions : quiet_handler (handle_replay name filter positions).
Proof. intros off body. unfold handle_replay. cbv zeta. solve_quiet. Qed.
Lemma handle_node_replay_quiet name n position : quiet_handler (handle_node_replay name n position).
Proof. intros off body. unfold handle_node_replay. cbv zeta. solve_quiet. Qed.

Lemma at_record_start bodies io :
  bodies_fit bodies → io_data io = segment_data bodies [] → file_pos (io_file io) = 4 → at_record bodies io.
Proof. intros Hf Hd Hp. split; [done|]. split; [done|]. exists [], bodies. by rewrite Hp. Qed.

(** Replaying a complete segment. *)
Lemma read_segment_at {A} segment allow recover (handle : N → list byte → M (Io * A) ()) seg (s : World * A) :
  holds_segment (clear (w_fs s.1)) segment seg → quiet_handler handle →
  world_view (with_segment segment allow recover (λ len, read_records allow recover len handle) s).2.1 = world_view s.1.
Proof.
  intros (_ & Hf & i & _ & He & Hd) Hh. apply (with_segment_at _ _ _ _ seg.2 i); [done|done|].
  intros io a Hio Hp. eapply read_records_at; [done|]. split; [done|]. by apply at_record_start.
Qed.

(** Searching a complete segment for checkpoints from one of its records on. *)
Lemma scan_checkpoints_at p seg allow filter start recover s :
  holds_segment (clear (w_fs s.1)) p seg →
  (∀ q, start = Some q → seg.1 = position_segment q →
    ∃ b1 b2, seg.2 = b1 ++ b2 ∧ q = mkRecordPosition seg.1 (4 + lenN (frames_bytes b1))) →
  world_view (scan_checkpoint_positions p allow filter
    (match start with
     | Some q => if bool_decide (path_name p = position_segment q) then Some (position_offset q) else None
     | None => None
     end) recover s).2.1 = world_view s.1.
Proof.
  intros (Hn & Hf & i & _ & He & Hd) Hsplit.
  assert (∃ b1 b2, seg.2 = b1 ++ b2 ∧
     default SEGMENT_FILE_HEADER_LEN (match start with
       | Some q => if bool_decide (path_name p = position_segment q) then Some (position_offset q) else None
       | None => None end) = 4 + lenN (frames_bytes b1)) as (b1 & b2 & Hb & Hoff).
  { destruct start as [q|]; [case_bool_decide as E|].
    - destruct (Hsplit q eq_refl ltac:(by rewrite <-Hn)) as (b1 & b2 & Hb & ->). by exists b1, b2.
    - by exists [], seg.2.
    - by exists [], seg.2. }
  apply (with_segment_at _ _ _ _ seg.2 i); [done|done|]. intros io a Hio Hp. cbv zeta. rewrite Hoff.
  change SEGMENT_FILE_HEADER_LEN with 4. rewrite (proj2 (N.ltb_ge _ 4)) by lia.
  rewrite (proj2 (N.ltb_ge _ _)) by (rewrite Hb, segment_data_length, frames_bytes_app, lenN_app; lia).
  unfold mbind, M_bind. unfold on_io, zoom. cbn [fst snd].
  assert (Hseek : let '(r, io') := file_seek (4 + lenN (frames_bytes b1)) io in
    io_view io' = io_view io ∧ (r = Ok () → file_pos (io_file io') = 4 + lenN (frames_bytes b1))).
  { destruct io as [fs m fl]. unfold file_seek.
    destruct (io_skip_cases fs m fl) as (f & [E|E]); [by rewrite (bind_err _ _ _ _ _ E)|].
    by rewrite (bind_ok _ _ _ _ _ E). }
  destruct (file_seek _ io) as [[[]|e] io1]; destruct Hseek as [Hv Hp1]; [|exact Hv].
  rewrite <-Hv. eapply read_records_at; [apply handle_checkpoint_quiet|]. split; [done|].
  cbn [fst]. split; [by rewrite (io_view_data _ _ Hv)|]. split; [done|]. exists b1, b2. split; [done|]. by apply Hp1.
Qed.

(** ** Directories *)

Lemma for_each_at {A B} (v : Fs * (N * N)) (xs : list B) (f : B → M (World * A) ()) s :
  (∀ x s, x ∈ xs → world_view s.1 = v → world_view (f x s).2.1 = v) →
  world_view s.1 = v → world_view (for_each xs f s).2.1 = v.
Proof.
  revert s. induction xs as [|x xs IH]; intros s Hf Hs; [done|]. cbn [for_each]. unfold mbind, M_bind.
  pose proof (Hf x s ltac:(by left) Hs) as Hx. destruct (f x s) as [[[]|e] s']; [|done].
  apply IH; [|done]. intros y t Hy. apply Hf. by right.
Qed.

Lemma with_local_at {A} (a : A) (m : M (World * A) ()) v w :
  world_view (m (w, a)).2.1 = v → world_view (with_local a m w).2 = v.
Proof. unfold with_local. by destruct (m (w, a)) as [[[]|e] [w' a']]. Qed.

Section dir.
Context (v : Fs * (N * N)) (segs : list segment_contents).
Hypothesis Hclean : clean_dir v.1 segs.

Lemma discover_at w :
  world_view w = v →
  let '(r, w') := discover_segment_paths w in
  world_view w' = v ∧ (∀ l, r = Ok l → l = segments_of v.1).
Proof using Hclean.
  intros Hv. destruct Hclean as (_ & Hr & _). destruct w as [fs m]. rewrite <-Hv in Hr |- *.
  destruct (discover_cases fs m Hr) as (f & [-> | ->]); (split; [done|]); [done|]. intros l [= <-]. done.
Qed.

Lemma dir_segment p : p ∈ segments_of v.1 → ∃ seg, seg ∈ segs ∧ holds_segment v.1 p seg.
Proof using Hclean.
  destruct Hclean as (_ & _ & Hh). intros [k Hk]%list_elem_of_lookup.
  destruct (Forall2_lookup_l _ _ _ _ _ Hh Hk) as (seg & Hs & ?). exists seg. split; [|done].
  apply list_elem_of_lookup. eauto.
Qed.

Lemma find_checkpoints_at active filter start recover w :
  start_in start segs → world_view w = v →
  world_view (find_checkpoint_positions_from active filter start recover w).2 = v.
Proof using Hclean.
  intros Hst Hv. unfold find_checkpoint_positions_from. unfold mbind, M_bind.
  pose proof (discover_at w Hv) as Hd. destruct (discover_segment_paths w) as [[l|e] w1]; destruct Hd as [Hv1 Hl]; [|done].
  rewrite (Hl l eq_refl). cbv zeta. apply with_local_at, for_each_at; [|done]. intros p s Hp Hs.
  destruct (match start with Some _ => _ | None => false end); [done|]. rewrite <-Hs.
  destruct (dir_segment p Hp) as (seg & Hin & Hh). apply (scan_checkpoints_at p seg).
  - apply (f_equal fst) in Hs. cbn in Hs. by rewrite Hs.
  - intros q -> E. eapply start_split; [by eapply clean_dir_sorted|exact Hst|done|done].
Qed.

Lemma replay_node_at active n hint recover w :
  start_in hint segs → world_view w = v → world_view (replay_node_state active n hint recover w).2 = v.
Proof using Hclean.
  intros Hst Hv. unfold replay_node_state. cbv zeta. unfold mbind at 1, M_bind at 1.
  pose proof (find_checkpoints_at active (Some {[n]}) hint recover w Hst Hv) as Hf.
  destruct (find_checkpoint_positions_from _ _ _ _ w) as [[ps|e] w1]; [|done]. cbn [snd] in Hf.
  unfold mbind, M_bind. pose proof (discover_at w1 Hf) as Hd.
  destruct (discover_segment_paths w1) as [[l|e] w2]; destruct Hd as [Hv1 Hl]; [|done].
  rewrite (Hl l eq_refl). apply with_local_at, for_each_at; [|done]. intros p s Hp Hs.
  destruct (match ps !! n with Some _ => _ | None => false end); [done|]. rewrite <-Hs.
  destruct (dir_segment p Hp) as (seg & Hin & Hh). apply (read_segment_at p _ _ _ seg).
  - apply (f_equal fst) in Hs. cbn in Hs. by rewrite Hs.
  - apply handle_node_replay_quiet.
Qed.

Lemma replay_all_at active filter hints recover w :
  (∀ hs n p, hints = Some hs → hs !! n = Some p → start_in (Some p) segs) → world_view w = v →
  world_view (replay_storage_dir active filter hints recover w).2 = v.
Proof using Hclean.
  intros Hst Hv. unfold replay_storage_dir. unfold mbind at 1, M_bind at 1.
  assert (Hc : world_view (checkpoint_positions_for_replay active filter hints recover w).2 = v).
  { unfold checkpoint_positions_for_replay, find_checkpoint_positions. destruct hints as [hs|].
    - destruct (min_position hs) as [start|] eqn:E; [|done].
      destruct (min_position_Some _ _ E) as [[n Hn] _].
      pose proof (find_checkpoints_at active filter (Some start) recover w (Hst _ _ _ eq_refl Hn) Hv) as Hf.
      unfold mbind, M_bind. by destruct (find_checkpoint_positions_from _ _ _ _ w) as [[ps|e] w1].
    - pose proof (find_checkpoints_at active filter None recover w I Hv) as Hf.
      unfold mbind, M_bind. by destruct (find_checkpoint_positions_from _ _ _ _ w) as [[ps|e] w1]. }
  destruct (checkpoint_positions_for_replay _ _ _ _ w) as [[[ps start]|e] w1]; [|done]. cbn [snd] in Hc.
  unfold mbind, M_bind. pose proof (discover_at w1 Hc) as Hd.
  destruct (discover_segment_paths w1) as [[l|e] w2]; destruct Hd as [Hv1 Hl]; [|done].
  rewrite (Hl l eq_refl). apply with_local_at, for_each_at; [|done]. intros p s Hp Hs.
  destruct (match start with Some _ => _ | None => false end); [done|]. rewrite <-Hs.
  destruct (dir_segment p Hp) as (seg & Hin & Hh). apply (read_segment_at p _ _ _ seg).
  - apply (f_equal fst) in Hs. cbn in Hs. by rewrite Hs.
  - apply handle_replay_quiet.
Qed.
End dir.
End replay.

(** ** The engine *)

Section engine.
Context `{NJ : Nojson} `{NL : NoraftLaws}.

(** What the loads of an engine keep. *)
Definition engine_view (s : EngineState) : Fs * (N * N) * StorageEngine := (world_view (es_world s), es_engine s).

Lemma quiet_count f : (∀ m, pending_view (f m) = pending_view m) → quiet engine_view (count f).
Proof.
  intros Hf c [[fs m] e] H. unfold count, es_on_world, w_count, zoom, modify. cbn [es_world w_fs w_metrics es_engine].
  rewrite <-H. unfold engine_view, world_view. cbn [es_world es_engine w_fs w_metrics]. by rewrite Hf.
Qed.

Lemma rejected_pending op k m : pending_view (rejected_operation op k m) = pending_view m.
Proof. reflexivity. Qed.

Lemma quiet_get_engine : quiet engine_view get_engine.
Proof. by intros c s H. Qed.
Hint Resolve quiet_count quiet_get_engine rejected_pending : quiet.

Lemma quiet_ensure n op : quiet engine_view (engine_ensure_node_exists n op).
Proof. unfold engine_ensure_node_exists. solve_quiet. Qed.

Section loads.
Context (s : EngineState) (segs : list segment_contents).
Hypothesis Hclean : clean_dir (clear (w_fs (es_world s))) segs.
Hypothesis Hhints : ∀ n p, is_active (engine_registry (es_engine s)) n = true →
  checkpoint_position (engine_index (es_engine s)) n = Some p → start_in (Some p) segs.

Lemma engine_load_at n : engine_view (engine_load n s).2 = engine_view s.
Proof using Hclean Hhints.
  unfold engine_load. unfold mbind at 1, M_bind at 1. pose proof (quiet_ensure n OpLoad _ s eq_refl) as Hq.
  destruct (engine_ensure_node_exists n OpLoad s) as [[[]|e] s1] eqn:E; [|exact Hq].
  assert (Ha : is_active (engine_registry (es_engine s)) n = true).
  { unfold engine_ensure_node_exists in E. unfold mbind at 1, M_bind at 1 in E. cbn [get_engine] in E.
    unfold get_engine, mbind, M_bind, get_state, mret, M_ret in E.
    destruct (is_active (engine_registry (es_engine s)) n) eqn:Ea; [done|]. by destruct (is_removed _ n). }
  apply pair_equal_spec in Hq as [Hv He]. cbn [fst snd] in *.
  rewrite (bind_ok get_engine _ s1 (es_engine s1) s1 eq_refl). unfold es_on_world, zoom. rewrite He.
  pose proof (replay_node_at (world_view (es_world s)) segs Hclean (active_segment (engine_writer (es_engine s))) n
    (checkpoint_position (engine_index (es_engine s)) n) true (es_world s1)) as Hr.
  destruct (replay_node_state _ _ _ _ (es_world s1)) as [r w]. cbn [snd] in *. unfold engine_view. cbn [es_world es_engine].
  rewrite Hr; [done| |done]. destruct (checkpoint_position _ n) as [p|] eqn:Ep; [|done]. by eapply Hhints.
Qed.

Lemma engine_load_all_at : engine_view (engine_load_all s).2 = engine_view s.
Proof using Hclean Hhints NL.
  unfold engine_load_all. unfold mbind at 1, M_bind at 1. unfold get_engine at 1.
  unfold mbind at 1, M_bind at 1, get_state, mret at 1, M_ret. cbv zeta.
  set (ids := active_node_ids _). case_bool_decide; [done|]. unfold mbind, M_bind, es_on_world, zoom.
  pose proof (replay_all_at (world_view (es_world s)) segs Hclean (active_segment (engine_writer (es_engine s)))
    (Some ids) (checkpoint_positions (engine_index (es_engine s)) ids) true (es_world s)) as Hr.
  destruct (replay_storage_dir _ _ _ _ (es_world s)) as [[r|e] w]; (transitivity (world_view w, es_engine s); [reflexivity|]); cbn [snd] in Hr;
    (rewrite Hr; [done| |done]).
  all: intros hs n p [Hdom Hps]%checkpoint_positions_spec Hn; apply (Hhints n); [|by apply Hps].
  all: apply elem_of_active_node_ids; fold ids; rewrite <-Hdom; by eapply elem_of_dom_2.
Qed.
End loads.
End engine.
