(* ===== verification/Meters.v ===== *)
(** * Programs that leave counters alone

    A meter is a function of the counters.  Reading segments counts replayed
    records, truncations and damaged frames, and saving metadata counts nothing,
    so a meter that ignores those counters does not move, whatever calls fail. *)
From Stdlib Require Import Strings.Byte Strings.String.
From S2P Require Import Prelude Metrics Fs Text Json Noraft State Crc32c Codec Frame.
From S2P Require Import Segment Replay Registry Checkpoint Engine Faults Reads.

(** ** Meters *)

(** The states that carry the counters. *)
Class HasMetrics (S : Type) := { metrics_of : S → StorageMetrics }.

#[global] Instance Io_metrics : HasMetrics Io := {| metrics_of := io_metrics |}.
#[global] Instance World_metrics : HasMetrics World := {| metrics_of := w_metrics |}.
#[global] Instance WriterState_metrics : HasMetrics WriterState := {| metrics_of ws := w_metrics (ws_world ws) |}.
#[global] Instance EngineState_metrics `{Nojson} : HasMetrics EngineState :=
  {| metrics_of s := w_metrics (es_world s) |}.
#[global] Instance prod_metrics {S A} `{HasMetrics S} : HasMetrics (S * A) := {| metrics_of s := metrics_of s.1 |}.

(** A meter does not show what readers count. *)
Class Meter {T} (π : StorageMetrics → T) : Prop := {
  meter_replayed kind bytes m : π (record_replayed kind bytes m) = π m;
  meter_truncated m : π (replay_truncated m) = π m;
  meter_checksum m : π (checksum_failed m) = π m;
}.

Definition meter {T S} `{HasMetrics S} (π : StorageMetrics → T) (s : S) : T := π (metrics_of s).

(** ** Calls *)

Section calls.
Context {T : Type} (π : StorageMetrics → T).

Lemma quiet_loop {S} `{HasMetrics S} {A} fuel (body : M S (option A)) :
  quiet (meter π) body → quiet (meter π) (loop_fuel fuel body).
Proof.
  intros Hb. induction fuel as [|fuel IH]; [apply quiet_throw|]. cbn [loop_fuel].
  apply quiet_bind; [done|]. intros [a|]; [apply quiet_ret|done].
Qed.

Lemma quiet_unit {S A} (m : M S A) : quiet (λ _, ()) m.
Proof using Type. intros c s _. destruct (m s), c. done. Qed.

Lemma meter_io_call {A} (op : M Fs A) : quiet (meter π) (io_call op).
Proof. apply (quiet_zoom _ (λ _, ())); [done|apply quiet_unit]. Qed.
Lemma meter_w_call {A} (op : M Fs A) : quiet (meter π) (w_call op).
Proof. apply (quiet_zoom _ (λ _, ())); [done|apply quiet_unit]. Qed.

Lemma meter_with_file {A} f (m : M Io A) : quiet (meter π) m → quiet (meter π) (with_file f m).
Proof.
  intros Hm c w <-. unfold with_file. specialize (Hm _ (mkIo (w_fs w) (w_metrics w) f) eq_refl).
  by destruct (m _) as [r io].
Qed.

Lemma meter_on_io {A B} (m : M Io B) : quiet (meter π) m → quiet (S:=Io * A) (meter π) (on_io m).
Proof. intros Hm. eapply quiet_zoom; [|exact Hm]. intros t s Ht. exact Ht. Qed.
Lemma meter_on_acc {A B} (m : M A B) : quiet (S:=Io * A) (meter π) (on_acc m).
Proof. apply (quiet_zoom _ (λ _, ())); [done|apply quiet_unit]. Qed.
Lemma meter_on_files {A B} (m : M World B) : quiet (meter π) m → quiet (S:=World * A) (meter π) (on_files m).
Proof. intros Hm. eapply quiet_zoom; [|exact Hm]. intros t s Ht. exact Ht. Qed.

Lemma meter_with_file_acc {A B} f (m : M (Io * A) B) : quiet (meter π) m → quiet (meter π) (with_file_acc f m).
Proof.
  intros Hm c [w a] <-. unfold with_file_acc. cbn [fst snd].
  specialize (Hm _ (mkIo (w_fs w) (w_metrics w) f, a) eq_refl). by destruct (m _) as [r [io a']].
Qed.

Lemma meter_with_local {A} (a : A) (m : M (World * A) ()) : quiet (meter π) m → quiet (meter π) (with_local a m).
Proof.
  intros Hm c w <-. unfold with_local. specialize (Hm _ (w, a) eq_refl). by destruct (m _) as [[[]|e] [w' a']].
Qed.

Lemma meter_release {A} f (m : M World A) : quiet (meter π) m → quiet (meter π) (release_on_error f m).
Proof.
  intros Hm c w <-. unfold release_on_error. specialize (Hm _ w eq_refl). by destruct (m w) as [[a|e] w'].
Qed.

Lemma meter_io_count f : (∀ m, π (f m) = π m) → quiet (meter π) (io_count f).
Proof. intros Hf. apply quiet_modify. intros io. apply Hf. Qed.
Lemma meter_w_count f : (∀ m, π (f m) = π m) → quiet (meter π) (w_count f).
Proof. intros Hf. apply quiet_modify. intros w. apply Hf. Qed.
End calls.

#[export] Hint Resolve quiet_loop meter_io_call meter_w_call meter_with_file meter_on_io meter_on_acc
  meter_on_files meter_with_file_acc meter_with_local meter_release : quiet.

(** ** Files *)

Section files.
Context {T : Type} (π : StorageMetrics → T).

Lemma meter_seek p : quiet (meter π) (file_seek p).
Proof. unfold file_seek. solve_quiet. Qed.
Lemma meter_seek_end : quiet (meter π) file_seek_end.
Proof. unfold file_seek_end. solve_quiet. Qed.
Lemma meter_stream_position : quiet (meter π) file_stream_position.
Proof. unfold file_stream_position. solve_quiet. Qed.
Lemma meter_len : quiet (meter π) file_len.
Proof. unfold file_len. solve_quiet. Qed.
Lemma meter_read_exact n : quiet (meter π) (file_read_exact n).
Proof. unfold file_read_exact. solve_quiet. Qed.
Lemma meter_take n : quiet (meter π) (file_take_read_to_end n).
Proof. unfold file_take_read_to_end. solve_quiet. Qed.
Lemma meter_write_all b : quiet (meter π) (file_write_all b).
Proof. unfold file_write_all. solve_quiet. Qed.
Lemma meter_set_len n : quiet (meter π) (file_set_len n).
Proof. unfold file_set_len. solve_quiet. Qed.
Lemma meter_sync : quiet (meter π) file_sync.
Proof. unfold file_sync. solve_quiet. Qed.
End files.

#[export] Hint Resolve meter_seek meter_seek_end meter_stream_position meter_len meter_read_exact meter_take
  meter_write_all meter_set_len meter_sync : quiet.

Section metadata.
Context {T : Type} (π : StorageMetrics → T).

Lemma meter_read_to_string : quiet (meter π) file_read_to_string.
Proof. unfold file_read_to_string. solve_quiet. Qed.
#[local] Hint Resolve meter_read_to_string : quiet.
Lemma meter_load_text path : quiet (meter π) (load_text path).
Proof. unfold load_text. solve_quiet. Qed.
Lemma meter_save_text tmp path text : quiet (meter π) (save_text tmp path text).
Proof. unfold save_text. solve_quiet. Qed.
Lemma meter_discover : quiet (meter π) discover_segment_paths.
Proof. unfold discover_segment_paths. solve_quiet. Qed.
Lemma meter_sync_parent : quiet (meter π) sync_parent_dir.
Proof. unfold sync_parent_dir. solve_quiet. Qed.
Lemma meter_create_active name : quiet (meter π) (create_active_segment_file name).
Proof. unfold create_active_segment_file, with_file_kept. solve_quiet. Qed.
Lemma meter_open_active name : quiet (meter π) (open_active_segment_file name).
Proof. unfold open_active_segment_file, with_file_kept. solve_quiet. Qed.
End metadata.

#[export] Hint Resolve meter_load_text meter_save_text meter_discover meter_sync_parent meter_create_active
  meter_open_active : quiet.

(** ** Segments *)

Section segments.
Context {T : Type} (π : StorageMetrics → T) `{!Meter π}.

Lemma meter_count_replayed k b : quiet (meter π) (io_count (record_replayed k b)).
Proof. apply meter_io_count, meter_replayed. Qed.
Lemma meter_count_truncated : quiet (meter π) (io_count replay_truncated).
Proof. apply meter_io_count, meter_truncated. Qed.
Lemma meter_count_checksum : quiet (meter π) (io_count checksum_failed).
Proof. apply meter_io_count, meter_checksum. Qed.
#[local] Hint Resolve meter_count_replayed meter_count_truncated meter_count_checksum : quiet.

Lemma meter_or_none {A} n (rest : list byte → M Io (option A)) :
  (∀ b, quiet (meter π) (rest b)) → quiet (meter π) (read_exact_or_none n rest).
Proof using Type. intros Hr. unfold read_exact_or_none, read_exact_or_eof. solve_quiet. Qed.

Lemma meter_read_body cnt : quiet (meter π) (read_record_body cnt).
Proof.
  unfold read_record_body. apply meter_or_none. intros b. cbv zeta.
  case_match; [apply quiet_throw|]. apply meter_or_none. solve_quiet.
Qed.

Lemma meter_scan_chunks fuel crc n : quiet (meter π) (scan_body_chunks fuel crc n).
Proof using Type.
  revert crc n. induction fuel as [|fuel IH]; intros crc n; cbn [scan_body_chunks]; (destruct (_ =? _); [solve_quiet|]).
  - solve_quiet.
  - apply meter_or_none. intros b. apply IH.
Qed.
#[local] Hint Resolve meter_scan_chunks : quiet.

Lemma meter_scan_frame : quiet (meter π) scan_record_frame.
Proof.
  unfold scan_record_frame. apply meter_or_none. intros b. cbv zeta.
  case_match; [apply quiet_throw|]. apply meter_or_none. solve_quiet.
Qed.

Lemma meter_header allow recover cnt : quiet (meter π) (read_segment_header allow recover cnt).
Proof. unfold read_segment_header. solve_quiet. Qed.
Lemma meter_finish allow recover start len : quiet (meter π) (finish_records allow recover start len).
Proof. unfold finish_records. solve_quiet. Qed.
#[local] Hint Resolve meter_read_body meter_scan_frame meter_header meter_finish : quiet.

Lemma meter_scan_segment path allow : quiet (meter π) (scan_segment path allow).
Proof. unfold scan_segment, scan_turn. solve_quiet. Qed.
#[local] Hint Resolve meter_scan_segment : quiet.

Lemma meter_recover active : quiet (meter π) (recover_storage_dir active).
Proof. unfold recover_storage_dir. cbv zeta. solve_quiet. Qed.

Lemma meter_read_records {A} allow recover len (handle : N → list byte → M (Io * A) ()) :
  (∀ start body, quiet (meter π) (handle start body)) → quiet (meter π) (read_records allow recover len handle).
Proof. intros Hh. unfold read_records, records_turn. solve_quiet. Qed.

Lemma meter_with_segment {A} segment allow recover (m : N → M (Io * A) ()) :
  (∀ len, quiet (meter π) (m len)) → quiet (meter π) (with_segment segment allow recover m).
Proof. intros Hm. unfold with_segment. solve_quiet. Qed.
#[local] Hint Resolve meter_read_records meter_with_segment : quiet.

Context `{Noraft}.

Lemma meter_find_checkpoints active filter start recover :
  quiet (meter π) (find_checkpoint_positions_from active filter start recover).
Proof.
  unfold find_checkpoint_positions_from, scan_checkpoint_positions, handle_checkpoint. cbv zeta. solve_quiet.
Qed.
#[local] Hint Resolve meter_find_checkpoints : quiet.

Lemma meter_replay_node active n hint recover : quiet (meter π) (replay_node_state active n hint recover).
Proof. unfold replay_node_state, replay_node_segment, handle_node_replay. cbv zeta. solve_quiet. Qed.

Lemma meter_replay_dir active filter hints recover : quiet (meter π) (replay_storage_dir active filter hints recover).
Proof.
  unfold replay_storage_dir, checkpoint_positions_for_replay, find_checkpoint_positions, replay_segment, handle_replay.
  cbv zeta. solve_quiet.
Qed.
End segments.

Section tables.
Context `{Nojson} `{Noraft} {T : Type} (π : StorageMetrics → T) `{!Meter π}.

Lemma meter_registry_load : quiet (meter π) registry_load.
Proof using Type. unfold registry_load. solve_quiet. Qed.

Lemma meter_validate n p : quiet (meter π) (validate_checkpoint_position n p).
Proof.
  unfold validate_checkpoint_position, segment_file_exists.
  pose proof (meter_header π). pose proof (meter_read_body π). solve_quiet.
Qed.

Lemma meter_index_load reg : quiet (meter π) (index_load reg).
Proof.
  unfold index_load, validate_checkpoint_positions. pose proof meter_validate.
  apply quiet_bind; [solve_quiet|]. intros [text|]; [|solve_quiet].
  destruct (json_parse text) as [j|]; [|solve_quiet]. destruct (parse_checkpoint_index _); [|solve_quiet].
  cbv zeta. apply quiet_bind; [|solve_quiet]. apply quiet_for_each. by intros [].
Qed.
End tables.

#[export] Hint Extern 1 (Meter _) => typeclasses eauto : quiet.
#[export] Hint Resolve meter_recover meter_replay_node meter_replay_dir meter_read_body meter_header
  meter_registry_load meter_index_load : quiet.
