(* ===== verification/DurableEngine.v ===== *)
(** * The engine's directory as a store

    [durable_at] relates an engine with its files to an [AsyncStore]: the
    records that are certain to survive a stop give the durable part, the
    records after them are pending.  The lemmas say what the writes that the
    operations are made of do to it, and what a stop in the middle of one
    leaves. *)
From Stdlib Require Import Strings.Byte Strings.String.
From S2P Require Import Prelude Metrics Fs Text Json Noraft State Crc32c Codec Format Frame.
From S2P Require Import Segment Replay Registry Checkpoint Engine Recovery RecoveryCorrect.
From S2P Require Import ReplayCorrect WriterCorrect MetadataCorrect MetadataFaults EngineCorrect.
From S2P Require Import NodeCorrect EngineSpec AsyncStore LoadCorrect OpenCorrect Faults Durability.
From S2P Require Import Surface DurableWriter DurableMetadata DurableGc Reads.

(** ** The stores that files represent *)

Section represents.
Context `{NJL : NojsonLaws} `{NL : NoraftLaws}.

(** What the metadata files say; a missing file stands for an empty table. *)
Definition registry_text (text : option (list byte)) (reg : NodeRegistry) : Prop :=
  (text = None ∧ reg = registry_default) ∨
  ∃ r, text = Some (format_node_registry r) ∧
       map_Forall (λ n _, n < U64_LIMIT) (registry_nodes r) ∧ trim_registry r = trim_registry reg.

Definition index_text (text : option (list byte)) (x : CheckpointIndex) : Prop :=
  (text = None ∧ x = index_default) ∨ text = Some (format_checkpoint_index x) ∧ index_fit x.

(** The index points at checkpoints among the records. *)
Definition hints_in (reg : NodeRegistry) (x : CheckpointIndex) (nlog : list (RecordPosition * NodeRecord)) : Prop :=
  ∀ n p, is_active reg n = true → checkpoint_position x n = Some p → hint_ok n (Some p) nlog.

(** The registry and the records say what the store says. *)
Definition represents (reg : NodeRegistry) (nlog : list (RecordPosition * NodeRecord)) (σ : gmap N NodeSpec) : Prop :=
  ∀ n, node_matches reg nlog n (σ !! n).

(** The log and the texts that a stop leaves stand for a store. *)
Definition disk_store (l : list (RecordPosition * list byte)) (reg idx : option (list byte)) (σ : gmap N NodeSpec) : Prop :=
  ∃ E x nlog, registry_text reg E ∧ index_text idx x ∧ log_decodes l nlog ∧ hints_in E x nlog ∧ represents E nlog σ.

(** Whenever the process or the system stops, the directory stands for a store
    of [P]. *)
Definition stores (fs : Fs) (P : gmap N NodeSpec → Prop) : Prop :=
  crashes_to fs (λ l r x, ∃ σ, P σ ∧ disk_store l r x σ).

Lemma stores_mono fs (P Q : gmap N NodeSpec → Prop) : stores fs P → (∀ σ, P σ → Q σ) → stores fs Q.
Proof. intros H HPQ. eapply crashes_to_mono; [exact H|]. intros l r x (σ & HP & Hd). eauto. Qed.

Lemma hints_in_app E x l1 l2 : hints_in E x l1 → hints_in E x (l1 ++ l2).
Proof. intros H n p Ha Hp. by apply hint_ok_app, H. Qed.

(** More records. *)
Lemma represents_snoc E nlog σ p nr :
  represents E nlog σ → represents E (nlog ++ [(p, nr)]) (apply_pending_one σ nr).
Proof.
  intros H n. specialize (H n). destruct nr as [n' r]. rewrite apply_pending_one_lookup. cbn [record_node_id node_record].
  unfold node_matches in *. destruct (decide (n' = n)) as [->|Hn].
  - destruct (σ !! n) as [[md st|]|]; [|done|done]. destruct H as [Hs Hv]. split; [done|].
    rewrite node_view_snoc, decide_True by done. by rewrite replayed_snoc, Hv.
  - destruct (σ !! n) as [[md st|]|]; [|done|done]. destruct H as [Hs Hv]. split; [done|].
    rewrite node_view_snoc, decide_False by done. done.
Qed.

Lemma represents_app E nlog σ k :
  represents E nlog σ → represents E (nlog ++ k) (apply_pending k.*2 σ).
Proof.
  intros H. induction k as [|[p nr] k IH] using rev_ind; [by rewrite app_nil_r|].
  rewrite app_assoc, fmap_app. cbn. rewrite apply_pending_snoc. by apply represents_snoc.
Qed.

(** Records that no active node needs may go. *)
Lemma hint_skip skip n p nlog :
  hint_ok n (Some p) nlog → (∀ q, skip (position_segment q) = true → record_position_lt q p) →
  hint_ok n (Some p) (log_skip skip nlog).
Proof.
  intros [c Hc] Hs. exists c. apply list_elem_of_filter. split; [|done]. cbn [fst].
  apply not_true_is_false. intros Ht%Hs. by eapply record_position_lt_irrefl.
Qed.

Definition may_skip (E : NodeRegistry) (x : CheckpointIndex) (skip : SegmentName → bool) : Prop :=
  ∀ n q, is_active E n = true → skip (position_segment q) = true →
    ∃ p, checkpoint_position x n = Some p ∧ record_position_lt q p.

(** The positions that are skipped are before the hint, or there are none. *)
Lemma may_skip_cases E x skip n :
  may_skip E x skip → is_active E n = true →
  match checkpoint_position x n with
  | Some p => ∀ q, skip (position_segment q) = true → record_position_lt q p
  | None => ∀ q, skip (position_segment q) = false
  end.
Proof.
  intros Hs Ha. destruct (checkpoint_position x n) as [p|] eqn:E'; intros q.
  - intros Hq. destruct (Hs n q Ha Hq) as (p' & Hp & Hlt). congruence.
  - apply not_true_is_false. intros Hq. destruct (Hs n q Ha Hq) as (p' & Hp & _). congruence.
Qed.

Lemma hints_in_skip E x skip nlog : may_skip E x skip → hints_in E x nlog → hints_in E x (log_skip skip nlog).
Proof.
  intros Hs Hx n p Ha Hp. pose proof (may_skip_cases E x skip n Hs Ha) as Hc. rewrite Hp in Hc.
  apply hint_skip; [by apply Hx|done].
Qed.

Lemma represents_skip E x skip nlog σ :
  may_skip E x skip → hints_in E x nlog → StronglySorted record_position_lt nlog.*1 →
  represents E nlog σ → represents E (log_skip skip nlog) σ.
Proof.
  intros Hs Hx Hsort H n. specialize (H n). unfold node_matches in *. destruct (σ !! n) as [[md st|]|]; [|done|done].
  destruct H as [Hst Hv]. split; [done|]. assert (Ha : is_active E n = true) by (by rewrite is_active_status, Hst).
  pose proof (may_skip_cases E x skip n Hs Ha) as Hc. destruct (checkpoint_position x n) as [p|] eqn:Ep.
  - destruct (Hx n p Ha Ep) as [c Hc']. by rewrite (node_view_skip skip n nlog p c).
  - by rewrite log_skip_none.
Qed.

(** ** What a prefix of the log stands for *)

Lemma log_decodes_between D L l dlog plog :
  log_decodes D dlog → log_decodes L (dlog ++ plog) → D `prefix_of` l → l `prefix_of` L →
  ∃ k, k `prefix_of` plog ∧ log_decodes l (dlog ++ k).
Proof.
  intros HD HL [k1 ->] [k2 ->]. rewrite <-app_assoc in HL.
  apply Forall2_app_inv_l in HL as (d' & p' & Hd & Hp & E).
  assert (d' = dlog) as ->.
  { apply Forall2_length in HD, Hd. apply app_inj_1 in E as [? _]; [done|]. congruence. }
  apply app_inv_head in E as ->. apply Forall2_app_inv_l in Hp as (k & k' & Hk & Hk' & ->).
  exists k. split; [by eexists|]. by apply Forall2_app.
Qed.

Section between.
Context (D L : list (RecordPosition * list byte)) (reg idx : option (list byte)).
Context (E : NodeRegistry) (x : CheckpointIndex) (dlog plog : list (RecordPosition * NodeRecord)).
Hypothesis HD : log_decodes D dlog.
Hypothesis HL : log_decodes L (dlog ++ plog).
Hypothesis Hreg : registry_text reg E.
Hypothesis Hidx : index_text idx x.
Hypothesis Hhint : hints_in E x dlog.

Lemma between_store l σ :
  D `prefix_of` l → l `prefix_of` L → represents E dlog σ →
  ∃ σ', crash_outcome (mkAsyncStore σ plog.*2) σ' ∧ disk_store l reg idx σ'.
Proof using HD HL Hreg Hidx Hhint.
  intros H1 H2 Hr. destruct (log_decodes_between D L l dlog plog HD HL H1 H2) as (k & Hk & Hd).
  exists (apply_pending k.*2 σ). split.
  - exists k.*2. split; [|done]. destruct Hk as [k' ->]. rewrite fmap_app. by eexists.
  - exists E, x, (dlog ++ k). split; [done|]. split; [done|]. split; [done|].
    split; [by apply hints_in_app|by apply represents_app].
Qed.

(** Also when segments have been deleted. *)
Lemma between_store_skip l skip σ :
  D `prefix_of` l → l `prefix_of` L → represents E dlog σ →
  StronglySorted record_position_lt L.*1 → may_skip E x skip →
  ∃ σ', crash_outcome (mkAsyncStore σ plog.*2) σ' ∧ disk_store (log_skip skip l) reg idx σ'.
Proof using HD HL Hreg Hidx Hhint.
  intros H1 H2 Hr Hsort Hs. destruct (log_decodes_between D L l dlog plog HD HL H1 H2) as (k & Hk & Hd).
  exists (apply_pending k.*2 σ). split.
  - exists k.*2. split; [|done]. destruct Hk as [k' ->]. rewrite fmap_app. by eexists.
  - pose proof (hints_in_app E x dlog k Hhint) as Hh.
    exists E, x, (log_skip skip (dlog ++ k)). split; [done|]. split; [done|].
    split; [by apply log_decodes_skip|]. split; [by apply hints_in_skip|].
    eapply represents_skip; [done|done| |by apply represents_app].
    rewrite (log_decodes_fst _ _ HL) in Hsort. destruct Hk as [k' ->].
    rewrite app_assoc, fmap_app in Hsort. by eapply StronglySorted_app_1_l.
Qed.
End between.
End represents.

(** ** The engine's directory *)

Section durable.
Context `{NJL : NojsonLaws} `{NL : NoraftLaws}.

(** The directory and the writer hold [A], with the registry [E] and the index
    [x] in the metadata files; [dlog] are the records that survive any stop. *)
Record durable_at (s : EngineState) (A : AsyncStore) (E : NodeRegistry) (x : CheckpointIndex)
  (dlog plog : list (RecordPosition * NodeRecord)) : Prop := {
  da_disk : ∃ L D reg idx, engine_disk s L D reg idx ∧ log_decodes D dlog ∧ log_decodes L (dlog ++ plog) ∧
              registry_text reg E ∧ index_text idx x;
  da_pending : plog.*2 = pending_records A;
  da_hints : hints_in E x dlog;
  da_store : represents E dlog (durable_store A);
}.

(** The segments of the engine's directory. *)
Lemma engine_disk_clean s L D reg idx :
  engine_disk s L D reg idx → ∃ segs, clean_dir (clear (w_fs (es_world s))) segs ∧ L = log_of segs.
Proof.
  intros [(sealed & bodies & durable & [Hs Hd Hf] & -> & _) _ _ _]. cbn [ws_world ws_writer] in *.
  eexists. split; [|reflexivity]. destruct Hs as [Hr _ _ _ (paths & Hp & Hh) _ Hid Ha _ _ _ _ _].
  split; [done|]. split; [done|]. change (segments_of (clear ?fs)) with (segments_of fs). rewrite Hp.
  apply Forall2_app; [exact Hh|]. constructor; [|constructor]. split; [done|]. split; [done|].
  eexists. split; [done|]. split; [exact Ha|exact Hd].
Qed.

Lemma engine_disk_sorted s L D reg idx :
  engine_disk s L D reg idx → StronglySorted record_position_lt L.*1.
Proof.
  intros (segs & Hc & ->)%engine_disk_clean. by eapply log_of_sorted, clean_dir_sorted.
Qed.

(** With its calls proceeding, the engine is as in [EngineCorrect]. *)
Lemma engine_disk_ok s L D reg idx nlog :
  engine_disk s L D reg idx → log_decodes L nlog →
  hints_in (engine_registry (es_engine s)) (engine_index (es_engine s)) nlog → engine_ok (clear s) nlog.
Proof.
  intros [(sealed & bodies & durable & [Hs Hd Hf] & -> & _ & Hl) Hw Ha _] Hlog Hh. cbn [ws_world ws_writer] in *.
  destruct Hs as [Hr Hwf Hn _ (paths & Hp & Hh') _ Hid He _ _ _ _ _]. split.
  - exists sealed, bodies. split; [|exact Hlog]. split; try done.
    split; [done|]. split; [done|]. change (segments_of (w_fs (es_world (clear s)))) with (segments_of (w_fs (es_world s))).
    rewrite Hp. apply Forall2_app; [exact Hh'|]. constructor; [|constructor]. split; [done|]. split; [done|].
    eexists. split; [done|]. split; [exact He|exact Hd].
  - intros name Ho. apply Hn. by left.
  - exact Hh.
Qed.

Lemma engine_disk_can_rotate s L D reg idx nlog n r :
  engine_disk s L D reg idx → log_decodes L nlog → active_id s + 1 < U64_LIMIT →
  rotation_free (w_fs (es_world s)) (es_engine s) n r.
Proof.
  intros Hd Hlog Hid. destruct s as [[fs m] e].
  set (e' := mkStorageEngine (write_lock e) registry_default index_default (engine_writer e)).
  assert (Hok : engine_ok (clear (mkEngineState (mkWorld fs m) e')) nlog).
  { eapply engine_disk_ok; [exact Hd|done|]. intros n' p. by cbn. }
  exact (engine_can_rotate (clear fs) m e' nlog n r Hok Hid).
Qed.

(** A state with the same directory, pending counters and writer. *)
Lemma engine_disk_same s s' L D reg idx :
  engine_disk s L D reg idx → world_view (es_world s') = world_view (es_world s) →
  engine_writer (es_engine s') = engine_writer (es_engine s) → engine_disk s' L D reg idx.
Proof.
  unfold engine_disk. destruct s as [[fs m] e], s' as [[fs' m'] e']. cbn [es_world es_engine].
  intros Hd Hv ->. apply pair_equal_spec in Hv as [Hc Hp]. cbn [w_fs w_metrics] in *.
  apply (writer_disk_faults _ _ _ (fs_faults fs')) in Hd.
  assert (E : fs' = set_faults (fs_faults fs') fs).
  { transitivity (set_faults (fs_faults fs') (clear fs')); [by destruct fs'|]. by rewrite Hc. }
  rewrite E. apply pair_equal_spec in Hp as [Hp1 Hp2]. by eapply writer_disk_metrics.
Qed.

Lemma durable_at_same s s' A E x dlog plog :
  durable_at s A E x dlog plog → world_view (es_world s') = world_view (es_world s) →
  engine_writer (es_engine s') = engine_writer (es_engine s) → durable_at s' A E x dlog plog.
Proof.
  intros [(L & D & reg & idx & Hd & Hr) H2 H3 H4] Hv Hw. split; [|done|done|done].
  exists L, D, reg, idx. split; [by eapply engine_disk_same|done].
Qed.

Lemma durable_at_crashes s A E x dlog plog :
  durable_at s A E x dlog plog → stores (w_fs (es_world s)) (crash_outcome A).
Proof.
  intros [(L & D & reg & idx & Hd & HD & HL & Hr & Hi) Hp Hh Hs].
  eapply crashes_to_mono; [exact (writer_disk_crashes _ _ _ _ _ Hd)|]. intros l r x' (H1 & H2 & -> & ->).
  destruct (between_store D L reg idx E x dlog plog HD HL Hr Hi Hh l _ H1 H2 Hs) as (σ & Ho & Hst).
  exists σ. split; [|done]. rewrite Hp in Ho. by destruct A.
Qed.

(** ** The writes of the operations *)

(** An append or sync leaves the rest of the engine as it was. *)
Definition same_tables (s s' : EngineState) : Prop :=
  engine_registry (es_engine s') = engine_registry (es_engine s) ∧
  engine_index (es_engine s') = engine_index (es_engine s).

(** The result of a step that may fail: [Q] holds of the new state, or a stop
    leaves a store of [P]. *)
Definition step_outcome {R} (Q : R → EngineState → Prop) (P : gmap N NodeSpec → Prop)
  (r : result R) (s' : EngineState) : Prop :=
  match r with
  | Ok a => Q a s'
  | Err e => e = fault_error ∧ stores (w_fs (es_world s')) P
  end.

Definition position_fit (p : RecordPosition) : Prop :=
  segment_id (position_segment p) < U64_LIMIT ∧ position_offset p < U64_LIMIT.

Lemma append_position_fit w len :
  segment_id (active_segment w) + 1 < U64_LIMIT → len ≤ 8 + MAX_RECORD_BODY_LEN →
  position_fit (append_position w len).
Proof.
  intros Hid Hl. unfold append_position, position_fit. destruct (should_rotate w len) eqn:E; cbn [position_segment position_offset].
  - unfold next_segment. cbn [segment_id]. split; [lia|done].
  - assert (segment_len w + len < U64_LIMIT) by (apply should_rotate_fits; [by right|done]). lia.
Qed.

(** [SegmentWriter::append]. *)
Lemma durable_append s A E x dlog plog n r :
  durable_at s A E x dlog plog → storable n r → active_id s + 1 < U64_LIMIT →
  let '(res, s') := es_on_writer (writer_append n r) s in
  same_tables s s' ∧
  step_outcome (λ p s', position_fit p ∧ ∃ A' dlog' plog', flushed A A' ∧
      dlog ++ plog = dlog' ++ plog' ∧ dlog `prefix_of` dlog' ∧
      durable_at s' (async_save n r A') E x dlog' (plog' ++ [(p, mkNodeRecord n r)]))
    (crash_outcome (async_save n r A)) res s'.
Proof.
  intros [(L & D & reg & idx & Hd & HD & HL & Hr & Hi) Hp Hh Hs] Hst Hid.
  pose proof Hst as (Hn & Hf & Hu & He). set (body := wire_body n r) in *.
  pose proof (engine_disk_can_rotate s L D reg idx _ n r Hd HL Hid) as Hrot.
  pose proof (writer_append_disk _ L D reg idx n r body Hd (encode_storable n r Hst) (proj2 He) Hrot) as Ha.
  assert (Hfit : position_fit (append_position (engine_writer (es_engine s)) (lenN (wire_frame body)))).
  { apply append_position_fit; [exact Hid|]. rewrite wire_frame_length. pose proof (proj2 He). unfold body. lia. }
  unfold es_on_writer, zoom. destruct (writer_append n r _) as [[p|e] ws]; (split; [done|]); cbn [ws_writer] in Ha.
  - destruct Ha as (-> & D' & H1 & H2 & Hd'). set (p := append_position _ _) in *. split; [exact Hfit|].
    destruct (log_decodes_between D L D' dlog plog HD HL H1 H2) as (k & Hk & HD').
    pose proof Hk as [plog' ->].
    exists (mkAsyncStore (apply_pending k.*2 (durable_store A)) plog'.*2), (dlog ++ k), plog'.
    split; [|split; [by rewrite <-app_assoc|split; [by apply prefix_app_r|split]]].
    + exists k.*2. split; [|done]. cbn [pending_records]. by rewrite <-Hp, fmap_app.
    + exists (L ++ [(p, body)]), D', reg, idx. split; [by destruct ws|]. split; [done|]. split; [|done].
      rewrite app_assoc. rewrite app_assoc in HL. apply Forall2_app; [done|]. constructor; [|constructor].
      split; [done|]. split; [apply He|]. by apply decode_node_record_wire.
    + rewrite fmap_app. done.
    + by apply hints_in_app.
    + by apply represents_app.
  - destruct Ha as [-> Hc]. split; [done|]. eapply crashes_to_mono; [exact Hc|].
    intros l r' x' (H1 & H2 & -> & ->).
    assert (HL' : log_decodes (L ++ [(append_position (engine_writer (es_engine s)) (lenN (wire_frame body)), body)])
      (dlog ++ (plog ++ [(append_position (engine_writer (es_engine s)) (lenN (wire_frame body)), mkNodeRecord n r)]))).
    { rewrite app_assoc. apply Forall2_app; [done|]. constructor; [|constructor].
      split; [done|]. split; [apply He|]. by apply decode_node_record_wire. }
    destruct (between_store D _ reg idx E x dlog _ HD HL' Hr Hi Hh l _ H1 H2 Hs) as (σ & Ho & Hds).
    exists σ. split; [|done]. rewrite fmap_app, Hp in Ho. exact Ho.
Qed.

(** [SegmentWriter::sync]. *)
Lemma durable_sync s A E x dlog plog :
  durable_at s A E x dlog plog →
  let '(res, s') := es_on_writer writer_sync s in
  same_tables s s' ∧ active_id s' = active_id s ∧
  step_outcome (λ _ s', durable_at s' (async_flush A) E x (dlog ++ plog) []) (crash_outcome A) res s'.
Proof.
  intros [(L & D & reg & idx & Hd & HD & HL & Hr & Hi) Hp Hh Hs].
  pose proof (writer_sync_disk _ L D reg idx Hd) as Ha. unfold es_on_writer, zoom, active_id.
  destruct (writer_sync _) as [[[]|e] ws]; destruct Ha as [Hw Ha]; cbn [es_engine engine_writer ws_writer] in *;
    (split; [done|]); (split; [by rewrite Hw|]).
  - split; [|done|by apply hints_in_app|].
    + exists L, L, reg, idx. rewrite app_nil_r. split; [by destruct ws|done].
    + cbn [durable_store async_flush]. unfold async_view. rewrite <-Hp. by apply represents_app.
  - destruct Ha as [-> Hc]. split; [done|]. eapply crashes_to_mono; [exact Hc|].
    intros l r' x' (H1 & H2 & -> & ->).
    destruct (between_store D L reg idx E x dlog plog HD HL Hr Hi Hh l _ H1 H2 Hs) as (σ & Ho & Hds).
    exists σ. split; [|done]. rewrite Hp in Ho. by destruct A.
Qed.

(** [CheckpointIndex::save]. *)
Lemma durable_index_save s A E x x' dlog plog :
  durable_at s A E x dlog plog → index_fit x' → hints_in E x' dlog →
  let '(res, s') := es_on_world (index_save x') s in
  es_engine s' = es_engine s ∧
  step_outcome (λ _ s', durable_at s' A E x' dlog plog) (crash_outcome A) res s'.
Proof.
  intros [(L & D & reg & idx & Hd & HD & HL & Hr & Hi) Hp Hh Hs] Hf Hh'.
  destruct s as [[fs m] e]. unfold es_on_world, zoom, index_save. cbn [es_world].
  pose proof (save_text_disk fs m (engine_writer e) L D reg idx _ _ (format_checkpoint_index x') Hd index_pair) as H.
  destruct (save_text _ _ _ (mkWorld fs m)) as [[[]|err] w]; (split; [done|]).
  - split; [|done|done|done]. exists L, D, reg, (Some (format_checkpoint_index x')).
    split; [exact H|]. split; [done|]. split; [done|]. split; [done|]. by right.
  - destruct H as [-> Hc]. split; [done|]. eapply crashes_to_mono; [exact Hc|]. intros l r y (H1 & H2 & H3).
    destruct H3 as [[-> ->]|[-> ->]].
    + destruct (between_store D L reg idx E x dlog plog HD HL Hr Hi Hh l _ H1 H2 Hs) as (σ & Ho & Hds).
      exists σ. split; [|done]. rewrite Hp in Ho. by destruct A.
    + destruct (between_store D L reg (Some (format_checkpoint_index x')) E x' dlog plog HD HL Hr ltac:(by right) Hh' l _ H1 H2 Hs) as (σ & Ho & Hds).
      exists σ. split; [|exact Hds]. rewrite Hp in Ho. by destruct A.
Qed.

(** [NodeRegistry::save]: a stop leaves the old registry or the new one. *)
Lemma durable_registry_save s A E E' x dlog plog σ :
  durable_at s A E x dlog plog → map_Forall (λ n _, n < U64_LIMIT) (registry_nodes E') →
  hints_in E' x dlog → represents E' dlog σ →
  let '(res, s') := es_on_world (registry_save E') s in
  let A' := mkAsyncStore σ (pending_records A) in
  es_engine s' = es_engine s ∧
  step_outcome (λ _ s', durable_at s' A' E' x dlog plog)
    (λ σ', crash_outcome A σ' ∨ crash_outcome A' σ') res s'.
Proof.
  intros [(L & D & reg & idx & Hd & HD & HL & Hr & Hi) Hp Hh Hs] Hf Hh' Hs'.
  destruct s as [[fs m] e]. unfold es_on_world, zoom, registry_save. cbn [es_world].
  pose proof (save_text_disk fs m (engine_writer e) L D reg idx _ _ (format_node_registry E') Hd registry_pair) as H.
  assert (Hr' : registry_text (Some (format_node_registry E')) E') by (right; eauto).
  destruct (save_text _ _ _ (mkWorld fs m)) as [[[]|err] w]; (split; [done|]).
  - split; [|done|done|done]. exists L, D, (Some (format_node_registry E')), idx. done.
  - destruct H as [-> Hc]. split; [done|]. eapply crashes_to_mono; [exact Hc|]. intros l r y (H1 & H2 & H3).
    destruct H3 as [[-> ->]|[-> ->]].
    + destruct (between_store D L reg idx E x dlog plog HD HL Hr Hi Hh l _ H1 H2 Hs) as (σ' & Ho & Hds).
      exists σ'. split; [|done]. left. rewrite Hp in Ho. by destruct A.
    + destruct (between_store D L (Some (format_node_registry E')) idx E' x dlog plog HD HL Hr' Hi Hh' l _ H1 H2 Hs') as (σ' & Ho & Hds).
      exists σ'. split; [|exact Hds]. right. by rewrite Hp in Ho.
Qed.

(** ** Between operations *)

(** The index in memory and the one in the file agree on the active nodes. *)
Definition same_hints (E : NodeRegistry) (x x' : CheckpointIndex) : Prop :=
  ∀ n, is_active E n = true → checkpoint_position x n = checkpoint_position x' n.

Lemma may_skip_same E x x' skip : same_hints E x x' → may_skip E x skip → may_skip E x' skip.
Proof. intros H Hs n q Ha Hq. rewrite <-(H n Ha). by apply Hs. Qed.

(** [collect_garbage]. *)
Lemma durable_gc s A x dlog plog :
  durable_at s A (engine_registry (es_engine s)) x dlog plog →
  same_hints (engine_registry (es_engine s)) (engine_index (es_engine s)) x →
  let '(res, s') := collect_garbage s in
  es_engine s' = es_engine s ∧
  step_outcome (λ _ s', ∃ dlog', durable_at s' A (engine_registry (es_engine s)) x dlog' plog) (crash_outcome A) res s'.
Proof.
  intros [(L & D & reg & idx & Hd & HD & HL & Hr & Hi) Hp Hh Hs] Hsame.
  pose proof (engine_disk_sorted s L D reg idx Hd) as Hsort.
  pose proof (collect_garbage_disk s L D reg idx Hd) as H.
  destruct (collect_garbage s) as [[[]|err] s']; destruct H as [He H]; (split; [done|]).
  - destruct H as (skip & Hmay & Hd'). pose proof Hmay as [Hact Hskip]. apply (may_skip_same _ _ x) in Hskip; [|done].
    exists (log_skip skip dlog).
    assert (Hkeep : log_skip skip (dlog ++ plog) = log_skip skip dlog ++ plog).
    { unfold log_skip. rewrite list.filter_app. f_equal. apply log_skip_none. intros q Hq.
      pose proof Hd as [(sealed & bodies & durable & Hok & EL & ED & _) _ _ _]. cbn [ws_writer] in *.
      destruct (disk_durable _ _ _ _ _ _ _ _ (dk_safe _ _ _ _ _ _ _ _ Hok)) as [k ->].
      set (act := active_segment _) in *.
      assert (EK : L = D ++ ((λ r, (mkRecordPosition act r.1, r.2)) <$>
                with_offsets (SEGMENT_FILE_HEADER_LEN + lenN (frames_bytes durable)) k)).
      { rewrite EL, ED. unfold log_of. rewrite !bind_app, <-app_assoc. f_equal. cbn. rewrite !app_nil_r.
        unfold segment_log. cbn [fst snd]. by rewrite with_offsets_app, fmap_app. }
      rewrite EK in HL. apply Forall2_app_inv_l in HL as (d' & p' & Hd1 & Hp1 & E1).
      assert (d' = dlog) as ->.
      { apply Forall2_length in HD, Hd1. apply app_inj_1 in E1 as [? _]; [done|]. congruence. }
      apply app_inv_head in E1 as <-. apply list_elem_of_lookup in Hq as [j Hj].
      destruct (Forall2_lookup_r _ _ _ _ _ Hp1 Hj) as (y & Hy & Hyq & _).
      apply list_lookup_fmap_Some in Hy as (z & -> & _). by rewrite <-Hyq. }
    split; [|done|by apply hints_in_skip|].
    + exists (log_skip skip L), (log_skip skip D), reg, idx. split; [done|]. split; [by apply log_decodes_skip|].
      split; [rewrite <-Hkeep; by apply log_decodes_skip|done].
    + eapply represents_skip; [done|done| |done]. rewrite (log_decodes_fst _ _ HL), fmap_app in Hsort.
      by eapply StronglySorted_app_1_l.
  - destruct H as [-> Hc]. split; [done|]. eapply crashes_to_mono; [exact Hc|].
    intros l r y (skip & l0 & [_ Hskip] & -> & H1 & H2 & -> & ->).
    apply (may_skip_same _ _ x) in Hskip; [|done].
    destruct (between_store_skip D L reg idx _ x dlog plog HD HL Hr Hi Hh l0 skip _ H1 H2 Hs Hsort Hskip) as (σ & Ho & Hds).
    exists σ. split; [|done]. rewrite Hp in Ho. by destruct A.
Qed.

(** What a stop cannot take away, between two operations. *)
Definition durable (s : EngineState) (A : AsyncStore) : Prop :=
  index_fit (engine_index (es_engine s)) ∧
  ∃ x dlog plog, durable_at s A (engine_registry (es_engine s)) x dlog plog ∧
    same_hints (engine_registry (es_engine s)) (engine_index (es_engine s)) x.

Lemma durable_crashes s A : durable s A → stores (w_fs (es_world s)) (crash_outcome A).
Proof. intros (_ & x & dlog & plog & Hd & _). by eapply durable_at_crashes. Qed.

(** A state with the same directory, pending counters and engine. *)
Lemma durable_same s s' A : durable s A → engine_view s' = engine_view s → durable s' A.
Proof.
  intros (Hf & x & dlog & plog & Hd & Hx) Hv. apply pair_equal_spec in Hv as [Hw He].
  unfold durable. rewrite He. split; [done|]. exists x, dlog, plog. split; [|done].
  eapply durable_at_same; [done|done|by rewrite He].
Qed.

(** With its calls proceeding, the engine implements the store that the
    operations see. *)
Lemma durable_refines s A : durable s A → refines (clear s) (async_view A).
Proof.
  intros (_ & x & dlog & plog & [(L & D & reg & idx & Hd & HD & HL & Hr & Hi) Hp Hh Hs] & Hx).
  exists (dlog ++ plog). split.
  - eapply engine_disk_ok; [done|done|]. intros n p Ha Hn. apply hint_ok_app, Hh; [done|]. by rewrite <-Hx.
  - intros n. unfold async_view. rewrite <-Hp. by apply represents_app.
Qed.

(** The IDs in the registry are machine integers. *)
Lemma registry_text_u64 text E :
  registry_text text E → map_Forall (λ n _, n < U64_LIMIT) (registry_nodes E).
Proof.
  intros [[_ ->]|(r & _ & Hb & E')]; [by intros n y|]. intros n y Hn.
  assert (Hl : registry_nodes (trim_registry r) !! n = Some (trim_entry y)).
  { rewrite E'. unfold trim_registry. cbn [registry_nodes]. by rewrite lookup_fmap, Hn. }
  unfold trim_registry in Hl. cbn [registry_nodes] in Hl. rewrite lookup_fmap in Hl.
  apply fmap_Some in Hl as (y' & Hy & _). by apply (Hb n y').
Qed.
End durable.
