(* ===== verification/Reopen.v ===== *)
(** * What opening a directory makes durable

    After a crash of the system everything that is left has been synced.  An
    engine that opens the directory changes little: it may create the lock
    file, cut a torn end off, or create the first segment.  A stop at any time
    then leaves the same records again. *)
From Stdlib Require Import Strings.Byte Strings.String.
From S2P Require Import Prelude Metrics Fs Text Json Noraft State Crc32c Codec Format Frame.
From S2P Require Import Segment Replay Registry Checkpoint Engine Recovery RecoveryCorrect.
From S2P Require Import ReplayCorrect WriterCorrect MetadataCorrect MetadataFaults EngineCorrect.
From S2P Require Import NodeCorrect EngineSpec AsyncStore LoadCorrect OpenCorrect Faults Durability.
From S2P Require Import Surface DurableWriter DurableMetadata DurableGc Reads DurableEngine.

(** Nothing is unsynced, as after a crash of the system. *)
Definition settled (fs : Fs) : Prop :=
  fs_entries_unsynced fs = [] ∧ ∀ i, i_unsynced (inode_of i fs) = [].

Lemma crash_settled fs fs' : crash fs fs' → settled fs'.
Proof. intros (_ & _ & Hu & Hi & _). split; [done|]. intros i. apply Hi. Qed.

Lemma settled_synced fs name : settled fs → file_synced fs name.
Proof. intros [_ Hi] j _. apply Hi. Qed.

(** ** Torn ends *)

Lemma frame_at_short_prefix t u : frame_at t = FrameShort → u `prefix_of` t → frame_at u = FrameShort.
Proof.
  intros Ht [v ->]. unfold frame_at in *. rewrite lenN_app in Ht.
  destruct (N.ltb_spec (lenN u) 4) as [?|H4]; [done|]. rewrite (proj2 (N.ltb_ge _ _)) in Ht by lia.
  rewrite takeN_app_le in Ht by done. destruct (MAX_RECORD_BODY_LEN <? _); [done|].
  destruct (N.ltb_spec (lenN u) (8 + from_le (takeN 4 u))) as [?|H8]; [done|].
  rewrite (proj2 (N.ltb_ge _ _)) in Ht by lia. by destruct (_ =? _).
Qed.

(** Part of a torn end. *)
Lemma torn_part d bodies c :
  torn_data d bodies → recovered_data d bodies `prefix_of` c → c `prefix_of` d → torn_data c bodies.
Proof.
  unfold recovered_data. intros [[Hd ->]|(t & -> & Ht & Hf)] H1 H2.
  - left. split; [|done]. apply prefix_length in H2. unfold lenN in *. lia.
  - rewrite segment_data_not_short in H1. destruct H1 as [u ->]. right. exists u.
    assert (Hu : segment_data bodies [] ++ u = segment_data bodies u).
    { unfold segment_data. by rewrite app_nil_r, <-app_assoc. }
    split; [done|]. split; [|done]. apply (frame_at_short_prefix t); [done|].
    rewrite Hu in H2. unfold segment_data in H2. by do 2 apply prefix_app_inv in H2.
Qed.

Lemma recovered_prefix d bodies : torn_data d bodies → recovered_data d bodies `prefix_of` d.
Proof.
  unfold recovered_data. intros [[Hd ->]|(t & -> & Ht & Hf)].
  - rewrite (proj2 (N.ltb_lt _ _)) by done. apply prefix_nil.
  - rewrite segment_data_not_short. unfold segment_data. rewrite app_nil_r. apply prefix_app. by apply prefix_app_r.
Qed.

(** Cutting a torn end off a file. *)
Lemma cut_leaves fs fs' i d bodies c :
  cut_to i (recovered_data d bodies) fs fs' → data_of i fs = d → torn_data d bodies →
  (∀ c, leaves fs i c → torn_data c bodies) → leaves fs' i c → torn_data c bodies.
Proof.
  intros [[-> _]| ->] Hd Ht Hl; [apply Hl|]. pose proof (recovered_prefix d bodies Ht) as Hp.
  rewrite leaves_update, Hd. intros [->|[[[H1 H2]|[H1 H2]]|H]]; [| | |by apply Hl].
  - by apply (torn_part d).
  - apply (torn_part d); [done|by etrans|by etrans].
  - by apply (torn_part d).
Qed.

(** Writing the header of an empty file. *)
Lemma header_leaves fs fs' i bodies c :
  cut_to i (with_header (data_of i fs)) fs fs' →
  (data_of i fs = [] ∧ bodies = []) ∨ (data_of i fs = segment_data bodies [] ∧ bodies_fit bodies) →
  (∀ c, leaves fs i c → torn_data c bodies) → leaves fs' i c → torn_data c bodies.
Proof.
  intros [[-> _]| ->] Hd Hl; [apply Hl|]. rewrite leaves_update. unfold with_header.
  destruct Hd as [[-> ->]|[-> Hf]].
  - change (lenN [] =? 0) with true. cbv iota. intros [->|[[[_ H]|[_ H]]|H]]; [by apply torn_header|by apply torn_header| |by apply Hl].
    apply torn_header. etrans; [exact H|apply prefix_nil].
  - rewrite (proj2 (N.eqb_neq _ _)) by (rewrite segment_data_length; lia).
    intros [->|[Hb|H]]; [by apply torn_complete| |by apply Hl].
    assert (c = segment_data bodies []) as -> by (by destruct Hb as [[H1 H2]|[H1 H2]]; apply (anti_symm prefix)).
    by apply torn_complete.
Qed.

(** ** The directory that is opened *)

(** A directory that can be opened, possibly without segments, or missing. *)
Definition can_open (fs : Fs) (l : list (RecordPosition * list byte)) (reg idx : option (list byte)) : Prop :=
  root_ready fs ∧ fs_wf fs ∧ (∀ name, owned_name name ∨ name = WRITE_LOCK_FILE_NAME → not_other fs name) ∧
  (∃ sealed active d bodies, segments_are fs active sealed d bodies ∧ l = log_of (sealed ++ [(active, bodies)])) ∧
  file_text fs NODE_REGISTRY_FILE_NAME = reg ∧ file_text fs CHECKPOINT_INDEX_FILE_NAME = idx.

Lemma holds_log_can_open fs l reg idx : holds_log fs l reg idx → can_open fs l reg idx.
Proof.
  intros (sealed & active & bodies & [Hr Hwf Hn (d & Hs) Htr Hti] & ->). split; [by left|]. split; [done|]. split; [done|].
  split; [|done]. by exists sealed, active, (Some d), bodies.
Qed.

(** A new directory. *)
Lemma new_can_open fs :
  root_ready fs → fs_wf fs → (∀ name, owned_name name → fs_entries fs !! name = None) →
  not_other fs WRITE_LOCK_FILE_NAME → can_open fs [] None None.
Proof.
  intros Hr Hwf Hn Hl. split; [done|]. split; [done|].
  assert (Hseg : segments_of fs = []).
  { destruct (segments_of fs) as [|p l] eqn:E; [done|]. assert (Hp : p ∈ segments_of fs) by (rewrite E; by left).
    pose proof (segment_paths_parse fs p Hp) as Hpp. apply elem_of_segments_of in Hp as (_ & _ & i & Hi).
    rewrite Hn in Hi; [done|]. right. by eexists. }
  assert (Ht : ∀ name, owned_name name → not_other fs name ∧ file_text fs name = None).
  { intros name Ho. unfold not_other, file_text. by rewrite (Hn name Ho). }
  split; [intros name [Ho| ->]; [by apply Ht|done]|]. split.
  - exists [], first_append, None, []. split; [|done]. constructor; [done|done|]. apply Ht. right.
    exists first_append. by apply parse_file_name_print.
  - split; apply Ht; left; unfold metadata_names; set_solver.
Qed.

(** ** Taking the lock *)

(** The segments and the metadata files are the same. *)
Definition same_files (fs fs' : Fs) : Prop :=
  ∀ name, name ≠ WRITE_LOCK_FILE_NAME → fs_entries fs' !! name = fs_entries fs !! name ∧
    ∀ j, fs_entries fs !! name = Some (EntryFile j) → inode_of j fs' = inode_of j fs.

Record locked (fs fs' : Fs) : Prop := {
  lk_root : fs_root fs' = RootDir;
  lk_wf : fs_wf fs → fs_wf fs';
  lk_files : same_files fs fs';
  lk_lock : not_other fs WRITE_LOCK_FILE_NAME → not_other fs' WRITE_LOCK_FILE_NAME;
  lk_dirs : fs_entries_unsynced fs = [] → ∀ e, e ∈ fs_entries_unsynced fs' →
    e = fs_entries fs' ∨ e = delete WRITE_LOCK_FILE_NAME (fs_entries fs');
}.

Lemma lock_taken_locked fs fs' : fs_wf fs → lock_taken fs fs' → locked fs fs'.
Proof.
  intros Hwf (fs1 & Hr & He & Hu & Hi & Hn & _ & ->). unfold lock_file.
  assert (Hino : ∀ j, inode_of j fs1 = inode_of j fs) by (intros j; unfold inode_of; by rewrite Hi).
  destruct (fs_entries fs1 !! WRITE_LOCK_FILE_NAME) as [x|] eqn:E.
  - split; [done| | | |].
    + intros _. unfold fs_wf. cbn. by rewrite He, Hn.
    + intros name _. cbn. rewrite He. split; [done|]. intros j _. apply Hino.
    + unfold not_other. cbn. by rewrite He.
    + intros Hu'. cbn. rewrite Hu, Hu'. by intros e ?%elem_of_nil.
  - split; [done| | | |].
    + intros _. apply (new_file_wf WRITE_LOCK_FILE_NAME fs1); [|done]. unfold fs_wf. by rewrite He, Hn.
    + intros name Hne. cbn. rewrite lookup_insert_ne, He by done. split; [done|]. intros j Hj. rewrite <-Hino.
      unfold inode_of. cbn. rewrite lookup_insert_ne; [done|]. apply Hwf in Hj. rewrite Hn. lia.
    + intros _. unfold not_other. cbn. by rewrite lookup_insert_eq.
    + intros Hu'. cbn. rewrite Hu, Hu'. intros e [->|?%elem_of_nil]%elem_of_cons; [right|done].
      by rewrite delete_insert_id.
Qed.

Section locked.
Context (fs fs' : Fs) (Hl : locked fs fs').

Lemma locked_segments : segments_of fs' = segments_of fs.
Proof using Hl.
  apply segments_of_agree. intros name n Hp. apply (lk_files _ _ Hl). by intros ->.
Qed.

Lemma locked_data name j :
  name ≠ WRITE_LOCK_FILE_NAME → fs_entries fs !! name = Some (EntryFile j) → data_of j fs' = data_of j fs.
Proof using Hl. intros Hn Hj. unfold data_of. by rewrite (proj2 (lk_files _ _ Hl name Hn) j Hj). Qed.

Lemma locked_text name : name ≠ WRITE_LOCK_FILE_NAME → file_text fs' name = file_text fs name.
Proof using Hl.
  intros Hn. unfold file_text. rewrite (proj1 (lk_files _ _ Hl name Hn)).
  destruct (fs_entries fs !! name) as [[j|]|] eqn:E; [|done|done]. by rewrite (locked_data name j).
Qed.

Lemma locked_synced name : settled fs → name ≠ WRITE_LOCK_FILE_NAME → file_synced fs' name.
Proof using Hl.
  intros [_ Hs] Hn j. destruct (lk_files _ _ Hl name Hn) as [He Hi]. rewrite He. intros Hj. by rewrite Hi.
Qed.

Lemma locked_names :
  (∀ name, owned_name name ∨ name = WRITE_LOCK_FILE_NAME → not_other fs name) →
  ∀ name, owned_name name ∨ name = WRITE_LOCK_FILE_NAME → not_other fs' name.
Proof using Hl.
  intros Hn name Ho. destruct (decide (name = WRITE_LOCK_FILE_NAME)) as [->|Hne].
  - apply (lk_lock _ _ Hl), Hn. by right.
  - unfold not_other. rewrite (proj1 (lk_files _ _ Hl name Hne)). by apply Hn.
Qed.

Lemma segment_not_lock p : p ∈ segments_of fs → path_file p ≠ WRITE_LOCK_FILE_NAME.
Proof. intros Hp%segment_paths_parse E. rewrite E in Hp. done. Qed.

(** The segments of the directory, with their data still in place. *)
Lemma locked_holds paths sealed active :
  segments_of fs = paths ++ active → Forall2 (holds_segment fs) paths sealed → Forall2 (holds_segment fs') paths sealed.
Proof using Hl.
  intros Hp Hh. eapply Forall2_In_l; [exact Hh|]. intros p seg Hin (Hn & Hb & j & _ & Hj & Hd).
  assert (Hne : path_file p ≠ WRITE_LOCK_FILE_NAME) by (apply segment_not_lock; rewrite Hp; apply elem_of_app; by left).
  split; [done|]. split; [done|]. exists j. split; [apply Hl|].
  split; [by rewrite (proj1 (lk_files _ _ Hl _ Hne))|]. by rewrite (locked_data (path_file p)).
Qed.
End locked.

(** ** The directory that the engine works on *)

Section opened.
Context (fs fs1 : Fs) (Hset : settled fs) (Hl : locked fs fs1) (Hwf : fs_wf fs).
Hypothesis Hnames : ∀ name, owned_name name ∨ name = WRITE_LOCK_FILE_NAME → not_other fs name.

(** With segments. *)
Lemma locked_safe paths sealed active i d bodies :
  segments_of fs = paths ++ [active_path active] → Forall2 (holds_segment fs) paths sealed →
  segment_id active < U64_LIMIT → is_file_with fs (file_name active) i d → torn_data d bodies →
  disk_safe fs1 sealed active i bodies bodies
    (file_text fs NODE_REGISTRY_FILE_NAME) (file_text fs CHECKPOINT_INDEX_FILE_NAME).
Proof using Hset Hl Hwf Hnames.
  intros Hp Hh Hid (_ & He & Hd) Ht. pose proof (parse_file_name_print active Hid) as Hpa.
  assert (Hne : file_name active ≠ WRITE_LOCK_FILE_NAME) by (intros E; by rewrite E in Hpa).
  split; try done.
  - apply Hl.
  - by apply Hl.
  - by apply (locked_names fs fs1 Hl).
  - apply Hl, Hset.
  - exists paths. rewrite (locked_segments fs fs1 Hl). split; [done|]. by eapply locked_holds.
  - intros p Hin _. apply (locked_synced fs fs1 Hl); [done|]. apply (segment_not_lock fs).
    by rewrite <-(locked_segments fs fs1 Hl).
  - by rewrite (proj1 (lk_files _ _ Hl _ Hne)).
  - intros c. unfold leaves, data_of. rewrite (proj2 (lk_files _ _ Hl _ Hne) i He), (proj2 Hset i). cbn.
    intros ->. exists bodies. rewrite <-Hd in Ht. done.
  - by apply locked_text.
  - by apply (locked_synced fs fs1 Hl).
  - by apply locked_text.
  - by apply (locked_synced fs fs1 Hl).
Qed.
End opened.

(** ** The active segment *)

Lemma cut_changed i d fs fs' : cut_to i d fs fs' → changed_inode i fs fs'.
Proof. intros [[-> _]| ->]; [done|apply changed_update]. Qed.

Lemma all_torn fs sealed active i bodies reg idx :
  disk_safe fs sealed active i bodies bodies reg idx ↔
  disk_safe fs sealed active i bodies bodies reg idx ∧ ∀ c, leaves fs i c → torn_data c bodies.
Proof.
  split; [|by intros []]. intros Hs. split; [done|]. intros c Hc.
  destruct (ds_leaves _ _ _ _ _ _ _ _ Hs c Hc) as (b & Ht & H1 & H2).
  by assert (b = bodies) as <- by by apply (anti_symm prefix).
Qed.

Lemma safe_changed fs fs' sealed active i bodies reg idx :
  disk_safe fs sealed active i bodies bodies reg idx → changed_inode i fs fs' →
  (∀ c, leaves fs' i c → torn_data c bodies) → disk_safe fs' sealed active i bodies bodies reg idx.
Proof.
  intros Hs Hc Hl. eapply disk_safe_change; [exact Hs|exact Hc|]. intros c Hcl. exists bodies. split; [by apply Hl|done].
Qed.

(** The end of an existing segment is cut off and its header completed. *)
Lemma opened_existing fs1 fs2 fs3 sealed active i d bodies reg idx :
  disk_safe fs1 sealed active i bodies bodies reg idx → data_of i fs1 = d → torn_data d bodies →
  end_cut active (Some d) bodies fs1 fs2 → writer_opened active fs2 fs3 →
  disk_ok fs3 sealed active i bodies bodies reg idx.
Proof.
  intros [Hs Hl]%all_torn Hd Ht (j & Hj & Hcut) Hw. pose proof (ds_active _ _ _ _ _ _ _ _ Hs) as Ha.
  assert (j = i) as -> by congruence.
  assert (Hl2 : ∀ c, leaves fs2 i c → torn_data c bodies) by (intros c; by eapply cut_leaves).
  assert (Hs2 : disk_safe fs2 sealed active i bodies bodies reg idx) by (eapply safe_changed; [exact Hs|by eapply cut_changed|done]).
  pose proof (cut_to_same_but _ _ _ _ Hcut) as [_ Hd2]. pose proof (torn_data_recovered d bodies Ht) as Hrec. rewrite <-Hd2 in Hrec.
  unfold writer_opened in Hw. rewrite (ds_active _ _ _ _ _ _ _ _ Hs2) in Hw.
  assert (Hl3 : ∀ c, leaves fs3 i c → torn_data c bodies) by (intros c; by eapply header_leaves).
  pose proof (cut_to_same_but _ _ _ _ Hw) as [_ Hd3]. split.
  - eapply safe_changed; [exact Hs2|by eapply cut_changed|done].
  - rewrite Hd3. unfold with_header. destruct Hrec as [[-> ->]|[-> _]]; [done|].
    rewrite (proj2 (N.eqb_neq _ _)); [done|]. rewrite segment_data_length. lia.
  - destruct Hrec as [[_ ->]|[_ ?]]; [constructor|done].
Qed.

(** The first segment is created. *)
Lemma opened_new fs fs1 fs3 active :
  settled fs → locked fs fs1 → fs_wf fs →
  (∀ name, owned_name name ∨ name = WRITE_LOCK_FILE_NAME → not_other fs name) →
  segments_of fs = [] → segment_id active < U64_LIMIT → fs_entries fs1 !! file_name active = None →
  fs3 = sync_entries (new_segment_fs (file_name active) fs1) →
  disk_ok fs3 [] active (fs_next_inode fs1) [] []
    (file_text fs NODE_REGISTRY_FILE_NAME) (file_text fs CHECKPOINT_INDEX_FILE_NAME).
Proof.
  intros Hset Hl Hwf Hnames Hseg Hid Hnone ->. set (i := fs_next_inode fs1). set (fs3 := sync_entries _).
  pose proof (lk_wf _ _ Hl Hwf) as Hwf1. rewrite <-(locked_segments fs fs1 Hl) in Hseg.
  assert (Hent : fs_entries fs3 = <[file_name active := EntryFile i]> (fs_entries fs1)) by done.
  assert (Hino : ∀ name j, fs_entries fs1 !! name = Some (EntryFile j) → inode_of j fs3 = inode_of j fs1).
  { intros name j Hj%(proj2 Hwf1). assert (j ≠ i) by (unfold i; lia). unfold fs3, new_segment_fs.
    change (inode_of j (sync_entries ?x)) with (inode_of j x). rewrite inode_of_update by done.
    unfold inode_of, new_file. cbn. by rewrite lookup_insert_ne. }
  assert (Hmeta : ∀ name, parse_file_name name = None → name ≠ WRITE_LOCK_FILE_NAME →
    file_text fs3 name = file_text fs name ∧ file_synced fs3 name).
  { intros name Hp Hne. assert (Hna : file_name active ≠ name) by (intros <-; by rewrite parse_file_name_print in Hp).
    rewrite <-(locked_text fs fs1 Hl name Hne). pose proof (locked_synced fs fs1 Hl name Hset Hne) as Hsy.
    unfold file_text, file_synced. rewrite Hent, lookup_insert_ne by done. split.
    - destruct (fs_entries fs1 !! name) as [[j|]|] eqn:E; [|done|done]. unfold data_of. by rewrite (Hino name).
    - intros j Hj. rewrite (Hino name) by done. by apply Hsy. }
  destruct (Hmeta _ not_segment_registry ltac:(done)) as [Hr1 Hr2], (Hmeta _ not_segment_index ltac:(done)) as [Hi1 Hi2].
  assert (Hsegs : segments_of fs3 = [active_path active]) by exact (new_segment_segments fs1 active Hseg Hid Hnone).
  split; [split; try done|..].
  - apply (lk_root _ _ Hl).
  - exact (new_file_wf (file_name active) fs1 Hwf1 Hnone).
  - intros name Ho. unfold not_other. rewrite Hent, lookup_insert. case_decide; [done|]. by apply (locked_names fs fs1 Hl Hnames).
  - by intros e ?%elem_of_nil.
  - exists []. split; [done|constructor].
  - intros p. rewrite Hsegs. intros ->%list_elem_of_singleton Hn. by destruct Hn.
  - rewrite Hent. by rewrite lookup_insert_eq.
  - intros c Hc. exists []. split; [|done]. apply torn_header. revert Hc. unfold fs3, new_segment_fs. fold i.
    change (leaves (sync_entries ?x) i c) with (leaves x i c). rewrite leaves_update.
    assert (Hd0 : data_of i (new_file (file_name active) fs1) = []) by (rewrite new_file_data; by rewrite decide_True).
    rewrite Hd0. intros [->|[[[_ H]|[_ H]]|H]]; [done|done|etrans; [exact H|apply prefix_nil]|].
    revert H. unfold leaves. rewrite Hd0. unfold inode_of, new_file. cbn. fold i. rewrite lookup_insert_eq. cbn. intros ->. apply prefix_nil.
  - unfold fs3, new_segment_fs. fold i. change (data_of i (sync_entries ?x)) with (data_of i x).
    by rewrite data_of_update_data, decide_True.
  - constructor.
Qed.

Section reopen.
Context `{NJL : NojsonLaws} `{NL : NoraftLaws}.

(** ** Opening again *)

(** The metadata of the nodes without the white space around it. *)
Definition trim_spec (x : NodeSpec) : NodeSpec :=
  match x with
  | Live md st => Live (mkNodeMetadata (startup md) (json_trim (metadata md))) st
  | Reserved => Reserved
  end.
Definition trimmed (σ : gmap N NodeSpec) : gmap N NodeSpec := trim_spec <$> σ.

Lemma node_status_trimmed E n :
  node_status (trim_registry E) n =
  match node_status E n with
  | Active md => Active (mkNodeMetadata (startup md) (json_trim (metadata md)))
  | x => x
  end.
Proof.
  unfold node_status, trim_registry. cbn [registry_nodes]. rewrite lookup_fmap.
  by destruct (registry_nodes E !! n) as [[md []]|].
Qed.

Lemma is_active_trimmed E n : is_active (trim_registry E) n = is_active E n.
Proof. rewrite !is_active_status, node_status_trimmed. by destruct (node_status E n). Qed.

Lemma represents_trimmed E nlog σ : represents E nlog σ → represents (trim_registry E) nlog (trimmed σ).
Proof.
  intros H n. specialize (H n). unfold node_matches, trimmed in *. rewrite lookup_fmap, node_status_trimmed.
  destruct (σ !! n) as [[md st|]|]; cbn [fmap option_fmap option_map trim_spec].
  - destruct H as [-> Hv]. done.
  - by rewrite H.
  - by rewrite H.
Qed.

Lemma file_text_none fs name : file_text fs name = None → not_other fs name → fs_entries fs !! name = None.
Proof. unfold file_text, not_other. by destruct (fs_entries fs !! name) as [[j|]|]. Qed.

Lemma registry_text_stored fs text E :
  registry_text text E → file_text fs NODE_REGISTRY_FILE_NAME = text →
  not_other fs NODE_REGISTRY_FILE_NAME → registry_stored fs (trim_registry E).
Proof.
  intros [[-> ->]|(r & -> & Hb & Ht)] Htext Hn.
  - left. split; [by apply file_text_none|done].
  - right. exists r. done.
Qed.

Lemma index_text_stored fs text x E :
  index_text text x → file_text fs CHECKPOINT_INDEX_FILE_NAME = text →
  not_other fs CHECKPOINT_INDEX_FILE_NAME → index_stored fs (trim_registry E) (retain_active (trim_registry E) x).
Proof.
  intros [[-> ->]|[-> Hf]] Htext Hn.
  - left. split; [by apply file_text_none|done].
  - right. exists x. done.
Qed.

Lemma retain_active_position E x n p :
  checkpoint_position (retain_active E x) n = Some p → is_active E n = true ∧ checkpoint_position x n = Some p.
Proof.
  unfold checkpoint_position, retain_active. cbn [index_nodes]. intros (y & Hy & ->)%fmap_Some.
  apply map_lookup_filter_Some in Hy as [Hy Ha]. by rewrite Hy.
Qed.

Lemma trim_registry_idem E : trim_registry (trim_registry E) = trim_registry E.
Proof.
  unfold trim_registry. f_equal. cbn [registry_nodes]. apply map_eq. intros n. rewrite !lookup_fmap.
  destruct (registry_nodes E !! n) as [[[s j] b]|]; [|done]. cbn. unfold trim_entry. cbn. by rewrite json_trim_idem.
Qed.

Lemma registry_text_trimmed text E : registry_text text E → registry_text text (trim_registry E).
Proof.
  intros [[-> ->]|(r & -> & Hb & Ht)]; [by left|right]. exists r. split; [done|]. split; [done|]. by rewrite trim_registry_idem.
Qed.

(** The directory is one of [OpenCorrect]. *)
Lemma can_open_stored fs l reg idx σ :
  no_faults fs → can_open fs l reg idx → disk_store l reg idx σ →
  ∃ active sealed d bodies nlog E x,
    stored fs active sealed d bodies nlog (trim_registry E) (retain_active (trim_registry E) x) ∧
    l = log_of (sealed ++ [(active, bodies)]) ∧ registry_text reg E ∧ index_text idx x ∧ log_decodes l nlog ∧
    hints_in E x nlog ∧ represents E nlog σ.
Proof.
  intros Hnf (Hr & Hwf & Hn & (sealed & active & d & bodies & Hs & ->) & Htr & Hti)
    (E & x & nlog & Hreg & Hidx & Hlog & Hh & Hst).
  assert (Hmeta : ∀ name, name ∈ metadata_names → not_other fs name) by (intros; apply Hn; left; by left).
  exists active, sealed, d, bodies, nlog, E, x. split; [|done]. split; try done.
  - eapply registry_text_stored; [exact Hreg|done|]. apply Hmeta. unfold metadata_names. set_solver.
  - eapply index_text_stored; [exact Hidx|done|]. apply Hmeta. unfold metadata_names. set_solver.
  - intros n p [Ha Hp]%retain_active_position. apply Hh; [|done]. by rewrite <-is_active_trimmed.
Qed.

(** The directory that a stop left is opened, and implements its store. *)
Lemma reopen fs m max_len l reg idx σ :
  max_len ≠ 0 → no_faults fs → fs_locks fs = ∅ → can_open fs l reg idx → disk_store l reg idx σ →
  ∃ w e, with_max_segment_len max_len (mkWorld fs m) = (Ok e, w) ∧ refines (mkEngineState w e) (trimmed σ).
Proof.
  intros Hmax Hnf Hlk Hc Hds.
  destruct (can_open_stored fs l reg idx σ Hnf Hc Hds) as (active & sealed & d & bodies & nlog & E & x & Hst & _ & _ & _ & _ & _ & Hrep).
  destruct (with_max_segment_len_run fs m max_len active sealed d bodies nlog _ _ Hmax Hlk Hst)
    as (fs' & m' & e & Hrun & Hok & Hre & _).
  exists (mkWorld fs' m'), e. split; [done|]. exists nlog. split; [done|]. cbn [es_engine]. rewrite Hre.
  by apply represents_trimmed.
Qed.

(** What opening makes of a settled directory. *)
Lemma opening_disk fs fs' sealed active d bodies :
  settled fs → fs_wf fs → (∀ name, owned_name name ∨ name = WRITE_LOCK_FILE_NAME → not_other fs name) →
  segments_are fs active sealed d bodies → opening active d bodies fs fs' →
  ∃ i, disk_ok fs' sealed active i bodies bodies
         (file_text fs NODE_REGISTRY_FILE_NAME) (file_text fs CHECKPOINT_INDEX_FILE_NAME).
Proof.
  intros Hset Hwf Hn Hs (fs1 & fs2 & Hl%lock_taken_locked & Hc & Hw); [|done].
  destruct Hs as [Hseg Ha Ho|paths sealed i d bodies Hp Hh Hid Hf Ht].
  - cbn [end_cut] in Hc. subst fs2.
    assert (Hid : segment_id active < U64_LIMIT) by by rewrite Ha.
    pose proof (parse_file_name_print active Hid) as Hpa.
    assert (Hnone : fs_entries fs1 !! file_name active = None).
    { rewrite (proj1 (lk_files _ _ Hl (file_name active) ltac:(by intros E; rewrite E in Hpa))).
      destruct (fs_entries fs !! file_name active) as [[j|]|] eqn:E; [|done|done].
      assert (Hin : active_path active ∈ segments_of fs) by (apply elem_of_segments_of; split; [done|]; split; [done|]; by exists j).
      rewrite Hseg in Hin. by apply elem_of_nil in Hin. }
    unfold writer_opened in Hw. rewrite Hnone in Hw. eexists. by eapply opened_new.
  - exists i. eapply (opened_existing fs1 fs2); [by eapply locked_safe| |exact Ht|done|done].
    destruct Hf as (_ & He & Hd). rewrite <-Hd. apply (locked_data fs fs1 Hl (file_name active)); [|done].
    intros E. pose proof (parse_file_name_print active Hid) as Hpa. by rewrite E in Hpa.
Qed.

Lemma index_fit_retained E x : index_fit x → index_fit (retain_active E x).
Proof. intros Hf n y. cbn [index_nodes retain_active]. intros [Hy _]%map_lookup_filter_Some. by apply Hf. Qed.

Lemma same_hints_retained E x : same_hints E (retain_active E x) x.
Proof.
  intros n Ha. unfold checkpoint_position, retain_active. cbn [index_nodes]. rewrite map_lookup_filter.
  destruct (index_nodes x !! n) as [y|]; [|done]. cbn. by rewrite option_guard_True.
Qed.

(** The name of the directory that was opened. *)
Lemma reopen_root_synced fs m max_len l reg idx σ w e :
  max_len ≠ 0 → no_faults fs → fs_locks fs = ∅ → can_open fs l reg idx → disk_store l reg idx σ →
  with_max_segment_len max_len (mkWorld fs m) = (Ok e, w) → fs_root_synced (w_fs w) = root_synced_after fs.
Proof.
  intros Hmax Hnf Hlk Hc Hds Hrun.
  destruct (can_open_stored fs l reg idx σ Hnf Hc Hds) as (active & sealed & d & bodies & nlog & E & x & Hst & _).
  destruct (with_max_segment_len_run fs m max_len active sealed d bodies nlog _ _ Hmax Hlk Hst)
    as (fs' & m' & e' & Hrun' & _ & _ & _ & _ & _ & Hopen & _).
  rewrite Hrun in Hrun'. injection Hrun' as -> ->. by eapply opening_root_synced.
Qed.

(** After a crash of the system, opening makes the store durable again. *)
Lemma reopen_durable fs m max_len l reg idx σ w e :
  max_len ≠ 0 → settled fs → no_faults fs → fs_locks fs = ∅ → can_open fs l reg idx → disk_store l reg idx σ →
  with_max_segment_len max_len (mkWorld fs m) = (Ok e, w) → durable (mkEngineState w e) (mkAsyncStore (trimmed σ) []).
Proof.
  intros Hmax Hset Hnf Hlk Hc Hds Hrun.
  destruct (can_open_stored fs l reg idx σ Hnf Hc Hds)
    as (active & sealed & d & bodies & nlog & E & x & Hst & Hl & Hreg & Hidx & Hlog & Hh & Hrep).
  destruct (with_max_segment_len_run fs m max_len active sealed d bodies nlog _ _ Hmax Hlk Hst)
    as (fs' & m' & e' & Hrun' & [(segs & bodies' & Hw & Hlog') _ _] & Hre & Hie & Hact & _ & Hopen & Hm1 & Hm2).
  rewrite Hrun in Hrun'. injection Hrun' as -> ->. destruct Hc as (_ & _ & _ & _ & Htr & Hti).
  destruct (opening_disk fs fs' sealed active d bodies Hset (sd_wf _ _ _ _ _ _ _ _ Hst) (sd_names _ _ _ _ _ _ _ _ Hst)
    (sd_segments _ _ _ _ _ _ _ _ Hst) Hopen) as (i & Hok). rewrite Htr, Hti in Hok.
  cbn [es_world es_engine w_fs] in Hw. pose proof (wo_entry _ _ _ _ Hw) as He. rewrite Hact in He.
  rewrite (ds_active _ _ _ _ _ _ _ _ (dk_safe _ _ _ _ _ _ _ _ Hok)) in He. injection He as ->.
  unfold durable. cbn [es_engine]. rewrite Hre, Hie. split.
  { apply index_fit_retained. destruct Hidx as [[_ ->]|[_ Hf]]; [by intros n y|done]. }
  exists x, nlog, []. split; [|apply same_hints_retained]. split; [|done| |].
  - exists l, l, reg, idx. rewrite app_nil_r. split; [|by split; [|split; [|split; [by apply registry_text_trimmed|]]]].
    split; cbn [ws_world ws_writer es_world es_engine w_fs w_metrics]; [|apply Hw|apply Hw|done].
    exists sealed, bodies, bodies. rewrite Hact. split; [done|]. split; [done|]. split; [done|].
    pose proof (wo_len _ _ _ _ Hw) as Hlen. pose proof (wo_data _ _ _ _ Hw) as Hdata.
    rewrite (dk_data _ _ _ _ _ _ _ _ Hok) in Hdata. by rewrite Hdata.
  - intros n p Ha. rewrite is_active_trimmed in Ha. by apply Hh.
  - by apply represents_trimmed.
Qed.

(** A new directory is an empty store. *)
Lemma new_disk_store : disk_store [] None None ∅.
Proof.
  exists registry_default, index_default, []. split; [by left|]. split; [by left|]. split; [constructor|].
  split; [by intros n p|]. intros n. by rewrite lookup_empty.
Qed.
End reopen.
