(* ===== verification/DurableOps.v ===== *)
(** * What a stop leaves of an operation

    For each operation of the engine: when it returns, the directory and the
    writer hold the [AsyncStore] that [async_apply] gives; when one of its calls
    fails, a stop leaves an outcome from before or after the operation. *)
From Stdlib Require Import Strings.Byte Strings.String.
From S2P Require Import Prelude Metrics Fs Text Json Noraft State Crc32c Codec Format Frame.
From S2P Require Import Segment Replay Registry Checkpoint Engine Recovery RecoveryCorrect.
From S2P Require Import ReplayCorrect WriterCorrect MetadataCorrect MetadataFaults EngineCorrect.
From S2P Require Import NodeCorrect EngineSpec AsyncStore LoadCorrect OpenCorrect Faults Durability.
From S2P Require Import Surface DurableWriter DurableMetadata DurableGc Reads DurableEngine.

Section ops.
Context `{NJL : NojsonLaws} `{NL : NoraftLaws}.

(** ** Outcomes *)

Lemma flushed_save n r A A' : flushed A A' → flushed (async_save n r A) (async_save n r A').
Proof. intros (rs & Hp & Hd). exists rs. split; [|exact Hd]. cbn. by rewrite Hp, <-app_assoc. Qed.

Lemma async_view_save n r A : async_view (async_save n r A) = apply_pending_one (async_view A) (mkNodeRecord n r).
Proof. apply apply_pending_snoc. Qed.

(** The new record is the last one to be lost. *)
Lemma save_outcome n r A σ :
  crash_outcome (async_save n r A) σ → crash_outcome A σ ∨ σ = async_view (async_save n r A).
Proof.
  intros (rs & Hrs & ->). cbn [pending_records durable_store async_save] in *.
  destruct Hrs as [k E]. destruct k as [|y k _] using rev_ind.
  - right. rewrite app_nil_r in E. by rewrite <-E.
  - left. exists rs. split; [|done]. rewrite app_assoc in E. apply app_inj_tail in E as [-> _]. by eexists.
Qed.

(** A record of a node that is not live has no effect. *)
Lemma save_dead_view n r A :
  (∀ md st, async_view A !! n ≠ Some (Live md st)) → async_view (async_save n r A) = async_view A.
Proof.
  intros Hn. rewrite async_view_save. unfold apply_pending_one. cbn [record_node_id].
  destruct (async_view A !! n) as [[md st|]|]; [by destruct (Hn md st)|done|done].
Qed.

Lemma flush_outcome A σ : crash_outcome (async_flush A) σ → σ = async_view A.
Proof. intros (rs & Hrs & ->). cbn [pending_records async_flush] in Hrs. by apply prefix_nil_inv in Hrs as ->. Qed.

(** What an operation may do to [A]. *)
Definition op_outcome {R} (op : Op) (A : AsyncStore) (res : result R) (s' : EngineState) : Prop :=
  (∃ e, res = Err e ∧ e = fault_error ∧
     stores (w_fs (es_world s')) (λ σ, crash_outcome A σ ∨ crash_outcome (async_apply op A) σ)) ∨
  match res with
  | Ok _ => ∃ A', flushed (async_apply op A) A' ∧ durable s' A'
  | Err _ => durable s' A
  end.

Lemma op_fault {R} op A (s' : EngineState) (P : gmap N NodeSpec → Prop) e :
  e = fault_error → stores (w_fs (es_world s')) P →
  (∀ σ, P σ → crash_outcome A σ ∨ crash_outcome (async_apply op A) σ) → op_outcome (R:=R) op A (Err e) s'.
Proof. intros He Hs HP. left. exists e. split; [done|]. split; [done|]. by eapply stores_mono. Qed.

(** The first check of an operation fails. *)
Lemma ensure_durable n op s A :
  durable s A →
  (is_active (engine_registry (es_engine s)) n = true ∧ engine_ensure_node_exists n op s = (Ok (), s)) ∨
  ∃ e s', engine_ensure_node_exists n op s = (Err e, s') ∧ durable s' A.
Proof.
  intros Hd. destruct (is_active (engine_registry (es_engine s)) n) eqn:Ha.
  - left. split; [done|]. by apply engine_ensure_active.
  - right. pose proof (quiet_ensure n op _ s eq_refl) as Hq. destruct s as [[fs m] e].
    pose proof (engine_ensure_inactive n op fs m e Ha) as E. rewrite E in Hq. eexists _, _. split; [exact E|].
    by eapply durable_same.
Qed.

(** ** The registry of a store *)

Lemma represents_with E n md l p c σ :
  let nlog := l ++ [(p, mkNodeRecord n (RecordSnapshotCheckpoint c))] in
  represents E nlog σ → represents (registry_with n md E) nlog (<[n := Live md (checkpoint_into_state c)]> σ).
Proof.
  intros nlog Hs n'. specialize (Hs n'). unfold node_matches in *. rewrite lookup_insert, node_status_with.
  case_decide as En; [|exact Hs]. subst n'. split; [done|]. unfold nlog. rewrite node_view_snoc, decide_True by done.
  exact (replayed_snoc [] (RecordSnapshotCheckpoint c)).
Qed.

Lemma represents_without E n md nlog σ :
  represents E nlog σ → represents (registry_without n md E) nlog (<[n := Reserved]> σ).
Proof.
  intros Hs n'. specialize (Hs n'). unfold node_matches in *. rewrite lookup_insert, node_status_without.
  by case_decide.
Qed.

Lemma hints_in_with E n md y nlog p c :
  hints_in E y nlog → checkpoint_position y n = Some p →
  (p, mkNodeRecord n (RecordSnapshotCheckpoint c)) ∈ nlog → hints_in (registry_with n md E) y nlog.
Proof.
  intros Hh Hy Hin n' p' Ha Hp'. rewrite is_active_status, node_status_with in Ha. case_decide as En.
  - subst n'. rewrite Hy in Hp'. injection Hp' as <-. by exists c.
  - apply Hh; [|done]. by rewrite is_active_status.
Qed.

Lemma hints_in_without E n md y nlog : hints_in E y nlog → hints_in (registry_without n md E) y nlog.
Proof.
  intros Hh n' p' Ha. apply Hh. rewrite is_active_status, node_status_without in Ha. case_decide; [done|].
  by rewrite is_active_status.
Qed.

Definition registry_u64 (E : NodeRegistry) : Prop := map_Forall (λ n _, n < U64_LIMIT) (registry_nodes E).

Lemma registry_u64_insert E n entry :
  registry_u64 E → u64 n → registry_u64 (mkNodeRegistry (<[n := entry]> (registry_nodes E))).
Proof. intros H Hn. by apply map_Forall_insert_2. Qed.

Lemma durable_at_u64 s A E x dlog plog : durable_at s A E x dlog plog → registry_u64 E.
Proof. intros [(L & D & reg & idx & _ & _ & _ & Hr & _) _ _ _]. by eapply registry_text_u64. Qed.

(** A program that only counts. *)
Definition counts (m : M EngineState ()) : Prop := ∀ s, ∃ s', m s = (Ok (), s') ∧ engine_view s' = engine_view s.

Lemma counts_count f : (∀ m, pending_view (f m) = pending_view m) → counts (count f).
Proof. intros Hf s. pose proof (quiet_count f Hf _ s eq_refl) as Hq. eexists. split; [reflexivity|exact Hq]. Qed.
Lemma counts_bind m m' : counts m → counts m' → counts (m ;; m').
Proof.
  intros H H' s. destruct (H s) as (s1 & E1 & H1), (H' s1) as (s2 & E2 & H2). exists s2.
  rewrite (bind_ok _ _ _ _ _ E1). split; [done|congruence].
Qed.
Lemma counts_registry : counts refresh_registry_metrics.
Proof. intros s. by apply counts_count. Qed.
Lemma counts_index : counts refresh_checkpoint_index_metrics.
Proof. intros s. by apply counts_count. Qed.
Hint Resolve counts_count counts_bind counts_registry counts_index : quiet.

(** Garbage collection and counting, at the end of an operation. *)
Lemma gc_durable op A s dlog plog (tail : M EngineState ()) :
  durable_at s (async_apply op A) (engine_registry (es_engine s)) (engine_index (es_engine s)) dlog plog →
  index_fit (engine_index (es_engine s)) → counts tail →
  let '(res, s') := (collect_garbage ;; tail) s in op_outcome op A res s'.
Proof.
  intros Hda Hfit Htail. pose proof (durable_gc s _ _ dlog plog Hda ltac:(done)) as H. unfold mbind, M_bind.
  destruct (collect_garbage s) as [[[]|e] s1]; destruct H as [He H]; cbn [step_outcome] in H.
  - destruct H as [dlog' H]. destruct (Htail s1) as (s2 & E2 & H2). rewrite E2. right.
    exists (async_apply op A). split; [apply flushed_refl|]. apply (durable_same s1); [|done].
    unfold durable. rewrite He. split; [done|]. by exists (engine_index (es_engine s)), dlog', plog.
  - destruct H as [-> H]. eapply op_fault; [done|exact H|]. by right.
Qed.

(** ** The operations *)

Section steps.
Context (s : EngineState) (A : AsyncStore) (Hd : durable s A) (Hid : active_id s + 1 < U64_LIMIT).

(** The four save operations. *)
Lemma save_durable n r sop op :
  async_apply op A = async_save n r A → u64 n → record_fit r → record_u64 r →
  let '(res, s') := save_record n r sop s in op_outcome op A res s'.
Proof using Hd Hid NL.
  intros Hop Hn Hf Hu. unfold save_record.
  destruct (ensure_durable n sop s A Hd) as [[Ha E]|(e & s' & E & Hd')].
  2:{ rewrite (bind_err _ _ _ _ _ E). by right. }
  rewrite (bind_ok _ _ _ _ _ E). destruct (storable_dec n r Hn Hf Hu) as [Hst|(_ & e & He & _)].
  2:{ destruct s as [w en]. rewrite (bind_err _ _ _ _ _ (append_unencodable n r e w en He)). by right. }
  destruct Hd as (Hfit & x & dlog & plog & Hda & Hx).
  pose proof (durable_append s A _ x dlog plog n r Hda Hst Hid) as H. unfold mbind, M_bind.
  destruct (es_on_writer (writer_append n r) s) as [[p|e] s']; destruct H as [[Hr Hi] H]; cbn [step_outcome] in H.
  - destruct H as (_ & A' & dlog' & plog' & Hfl & _ & _ & Hda'). right. cbn. exists (async_save n r A').
    split; [rewrite Hop; by apply flushed_save|]. unfold durable. rewrite Hr, Hi. split; [done|]. eauto.
  - destruct H as [-> Hc]. eapply op_fault; [done|exact Hc|]. rewrite Hop. by right.
Qed.

Lemma sync_durable : let '(res, s') := engine_sync s in op_outcome OpSync A res s'.
Proof using Hd.
  unfold engine_sync. pose proof (quiet_count sync_requested ltac:(done) _ s eq_refl) as Hq.
  assert (Hc : ∃ s1, count sync_requested s = (Ok (), s1)) by by eexists. destruct Hc as [s1 Hc].
  rewrite (bind_ok _ _ _ _ _ Hc). rewrite Hc in Hq. pose proof (durable_same s s1 A Hd Hq) as (Hfit & x & dlog & plog & Hda & Hx).
  pose proof (durable_sync s1 A _ x dlog plog Hda) as H.
  destruct (es_on_writer writer_sync s1) as [[[]|e] s']; destruct H as ([Hr Hi] & _ & H); cbn [step_outcome] in H.
  - right. exists (async_flush A). split; [apply flushed_refl|]. unfold durable. rewrite Hr, Hi. split; [done|]. eauto.
  - destruct H as [-> H]. eapply op_fault; [done|exact H|]. by left.
Qed.

(** The loads. *)
Lemma durable_reads :
  ∃ segs, clean_dir (clear (w_fs (es_world s))) segs ∧
    ∀ n p, is_active (engine_registry (es_engine s)) n = true →
      checkpoint_position (engine_index (es_engine s)) n = Some p → start_in (Some p) segs.
Proof using Hd.
  destruct Hd as (_ & x & dlog & plog & [(L & D & reg & idx & Hdisk & HD & HL & _) _ Hh _] & Hx).
  destruct (engine_disk_clean s L D reg idx Hdisk) as (segs & Hc & ->). exists segs. split; [done|].
  intros n p Ha Hp. eapply hint_start; [exact HL|]. apply (hint_ok_app n (Some p)), Hh; [done|]. by rewrite <-Hx.
Qed.

Lemma load_durable n : let '(res, s') := engine_load n s in op_outcome (OpLoadNode n) A res s'.
Proof using Hd.
  destruct durable_reads as (segs & Hc & Hh). pose proof (engine_load_at s segs Hc Hh n) as Hv.
  destruct (engine_load n s) as [r s']. cbn [snd] in Hv. right. pose proof (durable_same s s' A Hd Hv) as Hd'.
  destruct r; [|done]. exists A. split; [apply flushed_refl|done].
Qed.

Lemma load_all_durable : let '(res, s') := engine_load_all s in op_outcome OpLoadNodes A res s'.
Proof using Hd NL.
  destruct durable_reads as (segs & Hc & Hh). pose proof (engine_load_all_at s segs Hc Hh) as Hv.
  destruct (engine_load_all s) as [r s']. cbn [snd] in Hv. right. pose proof (durable_same s s' A Hd Hv) as Hd'.
  destruct r; [|done]. exists A. split; [apply flushed_refl|done].
Qed.

(** A checkpoint is appended and synced. *)
Lemma checkpoint_durable n c x dlog plog :
  let r := RecordSnapshotCheckpoint c in
  let E := engine_registry (es_engine s) in
  storable n r → durable_at s A E x dlog plog →
  let '(res, s') := (append ← es_on_writer (writer_append n r); es_on_writer writer_sync ;; mret append) s in
  same_tables s s' ∧
  step_outcome (λ p s', position_fit p ∧ ∃ l, dlog `prefix_of` l ++ [(p, mkNodeRecord n r)] ∧
      durable_at s' (async_flush (async_save n r A)) E x (l ++ [(p, mkNodeRecord n r)]) [])
    (crash_outcome (async_save n r A)) res s'.
Proof using Hid NL.
  intros r E Hst Hda. pose proof (durable_append s A E x dlog plog n r Hda Hst Hid) as H. unfold mbind, M_bind, mret, M_ret.
  destruct (es_on_writer (writer_append n r) s) as [[p|e] s1]; destruct H as [[Hr Hi] H]; cbn [step_outcome] in H; [|done].
  destruct H as (Hp & A' & dlog' & plog' & Hfl & Hlog & Hpre & Hda1). pose proof (durable_sync s1 _ E x _ _ Hda1) as H.
  pose proof (flushed_save n r A A' Hfl) as Hfs.
  destruct (es_on_writer writer_sync s1) as [[[]|e] s2]; destruct H as ([Hr2 Hi2] & _ & H); cbn [step_outcome] in H;
    (split; [split; congruence|]).
  - split; [done|]. exists (dlog' ++ plog'). rewrite app_assoc in H. split; [by do 2 apply prefix_app_r|].
    unfold async_flush in *. by rewrite <-(flushed_view _ _ Hfs).
  - destruct H as [-> H]. split; [done|]. eapply stores_mono; [exact H|]. intros σ. by apply flushed_outcome.
Qed.

(** The index with one more hint. *)
Lemma index_fit_set n p y : u64 n → position_fit p → index_fit y → index_fit (set_checkpoint_position n p y).
Proof.
  intros Hn [Hp1 Hp2] Hy n' e. cbn [index_nodes set_checkpoint_position]. rewrite lookup_insert. case_decide as En.
  - intros [= <-]. subst n'. split; [exact Hn|]. by split.
  - apply Hy.
Qed.

Lemma hints_in_set (E : NodeRegistry) n p c y x dlog l :
  hints_in E x dlog → dlog `prefix_of` l → (p, mkNodeRecord n (RecordSnapshotCheckpoint c)) ∈ l → same_hints E y x →
  hints_in E (set_checkpoint_position n p y) l.
Proof.
  intros Hh [k ->] Hin Hs n' p' Ha. rewrite checkpoint_position_set. case_decide as En.
  - intros [= <-]. subst n'. by exists c.
  - intros Hp. apply (hint_ok_app n' (Some p')), Hh; [done|]. by rewrite <-Hs.
Qed.

Lemma same_hints_refl (E : NodeRegistry) x : same_hints E x x.
Proof. done. Qed.

(** [create_node]. *)
Lemma create_durable n md : u64 n → let '(res, s') := create_node n md s in op_outcome (OpCreateNode n md) A res s'.
Proof using Hd Hid NL.
  intros Hn. unfold create_node. pose proof (durable_refines s A Hd) as (nl & _ & Hrep). pose proof Hd as (Hfit & x & dlog & plog & Hda & Hx).
  rewrite (bind_ok get_engine _ s (es_engine s) s eq_refl), registry_create_node_run.
  set (E := engine_registry (es_engine s)) in *.
  destruct (node_status E n) eqn:Est; cbv beta iota zeta; [|by right..].
  rewrite (bind_ok _ _ _ _ _ (lift_result_ok s)), bind_regroup. set (r := RecordSnapshotCheckpoint initial_checkpoint).
  assert (Hv : async_view A !! n = None).
  { specialize (Hrep n). change (engine_registry (es_engine (clear s))) with E in Hrep. unfold node_matches in Hrep.
    destruct (async_view A !! n) as [[md' st|]|]; [|congruence|done]. destruct Hrep. congruence. }
  assert (Hdead : async_view (async_save n r A) = async_view A) by (apply save_dead_view; intros ? ?; by rewrite Hv).
  pose proof (checkpoint_durable n initial_checkpoint x dlog plog (initial_checkpoint_storable n Hn) Hda) as H.
  fold r E in H. set (prog := (append ← _; _)) in H |- *. unfold mbind at 1, M_bind at 1.
  destruct (prog s) as [[p|e] s1]; destruct H as [[Hr1 Hi1] H]; cbn [step_outcome] in H.
  2:{ destruct H as [-> H]. eapply op_fault; [done|exact H|]. intros σ [?| ->]%save_outcome; left; [done|].
      rewrite Hdead. apply crash_outcome_view. }
  destruct H as (Hp & l & Hpre & Hda1). unfold async_flush in Hda1. rewrite Hdead in Hda1.
  rewrite (bind_ok get_engine _ s1 (es_engine s1) s1 eq_refl), Hi1. cbv zeta.
  set (y := set_checkpoint_position n p _). set (nlog := l ++ _) in *.
  assert (Hin : (p, mkNodeRecord n r) ∈ nlog) by (apply elem_of_app; right; by left).
  assert (Hy : index_fit y) by by apply index_fit_set.
  assert (Hhy : hints_in E y nlog) by (eapply hints_in_set; [exact (da_hints _ _ _ _ _ _ Hda)|done|exact Hin|exact Hx]).
  pose proof (durable_index_save s1 _ E x y nlog [] Hda1 Hy Hhy) as H. unfold mbind at 1, M_bind at 1.
  destruct (es_on_world (index_save y) s1) as [[[]|e] s2]; destruct H as [He2 H]; cbn [step_outcome] in H.
  2:{ destruct H as [-> H]. eapply op_fault; [done|exact H|]. intros σ ->%flush_outcome. left. apply crash_outcome_view. }
  set (E' := registry_with n md E). set (σ' := <[n := Live md (checkpoint_into_state initial_checkpoint)]> (async_view A)).
  assert (HE' : hints_in E' y nlog).
  { eapply hints_in_with; [exact Hhy| |exact Hin]. unfold y. by rewrite checkpoint_position_set, decide_True. }
  assert (Hσ' : represents E' nlog σ') by exact (represents_with E n md l p _ _ (da_store _ _ _ _ _ _ Hda1)).
  assert (Hkeys : registry_u64 E') by exact (registry_u64_insert E n _ (durable_at_u64 _ _ _ _ _ _ Hda) Hn).
  pose proof (durable_registry_save s2 _ E E' y nlog [] σ' H Hkeys HE' Hσ') as H3. unfold mbind at 1, M_bind at 1.
  destruct (es_on_world (registry_save E') s2) as [[[]|e] s3]; destruct H3 as [He3 H3]; cbn [step_outcome] in H3.
  2:{ destruct H3 as [-> H3]. eapply op_fault; [done|exact H3|]. intros σ [->%flush_outcome|?]; [left; apply crash_outcome_view|by right]. }
  destruct s3 as [[fs3 m3] e3]. cbn [es_engine] in He3. subst e3.
  rewrite (bind_ok _ _ _ _ _ (set_registry_run _ _ _)), (bind_ok _ _ _ _ _ (set_index_run _ _ y)),
    (bind_ok _ _ _ _ _ (count_run _ _ _ _)), (bind_ok _ _ _ _ _ (refresh_registry_run _ _ _)), refresh_index_run.
  right. eexists. split; [apply flushed_refl|]. split; [exact Hy|]. exists y, nlog, []. split; [|done].
  eapply durable_at_same; [exact H3|reflexivity|reflexivity].
Qed.

(** [save_snapshot]. *)
Lemma snapshot_durable n c :
  u64 n → record_fit (RecordSnapshotCheckpoint c) → record_u64 (RecordSnapshotCheckpoint c) →
  let '(res, s') := save_snapshot n c s in op_outcome (OpSnapshot n c) A res s'.
Proof using Hd Hid NL.
  intros Hn Hf Hu. unfold save_snapshot.
  destruct (ensure_durable n OpSaveSnapshot s A Hd) as [[Ha E0]|(e & s' & E0 & Hd')].
  2:{ rewrite (bind_err _ _ _ _ _ E0). by right. }
  rewrite (bind_ok _ _ _ _ _ E0). destruct (checkpoint_validate c) as [[]|err] eqn:Ev.
  2:{ rewrite (bind_err (lift_result _) _ s err s) by done. by right. }
  rewrite (bind_ok _ _ _ _ _ (lift_result_ok s)), bind_regroup. set (r := RecordSnapshotCheckpoint c) in *.
  destruct (storable_dec n r Hn Hf Hu) as [Hst|(_ & e & He & _)].
  2:{ destruct s as [w en]. unfold mbind at 1, M_bind at 1. rewrite (bind_err _ _ _ _ _ (append_unencodable n r e w en He)). by right. }
  pose proof Hd as (Hfit & x & dlog & plog & Hda & Hx). set (E := engine_registry (es_engine s)) in *.
  pose proof (checkpoint_durable n c x dlog plog Hst Hda) as H. fold r E in H.
  set (prog := (append ← _; _)) in H |- *. unfold mbind at 1, M_bind at 1.
  destruct (prog s) as [[p|e] s1]; destruct H as [[Hr1 Hi1] H]; cbn [step_outcome] in H.
  2:{ destruct H as [-> H]. eapply op_fault; [done|exact H|]. intros σ [?| ->]%save_outcome; [by left|right].
      exact (crash_outcome_view (async_flush (async_save n r A))). }
  destruct H as (Hp & l & Hpre & Hda1).
  rewrite (bind_ok get_engine _ s1 (es_engine s1) s1 eq_refl), Hi1. cbv zeta.
  set (y := set_checkpoint_position n p _). set (nlog := l ++ _) in *.
  assert (Hin : (p, mkNodeRecord n r) ∈ nlog) by (apply elem_of_app; right; by left).
  assert (Hy : index_fit y) by by apply index_fit_set.
  assert (Hhy : hints_in E y nlog) by (eapply hints_in_set; [exact (da_hints _ _ _ _ _ _ Hda)|done|exact Hin|exact Hx]).
  pose proof (durable_index_save s1 _ E x y nlog [] Hda1 Hy Hhy) as H. unfold mbind at 1, M_bind at 1.
  destruct (es_on_world (index_save y) s1) as [[[]|e] s2]; destruct H as [He2 H]; cbn [step_outcome] in H.
  2:{ destruct H as [-> H]. eapply op_fault; [done|exact H|]. by right. }
  destruct s2 as [[fs2 m2] e2]. cbn [es_engine] in He2. subst e2.
  rewrite (bind_ok _ _ _ _ _ (set_index_run _ _ y)), (bind_ok _ _ _ _ _ (refresh_index_run _ _ _)).
  apply (gc_durable _ _ _ nlog []); [|exact Hy|auto with quiet]. cbn [es_engine engine_registry engine_index].
  rewrite Hr1. eapply durable_at_same; [exact H|reflexivity|reflexivity].
Qed.

(** [remove_node]. *)
Lemma remove_durable n : let '(res, s') := remove_node n s in op_outcome (OpRemove n) A res s'.
Proof using Hd Hid.
  unfold remove_node. destruct (ensure_durable n OpRemoveNode s A Hd) as [[Ha E0]|(e & s' & E0 & Hd')].
  2:{ rewrite (bind_err _ _ _ _ _ E0). by right. }
  rewrite (bind_ok _ _ _ _ _ E0), (bind_ok get_engine _ s (es_engine s) s eq_refl), registry_remove_node_run.
  pose proof Hd as (Hfit & x & dlog & plog & Hda & Hx). set (E := engine_registry (es_engine s)) in *.
  rewrite is_active_status in Ha. destruct (node_status E n) as [|md|] eqn:Est; [done| |done]. cbv beta iota zeta.
  rewrite (bind_ok _ _ _ _ _ (lift_result_ok s)). set (E' := registry_without n md E).
  pose proof (hints_in_without E n md x dlog (da_hints _ _ _ _ _ _ Hda)) as HE'.
  pose proof (represents_without E n md dlog _ (da_store _ _ _ _ _ _ Hda)) as Hσ'.
  pose proof (durable_at_u64 _ _ _ _ _ _ Hda) as Hkeys.
  assert (Hn : u64 n) by (unfold node_status in Est; destruct (registry_nodes E !! n) eqn:En; [by eapply Hkeys|done]).
  assert (Hkeys' : registry_u64 E') by exact (registry_u64_insert E n _ Hkeys Hn).
  pose proof (durable_registry_save s A E E' x dlog plog _ Hda Hkeys' HE' Hσ') as H. unfold mbind at 1, M_bind at 1.
  destruct (es_on_world (registry_save E') s) as [[[]|e] s1]; destruct H as [He1 H]; cbn [step_outcome] in H.
  2:{ destruct H as [-> H]. eapply op_fault; [done|exact H|]. done. }
  destruct s1 as [w1 e1]. cbn [es_engine] in He1. subst e1.
  rewrite (bind_ok _ _ _ _ _ (set_registry_run _ _ _)). set (s2 := mkEngineState w1 _).
  rewrite (bind_ok get_engine _ s2 (es_engine s2) s2 eq_refl). cbv zeta. cbn [engine_index es_engine s2].
  set (y := index_remove_node n _). set (B := mkAsyncStore _ _) in H.
  assert (Hda2 : durable_at s2 B E' x dlog plog) by (eapply durable_at_same; [exact H|reflexivity|reflexivity]).
  assert (Hy : index_fit y).
  { intros n' e' Hn'. cbn [index_nodes y index_remove_node] in Hn'. apply lookup_delete_Some in Hn' as [_ Hn']. by eapply Hfit. }
  assert (Hhy : hints_in E' y dlog).
  { apply hints_in_without. intros n' p' Ha' Hp'. apply checkpoint_position_remove in Hp' as [_ Hp'].
    apply (da_hints _ _ _ _ _ _ Hda); [done|]. by rewrite <-Hx. }
  pose proof (durable_index_save s2 B E' x y dlog plog Hda2 Hy Hhy) as H3. unfold mbind at 1, M_bind at 1.
  destruct (es_on_world (index_save y) s2) as [[[]|e] s3]; destruct H3 as [He3 H3]; cbn [step_outcome] in H3.
  2:{ destruct H3 as [-> H3]. eapply op_fault; [done|exact H3|]. by right. }
  destruct s3 as [w3 e3]. cbn [es_engine] in He3. subst e3.
  rewrite (bind_ok _ _ _ _ _ (set_index_run _ _ y)). apply (gc_durable _ _ _ dlog plog); [|exact Hy|auto with quiet].
  eapply durable_at_same; [exact H3|reflexivity|reflexivity].
Qed.

Lemma op_outcome_map {R R'} op (m : M EngineState R) (f : R → R') :
  (let '(res, s') := m s in op_outcome op A res s') →
  let '(res, s') := (a ← m; mret (f a)) s in op_outcome op A res s'.
Proof.
  unfold mbind, M_bind. destruct (m s) as [[a|e] s']; intros [(e' & He & H)|H]; [done|by right| |by right].
  left. exists e'. split; [congruence|done].
Qed.

(** Every operation, from a state between two operations. *)
Lemma exec_durable op : op_fit op → let '(res, s') := exec op s in op_outcome op A res s'.
Proof using Hd Hid NL.
  destruct op; cbn [exec op_fit]; intros Hfit.
  - by apply (op_outcome_map _ _ (λ _, Done)), create_durable.
  - destruct Hfit as [Hn Ht]. by apply (op_outcome_map _ _ (λ _, Done)), save_durable.
  - destruct Hfit as [Hn Ht]. by apply (op_outcome_map _ _ (λ _, Done)), save_durable.
  - destruct Hfit as (Hn & Hf & Hu). by apply (op_outcome_map _ _ (λ _, Done)), save_durable.
  - destruct Hfit as (Hn & Hf & Hu). by apply (op_outcome_map _ _ (λ _, Done)), snapshot_durable.
  - apply (op_outcome_map _ _ (λ _, Done)), remove_durable.
  - apply (op_outcome_map _ _ (λ _, Done)), sync_durable.
  - apply (op_outcome_map _ _ LoadedNode), load_durable.
  - apply (op_outcome_map _ _ LoadedNodes), load_all_durable.
Qed.
End steps.
End ops.
