(* ===== verification/OpenSteps.v ===== *)
(** * The steps of opening a directory

    Opening creates the directory, its lock file and its first segment, cuts a
    torn end off the active segment and completes a header.  A stop between, or
    in the middle of, any of these leaves a directory that is opened with the
    same records and the same tables as before. *)
From Stdlib Require Import Strings.Byte Strings.String.
From S2P Require Import Prelude Metrics Fs Text Json Noraft State Crc32c Codec Format Frame.
From S2P Require Import Segment Replay Registry Checkpoint Engine Recovery RecoveryCorrect.
From S2P Require Import ReplayCorrect WriterCorrect MetadataCorrect MetadataFaults EngineCorrect.
From S2P Require Import LoadCorrect OpenCorrect Faults Durability Tidy Reopen.

(** Whenever the process or the system stops, the directory can be opened, with
    a log and tables as [Q] says. *)
Definition opens_as (Q : list (RecordPosition * list byte) → option (list byte) → option (list byte) → Prop)
  (fs : Fs) : Prop :=
  ∀ fs', stopped fs fs' → ∃ l reg idx, can_open fs' l reg idx ∧ Q l reg idx.

Lemma stopped_refl fs : stopped fs fs.
Proof. split; [done|]. split; [done|]. split; [by left|]. intros i. apply leaves_current. Qed.

Lemma opens_as_now Q fs : opens_as Q fs → ∃ l reg idx, can_open fs l reg idx ∧ Q l reg idx.
Proof. intros H. apply H, stopped_refl. Qed.

(** Every stop of [fs1] is found to be like one of [fs]. *)
Lemma opens_as_step Q fs fs1 :
  opens_as Q fs →
  (∀ fs1', stopped fs1 fs1' → ∃ fs', stopped fs fs' ∧ ∀ l reg idx, can_open fs' l reg idx → can_open fs1' l reg idx) →
  opens_as Q fs1.
Proof.
  intros H Hs fs1' H1. destruct (Hs fs1' H1) as (fs' & H2 & Hc). destruct (H fs' H2) as (l & reg & idx & Ho & HQ).
  exists l, reg, idx. auto.
Qed.

(** Fewer versions. *)
Lemma opens_as_subset Q fs fs1 : opens_as Q fs → (∀ fs', stopped fs1 fs' → stopped fs fs') → opens_as Q fs1.
Proof. intros H Hs fs' Hs'. by apply H, Hs. Qed.

Lemma opens_as_faults Q f fs : opens_as Q (set_faults f fs) ↔ opens_as Q fs.
Proof. split; intros H; (eapply opens_as_subset; [exact H|done]). Qed.

Lemma opens_as_locks Q k fs : opens_as Q (set_locks k fs) ↔ opens_as Q fs.
Proof. split; intros H; (eapply opens_as_subset; [exact H|done]). Qed.

Lemma opens_as_sync Q fs : opens_as Q fs → opens_as Q (sync_entries fs).
Proof.
  intros H. eapply opens_as_subset; [exact H|]. intros fs' (Hr & Hn & He & Hd). split; [done|]. split; [done|].
  split; [|done]. apply elem_of_cons in He as [->|He%elem_of_nil]; [by left|done].
Qed.

(** ** Directories that are opened alike *)

(** Contents that make no difference in a segment. *)
Definition harmless (d c : list byte) : Prop :=
  (∀ bodies, torn_data d bodies → torn_data c bodies) ∧
  (∀ bodies, bodies_fit bodies → d = segment_data bodies [] → c = d).

Lemma harmless_refl d : harmless d d.
Proof. by split. Qed.

(** The entries of the files are the same, and so are their contents, up to
    the active segment. *)
Record opens_like (fs fs' : Fs) : Prop := {
  ol_entries : ∀ name, owned_name name → fs_entries fs' !! name = fs_entries fs !! name;
  ol_data : ∀ name j, owned_name name → fs_entries fs !! name = Some (EntryFile j) →
    data_of j fs' = data_of j fs ∨ is_segment_name name ∧ harmless (data_of j fs) (data_of j fs');
}.

Section alike.
Context (fs fs' : Fs) (Hlike : opens_like fs fs').

Lemma like_segments : segments_of fs' = segments_of fs.
Proof using Hlike.
  apply segments_of_agree. intros name n Hn. apply (ol_entries _ _ Hlike). right. by eexists.
Qed.

Lemma like_text name : name ∈ metadata_names → file_text fs' name = file_text fs name.
Proof using Hlike.
  intros Hn. assert (Ho : owned_name name) by by left. unfold file_text. rewrite (ol_entries _ _ Hlike name Ho).
  destruct (fs_entries fs !! name) as [[j|]|] eqn:E; [|done|done].
  destruct (ol_data _ _ Hlike name j Ho E) as [->|[[n Hs] _]]; [done|].
  apply metadata_names_not_segments in Hn. congruence.
Qed.

(** The file of a segment. *)
Lemma like_file name n j :
  fs_root fs' = RootDir → parse_file_name name = Some n → fs_entries fs !! name = Some (EntryFile j) →
  ∃ c, is_file_with fs' name j c ∧ harmless (data_of j fs) c.
Proof using Hlike.
  intros Hr Hn Hj. assert (Ho : owned_name name) by (right; by eexists). exists (data_of j fs').
  split; [by rewrite <-(ol_entries _ _ Hlike name Ho) in Hj|].
  destruct (ol_data _ _ Hlike name j Ho Hj) as [->|[_ H]]; [apply harmless_refl|done].
Qed.

Lemma like_segments_are sealed active d bodies :
  fs_root fs' = RootDir ∨ fs_entries fs = ∅ →
  segments_are fs active sealed d bodies → ∃ d', segments_are fs' active sealed d' bodies.
Proof using Hlike.
  intros Hr [Hs Ha Hn|paths segs i d0 bodies0 Hs Hh Hid (_ & He & Hd) Ht].
  - exists None. constructor; [by rewrite like_segments|done|]. unfold not_other in *.
    rewrite (ol_entries _ _ Hlike); [done|]. right. exists first_append. rewrite Ha. by apply parse_file_name_print.
  - assert (Hr' : fs_root fs' = RootDir) by (destruct Hr as [|Hemp]; [done|by rewrite Hemp in He]). clear Hr.
    destruct (like_file _ _ _ Hr' (parse_file_name_print active Hid) He) as (c & Hf & Hc). exists (Some c).
    apply (some_segments fs' active paths segs i); [by rewrite like_segments| |done|exact Hf|].
    + eapply Forall2_In_l; [exact Hh|]. intros p seg Hin (Hpn & Hb & j & _ & Hj & Hdj).
      assert (Hps : p ∈ segments_of fs) by (rewrite Hs; apply elem_of_app; by left).
      split; [done|]. split; [done|].
      destruct (like_file _ _ _ Hr' (segment_paths_parse fs p Hps) Hj) as (c' & Hf' & [_ Hc']).
      exists j. by rewrite <-Hdj, <-(Hc' _ Hb Hdj).
    + subst d0. by apply Hc.
Qed.

Lemma like_can_open l reg idx :
  root_ready fs' → fs_wf fs' → not_other fs' WRITE_LOCK_FILE_NAME →
  fs_root fs' = RootDir ∨ fs_entries fs = ∅ →
  can_open fs l reg idx → can_open fs' l reg idx.
Proof using Hlike.
  intros Hr Hwf Hl Hd (_ & _ & Hn & (sealed & active & d & bodies & Hs & ->) & Htr & Hti).
  destruct (like_segments_are _ _ _ _ Hd Hs) as [d' Hs'].
  split; [done|]. split; [done|]. split; [|split; [by exists sealed, active, d', bodies|]].
  - intros name [Ho| ->]; [|done]. unfold not_other. rewrite (ol_entries _ _ Hlike name Ho). apply Hn. by left.
  - rewrite !like_text by (unfold metadata_names; set_solver). done.
Qed.
End alike.

(** ** The storage directory *)

Lemma opens_as_root Q r b fs :
  opens_as Q fs → fs_root fs = r ∨ fs_root fs = RootMissing ∧ r = RootDir → opens_as Q (set_root r b fs).
Proof.
  intros H Hr. eapply opens_as_step; [exact H|]. intros fs1 (Hr1 & Hn1 & He1 & Hd1). cbn in Hr1.
  set (fs' := set_root (fs_root fs) b fs1). exists fs'. split; [by repeat split|].
  intros l reg idx Hc. pose proof Hc as (Hroot & Hwf & Hn & _).
  apply (like_can_open fs' fs1); [by split; [|left]| |exact Hwf| | |exact Hc].
  - destruct Hr as [Hr|[_ ->]]; [|by left]. unfold root_ready in *. cbn [fs' set_root fs_root fs_entries] in Hroot.
    by rewrite Hr1, <-Hr.
  - exact (Hn WRITE_LOCK_FILE_NAME (or_intror eq_refl)).
  - destruct Hroot as [Hroot|[Hroot He]]; [left|by right]. cbn in Hroot. destruct Hr as [Hr|[_ ->]]; congruence.
Qed.

(** ** The contents of a segment *)

(** A change of the contents of a segment file whose intermediate states make no difference. *)
Lemma opens_as_update Q fs name i x :
  opens_as Q fs → tidy fs → is_segment_name name → fs_entries fs !! name = Some (EntryFile i) →
  (∀ c, c = x ∨ between (data_of i fs) x c → harmless (data_of i fs) c) →
  opens_as Q (update_data i x fs).
Proof.
  intros H Ht Hname Hi Hx. eapply opens_as_step; [exact H|]. intros fs1 (Hr1 & Hn1 & He1 & Hd1). cbn in Hr1, Hn1.
  assert (Hother : ∀ j, j ≠ i → leaves fs j (data_of j fs1)).
  { intros j Hj. pose proof (Hd1 j) as Hdj. revert Hdj. unfold leaves, data_of.
    by rewrite inode_of_update by congruence. }
  pose proof (Hd1 i) as Hdi. apply leaves_update in Hdi.
  assert (Hcase : leaves fs i (data_of i fs1) ∨ harmless (data_of i fs) (data_of i fs1)).
  { destruct Hdi as [Hdi|[Hdi|Hdi]]; [right; apply Hx; by left|right; apply Hx; by right|by left]. }
  destruct Hcase as [Hl|Hh].
  - exists fs1. split; [|done]. split; [done|]. split; [done|]. split; [done|]. intros j.
    destruct (decide (j = i)) as [->|Hj]; [done|by apply Hother].
  - set (fs' := update_data i (data_of i fs) fs1). exists fs'.
    assert (Hdata : ∀ j, data_of j fs' = if decide (i = j) then data_of i fs else data_of j fs1)
      by (intros j; apply data_of_update_data).
    split.
    + split; [exact Hr1|]. split; [exact Hn1|]. split; [exact He1|]. intros j. rewrite Hdata.
      case_decide as E; [subst j; apply leaves_current|]. apply Hother. congruence.
    + intros l reg idx Hc. pose proof Hc as (Hroot & Hwf & Hn & _).
      apply (like_can_open fs' fs1); [|exact Hroot|exact Hwf|exact (Hn _ (or_intror eq_refl))| |exact Hc].
      * split; [done|]. intros a j _ Ha. rewrite Hdata. case_decide as E; [subst j; right|by left].
        split; [|exact Hh].
        by rewrite (td_segments _ Ht (fs_entries fs) (fs_entries fs1) name a i ltac:(by left) He1 Hname Hi Ha).
      * by destruct Hroot as [?|[_ ?]]; [left|right].
Qed.

(** A torn end is cut off. *)
Lemma between_cut d bodies c :
  torn_data d bodies → c = recovered_data d bodies ∨ between d (recovered_data d bodies) c →
  recovered_data d bodies `prefix_of` c ∧ c `prefix_of` d.
Proof.
  intros Ht%recovered_prefix [->|[[H1 H2]|[H1 H2]]]; [done|split; by etrans|done].
Qed.

Lemma torn_data_unique d b1 b2 : torn_data d b1 → torn_data d b2 → b1 = b2.
Proof.
  assert (Hno : ∀ b t, ¬ lenN (segment_data b t) < SEGMENT_FILE_HEADER_LEN)
    by (intros b t Hlt%N.ltb_lt; by rewrite segment_data_not_short in Hlt).
  intros [[Hs ->]|(t1 & -> & Ht1 & Hf1)] [[Hs' ->]|(t2 & E & Ht2 & Hf2)]; [done|subst d; by apply Hno in Hs|by apply Hno in Hs'|].
  unfold segment_data in E. apply app_inv_head in E.
  apply (frames_parse_unique (frames_bytes b1 ++ t1) b1 t1 b2 t2).
  - split; [done|]. split; [exact Hf1|]. intros b. by rewrite Ht1.
  - split; [done|]. split; [exact Hf2|]. intros b. by rewrite Ht2.
Qed.

Lemma harmless_cut d bodies c :
  torn_data d bodies → c = recovered_data d bodies ∨ between d (recovered_data d bodies) c → harmless d c.
Proof.
  intros Ht Hc. destruct (between_cut d bodies c Ht Hc) as [H1 H2]. split.
  - intros b Hb. assert (b = bodies) as -> by by eapply torn_data_unique. by apply (torn_part d).
  - intros b Hf E. assert (Hb : torn_data d b) by (rewrite E; by apply torn_complete).
    assert (b = bodies) as -> by by eapply torn_data_unique.
    apply (anti_symm prefix); [done|]. etrans; [|exact H1]. rewrite E. unfold recovered_data.
    by rewrite segment_data_not_short.
Qed.

(** The header is written to an empty file. *)
Lemma harmless_header k c :
  c = takeN k SEGMENT_FORMAT_MAGIC ∨ between [] (takeN k SEGMENT_FORMAT_MAGIC) c → harmless [] c.
Proof.
  intros Hc. assert (Hp : c `prefix_of` SEGMENT_FORMAT_MAGIC).
  { assert (Hk : takeN k SEGMENT_FORMAT_MAGIC `prefix_of` SEGMENT_FORMAT_MAGIC) by apply prefix_take.
    destruct Hc as [->|[[_ H]|[_ H]]]; [done|by etrans|etrans; [exact H|apply prefix_nil]]. }
  split.
  - intros b Hb. assert (b = []) as -> by (apply (torn_data_unique [] b []); [done|by left]). by apply torn_header.
  - intros b _ E. apply (f_equal lenN) in E. rewrite segment_data_length in E. change (lenN []) with 0 in E. lia.
Qed.

(** ** New files *)

(** A stop of a directory with a new file, seen from the directory before. *)
Definition without_file (fs : Fs) (e : gmap string DirEntry) (fs1 : Fs) : Fs :=
  update_data (fs_next_inode fs) (data_of (fs_next_inode fs) fs)
    (set_entries e [] (set_inodes (fs_inodes fs1) (fs_next_inode fs) fs1)).

(** Without segments the log is empty. *)
Lemma first_log fs fs' sealed active d bodies :
  segments_of fs = [] → fs_entries fs' = fs_entries fs → segments_are fs' active sealed d bodies →
  active = first_append ∧ sealed = [] ∧ bodies = [].
Proof.
  intros Hs He. assert (Hs' : segments_of fs' = []) by (unfold segments_of in *; by rewrite He).
  intros [_ Ha _|paths segs i d0 bodies0 Hp _ _ _ _]; [done|]. rewrite Hs' in Hp. by destruct paths.
Qed.

Section new_file.
Context (fs fs1 : Fs) (name : string).
Let i := fs_next_inode fs.

(** [fs1] has a new file [name] at most. *)
Record created : Prop := {
  cr_root : fs_root fs1 = fs_root fs;
  cr_versions : ∀ e, e ∈ dir_versions fs1 →
    e ∈ dir_versions fs ∨ e = <[name := EntryFile i]> (fs_entries fs);
  cr_next : fs_next_inode fs1 = i + 1;
  cr_data : ∀ j c, j ≠ i → leaves fs1 j c → leaves fs j c;
}.

Hypothesis Hcr : created.

Lemma without_file_data e fs1' j :
  data_of j (without_file fs e fs1') = if decide (i = j) then data_of i fs else data_of j fs1'.
Proof using Type. unfold without_file. rewrite data_of_update_data. unfold i. by case_decide. Qed.

Lemma without_file_stopped e fs1' :
  stopped fs1 fs1' → e ∈ dir_versions fs → stopped fs (without_file fs e fs1').
Proof using Hcr.
  intros (Hr & Hn & He & Hd) Hv. split; [cbn; by rewrite Hr, (cr_root Hcr)|]. split; [done|]. split; [done|].
  intros j. rewrite without_file_data. case_decide as E; [subst j; apply leaves_current|].
  apply (cr_data Hcr); [congruence|apply Hd].
Qed.

(** The entries of a version of [fs1]. *)
Lemma created_version e1 :
  e1 ∈ dir_versions fs1 → ∃ e, e ∈ dir_versions fs ∧ (e1 = e ∨ e = fs_entries fs ∧ e1 = <[name := EntryFile i]> e).
Proof using Hcr.
  intros [He|E]%(cr_versions Hcr); [exists e1; by split; [|left]|].
  exists (fs_entries fs). split; [by left|by right].
Qed.

Lemma created_wf e1 e fs1' :
  tidy fs → e ∈ dir_versions fs → e1 = e ∨ e1 = <[name := EntryFile i]> e →
  fs_wf (without_file fs e fs1') → fs_entries fs1' = e1 → fs_next_inode fs1' = i + 1 → fs_wf fs1'.
Proof using Type.
  intros Ht He Hcase [Hinj _] <- Hn. assert (Hb : ∀ a j, e !! a = Some (EntryFile j) → j < i) by (intros a j; by apply (td_bound _ Ht)).
  assert (Hl : ∀ a j, fs_entries fs1' !! a = Some (EntryFile j) → e !! a = Some (EntryFile j) ∨ a = name ∧ j = i).
  { intros a j Hj. destruct Hcase as [E|E]; rewrite E in Hj; [by left|].
    apply lookup_insert_Some in Hj as [[<- [= <-]]|[_ Hj]]; [by right|by left]. }
  split.
  - intros a b j [Ha|[-> Ej]]%Hl [Hb'|[-> Ej']]%Hl; [by eapply Hinj| | |done].
    + apply Hb in Ha. lia.
    + apply Hb in Hb'. lia.
  - intros a j [Ha%Hb|[_ ->]]%Hl; lia.
Qed.

Hypothesis Hroot : fs_root fs = RootDir.

(** A file that is not the engine's, such as the lock file. *)
Lemma opens_as_created Q : opens_as Q fs → tidy fs → ¬ owned_name name → opens_as Q fs1.
Proof using Hcr Hroot.
  intros H Ht Ho. eapply opens_as_step; [exact H|]. intros fs1' Hs. pose proof Hs as (Hr & Hn & He & Hd).
  destruct (created_version _ He) as (e & Hev & Hcase). exists (without_file fs e fs1').
  split; [by apply without_file_stopped|]. intros l reg idx Hc. pose proof Hc as (_ & Hwf & Hnames & _).
  assert (Hsub : ∀ a, a ≠ name → fs_entries fs1' !! a = e !! a).
  { intros a Ha. destruct Hcase as [->|[_ ->]]; [done|by rewrite lookup_insert_ne]. }
  assert (Hr1 : fs_root fs1' = RootDir) by by rewrite Hr, (cr_root Hcr).
  apply (like_can_open (without_file fs e fs1') fs1'); [|by left| | |by left|exact Hc].
  - split.
    + intros a Ha. apply Hsub. by intros ->.
    + intros a j Ha Hj. left. rewrite without_file_data, decide_False; [done|].
      pose proof (td_bound _ Ht e a j Hev Hj). unfold i. lia.
  - eapply created_wf; [done|exact Hev| |exact Hwf|done|by rewrite Hn, (cr_next Hcr)].
    destruct Hcase as [->|[_ ->]]; auto.
  - specialize (Hnames _ (or_intror eq_refl)). unfold not_other in *. cbn in Hnames.
    destruct Hcase as [->|[_ ->]]; [done|]. rewrite lookup_insert. by case_decide.
Qed.

(** The first segment. *)
Lemma opens_as_first_segment Q :
  opens_as Q fs → tidy fs → segments_of fs = [] → name = file_name first_append → fs_entries fs !! name = None →
  (∀ c, leaves fs1 i c → c `prefix_of` SEGMENT_FORMAT_MAGIC) → opens_as Q fs1.
Proof using Hcr Hroot.
  intros H Ht Hseg Hname Hnone Hmagic. eapply opens_as_step; [exact H|]. intros fs1' Hs. pose proof Hs as (Hr & Hn & He & Hd).
  destruct (created_version _ He) as (e & Hev & Hcase). exists (without_file fs e fs1').
  split; [by apply without_file_stopped|]. intros l reg idx Hc.
  pose proof Hc as (_ & Hwf & Hnames & (sealed & active & d & bodies & Hsegs & ->) & Htr & Hti).
  assert (Hr1 : fs_root fs1' = RootDir) by by rewrite Hr, (cr_root Hcr).
  assert (Hwf1 : fs_wf fs1').
  { eapply created_wf; [done|exact Hev| |exact Hwf|done|by rewrite Hn, (cr_next Hcr)]. destruct Hcase as [->|[_ ->]]; auto. }
  assert (Hold : ∀ a j, e !! a = Some (EntryFile j) → data_of j (without_file fs e fs1') = data_of j fs1').
  { intros a j Hj. rewrite without_file_data, decide_False; [done|]. pose proof (td_bound _ Ht e a j Hev Hj). unfold i. lia. }
  destruct Hcase as [E|[-> E]].
  { apply (like_can_open (without_file fs e fs1') fs1'); [|by left|done| |by left|exact Hc].
    - split; [by rewrite E|]. intros a j _ Hj. left. by erewrite Hold.
    - specialize (Hnames _ (or_intror eq_refl)). unfold not_other in *. by rewrite E. }
  assert (Hnew : fs_entries fs1' !! name = Some (EntryFile i)) by (rewrite E; by rewrite lookup_insert_eq).
  assert (Hid : segment_id first_append < U64_LIMIT) by done.
  pose proof (parse_file_name_print first_append Hid) as Hparse. rewrite <-Hname in Hparse.
  destruct (first_log fs (without_file fs (fs_entries fs) fs1') sealed active d bodies Hseg eq_refl Hsegs) as (-> & -> & ->).
  split; [by left|]. split; [done|]. split; [|split].
  - intros a Ha. unfold not_other. rewrite E, lookup_insert. case_decide; [done|]. exact (Hnames a Ha).
  - exists [], first_append, (Some (data_of i fs1')), []. split; [|done].
    apply (some_segments fs1' first_append [] [] i); [|constructor|done|by rewrite <-Hname|].
    + rewrite Hname in E, Hnone. rewrite <-(new_segment_segments fs first_append Hseg Hid Hnone). unfold segments_of. by rewrite E.
    + apply torn_header, Hmagic, Hd.
  - assert (Hmeta : ∀ a, parse_file_name a = None → file_text fs1' a = file_text (without_file fs (fs_entries fs) fs1') a).
    { intros a Ha. unfold file_text. rewrite E, lookup_insert_ne by congruence.
      change (fs_entries (without_file fs (fs_entries fs) fs1')) with (fs_entries fs).
      destruct (fs_entries fs !! a) as [[j|]|] eqn:Ej; [|done|done]. by erewrite Hold. }
    by rewrite !Hmeta.
Qed.
End new_file.
