(* ===== verification/Interrupted.v ===== *)
(** * Interrupted openings

    Whatever calls of [with_max_segment_len] fail, and whether it returns an
    engine or an error: a stop afterwards leaves a directory that is opened with
    the same records and tables as before. *)
From Stdlib Require Import Strings.Byte Strings.String.
From S2P Require Import Prelude Metrics Fs Text Json Noraft State Crc32c Codec Format Frame.
From S2P Require Import Segment Replay Registry Checkpoint Engine Recovery RecoveryCorrect.
From S2P Require Import ReplayCorrect WriterCorrect MetadataCorrect MetadataFaults EngineCorrect NodeCorrect EngineSpec.
From S2P Require Import LoadCorrect OpenCorrect Faults Durability Surface DurableWriter DurableGc Tidy Reads Reopen OpenSteps.

(** ** Programs with one change

    Of the calls of a program at most one changes the files.  When another call
    fails, the files are as before, or as after the whole program. *)

Definition fs_of_io (io : Io) : Fs := clear (io_fs io).
Definition fs_of_world (w : World) : Fs := clear (w_fs w).

Section single.
Context {S T : Type} `{Faulty S} (o : S → T).
Hypothesis o_clear : ∀ s, o (clear s) = o s.

Definition single {A} (m : M S A) : Prop := ∀ s,
  let s' := (m s).2 in o s' = o s ∨ o s' = o (m (clear s)).2.

Lemma single_quiet {A} (m : M S A) : quiet o m → single m.
Proof using Type. intros Hm s. left. destruct (m s) as [r s'] eqn:E. by eapply quiet_at. Qed.

(** The first part changes nothing, or the second part does. *)
Lemma single_bind {A B} (m : M S A) (f : A → M S B) :
  single m → surfaces m → (∀ a, single (f a)) →
  (∀ s a s', m s = (Ok a, s') → o s' = o s ∨ quiet o (f a)) → single (m ≫= f).
Proof using o_clear.
  intros Hm Hsf Hf Hor s. specialize (Hm s). specialize (Hsf s). unfold mbind, M_bind.
  destruct (m s) as [[a|e] s1] eqn:E1; cbn [snd] in *.
  - destruct Hsf as [?|Hsf]; [done|]. rewrite Hsf. destruct (Hor s a s1 E1) as [Ho|Hq].
    + rewrite <-Ho. apply Hf.
    + right. destruct (f a s1) as [r2 s2] eqn:E2, (f a (clear s1)) as [r3 s3] eqn:E3. cbn.
      by rewrite (quiet_at o _ _ _ _ Hq E2), (quiet_at o _ _ _ _ Hq E3), o_clear.
  - destruct Hm as [Hm|Hm]; [by left|]. destruct (m (clear s)) as [[a|e'] s2] eqn:E2; cbn [snd] in *; [|by right].
    destruct (Hor _ _ _ E2) as [Ho|Hq]; [left; by rewrite Hm, Ho|right].
    destruct (f a s2) as [r3 s3] eqn:E3. cbn. by rewrite (quiet_at o _ _ _ _ Hq E3).
Qed.

Lemma single_quiet_l {A B} (m : M S A) (f : A → M S B) :
  quiet o m → surfaces m → (∀ a, single (f a)) → single (m ≫= f).
Proof using o_clear.
  intros Hm Hsf Hf. apply single_bind; [by apply single_quiet|done|done|]. intros s a s' E. left. by eapply quiet_at.
Qed.

Lemma single_quiet_r {A B} (m : M S A) (f : A → M S B) :
  single m → surfaces m → (∀ a, quiet o (f a)) → single (m ≫= f).
Proof using o_clear.
  intros Hm Hsf Hf. apply single_bind; [done|done|intros a; by apply single_quiet|]. intros s a s' E. by right.
Qed.

(** Turns that go on change nothing. *)
Lemma single_loop {A} fuel (body : M S (option A)) :
  single body → surfaces body → (∀ s s', body s = (Ok None, s') → o s' = o s) → single (loop_fuel fuel body).
Proof using o_clear.
  intros Hb Hsf Hn. induction fuel as [|fuel IH]; [apply single_quiet, quiet_throw|]. cbn [loop_fuel].
  apply single_bind; [done|done| |].
  - intros [a|]; [apply single_quiet, quiet_ret|exact IH].
  - intros s [a|] s' E; [right; apply quiet_ret|left; by apply Hn].
Qed.
End single.

(** Forgetting the counters and the inode. *)
Lemma quiet_weaken {S T T' A} (o : S → T) (o' : S → T') (m : M S A) :
  quiet o m → (∀ s s', o s' = o s → o' s' = o' s) → quiet o' m.
Proof.
  intros Hm Ho c s <-. specialize (Hm _ s eq_refl). destruct (m s) as [r s']. by apply Ho.
Qed.

Lemma quiet_io {A} (m : M Io A) : quiet io_view m → quiet fs_of_io m.
Proof. intros Hm. eapply quiet_weaken; [exact Hm|]. intros s s' E. by apply (f_equal (λ v, v.1.1)) in E. Qed.

Lemma quiet_world {A} (m : M World A) : quiet world_view m → quiet fs_of_world m.
Proof. intros Hm. eapply quiet_weaken; [exact Hm|]. intros s s' E. by apply (f_equal fst) in E. Qed.

Lemma quiet_with_file {A} f (m : M Io A) : quiet fs_of_io m → quiet fs_of_world (with_file f m).
Proof.
  intros Hm c w <-. unfold with_file. specialize (Hm _ (mkIo (w_fs w) (w_metrics w) f) eq_refl).
  by destruct (m _) as [r io].
Qed.

Lemma quiet_io_count f : quiet fs_of_io (io_count f).
Proof. by apply quiet_modify. Qed.

Lemma quiet_w_count f : quiet fs_of_world (w_count f).
Proof. by apply quiet_modify. Qed.
#[export] Hint Resolve quiet_io_count quiet_w_count quiet_with_file : quiet.

(** ** Scanning a segment *)

#[export] Hint Extern 5 (quiet _ (read_exact_or_none _ _)) => (apply quiet_or_none; intros ?) : quiet.

Lemma quiet_scan_chunks fuel crc n : quiet io_view (scan_body_chunks fuel crc n).
Proof. revert crc n. induction fuel as [|fuel IH]; intros crc n; cbn [scan_body_chunks]; solve_quiet. Qed.
#[export] Hint Resolve quiet_scan_chunks : quiet.

Lemma quiet_scan_frame : quiet fs_of_io scan_record_frame.
Proof.
  apply quiet_io. unfold scan_record_frame, io_count. solve_quiet.
Qed.

Lemma single_set_len n : single fs_of_io (file_set_len n).
Proof.
  apply single_quiet_l; [done|apply quiet_io; solve_quiet|solve_surfaces|]. intros []. intros io. right.
  unfold mbind, M_bind, get_state, modify. by destruct (negb _).
Qed.

Lemma io_clear io : fs_of_io (clear io) = fs_of_io io.
Proof. done. Qed.
Lemma world_clear w : fs_of_world (clear w) = fs_of_world w.
Proof. done. Qed.

(** The end of a file is cut off and the handle is placed there. *)
Lemma single_cut {A} n p (a : A) : single fs_of_io (file_set_len n ;; file_seek p ;; mret a).
Proof.
  apply single_quiet_r; [done|apply single_set_len|solve_surfaces|]. intros _. apply quiet_io. solve_quiet.
Qed.

Lemma single_header allow recover cnt : single fs_of_io (read_segment_header allow recover cnt).
Proof.
  unfold read_segment_header. apply single_quiet_l; [done|apply quiet_io; solve_quiet|solve_surfaces|intros _].
  apply single_quiet_l; [done|apply quiet_io; solve_quiet|solve_surfaces|intros len].
  destruct (len =? 0); [apply single_quiet; solve_quiet|]. destruct (len <? _).
  - destruct (allow && recover); [|apply single_quiet; solve_quiet].
    apply single_quiet_l; [done|solve_quiet|solve_surfaces|intros _]. apply single_cut.
  - apply single_quiet, quiet_io. solve_quiet.
Qed.

(** It returns that there are records only when it changed nothing. *)
Lemma header_true io io' allow recover cnt :
  read_segment_header allow recover cnt io = (Ok true, io') → fs_of_io io' = fs_of_io io.
Proof.
  intros E. assert (Hs := surfaces_header allow recover cnt io). rewrite E in Hs. destruct Hs as [?|Hs]; [done|].
  revert E. unfold read_segment_header. unfold mbind at 1, M_bind at 1.
  destruct (file_seek 0 io) as [[[]|] io1] eqn:E1; [|done]. pose proof (quiet_at _ _ _ _ _ (quiet_io _ (quiet_seek 0)) E1) as <-.
  unfold mbind at 1, M_bind at 1. destruct (file_len io1) as [[len|] io2] eqn:E2; [|done].
  pose proof (quiet_at _ _ _ _ _ (quiet_io _ quiet_len) E2) as <-. destruct (len =? 0); [by destruct allow|].
  destruct (len <? _).
  - destruct (allow && recover).
    + unfold mbind, M_bind. match goal with |- context [match ?x io2 with _ => _ end] => destruct (x io2) as [[[]|] io3] end; [|done].
      destruct (file_set_len 0 io3) as [[[]|] io4]; [|done]. by destruct (file_seek 0 io4) as [[[]|] io5].
    + destruct allow; [|done]. unfold mbind, M_bind. by destruct cnt.
  - intros E. refine (quiet_at fs_of_io _ _ _ _ _ E). apply quiet_io. solve_quiet.
Qed.

Lemma single_finish allow recover start len : single fs_of_io (finish_records allow recover start len).
Proof.
  unfold finish_records. destruct (_ =? _); [apply single_quiet, quiet_ret|].
  destruct allow; [|apply single_quiet, quiet_throw]. apply single_quiet_l; [done|solve_quiet|solve_surfaces|intros _].
  destruct recover; [|apply single_quiet, quiet_ret].
  apply single_quiet_r; [done|apply single_set_len|solve_surfaces|]. intros _. apply quiet_io. solve_quiet.
Qed.

Lemma surfaces_scan_frame : surfaces scan_record_frame.
Proof.
  unfold scan_record_frame. assert (Hc : ∀ fuel crc n, surfaces (scan_body_chunks fuel crc n)).
  { induction fuel as [|fuel IH]; intros crc n; cbn [scan_body_chunks]; solve_surfaces. }
  solve_surfaces.
Qed.
#[export] Hint Resolve surfaces_scan_frame : surfaces.

Lemma surfaces_scan_turn allow len : surfaces (scan_turn allow len).
Proof. unfold scan_turn. solve_surfaces. Qed.
#[export] Hint Resolve surfaces_scan_turn : surfaces.

Lemma scan_turn_goes_on allow len io io' : scan_turn allow len io = (Ok None, io') → fs_of_io io' = fs_of_io io.
Proof.
  unfold scan_turn, mbind, M_bind. destruct (file_stream_position io) as [[p|] io1] eqn:E1; [|done].
  rewrite <-(quiet_at _ _ _ _ _ (quiet_io _ quiet_stream_position) E1).
  destruct (scan_record_frame io1) as [[[[]|]|] io2] eqn:E2; [| |done].
  - intros [= <-]. exact (quiet_at _ _ _ _ _ quiet_scan_frame E2).
  - by destruct (finish_records _ _ _ _ io2) as [[[]|] io3].
Qed.

Lemma single_scan_turn allow len : single fs_of_io (scan_turn allow len).
Proof.
  unfold scan_turn. apply single_quiet_l; [done|apply quiet_io; solve_quiet|solve_surfaces|intros p].
  apply single_quiet_l; [done|apply quiet_scan_frame|solve_surfaces|intros [[]|]]; [apply single_quiet, quiet_ret|].
  apply single_quiet_r; [done|apply single_finish|solve_surfaces|intros _; apply quiet_ret].
Qed.

Lemma surfaces_scan_segment path allow : surfaces (scan_segment path allow).
Proof. unfold scan_segment. solve_surfaces. Qed.

Lemma single_with_file {A} f (m : M Io A) : single fs_of_io m → single fs_of_world (with_file f m).
Proof.
  intros Hm w. specialize (Hm (mkIo (w_fs w) (w_metrics w) f)). unfold with_file.
  change (mkIo (w_fs (clear w)) (w_metrics (clear w)) f) with (clear (mkIo (w_fs w) (w_metrics w) f)).
  destruct (m _) as [r io]. by destruct (m _) as [r' io'].
Qed.

Lemma single_scan_segment path allow : single fs_of_world (scan_segment path allow).
Proof.
  unfold scan_segment. apply single_quiet_l; [done|apply quiet_world; solve_quiet|solve_surfaces|intros file].
  apply single_with_file. apply single_bind; [done|apply single_header|solve_surfaces| |].
  - intros header. destruct (negb header); [apply single_quiet, quiet_ret|].
    apply single_quiet_l; [done|apply quiet_io; solve_quiet|solve_surfaces|intros len].
    apply single_loop; [done|apply single_scan_turn|solve_surfaces|]. apply scan_turn_goes_on.
  - intros io [|] io' E; [left; by eapply header_true|right]. apply quiet_ret.
Qed.

(** A sealed segment is only read. *)
Lemma quiet_header_sealed cnt recover : quiet io_view (read_segment_header false recover cnt).
Proof. unfold read_segment_header, io_count. cbn [andb]. solve_quiet. Qed.

Lemma quiet_scan_sealed path : quiet fs_of_world (scan_segment path false).
Proof.
  unfold scan_segment. apply quiet_bind; [apply quiet_world; solve_quiet|intros file]. apply quiet_with_file.
  apply quiet_bind; [apply quiet_io, quiet_header_sealed|intros header]. destruct (negb header); [apply quiet_ret|].
  apply quiet_bind; [apply quiet_io, quiet_len|intros len].
  assert (Ht : quiet fs_of_io (scan_turn false len)).
  { unfold scan_turn. apply quiet_bind; [apply quiet_io, quiet_stream_position|intros p].
    apply quiet_bind; [apply quiet_scan_frame|intros [[]|]]; [apply quiet_ret|]. unfold finish_records. solve_quiet. }
  generalize (record_loop_fuel len). intros fuel. induction fuel as [|fuel IH]; [apply quiet_throw|].
  cbn [loop_fuel]. apply quiet_bind; [done|]. intros [[]|]; [apply quiet_ret|done].
Qed.

(** ** The assertion *)

Section keeping.
Context (Q : list (RecordPosition * list byte) → option (list byte) → option (list byte) → Prop).

(** Any stop is recovered from as [Q] says. *)
Definition recoverable (fs : Fs) : Prop := tidy fs ∧ opens_as Q fs.

Lemma recoverable_same fs fs' : recoverable fs → clear fs' = clear fs → recoverable fs'.
Proof.
  intros [Ht Ho] E. assert (fs' = set_faults (fs_faults fs') fs) as ->.
  { transitivity (set_faults (fs_faults fs') (clear fs')); [by destruct fs'|by rewrite E]. }
  split; [by apply (invariant_stable tidy)|by apply opens_as_faults].
Qed.

Lemma recoverable_locks k fs : recoverable (set_locks k fs) ↔ recoverable fs.
Proof. unfold recoverable. rewrite opens_as_locks. split; intros [Ht Ho]; (split; [|done]); by eapply tidy_same. Qed.

Lemma keeps_quiet {A} (m : M World A) : quiet fs_of_world m → keeps (λ w, recoverable (w_fs w)) m.
Proof.
  intros Hm w Hw. specialize (Hm _ w eq_refl). destruct (m w) as [r w']. eapply recoverable_same; [exact Hw|exact Hm].
Qed.

(** The segment that opening appends to. *)
Definition active_of (fs : Fs) : SegmentName :=
  match list.last (segments_of fs) with Some p => path_name p | None => first_append end.

Lemma segments_are_active fs active sealed d bodies : segments_are fs active sealed d bodies → active = active_of fs.
Proof.
  intros [Hs Ha _|paths segs i d0 b0 Hs _ _ _ _]; unfold active_of; rewrite Hs; [done|]. by rewrite last_snoc.
Qed.

(** The directory at hand. *)
Lemma recoverable_now fs :
  recoverable fs → root_ready fs ∧ fs_wf fs ∧ not_other fs WRITE_LOCK_FILE_NAME ∧
    ∃ sealed d bodies, segments_are fs (active_of fs) sealed d bodies.
Proof.
  intros [_ Ho]. destruct (opens_as_now Q fs Ho) as (l & reg & idx & (Hr & Hwf & Hn & (sealed & active & d & bodies & Hs & _) & _) & _).
  split; [done|]. split; [done|]. split; [by apply Hn; right|]. pose proof (segments_are_active _ _ _ _ _ Hs) as <-.
  by exists sealed, d, bodies.
Qed.

Lemma segments_are_clear fs active sealed d bodies :
  segments_are fs active sealed d bodies → segments_are (clear fs) active sealed d bodies.
Proof. intros [Hs Ha Hn|paths segs i d0 b0 Hs Hh Hid Hf Ht]; [by constructor|by eapply some_segments]. Qed.

(** ** Recovery *)

Lemma cut_to_entries i d fs fs' : cut_to i d fs fs' → fs_entries fs' = fs_entries fs ∧ fs_root fs' = fs_root fs.
Proof. intros [[-> _]| ->]; done. Qed.

(** The state between the steps of opening. *)
Definition between_steps (active : SegmentName) (w : World) : Prop :=
  recoverable (w_fs w) ∧ fs_root (w_fs w) = RootDir ∧ active = active_of (w_fs w).

Lemma between_steps_same active w w' :
  between_steps active w → fs_of_world w' = fs_of_world w → between_steps active w'.
Proof.
  intros (Hw & Hr & Ha) E. split; [by eapply recoverable_same|]. unfold active_of, segments_of.
  change (fs_root (w_fs w')) with (fs_root (fs_of_world w')). change (fs_entries (w_fs w')) with (fs_entries (fs_of_world w')).
  by rewrite E.
Qed.

Lemma keeps_steps_quiet {A} active (m : M World A) : quiet fs_of_world m → keeps (between_steps active) m.
Proof. intros Hm w Hw. specialize (Hm _ w eq_refl). destruct (m w) as [r w']. by eapply between_steps_same. Qed.

Lemma scan_active_keeps active p w :
  between_steps active w → p ∈ segments_of (w_fs w) → path_name p = active →
  let w' := (scan_segment (path_file p) true w).2 in
  between_steps active w' ∧ fs_entries (w_fs w') = fs_entries (w_fs w).
Proof.
  intros (Hw & Hr & Ha) Hp Hpn. destruct (recoverable_now _ Hw) as (_ & Hwf & _ & sealed & d & bodies & Hs).
  destruct (single_scan_segment (path_file p) true w) as [E|E].
  { split; [by eapply between_steps_same|exact (f_equal fs_entries E)]. }
  rewrite <-Ha in Hs. destruct Hs as [Hs _ _|paths segs i d0 b0 Hs _ Hid Hf Ht]; [by rewrite Hs in Hp; apply elem_of_nil in Hp|].
  assert (path_file p = file_name active) as Hpf by (apply elem_of_segments_of in Hp as [-> _]; by rewrite Hpn).
  rewrite Hpf in E |- *. pose proof Hf as (_ & He & Hd).
  destruct (scan_active_run (clear (w_fs w)) (w_metrics w) (file_name active) i d0 b0 ltac:(done) Hf Ht)
    as (fs2 & m2 & Hrun & Hcut & _).
  change (clear w) with (mkWorld (clear (w_fs w)) (w_metrics w)) in E. rewrite Hrun in E.
  destruct (scan_segment (file_name active) true w) as [r w']. cbn [snd] in *.
  assert (Hw2 : recoverable fs2).
  { destruct Hw as [Htidy Ho]. apply (opens_as_faults Q []) in Ho. destruct Hcut as [[-> _]| ->]; [by split; [apply (invariant_stable tidy)|]|].
    split; [by apply (tidy_same (w_fs w))|].
    apply (opens_as_update _ _ (file_name active)); [exact Ho|by apply (invariant_stable tidy)| |exact He|].
    - exists active. by apply parse_file_name_print.
    - intros c Hc. change (data_of i (clear (w_fs w))) with (data_of i (w_fs w)) in *. rewrite Hd in *. by eapply harmless_cut. }
  destruct (cut_to_entries _ _ _ _ Hcut) as [He2 Hr2].
  split; [|exact (eq_trans (f_equal fs_entries E) He2)].
  eapply (between_steps_same _ (mkWorld fs2 m2)); [|exact E]. split; [done|]. cbn [w_fs]. split; [by rewrite Hr2|].
  unfold active_of, segments_of. by rewrite He2.
Qed.

Lemma recovery_loop_keeps active fs paths w :
  (∀ p, p ∈ paths → p ∈ segments_of fs) → fs_entries (w_fs w) = fs_entries fs → between_steps active w →
  between_steps active (for_each paths (λ segment, let allow_partial := bool_decide (path_name segment = active) in
    scan_segment (path_file segment) allow_partial) w).2.
Proof.
  revert w. induction paths as [|p paths IH]; intros w Hin He Hw; [done|]. cbn [for_each]. cbv zeta.
  set (scan := scan_segment (path_file p) (bool_decide (path_name p = active))).
  assert (Hscan : between_steps active (scan w).2 ∧ fs_entries (w_fs (scan w).2) = fs_entries fs).
  { unfold scan. case_bool_decide as Hp.
    - rewrite <-He. apply scan_active_keeps; [done| |done]. unfold segments_of. rewrite He. apply Hin. by left.
    - pose proof (quiet_scan_sealed (path_file p) _ w eq_refl) as Hq. cbv beta in Hq.
      destruct (scan_segment (path_file p) false w) as [r w']. cbn [snd]. split; [by eapply between_steps_same|].
      rewrite <-He. exact (f_equal fs_entries Hq). }
  unfold mbind, M_bind. destruct (scan w) as [[[]|e] w'], Hscan as [H1 H2]; [|done].
  apply (IH w'); [intros q Hq; apply Hin; by right|done|done].
Qed.

Lemma recover_storage_dir_keeps active : keeps (between_steps active) (recover_storage_dir active).
Proof.
  intros [fs m] Hw. unfold recover_storage_dir. pose proof Hw as (_ & Hr & _).
  assert (Hfaults : ∀ f, between_steps active (mkWorld (set_faults f fs) m)) by (intros f; by eapply between_steps_same).
  destruct (discover_cases fs m Hr) as (f & [H|H]); [by rewrite (bind_err _ _ _ _ _ H)|].
  rewrite (bind_ok _ _ _ _ _ H).
  pose proof (recovery_loop_keeps active fs (segments_of fs) (mkWorld (set_faults f fs) m) ltac:(done) eq_refl (Hfaults f)) as Hl.
  by destruct (for_each _ _ _) as [r w'].
Qed.

(** ** Opening the writer *)

(** What a failure of opening the active segment may leave. *)
Definition header_written (name : string) (fs fs' : Fs) : Prop :=
  fs' = fs ∨ ∃ i k, fs_entries fs !! name = Some (EntryFile i) ∧ data_of i fs = [] ∧
    fs' = update_data i (takeN k SEGMENT_FORMAT_MAGIC) fs.

Lemma open_active_cases fs m name :
  fs_root fs = RootDir → not_other fs name → fs_wf fs →
  ∃ f fs1 fs', w_fs (open_active_segment_file name (mkWorld fs m)).2 = set_faults f fs' ∧
    (fs1 = fs ∨ fs_entries fs !! name = None ∧ fs1 = new_file name fs) ∧ header_written name fs1 fs'.
Proof using Type.
  intros Hr Ho Hwf. unfold open_active_segment_file.
  assert (Hopen : ∃ f, w_call (fs_open name open_active_options) (mkWorld fs m) = (Err fault_error, mkWorld (set_faults f fs) m) ∨
    ∃ i fs1, w_call (fs_open name open_active_options) (mkWorld fs m) = (Ok (mkFile i 0 true true), mkWorld (set_faults f fs1) m) ∧
      fs_entries fs1 !! name = Some (EntryFile i) ∧ (fs1 = fs ∨ fs_entries fs !! name = None ∧ fs1 = new_file name fs)).
  { unfold w_call, zoom, fs_open. cbn [w_fs]. set (op := in_dir _).
    destruct (call_cases op fs) as (f & [H|H]); exists f; rewrite H; [by left|right].
    unfold op, in_dir, mbind, M_bind, get_state. change (fs_root (set_faults f fs)) with (fs_root fs). rewrite Hr.
    change (fs_entries (set_faults f fs)) with (fs_entries fs). unfold not_other in Ho.
    destruct (fs_entries fs !! name) as [[i|]|] eqn:E; [|done|].
    - exists i, fs. by split; [|split; [|left]].
    - exists (fs_next_inode fs), (new_file name fs). split; [done|]. split; [|by right]. exact (lookup_insert_eq (fs_entries fs) _ _). }
  destruct Hopen as (f & [H|(i & fs1 & H & He & Hfs1)]).
  { rewrite (bind_err _ _ _ _ _ H). exists f, fs, fs. split; [done|]. split; by left. }
  rewrite (bind_ok _ _ _ _ _ H). set (fl := mkFile i 0 true true).
  set (body := len ← file_len; if len =? 0 then file_write_all SEGMENT_FORMAT_MAGIC else mret ()).
  destruct (body (mkIo (set_faults f fs1) m fl)) as [r io] eqn:Hbody.
  assert (Hio : ∃ g fs', io_fs io = set_faults g fs' ∧ header_written name fs1 fs').
  { revert Hbody. unfold body, file_len. unfold mbind at 1, M_bind at 1.
    destruct (io_skip_cases (set_faults f fs1) m fl) as (g & [Hs|Hs]).
    - rewrite (bind_err _ _ _ _ _ Hs). intros [= <- <-]. exists g, fs1. by split; [|left].
    - rewrite (bind_ok _ _ _ _ _ Hs). unfold mbind at 1, M_bind at 1, get_state. cbn [mret M_ret].
      set (len := lenN _). destruct (N.eqb_spec len 0) as [El|El].
      2:{ intros [= <- <-]. exists g, fs1. by split; [|left]. }
      assert (Hd : data_of i fs1 = []).
      { change len with (lenN (data_of i fs1)) in El. destruct (data_of i fs1); [done|]. rewrite lenN_cons in El. lia. }
      destruct (file_append_cases (set_faults g fs1) m fl SEGMENT_FORMAT_MAGIC eq_refl eq_refl) as (h & [(k & fl' & Hw)|Hw]);
        change (data_of (file_inode fl) (set_faults g fs1)) with (data_of i fs1) in Hw; rewrite Hd in Hw;
        intros E; cbn [modify set_io_file io_fs io_metrics io_file] in E.
      + assert (El0 : (Err fault_error, mkIo (set_faults h (update_data i (takeN k SEGMENT_FORMAT_MAGIC) fs1)) m fl') = (r, io)) by (rewrite <-E; exact (eq_sym Hw)).
        injection El0 as _ <-. eexists h, _. split; [reflexivity|]. right. by exists i, k.
      + assert (El0 : (Ok (), mkIo (set_faults h (update_data i SEGMENT_FORMAT_MAGIC fs1)) m (seek_to 4 fl)) = (r, io)) by (rewrite <-E; exact (eq_sym Hw)).
        injection El0 as _ <-. eexists h, _. split; [reflexivity|]. right. by exists i, 4. }
  destruct Hio as (g & fs' & Hio & Hh). exists g, fs1, fs'. split; [|done].
  assert (Hk : (with_file_kept fl body (mkWorld (set_faults f fs1) m)).2 = mkWorld (io_fs io) (io_metrics io))
    by by rewrite (with_file_kept_cases _ _ _ _ _ _ Hbody).
  unfold mbind at 1, M_bind at 1. fold body. fold fl. revert Hk. destruct (with_file_kept fl body _) as [[[]|e] w']; cbn [snd]; by intros ->.
Qed.

Lemma created_header fs name fs' :
  header_written name (new_file name fs) fs' →
  created fs fs' name ∧ ∀ c, leaves fs' (fs_next_inode fs) c → c `prefix_of` SEGMENT_FORMAT_MAGIC.
Proof using Type.
  set (i := fs_next_inode fs). set (fs1 := new_file name fs). intros Hh.
  assert (Hnew : inode_of i fs1 = mkInode [] []) by (unfold inode_of, fs1, new_file, i; cbn; by rewrite lookup_insert_eq).
  assert (Hother : ∀ j, j ≠ i → inode_of j fs1 = inode_of j fs).
  { intros j Hj. unfold inode_of, fs1, new_file. cbn. rewrite lookup_insert_ne; [done|]. by intros E; apply Hj. }
  assert (Hlook : ∀ j, fs_entries fs1 !! name = Some (EntryFile j) → j = i).
  { intros j. change (fs_entries fs1) with (<[name := EntryFile i]> (fs_entries fs)). rewrite lookup_insert_eq. congruence. }
  assert (Hleft : ∀ c, leaves fs1 i c → c = []) by (intros c; unfold leaves, data_of; by rewrite Hnew).
  split.
  - split.
    + by destruct Hh as [->|(j & k & _ & _ & ->)].
    + intros e He. assert (dir_versions fs' = <[name := EntryFile i]> (fs_entries fs) :: dir_versions fs) as E
        by by destruct Hh as [->|(j & k & _ & _ & ->)].
      rewrite E in He. apply elem_of_cons in He as [->|He]; [by right|by left].
    + by destruct Hh as [->|(j & k & _ & _ & ->)].
    + intros j c Hj. unfold leaves, data_of. destruct Hh as [->|(j' & k & ->%Hlook & _ & ->)].
      * by rewrite Hother.
      * rewrite inode_of_update by (by intros E; apply Hj). by rewrite Hother.
  - intros c. destruct Hh as [->|(j' & k & ->%Hlook & Hd & ->)]; [intros ->%Hleft; apply prefix_nil|].
    rewrite leaves_update, Hd. assert (Hk : takeN k SEGMENT_FORMAT_MAGIC `prefix_of` SEGMENT_FORMAT_MAGIC) by apply prefix_take.
    intros [->|[[[_ H]|[_ H]]|H]]; [done|by etrans|etrans; [exact H|apply prefix_nil]|].
    apply Hleft in H as ->. apply prefix_nil.
Qed.

Lemma open_active_keeps active w :
  between_steps active w → recoverable (w_fs (open_active_segment_file (file_name active) w).2).
Proof.
  destruct w as [fs m]. intros (Hw & Hr & Ha). set (name := file_name active). cbn [w_fs] in *.
  destruct (recoverable_now _ Hw) as (_ & Hwf & _ & sealed & d & bodies & Hs). rewrite <-Ha in Hs.
  assert (Hid : segment_id active < U64_LIMIT) by (destruct Hs as [_ -> _|]; done).
  assert (Hname : is_segment_name name) by (exists active; by apply parse_file_name_print).
  assert (Ho : not_other fs name).
  { unfold not_other. destruct Hs as [_ _ Ho|paths segs i d0 b0 _ _ _ (_ & He & _) _]; [exact Ho|]. unfold name. by rewrite He. }
  destruct (open_active_cases fs m name Hr Ho Hwf) as (f & fs1 & fs' & -> & Hfs1 & Hh).
  apply (recoverable_same fs'); [|done]. destruct Hw as [Ht Hop], Hfs1 as [->|[Hnone ->]].
  - destruct Hh as [->|(i & k & He & Hd & ->)]; [done|]. split; [by apply (tidy_same fs)|].
    apply (opens_as_update Q fs name); [done|done|done|done|]. rewrite Hd. intros c. apply harmless_header.
  - destruct (created_header fs name fs' Hh) as [Hcr Hmagic]. split.
    + pose proof (tidy_new_file name fs Ht) as Ht1. destruct Hh as [->|(i & k & _ & _ & ->)]; [done|by apply (tidy_same (new_file name fs))].
    + destruct Hs as [Hseg Hact _|paths segs i d0 b0 _ _ _ (_ & He & _) _]; [|unfold name in Hnone; congruence].
      apply (opens_as_first_segment fs fs' name Hcr); [done|done|done|done|by rewrite <-Hact|done|exact Hmagic].
Qed.

Lemma sync_dir_leaves fs :
  ∃ f, (fs_sync_dir fs).2 = set_faults f fs ∨ (fs_sync_dir fs).2 = set_faults f (sync_entries fs).
Proof using Type.
  unfold fs_sync_dir. destruct (call_cases (in_dir (mret ())) fs) as (f & [H|H]).
  { exists f. left. by rewrite (bind_err _ _ _ _ _ H). }
  unfold in_dir, mbind, M_bind, get_state in H. change (fs_root (set_faults f fs)) with (fs_root fs) in H.
  destruct (fs_root fs); [exists f; left; by rewrite (bind_err _ _ _ _ _ H)..|].
  rewrite (bind_ok _ _ _ _ _ H).
  destruct (call_cases (modify sync_entries) (set_faults f fs)) as (g & [H'|H']); exists g; rewrite H'; [by left|by right].
Qed.

Lemma keeps_recoverable_sync : keeps (λ w, recoverable (w_fs w)) sync_parent_dir.
Proof.
  intros [fs m] [Ht Ho]. cbn [w_fs] in *. unfold sync_parent_dir, w_call, zoom. cbn [w_fs].
  pose proof (tidies_sync_dir tidy fs Ht) as Ht'. destruct (sync_dir_leaves fs) as (f & [E|E]);
    destruct (fs_sync_dir fs) as [r fs']; cbn [snd] in E; subst fs'; cbn [w_fs]; (split; [exact Ht'|]);
    apply opens_as_faults; [done|by apply opens_as_sync].
Qed.

Lemma quiet_exists name : quiet world_view (w_call (fs_exists name)).
Proof using Type.
  apply quiet_w_call. unfold fs_exists. apply quiet_bind; [|solve_quiet]. intros c fs <-.
  destruct (take_fault_spec fs) as (o & f & ->). done.
Qed.

Lemma writer_open_keeps active max_len :
  hoare (between_steps active) (segment_writer_open active max_len) (λ _ w, recoverable (w_fs w)).
Proof.
  unfold segment_writer_open. cbv zeta. apply (hoare_bind _ _ (λ _, between_steps active)).
  { eapply hoare_consequence; [apply keeps_steps_quiet, quiet_world, quiet_exists|done|]. intros [] w Hw; [done|apply Hw]. }
  intros existed. apply (hoare_bind _ _ (λ _ w, recoverable (w_fs w))).
  { intros w Hw. pose proof (open_active_keeps active w Hw) as H. by destruct (open_active_segment_file _ w) as [[] w']. }
  intros file. apply keeps_bind; [destruct (negb existed); [apply keeps_recoverable_sync|apply keeps_ret]|intros _].
  apply keeps_quiet. apply quiet_bind.
  { unfold with_file_kept. apply quiet_with_file. unfold file_seek_end. apply quiet_io. solve_quiet. }
  intros r. solve_quiet.
Qed.

(** ** The directory and its lock *)

Lemma create_dir_keeps : keeps (λ w, recoverable (w_fs w)) create_dir_all_synced.
Proof.
  assert (Hroot : ∀ r b fs, recoverable fs → fs_root fs = r ∨ fs_root fs = RootMissing ∧ r = RootDir → recoverable (set_root r b fs)).
  { intros r b fs [Ht Ho] Hr. split; [by apply (tidy_same fs)|by apply opens_as_root]. }
  assert (Hst : stable recoverable) by (intros fs f H; by eapply recoverable_same).
  unfold create_dir_all_synced. apply keeps_bind.
  { apply keeps_quiet, quiet_world. unfold root_exists. apply quiet_w_call, quiet_bind; [|solve_quiet].
    intros c fs <-. destruct (take_fault_spec fs) as (o & f & ->). done. }
  intros existed. apply keeps_bind.
  - apply hoare_w_call, keeps_call; [done|]. intros fs Hw. unfold mbind, M_bind, get_state.
    destruct (fs_root fs) eqn:Hr; [|done|done]. apply Hroot; [done|by right].
  - intros _. destruct (negb existed); [|apply keeps_ret]. apply hoare_w_call. intros fs Hw. unfold mbind at 1, M_bind at 1, get_state.
    destruct (fs_has_parent fs); [|done]. revert fs Hw. apply keeps_bind; [apply keeps_call; [done|apply keeps_ret]|].
    intros _. apply keeps_call; [done|]. intros fs Hw. apply Hroot; [done|by left].
Qed.

Lemma lock_not_owned_name : ¬ owned_name WRITE_LOCK_FILE_NAME.
Proof using Type. intros H. by apply owned_not_lock in H. Qed.

Lemma write_lock_keeps :
  hoare (λ w, recoverable (w_fs w)) acquire_write_lock
    (λ r w, recoverable (w_fs w) ∧ (is_ok r = true → fs_root (w_fs w) = RootDir)).
Proof.
  assert (Hst : stable recoverable) by (intros fs f H; by eapply recoverable_same).
  unfold acquire_write_lock. apply (hoare_bind _ _ (λ _ w, recoverable (w_fs w) ∧ fs_root (w_fs w) = RootDir)).
  - assert (Hopen : hoare recoverable (fs_open WRITE_LOCK_FILE_NAME lock_options)
      (λ r fs, match r with Ok _ => recoverable fs ∧ fs_root fs = RootDir | Err _ => recoverable fs end)).
    { unfold fs_open. apply hoare_call; [done|done|]. intros fs Hw. unfold in_dir. unfold mbind at 1, M_bind at 1, get_state.
      destruct (fs_root fs) eqn:Hr; [done..|]. unfold mbind, M_bind, get_state.
      destruct (fs_entries fs !! WRITE_LOCK_FILE_NAME) as [[i|]|] eqn:E; [done|done|]. split; [|done].
      destruct Hw as [Ht Ho]. split; [exact (tidy_new_file WRITE_LOCK_FILE_NAME fs Ht)|].
      apply (opens_as_created fs _ WRITE_LOCK_FILE_NAME); [|done|exact Ho|done|apply lock_not_owned_name].
      apply created_header. by left. }
    intros w Hw. pose proof (hoare_w_call _ _ _ Hopen w Hw) as H.
    destruct (w_call (fs_open _ _) w) as [[f|e] w']; [done|by split].
  - intros f. apply (hoare_bind _ _ (λ _ w, recoverable (w_fs w) ∧ fs_root (w_fs w) = RootDir)).
    + apply hoare_try_catch. set (P := λ fs, recoverable fs ∧ fs_root fs = RootDir).
      apply (hoare_w_call P (fs_try_lock f) (λ _, P)). unfold fs_try_lock, P.
      apply hoare_call; [intros fs g [H Hr]; by split; [apply Hst|]|done|].
      intros fs [Hw Hr]. unfold mbind, M_bind, get_state. case_bool_decide; [done|]. split; [|done]. by apply recoverable_locks.
    + intros [u|e]; [by apply hoare_ret; intros w []|]. case_bool_decide; by apply hoare_throw; intros w [].
Qed.

(** ** Opening *)

Section engine.
Context `{NJ : Nojson} `{NR : Noraft}.

Lemma quiet_load_text path : quiet fs_of_world (load_text path).
Proof using Type.
  unfold load_text. apply quiet_bind.
  { apply quiet_world, quiet_try, quiet_w_call. unfold fs_open, open_read. cbn [opt_create opt_create_new opt_truncate orb].
    solve_quiet. }
  intros [f|e]; [|solve_quiet]. apply quiet_bind; [|solve_quiet]. apply quiet_with_file, quiet_io.
  unfold file_read_to_string. solve_quiet.
Qed.

Lemma quiet_registry_load : quiet fs_of_world registry_load.
Proof using Type. unfold registry_load. apply quiet_bind; [apply quiet_load_text|]. solve_quiet. Qed.

Lemma quiet_validate n p : quiet fs_of_world (validate_checkpoint_position n p).
Proof using Type.
  unfold validate_checkpoint_position, segment_file_exists. apply quiet_bind.
  { apply quiet_world. apply quiet_bind; [|solve_quiet]. apply quiet_try, quiet_w_call. unfold fs_is_file. solve_quiet. }
  intros ex. destruct (negb ex); [apply quiet_throw|]. apply quiet_bind.
  { apply quiet_world, quiet_w_call. unfold fs_open, open_read. cbn [opt_create opt_create_new opt_truncate orb]. solve_quiet. }
  intros f. apply quiet_with_file, quiet_io. apply quiet_bind; [apply quiet_header_sealed|]. solve_quiet.
Qed.

Lemma quiet_index_load E : quiet fs_of_world (index_load E).
Proof using Type.
  unfold index_load. apply quiet_bind; [apply quiet_load_text|]. intros [text|]; [|apply quiet_ret].
  destruct (json_parse text) as [j|]; [|apply quiet_throw]. destruct (parse_checkpoint_index _); [|apply quiet_throw].
  apply quiet_bind; [|solve_quiet]. apply quiet_for_each. intros [n y]. apply quiet_validate.
Qed.

Lemma select_active_keeps :
  hoare (λ w, recoverable (w_fs w) ∧ fs_root (w_fs w) = RootDir) select_active_append_segment
    (λ r w, match r with Ok active => between_steps active w | Err _ => recoverable (w_fs w) end).
Proof.
  intros [fs m] [Hw Hr]. cbn [w_fs] in *. destruct (recoverable_now fs Hw) as (_ & _ & _ & sealed & d & bodies & Hs).
  assert (Hq : quiet fs_of_world select_active_append_segment).
  { apply quiet_world. unfold select_active_append_segment. solve_quiet. }
  pose proof (surfaces_select (mkWorld fs m)) as Hsf.
  destruct (select_active_append_segment (mkWorld fs m)) as [[a|e] w'] eqn:E; apply (quiet_at _ _ _ _ _ Hq) in E.
  - destruct Hsf as [|Hsf]; [done|]. change (clear (mkWorld fs m)) with (mkWorld (clear fs) m) in Hsf.
    rewrite (select_active_run (clear fs) m (active_of fs) sealed d bodies) in Hsf by (done || by apply segments_are_clear).
    injection Hsf as <- _. by eapply (between_steps_same _ (mkWorld fs m)).
  - by eapply (recoverable_same fs).
Qed.

Lemma hoare_release {A} (P : World → Prop) f (m : M World A) :
  hoare P m (λ _ w, recoverable (w_fs w)) → hoare P (release_on_error f m) (λ _ w, recoverable (w_fs w)).
Proof.
  intros Hm w Hw. specialize (Hm w Hw). unfold release_on_error. destruct (m w) as [[a|e] w']; [done|].
  by apply recoverable_locks.
Qed.

(** Opening, with any outcomes of its calls. *)
Lemma open_keeps max_len : keeps (λ w, recoverable (w_fs w)) (with_max_segment_len max_len).
Proof.
  unfold with_max_segment_len. destruct (_ =? 0); [apply keeps_throw|].
  apply keeps_bind; [apply create_dir_keeps|intros _].
  apply (hoare_bind _ _ (λ _ w, recoverable (w_fs w) ∧ fs_root (w_fs w) = RootDir)).
  { eapply hoare_consequence; [apply write_lock_keeps|done|]. intros [f|e] w [H1 H2]; [by split; [|apply H2]|done]. }
  intros f. apply hoare_release. apply (hoare_bind _ _ between_steps); [apply select_active_keeps|intros active].
  assert (Hstep : ∀ {A B} (m : M World A) (k : A → M World B), quiet fs_of_world m ∨ keeps (between_steps active) m →
    (∀ a, hoare (between_steps active) (k a) (λ _ w, recoverable (w_fs w))) →
    hoare (between_steps active) (m ≫= k) (λ _ w, recoverable (w_fs w))).
  { intros A B m k Hm Hk. apply (hoare_bind _ _ (λ _, between_steps active)); [|exact Hk].
    assert (Hm' : keeps (between_steps active) m) by (destruct Hm as [Hm|Hm]; [by apply keeps_steps_quiet|exact Hm]).
    eapply hoare_consequence; [exact Hm'|done|]. intros [a|e] w Hw; [exact Hw|apply Hw]. }
  apply Hstep; [left; apply quiet_w_count|intros _]. apply Hstep; [right; apply recover_storage_dir_keeps|intros _].
  apply Hstep; [left; apply quiet_registry_load|intros E]. apply Hstep; [left; apply quiet_index_load|intros x].
  do 2 (apply Hstep; [left; apply quiet_w_count|intros _]).
  apply (hoare_bind _ _ (λ _ w, recoverable (w_fs w))); [|intros w; by apply hoare_ret].
  eapply hoare_consequence; [apply writer_open_keeps|done|]. by intros [].
Qed.
End engine.
End keeping.
