(* ===== verification/Restarts.v ===== *)
(** * Restarts

    After a stop the directory is opened again; the opening may be interrupted
    too, by a failure, the death of the process or a crash of the system, and
    this may happen any number of times. *)
From Stdlib Require Import Strings.Byte Strings.String.
From S2P Require Import Prelude Metrics Fs Text Json Noraft State Crc32c Codec Format Frame.
From S2P Require Import Segment Replay Registry Checkpoint Engine Recovery RecoveryCorrect.
From S2P Require Import ReplayCorrect WriterCorrect MetadataCorrect MetadataFaults EngineCorrect.
From S2P Require Import NodeCorrect EngineSpec AsyncStore LoadCorrect OpenCorrect Faults Durability.
From S2P Require Import Surface DurableWriter DurableMetadata DurableGc Tidy Reads DurableEngine Reopen OpenSteps Interrupted.

(** The process dies, or the system crashes. *)
Definition halted (fs fs' : Fs) : Prop := crash fs fs' ∨ ∃ f, fs' = set_locks ∅ (set_faults f fs).

Lemma halted_stopped fs fs' : halted fs fs' → stopped fs fs'.
Proof. intros [H|[f ->]]; [by apply crash_stopped|apply death_stopped]. Qed.

(** A stop of a stopped directory. *)
Lemma halted_again fs fs1 fs2 : halted fs fs1 → stopped fs1 fs2 → stopped fs fs2.
Proof.
  intros [Hc|[f ->]] H2; [|exact H2]. pose proof (crash_settled _ _ Hc) as [Hu Hi].
  pose proof (crash_stopped _ _ Hc) as (Hr & Hn & He & Hd). destruct H2 as (Hr2 & Hn2 & He2 & Hd2).
  split; [congruence|]. split; [congruence|]. split.
  - unfold dir_versions in He2. rewrite Hu in He2. apply elem_of_cons in He2 as [->|He2%elem_of_nil]; done.
  - intros j. specialize (Hd2 j). apply leaves_synced in Hd2; [|apply Hi]. rewrite Hd2. apply Hd.
Qed.

Lemma halted_tidy fs fs' : tidy fs → halted fs fs' → tidy fs'.
Proof.
  intros Ht [(_ & He & Hu & _ & Hn & _)|[f ->]]; [|by apply (tidy_same fs)].
  apply (tidy_subset fs); [done| |by rewrite Hn]. unfold dir_versions at 1. rewrite Hu.
  intros e [->|H%elem_of_nil]%elem_of_cons; done.
Qed.

Lemma halted_recoverable Q fs fs' : recoverable Q fs → halted fs fs' → recoverable Q fs'.
Proof.
  intros [Ht Ho] Hh. split; [by eapply halted_tidy|]. eapply opens_as_subset; [exact Ho|].
  intros fs2. by apply halted_again.
Qed.

Section restarts.
Context `{NJ : Nojson} `{NR : Noraft}.

(** Any number of openings, each stopped during it or after it returned. *)
Inductive restarts : Fs → Fs → Prop :=
  | no_restart fs : restarts fs fs
  | restart fs m max_len fs1 fs2 :
      halted (w_fs (with_max_segment_len max_len (mkWorld fs m)).2) fs1 → restarts fs1 fs2 → restarts fs fs2.

Lemma restarts_recoverable Q fs fs' : recoverable Q fs → restarts fs fs' → recoverable Q fs'.
Proof.
  intros Hw H. induction H as [fs|fs m max_len fs1 fs2 Hh _ IH]; [done|]. apply IH.
  pose proof (open_keeps Q max_len (mkWorld fs m) Hw) as Hk.
  destruct (with_max_segment_len max_len (mkWorld fs m)) as [r w]. by eapply halted_recoverable.
Qed.
End restarts.

(** A settled directory is found by a stop as it is. *)
Lemma settled_recoverable fs l reg idx :
  settled fs → tidy fs → can_open fs l reg idx → recoverable (λ l' reg' idx', l' = l ∧ reg' = reg ∧ idx' = idx) fs.
Proof.
  intros [Hu Hi] Ht Hc. split; [done|]. intros fs' (Hr & Hn & He & Hd). exists l, reg, idx. split; [|done].
  unfold dir_versions in He. rewrite Hu in He. apply elem_of_cons in He as [He|He%elem_of_nil]; [|done].
  pose proof Hc as (Hroot & Hwf & Hnames & _).
  apply (like_can_open fs fs'); [|unfold root_ready; by rewrite Hr, He| | | |exact Hc].
  - split; [by rewrite He|]. intros name j _ _. left. by apply leaves_synced.
  - unfold fs_wf. by rewrite He, Hn.
  - specialize (Hnames _ (or_intror eq_refl)). unfold not_other in *. by rewrite He.
  - rewrite Hr. by destruct Hroot as [?|[_ ?]]; [left|right].
Qed.

Lemma recoverable_mono (Q Q' : list (RecordPosition * list byte) → option (list byte) → option (list byte) → Prop) fs :
  recoverable Q fs → (∀ l r x, Q l r x → Q' l r x) → recoverable Q' fs.
Proof. intros [Ht Ho] HQ. split; [done|]. intros fs' Hs. destruct (Ho fs' Hs) as (l & r & x & Hc & H). eauto 10. Qed.

(** A new directory. *)
Lemma new_tidy fs : fs_wf fs → settled fs → tidy fs.
Proof.
  intros [Hinj Hb] [Hu _]. assert (Hv : ∀ e, e ∈ dir_versions fs → e = fs_entries fs).
  { unfold dir_versions. rewrite Hu. by intros e [->|H%elem_of_nil]%elem_of_cons. }
  split.
  - intros e name j ->%Hv. apply Hb.
  - intros e e' a b j ->%Hv ->%Hv _ Ha Hb'. by eapply Hinj.
Qed.
