(* ===== verification/CrashRecovery.v ===== *)
(** * Crash recovery

    Operations run on an engine until a call of the operating system fails or
    the process or the system stops.  Whenever that happens, also between two
    calls of an operation, opening the directory again gives an engine with the
    durable records and a prefix of the pending ones. *)
From Stdlib Require Import Strings.Byte Strings.String.
From S2P Require Import Prelude Metrics Fs Text Json Noraft State Crc32c Codec Format Frame.
From S2P Require Import Segment Replay Registry Checkpoint Engine Recovery RecoveryCorrect.
From S2P Require Import ReplayCorrect WriterCorrect MetadataCorrect MetadataFaults EngineCorrect.
From S2P Require Import NodeCorrect EngineSpec AsyncStore LoadCorrect OpenCorrect Faults Durability.
From S2P Require Import Surface DurableWriter DurableMetadata DurableGc Tidy Reads DurableEngine Reopen DurableOps.
From S2P Require Import OpenSteps Interrupted Restarts.
From S2P Require Import EngineTheorems JsonExample EngineExample.

Section recovery.
Context `{NJL : NojsonLaws} `{NL : NoraftLaws}.

(** ** Runs *)

(** The operations in order, until a call of the operating system fails. *)
Definition failed {R} (r : result R) : bool :=
  match r with Err e => bool_decide (e = fault_error) | Ok _ => false end.

Fixpoint run_ops (ops : list Op) (s : EngineState) : list (Op * result Reply) * EngineState :=
  match ops with
  | [] => ([], s)
  | op :: ops =>
      let '(r, s1) := exec op s in
      if failed r then ([(op, r)], s1)
      else let '(tr, s2) := run_ops ops s1 in ((op, r) :: tr, s2)
  end.

(** What may be found after a run from [A] with these replies: the operations
    that returned are those of the abstract store, the one that failed has
    happened or not, and records that were not synced may be lost from the end. *)
Inductive crash_run : AsyncStore → list (Op * result Reply) → gmap N NodeSpec → Prop :=
  | run_stopped A σ : crash_outcome A σ → crash_run A [] σ
  | run_done A op rep tr σ :
      spec_step (async_view A) op (Ok rep) (async_view (async_apply op A)) →
      crash_run (async_apply op A) tr σ → crash_run A ((op, Ok rep) :: tr) σ
  | run_rejected A op e tr σ :
      spec_step (async_view A) op (Err e) (async_view A) → crash_run A tr σ → crash_run A ((op, Err e) :: tr) σ
  | run_failed A op σ :
      crash_outcome A σ ∨ crash_outcome (async_apply op A) σ → crash_run A [(op, Err fault_error)] σ.

Lemma crash_run_flushed A A' tr σ : crash_run A' tr σ → flushed A A' → crash_run A tr σ.
Proof.
  intros H. revert A. induction H as [A' σ H|A' op rep tr σ Hs Hr IH|A' op e tr σ Hs Hr IH|A' op σ H]; intros A Hf.
  - apply run_stopped. by eapply flushed_outcome.
  - apply (run_done A op rep); [|apply IH; by apply flushed_apply].
    by rewrite <-(flushed_view _ _ Hf), <-(flushed_view _ _ (flushed_apply op _ _ Hf)).
  - apply run_rejected; [|by apply IH]. by rewrite <-(flushed_view _ _ Hf).
  - apply run_failed. destruct H as [H|H]; [left|right]; (eapply flushed_outcome; [|exact H]); [done|by apply flushed_apply].
Qed.

Lemma spec_step_error σ op e σ' : spec_step σ op (Err e) σ' → σ' = σ.
Proof.
  assert (Hsave : ∀ n r, spec_save n r σ (Err e) σ' → σ' = σ) by (intros n r H; by inversion H).
  intros H. inversion H; subst; eauto.
Qed.

(** One operation, in the store that operations see. *)
Lemma exec_view s A op :
  durable s A → op_fit op → active_id s + 1 < U64_LIMIT →
  let '(r, s') := exec op s in
  failed r = false →
  (∃ σ', spec_step (async_view A) op r σ') ∧ active_id s' ≤ active_id s + 1.
Proof.
  intros Hd Hfit Hid. pose proof (surfaces_exec op s) as Hs.
  pose proof (exec_simulates op (clear s) (async_view A) (durable_refines s A Hd)) as Hsim.
  destruct (exec op s) as [r s']. intros Hr. destruct Hs as [->|Hs].
  { unfold failed in Hr. by rewrite bool_decide_eq_true_2 in Hr. }
  specialize (Hsim Hfit Hid). unfold simulates in Hsim. rewrite Hs in Hsim.
  destruct Hsim as (σ' & Hstep & _ & Hact). split; [by exists σ'|exact Hact].
Qed.

Lemma run_crash ops s A :
  durable s A → Forall op_fit ops → active_id s + lenN ops < U64_LIMIT →
  let '(tr, s') := run_ops ops s in stores (w_fs (es_world s')) (crash_run A tr).
Proof.
  revert s A. induction ops as [|op ops IH]; intros s A Hd Hfit Hid; cbn [run_ops].
  { eapply stores_mono; [by apply durable_crashes|]. apply run_stopped. }
  rewrite lenN_cons in Hid. apply list.Forall_cons in Hfit as [Hop Hfit].
  pose proof (exec_view s A op Hd Hop ltac:(lia)) as Hv. pose proof (exec_durable s A Hd ltac:(lia) op Hop) as Ho.
  destruct (exec op s) as [r s1]. destruct (failed r) eqn:Ef.
  - destruct r as [rep|e]; [done|]. apply bool_decide_eq_true in Ef as ->.
    destruct Ho as [(e & [= <-] & _ & H)|H].
    + eapply stores_mono; [exact H|]. apply run_failed.
    + eapply stores_mono; [by apply durable_crashes|]. intros σ H'. apply run_failed. by left.
  - destruct (Hv eq_refl) as [[σ' Hstep] Hact]. destruct Ho as [(e & -> & -> & _)|H].
    { unfold failed in Ef. by rewrite bool_decide_eq_true_2 in Ef. }
    destruct r as [rep|e].
    + destruct H as (A' & Hfl & Hd'). pose proof (async_apply_view op A rep σ' Hstep) as <-.
      specialize (IH s1 A' Hd' Hfit ltac:(lia)). destruct (run_ops ops s1) as [tr s2].
      eapply stores_mono; [exact IH|]. intros σ Hr. apply (run_done A op rep); [done|]. by eapply crash_run_flushed.
    + pose proof (spec_step_error _ _ _ _ Hstep) as ->.
      specialize (IH s1 A H Hfit ltac:(lia)). destruct (run_ops ops s1) as [tr s2].
      eapply stores_mono; [exact IH|]. intros σ Hr. by apply run_rejected.
Qed.

Lemma durable_tidy s A : durable s A → tidy (w_fs (es_world s)).
Proof.
  intros (_ & x & dlog & plog & [(L & D & reg & idx & [(sealed & bodies & durable & [Hs _ _] & _) _ _ _] & _) _ _ _] & _).
  by eapply tidy_disk_safe.
Qed.

(** A run keeps what every call keeps. *)
Lemma run_invariant (I : Fs → Prop) `{!FileInvariant I} ops s :
  I (w_fs (es_world s)) → I (w_fs (es_world (run_ops ops s).2)).
Proof.
  revert s. induction ops as [|op ops IH]; intros s Ht; [done|]. cbn [run_ops].
  pose proof (tidies_exec I op s Ht) as Ho. destruct (exec op s) as [r s1]. destruct (failed r); [done|].
  specialize (IH s1 Ho). by destruct (run_ops ops s1) as [tr s2].
Qed.

(** What a run leaves is recovered, also when recovery is interrupted. *)
Lemma run_recoverable ops s A :
  durable s A → Forall op_fit ops → active_id s + lenN ops < U64_LIMIT →
  let '(tr, s') := run_ops ops s in
  recoverable (λ l reg idx, ∃ σ, crash_run A tr σ ∧ disk_store l reg idx σ) (w_fs (es_world s')).
Proof.
  intros Hd Hfit Hid. pose proof (run_crash ops s A Hd Hfit Hid) as Hc. pose proof (run_invariant tidy ops s (durable_tidy s A Hd)) as Ht.
  destruct (run_ops ops s) as [tr s']. split; [exact Ht|]. intros fs Hs.
  destruct (Hc fs Hs) as (l & reg & idx & Hh%holds_log_can_open & H). by exists l, reg, idx.
Qed.

(** The directory is opened, when nothing fails. *)
Lemma recovered_opens P fs m max_len :
  recoverable (λ l reg idx, ∃ σ, P σ ∧ disk_store l reg idx σ) fs → max_len ≠ 0 → no_faults fs → fs_locks fs = ∅ →
  ∃ w e σ, with_max_segment_len max_len (mkWorld fs m) = (Ok e, w) ∧
    P σ ∧ refines (mkEngineState w e) (trimmed σ) ∧
    (settled fs → durable (mkEngineState w e) (mkAsyncStore (trimmed σ) [])).
Proof.
  intros [_ Ho] Hmax Hnf Hl. destruct (opens_as_now _ _ Ho) as (l & reg & idx & Hc & σ & HP & Hst).
  destruct (reopen fs m max_len l reg idx σ Hmax Hnf Hl Hc Hst) as (w & e & Hrun & Href).
  exists w, e, σ. split; [done|]. split; [done|]. split; [done|]. intros Hset. by eapply reopen_durable.
Qed.

(** [C2] Crash recovery.  Operations run on an engine whose directory holds
    [A], with any outcomes of the calls, until one fails; then, or when all have
    returned, the process dies or the system crashes.  The directory is opened
    again; any number of openings may fail at any call, or be stopped, and then
    be followed by the next one.  The first opening whose calls all proceed
    succeeds, and the engine implements a store that the abstract run allows:
    every operation that returned did what it says and gave the reply of the
    abstract store, the failed one has happened or has not, and only records
    saved after the last sync may be missing, from the end.  When the last stop
    was a crash of the system, what is left is durable, so that the next run
    starts from it.  (The metadata of nodes comes back without surrounding white
    space.) *)
Theorem crash_recovery ops s A max_len :
  durable s A → Forall op_fit ops → active_id s + lenN ops < U64_LIMIT → max_len ≠ 0 →
  let '(tr, s') := run_ops ops s in
  ∀ fs0 fs m, halted (w_fs (es_world s')) fs0 → restarts fs0 fs → no_faults fs → fs_locks fs = ∅ →
  ∃ w e σ, with_max_segment_len max_len (mkWorld fs m) = (Ok e, w) ∧
    crash_run A tr σ ∧ refines (mkEngineState w e) (trimmed σ) ∧
    (settled fs → durable (mkEngineState w e) (mkAsyncStore (trimmed σ) [])).
Proof.
  intros Hd Hfit Hid Hmax. pose proof (run_recoverable ops s A Hd Hfit Hid) as H.
  destruct (run_ops ops s) as [tr s']. intros fs0 fs m Hh Hr Hnf Hl. apply (recovered_opens (crash_run A tr)); try done.
  eapply restarts_recoverable; [|exact Hr]. by eapply halted_recoverable.
Qed.

(** The name of the directory in its parent is synced, if there is a parent to
    sync, once the directory has been opened. *)
Definition named_by_opening (fs : Fs) : bool :=
  match fs_root fs with RootMissing => fs_has_parent fs | _ => fs_root_synced fs end.

(** A crash of the system that may also take the directory itself: as long as
    its name has not been synced in its parent, nothing may be left of it. *)
Definition crash_with_name (fs fs' : Fs) : Prop :=
  crash fs fs' ∨
  fs_root fs = RootDir ∧ fs_root_synced fs = false ∧
  fs_root fs' = RootMissing ∧ fs_entries fs' = ∅ ∧ fs_entries_unsynced fs' = [] ∧ fs_locks fs' = ∅.

(** The engine with the outcomes that the calls to come will have. *)
Definition facing (outcomes : list (option N)) (w : World) (e : StorageEngine) : EngineState :=
  mkEngineState (mkWorld (set_faults outcomes (w_fs w)) (w_metrics w)) e.

Lemma synced_name_crash fs fs' : fs_root_synced fs = true → crash_with_name fs fs' → crash fs fs'.
Proof. intros Hs [H|(_ & Hn & _)]; [done|congruence]. Qed.

(** [C5] A new storage directory, missing or without files of the engine, is
    opened as an empty store that is durable.  When opening created the
    directory, its name is synced in its parent exactly if its path names a
    parent; and once the name is synced, by opening or before, whatever
    operations run and however their calls turn out, a crash that could have
    taken the whole directory along leaves the directory ([crash]), so that
    crash recovery applies to it. *)
Theorem new_directory_is_durable fs m max_len :
  settled fs → no_faults fs → fs_locks fs = ∅ → max_len ≠ 0 →
  root_ready fs → fs_wf fs → (∀ name, owned_name name → fs_entries fs !! name = None) →
  not_other fs WRITE_LOCK_FILE_NAME →
  let '(r, w) := with_max_segment_len max_len (mkWorld fs m) in
  ∃ e, r = Ok e ∧ refines (mkEngineState w e) ∅ ∧ durable (mkEngineState w e) (mkAsyncStore ∅ []) ∧
    fs_root_synced (w_fs w) = named_by_opening fs ∧
    (named_by_opening fs = true → ∀ ops outcomes fs',
       let '(_, s') := run_ops ops (facing outcomes w e) in
       crash_with_name (w_fs (es_world s')) fs' → crash (w_fs (es_world s')) fs').
Proof.
  intros Hset Hnf Hl Hmax Hr Hwf Hn Hlock. pose proof (new_can_open fs Hr Hwf Hn Hlock) as Hc.
  destruct (reopen fs m max_len [] None None ∅ Hmax Hnf Hl Hc new_disk_store) as (w & e & Hrun & Href).
  pose proof (reopen_root_synced _ _ _ _ _ _ _ _ _ Hmax Hnf Hl Hc new_disk_store Hrun) as Hs.
  rewrite Hrun. exists e. split; [done|]. split; [exact Href|].
  split; [exact (reopen_durable _ _ _ _ _ _ _ _ _ Hmax Hset Hnf Hl Hc new_disk_store Hrun)|].
  split; [exact Hs|]. intros Hnamed ops outcomes fs'. change (root_synced_after fs) with (named_by_opening fs) in Hs.
  pose proof (run_invariant (placed (place (w_fs w))) ops (facing outcomes w e) eq_refl) as Hp.
  destruct (run_ops ops (facing outcomes w e)) as [tr s']. apply synced_name_crash.
  injection Hp as _ _ Hp. cbn [snd] in Hp. congruence.
Qed.
End recovery.

(** ** An example *)

Section example.
#[local] Existing Instance ListLog.instance.
#[local] Existing Instance ListLog.laws.

(** A path with nothing at it, and the directory when the engine was dropped. *)
Definition missing_fs : Fs := mkFs RootMissing true true ∅ [] ∅ 0 ∅ [].

Lemma missing_ready :
  settled missing_fs ∧ root_ready missing_fs ∧ fs_wf missing_fs ∧
  (∀ name, owned_name name → fs_entries missing_fs !! name = None) ∧ not_other missing_fs WRITE_LOCK_FILE_NAME.
Proof. split; [done|]. split; [by right|]. split; [by split|done]. Qed.

Definition example_ops : list Op :=
  [OpCreateNode 7 example_metadata; OpSaveTerm 7 3; OpSync; OpSaveVote 7 (Some 1)].

(** Opening creates the directory; after it has run some operations, no crash
    takes the directory. *)
Lemma new_directory_is_durable_witness :
  ∃ w e, with_max_segment_len 1024 (mkWorld missing_fs metrics_default) = (Ok e, w) ∧
    refines (mkEngineState w e) ∅ ∧ durable (mkEngineState w e) (mkAsyncStore ∅ []) ∧
    ∀ fs', let '(_, s') := run_ops example_ops (facing (replicate 9 None ++ [Some 2]) w e) in
    crash_with_name (w_fs (es_world s')) fs' → fs_root fs' = fs_root (w_fs (es_world s')).
Proof.
  destruct missing_ready as (H1 & H2 & H3 & H4 & H5).
  pose proof (new_directory_is_durable missing_fs metrics_default 1024 H1 ltac:(reflexivity) ltac:(reflexivity)
    ltac:(discriminate) H2 H3 H4 H5) as H.
  destruct (with_max_segment_len 1024 (mkWorld missing_fs metrics_default)) as [r w].
  destruct H as (e & -> & H1' & H2' & _ & Hname).
  exists w, e. split; [reflexivity|]. split; [exact H1'|]. split; [exact H2'|]. intros fs'.
  specialize (Hname ltac:(reflexivity) example_ops (replicate 9 None ++ [Some 2]) fs').
  destruct (run_ops example_ops (facing _ w e)) as [tr s'].
  intros Hc. exact (proj1 (Hname Hc)).
Defined.

(** The engine that was opened there, when the calls to come proceed but for the
    tenth, which fails after two bytes. *)
Definition failing_from (r : result StorageEngine * World) : EngineState :=
  match r with
  | (Ok e, w) => mkEngineState (mkWorld (set_faults (replicate 9 None ++ [Some 2]) (w_fs w)) (w_metrics w)) e
  | _ => fresh_state
  end.
Definition failing_state : EngineState := failing_from (with_max_segment_len 1024 (mkWorld missing_fs metrics_default)).

Lemma failing_from_durable e w A : durable (mkEngineState w e) A → durable (failing_from (Ok e, w)) A.
Proof. intros H. eapply (durable_same (mkEngineState w e)); [exact H|by split]. Qed.

Lemma failing_durable : durable failing_state (mkAsyncStore ∅ []).
Proof.
  destruct missing_ready as (H1 & H2 & H3 & H4 & H5). pose proof (new_can_open missing_fs H2 H3 H4 H5) as Hc.
  assert (Hmax : 1024 ≠ 0) by discriminate.
  destruct (reopen missing_fs metrics_default 1024 [] None None ∅ Hmax eq_refl eq_refl Hc new_disk_store) as (w & e & Hrun & _).
  pose proof (reopen_durable _ _ _ _ _ _ _ _ _ Hmax H1 eq_refl eq_refl Hc new_disk_store Hrun) as Hd.
  unfold failing_state. rewrite Hrun. by apply failing_from_durable.
Qed.

(** The process dies; of the calls to come some fail. *)
Definition killed (outcomes : list (option N)) (fs : Fs) : Fs := set_locks ∅ (set_faults outcomes fs).

(** An opening that fails at its eighth call, after a run that failed. *)
Definition interrupted_fs (fs : Fs) : Fs :=
  killed [] (w_fs (with_max_segment_len 1024
    (mkWorld (killed (replicate 7 None ++ [Some 0]) fs) metrics_default)).2).

Lemma interrupted_restarts fs : restarts (killed (replicate 7 None ++ [Some 0]) fs) (interrupted_fs fs).
Proof. eapply restart; [right; by exists []|apply no_restart]. Qed.

Lemma crash_recovery_witness :
  ∃ tr s' w e σ, run_ops example_ops failing_state = (tr, s') ∧
    with_max_segment_len 1024 (mkWorld (interrupted_fs (w_fs (es_world s'))) metrics_default) = (Ok e, w) ∧
    crash_run (mkAsyncStore ∅ []) tr σ ∧ refines (mkEngineState w e) (trimmed σ).
Proof.
  assert (Hfit : Forall op_fit example_ops) by (repeat constructor).
  pose proof (crash_recovery example_ops failing_state (mkAsyncStore ∅ []) 1024 failing_durable Hfit
    ltac:(vm_compute; reflexivity) ltac:(discriminate)) as H.
  destruct (run_ops example_ops failing_state) as [tr s'].
  destruct (H _ _ metrics_default (or_intror (ex_intro _ _ eq_refl)) (interrupted_restarts (w_fs (es_world s')))
    ltac:(reflexivity) ltac:(reflexivity)) as (w & e & σ & Hrun & Hc & Hr & _).
  exists tr, s', w, e, σ. split; [reflexivity|]. split; [exact Hrun|]. split; [exact Hc|exact Hr].
Defined.
End example.
