(* ===== verification/History.v ===== *)
(** * The life of a storage directory

    From its creation on, a directory is opened, used and stopped again and
    again.  Whatever fails, the stores of these lives follow each other as the
    abstract store says.  A life ends in a crash of the system, after which
    everything that is left is durable; when only the process dies, the next
    engine loads records that are not ([Findings]), and the theorem of
    [CrashRecovery] covers one such death. *)
From Stdlib Require Import Strings.Byte Strings.String.
From S2P Require Import Prelude Metrics Fs Text Json Noraft State Crc32c Codec Format Frame.
From S2P Require Import Segment Replay Registry Checkpoint Engine Recovery RecoveryCorrect.
From S2P Require Import ReplayCorrect WriterCorrect MetadataCorrect MetadataFaults EngineCorrect.
From S2P Require Import NodeCorrect EngineSpec AsyncStore LoadCorrect OpenCorrect Faults Durability.
From S2P Require Import Surface DurableWriter DurableMetadata DurableGc Tidy Reads DurableEngine Reopen DurableOps.
From S2P Require Import OpenSteps Interrupted Restarts CrashRecovery EngineTheorems JsonExample EngineExample.

Section history.
Context `{NJL : NojsonLaws} `{NL : NoraftLaws}.

(** One life: openings that are interrupted, one whose calls all proceed,
    operations with any outcomes of their calls, and a crash of the system. *)
Inductive life (fs : Fs) : list (Op * result Reply) → Fs → Prop :=
  | a_life fs1 m max_len e w f ops tr s fs2 :
      restarts fs fs1 → settled fs1 → no_faults fs1 → fs_locks fs1 = ∅ →
      with_max_segment_len max_len (mkWorld fs1 m) = (Ok e, w) →
      Forall op_fit ops → segment_id (active_segment (engine_writer e)) + lenN ops < U64_LIMIT →
      run_ops ops (mkEngineState (mkWorld (set_faults f (w_fs w)) (w_metrics w)) e) = (tr, s) →
      crash (w_fs (es_world s)) fs2 → life fs tr fs2.

Inductive lives (fs : Fs) : list (list (Op * result Reply)) → Fs → Prop :=
  | no_lives : lives fs [] fs
  | next_life tr trs fs1 fs2 : life fs tr fs1 → lives fs1 trs fs2 → lives fs (tr :: trs) fs2.

(** The abstract store over these lives: each starts from what the crash before
    it left. *)
Inductive store_lives (σ : gmap N NodeSpec) : list (list (Op * result Reply)) → gmap N NodeSpec → Prop :=
  | no_store_lives : store_lives σ [] σ
  | next_store_life tr trs σ1 σ2 :
      crash_run (mkAsyncStore (trimmed σ) []) tr σ1 → store_lives σ1 trs σ2 → store_lives σ (tr :: trs) σ2.

(** The directory holds a store, whenever it is stopped. *)
Definition holds_store (σ : gmap N NodeSpec) (fs : Fs) : Prop :=
  recoverable (λ l reg idx, ∃ σ', σ' = σ ∧ disk_store l reg idx σ') fs.

Lemma settled_holds fs l reg idx σ :
  settled fs → tidy fs → can_open fs l reg idx → disk_store l reg idx σ → holds_store σ fs.
Proof.
  intros Hs Ht Hc Hst. eapply recoverable_mono; [by eapply settled_recoverable|]. intros l' r' x' (-> & -> & ->).
  by exists σ.
Qed.

Lemma life_store fs tr fs' σ :
  holds_store σ fs → life fs tr fs' →
  settled fs' ∧ ∃ σ', crash_run (mkAsyncStore (trimmed σ) []) tr σ' ∧ holds_store σ' fs'.
Proof.
  intros Hσ [fs1 m max_len e w f ops tr' s fs2 Hr Hset Hnf Hl Hopen Hfit Hid Hrun Hcrash].
  pose proof (restarts_recoverable _ _ _ Hσ Hr) as H1.
  assert (Hmax : max_len ≠ 0) by (intros ->; by unfold with_max_segment_len in Hopen).
  destruct (recovered_opens (λ σ', σ' = σ) fs1 m max_len H1 Hmax Hnf Hl) as (w' & e' & ? & Hopen' & -> & _ & Hd).
  rewrite Hopen in Hopen'. injection Hopen' as <- <-. specialize (Hd Hset).
  apply (durable_same _ (mkEngineState (mkWorld (set_faults f (w_fs w)) (w_metrics w)) e)) in Hd; [|done].
  pose proof (run_recoverable ops _ _ Hd Hfit Hid) as Hrec. rewrite Hrun in Hrec.
  pose proof (crash_settled _ _ Hcrash) as Hset2. split; [done|].
  pose proof (halted_recoverable _ _ _ Hrec (or_introl Hcrash)) as [Ht Ho].
  destruct (opens_as_now _ _ Ho) as (l & reg & idx & Hc & σ' & Hcr & Hst). exists σ'. split; [done|].
  by eapply settled_holds.
Qed.

Lemma lives_store fs trs fs' σ :
  settled fs → holds_store σ fs → lives fs trs fs' → settled fs' ∧ ∃ σ', store_lives σ trs σ' ∧ holds_store σ' fs'.
Proof.
  intros Hset Hσ H. revert σ Hset Hσ. induction H as [fs|fs tr trs fs1 fs2 Hlife _ IH]; intros σ Hset Hσ.
  - split; [done|]. exists σ. split; [constructor|done].
  - destruct (life_store fs tr fs1 σ Hσ Hlife) as (Hset1 & σ1 & Hc & Hσ1).
    destruct (IH σ1 Hset1 Hσ1) as (Hset2 & σ2 & Hl & Hσ2). split; [done|]. exists σ2. split; [|done].
    by econstructor.
Qed.

(** [C3] The history of a storage directory.  A directory that was new goes
    through any number of lives: it is opened, possibly after openings that
    failed or were stopped, operations run with any outcomes of their calls, and
    the system crashes at any point.  After the last crash, and again after any
    openings that are interrupted, the directory is opened and implements a
    store to which the abstract stores of these lives lead: every life starts
    from a durable store that the crash before it left, and all replies of all
    lives are those of the abstract store. *)
Theorem storage_history fs trs fs1 fs2 m max_len :
  settled fs → root_ready fs → fs_wf fs → (∀ name, owned_name name → fs_entries fs !! name = None) →
  not_other fs WRITE_LOCK_FILE_NAME → lives fs trs fs1 →
  restarts fs1 fs2 → max_len ≠ 0 → no_faults fs2 → fs_locks fs2 = ∅ →
  ∃ w e σ, with_max_segment_len max_len (mkWorld fs2 m) = (Ok e, w) ∧
    store_lives ∅ trs σ ∧ refines (mkEngineState w e) (trimmed σ) ∧
    (settled fs2 → durable (mkEngineState w e) (mkAsyncStore (trimmed σ) [])).
Proof.
  intros Hset Hr Hwf Hn Hlock Hlives Hrs Hmax Hnf Hl. pose proof (new_can_open fs Hr Hwf Hn Hlock) as Hc.
  pose proof (settled_holds fs _ _ _ ∅ Hset (new_tidy fs Hwf Hset) Hc new_disk_store) as H0.
  destruct (lives_store fs trs fs1 ∅ Hset H0 Hlives) as (_ & σ & Hst & H1).
  destruct (recovered_opens (λ σ', σ' = σ) fs2 m max_len (restarts_recoverable _ _ _ H1 Hrs) Hmax Hnf Hl)
    as (w & e & ? & Hopen & -> & Href & Hd). by exists w, e, σ.
Qed.
End history.

(** ** An example *)

Section example.
#[local] Existing Instance ListLog.instance.
#[local] Existing Instance ListLog.laws.

(** A crash that loses nothing: every file and the directory are as they were. *)
Definition crashed (fs : Fs) : Fs :=
  mkFs (fs_root fs) (fs_has_parent fs) (fs_root_synced fs) (fs_entries fs) []
    ((λ i, mkInode (i_data i) []) <$> fs_inodes fs) (fs_next_inode fs) ∅ [].

Lemma crashed_inode fs j : inode_of j (crashed fs) = mkInode (data_of j fs) [].
Proof. unfold data_of, inode_of, crashed. cbn. rewrite lookup_fmap. by destruct (fs_inodes fs !! j). Qed.

Lemma crashed_crash fs : crash fs (crashed fs).
Proof.
  split; [done|]. split; [by left|]. split; [done|]. split; [|done]. intros j. unfold data_of at 2. rewrite crashed_inode.
  split; [apply crash_versions_current|done].
Qed.

(** The life of the engine of [failing_state]: its operations up to the one
    that fails, and a crash. *)
Lemma example_life : ∃ tr fs, life missing_fs tr fs ∧ fs = crashed (w_fs (es_world (run_ops example_ops failing_state).2)).
Proof.
  destruct missing_ready as (H1 & H2 & H3 & H4 & H5). pose proof (new_can_open missing_fs H2 H3 H4 H5) as Hc.
  assert (Hmax : 1024 ≠ 0) by discriminate.
  destruct (reopen missing_fs metrics_default 1024 [] None None ∅ Hmax eq_refl eq_refl Hc new_disk_store) as (w & e & Hrun & _).
  assert (Hs : failing_state = failing_from (Ok e, w)) by (unfold failing_state; rewrite Hrun; reflexivity).
  assert (Hid : segment_id (active_segment (engine_writer (es_engine failing_state))) + lenN example_ops < U64_LIMIT)
    by (vm_compute; reflexivity).
  rewrite Hs in *. clear Hs. destruct (run_ops example_ops _) as [tr s] eqn:Erun. exists tr, (crashed (w_fs (es_world s))).
  split; [|reflexivity].
  apply (a_life missing_fs missing_fs metrics_default 1024 e w (replicate 9 None ++ [Some 2]) example_ops tr s
    _ (no_restart _) H1 eq_refl eq_refl Hrun ltac:(repeat constructor) Hid Erun (crashed_crash _)).
Qed.

(** An engine that is opened and killed, and an opening that fails. *)
Definition twice_opened (fs : Fs) : Fs :=
  interrupted_fs (w_fs (with_max_segment_len 1024 (mkWorld fs metrics_default)).2).

Lemma twice_restarts fs : restarts fs (twice_opened fs).
Proof. eapply restart; [right; eexists; reflexivity|apply interrupted_restarts]. Qed.

Lemma storage_history_witness :
  ∃ tr fs w e σ, life missing_fs tr fs ∧
    with_max_segment_len 1024 (mkWorld (twice_opened fs) metrics_default) = (Ok e, w) ∧
    store_lives ∅ [tr] σ ∧ refines (mkEngineState w e) (trimmed σ).
Proof.
  destruct missing_ready as (H1 & H2 & H3 & H4 & H5). destruct example_life as (tr & fs & Hlife & _).
  destruct (storage_history missing_fs [tr] fs (twice_opened fs) metrics_default 1024 H1 H2 H3 H4 H5
    (next_life _ _ _ _ _ Hlife (no_lives fs)) (twice_restarts fs) ltac:(discriminate) eq_refl eq_refl)
    as (w & e & σ & Hrun & Hs & Hr & _).
  exists tr, fs, w, e, σ. split; [exact Hlife|]. split; [exact Hrun|]. split; [exact Hs|exact Hr].
Defined.
End example.
