(* ===== verification/ReadOnlyTheorems.v ===== *)
(** * Properties of read-only access

    A reader reports the store that a directory stands for, whether an engine
    is at work on it or a stop left a torn end, and changes nothing. *)
From Stdlib Require Import Strings.Byte Strings.String.
From S2P Require Import Prelude Metrics Fs Text Json Noraft State Crc32c Codec Format Frame.
From S2P Require Import Segment Replay Registry Checkpoint Engine ReadOnly Recovery RecoveryCorrect.
From S2P Require Import ReplayCorrect WriterCorrect MetadataCorrect MetadataFaults EngineCorrect.
From S2P Require Import NodeCorrect EngineSpec AsyncStore LoadCorrect OpenCorrect Faults Durability.
From S2P Require Import Surface DurableWriter DurableMetadata DurableGc Reads DurableEngine Reopen DurableOps.
From S2P Require Import CrashRecovery EngineTheorems JsonExample EngineExample.

Section readers.
Context `{NJL : NojsonLaws} `{NL : NoraftLaws}.

Lemma own_metrics_run {A} (f : M World A) fs m r :
  (∃ m', f (mkWorld fs metrics_default) = (r, mkWorld fs m')) → own_metrics f (mkWorld fs m) = (r, mkWorld fs m).
Proof. intros [m' H]. unfold own_metrics. cbn [w_fs w_metrics]. by rewrite H. Qed.

(** The active nodes of a registry. *)
Lemma registry_active_nodes_lookup reg n :
  (list_to_map (registry_active_nodes reg) : gmap N NodeMetadata) !! n =
  match node_status reg n with Active md => Some md | _ => None end.
Proof.
  unfold registry_active_nodes, node_status. set (f := λ p : N * NodeRegistryEntry, _).
  assert (Hnd : ∀ l : list (N * NodeRegistryEntry), NoDup l.*1 → NoDup (omap f l).*1).
  { induction l as [|[k y] l IH]; [done|]. rewrite fmap_cons. intros [Hk Hl]%list.NoDup_cons. cbn [omap list_omap].
    assert (Hf : ∀ q md, f q = Some md → md.1 = q.1).
    { intros q md. unfold f. destruct (entry_removed q.2); [done|]. by intros [= <-]. }
    destruct (f (k, y)) as [md|] eqn:Ef; [|by apply IH]. rewrite fmap_cons. constructor; [|by apply IH].
    rewrite (Hf _ _ Ef). intros (md' & E & (q & Hq & Eq)%list_elem_of_omap)%list_elem_of_fmap. apply Hk.
    apply list_elem_of_fmap. exists q. split; [|done]. by rewrite <-(Hf _ _ Eq). }
  assert (Hin : ∀ md, (n, md) ∈ omap f (btree_iter (registry_nodes reg)) ↔
    ∃ y, registry_nodes reg !! n = Some y ∧ entry_removed y = false ∧ md = entry_metadata y).
  { intros md. rewrite list_elem_of_omap. split.
    - intros ([k y] & Hin%elem_of_btree_iter & E). unfold f in E. cbn [fst snd] in *.
      destruct (entry_removed y) eqn:Er; [done|]. injection E as -> <-. by exists y.
    - intros (y & Hy & Hr & ->). exists (n, y). split; [by apply elem_of_btree_iter|]. unfold f. cbn [fst snd]. by rewrite Hr. }
  apply option_eq. intros md. rewrite <-elem_of_list_to_map by apply Hnd, btree_iter_NoDup. rewrite Hin.
  destruct (registry_nodes reg !! n) as [y|]; [|split; [by intros (? & ? & _)|done]]. split.
  - intros (y' & [= <-] & Hr & ->). by rewrite Hr.
  - destruct (entry_removed y) eqn:E; [done|]. intros [= <-]. by exists y.
Qed.

(** What [load] replies in the abstract store. *)
Definition load_reply (σ : gmap N NodeSpec) (n : N) : result NodeState :=
  match σ !! n with
  | Some (Live _ st) => st
  | x => Err (missing_error x)
  end.

Definition load_all_reply (σ : gmap N NodeSpec) (r : result (gmap N NodeState)) : Prop :=
  match r with
  | Ok states => loads_all σ states
  | Err e => ∃ n md, σ !! n = Some (Live md (Err e))
  end.

Definition nodes_reply (σ : gmap N NodeSpec) (r : result (gmap N NodeMetadata)) : Prop :=
  ∃ ns, r = Ok ns ∧ ∀ n, ns !! n = match σ !! n with Some (Live md _) => Some md | _ => None end.

(** A reader reports the store, and changes nothing. *)
Definition reports (w : World) (σ : gmap N NodeSpec) : Prop :=
  (∀ n, load n w = (load_reply σ n, w)) ∧
  (∃ r, load_all w = (r, w) ∧ load_all_reply σ r) ∧
  (∃ r, nodes w = (r, w) ∧ nodes_reply σ r).

Lemma all_loaded_reply reg nlog σ r : represents reg nlog σ → all_loaded reg nlog r → load_all_reply σ r.
Proof.
  intros Hr. destruct r as [states|e]; cbn.
  - intros H n. specialize (H n). specialize (Hr n). unfold node_matches in Hr. rewrite is_active_status in H.
    destruct (states !! n) as [st|].
    + destruct H as [Ha Hv]. destruct (σ !! n) as [[md st'|]|]; [|by rewrite Hr in Ha..].
      exists md. destruct Hr as [_ Hv']. congruence.
    + intros md st E. rewrite E in Hr. by rewrite (proj1 Hr) in H.
  - intros (n & Ha & Hv). specialize (Hr n). unfold node_matches in Hr. rewrite is_active_status in Ha. exists n.
    destruct (σ !! n) as [[md st'|]|]; [|by rewrite Hr in Ha..]. exists md. destruct Hr as [_ Hv']. congruence.
Qed.

Lemma loaded_reply reg nlog σ n :
  represents reg nlog σ →
  (if is_active reg n then replayed (node_view n nlog) else Err (access_error reg n)) = load_reply σ n.
Proof.
  intros Hr. specialize (Hr n). unfold node_matches in Hr. unfold load_reply, access_error.
  rewrite is_active_status, is_removed_status.
  destruct (σ !! n) as [[md st|]|]; [destruct Hr as [-> Hv]; exact Hv|by rewrite Hr..].
Qed.

(** All states or an error: [load_all] has no choice between them. *)
Lemma load_all_reply_ok σ r states : load_all_reply σ r → loads_all σ states → r = Ok states.
Proof.
  intros Hr Hs. destruct r as [states'|e]; cbn in Hr.
  - f_equal. apply map_eq. intros n. specialize (Hr n). specialize (Hs n).
    destruct (states !! n) as [st|], (states' !! n) as [st'|]; [|..|done].
    + destruct Hs as [md Hs], Hr as [md' Hr]. congruence.
    + destruct Hs as [md Hs]. by destruct (Hr _ _ Hs).
    + destruct Hr as [md Hr]. by destruct (Hs _ _ Hr).
  - destruct Hr as (n & md & Hn). specialize (Hs n). destruct (states !! n); [|by destruct (Hs _ _ Hn)].
    destruct Hs as [md' Hs]. congruence.
Qed.

(** ** Reading a directory that can be opened *)

Section stored.
Context (fs : Fs) (active : SegmentName) (segs : list segment_contents) (d : option (list byte)).
Context (bodies : list (list byte)) (nlog : list (RecordPosition * NodeRecord)) (reg : NodeRegistry) (x : CheckpointIndex).
Hypothesis Hst : stored fs active segs d bodies nlog reg x.
Hypothesis Hroot : fs_root fs = RootDir.

(** The segments as a reader sees them. *)
Lemma stored_readable :
  ∃ segs', (∀ any, readable_dir fs any false segs') ∧ log_decodes (log_of segs') nlog.
Proof using Hst Hroot.
  destruct Hst as [Hnf _ _ _ Hs Hlog _ _ _]. eexists. split; [intros any; by eapply segments_readable|].
  destruct Hs; [by rewrite log_of_empty_active in Hlog|exact Hlog].
Qed.

Lemma read_only_open_run m : ∃ m', read_only_open (mkWorld fs m) = (Ok (mkReadOnlyStorage reg x), mkWorld fs m').
Proof using Hst Hroot.
  destruct stored_readable as (segs' & Hread & Hlog). destruct Hst as [Hnf _ _ _ _ _ Hreg Hx Hh]. unfold read_only_open.
  rewrite (bind_ok _ _ _ true (mkWorld fs m)).
  2:{ unfold root_is_dir, w_call, zoom. cbn [w_fs]. rewrite call_none by done.
      unfold mbind, M_bind, get_state. by rewrite Hroot. }
  cbn [negb]. rewrite (bind_ok _ _ _ _ _ (stored_registry_load fs m reg Hnf Hroot Hreg)).
  rewrite (bind_ok _ _ _ _ _ (stored_index_load fs m segs' nlog reg x (readable_dir_held _ _ _ _ (Hread active)) Hlog Hx Hh)).
  by eexists.
Qed.

Lemma load_run n m :
  load n (mkWorld fs m) =
  (if is_active reg n then replayed (node_view n nlog) else Err (access_error reg n), mkWorld fs m).
Proof using Hst Hroot NL.
  destruct stored_readable as (segs' & Hread & Hlog). apply own_metrics_run.
  destruct (read_only_open_run metrics_default) as [m1 Hopen]. rewrite (bind_ok _ _ _ _ _ Hopen).
  unfold read_only_load, ensure_node_exists, access_error. cbn [ro_registry ro_index].
  destruct (is_active reg n); [|exists m1; by destruct (is_removed reg n)].
  rewrite (bind_ok _ _ _ () (mkWorld fs m1)) by done. destruct Hst as [Hnf _ _ _ Hs _ _ _ Hh].
  rewrite (bind_ok _ _ _ _ _ (select_active_run fs m1 active segs d bodies Hnf Hroot Hs)).
  apply (replay_node_state_run fs m1 segs' nlog); [done|done|].
  destruct (checkpoint_position x n) as [p|] eqn:Ep; [by apply Hh|done].
Qed.

Lemma load_all_run m : ∃ r, load_all (mkWorld fs m) = (r, mkWorld fs m) ∧ all_loaded reg nlog r.
Proof using Hst Hroot NL.
  destruct stored_readable as (segs' & Hread & Hlog).
  destruct (read_only_open_run metrics_default) as [m1 Hopen].
  assert (Hh : ∀ n p, is_active reg n = true → checkpoint_position x n = Some p → hint_ok n (Some p) nlog)
    by (intros n p _; apply Hst).
  unfold load_all. set (f := _ ← read_only_open; _).
  assert (Hrun : ∃ r, all_loaded reg nlog r ∧ ∃ m', f (mkWorld fs metrics_default) = (r, mkWorld fs m')).
  { unfold f. rewrite (bind_ok _ _ _ _ _ Hopen). unfold read_only_load_all. cbn [ro_registry ro_index].
    case_bool_decide as Hempty; [exists (Ok ∅); split; [by apply none_loaded|by exists m1]|].
    destruct Hst as [Hnf _ _ _ Hs _ _ _ _].
    rewrite (bind_ok _ _ _ _ _ (select_active_run fs m1 active segs d bodies Hnf Hroot Hs)).
    destruct (replay_active_run fs m1 segs' nlog active false reg x (Hread active) Hlog Hh) as (r & m2 & Hrun & Hr).
    eexists. split; [exact Hr|]. exists m2.
    destruct r; [by rewrite (bind_ok _ _ _ _ _ Hrun)|by rewrite (bind_err _ _ _ _ _ Hrun)]. }
  destruct Hrun as (r & Hr & Hrun). exists r. split; [by apply own_metrics_run|done].
Qed.

Lemma nodes_run m : nodes (mkWorld fs m) = (Ok (list_to_map (registry_active_nodes reg)), mkWorld fs m).
Proof using Hst Hroot.
  apply own_metrics_run.
  destruct (read_only_open_run metrics_default) as [m1 Hopen]. rewrite (bind_ok _ _ _ _ _ Hopen). by exists m1.
Qed.
End stored.

Lemma can_open_reports fs m l reg idx σ :
  no_faults fs → fs_root fs = RootDir → can_open fs l reg idx → disk_store l reg idx σ →
  reports (mkWorld fs m) (trimmed σ).
Proof.
  intros Hnf Hr Hc Hds.
  destruct (can_open_stored fs l reg idx σ Hnf Hc Hds) as (active & sealed & d & bodies & nlog & E & x & Hst & _ & _ & _ & _ & _ & Hrep).
  apply represents_trimmed in Hrep. split; [|split].
  - intros n. rewrite (load_run _ _ _ _ _ _ _ _ Hst Hr). by rewrite (loaded_reply _ _ _ _ Hrep).
  - destruct (load_all_run _ _ _ _ _ _ _ _ Hst Hr m) as (r & Hrun & Hl). exists r. split; [done|].
    by eapply all_loaded_reply.
  - eexists. split; [exact (nodes_run _ _ _ _ _ _ _ _ Hst Hr m)|]. eexists. split; [reflexivity|].
    intros n. rewrite registry_active_nodes_lookup. specialize (Hrep n). unfold node_matches in Hrep.
    destruct (trimmed σ !! n) as [[md st|]|]; [by rewrite (proj1 Hrep)|by rewrite Hrep..].
Qed.

(** ** Beside an engine *)

Lemma load_reply_trimmed σ n : load_reply (trimmed σ) n = load_reply σ n.
Proof. unfold load_reply, trimmed. rewrite lookup_fmap. by destruct (σ !! n) as [[md st|]|]. Qed.

Lemma loads_all_trimmed σ states : loads_all (trimmed σ) states ↔ loads_all σ states.
Proof.
  assert (H : ∀ n, trimmed σ !! n = trim_spec <$> σ !! n) by (intros n; unfold trimmed; apply lookup_fmap).
  unfold loads_all. split; intros Hs n; specialize (Hs n); rewrite H in *;
    destruct (states !! n), (σ !! n) as [[md st|]|]; cbn in *; naive_solver.
Qed.

Lemma engine_load_reply s σ n : refines s σ → (engine_load n s).1 = load_reply σ n.
Proof.
  intros Hr. unfold load_reply. destruct (live_or_missing σ n) as [(md & st & Hl)|Hm].
  - pose proof (refines_live s σ Hr n md st Hl) as Ha. destruct Hr as (nlog & Hok & Hs).
    destruct s as [[fs m] e]. destruct (engine_load_run fs m e nlog n Hok Ha) as [m' ->].
    specialize (Hs n). rewrite Hl in *. by destruct Hs.
  - destruct (ensure_missing s σ Hr n OpLoad Hm) as (s' & Hrun & _). unfold engine_load.
    rewrite (bind_err _ _ _ _ _ Hrun). destruct (σ !! n) as [[md st|]|] eqn:E; [by destruct (Hm md st)|done..].
Qed.

Lemma engine_load_all_reply s σ : refines s σ → load_all_reply σ (engine_load_all s).1.
Proof.
  intros (nlog & Hok & Hs). destruct s as [[fs m] e].
  destruct (engine_load_all_run fs m e nlog Hok) as (r & m' & -> & Hl). by eapply all_loaded_reply.
Qed.

(** The engine's directory, as a reader finds it. *)
Lemma durable_can_open s A :
  durable s A → ∃ l reg idx, can_open (clear (w_fs (es_world s))) l reg idx ∧ disk_store l reg idx (async_view A).
Proof.
  intros (_ & x & dlog & plog & [(L & D & reg & idx & Hd & HD & HL & Hr & Hi) Hp Hh Hs] & _).
  exists L, reg, idx. split.
  - destruct Hd as [(sealed & bodies & durable & [Hsafe Hdata Hfit] & -> & _) _ _ _]. cbn [ws_world ws_writer] in *.
    apply (disk_safe_faults _ []) in Hsafe. apply holds_log_can_open.
    exists sealed, (active_segment (engine_writer (es_engine s))), bodies. split; [|done].
    destruct Hsafe as [H1 H2 H3 _ (paths & H4 & H5) _ H6 H7 _ H8 _ H9 _]. split; try done.
    eexists. eapply some_segments; [exact H4|exact H5|exact H6|split; [exact H1|split; [exact H7|exact Hdata]]|].
    right. by exists [].
  - exists (engine_registry (es_engine s)), x, (dlog ++ plog). split; [done|]. split; [done|]. split; [done|].
    split; [by apply hints_in_app|]. unfold async_view. rewrite <-Hp. by apply represents_app.
Qed.

(** [C7] A reader beside an engine.  While an engine has the directory open, and
    between two of its operations, reading the directory needs no lock, changes
    nothing and reports what the engine holds, synced or not: each node loads as
    it does through the engine, [load_all] succeeds when the engine's does and
    with the same states, and [nodes] lists the nodes with their metadata, up to
    the white space around it. *)
Theorem reader_beside_engine s A :
  durable s A →
  let w := es_world (clear s) in
  (∀ n, load n w = ((engine_load n (clear s)).1, w)) ∧
  (load_all w).2 = w ∧ (∀ states, (load_all w).1 = Ok states ↔ (engine_load_all (clear s)).1 = Ok states) ∧
  (∃ ns, nodes w = (Ok ns, w) ∧
    ∀ n, ns !! n = match trimmed (async_view A) !! n with Some (Live md _) => Some md | _ => None end).
Proof.
  intros Hd w. pose proof (durable_refines s A Hd) as Href. destruct (durable_can_open s A Hd) as (l & reg & idx & Hc & Hds).
  assert (Hr : fs_root (clear (w_fs (es_world s))) = RootDir).
  { destruct Href as (nlog & [(segs & bodies & Hw & _) _ _] & _). apply (wo_clean _ _ _ _ Hw). }
  assert (Hnf : no_faults (clear (w_fs (es_world s)))) by done.
  destruct (can_open_reports (clear (w_fs (es_world s))) (w_metrics (es_world s)) l reg idx _ Hnf Hr Hc Hds) as (H1 & (r & H2 & Hr2) & (r' & H3 & ns & -> & Hns)).
  change (mkWorld _ _) with w in H1, H2, H3. split; [|split; [by rewrite H2|split; [|by exists ns]]].
  - intros n. by rewrite H1, load_reply_trimmed, (engine_load_reply _ _ _ Href).
  - intros states. rewrite H2. pose proof (engine_load_all_reply _ _ Href) as He. cbn [fst]. split; intros E.
    + subst r. exact (load_all_reply_ok _ _ _ He (proj1 (loads_all_trimmed _ _) Hr2)).
    + rewrite E in He. exact (load_all_reply_ok _ _ _ Hr2 (proj2 (loads_all_trimmed _ _) He)).
Qed.

(** [C6] A reader after a stop.  Operations run on an engine until a call fails;
    then, or when all have returned, the process dies or the system crashes.
    Reading the directory that is left, torn ends included, changes nothing and
    reports a store that the run allows, and it is the one that opening the
    directory would recover. *)
Theorem reader_agrees_with_recovery ops s A max_len :
  durable s A → Forall op_fit ops → active_id s + lenN ops < U64_LIMIT → max_len ≠ 0 →
  let '(tr, s') := run_ops ops s in
  ∀ fs m, stopped (w_fs (es_world s')) fs → no_faults fs → fs_locks fs = ∅ →
  ∃ σ w e, crash_run A tr σ ∧ reports (mkWorld fs m) (trimmed σ) ∧
    with_max_segment_len max_len (mkWorld fs m) = (Ok e, w) ∧ refines (mkEngineState w e) (trimmed σ).
Proof.
  intros Hd Hfit Hid Hmax. pose proof (run_crash ops s A Hd Hfit Hid) as H.
  destruct (run_ops ops s) as [tr s']. intros fs m Hs Hnf Hl.
  destruct (H fs Hs) as (l & reg & idx & Hh & σ & Hr & Hst).
  assert (Hroot : fs_root fs = RootDir) by (destruct Hh as (? & ? & ? & [Hroot _ _ _ _ _] & _); exact Hroot).
  apply holds_log_can_open in Hh. destruct (reopen fs m max_len l reg idx σ Hmax Hnf Hl Hh Hst) as (w & e & Hrun & Href).
  exists σ, w, e. split; [done|]. split; [by eapply can_open_reports|]. done.
Qed.
End readers.

(** ** Witnesses *)

Section witnesses.
#[local] Existing Instance ListLog.instance.
#[local] Existing Instance ListLog.laws.

Lemma reader_beside_engine_witness :
  let w := es_world (clear failing_state) in
  load 7 w = ((engine_load 7 (clear failing_state)).1, w) ∧ (load_all w).2 = w.
Proof.
  destruct (reader_beside_engine failing_state (mkAsyncStore ∅ []) failing_durable) as (H1 & H2 & _).
  split; [exact (H1 7)|exact H2].
Defined.

Lemma reader_agrees_with_recovery_witness :
  ∃ tr s' σ, run_ops example_ops failing_state = (tr, s') ∧ crash_run (mkAsyncStore ∅ []) tr σ ∧
    reports (mkWorld (set_locks ∅ (set_faults [] (w_fs (es_world s')))) metrics_default) (trimmed σ).
Proof.
  assert (Hfit : Forall op_fit example_ops) by (repeat constructor).
  pose proof (reader_agrees_with_recovery example_ops failing_state (mkAsyncStore ∅ []) 1024 failing_durable Hfit
    ltac:(vm_compute; reflexivity) ltac:(discriminate)) as H.
  destruct (run_ops example_ops failing_state) as [tr s'].
  destruct (H (set_locks ∅ (set_faults [] (w_fs (es_world s')))) metrics_default
    (death_stopped (w_fs (es_world s')) ∅ []) ltac:(reflexivity) ltac:(reflexivity)) as (σ & w & e & Hc & Hr & _).
  exists tr, s', σ. split; [reflexivity|]. split; [exact Hc|exact Hr].
Defined.
End witnesses.
