(* ===== verification/Bounds.v ===== *)
(** * Machine integers

    The numbers that the writer and the engine keep are 64-bit integers, and
    stay so whatever the directory holds and however the calls turn out; of the
    checked additions of an append only that of the segment ID can fail, when
    the last segment ID has been used. *)
From Stdlib Require Import Strings.Byte Strings.String.
From S2P Require Import Prelude Metrics Fs Text Json Noraft State Crc32c Codec Format Frame.
From S2P Require Import Segment Replay Registry Checkpoint Engine Recovery RecoveryCorrect.
From S2P Require Import ReplayCorrect WriterCorrect MetadataCorrect EngineCorrect NodeCorrect EngineSpec LoadCorrect.
From S2P Require Import AsyncStore MetadataFaults OpenCorrect Faults Durability Surface DurableWriter DurableMetadata.
From S2P Require Import DurableGc Reads DurableEngine DurableOps CodecCorrect EngineTheorems JsonExample EngineExample.

(** ** The writer *)

Record writer_fits (w : SegmentWriter) : Prop := {
  wf_id : segment_id (active_segment w) < U64_LIMIT;
  wf_len : segment_len w < U64_LIMIT;
  wf_max : max_segment_len w < U64_LIMIT;
}.

(** The numbers of a writer. *)
Definition numbers (ws : WriterState) : SegmentName * N * N :=
  (active_segment (ws_writer ws), segment_len (ws_writer ws), max_segment_len (ws_writer ws)).

Lemma numbers_fit ws ws' : numbers ws' = numbers ws → writer_fits (ws_writer ws) → writer_fits (ws_writer ws').
Proof. intros [[H1 H2]%pair_equal_spec H3]%pair_equal_spec [Ha Hb Hc]. split; congruence. Qed.

(** The length of a segment after an append. *)
Definition segment_bound (w : SegmentWriter) : N :=
  N.max (segment_len w) (N.max (max_segment_len w) (4 + 8 + MAX_RECORD_BODY_LEN)).

Lemma on_world_numbers {A} (m : M World A) ws : numbers (on_world m ws).2 = numbers ws.
Proof. unfold on_world, zoom. by destruct (m _). Qed.

Lemma on_writer_file_numbers {A} (m : M Io A) ws : numbers (on_writer_file m ws).2 = numbers ws.
Proof.
  unfold on_writer_file, get_writer, get_state, mbind, M_bind, mret, M_ret, on_world, zoom. cbn [ws_writer ws_world].
  by destruct (with_file_kept (writer_file (ws_writer ws)) m (ws_world ws)) as [[[r f]|e] w].
Qed.

Lemma sync_current_numbers ws : numbers (sync_current_segment ws).2 = numbers ws.
Proof.
  unfold sync_current_segment, mbind, M_bind. pose proof (on_writer_file_numbers file_sync ws) as H.
  destruct (on_writer_file file_sync ws) as [[r|e] ws1]; [|done]. by rewrite on_world_numbers.
Qed.

Lemma writer_sync_numbers ws : numbers (writer_sync ws).2 = numbers ws.
Proof.
  unfold writer_sync, mbind, M_bind, get_state. case_match; [apply sync_current_numbers|done].
Qed.

(** A rotation moves to the header of the next segment, or fails. *)
Lemma writer_rotate_numbers ws :
  let '(r, ws') := writer_rotate ws in
  match r with
  | Ok _ => ∃ name, next_append (active_segment (ws_writer ws)) = Ok name ∧
                    numbers ws' = (name, SEGMENT_FILE_HEADER_LEN, max_segment_len (ws_writer ws))
  | Err _ => numbers ws' = numbers ws
  end.
Proof.
  unfold writer_rotate. unfold mbind at 1, M_bind at 1. pose proof (sync_current_numbers ws) as H0.
  destruct (sync_current_segment ws) as [[[]|e] ws0]; [|done]. cbn [snd] in H0.
  apply pair_equal_spec in H0 as [[Ha Hl]%pair_equal_spec Hm]. rewrite <-Ha, <-Hm.
  assert (Hn : numbers ws0 = numbers ws) by (unfold numbers; congruence). rewrite <-Hn. clear Ha Hl Hm Hn ws. rename ws0 into ws.
  rewrite (bind_ok get_writer _ ws (ws_writer ws) ws eq_refl).
  unfold mbind at 1, M_bind at 1, lift_result at 1.
  destruct (next_append (active_segment (ws_writer ws))) as [name|e]; [|done].
  unfold mbind at 1, M_bind at 1. pose proof (on_world_numbers (create_active_segment_file (file_name name)) ws) as H1.
  destruct (on_world (create_active_segment_file _) ws) as [[f|e] ws1]; [|done]. cbn [snd] in H1.
  unfold mbind at 1, M_bind at 1. pose proof (on_world_numbers sync_parent_dir ws1) as H2.
  destruct (on_world sync_parent_dir ws1) as [[[]|e] ws2]; cbn [snd] in H2; [|congruence].
  exists name. split; [done|]. unfold on_world, zoom. done.
Qed.

Section writer.
Context `{NR : Noraft}.

(** The next segment with unbounded integers. *)
Definition next_append_unbounded (name : SegmentName) : SegmentName := mkSegmentName (segment_id name + 1).

(** [SegmentWriter::rotate] with unbounded integers: the addition to the
    segment ID is not checked. *)
Definition rotate_unbounded : M WriterState () :=
  sync_current_segment ;;
  w ← get_writer;
  file ← on_world (create_active_segment_file (file_name (next_append_unbounded (active_segment w))));
  on_world sync_parent_dir ;;
  set_writer (mkSegmentWriter (next_append_unbounded (active_segment w)) file SEGMENT_FILE_HEADER_LEN (max_segment_len w)) ;;
  on_world (w_count (segment_rotated (segment_id (active_segment w) + 1) SEGMENT_FILE_HEADER_LEN)).

(** A frame of [len] bytes makes the segment too long. *)
Definition too_long (w : SegmentWriter) (len : N) : bool :=
  (SEGMENT_FILE_HEADER_LEN <? segment_len w) && (max_segment_len w <? segment_len w + len).

(** Appending the record takes a new segment. *)
Definition needs_rotation (node_id : N) (record : SegmentRecord) (w : SegmentWriter) : bool :=
  match encode_record_frame node_id record with
  | Ok frame => too_long w (lenN frame)
  | Err _ => false
  end.

(** [SegmentWriter::append] with unbounded integers: no conversion and no
    addition is checked, those of a rotation included. *)
Definition append_unbounded (node_id : N) (record : SegmentRecord) : M WriterState RecordPosition :=
  frame ← lift_result (encode_record_frame node_id record);
  w ← get_writer;
  (if too_long w (lenN frame) then rotate_unbounded else mret ()) ;;
  w ← get_writer;
  on_writer_file (file_write_all frame) ;;
  w' ← get_writer;
  set_writer (mkSegmentWriter (active_segment w') (writer_file w') (segment_len w + lenN frame) (max_segment_len w')) ;;
  on_world (w_count (record_written (metric_kind record) (lenN frame))) ;;
  on_world (w_count (segment_written (segment_len w + lenN frame))) ;;
  mret (mkRecordPosition (active_segment w) (segment_len w)).

Lemma frame_bound n r frame : encode_record_frame n r = Ok frame → 8 ≤ lenN frame ≤ 8 + MAX_RECORD_BODY_LEN.
Proof.
  intros He. pose proof (encode_record_frame_spec n r) as H. rewrite He in H. destruct H as [[_ Hb] ->].
  rewrite wire_frame_length. lia.
Qed.

(** The test for a rotation without the check. *)
Lemma should_rotate_unbounded w len :
  max_segment_len w < U64_LIMIT →
  should_rotate w len = too_long w len.
Proof.
  intros Hm. unfold should_rotate, too_long, u64_checked_add. rewrite N.leb_antisym.
  destruct (SEGMENT_FILE_HEADER_LEN <? segment_len w); [|done]. cbn [negb andb].
  destruct (N.ltb_spec (segment_len w + len) U64_LIMIT); [done|]. symmetry. apply N.ltb_lt. lia.
Qed.

(** After the decision the record fits. *)
Lemma write_fits w len ws r ws1 :
  writer_fits w → len ≤ 8 + MAX_RECORD_BODY_LEN → ws_writer ws = w →
  (if should_rotate w len then writer_rotate else mret ()) ws = (Ok r, ws1) →
  writer_fits (ws_writer ws1) ∧ max_segment_len (ws_writer ws1) = max_segment_len w ∧
  segment_len (ws_writer ws1) + len < U64_LIMIT ∧ segment_len (ws_writer ws1) + len ≤ segment_bound w.
Proof.
  intros [Hi Hl Hm] Hlen Hw. assert (HM : 12 + MAX_RECORD_BODY_LEN < U64_LIMIT) by done.
  unfold segment_bound. rewrite should_rotate_unbounded by done. unfold too_long. pose proof (writer_rotate_numbers ws) as Hrot.
  change SEGMENT_FILE_HEADER_LEN with 4 in *. rewrite Hw in Hrot. destruct (_ && _) eqn:E.
  - intros Hr. rewrite Hr in Hrot. destruct Hrot as (name & Hn & [[H1 H2]%pair_equal_spec H3]%pair_equal_spec).
    assert (segment_id name < U64_LIMIT).
    { unfold next_append, segment_id_next, u64_checked_add in Hn.
      destruct (N.ltb_spec (segment_id (active_segment w) + 1) U64_LIMIT); [|done]. by injection Hn as <-. }
    rewrite H2, H3. split; [split; rewrite ?H1, ?H2, ?H3; done|]. split; [done|]. lia.
  - intros [= _ <-]. rewrite Hw. split; [done|]. split; [done|].
    apply andb_false_iff in E as [E%N.ltb_ge|E%N.ltb_ge]; lia.
Qed.

(** What an append does to the numbers. *)
Lemma writer_append_numbers n r ws :
  writer_fits (ws_writer ws) →
  let '(res, ws') := writer_append n r ws in
  writer_fits (ws_writer ws') ∧ max_segment_len (ws_writer ws') = max_segment_len (ws_writer ws) ∧
  segment_len (ws_writer ws') ≤ segment_bound (ws_writer ws) ∧
  match res with
  | Ok p => position_fit p ∧ position_segment p = active_segment (ws_writer ws') ∧
            position_offset p < segment_len (ws_writer ws')
  | Err _ => True
  end.
Proof.
  intros Hf. unfold writer_append.
  assert (Hsame : ∀ ws', numbers ws' = numbers ws →
    writer_fits (ws_writer ws') ∧ max_segment_len (ws_writer ws') = max_segment_len (ws_writer ws) ∧
    segment_len (ws_writer ws') ≤ segment_bound (ws_writer ws) ∧ True).
  { intros ws' Hn. split; [by eapply numbers_fit|]. apply pair_equal_spec in Hn as [[_ Hl]%pair_equal_spec Hm].
    unfold segment_bound. split; [done|]. split; [lia|done]. }
  destruct (encode_record_frame n r) as [frame|e] eqn:He.
  2:{ rewrite (bind_err (lift_result (Err e)) _ ws e ws) by done. by apply Hsame. }
  rewrite (bind_ok (lift_result (Ok frame)) _ ws frame ws) by done.
  destruct (frame_bound n r frame He) as [H8 Hb]. assert (HM : 8 + MAX_RECORD_BODY_LEN < U64_LIMIT) by done.
  unfold u64_try_from. rewrite (proj2 (N.ltb_lt (lenN frame) U64_LIMIT)) by lia.
  rewrite (bind_ok get_writer _ ws (ws_writer ws) ws) by done.
  destruct ((if should_rotate (ws_writer ws) (lenN frame) then writer_rotate else mret ()) ws) as [[[]|e] ws1] eqn:Er.
  2:{ rewrite (bind_err _ _ _ _ _ Er). apply Hsame. pose proof (writer_rotate_numbers ws) as Hrot.
      destruct (should_rotate _ _); [by rewrite Er in Hrot|done]. }
  rewrite (bind_ok _ _ _ _ _ Er).
  destruct (write_fits _ _ _ _ _ Hf Hb eq_refl Er) as (Hf1 & Hm1 & Hl1 & Hb1).
  rewrite (bind_ok get_writer _ ws1 (ws_writer ws1) ws1) by done.
  pose proof (on_writer_file_numbers (file_write_all frame) ws1) as Hw.
  destruct (on_writer_file (file_write_all frame) ws1) as [[[]|e] ws2] eqn:Ew; cbn [snd] in Hw.
  2:{ rewrite (bind_err _ _ _ _ _ Ew). split; [by eapply numbers_fit|].
      apply pair_equal_spec in Hw as [[_ ->]%pair_equal_spec ->]. split; [done|]. split; [lia|done]. }
  rewrite (bind_ok _ _ _ _ _ Ew). unfold u64_checked_add. rewrite (proj2 (N.ltb_lt _ _)) by done.
  apply pair_equal_spec in Hw as [[Ha Hl]%pair_equal_spec Hm].
  unfold get_writer, set_writer, modify, get_state, mret, M_ret, mbind, M_bind, on_world, zoom, w_count.
  cbn [ws_writer ws_world segment_len active_segment max_segment_len position_segment position_offset].
  split; [split; cbn; [by rewrite Ha; apply Hf1|done|by rewrite Hm; apply Hf1]|]. split; [by rewrite Hm|].
  split; [done|]. split; [split; cbn; apply Hf1|]. split; [done|]. cbn. clear -H8. lia.
Qed.

(** Two sequences with steps that agree. *)
Lemma bind_agree {S A B} (m m' : M S A) (f g : A → M S B) s :
  m s = m' s → (∀ a s', m s = (Ok a, s') → f a s' = g a s') → (m ≫= f) s = (m' ≫= g) s.
Proof.
  intros Hm Hf. unfold mbind, M_bind. rewrite <-Hm. destruct (m s) as [[a|e] s'] eqn:E; [by apply Hf|done].
Qed.

(** A sync leaves the active segment. *)
Lemma sync_current_active ws a ws' :
  sync_current_segment ws = (a, ws') → active_segment (ws_writer ws') = active_segment (ws_writer ws).
Proof.
  intros H. pose proof (sync_current_numbers ws) as H0. rewrite H in H0.
  by apply pair_equal_spec in H0 as [[Ha _]%pair_equal_spec _].
Qed.

(** Before the last segment ID a rotation is the unbounded one. *)
Lemma rotate_is_unbounded ws :
  segment_id (active_segment (ws_writer ws)) + 1 < U64_LIMIT → writer_rotate ws = rotate_unbounded ws.
Proof.
  intros Hid. apply bind_agree; [done|]. intros [] ws0 H0%sync_current_active. rewrite <-H0 in Hid.
  rewrite !(bind_ok get_writer _ ws0 (ws_writer ws0) ws0) by done.
  unfold next_append, segment_id_next, u64_checked_add. by rewrite (proj2 (N.ltb_lt _ _) Hid).
Qed.

(** At the last segment ID a rotation syncs the segment and fails. *)
Lemma rotate_after_last ws :
  segment_id (active_segment (ws_writer ws)) + 1 = U64_LIMIT →
  writer_rotate ws = (sync_current_segment ;; throw (invalid_data "segment ID overflow")) ws.
Proof.
  intros Hid. apply bind_agree; [done|]. intros [] ws0 H0%sync_current_active. rewrite <-H0 in Hid.
  rewrite (bind_ok get_writer _ ws0 (ws_writer ws0) ws0) by done.
  unfold next_append, segment_id_next, u64_checked_add. by rewrite Hid, N.ltb_irrefl.
Qed.

(** The rest of an append is the unbounded one. *)
Lemma append_is_unbounded n r ws :
  writer_fits (ws_writer ws) →
  segment_id (active_segment (ws_writer ws)) + 1 < U64_LIMIT ∨ needs_rotation n r (ws_writer ws) = false →
  writer_append n r ws = append_unbounded n r ws.
Proof.
  intros Hf Hid. unfold writer_append, append_unbounded. unfold needs_rotation in Hid.
  destruct (encode_record_frame n r) as [frame|e] eqn:He; [|done].
  rewrite !(bind_ok (lift_result (Ok frame)) _ ws frame ws) by done.
  destruct (frame_bound n r frame He) as [H8 Hb]. assert (HM : 8 + MAX_RECORD_BODY_LEN < U64_LIMIT) by done.
  unfold u64_try_from. rewrite (proj2 (N.ltb_lt (lenN frame) U64_LIMIT)) by lia.
  rewrite !(bind_ok get_writer _ ws (ws_writer ws) ws) by done.
  rewrite <-should_rotate_unbounded in * by apply Hf.
  apply bind_agree.
  { destruct (should_rotate _ _); [|done]. apply rotate_is_unbounded. by destruct Hid. }
  intros [] ws1 Er. destruct (write_fits _ _ _ _ _ Hf Hb eq_refl Er) as (_ & _ & Hl1 & _).
  rewrite !(bind_ok get_writer _ ws1 (ws_writer ws1) ws1) by done.
  unfold u64_checked_add. by rewrite (proj2 (N.ltb_lt _ _) Hl1).
Qed.

(** When the last segment is full an append fails. *)
Lemma append_after_last n r ws :
  writer_fits (ws_writer ws) →
  segment_id (active_segment (ws_writer ws)) + 1 = U64_LIMIT → needs_rotation n r (ws_writer ws) = true →
  writer_append n r ws = (sync_current_segment ;; throw (invalid_data "segment ID overflow")) ws.
Proof.
  intros Hf Hid Hr. unfold writer_append. unfold needs_rotation in Hr.
  destruct (encode_record_frame n r) as [frame|e] eqn:He; [|done].
  rewrite (bind_ok (lift_result (Ok frame)) _ ws frame ws) by done.
  destruct (frame_bound n r frame He) as [H8 Hb]. assert (HM : 8 + MAX_RECORD_BODY_LEN < U64_LIMIT) by done.
  unfold u64_try_from. rewrite (proj2 (N.ltb_lt (lenN frame) U64_LIMIT)) by lia.
  rewrite (bind_ok get_writer _ ws (ws_writer ws) ws) by done.
  rewrite should_rotate_unbounded, Hr by apply Hf.
  pose proof (rotate_after_last ws Hid) as Hrot. unfold mbind, M_bind in Hrot |- *. rewrite Hrot.
  by destruct (sync_current_segment ws) as [[[]|e] ws1].
Qed.

(** [C14] The overflow behaviour of an append, exactly.  While the segment ID,
    the length of the active segment and the maximum length are 64-bit integers
    they stay so, however the calls turn out.  Only one of the checked
    conversions and additions can fail, that of the next segment ID: unless the
    record needs a rotation and the active segment has the last 64-bit ID, the
    append is the one over unbounded integers; in that case it syncs the segment
    and then reports the overflow (or the failure of the sync) without writing
    anything.  The segment stays within the maximum length, or the length it
    had, or that of a header and one record of maximum size; and a returned
    position is that of a record inside the active segment. *)
Theorem append_overflow_exact n r ws :
  let w := ws_writer ws in
  writer_fits w →
  writer_append n r ws =
    (if needs_rotation n r w && (segment_id (active_segment w) =? U64_LIMIT - 1)
     then sync_current_segment ;; throw (invalid_data "segment ID overflow")
     else append_unbounded n r) ws ∧
  let '(res, ws') := writer_append n r ws in
  writer_fits (ws_writer ws') ∧ max_segment_len (ws_writer ws') = max_segment_len w ∧
  segment_len (ws_writer ws') ≤ segment_bound w ∧
  match res with
  | Ok p => position_fit p ∧ position_segment p = active_segment (ws_writer ws') ∧
            position_offset p < segment_len (ws_writer ws')
  | Err _ => True
  end.
Proof.
  intros w Hf. split; [|by apply writer_append_numbers]. pose proof (wf_id _ Hf).
  assert (HU : 0 < U64_LIMIT) by done.
  destruct (needs_rotation n r w) eqn:Hr; cbn [andb]; [|apply append_is_unbounded; [done|by right]].
  destruct (N.eqb_spec (segment_id (active_segment w)) (U64_LIMIT - 1)) as [Hid|Hid].
  - apply append_after_last; [done| |done]. fold w. lia.
  - apply append_is_unbounded; [done|]. left. fold w. lia.
Qed.
End writer.

(** ** The engine *)

Section engine.
Context `{NJL : NojsonLaws} `{NL : NoraftLaws}.

(** No segment gets longer than this. *)
Context (limit : N).
Hypothesis Hlimit : 4 + 8 + MAX_RECORD_BODY_LEN ≤ limit.

(** The engine is made of machine integers, and its segments respect the limit. *)
Record engine_fits (e : StorageEngine) : Prop := {
  ef_writer : writer_fits (engine_writer e);
  ef_len : segment_len (engine_writer e) ≤ limit;
  ef_max : max_segment_len (engine_writer e) ≤ limit;
  ef_index : index_fit (engine_index e);
  ef_registry : registry_u64 (engine_registry e);
}.

(** [m] keeps the engine fit, and returns what [Q] says. *)
Definition stays {A} (Q : A → Prop) (m : M EngineState A) : Prop := ∀ s,
  engine_fits (es_engine s) →
  let '(r, s') := m s in engine_fits (es_engine s') ∧ match r with Ok a => Q a | Err _ => True end.

Definition any {A} (a : A) : Prop := True.

Lemma stays_ret {A} (Q : A → Prop) (a : A) : Q a → stays Q (mret a).
Proof. by split. Qed.

Lemma stays_throw {A} (Q : A → Prop) e : stays Q (throw e : M EngineState A).
Proof. by split. Qed.

Lemma stays_lift {A} (Q : A → Prop) (r : result A) :
  match r with Ok a => Q a | Err _ => True end → stays Q (lift_result r).
Proof. by split. Qed.

Lemma stays_bind {A B} (P : A → Prop) (Q : B → Prop) (m : M EngineState A) (f : A → M EngineState B) :
  stays P m → (∀ a, P a → stays Q (f a)) → stays Q (m ≫= f).
Proof.
  intros Hm Hf s Hs. specialize (Hm s Hs). unfold mbind, M_bind.
  destruct (m s) as [[a|e] s']; [|by destruct Hm]. destruct Hm as [Hs' Ha]. by apply (Hf a Ha s').
Qed.

Lemma stays_try {A} (Q : A → Prop) (m : M EngineState A) : stays Q m → stays any (try_catch m).
Proof. intros Hm s Hs. specialize (Hm s Hs). unfold try_catch. destruct (m s) as [r s']. by destruct Hm. Qed.

Lemma stays_get_engine {A} (Q : A → Prop) (f : StorageEngine → M EngineState A) :
  (∀ e, engine_fits e → stays Q (f e)) → stays Q (get_engine ≫= f).
Proof. intros Hf s Hs. exact (Hf _ Hs s Hs). Qed.

Lemma stays_world {A} (m : M World A) : stays any (es_on_world m).
Proof. intros s Hs. unfold es_on_world, zoom. destruct (m _) as [[a|e] w]; (split; [exact Hs|exact I]). Qed.

Lemma stays_count f : stays any (count f).
Proof. apply stays_world. Qed.

Lemma stays_set_registry r : registry_u64 r → stays any (set_registry r).
Proof. intros Hr s [H1 H2 H3 H4 H5]. split; [split; [exact H1|exact H2|exact H3|exact H4|exact Hr]|exact I]. Qed.

Lemma stays_set_index x : index_fit x → stays any (set_index x).
Proof. intros Hx s [H1 H2 H3 H4 H5]. split; [split; [exact H1|exact H2|exact H3|exact Hx|exact H5]|exact I]. Qed.

Lemma stays_append n r : stays position_fit (es_on_writer (writer_append n r)).
Proof using Hlimit.
  intros s [H1 H2 H3 H4 H5]. unfold es_on_writer, zoom.
  pose proof (writer_append_numbers n r (mkWriterState (es_world s) (engine_writer (es_engine s))) H1) as H.
  destruct (writer_append n r _) as [res ws]. destruct H as (Hf & Hm & Hl & Hp). cbn [ws_writer] in *.
  split; [|by destruct res; [apply Hp|]]. split; cbn [es_engine engine_writer engine_index engine_registry]; try done.
  - etrans; [exact Hl|]. unfold segment_bound. lia.
  - by rewrite Hm.
Qed.

Lemma stays_sync : stays any (es_on_writer writer_sync).
Proof.
  intros s [H1 H2 H3 H4 H5]. unfold es_on_writer, zoom.
  pose proof (writer_sync_numbers (mkWriterState (es_world s) (engine_writer (es_engine s)))) as H.
  destruct (writer_sync _) as [res ws]. cbn [snd] in H. pose proof (numbers_fit _ _ H H1) as Hf.
  apply pair_equal_spec in H as [[_ Hl]%pair_equal_spec Hm]. cbn [ws_writer] in *.
  split; [|by destruct res]. split; cbn [es_engine engine_writer engine_index engine_registry]; try done; congruence.
Qed.

Create HintDb stays.
#[local] Hint Resolve stays_ret stays_throw stays_world stays_count stays_append stays_sync : stays.
#[local] Hint Extern 1 (any _) => exact I : stays.
#[local] Hint Extern 3 (stays _ (get_engine ≫= _)) => (apply stays_get_engine; intros ? ?) : stays.
#[local] Hint Extern 5 (stays _ (_ ≫= _)) => (eapply stays_bind; [|intros ? ?]) : stays.
#[local] Hint Extern 6 (stays _ (if ?b then _ else _)) => destruct b : stays.
#[local] Hint Extern 6 (stays _ (match ?x with _ => _ end)) => destruct x : stays.
#[local] Hint Extern 7 (stays _ (let _ := _ in _)) => cbv zeta : stays.
Ltac solve_stays := eauto 40 with stays.

Lemma stays_ensure n op : stays any (engine_ensure_node_exists n op).
Proof using Type. unfold engine_ensure_node_exists. solve_stays. Qed.
Lemma stays_refresh_registry : stays any refresh_registry_metrics.
Proof using Type. unfold refresh_registry_metrics. solve_stays. Qed.
Lemma stays_refresh_index : stays any refresh_checkpoint_index_metrics.
Proof using Type. unfold refresh_checkpoint_index_metrics. solve_stays. Qed.
#[local] Hint Resolve stays_ensure stays_refresh_registry stays_refresh_index : stays.

Lemma stays_delete_segments b active paths k : stays any (delete_segments b active paths k).
Proof using Type.
  revert k. induction paths as [|p paths IH]; intros k; [by apply stays_ret|]. rewrite delete_segments_cons.
  destruct (deletable _ _ _); [|apply IH]. eapply stays_bind; [eapply stays_try, stays_world|]. intros r _.
  destruct r as [?|e]; [apply IH|]. destruct (bool_decide _); [apply IH|apply stays_throw].
Qed.
#[local] Hint Resolve stays_delete_segments : stays.

Lemma stays_collect_garbage : stays any collect_garbage.
Proof using Type. unfold collect_garbage. solve_stays. Qed.
#[local] Hint Resolve stays_collect_garbage : stays.

Lemma stays_save_record n r op : stays any (save_record n r op).
Proof. unfold save_record. solve_stays. Qed.

Lemma registry_u64_create n md r :
  u64 n → registry_u64 r → registry_u64 (registry_create_node n md r).2.
Proof.
  intros Hn Hr. unfold registry_create_node, get_state, mbind, M_bind.
  destruct (registry_nodes r !! n); [done|by apply registry_u64_insert].
Qed.

Lemma registry_u64_remove n r : registry_u64 r → registry_u64 (registry_remove_node n r).2.
Proof.
  intros Hr. unfold registry_remove_node, get_state, mbind, M_bind.
  destruct (registry_nodes r !! n) as [y|] eqn:E; [|done]. destruct (entry_removed y); [done|].
  apply registry_u64_insert; [done|]. by apply (Hr n y).
Qed.

Lemma stays_tables r x (m : M EngineState ()) :
  registry_u64 r → index_fit x → stays any m → stays any (set_registry r ;; set_index x ;; m).
Proof.
  intros Hr Hx Hm. eapply stays_bind; [by apply stays_set_registry|]. intros _ _.
  eapply stays_bind; [by apply stays_set_index|]. by intros _ _.
Qed.

Lemma stays_create_node n md : u64 n → stays any (create_node n md).
Proof.
  intros Hn. unfold create_node. apply stays_get_engine. intros e He.
  pose proof (registry_u64_create n md _ Hn (ef_registry _ He)) as Hr.
  destruct (registry_create_node n md (engine_registry e)) as [r reg]. cbn [snd] in Hr.
  eapply (stays_bind any); [by apply stays_lift; destruct r|]. intros _ _.
  eapply stays_bind; [apply stays_append|]. intros p Hp.
  eapply stays_bind; [apply stays_sync|]. intros _ _. apply stays_get_engine. intros e' He'.
  eapply stays_bind; [apply stays_world|]. intros _ _. eapply stays_bind; [apply stays_world|]. intros _ _.
  apply stays_tables; [done|by apply index_fit_set, He'|]. solve_stays.
Qed.

Lemma stays_save_snapshot n c : u64 n → stays any (save_snapshot n c).
Proof.
  intros Hn. unfold save_snapshot. eapply stays_bind; [apply stays_ensure|]. intros _ _.
  eapply (stays_bind any); [by apply stays_lift; case_match|]. intros _ _.
  eapply stays_bind; [apply stays_append|]. intros p Hp.
  eapply stays_bind; [apply stays_sync|]. intros _ _. apply stays_get_engine. intros e' He'.
  eapply stays_bind; [apply stays_world|]. intros _ _.
  eapply stays_bind; [by apply stays_set_index, index_fit_set, He'|]. solve_stays.
Qed.

Lemma index_fit_remove n x : index_fit x → index_fit (index_remove_node n x).
Proof. intros Hx. by apply map_Forall_delete. Qed.

Lemma stays_remove_node n : stays any (remove_node n).
Proof.
  unfold remove_node. eapply stays_bind; [apply stays_ensure|]. intros _ _. apply stays_get_engine. intros e He.
  pose proof (registry_u64_remove n _ (ef_registry _ He)) as Hr.
  destruct (registry_remove_node n (engine_registry e)) as [r reg]. cbn [snd] in Hr.
  eapply (stays_bind any); [by apply stays_lift; destruct r|]. intros _ _.
  eapply stays_bind; [apply stays_world|]. intros _ _. eapply stays_bind; [by apply stays_set_registry|]. intros _ _.
  apply stays_get_engine. intros e' He'. eapply stays_bind; [apply stays_world|]. intros _ _.
  eapply stays_bind; [by apply stays_set_index, index_fit_remove, He'|]. solve_stays.
Qed.

Lemma stays_exec op : op_fit op → stays any (exec op).
Proof.
  intros Hop. destruct op; cbn [exec op_fit] in *; (eapply (stays_bind any); [|intros ? ?; by apply stays_ret]).
  - by apply stays_create_node.
  - apply stays_save_record.
  - apply stays_save_record.
  - apply stays_save_record.
  - apply stays_save_snapshot. exact (proj1 Hop).
  - apply stays_remove_node.
  - unfold engine_sync. solve_stays.
  - unfold engine_load. solve_stays.
  - unfold engine_load_all. solve_stays.
Qed.

(** The engine is well formed.  If the numbers that an engine keeps are
    64-bit integers (its writer's, the positions in its index, the node IDs in
    its index and registry) and its segment is within the limit, then after any
    operation with 64-bit arguments they are so again, whatever the directory
    holds, however the calls turn out, and also when the operation fails. *)
Theorem engine_stays_fit op s :
  engine_fits (es_engine s) → op_fit op →
  let '(_, s') := exec op s in engine_fits (es_engine s').
Proof.
  intros Hs Hop. pose proof (stays_exec op Hop s Hs) as H. destruct (exec op s) as [r s']. apply H.
Qed.
End engine.

(** ** Witnesses *)

Section witnesses.
#[local] Existing Instance ListLog.instance.
#[local] Existing Instance ListLog.laws.

Lemma fresh_writer_fits : writer_fits fresh_writer.
Proof. by split. Qed.

(** The longest segment of the fresh engine. *)
Definition fresh_limit : N := 4 + 8 + MAX_RECORD_BODY_LEN.

Lemma fresh_engine_fits : engine_fits fresh_limit fresh_engine.
Proof. split; [apply fresh_writer_fits|done|done|by intros n e|by intros n e]. Qed.

(** A full segment with the last ID. *)
Definition last_writer : WriterState :=
  mkWriterState (mkWorld fresh_fs metrics_default)
    (mkSegmentWriter (mkSegmentName (U64_LIMIT - 1)) (writer_file fresh_writer) 20 20).

Lemma last_writer_fits : writer_fits (ws_writer last_writer).
Proof. by split. Qed.

(** Appending to the fresh engine while the second call fails, and to a full
    segment with the last ID. *)
Definition failing_writer : WriterState :=
  mkWriterState (mkWorld (set_faults [None; Some 0] fresh_fs) metrics_default) fresh_writer.

Lemma append_overflow_exact_witness :
  (let '(_, ws') := @writer_append ListLog.instance 3 Example_record.record failing_writer in
   writer_fits (ws_writer ws') ∧ segment_len (ws_writer ws') ≤ segment_bound fresh_writer) ∧
  (@writer_append ListLog.instance 3 Example_record.record last_writer).1
    = Err (invalid_data "segment ID overflow").
Proof.
  split.
  - destruct (append_overflow_exact 3 Example_record.record failing_writer fresh_writer_fits) as [_ H].
    destruct (writer_append 3 Example_record.record failing_writer) as [res ws']. destruct H as (H1 & _ & H2 & _).
    split; [exact H1|exact H2].
  - destruct (append_overflow_exact 3 Example_record.record last_writer last_writer_fits) as [H _].
    rewrite H. vm_compute. reflexivity.
Defined.

Lemma engine_stays_fit_witness :
  let '(_, s') := exec (OpCreateNode 7 example_metadata) fresh_state in engine_fits fresh_limit (es_engine s').
Proof.
  assert (Hlimit : 4 + 8 + MAX_RECORD_BODY_LEN ≤ fresh_limit) by apply N.le_refl.
  assert (Hop : op_fit (OpCreateNode 7 example_metadata)) by reflexivity.
  exact (engine_stays_fit fresh_limit Hlimit (OpCreateNode 7 example_metadata) fresh_state fresh_engine_fits Hop).
Defined.
End witnesses.
