(* ===== verification/OpenBounds.v ===== *)
(** * Machine integers from opening on

    Whatever the files of a directory hold, an engine that opening returns is
    made of 64-bit integers, and its operations keep it so. *)
From Stdlib Require Import Strings.Byte Strings.String.
From S2P Require Import Prelude Metrics Fs Text Json Noraft State Crc32c Codec Format Frame.
From S2P Require Import Segment Replay Registry Checkpoint Engine Recovery RecoveryCorrect.
From S2P Require Import ReplayCorrect WriterCorrect MetadataCorrect EngineCorrect NodeCorrect EngineSpec LoadCorrect.
From S2P Require Import AsyncStore OpenCorrect Faults DurableOps Bounds EngineTheorems JsonExample EngineExample.

(** ** What programs return *)

Definition returns {S A} (Q : A → Prop) (m : M S A) : Prop := ∀ s a s', m s = (Ok a, s') → Q a.

Section rules.
Context {S : Type}.

Lemma returns_ret {A} (Q : A → Prop) (a : A) : Q a → returns (S:=S) Q (mret a).
Proof. by intros Ha s b s' [= <- _]. Qed.

Lemma returns_throw {A} (Q : A → Prop) e : returns (S:=S) Q (throw e : M S A).
Proof. by intros s a s'. Qed.

Lemma returns_bind {A B} (P : A → Prop) (Q : B → Prop) (m : M S A) (f : A → M S B) :
  returns P m → (∀ a, P a → returns Q (f a)) → returns Q (m ≫= f).
Proof. intros Hm Hf s b s' (a & s1 & H1 & H2)%bind_ok_inv. apply (Hf a (Hm _ _ _ H1) _ _ _ H2). Qed.

Lemma returns_true {A} (m : M S A) : returns (λ _, True) m.
Proof. by intros s a s' _. Qed.

Lemma returns_seq {A B} (Q : B → Prop) (m : M S A) (f : A → M S B) :
  (∀ a, returns Q (f a)) → returns Q (m ≫= f).
Proof. intros Hf. eapply returns_bind; [apply returns_true|]. auto. Qed.
End rules.

(** ** Tables *)

Lemma map_insert_u64 {V} (P : V → Prop) n v (x : gmap N V) :
  n < U64_LIMIT → P v → map_Forall (λ n e, n < U64_LIMIT ∧ P e) x → map_Forall (λ n e, n < U64_LIMIT ∧ P e) (<[n := v]> x).
Proof. intros Hn Hv Hx. by apply map_Forall_insert_2. Qed.

Section tables.
Context `{NJL : NojsonLaws}.

Lemma parse_registry_u64 kvs nodes nodes' :
  map_Forall (λ n _, n < U64_LIMIT) nodes → parse_registry_nodes kvs nodes = Some nodes' →
  map_Forall (λ n _, n < U64_LIMIT) nodes'.
Proof.
  revert nodes. induction kvs as [|[k v] kvs IH]; intros nodes Hn; cbn [parse_registry_nodes]; [by intros [= <-]|].
  intros (t & _ & H)%bind_Some. apply bind_Some in H as (n & Hp%parse_u64_bound & H). apply bind_Some in H as (y & _ & H).
  unfold btree_insert in H. case_bool_decide; [done|]. apply (IH _ ltac:(by apply map_Forall_insert_2) H).
Qed.

Lemma returns_registry : returns registry_u64 registry_load.
Proof.
  unfold registry_load. apply returns_seq. intros [text|]; [|by apply returns_ret; intros n y].
  destruct (json_parse text) as [j|]; [|apply returns_throw].
  destruct (parse_node_registry (json_value j)) as [r|] eqn:E; [|apply returns_throw]. apply returns_ret.
  unfold parse_node_registry in E. apply bind_Some in E as (v & _ & E). apply bind_Some in E as (k & _ & E).
  destruct (negb _); [done|]. apply bind_Some in E as (nv & _ & E). apply bind_Some in E as (ms & _ & E).
  apply bind_Some in E as (nodes & Hp & [= <-]). by eapply parse_registry_u64; [|exact Hp].
Qed.

Lemma parse_entry_fit v x : parse_checkpoint_node_index v = Some x → index_entry_fit x.
Proof.
  unfold parse_checkpoint_node_index. intros (sv & _ & E)%bind_Some. apply bind_Some in E as (s & _ & E).
  apply bind_Some in E as (name & Hname & E). apply bind_Some in E as (ov & _ & E).
  apply bind_Some in E as (off & Hoff & [= <-]).
  split; [exact (proj2 (parse_file_name_canonical _ _ Hname))|exact (json_to_u64_bound _ _ Hoff)].
Qed.

Lemma parse_index_fit kvs nodes nodes' :
  map_Forall (λ n e, n < U64_LIMIT ∧ index_entry_fit e) nodes → parse_index_nodes kvs nodes = Some nodes' →
  map_Forall (λ n e, n < U64_LIMIT ∧ index_entry_fit e) nodes'.
Proof.
  revert nodes. induction kvs as [|[k v] kvs IH]; intros nodes Hn; cbn [parse_index_nodes]; [by intros [= <-]|].
  intros (t & _ & H)%bind_Some. apply bind_Some in H as (n & Hp%parse_u64_bound & H).
  apply bind_Some in H as (y & Hy%parse_entry_fit & H).
  unfold btree_insert in H. case_bool_decide; [done|]. exact (IH _ (map_insert_u64 index_entry_fit n y nodes Hp Hy Hn) H).
Qed.

Lemma returns_index `{NR : Noraft} E : returns index_fit (index_load E).
Proof.
  unfold index_load. apply returns_seq. intros [text|]; [|by apply returns_ret; intros n y].
  destruct (json_parse text) as [j|]; [|apply returns_throw].
  destruct (parse_checkpoint_index (json_value j)) as [x|] eqn:Ex; [|apply returns_throw]. cbv zeta.
  apply returns_seq. intros _. apply returns_ret. 
  unfold parse_checkpoint_index in Ex. apply bind_Some in Ex as (v & _ & Ex). apply bind_Some in Ex as (k & _ & Ex).
  destruct (negb _); [done|]. apply bind_Some in Ex as (nv & _ & Ex). apply bind_Some in Ex as (ms & _ & Ex).
  apply bind_Some in Ex as (nodes & Hp & [= <-]).
  assert (Hfit : map_Forall (λ n e, n < U64_LIMIT ∧ index_entry_fit e) nodes) by by eapply parse_index_fit; [|exact Hp].
  intros n y. cbn [index_nodes retain_active]. intros [Hy _]%map_lookup_filter_Some. by apply Hfit.
Qed.
End tables.

(** ** Opening *)

Lemma returns_select : returns (λ a, segment_id a < U64_LIMIT) select_active_append_segment.
Proof.
  unfold select_active_append_segment.
  apply (returns_bind (λ l, ∀ p, p ∈ l → segment_id (path_name p) < U64_LIMIT)).
  - unfold discover_segment_paths. apply returns_seq. intros [entries|e].
    + apply returns_seq. intros _. apply returns_ret. intros p. rewrite merge_sort_Permutation, list_elem_of_omap.
      intros ([name x] & _ & Hp). unfold segment_path_of in Hp. cbn [fst snd] in Hp. destruct x as [i|]; [|done].
      apply fmap_Some in Hp as (n & Hn%parse_file_name_canonical & ->). apply Hn.
    + case_bool_decide; [|apply returns_throw]. apply returns_ret. by intros p ?%elem_of_nil.
  - intros l Hl. assert (Hfold : ∀ (l : list SegmentPath) acc, (∀ p, p ∈ l → segment_id (path_name p) < U64_LIMIT) →
      segment_id acc < U64_LIMIT → segment_id (foldl name_max acc (path_name <$> l)) < U64_LIMIT).
    { clear. induction l as [|p l IH]; intros acc Hl Ha; [done|]. cbn [fmap list_fmap foldl]. apply IH.
      - intros q Hq. apply Hl. by right.
      - unfold name_max. case_decide; [apply Hl; by left|done]. }
    destruct l as [|p l]; [by apply returns_ret|]. cbn [fmap list_fmap]. apply returns_ret.
    apply Hfold; [intros q Hq; apply Hl; by right|apply Hl; by left].
Qed.

(** The writer knows the length of the active segment. *)
Lemma writer_open_numbers active max_len w sw w' :
  segment_writer_open active max_len w = (Ok sw, w') →
  active_segment sw = active ∧ max_segment_len sw = max_len ∧
  segment_len sw = lenN (data_of (file_inode (writer_file sw)) (w_fs w')).
Proof.
  unfold segment_writer_open. cbv zeta. intros (ex & w1 & _ & H)%bind_ok_inv.
  apply bind_ok_inv in H as (f & w2 & _ & H). apply bind_ok_inv in H as ([] & w3 & _ & H).
  apply bind_ok_inv in H as ([len f'] & w4 & Hk & H). apply bind_ok_inv in H as ([] & w5 & Hc & [= <- <-]).
  split; [done|]. split; [done|]. cbn [segment_len writer_file fst snd].
  assert (w_fs w5 = w_fs w4) as -> by (by injection Hc as <-). clear Hc.
  unfold with_file_kept, with_file in Hk.
  match type of Hk with (let '(_, _) := ?x in _) = _ => destruct x as [r io] eqn:E end. injection Hk as -> <-.
  apply bind_ok_inv in E as (n & io1 & E1 & E2). apply bind_ok_inv in E2 as (io2 & io3 & [= <- <-] & [= -> <- <-]).
  unfold file_seek_end in E1. apply bind_ok_inv in E1 as ([] & io2 & _ & E1).
  apply bind_ok_inv in E1 as (io3 & io4 & [= <- <-] & E1). cbv zeta in E1. by injection E1 as <- <-.
Qed.

Section engine.
Context `{NJL : NojsonLaws} `{NL : NoraftLaws}.

(** All files are at most [limit] bytes long. *)
Definition files_within (limit : N) (fs : Fs) : Prop := ∀ i, lenN (data_of i fs) ≤ limit.

Lemma open_fits limit max_len w e w' :
  limit < U64_LIMIT → max_len ≤ limit → files_within limit (w_fs w') →
  with_max_segment_len max_len w = (Ok e, w') → engine_fits limit e.
Proof.
  intros Hlim Hmax Hfiles. unfold with_max_segment_len. destruct (_ =? 0); [done|].
  intros ([] & w1 & _ & H)%bind_ok_inv. apply bind_ok_inv in H as (lock & w2 & _ & H).
  unfold release_on_error in H. match type of H with (match ?x with _ => _ end) = _ => destruct x as [[e0|?] w3] eqn:E end; [|done].
  injection H as -> ->. apply bind_ok_inv in E as (active & w3 & Ha%returns_select & H).
  apply bind_ok_inv in H as ([] & w4 & _ & H). apply bind_ok_inv in H as ([] & w5 & _ & H).
  apply bind_ok_inv in H as (reg & w6 & Hr%returns_registry & H). apply bind_ok_inv in H as (x & w7 & Hx%returns_index & H).
  apply bind_ok_inv in H as ([] & w8 & _ & H). apply bind_ok_inv in H as ([] & w9 & _ & H).
  apply bind_ok_inv in H as (sw & w10 & Hw%writer_open_numbers & [= <- <-]). destruct Hw as (Hact & Hm & Hl).
  specialize (Hfiles (file_inode (writer_file sw))). rewrite <-Hl in Hfiles.
  split; cbn [engine_writer engine_index engine_registry]; [split; [by rewrite Hact|lia|rewrite Hm; lia]|done|by rewrite Hm|done|done].
Qed.

(** [C15] The engine is well formed.  Whatever a directory holds, and however
    the calls turn out: if opening returns an engine, the numbers it keeps (its
    writer's, the positions in its index, the node IDs in its index and registry)
    are 64-bit integers, and its segment and the maximum length are within any
    limit that the files and the argument are within; and so it is after any
    operations with 64-bit arguments, failed ones included, in whatever state the
    directory and the counters are then. *)
Theorem opened_engine_stays_fit limit max_len w e w' world ops :
  4 + 8 + MAX_RECORD_BODY_LEN ≤ limit → limit < U64_LIMIT → max_len ≤ limit → files_within limit (w_fs w') →
  with_max_segment_len max_len w = (Ok e, w') → Forall op_fit ops →
  engine_fits limit e ∧ engine_fits limit (es_engine (exec_all ops (mkEngineState world e)).2).
Proof.
  intros Hlim1 Hlim2 Hmax Hfiles Hopen Hops. pose proof (open_fits limit max_len w e w' Hlim2 Hmax Hfiles Hopen) as He.
  split; [done|]. assert (Hs : engine_fits limit (es_engine (mkEngineState world e))) by done.
  revert Hs. generalize (mkEngineState world e). clear -Hlim1 Hops. induction Hops as [|op ops Hop Hops IH]; intros s Hs; [done|].
  cbn [exec_all]. pose proof (stays_exec limit Hlim1 op Hop s Hs) as H. destruct (exec op s) as [r s'].
  specialize (IH s' ltac:(apply H)). by destruct (exec_all ops s') as [rs s2].
Qed.
End engine.

(** ** Witness *)

Section witness.
#[local] Existing Instance ListLog.instance.

Lemma files_within_map limit fs : map_Forall (λ _ x, lenN (i_data x) ≤ limit) (fs_inodes fs) → files_within limit fs.
Proof.
  intros H i. unfold data_of, inode_of. destruct (fs_inodes fs !! i) as [x|] eqn:E; [exact (H i x E)|apply N.le_0_l].
Qed.

(** Opening the directory of the fresh engine, which was stopped. *)
Definition stopped_world : World := mkWorld (set_locks ∅ fresh_fs) metrics_default.

Lemma opened_engine_stays_fit_witness :
  ∃ e w, with_max_segment_len 1000 stopped_world = (Ok e, w) ∧
    engine_fits fresh_limit e ∧
    engine_fits fresh_limit (es_engine (exec_all [OpCreateNode 7 example_metadata; OpSync] (mkEngineState w e)).2).
Proof.
  assert (Hok : is_ok (with_max_segment_len 1000 stopped_world).1 = true) by (vm_compute; reflexivity).
  destruct (with_max_segment_len 1000 stopped_world) as [[e|err] w] eqn:E; [|discriminate Hok]. clear Hok.
  assert (Hf : files_within fresh_limit (w_fs w)).
  { assert (Hw : w = (with_max_segment_len 1000 stopped_world).2) by (rewrite E; reflexivity). clear E. subst w.
    apply files_within_map. apply (bool_decide_unpack _). vm_compute. exact I. }
  exists e, w. split; [reflexivity|].
  apply (opened_engine_stays_fit fresh_limit 1000 stopped_world e w w [OpCreateNode 7 example_metadata; OpSync]
    ltac:(apply N.le_refl) ltac:(vm_compute; reflexivity) ltac:(vm_compute; discriminate) Hf E).
  repeat constructor.
Defined.
End witness.
