(* ===== verification/Events.v ===== *)
(** * What the counters count

    The counters of [StorageMetrics] as totals over a list of events: an event
    for everything that is counted, a table of what each event adds to each
    counter ([amount]), and the events that each operation of the engine
    stands for ([op_events]).  The operations are shown to count their events,
    all of them when they succeed and the first ones when they fail. *)
From Stdlib Require Import Strings.Byte Strings.String.
From S2P Require Import Prelude Metrics Fs Text Json Noraft State Crc32c Codec Format Frame.
From S2P Require Import Segment Replay Registry Checkpoint Engine EngineCorrect NodeCorrect EngineSpec Faults.
From S2P Require Import Durability DurableWriter DurableMetadata DurableGc Tidy Reads Meters.

(** ** Events and totals *)

Inductive Event :=
  | EvWritten (kind : RecordKindMetric) (bytes : N)
  | EvSynced
  | EvRotated
  | EvCollected
  | EvDeleted (segments : N)
  | EvCreated
  | EvRemoved
  | EvSnapshotSaved
  | EvSyncRequested
  | EvRejected (operation : StorageOperationKind) (error : NodeAccessErrorKind).

#[export] Instance RecordKindMetric_eq_dec : EqDecision RecordKindMetric.
Proof. solve_decision. Defined.
#[export] Instance StorageOperationKind_eq_dec : EqDecision StorageOperationKind.
Proof. solve_decision. Defined.
#[export] Instance NodeAccessErrorKind_eq_dec : EqDecision NodeAccessErrorKind.
Proof. solve_decision. Defined.

(** The counters that events change; those of the replay of records are not
    among them. *)
Inductive Counter :=
  | RecordsWritten (kind : RecordKindMetric)
  | BytesWritten (kind : RecordKindMetric)
  | SegmentRotations
  | Syncs
  | DurableSyncs
  | NodesCreated
  | NodesRemoved
  | RejectedOperations (operation : StorageOperationKind) (error : NodeAccessErrorKind)
  | SnapshotCheckpointsSaved
  | GcRuns
  | GcSegmentsDeleted.

Definition record_kind_get (kind : RecordKindMetric) (k : RecordKindMetrics) : N :=
  match kind with
  | KindCurrentTerm => rk_current_term k
  | KindVotedFor => rk_voted_for k
  | KindLogAppend => rk_log_append k
  | KindSnapshotCheckpoint => rk_snapshot_checkpoint k
  end.

Definition operation_kind_get (operation : StorageOperationKind) (k : OperationKindMetrics) : N :=
  let '(mkOperationKindMetrics l t v a s r) := k in
  match operation with
  | OpLoad => l
  | OpSaveCurrentTerm => t
  | OpSaveVotedFor => v
  | OpAppendEntries => a
  | OpSaveSnapshot => s
  | OpRemoveNode => r
  end.

Definition counter_value (c : Counter) (m : StorageMetrics) : N :=
  match c with
  | RecordsWritten kind => record_kind_get kind (records_written m)
  | BytesWritten kind => record_kind_get kind (bytes_written m)
  | SegmentRotations => segment_rotations m
  | Syncs => syncs m
  | DurableSyncs => durable_syncs m
  | NodesCreated => nodes_created m
  | NodesRemoved => nodes_removed m
  | RejectedOperations operation UnknownNode =>
      operation_kind_get operation (rejected_unknown_nodes (rejected_operations m))
  | RejectedOperations operation RemovedNode =>
      operation_kind_get operation (rejected_removed_nodes (rejected_operations m))
  | SnapshotCheckpointsSaved => snapshot_checkpoints_saved m
  | GcRuns => gc_runs m
  | GcSegmentsDeleted => gc_segments_deleted m
  end.

(** What an event adds to a counter. *)
Definition amount (c : Counter) (ev : Event) : N :=
  match c, ev with
  | RecordsWritten kind, EvWritten kind' _ => if decide (kind = kind') then 1 else 0
  | BytesWritten kind, EvWritten kind' bytes => if decide (kind = kind') then bytes else 0
  | SegmentRotations, EvRotated => 1
  | Syncs, EvSyncRequested => 1
  | DurableSyncs, EvSynced => 1
  | NodesCreated, EvCreated => 1
  | NodesRemoved, EvRemoved => 1
  | RejectedOperations operation error, EvRejected operation' error' =>
      if decide (operation = operation' ∧ error = error') then 1 else 0
  | SnapshotCheckpointsSaved, EvSnapshotSaved => 1
  | GcRuns, EvCollected => 1
  | GcSegmentsDeleted, EvDeleted segments => segments
  | _, _ => 0
  end.

Definition total (c : Counter) (evs : list Event) : N := foldr (λ ev t, amount c ev + t) 0 evs.
Definition saturated (n : N) : N := N.min n u64_max.

(** The bytes of the records written since the last sync. *)
Definition pending (evs : list Event) : list N :=
  foldl (λ l ev, match ev with EvSynced => [] | EvWritten _ bytes => l ++ [bytes] | _ => l end) [] evs.
Definition sumN (l : list N) : N := foldr N.add 0 l.

(** ** The counters after events, by the functions of the code *)

Definition post (ev : Event) : StorageMetrics → StorageMetrics :=
  match ev with
  | EvWritten kind bytes => record_written kind bytes
  | EvSynced => segment_synced
  | EvRotated => segment_rotated 0 0
  | EvCollected => gc_ran
  | EvDeleted segments => gc_deleted_segments segments
  | EvCreated => node_created
  | EvRemoved => node_removed
  | EvSnapshotSaved => snapshot_checkpoint_saved
  | EvSyncRequested => sync_requested
  | EvRejected operation error => rejected_operation operation error
  end.
Definition posts (evs : list Event) (m : StorageMetrics) : StorageMetrics := foldl (λ m ev, post ev m) m evs.

(** What events change: neither the counters of replay nor the gauges of the
    tables and the active segment. *)
Definition ledger (m : StorageMetrics) :=
  (records_written m, bytes_written m, segment_rotations m, syncs m, durable_syncs m, nodes_created m,
   nodes_removed m, rejected_operations m, snapshot_checkpoints_saved m, gc_runs m, gc_segments_deleted m,
   unsynced_records m, unsynced_bytes m).

#[export] Instance ledger_meter : Meter ledger.
Proof. by split. Qed.

(** Counters with the same ledger. *)
Definition same (m m' : StorageMetrics) : Prop := ledger m = ledger m'.

#[export] Instance same_equivalence : Equivalence same.
Proof. split; unfold same; [by intros ?|by intros ??|by intros ??? -> ->]. Qed.

#[export] Instance post_same ev : Proper (same ==> same) (post ev).
Proof. intros [] []. unfold same, ledger. destruct ev; cbn; congruence. Qed.

#[export] Instance posts_same evs : Proper (same ==> same) (posts evs).
Proof. induction evs as [|ev evs IH]; intros m m' Hm; [exact Hm|]. cbn. apply IH. by rewrite Hm. Qed.

Lemma posts_app evs evs' m : posts (evs ++ evs') m = posts evs' (posts evs m).
Proof. apply foldl_app. Qed.

Lemma total_app c evs evs' : total c (evs ++ evs') = total c evs + total c evs'.
Proof. unfold total. induction evs as [|ev evs IH]; cbn [app foldr]; [done|]. rewrite IH. lia. Qed.

(** The table is right: what the code adds for an event. *)
Lemma post_value c ev m :
  counter_value c m ≤ u64_max → counter_value c (post ev m) = saturated (counter_value c m + amount c ev).
Proof.
  assert (Hno : ∀ n, n ≤ u64_max → n = saturated (n + 0)) by (intros n Hn; unfold saturated; lia).
  assert (Hkind : ∀ kind kind' b k, record_kind_get kind k ≤ u64_max →
    record_kind_get kind (record_kind_increment kind' b k)
    = saturated (record_kind_get kind k + if decide (kind = kind') then b else 0)).
  { intros kind kind' b [] Hn. destruct kind, kind'; first [reflexivity|exact (Hno _ Hn)]. }
  assert (Hop : ∀ o o' k, operation_kind_get o k ≤ u64_max →
    operation_kind_get o (operation_kind_increment o' k)
    = saturated (operation_kind_get o k + if decide (o = o') then 1 else 0)).
  { intros o o' [] Hn. destruct o, o'; first [reflexivity|exact (Hno _ Hn)]. }
  destruct c as [| | | | | | |o err| | |], ev as [| | | | | | | | |o' err']; intros Hn;
    try exact (Hno _ Hn); try reflexivity; try solve [destruct err; exact (Hno _ Hn)].
  - exact (Hkind _ _ _ _ Hn).
  - exact (Hkind _ _ _ _ Hn).
  - cbn [amount]. destruct err, err'; cbn [counter_value] in Hn; pose proof (Hop o o' _ Hn) as H.
    + etrans; [exact H|]. by repeat case_decide; naive_solver.
    + rewrite decide_False by naive_solver. exact (Hno _ Hn).
    + rewrite decide_False by naive_solver. exact (Hno _ Hn).
    + etrans; [exact H|]. by repeat case_decide; naive_solver.
Qed.

Lemma posts_value c evs m :
  counter_value c m ≤ u64_max → counter_value c (posts evs m) = saturated (counter_value c m + total c evs).
Proof.
  revert m. induction evs as [|ev evs IH]; intros m Hm; cbn [posts foldl total foldr].
  - unfold saturated. lia.
  - fold (posts evs (post ev m)). pose proof (post_value c ev m Hm) as Hp. rewrite IH; rewrite Hp; unfold saturated; [|lia].
    fold (total c evs). lia.
Qed.

Lemma value_default c : counter_value c metrics_default = 0.
Proof. by destruct c as [[]|[]| | | | | |[] []| | |]. Qed.

Lemma sumN_snoc l b : sumN (l ++ [b]) = sumN l + b.
Proof. unfold sumN. induction l as [|a l IH]; cbn [app foldr]; [|rewrite IH]; lia. Qed.

(** The unsynced gauges. *)
Lemma posts_unsynced evs :
  unsynced_records (posts evs metrics_default) = saturated (lenN (pending evs)) ∧
  unsynced_bytes (posts evs metrics_default) = saturated (sumN (pending evs)).
Proof.
  induction evs as [|ev evs [IHr IHb]] using rev_ind; [by split|].
  rewrite posts_app. unfold pending. rewrite foldl_app. fold (pending evs).
  destruct ev; cbn; try by split. rewrite IHr, IHb, lenN_app. unfold increment, u64_saturating_add, saturated.
  rewrite sumN_snoc. change (lenN [bytes]) with 1. lia.
Qed.

Lemma same_value c m m' : same m m' → counter_value c m = counter_value c m'.
Proof.
  destruct m, m'. unfold same, ledger. cbn. intros H. simplify_eq. by destruct c.
Qed.

Lemma same_unsynced m m' : same m m' → unsynced_records m = unsynced_records m' ∧ unsynced_bytes m = unsynced_bytes m'.
Proof. destruct m, m'. unfold same, ledger. cbn. intros H. by simplify_eq. Qed.

(** ** The segment files of a directory *)

Definition segment_files (fs : Fs) : gmap string DirEntry :=
  filter (λ p, is_Some (parse_file_name p.1)) (fs_entries fs).
Definition folder (fs : Fs) : Root * gmap string DirEntry := (fs_root fs, segment_files fs).
Definition sizeN {V} (m : gmap string V) : N := N.of_nat (size m).

Lemma folder_update_entries e fs :
  filter (λ p, is_Some (parse_file_name p.1)) e = segment_files fs → folder (update_entries e fs) = folder fs.
Proof. intros H. unfold folder. f_equal. exact H. Qed.

Lemma folder_call {A} (op : M Fs A) : quiet folder op → quiet folder (call op).
Proof.
  intros Hop c fs <-. unfold call, take_fault, mbind, M_bind. destruct (fs_faults fs) as [|[k|] f]; [by apply Hop|done|].
  exact (Hop (folder fs) (set_faults f fs) eq_refl).
Qed.
Lemma folder_in_dir {A} (op : M Fs A) : quiet folder op → quiet folder (in_dir op).
Proof. intros Hop. unfold in_dir. solve_quiet. Qed.

(** The temporary file is not a segment. *)
Lemma folder_open name o : ¬ is_segment_name name → quiet folder (fs_open name o).
Proof.
  intros Hn. unfold fs_open. apply folder_call, folder_in_dir. intros c fs <-. unfold mbind, M_bind, get_state.
  destruct (fs_entries fs !! name) as [[i|]|] eqn:E.
  - destruct (opt_create_new o); [done|]. by destruct (opt_truncate o).
  - by destruct (opt_create_new o).
  - destruct (opt_create o || opt_create_new o); [|done].
    apply (folder_update_entries (<[name := EntryFile (fs_next_inode fs)]> (fs_entries fs)) fs).
    apply map_filter_insert_not. by intros [].
Qed.

Lemma folder_rename from to : ¬ is_segment_name from → ¬ is_segment_name to → quiet folder (fs_rename from to).
Proof.
  intros Hf Hto. unfold fs_rename. apply folder_call, folder_in_dir. intros c fs <-. unfold mbind, M_bind, get_state.
  destruct (fs_entries fs !! from) as [x|] eqn:E; [|done].
  assert (Hren : folder (update_entries (<[to := x]> (delete from (fs_entries fs))) fs) = folder fs).
  { apply folder_update_entries. unfold segment_files. rewrite map_filter_insert_not by by intros [].
    by rewrite map_filter_delete_not by by intros []. }
  by destruct (fs_entries fs !! to) as [[]|].
Qed.

Lemma folder_sync_dir : quiet folder fs_sync_dir.
Proof.
  unfold fs_sync_dir. apply quiet_bind; [apply folder_call, folder_in_dir, quiet_ret|]. intros [].
  by apply folder_call, quiet_modify.
Qed.

Definition io_folder (io : Io) := folder (io_fs io).
Definition w_folder (w : World) := folder (w_fs w).

Lemma folder_io_call {A} (op : M Fs A) : quiet folder op → quiet io_folder (io_call op).
Proof. by apply quiet_zoom. Qed.
Lemma folder_w_call {A} (op : M Fs A) : quiet folder op → quiet w_folder (w_call op).
Proof. by apply quiet_zoom. Qed.
Lemma folder_with_file {A} f (m : M Io A) : quiet io_folder m → quiet w_folder (with_file f m).
Proof.
  intros Hm c w <-. unfold with_file. specialize (Hm _ (mkIo (w_fs w) (w_metrics w) f) eq_refl). by destruct (m _).
Qed.

Lemma folder_take_fault : quiet folder take_fault.
Proof. intros c fs <-. unfold take_fault. by destruct (fs_faults fs). Qed.
Lemma folder_write_all b : quiet io_folder (file_write_all b).
Proof.
  unfold file_write_all. apply quiet_bind; [apply folder_io_call, folder_take_fault|]. intros o.
  apply quiet_bind; [apply quiet_get|]. intros io. cbv zeta. solve_quiet.
Qed.
Lemma folder_file_sync : quiet io_folder file_sync.
Proof. unfold file_sync. apply quiet_bind; [by apply folder_io_call, folder_call, quiet_ret|]. intros []. solve_quiet. Qed.

Lemma folder_save_text tmp path text : metadata_pair tmp path → quiet w_folder (save_text tmp path text).
Proof.
  intros Hp. destruct (pair_facts _ _ Hp) as (_ & Hpt & Hpp & _). unfold save_text.
  assert (Hno : ∀ name, parse_file_name name = None → ¬ is_segment_name name) by (intros name Hn [n Hs]; congruence).
  apply quiet_bind; [by apply folder_w_call, folder_open, Hno|]. intros f.
  apply quiet_bind.
  { apply folder_with_file, quiet_bind; [apply folder_write_all|]. intros []. apply folder_file_sync. }
  intros []. apply quiet_bind; [apply folder_w_call, folder_rename; by apply Hno|]. intros [].
  apply folder_w_call, folder_sync_dir.
Qed.

(** A new segment file is one more. *)
Lemma create_active_folder name F :
  is_segment_name name →
  hoare (λ w, w_folder w = (RootDir, F)) (create_active_segment_file name)
    (λ r w, ∃ F', w_folder w = (RootDir, F') ∧ (is_ok r = true → sizeN F' = sizeN F + 1)).
Proof.
  intros Hn. unfold create_active_segment_file.
  apply (hoare_bind _ _ (λ _ w, ∃ F', w_folder w = (RootDir, F') ∧ sizeN F' = sizeN F + 1)).
  - intros [fs m] Hw. unfold w_call, zoom, fs_open. cbn [w_fs].
    match goal with |- context [call ?op] => set (prog := op) end.
    destruct (call_cases prog fs) as (f & [E|E]); rewrite E; [by exists F|].
    injection Hw as Hr HF. unfold prog, in_dir, mbind, M_bind, get_state. cbn [w_fs fs_root set_faults]. rewrite Hr.
    change (fs_entries (set_faults f fs)) with (fs_entries fs). destruct (fs_entries fs !! name) as [e|] eqn:Ee.
    + exists F. cbn [opt_create_new create_active_options]. split; [|done]. unfold w_folder, folder. cbn. by rewrite Hr, <-HF.
    + cbn [opt_create_new opt_create create_active_options orb].
      exists (<[name := EntryFile (fs_next_inode fs)]> F). split.
      * unfold w_folder, folder, segment_files. cbn. rewrite map_filter_insert_True by done. by rewrite Hr, <-HF.
      * unfold sizeN. rewrite map_size_insert_None; [lia|]. rewrite <-HF. by apply map_lookup_filter_None_2; left.
  - intros file. intros w (F' & HF & Hs).
    assert (Hq : quiet w_folder (r ← with_file_kept file (file_write_all SEGMENT_FORMAT_MAGIC); mret r.2)).
    { apply quiet_bind; [|intros a; apply quiet_ret]. apply folder_with_file, quiet_bind; [apply folder_write_all|].
      intros []. solve_quiet. }
    pose proof (Hq _ w HF) as H. match type of Hq with quiet _ ?m => destruct (m w) as [r w'] end. by exists F'.
Qed.

(** ** Programs that count events *)

(** The states of programs with a writer. *)
Class HasWriter (S : Type) := { writer_of : S → WriterState }.

#[global] Instance WriterState_writer : HasWriter WriterState := {| writer_of ws := ws |}.
#[global] Instance EngineState_writer `{Nojson} : HasWriter EngineState :=
  {| writer_of s := mkWriterState (es_world s) (engine_writer (es_engine s)) |}.

(** The ledger, the active segment and the segment files. *)
Definition book (ws : WriterState) : _ * N * (Root * gmap string DirEntry) :=
  (ledger (w_metrics (ws_world ws)), segment_id (active_segment (ws_writer ws)), folder (w_fs (ws_world ws))).
Definition book_of {S} `{HasWriter S} (s : S) := book (writer_of s).

(** [m] counts one of the lists of events [L], the first of them if it fails:
    the active segment moves on with the rotations, and when [m] succeeds, the
    number of segment files has changed by the rotations and deletions. *)
Definition emits {S A} `{HasWriter S} (m : M S A) (L : StorageMetrics → list Event → Prop) : Prop :=
  ∀ x n F, hoare (λ s, book_of s = (ledger x, n, (RootDir, F))) m (λ r s, ∃ evs rest F',
    book_of s = (ledger (posts evs x), n + total SegmentRotations evs, (RootDir, F')) ∧ L x (evs ++ rest) ∧
    (is_ok r = true → rest = [] ∧ sizeN F' + total GcSegmentsDeleted evs = sizeN F + total SegmentRotations evs)).

Definition inhabited_script (L : StorageMetrics → list Event → Prop) : Prop := ∀ x, ∃ l, L x l.

Section emits.
Context {S : Type} `{HasWriter S}.

Lemma emits_mono {A} (m : M S A) (L L' : StorageMetrics → list Event → Prop) :
  (∀ x l, L x l → L' x l) → emits m L → emits m L'.
Proof.
  intros HL Hm x n F s Hs. specialize (Hm x n F s Hs). destruct (m s) as [r s'].
  destruct Hm as (evs & rest & F' & Hb & Hl & Hok). exists evs, rest, F'. auto.
Qed.

Lemma emits_quiet {A} (m : M S A) : quiet book_of m → emits m (λ _ l, l = []).
Proof.
  intros Hm x n F s Hs. specialize (Hm _ s Hs). destruct (m s) as [r s']. exists [], [], F. rewrite N.add_0_r. cbn.
  split; [exact Hm|]. split; [done|]. split; [done|lia].
Qed.

Lemma emits_fails {A} e (L : StorageMetrics → list Event → Prop) :
  inhabited_script L → emits (throw e : M S A) L.
Proof.
  intros HL x n F s Hs. destruct (HL x) as [l Hl]. exists [], l, F. rewrite N.add_0_r. by split.
Qed.

Lemma emits_bind {A B} (m : M S A) (f : A → M S B) (L1 L2 : StorageMetrics → list Event → Prop) :
  inhabited_script L2 → emits m L1 → (∀ a, emits (f a) L2) →
  emits (m ≫= f) (λ x l, ∃ l1 l2, l = l1 ++ l2 ∧ L1 x l1 ∧ L2 (posts l1 x) l2).
Proof.
  intros HL2 Hm Hf x n F s Hs. specialize (Hm x n F s Hs). unfold mbind, M_bind.
  destruct (m s) as [[a|e] s1]; destruct Hm as (evs & rest & F1 & Hb & Hl & Hok).
  - destruct (Hok eq_refl) as [-> HF]. rewrite app_nil_r in Hl. specialize (Hf a _ _ _ s1 Hb).
    destruct (f a s1) as [r s2]. destruct Hf as (evs2 & rest2 & F2 & Hb2 & Hl2 & Hok2).
    exists (evs ++ evs2), rest2, F2. rewrite posts_app, !total_app, N.add_assoc. split; [exact Hb2|].
    split; [exists evs, (evs2 ++ rest2); by rewrite app_assoc|]. intros Hr. destruct (Hok2 Hr) as [-> HF2].
    split; [done|lia].
  - destruct (HL2 (posts (evs ++ rest) x)) as [l2 Hl2]. exists evs, (rest ++ l2), F1. split; [exact Hb|].
    split; [|done]. exists (evs ++ rest), l2. by rewrite app_assoc.
Qed.

(** A quiet program before, or after, one that counts. *)
Lemma emits_quiet_bind {A B} (m : M S A) (f : A → M S B) (L : StorageMetrics → list Event → Prop) :
  inhabited_script L → quiet book_of m → (∀ a, emits (f a) L) → emits (m ≫= f) L.
Proof.
  intros HL Hm%emits_quiet Hf. eapply emits_mono; [|by apply (emits_bind _ _ _ L HL Hm Hf)].
  by intros x l (l1 & l2 & -> & -> & ?).
Qed.

Lemma emits_then_quiet {A B} (m : M S A) (f : A → M S B) (L : StorageMetrics → list Event → Prop) :
  emits m L → (∀ a, quiet book_of (f a)) → emits (m ≫= f) L.
Proof.
  intros Hm Hf. eapply emits_mono; [|by apply (emits_bind _ _ L (λ _ l, l = []) (λ x, ex_intro _ [] eq_refl) Hm (λ a, emits_quiet _ (Hf a)))].
  intros x l (l1 & l2 & -> & ? & ->). by rewrite app_nil_r.
Qed.
End emits.

(** ** The writer *)

Lemma quiet_pair {S T T' A} (o : S → T) (o' : S → T') (m : M S A) :
  quiet o m → quiet o' m → quiet (λ s, (o s, o' s)) m.
Proof.
  intros H H' [c c'] s [= <- <-]. specialize (H _ s eq_refl). specialize (H' _ s eq_refl). destruct (m s). by rewrite H, H'.
Qed.

Lemma with_file_kept_quiet {T A} (o : World → T) (o' : Io → T) f (m : M Io A) :
  (∀ m', quiet o' m' → quiet o (with_file (A:=A * File) f m')) → quiet o' m → quiet o (with_file_kept f m).
Proof. intros Hw Hm. apply Hw. apply quiet_bind; [done|]. intros a. solve_quiet. Qed.

Lemma book_on_world {A} (m : M World A) : quiet (meter ledger) m → quiet w_folder m → quiet book_of (on_world m).
Proof.
  intros Hl Hf. apply (quiet_zoom _ (λ w, (meter ledger w, w_folder w))); [|by apply quiet_pair].
  intros w ws H. apply pair_equal_spec in H as [H1 H2]. unfold book_of, book, meter, w_folder in *. cbn in *. by rewrite H1, H2.
Qed.

Lemma book_on_writer_file {A} (m : M Io A) :
  quiet (meter ledger) m → quiet io_folder m → quiet book_of (on_writer_file m).
Proof.
  intros Hl Hf c ws <-. unfold on_writer_file, get_writer, set_writer, modify, get_state, mbind, M_bind, mret, M_ret.
  assert (Hq : quiet book_of (on_world (with_file_kept (writer_file (ws_writer ws)) m))).
  { apply book_on_world; (eapply with_file_kept_quiet; [|done]).
    - intros m' Hm'. by apply meter_with_file.
    - intros m' Hm'. by apply folder_with_file. }
  specialize (Hq _ ws eq_refl). unfold on_world, zoom in *.
  destruct (with_file_kept _ m (ws_world ws)) as [[[a f]|e] w]; exact Hq.
Qed.

Lemma sync_current_emits : emits sync_current_segment (λ _ l, l = [EvSynced]).
Proof.
  unfold sync_current_segment. apply emits_quiet_bind; [by eexists|apply book_on_writer_file; [apply meter_sync|apply folder_file_sync]|].
  intros [] x n F ws Hs. exists [EvSynced], [], F. unfold book_of, book in *. cbn in *. rewrite N.add_0_r.
  apply pair_equal_spec in Hs as [[Hl ->]%pair_equal_spec ->]. split; [|by split].
  do 2 f_equal. exact (post_same EvSynced _ _ Hl).
Qed.

(** There are unsynced records. *)
Definition dirty (m : StorageMetrics) : bool := negb (unsynced_records m =? 0) || negb (unsynced_bytes m =? 0).

Lemma dirty_same m m' : same m m' → dirty m = dirty m'.
Proof. intros [H1 H2]%same_unsynced. unfold dirty. by rewrite H1, H2. Qed.

Definition sync_events (was_dirty : bool) : list Event := if was_dirty then [EvSynced] else [].

Lemma writer_sync_emits : emits writer_sync (λ x l, l = sync_events (dirty x)).
Proof.
  intros x n F ws Hs. unfold writer_sync. rewrite (bind_ok get_state _ ws ws ws) by done. cbv zeta.
  assert (Hd : dirty (w_metrics (ws_world ws)) = dirty x).
  { apply dirty_same. unfold book_of, book in Hs. by apply pair_equal_spec in Hs as [[Hl _]%pair_equal_spec _]. }
  fold (dirty (w_metrics (ws_world ws))). rewrite Hd. destruct (dirty x).
  - exact (sync_current_emits x n F ws Hs).
  - exact (emits_quiet (mret ()) (quiet_ret _ ()) x n F ws Hs).
Qed.

Lemma next_append_name name next : next_append name = Ok next →
  segment_id next = segment_id name + 1 ∧ is_segment_name (file_name next).
Proof.
  unfold next_append, segment_id_next, u64_checked_add.
  destruct (N.ltb_spec (segment_id name + 1) U64_LIMIT); [|done]. intros [= <-]. split; [done|].
  eexists. by apply parse_file_name_print.
Qed.

(** Nothing was counted. *)
Lemma book_fails {A} ws x n F k e ev : book ws = (ledger x, n, (RootDir, F)) →
  ∃ evs rest F', book ws = (ledger (posts evs x), n + total SegmentRotations evs, (RootDir, F')) ∧ evs ++ rest = [ev] ∧
  (is_ok (Err e : result A) = true → rest = [] ∧ sizeN F' + total GcSegmentsDeleted evs = k + total SegmentRotations evs).
Proof. intros Hb. exists [], [ev], F. rewrite N.add_0_r. by split. Qed.

(** The part of [writer_rotate] after the sync. *)
Definition move_to_next : M WriterState () :=
  w ← get_writer;
  next_segment ← lift_result (next_append (active_segment w));
  file ← on_world (create_active_segment_file (file_name next_segment));
  on_world sync_parent_dir ;;
  set_writer (mkSegmentWriter next_segment file SEGMENT_FILE_HEADER_LEN (max_segment_len w)) ;;
  on_world (w_count (segment_rotated (segment_id next_segment) SEGMENT_FILE_HEADER_LEN)).

Lemma move_emits : emits move_to_next (λ _ l, l = [EvRotated]).
Proof.
  unfold move_to_next. intros x n F ws Hs. rewrite (bind_ok get_writer _ ws (ws_writer ws) ws) by done.
  unfold mbind at 1, M_bind at 1, lift_result.
  destruct (next_append (active_segment (ws_writer ws))) as [next|e] eqn:En; [|by eapply book_fails].
  apply next_append_name in En as [Hid Hn]. apply pair_equal_spec in Hs as [[Hl Hi]%pair_equal_spec Hf].
  pose proof (create_active_folder _ F Hn (ws_world ws) Hf) as H1.
  pose proof (meter_create_active ledger (file_name next) _ (ws_world ws) Hl) as H1'.
  unfold mbind at 1, M_bind at 1, on_world, zoom. destruct (create_active_segment_file _ (ws_world ws)) as [r1 w1].
  destruct H1 as (F1 & HF1 & Hs1).
  assert (Hb : ∀ w, ledger (w_metrics w) = ledger x → w_folder w = (RootDir, F1) →
    book (mkWriterState w (ws_writer ws)) = (ledger x, n, (RootDir, F1))).
  { intros w H2 H3. unfold book, w_folder in *. cbn in *. by rewrite H2, H3, Hi. }
  destruct r1 as [file|e]; [|by eapply book_fails, Hb]. unfold mbind at 1, M_bind at 1, on_world, zoom. cbn [ws_world].
  pose proof (folder_w_call _ folder_sync_dir _ w1 HF1) as H2. pose proof (meter_sync_parent ledger _ w1 H1') as H2'.
  unfold sync_parent_dir in *. destruct (w_call fs_sync_dir w1) as [[[]|e] w2]; [|by eapply book_fails, Hb].
  exists [EvRotated], [], F1. unfold book_of, book, w_folder in *. cbn in *. split; [|split; [done|]; intros _; split; [done|]].
  - rewrite H2, Hid, Hi. do 2 f_equal. exact (post_same EvRotated _ _ H2').
  - rewrite (Hs1 eq_refl). lia.
Qed.

Lemma rotate_emits : emits writer_rotate (λ _ l, l = [EvSynced; EvRotated]).
Proof.
  eapply emits_mono; [|apply (emits_bind sync_current_segment (λ _, move_to_next) (λ _ l, l = [EvSynced]) (λ _ l, l = [EvRotated]));
    [by eexists|apply sync_current_emits|intros _; apply move_emits]].
  by intros x l (l1 & l2 & -> & -> & ->).
Qed.

Section writer.
Context `{NR : Noraft}.

(** The bytes of the frame of a record. *)
Definition frame_bytes (n : N) (r : SegmentRecord) : N :=
  match encode_record_frame n r with Ok frame => lenN frame | Err _ => 0 end.

(** The events of an append, with or without a rotation. *)
Definition append_events (n : N) (r : SegmentRecord) (rotated : bool) : list Event :=
  (if rotated then [EvSynced; EvRotated] else []) ++ [EvWritten (metric_kind r) (frame_bytes n r)].

(** The record is counted in the end. *)
Lemma written_emits kind bytes len position :
  emits (w ← get_writer;
         set_writer (mkSegmentWriter (active_segment w) (writer_file w) len (max_segment_len w)) ;;
         on_world (w_count (record_written kind bytes)) ;;
         on_world (w_count (segment_written len)) ;;
         mret (position : RecordPosition))
    (λ _ l, l = [EvWritten kind bytes]).
Proof using Type.
  intros x n' F ws Hs. exists [EvWritten kind bytes], [], F. rewrite N.add_0_r. unfold book_of, book in *. cbn in *.
  apply pair_equal_spec in Hs as [[Hl ->]%pair_equal_spec ->]. split; [|by split].
  do 2 f_equal. exact (post_same (EvWritten kind bytes) _ _ Hl).
Qed.

Lemma append_emits n r : emits (writer_append n r) (λ _ l, ∃ rotated, l = append_events n r rotated).
Proof using Type.
  assert (Hin : inhabited_script (λ _ l, ∃ rotated, l = append_events n r rotated))
    by by intros x; exists (append_events n r false), false.
  assert (Hget : quiet book_of get_writer) by (unfold get_writer; solve_quiet).
  unfold writer_append. unfold append_events, frame_bytes in *. destruct (encode_record_frame n r) as [frame|e]; [|by apply emits_fails].
  match goal with |- emits (lift_result (Ok frame) ≫= ?f) ?L => change (emits (f frame) L) end. cbv beta.
  unfold u64_try_from. destruct (lenN frame <? U64_LIMIT); [|by apply emits_fails].
  apply emits_quiet_bind; [done|done|]. intros w. set (rotated := should_rotate w (lenN frame)).
  eapply emits_mono; [|eapply (emits_bind _ _ (λ _ l, l = if rotated then [EvSynced; EvRotated] else [])
    (λ _ l, l = [EvWritten (metric_kind r) (lenN frame)])); [by eexists| |]].
  { intros x l (l1 & l2 & -> & -> & ->). by exists rotated. }
  { destruct rotated; [apply rotate_emits|apply emits_quiet, quiet_ret]. }
  intros []. apply emits_quiet_bind; [by eexists|done|]. intros w'. cbv zeta.
  apply emits_quiet_bind; [by eexists|apply book_on_writer_file; [apply meter_write_all|apply folder_write_all]|]. intros [].
  destruct (u64_checked_add _ _); [apply written_emits|apply emits_fails; by eexists].
Qed.

(** After an append there is something to sync. *)
Lemma append_dirty n r rotated x : dirty (posts (append_events n r rotated) x) = true.
Proof using Type.
  unfold append_events. rewrite posts_app. cbn. unfold dirty, record_written. cbn.
  rewrite (proj2 (N.eqb_neq _ _)); [done|]. by apply increment_pos.
Qed.
End writer.

(** ** The engine *)

Section engine.
Context `{NJ : Nojson} `{NR : Noraft}.

(** The events of garbage collection. *)
Definition gc_events (deleted : N) : list Event := EvCollected :: if deleted =? 0 then [] else [EvDeleted deleted].

(** The events of an operation that is not rejected: [rotated] says that its
    record went to a new segment, [deleted] how many segments garbage collection
    deleted, [was_dirty] that there were unsynced records. *)
Definition op_events (op : Op) (rotated : bool) (deleted : N) (was_dirty : bool) : list Event :=
  match op with
  | OpCreateNode n _ => append_events n (RecordSnapshotCheckpoint initial_checkpoint) rotated ++ [EvSynced; EvCreated]
  | OpSaveTerm n t => append_events n (RecordCurrentTerm t) rotated
  | OpSaveVote n v => append_events n (RecordVotedFor v) rotated
  | OpAppend n a => append_events n (RecordAppend a) rotated
  | OpSnapshot n c =>
      append_events n (RecordSnapshotCheckpoint c) rotated ++ [EvSynced] ++ gc_events deleted ++ [EvSnapshotSaved]
  | OpRemove n => gc_events deleted ++ [EvRemoved]
  | OpSync => EvSyncRequested :: sync_events was_dirty
  | OpLoadNode _ | OpLoadNodes => []
  end.

(** The node whose access is checked, and the kind of the access. *)
Definition op_access (op : Op) : option (N * StorageOperationKind) :=
  match op with
  | OpSaveTerm n _ => Some (n, OpSaveCurrentTerm)
  | OpSaveVote n _ => Some (n, OpSaveVotedFor)
  | OpAppend n _ => Some (n, OpAppendEntries)
  | OpSnapshot n _ => Some (n, OpSaveSnapshot)
  | OpRemove n => Some (n, OpRemoveNode)
  | OpLoadNode n => Some (n, OpLoad)
  | OpCreateNode _ _ | OpSync | OpLoadNodes => None
  end.

(** The event of an access to a node that is not active. *)
Definition op_rejection (reg : NodeRegistry) (op : Op) : option Event :=
  match op_access op with
  | None => None
  | Some (n, kind) =>
      match node_status reg n with
      | Active _ => None
      | Removed => Some (EvRejected kind RemovedNode)
      | Unknown => Some (EvRejected kind UnknownNode)
      end
  end.

Definition op_script (op : Op) (x : StorageMetrics) (l : list Event) : Prop :=
  ∃ rotated deleted, l = op_events op rotated deleted (dirty x).

(** Programs of the engine. *)
Lemma meter_es_on_world {T A} (π : StorageMetrics → T) (m : M World A) :
  quiet (meter π) m → quiet (meter π) (es_on_world m).
Proof using Type. apply quiet_zoom. intros t s Ht. exact Ht. Qed.
Lemma meter_index_save {T} (π : StorageMetrics → T) x : quiet (meter π) (index_save x).
Proof using Type. apply meter_save_text. Qed.
Lemma meter_registry_save {T} (π : StorageMetrics → T) r : quiet (meter π) (registry_save r).
Proof using Type. apply meter_save_text. Qed.

Lemma es_on_writer_emits {A} (m : M WriterState A) L : emits m L → emits (es_on_writer m) L.
Proof using Type.
  intros Hm x n F s Hs. specialize (Hm x n F (writer_of s) Hs). unfold es_on_writer, zoom.
  change (mkWriterState (es_world s) (engine_writer (es_engine s))) with (writer_of s).
  destruct (m (writer_of s)) as [r [w wr]]. exact Hm.
Qed.

Lemma book_es_on_world {A} (m : M World A) : quiet (meter ledger) m → quiet w_folder m → quiet book_of (es_on_world m).
Proof using Type.
  intros Hl Hf. apply (quiet_zoom _ (λ w, (meter ledger w, w_folder w))); [|by apply quiet_pair].
  intros w ws H. apply pair_equal_spec in H as [H1 H2]. unfold book_of, book, meter, w_folder in *. cbn in *. by rewrite H1, H2.
Qed.
Lemma book_registry_save r : quiet book_of (es_on_world (registry_save r)).
Proof using Type. apply book_es_on_world; [apply meter_registry_save|apply folder_save_text, registry_pair]. Qed.
Lemma book_index_save x : quiet book_of (es_on_world (index_save x)).
Proof using Type. apply book_es_on_world; [apply meter_index_save|apply folder_save_text, index_pair]. Qed.
Lemma book_set_registry r : quiet book_of (set_registry r).
Proof using Type. by apply quiet_modify. Qed.
Lemma book_set_index x : quiet book_of (set_index x).
Proof using Type. by apply quiet_modify. Qed.
Lemma book_get_engine : quiet book_of get_engine.
Proof using Type. unfold get_engine. solve_quiet. Qed.
Lemma book_count f : (∀ m, ledger (f m) = ledger m) → quiet book_of (count f).
Proof using Type.
  intros Hf. apply book_es_on_world; [by apply meter_w_count|]. by apply quiet_modify.
Qed.
Lemma book_refresh_registry : quiet book_of refresh_registry_metrics.
Proof using Type. unfold refresh_registry_metrics. apply quiet_bind; [apply book_get_engine|]. intros e. by apply book_count. Qed.
Lemma book_refresh_index : quiet book_of refresh_checkpoint_index_metrics.
Proof using Type. unfold refresh_checkpoint_index_metrics. apply quiet_bind; [apply book_get_engine|]. intros e. by apply book_count. Qed.

(** A counter that an event stands for. *)
Lemma count_emits ev f :
  (∀ m, ledger (f m) = ledger (post ev m)) → amount SegmentRotations ev = 0 → amount GcSegmentsDeleted ev = 0 →
  emits (count f) (λ _ l, l = [ev]).
Proof using Type.
  intros Hf Hr Hg x n F s Hs. exists [ev], [], F. unfold total. cbn [foldr]. rewrite Hr, Hg, !N.add_0_r.
  unfold book_of, book in *. cbn in *. apply pair_equal_spec in Hs as [[Hl ->]%pair_equal_spec ->]. split; [|by split].
  do 2 f_equal. rewrite Hf. exact (post_same ev _ _ Hl).
Qed.

(** *** Garbage collection *)

Lemma delete_files_size names fs :
  NoDup names → (∀ n, n ∈ names → is_Some (segment_files fs !! n)) →
  sizeN (segment_files (delete_files names fs)) + lenN names = sizeN (segment_files fs).
Proof using Type.
  intros Hnd. revert fs. induction Hnd as [|x names Hx Hnd IH]; intros fs Hin; [cbn; unfold lenN; cbn; lia|].
  set (fs1 := update_entries (delete x (fs_entries fs)) fs).
  change (delete_files (x :: names) fs) with (delete_files names fs1).
  assert (E : segment_files fs1 = delete x (segment_files fs)) by apply map_filter_delete.
  destruct (Hin x ltac:(by left)) as [v Hv]. rewrite lenN_cons.
  assert (Hsize : sizeN (segment_files fs1) + 1 = sizeN (segment_files fs)).
  { unfold sizeN. rewrite E, map_size_delete, Hv. pose proof (map_size_ne_0_lookup_2 _ _ (ex_intro _ v Hv)). lia. }
  assert (Hrest : sizeN (segment_files (delete_files names fs1)) + lenN names = sizeN (segment_files fs1)); [|lia].
  apply IH. intros y Hy. rewrite E, lookup_delete_ne; [by apply Hin; right|]. by intros ->.
Qed.

Lemma deleted_segments_size b active fs :
  let del := deleted_paths b active (segments_of fs) in
  sizeN (segment_files (delete_files (path_file <$> del) fs)) + lenN del = sizeN (segment_files fs).
Proof using Type.
  intros del. assert (Hsub : del `sublist_of` segments_of fs) by apply sublist_filter.
  replace (lenN del) with (lenN (path_file <$> del)) by (unfold lenN; by rewrite length_fmap).
  apply delete_files_size.
  - eapply sublist_NoDup; [apply segments_of_files_NoDup|by apply fmap_sublist].
  - intros n (p & -> & Hp)%list_elem_of_fmap. eapply elem_of_sublist in Hp; [|exact Hsub].
    apply elem_of_segments_of in Hp as (Hpf & Hid & i & Hi). exists (EntryFile i).
    apply map_lookup_filter_Some. split; [exact Hi|]. cbn. rewrite Hpf. eexists. by apply parse_file_name_print.
Qed.

Lemma gc_counted (del : list SegmentPath) m m' :
  m' = gc_ran m ∨ del ≠ [] ∧ m' = gc_deleted_segments (lenN del) (gc_ran m) →
  ∃ evs rest, m' = posts evs m ∧ evs ++ rest = gc_events (lenN del) ∧ total SegmentRotations evs = 0.
Proof using Type.
  unfold gc_events. intros [->|[Hne ->]].
  - exists [EvCollected]. by eexists.
  - exists [EvCollected; EvDeleted (lenN del)], []. split; [done|]. split; [|done].
    destruct (N.eqb_spec (lenN del) 0) as [E|E]; [|done]. destruct del; [done|]. rewrite lenN_cons in E. lia.
Qed.

Lemma collect_garbage_emits : emits collect_garbage (λ _ l, ∃ deleted, l = gc_events deleted).
Proof using Type.
  intros x n F [[fs m] e] Hs. unfold book_of, book in Hs. cbn in Hs.
  apply pair_equal_spec in Hs as [[Hl Hi]%pair_equal_spec Hf]. pose proof Hf as [Hr HF]%pair_equal_spec.
  pose proof (collect_garbage_cases fs m e Hr) as Hc.
  assert (Hb : ∀ f fs' evs, fs_root fs' = RootDir → total SegmentRotations evs = 0 →
    book_of (mkEngineState (mkWorld (set_faults f fs') (posts evs m)) e)
    = (ledger (posts evs x), n + total SegmentRotations evs, (RootDir, segment_files fs'))).
  { intros f fs' evs Hroot H0. unfold book_of, book, folder. cbn. rewrite H0, N.add_0_r, Hroot, Hi. do 2 f_equal.
    exact (posts_same evs _ _ Hl). }
  destruct (gc_barrier (engine_index e) (active_node_ids (engine_registry e))) as [b|].
  2:{ rewrite Hc. exists [EvCollected], [], F. split; [|split; [by exists 0|by split]].
      rewrite <-HF. exact (Hb (fs_faults fs) fs [EvCollected] Hr eq_refl). }
  set (del := deleted_paths b (active_segment (engine_writer e)) (segments_of fs)) in *.
  assert (Hroot : ∀ names, fs_root (delete_files names fs) = RootDir).
  { intros names. destruct (delete_files_same names fs) as [-> _]. exact Hr. }
  destruct Hc as (f & m' & Hcnt & [(dels & Hp & ->)|[[Hnil ->]|(Hne & -> & ->)]]).
  - destruct (gc_counted del m m' Hcnt) as (evs & rest & -> & Hev & H0). eexists evs, rest, _.
    split; [by apply Hb|]. split; [by exists (lenN del)|done].
  - destruct Hcnt as [->|[? _]]; [|done]. exists [EvCollected], [], F.
    split; [rewrite <-HF; exact (Hb f fs [EvCollected] Hr eq_refl)|]. split; [by exists 0|by split].
  - exists [EvCollected; EvDeleted (lenN del)], []. eexists. split.
    { exact (Hb f (sync_entries (delete_files (path_file <$> del) fs)) [EvCollected; EvDeleted (lenN del)] (Hroot _) eq_refl). }
    split.
    + exists (lenN del). unfold gc_events. destruct (N.eqb_spec (lenN del) 0) as [E|E]; [|done].
      destruct del; [done|]. rewrite lenN_cons in E. lia.
    + intros _. split; [done|]. change (total SegmentRotations _) with 0.
      change (total GcSegmentsDeleted _) with (lenN del + 0). rewrite <-HF, !N.add_0_r. apply deleted_segments_size.
Qed.

(** *** Operations *)

#[local] Hint Resolve quiet_lift book_get_engine book_set_registry book_set_index book_registry_save book_index_save
  book_refresh_registry book_refresh_index : quiet.

(** A record is appended and synced, then [f] goes on. *)
Lemma append_and_sync_emits {A} n r (f : RecordPosition → M EngineState A) (T : list Event → Prop) :
  (∃ t, T t) → (∀ p, emits (f p) (λ _, T)) →
  emits (p ← es_on_writer (writer_append n r); es_on_writer writer_sync ;; f p)
    (λ _ l, ∃ rotated t, l = append_events n r rotated ++ [EvSynced] ++ t ∧ T t).
Proof using Type.
  intros [t0 Ht0] Hf.
  eapply emits_mono; [|eapply (emits_bind _ _ _ (λ x l, ∃ t, l = sync_events (dirty x) ++ t ∧ T t));
    [|apply es_on_writer_emits, append_emits|]].
  - intros x l (l1 & l2 & -> & [rotated ->] & (t & -> & Ht)). exists rotated, t. rewrite append_dirty. by split.
  - intros x. by exists (sync_events (dirty x) ++ t0), t0.
  - intros p. eapply emits_mono; [|eapply (emits_bind _ _ _ (λ _, T)); [by exists t0|apply es_on_writer_emits, writer_sync_emits|]].
    + intros x l (l1 & l2 & -> & -> & Ht). by exists l2.
    + intros []. apply Hf.
Qed.

Lemma create_emits n md : emits (create_node n md) (op_script (OpCreateNode n md)).
Proof using Type.
  assert (Hin : inhabited_script (op_script (OpCreateNode n md))) by by intros x; eexists; exists false, 0.
  unfold create_node. apply emits_quiet_bind; [done|apply book_get_engine|]. intros e.
  destruct (registry_create_node _ _ _) as [r reg]. apply emits_quiet_bind; [done|apply quiet_lift|]. intros [].
  eapply emits_mono; [|apply (append_and_sync_emits _ _ _ (λ t, t = [EvCreated])); [by eexists|]].
  { intros x l (rotated & t & -> & ->). by exists rotated, 0. }
  intros p. apply emits_quiet_bind; [by eexists|apply book_get_engine|]. intros e'. cbv zeta.
  do 4 (apply emits_quiet_bind; [by eexists|solve_quiet|]; intros []).
  apply emits_then_quiet; [by apply count_emits|]. intros []. solve_quiet.
Qed.

Lemma snapshot_tail_emits n c :
  emits (lift_result (checkpoint_validate c) ;;
         append ← es_on_writer (writer_append n (RecordSnapshotCheckpoint c));
         es_on_writer writer_sync ;;
         e ← get_engine;
         let checkpoint_index := set_checkpoint_position n append (engine_index e) in
         es_on_world (index_save checkpoint_index) ;;
         set_index checkpoint_index ;;
         refresh_checkpoint_index_metrics ;;
         collect_garbage ;;
         count snapshot_checkpoint_saved) (op_script (OpSnapshot n c)).
Proof using Type.
  apply emits_quiet_bind; [by intros x; eexists; exists false, 0|apply quiet_lift|]. intros [].
  set (T := λ t, ∃ deleted, t = gc_events deleted ++ [EvSnapshotSaved]). assert (HT : ∃ t, T t) by (eexists; by exists 0).
  eapply emits_mono; [|apply (append_and_sync_emits _ _ _ T HT)].
  { intros x l (rotated & t & -> & [deleted ->]). by exists rotated, deleted. }
  intros p. apply emits_quiet_bind; [exact (λ _, HT)|apply book_get_engine|]. intros e. cbv zeta.
  do 3 (apply emits_quiet_bind; [exact (λ _, HT)|solve_quiet|]; intros []).
  eapply emits_mono; [|eapply (emits_bind _ _ _ (λ _ l, l = [EvSnapshotSaved])); [by eexists|apply collect_garbage_emits|]].
  { intros x l (l1 & l2 & -> & [deleted ->] & ->). by exists deleted. }
  intros []. by apply count_emits.
Qed.

Lemma remove_tail_emits n :
  emits (e ← get_engine;
         let '(r, registry) := registry_remove_node n (engine_registry e) in
         lift_result r ;;
         es_on_world (registry_save registry) ;;
         set_registry registry ;;
         e ← get_engine;
         let checkpoint_index := index_remove_node n (engine_index e) in
         es_on_world (index_save checkpoint_index) ;;
         set_index checkpoint_index ;;
         collect_garbage ;;
         count node_removed ;;
         refresh_registry_metrics ;;
         refresh_checkpoint_index_metrics) (op_script (OpRemove n)).
Proof using Type.
  assert (Hin : inhabited_script (op_script (OpRemove n))) by by intros x; eexists; exists false, 0.
  apply emits_quiet_bind; [done|apply book_get_engine|]. intros e. destruct (registry_remove_node _ _) as [r reg].
  do 3 (apply emits_quiet_bind; [done|solve_quiet|]; intros ?).
  apply emits_quiet_bind; [done|apply book_get_engine|]. intros e'. cbv zeta.
  do 2 (apply emits_quiet_bind; [done|solve_quiet|]; intros []).
  eapply emits_mono; [|eapply (emits_bind _ _ _ (λ _ l, l = [EvRemoved])); [by eexists|apply collect_garbage_emits|]].
  { intros x l (l1 & l2 & -> & [deleted ->] & ->). by exists false, deleted. }
  intros []. apply emits_then_quiet; [by apply count_emits|]. intros []. solve_quiet.
Qed.

Lemma sync_emits : emits engine_sync (op_script OpSync).
Proof using Type.
  unfold engine_sync. eapply emits_mono; [|eapply (emits_bind _ _ _ (λ x l, l = sync_events (dirty x)));
    [by intros x; eexists|by apply (count_emits EvSyncRequested)|intros []; apply es_on_writer_emits, writer_sync_emits]].
  intros x l (l1 & l2 & -> & -> & ->). by exists false, 0.
Qed.

(** Operations that read the segments. *)
Definition loads (op : Op) : bool := match op with OpLoadNode _ | OpLoadNodes => true | _ => false end.

(** [evs] are the events that [op] counted: the rejection of the access, or the
    events of the operation, the first of them if it failed.  The active segment
    moved on with the rotations; and when an operation that does not load
    succeeded, the number of segment files changed by the rotations and
    deletions. *)
Definition accounts (op : Op) (s : EngineState) (r : result Reply) (s' : EngineState) (evs : list Event) : Prop :=
  segment_id (active_segment (engine_writer (es_engine s'))) =
    segment_id (active_segment (engine_writer (es_engine s))) + total SegmentRotations evs ∧
  match op_rejection (engine_registry (es_engine s)) op with
  | Some ev => is_ok r = false ∧ evs = [ev]
  | None =>
      ∃ rotated deleted rest,
        evs ++ rest = op_events op rotated deleted (dirty (w_metrics (es_world s))) ∧
        (is_ok r = true → rest = [] ∧
           (loads op = false →
            sizeN (segment_files (w_fs (es_world s'))) + total GcSegmentsDeleted evs =
            sizeN (segment_files (w_fs (es_world s))) + total SegmentRotations evs))
  end.

(** The counters before and after an operation. *)
Definition counted (op : Op) (s : EngineState) (out : result Reply * EngineState) : Prop :=
  ∃ evs, same (w_metrics (es_world out.2)) (posts evs (w_metrics (es_world s))) ∧ accounts op s out.1 out.2 evs.

Lemma emits_counted {A} (m : M EngineState A) (g : A → Reply) op s :
  emits m (op_script op) → fs_root (w_fs (es_world s)) = RootDir →
  op_rejection (engine_registry (es_engine s)) op = None →
  counted op s ((a ← m; mret (g a)) s).
Proof using Type.
  intros Hm Hr Hrej. set (x := w_metrics (es_world s)). set (F := segment_files (w_fs (es_world s))).
  pose proof (Hm x _ F s ltac:(unfold book_of, book, folder; cbn; rewrite Hr; reflexivity)) as H.
  unfold mbind, M_bind. destruct (m s) as [r s1].
  destruct H as (evs & rest & F' & Hb & (rotated & deleted & Hl) & Hok). unfold book_of, book in Hb. cbn in Hb.
  apply pair_equal_spec in Hb as [[Hled Hid]%pair_equal_spec [_ HF]%pair_equal_spec].
  assert (Hacc : ∀ (r' : result Reply) s2, s2 = s1 → is_ok r' = is_ok r → counted op s (r', s2)).
  { intros r' s2 -> Hr'. exists evs. split; [exact Hled|]. split; [exact Hid|]. rewrite Hrej.
    exists rotated, deleted, rest. split; [exact Hl|]. cbn [fst snd]. rewrite Hr'. intros Ho. destruct (Hok Ho) as [-> Hs].
    split; [done|]. intros _. by rewrite HF. }
  by destruct r as [a|e]; apply Hacc.
Qed.

(** The check of the access. *)
Lemma access_counted {A} n k (body : M EngineState A) (g : A → Reply) op s :
  op_access op = Some (n, k) →
  (op_rejection (engine_registry (es_engine s)) op = None → counted op s ((a ← body; mret (g a)) s)) →
  counted op s ((a ← (engine_ensure_node_exists n k ;; body); mret (g a)) s).
Proof using Type.
  intros Ha Hb. set (reg := engine_registry (es_engine s)) in *.
  pose proof (is_active_status reg n) as Hact. pose proof (is_removed_status reg n) as Hrm.
  unfold op_rejection in Hb. rewrite Ha in Hb. destruct s as [[fs m] e]. destruct (is_active reg n) eqn:E.
  - pose proof (engine_ensure_active n k (mkEngineState (mkWorld fs m) e) E) as Hrun.
    unfold mbind, M_bind in *. rewrite Hrun. apply Hb. by destruct (node_status reg n).
  - pose proof (engine_ensure_inactive n k fs m e E) as Hrun. unfold mbind, M_bind. rewrite Hrun. clear Hb Hrun.
    cbn in reg. fold reg. rewrite Hrm.
    exists [EvRejected k (match node_status reg n with Removed => RemovedNode | _ => UnknownNode end)].
    cbn [fst snd]. split; [by destruct (node_status reg n)|]. split; [cbn; by rewrite N.add_0_r|].
    unfold op_rejection. rewrite Ha. cbn. fold reg. by destruct (node_status reg n).
Qed.

(** Loading counts nothing of this. *)
Definition unread (s : EngineState) := (meter ledger s, es_engine s).

Lemma unread_es_on_world {A} (m : M World A) : quiet (meter ledger) m → quiet unread (es_on_world m).
Proof using Type. apply quiet_zoom. intros w s Hw. unfold unread, meter in *. cbn in *. by rewrite Hw. Qed.

Lemma quiet_counted {A} (m : M EngineState A) (g : A → Reply) op s :
  quiet unread m → loads op = true → op_rejection (engine_registry (es_engine s)) op = None →
  counted op s ((a ← m; mret (g a)) s).
Proof using Type.
  intros Hm Hl Hrej. specialize (Hm _ s eq_refl). unfold mbind, M_bind.
  destruct (m s) as [r s1]. apply pair_equal_spec in Hm as [Hled He].
  assert (Hacc : ∀ (r' : result Reply) s2, s2 = s1 → counted op s (r', s2)).
  { intros r' s2 ->. exists []. split; [exact Hled|]. split; [cbn; by rewrite He, N.add_0_r|]. rewrite Hrej.
    exists false, 0, []. split; [by destruct op|]. intros _. split; [done|]. by rewrite Hl. }
  by destruct r as [a|e]; apply Hacc.
Qed.

Lemma save_counted op n r k s :
  fs_root (w_fs (es_world s)) = RootDir → op_access op = Some (n, k) →
  (∀ rotated x, op_events op rotated 0 x = append_events n r rotated) →
  counted op s ((save_record n r k ;; mret Done) s).
Proof using Type.
  intros Hr Ha Hev. unfold save_record. apply (access_counted n k _ (λ _, Done)); [done|]. intros Hrej.
  apply (emits_counted _ (λ _, Done)); [|done|done]. apply emits_then_quiet; [|intros p; apply quiet_ret].
  eapply emits_mono; [|apply es_on_writer_emits, append_emits]. intros x l [rotated ->]. by exists rotated, 0.
Qed.

(** Every operation counts its events. *)
Lemma exec_counted op s : fs_root (w_fs (es_world s)) = RootDir → counted op s (exec op s).
Proof using Type.
  intros Hr. assert (Hget : quiet unread get_engine) by (unfold get_engine; solve_quiet).
  destruct op as [n md|n t|n v|n a|n c|n| |n|]; cbn [exec].
  - apply (emits_counted (create_node n md) (λ _, Done)); [apply create_emits|done|done].
  - by apply save_counted.
  - by apply save_counted.
  - by apply save_counted.
  - unfold save_snapshot. apply (access_counted n OpSaveSnapshot _ (λ _, Done)); [done|]. intros Hrej.
    apply (emits_counted _ (λ _, Done)); [apply snapshot_tail_emits|done|done].
  - unfold remove_node. apply (access_counted n OpRemoveNode _ (λ _, Done)); [done|]. intros Hrej.
    apply (emits_counted _ (λ _, Done)); [apply remove_tail_emits|done|done].
  - apply (emits_counted engine_sync (λ _, Done)); [apply sync_emits|done|done].
  - unfold engine_load. apply (access_counted n OpLoad _ LoadedNode); [done|]. intros Hrej.
    apply quiet_counted; [|done|done]. apply quiet_bind; [done|]. intros e.
    apply unread_es_on_world, meter_replay_node, _.
  - apply (quiet_counted engine_load_all LoadedNodes); [|done|done]. unfold engine_load_all.
    apply quiet_bind; [done|]. intros e. cbv zeta. destruct (bool_decide _); [apply quiet_ret|].
    apply quiet_bind; [apply unread_es_on_world, meter_replay_dir, _|]. intros r. apply quiet_ret.
Qed.
End engine.
