(* ===== verification/Accounting.v ===== *)
(** * The metrics tell what happened

    From the opening of a directory on: the counters of [StorageMetrics] are the
    totals of the events that the operations stand for ([Events]), and the
    gauges show the state of the engine, under any failures of the calls. *)
From Stdlib Require Import Strings.Byte Strings.String.
From S2P Require Import Prelude Metrics Fs Text Json Noraft State Crc32c Codec Format Frame.
From S2P Require Import Segment Replay Registry Checkpoint Engine EngineCorrect NodeCorrect EngineSpec Faults.
From S2P Require Import DurableWriter Tidy Reads Meters Events JsonExample EngineExample OpenBounds.

(** ** What is observed *)

(** The gauges of the tables and of the writer. *)
Definition node_gauges (m : StorageMetrics) : N * N * N := (active_nodes m, removed_nodes m, checkpoint_index_nodes m).
Definition segment_gauges (m : StorageMetrics) : N * N := (active_append_segment_id m, active_append_segment_len_bytes m).

(** The counters of the replay of records. *)
Definition replay_counters (m : StorageMetrics) :=
  (records_replayed m, bytes_replayed m, replay_truncations m, checksum_failures m).

#[export] Instance node_gauges_meter : Meter node_gauges.
Proof. by split. Qed.
#[export] Instance segment_gauges_meter : Meter segment_gauges.
Proof. by split. Qed.

(** A meter that does not show what the segment files and garbage collection do. *)
Class Steady {T} (π : StorageMetrics → T) : Prop := {
  steady_synced m : π (segment_synced m) = π m;
  steady_rotated id len m : π (segment_rotated id len m) = π m;
  steady_segment_written len m : π (segment_written len m) = π m;
  steady_gc_ran m : π (gc_ran m) = π m;
  steady_gc_deleted n m : π (gc_deleted_segments n m) = π m;
}.

#[export] Instance node_gauges_steady : Steady node_gauges.
Proof. by split. Qed.
#[export] Instance replay_counters_steady : Steady replay_counters.
Proof. by split. Qed.

#[export] Hint Extern 1 (Steady _) => typeclasses eauto : quiet.

(** ** The writer *)

Section writer.
Context `{NL : NoraftLaws}.

Section meter.
Context {T : Type} (π : StorageMetrics → T).

Lemma meter_on_writer_file {A} (m : M Io A) : quiet (meter π) m → quiet (meter π) (on_writer_file m).
Proof.
  intros Hm. unfold on_writer_file, get_writer, set_writer, on_world, with_file_kept.
  apply quiet_bind; [solve_quiet|]. intros w. apply quiet_bind; [|intros [a f]; solve_quiet].
  apply (quiet_zoom _ (meter π)); [by intros|]. solve_quiet.
Qed.

Lemma meter_on_world {A} (m : M World A) : quiet (meter π) m → quiet (meter π) (on_world m).
Proof. apply quiet_zoom. intros t s Ht. exact Ht. Qed.
#[local] Hint Resolve meter_on_writer_file meter_on_world : quiet.

Context `{!Steady π}.

Lemma meter_writer_sync : quiet (meter π) writer_sync.
Proof.
  unfold writer_sync, sync_current_segment. pose proof (meter_w_count π segment_synced steady_synced). solve_quiet.
Qed.

Lemma meter_rotate : quiet (meter π) writer_rotate.
Proof.
  unfold writer_rotate, sync_current_segment, get_writer, set_writer.
  pose proof (meter_w_count π segment_synced steady_synced).
  assert (∀ id len, quiet (meter π) (w_count (segment_rotated id len))).
  { intros id len. apply meter_w_count, steady_rotated. }
  solve_quiet.
Qed.
End meter.

#[local] Hint Resolve meter_on_writer_file meter_on_world meter_writer_sync meter_rotate : quiet.

(** An append touches neither the gauges of the tables nor the counters of replay. *)
Lemma meter_append {T} (π : StorageMetrics → T) `{!Steady π} n r :
  (∀ k b m, π (record_written k b m) = π m) → quiet (meter π) (writer_append n r).
Proof.
  intros Hw. unfold writer_append, get_writer, set_writer.
  assert (∀ k b, quiet (meter π) (w_count (record_written k b))) by (intros; by apply meter_w_count).
  assert (∀ len, quiet (meter π) (w_count (segment_written len))) by (intros; by apply meter_w_count, steady_segment_written).
  cbv zeta. solve_quiet.
Qed.

Lemma append_node_gauges n r : quiet (meter node_gauges) (writer_append n r).
Proof. by apply (meter_append node_gauges). Qed.

(** ** The gauges of the writer *)

Definition segment_gauges_true (ws : WriterState) : Prop :=
  meter segment_gauges ws = (segment_id (active_segment (ws_writer ws)), segment_len (ws_writer ws)).

(** What the gauges and the writer say. *)
Definition writer_view (ws : WriterState) :=
  (meter segment_gauges ws, active_segment (ws_writer ws), segment_len (ws_writer ws)).

Lemma view_keeps_gauges {A} (m : M WriterState A) : quiet writer_view m → keeps segment_gauges_true m.
Proof using Type.
  intros Hm ws Hws. specialize (Hm _ ws eq_refl). destruct (m ws) as [r ws']. unfold segment_gauges_true, writer_view in *.
  congruence.
Qed.

Lemma view_on_world {A} (m : M World A) : quiet (meter segment_gauges) m → quiet writer_view (on_world m).
Proof using Type. apply quiet_zoom. intros w ws Hw. unfold writer_view, meter in *. cbn in *. by rewrite Hw. Qed.

Lemma view_on_writer_file {A} (m : M Io A) : quiet (meter segment_gauges) m → quiet writer_view (on_writer_file m).
Proof using Type.
  intros Hm c ws <-. unfold on_writer_file, get_writer, set_writer.
  unfold mbind at 1 2, M_bind at 1 2, get_state, mret at 1, M_ret at 1. unfold mbind at 1, M_bind at 1.
  assert (Hq : quiet writer_view (on_world (with_file_kept (writer_file (ws_writer ws)) m))).
  { apply view_on_world. unfold with_file_kept. solve_quiet. }
  specialize (Hq _ ws eq_refl). unfold on_world, zoom in *.
  destruct (with_file_kept _ m (ws_world ws)) as [[[a f]|e] w]; exact Hq.
Qed.

Lemma keeps_writer_sync : keeps segment_gauges_true writer_sync.
Proof using Type.
  apply view_keeps_gauges. unfold writer_sync, sync_current_segment.
  assert (quiet writer_view (on_world (w_count segment_synced))) by by apply view_on_world, meter_w_count.
  pose proof (view_on_writer_file file_sync (meter_sync _)). solve_quiet.
Qed.

Lemma keeps_rotate : keeps segment_gauges_true writer_rotate.
Proof using Type.
  unfold writer_rotate.
  assert (Hq : quiet writer_view sync_current_segment).
  { unfold sync_current_segment. apply quiet_bind; [apply view_on_writer_file, meter_sync|]. intros _.
    by apply view_on_world, meter_w_count. }
  apply keeps_bind; [by apply view_keeps_gauges|]. intros _.
  apply keeps_bind; [by intros ws Hws|]. intros w.
  apply keeps_bind; [by intros ws Hws|]. intros next.
  apply keeps_bind; [apply view_keeps_gauges, view_on_world; solve_quiet|]. intros f.
  apply keeps_bind; [apply view_keeps_gauges, view_on_world; solve_quiet|]. intros _.
  by intros ws _.
Qed.

Lemma keeps_append n r : keeps segment_gauges_true (writer_append n r).
Proof using Type.
  unfold writer_append. apply keeps_bind; [by intros ws Hws|]. intros frame.
  destruct (u64_try_from _) as [bytes|]; [|by intros ws Hws].
  apply keeps_bind; [by intros ws Hws|]. intros w.
  apply keeps_bind; [destruct (should_rotate _ _); [apply keeps_rotate|by intros ws Hws]|]. intros _.
  apply keeps_bind; [by intros ws Hws|]. intros w'. cbv zeta.
  apply keeps_bind; [apply view_keeps_gauges, view_on_writer_file, meter_write_all|]. intros _.
  destruct (u64_checked_add _ _) as [len|]; [|by intros ws Hws].
  intros [world writer] Hws. injection Hws as Hid _. unfold segment_gauges_true, meter, segment_gauges. cbn. by f_equal.
Qed.
End writer.

(** ** The engine *)

Section engine.
Context `{NJ : Nojson} `{NL : NoraftLaws}.

(** The gauges of the active segment and of the tables show the state of the
    engine. *)
Definition writer_gauges_true (s : EngineState) : Prop :=
  segment_gauges_true (mkWriterState (es_world s) (engine_writer (es_engine s))).
Definition node_gauges_true (s : EngineState) : Prop :=
  meter node_gauges s =
    (active_node_count (engine_registry (es_engine s)), removed_node_count (engine_registry (es_engine s)),
     index_len (engine_index (es_engine s))).

(** Programs of the engine. *)
Lemma meter_es_on_writer {T A} (π : StorageMetrics → T) (m : M WriterState A) :
  quiet (meter π) m → quiet (meter π) (es_on_writer m).
Proof using Type. apply quiet_zoom. intros t s Ht. exact Ht. Qed.
Lemma meter_count {T} (π : StorageMetrics → T) f : (∀ m, π (f m) = π m) → quiet (meter π) (count f).
Proof using Type. intros Hf. by apply meter_es_on_world, meter_w_count. Qed.
Lemma meter_set_registry {T} (π : StorageMetrics → T) r : quiet (meter π) (set_registry r).
Proof using Type. unfold set_registry. solve_quiet. Qed.
Lemma meter_set_index {T} (π : StorageMetrics → T) x : quiet (meter π) (set_index x).
Proof using Type. unfold set_index. solve_quiet. Qed.
Lemma meter_get_engine {T} (π : StorageMetrics → T) : quiet (meter π) get_engine.
Proof using Type. unfold get_engine. solve_quiet. Qed.
#[local] Hint Resolve meter_es_on_world meter_es_on_writer meter_set_registry meter_set_index meter_get_engine
  meter_index_save meter_registry_save meter_writer_sync : quiet.

(** Garbage collection, for an observation that does not see the files, nor
    what garbage collection counts. *)
Section gc.
Context {T : Type} (o : EngineState → T).
Hypothesis o_files : ∀ w s, w_metrics w = w_metrics (es_world s) → o (mkEngineState w (es_engine s)) = o s.
Hypothesis o_gc : ∀ fs m e n,
  o (mkEngineState (mkWorld fs (gc_ran m)) e) = o (mkEngineState (mkWorld fs m) e) ∧
  o (mkEngineState (mkWorld fs (gc_deleted_segments n m)) e) = o (mkEngineState (mkWorld fs m) e).

Lemma quiet_files {A} (m : M World A) : quiet (meter id) m → quiet o (es_on_world m).
Proof using o_files. apply quiet_zoom. intros w s Hw. by apply o_files. Qed.

Lemma quiet_delete_segments barrier active segments n : quiet o (delete_segments barrier active segments n).
Proof using o_files.
  pose proof (λ A op, quiet_files (A:=A) (w_call op) (meter_w_call id op)).
  revert n. induction segments as [|p segments IH]; intros n; cbn [delete_segments]; [solve_quiet|].
  repeat (case_match; [apply IH|]). solve_quiet.
Qed.

Lemma quiet_collect_garbage : quiet o collect_garbage.
Proof using o_files o_gc.
  pose proof (λ A op, quiet_files (A:=A) (w_call op) (meter_w_call id op)).
  pose proof (quiet_files _ (meter_discover id)). pose proof quiet_delete_segments.
  assert (quiet o (count gc_ran)).
  { apply quiet_modify. intros [[fs m] e]. apply (o_gc fs m e 0). }
  assert (∀ n, quiet o (count (gc_deleted_segments n))).
  { intros n. apply quiet_modify. intros [[fs m] e]. apply (o_gc fs m e n). }
  assert (quiet o get_engine) by (unfold get_engine; solve_quiet).
  unfold collect_garbage. solve_quiet.
Qed.
End gc.

Lemma meter_collect_garbage {T} (π : StorageMetrics → T) `{!Steady π} : quiet (meter π) collect_garbage.
Proof using Type.
  apply quiet_collect_garbage; [intros w s Hw; unfold meter; cbn; by rewrite Hw|].
  intros fs m e n. split; [exact (steady_gc_ran m)|exact (steady_gc_deleted n m)].
Qed.
#[local] Hint Resolve meter_collect_garbage : quiet.

(** ** The gauges *)

(** What the gauges of the tables and the tables say. *)
Definition tables_view (s : EngineState) :=
  (meter node_gauges s, engine_registry (es_engine s), engine_index (es_engine s)).

Lemma view_keeps_nodes {A} (m : M EngineState A) : quiet tables_view m → keeps node_gauges_true m.
Proof using Type.
  intros Hm s Hs. specialize (Hm _ s eq_refl). destruct (m s) as [r s']. unfold node_gauges_true, tables_view in *.
  congruence.
Qed.

Lemma view_es_on_world {A} (m : M World A) : quiet (meter node_gauges) m → quiet tables_view (es_on_world m).
Proof using Type. apply quiet_zoom. intros w s Hw. unfold tables_view, meter in *. cbn in *. by rewrite Hw. Qed.
Lemma view_es_on_writer {A} (m : M WriterState A) : quiet (meter node_gauges) m → quiet tables_view (es_on_writer m).
Proof using Type. apply quiet_zoom. intros w s Hw. unfold tables_view, meter in *. cbn in *. by rewrite Hw. Qed.
Lemma view_count f : (∀ m, node_gauges (f m) = node_gauges m) → quiet tables_view (count f).
Proof using Type. intros Hf. by apply view_es_on_world, meter_w_count. Qed.
Lemma view_get_engine : quiet tables_view get_engine.
Proof using Type. unfold get_engine. solve_quiet. Qed.
Lemma view_append n r : quiet tables_view (es_on_writer (writer_append n r)).
Proof using Type. apply view_es_on_writer, append_node_gauges. Qed.
Lemma view_sync : quiet tables_view (es_on_writer writer_sync).
Proof using Type. apply view_es_on_writer. solve_quiet. Qed.
#[local] Hint Resolve view_es_on_world view_get_engine view_append view_sync : quiet.
#[local] Hint Extern 1 (quiet tables_view (count _)) => (apply view_count; reflexivity) : quiet.

Lemma view_ensure n k : quiet tables_view (engine_ensure_node_exists n k).
Proof using Type. unfold engine_ensure_node_exists. solve_quiet. Qed.

Lemma view_collect_garbage : quiet tables_view collect_garbage.
Proof using Type.
  apply quiet_collect_garbage; [|by intros]. intros w s Hw. unfold tables_view, meter. cbn. by rewrite Hw.
Qed.
#[local] Hint Resolve view_ensure view_collect_garbage : quiet.

(** The gauges are made true when the tables were changed. *)
Lemma keeps_create n md : keeps node_gauges_true (create_node n md).
Proof using Type.
  unfold create_node. apply keeps_bind; [apply view_keeps_nodes; solve_quiet|]. intros e.
  destruct (registry_create_node _ _ _) as [[a|err] reg]; [|by intros s Hs].
  do 3 (apply keeps_bind; [apply view_keeps_nodes; solve_quiet|]; intros ?).
  apply keeps_bind; [apply view_keeps_nodes; solve_quiet|]. intros e'. cbv zeta.
  do 2 (apply keeps_bind; [apply view_keeps_nodes; solve_quiet|]; intros ?).
  by intros s _.
Qed.

Lemma keeps_snapshot n c : keeps node_gauges_true (save_snapshot n c).
Proof using Type.
  unfold save_snapshot. do 4 (apply keeps_bind; [apply view_keeps_nodes; solve_quiet|]; intros ?).
  apply keeps_bind; [apply view_keeps_nodes; solve_quiet|]. intros e. cbv zeta.
  apply keeps_bind; [apply view_keeps_nodes; solve_quiet|]. intros [].
  eapply (hoare_bind _ _ (λ _ s, ∃ x, node_gauges_true (mkEngineState (es_world s)
    (mkStorageEngine (write_lock (es_engine s)) (engine_registry (es_engine s)) x (engine_writer (es_engine s)))))).
  { intros s Hs. exists (engine_index (es_engine s)). exact Hs. }
  intros []. eapply (hoare_bind _ _ (λ _, node_gauges_true)).
  { intros [[fs m] e'] [x Hs]. injection Hs as Ha Hr _. rewrite refresh_index_run. unfold node_gauges_true, meter, node_gauges.
    cbn in *. by rewrite Ha, Hr. }
  intros []. apply keeps_bind; [apply view_keeps_nodes; solve_quiet|]. intros [].
  by apply view_keeps_nodes, view_count.
Qed.

(** A removal that fails half way leaves the gauges of the tables behind. *)
Lemma removed_gauges n : hoare (λ _, True) (remove_node n) (λ r s, is_ok r = true → node_gauges_true s).
Proof using Type.
  assert (Hb : ∀ A B (m : M EngineState A) (f : A → M EngineState B),
    (∀ a, hoare (λ _, True) (f a) (λ r s, is_ok r = true → node_gauges_true s)) →
    hoare (λ _, True) (m ≫= f) (λ r s, is_ok r = true → node_gauges_true s)).
  { intros A B m f Hf. eapply (hoare_bind _ _ (λ _ _, True)); [|exact Hf]. intros s _. by destruct (m s) as [[]]. }
  unfold remove_node. apply Hb. intros []. apply Hb. intros e.
  destruct (registry_remove_node _ _) as [[a|err] reg]; [|by intros s _].
  do 3 (apply Hb; intros []). apply Hb. intros e'. cbv zeta. do 3 (apply Hb; intros []).
  by intros s _ _.
Qed.


(** Removals, which may leave the gauges of the tables behind when they fail. *)
Definition removal (op : Op) : bool := match op with OpRemove _ => true | _ => false end.

Lemma exec_node_gauges op s :
  node_gauges_true s → wp (exec op) s (λ r s', is_ok r = true ∨ removal op = false → node_gauges_true s').
Proof using Type.
  intros Hs. assert (Hk : ∀ A (m : M EngineState A) (f : A → Reply), keeps node_gauges_true m →
    wp (a ← m; mret (f a)) s (λ _ s', node_gauges_true s')).
  { intros A m f Hm. specialize (Hm s Hs). unfold wp, mbind, M_bind. by destruct (m s) as [[a|e] s']. }
  assert (Hq : ∀ A (m : M EngineState A), quiet tables_view m → keeps node_gauges_true m).
  { intros A m. apply view_keeps_nodes. }
  assert (Hsave : ∀ n r k, keeps node_gauges_true (save_record n r k)).
  { intros n r k. apply Hq. unfold save_record. solve_quiet. }
  destruct op; cbn [exec removal].
  all: try (eapply wp_mono; [by apply (Hk _ _ (λ _, Done))|by intros]).
  - eapply wp_mono; [by apply (Hk _ _ (λ _, Done)), keeps_create|by intros].
  - eapply wp_mono; [apply (Hk _ _ (λ _, Done)), Hsave|by intros].
  - eapply wp_mono; [apply (Hk _ _ (λ _, Done)), Hsave|by intros].
  - eapply wp_mono; [apply (Hk _ _ (λ _, Done)), Hsave|by intros].
  - eapply wp_mono; [apply (Hk _ _ (λ _, Done)), keeps_snapshot|by intros].
  - pose proof (removed_gauges n s I) as H. unfold wp, mbind, M_bind.
    destruct (remove_node n s) as [[[]|e] s']; cbn; [intros _; by apply H|by intros [?|?]].
  - eapply wp_mono; [apply (Hk _ _ (λ _, Done)), Hq|by intros]. unfold engine_sync.
    apply quiet_bind; [by apply view_count|]. solve_quiet.
  - eapply wp_mono; [apply (Hk _ _ LoadedNode), Hq|by intros]. unfold engine_load. solve_quiet.
  - eapply wp_mono; [apply (Hk _ _ LoadedNodes), Hq|by intros]. unfold engine_load_all.
    apply quiet_bind; [solve_quiet|]. intros e. cbv zeta. case_match; [solve_quiet|]. solve_quiet.
Qed.

(** *** The writer's gauges *)

Definition segment_view (s : EngineState) := (meter segment_gauges s, engine_writer (es_engine s)).

Lemma view_keeps_segments {A} (m : M EngineState A) : quiet segment_view m → keeps writer_gauges_true m.
Proof using Type.
  intros Hm s Hs. specialize (Hm _ s eq_refl). destruct (m s) as [r s'].
  unfold writer_gauges_true, segment_gauges_true, segment_view, meter in *. cbn in *. congruence.
Qed.

Lemma seg_es_on_world {A} (m : M World A) : quiet (meter segment_gauges) m → quiet segment_view (es_on_world m).
Proof using Type. apply quiet_zoom. intros w s Hw. unfold segment_view, meter in *. cbn in *. by rewrite Hw. Qed.
Lemma seg_count f : (∀ m, segment_gauges (f m) = segment_gauges m) → quiet segment_view (count f).
Proof using Type. intros Hf. by apply seg_es_on_world, meter_w_count. Qed.
Lemma seg_get_engine : quiet segment_view get_engine.
Proof using Type. unfold get_engine. solve_quiet. Qed.
Lemma seg_set_registry r : quiet segment_view (set_registry r).
Proof using Type. by apply quiet_modify. Qed.
Lemma seg_set_index x : quiet segment_view (set_index x).
Proof using Type. by apply quiet_modify. Qed.
Lemma seg_collect_garbage : quiet segment_view collect_garbage.
Proof using Type.
  apply quiet_collect_garbage; [|by intros]. intros w s Hw. unfold segment_view, meter. cbn. by rewrite Hw.
Qed.
#[local] Hint Resolve seg_es_on_world seg_get_engine seg_set_registry seg_set_index seg_collect_garbage : quiet.
#[local] Hint Extern 1 (quiet segment_view (count _)) => (apply seg_count; reflexivity) : quiet.

Lemma seg_ensure n k : quiet segment_view (engine_ensure_node_exists n k).
Proof using Type. unfold engine_ensure_node_exists. solve_quiet. Qed.
#[local] Hint Resolve seg_ensure : quiet.

Lemma keeps_es_on_writer {A} (m : M WriterState A) :
  keeps segment_gauges_true m → keeps writer_gauges_true (es_on_writer m).
Proof using Type.
  intros Hm s Hs. specialize (Hm _ Hs). unfold es_on_writer, zoom. by destruct (m _) as [r [w writer]].
Qed.

Create HintDb gauges.
#[local] Hint Resolve keeps_es_on_writer keeps_append keeps_writer_sync : gauges.
#[local] Hint Extern 1 (keeps _ _) => (apply view_keeps_segments; solve [eauto 30 with quiet]) : gauges.
#[local] Hint Extern 5 (keeps _ (_ ≫= _)) => (apply keeps_bind; [|intros ?]) : gauges.
#[local] Hint Extern 6 (keeps _ (let _ := _ in _)) => cbv zeta : gauges.
#[local] Hint Extern 6 (keeps _ (match ?x with _ => _ end)) => destruct x : gauges.

Lemma exec_writer_gauges op : keeps writer_gauges_true (exec op).
Proof using Type.
  destruct op; cbn [exec].
  - unfold create_node, refresh_registry_metrics, refresh_checkpoint_index_metrics. eauto 30 with gauges.
  - unfold save_current_term, save_record. eauto 30 with gauges.
  - unfold save_voted_for, save_record. eauto 30 with gauges.
  - unfold append_entries, save_record. eauto 30 with gauges.
  - unfold save_snapshot, refresh_checkpoint_index_metrics. eauto 30 with gauges.
  - unfold remove_node, refresh_registry_metrics, refresh_checkpoint_index_metrics. eauto 30 with gauges.
  - unfold engine_sync. eauto 30 with gauges.
  - unfold engine_load. eauto 30 with gauges.
  - unfold engine_load_all. eauto 30 with gauges.
Qed.

(** ** Opening *)

Lemma writer_open_gauges active max_len w sw w' :
  segment_writer_open active max_len w = (Ok sw, w') →
  w_metrics w' = segment_opened (segment_id (active_segment sw)) (segment_len sw) (w_metrics w).
Proof using Type.
  intros H. unfold segment_writer_open in H. apply bind_ok_inv in H as (existed & w1 & H1 & H).
  apply bind_ok_inv in H as (file & w2 & H2 & H). apply bind_ok_inv in H as ([] & w3 & H3 & H).
  apply bind_ok_inv in H as (r & w4 & H4 & H). apply bind_ok_inv in H as ([] & w5 & [= <-] & [= <- <-]).
  pose proof (quiet_at (meter id) _ _ _ _ (meter_w_call id _) H1) as E1.
  pose proof (quiet_at (meter id) _ _ _ _ (meter_open_active id _) H2) as E2.
  assert (Hp : quiet (meter id) (if negb existed then sync_parent_dir else mret ())) by solve_quiet.
  pose proof (quiet_at (meter id) _ _ _ _ Hp H3) as E3.
  assert (Hk : quiet (meter id) (with_file_kept file file_seek_end)) by (unfold with_file_kept; solve_quiet).
  pose proof (quiet_at (meter id) _ _ _ _ Hk H4) as E4. unfold meter, id in *. cbn in *. by rewrite E4, E3, E2, E1.
Qed.

Lemma open_gauges max_len w e w' :
  with_max_segment_len max_len w = (Ok e, w') →
  same (w_metrics w') metrics_default ∧ node_gauges_true (mkEngineState w' e) ∧ writer_gauges_true (mkEngineState w' e).
Proof using Type.
  unfold with_max_segment_len. destruct (_ =? 0); [done|].
  intros ([] & w1 & _ & H)%bind_ok_inv. apply bind_ok_inv in H as (lock & w2 & _ & H).
  unfold release_on_error in H. match type of H with (match ?x with _ => _ end) = _ => destruct x as [[e0|?] w3] eqn:E end; [|done].
  injection H as -> ->. apply bind_ok_inv in E as (active & w3 & _ & H).
  apply bind_ok_inv in H as ([] & w4 & [= <-] & H). apply bind_ok_inv in H as ([] & w5 & H5 & H).
  apply bind_ok_inv in H as (reg & w6 & H6 & H). apply bind_ok_inv in H as (x & w7 & H7 & H).
  apply bind_ok_inv in H as ([] & w8 & [= <-] & H). apply bind_ok_inv in H as ([] & w9 & [= <-] & H).
  apply bind_ok_inv in H as (sw & w10 & Hw%writer_open_gauges & [= <- <-]).
  pose proof (quiet_at (meter ledger) _ _ _ _ (meter_recover ledger _) H5) as E5.
  pose proof (quiet_at (meter ledger) _ _ _ _ (meter_registry_load ledger) H6) as E6.
  pose proof (quiet_at (meter ledger) _ _ _ _ (meter_index_load ledger reg) H7) as E7. unfold meter in *. cbn in E5, E6, E7.
  unfold same, node_gauges_true, writer_gauges_true, segment_gauges_true, meter, node_gauges, segment_gauges. cbn.
  rewrite Hw. split; [|done]. cbn. rewrite <-E5, <-E6, <-E7. done.
Qed.

(** There is no lock without a directory. *)
Lemma locked_root w lock w' : acquire_write_lock w = (Ok lock, w') → fs_root (w_fs w') = RootDir.
Proof using Type.
  intros Hlock. pose proof (tidies_write_lock (placed (place (w_fs w))) w eq_refl) as Hk. rewrite Hlock in Hk.
  injection Hk as Hk _ _. cbn [files_of World_files] in Hk. rewrite Hk. destruct (fs_root (w_fs w)) eqn:E; [| |done]; exfalso; revert Hlock;
    unfold acquire_write_lock, mbind at 1, M_bind at 1, w_call, zoom, fs_open;
    (match goal with |- context [call ?op ?fs] => destruct (call_cases op fs) as (f & [Hc|Hc]) end); rewrite Hc; try done;
    unfold in_dir, mbind, M_bind, get_state; cbn [fs_root set_faults]; by rewrite E.
Qed.

Lemma open_root max_len w e w' :
  with_max_segment_len max_len w = (Ok e, w') → fs_root (w_fs w') = RootDir.
Proof using Type.
  unfold with_max_segment_len. destruct (_ =? 0); [done|].
  intros ([] & w1 & _ & H)%bind_ok_inv. apply bind_ok_inv in H as (lock & w2 & Hlock & H).
  assert (Hr : fs_root (w_fs w2) = RootDir) by by eapply locked_root.
  pose proof (tidies_opening (placed (place (w_fs w2))) lock max_len w2 eq_refl) as Hk. rewrite H in Hk.
  injection Hk as Hk _ _. cbn [files_of World_files] in Hk. by rewrite Hk.
Qed.

(** ** A run of operations *)

(** Operations one after the other, with the state before each of them, its
    reply, and the state after it. *)
Fixpoint exec_trace (ops : list Op) (s : EngineState) : list (EngineState * Op * result Reply * EngineState) * EngineState :=
  match ops with
  | [] => ([], s)
  | op :: ops =>
      let '(r, s1) := exec op s in
      let '(tr, s2) := exec_trace ops s1 in
      ((s, op, r, s1) :: tr, s2)
  end.

(** The events of a run are those of its operations. *)
Inductive accounted : list (EngineState * Op * result Reply * EngineState) → list Event → Prop :=
  | accounted_nil : accounted [] []
  | accounted_cons s op r s1 tr ev evs :
      accounts op s r s1 ev → accounted tr evs → accounted ((s, op, r, s1) :: tr) (ev ++ evs).

Lemma exec_trace_counted ops s :
  fs_root (w_fs (es_world s)) = RootDir →
  let '(tr, s') := exec_trace ops s in
  ∃ evs, accounted tr evs ∧ same (engine_metrics s') (posts evs (engine_metrics s)).
Proof using Type.
  revert s. induction ops as [|op ops IH]; intros s Hr; cbn [exec_trace]; [exists []; by split; [apply accounted_nil|]|].
  pose proof (exec_counted op s Hr) as Hc. pose proof (tidies_exec (placed (place (w_fs (es_world s)))) op s eq_refl) as Hp.
  destruct (exec op s) as [r s1]. destruct Hc as (ev & Hm & Ha). injection Hp as Hp _ _. cbn in Hp, Hm.
  specialize (IH s1 (eq_trans Hp Hr)). destruct (exec_trace ops s1) as [tr s2]. destruct IH as (evs & Htr & Hs).
  exists (ev ++ evs). split; [by constructor|]. rewrite posts_app, Hs. by rewrite Hm.
Qed.

Lemma meter_access {T A} (π : StorageMetrics → T) n k (body : M EngineState A) :
  (∀ o e m, π (rejected_operation o e m) = π m) → quiet (meter π) body →
  quiet (meter π) (engine_ensure_node_exists n k ;; body).
Proof using Type.
  intros Hrej Hb. apply quiet_bind; [|done]. unfold engine_ensure_node_exists. apply quiet_bind; [solve_quiet|]. intros e.
  repeat case_match; [solve_quiet|..]; (apply quiet_bind; [by apply meter_count|solve_quiet]).
Qed.

(** Only loading counts replayed records. *)
Lemma exec_replay_counters op : loads op = false → quiet (meter replay_counters) (exec op).
Proof using Type.
  intros Hl. assert (Happ : ∀ n r, quiet (meter replay_counters) (es_on_writer (writer_append n r))).
  { intros n r. by apply meter_es_on_writer, meter_append. }
  assert (Hc : ∀ f, (∀ m, replay_counters (f m) = replay_counters m) → quiet (meter replay_counters) (count f))
    by by intros f Hf; apply meter_count.
  assert (Hr1 : quiet (meter replay_counters) refresh_registry_metrics)
    by (unfold refresh_registry_metrics; apply quiet_bind; [solve_quiet|]; intros e; by apply Hc).
  assert (Hr2 : quiet (meter replay_counters) refresh_checkpoint_index_metrics)
    by (unfold refresh_checkpoint_index_metrics; apply quiet_bind; [solve_quiet|]; intros e; by apply Hc).
  pose proof (Hc node_created (λ _, eq_refl)). pose proof (Hc node_removed (λ _, eq_refl)).
  pose proof (Hc snapshot_checkpoint_saved (λ _, eq_refl)). pose proof (Hc sync_requested (λ _, eq_refl)).
  destruct op; cbn [exec] in *; try done; (apply quiet_bind; [|intros ?; apply quiet_ret]).
  - unfold create_node. solve_quiet.
  - apply meter_access; [done|]. solve_quiet.
  - apply meter_access; [done|]. solve_quiet.
  - apply meter_access; [done|]. solve_quiet.
  - apply meter_access; [done|]. solve_quiet.
  - apply meter_access; [done|]. solve_quiet.
  - unfold engine_sync. solve_quiet.
Qed.

Abbreviation step := (EngineState * Op * result Reply * EngineState)%type.
Definition replay_step (st : step) : Prop :=
  let '(s, op, _, s1) := st in
  loads op = false → replay_counters (engine_metrics s1) = replay_counters (engine_metrics s).
Definition removal_step (st : step) : Prop :=
  let '(_, op, r, _) := st in removal op = true → is_ok r = true.

Lemma exec_trace_gauges ops s :
  let '(tr, s') := exec_trace ops s in
  Forall replay_step tr ∧ (writer_gauges_true s → writer_gauges_true s') ∧
  (node_gauges_true s → Forall removal_step tr → node_gauges_true s').
Proof using Type.
  revert s. induction ops as [|op ops IH]; intros s; cbn [exec_trace]; [split; [constructor|done]|].
  pose proof (exec_writer_gauges op s) as Hw. pose proof (exec_node_gauges op s) as Hn.
  assert (Hp : replay_step (s, op, (exec op s).1, (exec op s).2)).
  { intros Hl. pose proof (exec_replay_counters op Hl _ s eq_refl) as H. by destruct (exec op s). }
  unfold wp in Hn. destruct (exec op s) as [r s1]. cbn [fst snd] in Hn, Hp. specialize (IH s1).
  destruct (exec_trace ops s1) as [tr s2]. destruct IH as (IHr & IHw & IHn).
  split; [by constructor|]. split; [by intros H; apply IHw, Hw|].
  intros H HF. apply Forall_cons_1 in HF as [Hr Htr]. apply IHn; [|done]. apply Hn; [done|]. cbn in Hr.
  destruct (removal op); [left; by apply Hr|by right].
Qed.

End engine.

(** ** An example *)

Section example.
#[local] Existing Instance ListLog.instance.

Definition example_run : list Op :=
  [OpCreateNode 7 example_metadata; OpSaveTerm 7 3; OpSaveTerm 8 3; OpRemove 7; OpLoadNode 7; OpSync].

(** Opening the directory of an engine that was stopped. *)
Definition opened_from (r : result StorageEngine * World) : EngineState :=
  match r with (Ok e, w) => mkEngineState w e | (Err _, w) => mkEngineState w (es_engine fresh_state) end.

End example.
