(* ===== verification/OpenTheorems.v ===== *)
(** * Properties of opening and of the metadata files *)
From Stdlib Require Import Strings.Byte Strings.String.
From S2P Require Import Prelude Metrics Fs Text Json Noraft State Crc32c Codec Format Frame.
From S2P Require Import Segment Replay Registry Checkpoint Engine Recovery RecoveryCorrect.
From S2P Require Import ReplayCorrect WriterCorrect MetadataCorrect MetadataFaults EngineCorrect.
From S2P Require Import NodeCorrect LoadCorrect OpenCorrect JsonExample EngineExample.
From S2P Require Import ReplayTheorems.

Lemma node_status_trim `{NL : NojsonLaws} r n :
  match node_status r n, node_status (trim_registry r) n with
  | Active md, Active md' => startup md' = startup md ∧ metadata md' = json_trim (metadata md)
  | Unknown, Unknown | Removed, Removed => True
  | _, _ => False
  end.
Proof.
  unfold node_status, trim_registry. cbn [registry_nodes]. rewrite lookup_fmap.
  by destruct (registry_nodes r !! n) as [[md []]|].
Qed.

Section properties.
Context `{NJL : NojsonLaws} `{NL : NoraftLaws}.

(** [C4] Opening recovers the directory.  If every segment but the last holds
    complete records, the last one possibly ends in the middle of a frame or of
    its header, and the metadata files are missing or were saved, then opening
    succeeds with the registry and the index of the files; the engine
    implements the log of all complete records, so each active node loads as
    the replay of its records since its last checkpoint. *)
Theorem open_recovers_directory fs m max_len active segs d bodies nlog reg x :
  max_len ≠ 0 → fs_locks fs = ∅ → stored fs active segs d bodies nlog reg x →
  let '(r, w) := with_max_segment_len max_len (mkWorld fs m) in
  ∃ e, r = Ok e ∧ engine_ok (mkEngineState w e) nlog ∧
    engine_registry e = reg ∧ engine_index e = x ∧
    active_segment (engine_writer e) = active ∧ max_segment_len (engine_writer e) = max_len ∧
    ∀ n, is_active reg n = true →
      (engine_load n (mkEngineState w e)).1 = replayed (node_view n nlog).
Proof.
  intros Hmax Hlk Hst.
  destruct (with_max_segment_len_run fs m max_len active segs d bodies nlog reg x Hmax Hlk Hst)
    as (fs' & m' & e & -> & Hok & Hreg & Hx & Hact & Hml & _).
  exists e. repeat (split; [done|]). intros n Hn. rewrite <-Hreg in Hn.
  by destruct (engine_load_run fs' m' e nlog n Hok Hn) as [m'' ->].
Qed.

(** [C34] One writer at a time: while another handle holds the lock of
    [write.lock], opening the directory fails with [WouldBlock] and changes
    nothing. *)
Theorem write_lock_excludes fs m max_len i :
  no_faults fs → fs_root fs = RootDir → max_len ≠ 0 →
  fs_entries fs !! WRITE_LOCK_FILE_NAME = Some (EntryFile i) → i ∈ fs_locks fs →
  let '(r, w) := with_max_segment_len max_len (mkWorld fs m) in
  r = Err (IoError WouldBlock (Message "storage directory is already open for writing")) ∧
  w = mkWorld fs m.
Proof.
  intros Hnf Hr Hmax He Hi. unfold with_max_segment_len. rewrite (proj2 (N.eqb_neq _ _) Hmax).
  assert (Hcreate : create_dir_all_synced (mkWorld fs m) = (Ok (), mkWorld fs m)).
  { unfold create_dir_all_synced, root_exists, create_dir_all, w_call, zoom, mbind, M_bind. cbn [w_fs].
    rewrite take_fault_none by done. unfold get_state, mret, M_ret. rewrite Hr. cbn [w_fs].
    rewrite call_none by done. unfold mbind, M_bind, get_state. by rewrite Hr. }
  rewrite (bind_ok _ _ _ _ _ Hcreate).
  assert (Hlock : acquire_write_lock (mkWorld fs m) =
    (Err (IoError WouldBlock (Message "storage directory is already open for writing")), mkWorld fs m)).
  { unfold acquire_write_lock. rewrite (bind_ok _ _ _ (mkFile i 0 true false) (mkWorld fs m)).
    2:{ unfold w_call, zoom. cbn [w_fs]. unfold fs_open. rewrite call_none by done.
        unfold in_dir, mbind, M_bind, get_state. by rewrite Hr, He. }
    rewrite (bind_ok _ _ _ (Err (os_error WouldBlock)) (mkWorld fs m)).
    2:{ unfold try_catch, w_call, zoom, fs_try_lock. cbn [w_fs]. rewrite call_none by done.
        unfold mbind, M_bind, get_state. cbn [file_inode]. by rewrite bool_decide_eq_true_2. }
    done. }
  by rewrite (bind_err _ _ _ _ _ Hlock).
Qed.

(** [C33] The registry survives a restart: loading the file that a save wrote
    gives every node ID the status it had, and active nodes their startup flag
    and their metadata up to surrounding white space. *)
Theorem registry_survives_restart fs m r n :
  no_faults fs → fs_root fs = RootDir → map_Forall (λ n _, n < U64_LIMIT) (registry_nodes r) →
  file_text fs NODE_REGISTRY_FILE_NAME = Some (format_node_registry r) →
  let '(res, w) := registry_load (mkWorld fs m) in
  w = mkWorld fs m ∧
  ∃ r', res = Ok r' ∧
    match node_status r n, node_status r' n with
    | Active md, Active md' => startup md' = startup md ∧ metadata md' = json_trim (metadata md)
    | Unknown, Unknown | Removed, Removed => True
    | _, _ => False
    end.
Proof.
  intros Hnf Hr Hb Ht. rewrite (registry_load_run fs m r Hnf Hr Hb Ht). split; [done|].
  exists (trim_registry r). split; [done|]. apply node_status_trim.
Qed.

(** The checkpoint index survives a restart: loading the file that a save
    wrote gives the positions of the active nodes and of no others, provided
    they are positions of checkpoints of these nodes in the segments. *)
Theorem index_survives_restart fs m segs nlog reg x n :
  clean_dir fs segs → log_decodes (log_of segs) nlog → index_fit x →
  (∀ n p, is_active reg n = true → checkpoint_position x n = Some p → hint_ok n (Some p) nlog) →
  file_text fs CHECKPOINT_INDEX_FILE_NAME = Some (format_checkpoint_index x) →
  let '(res, w) := index_load reg (mkWorld fs m) in
  w = mkWorld fs m ∧
  ∃ x', res = Ok x' ∧
    checkpoint_position x' n = if is_active reg n then checkpoint_position x n else None.
Proof.
  intros Hc Hd Hb Hx Ht.
  assert (Hpos : ∀ n, checkpoint_position (retain_active reg x) n =
                      if is_active reg n then checkpoint_position x n else None).
  { intros n'. unfold checkpoint_position, retain_active. cbn [index_nodes]. rewrite map_lookup_filter.
    destruct (index_nodes x !! n') as [e|]; cbn; [|by destruct (is_active reg n')].
    by destruct (is_active reg n'). }
  rewrite (index_load_run fs m segs nlog reg x (clean_dir_held _ _ Hc) Hd Hb); [|intros n' p Hp|done].
  - split; [done|]. exists (retain_active reg x). split; [done|apply Hpos].
  - rewrite Hpos in Hp. destruct (is_active reg n') eqn:E; [|done]. by apply Hx.
Qed.
End properties.

(** ** Witnesses *)

Section witnesses.
#[local] Existing Instance ListLog.instance.
#[local] Existing Instance ListLog.laws.

(** A directory whose only segment was cut inside its header. *)
Definition cut_fs : Fs := torn_fs [Byte.x53; Byte.x4b].

Lemma cut_entries name :
  fs_entries cut_fs !! name = if decide (name = "append-0.segment"%string) then Some (EntryFile 1) else None.
Proof. cbn. case_decide; [subst; apply lookup_singleton_eq|by rewrite lookup_singleton_ne]. Qed.

Lemma cut_stored : stored cut_fs first_append [] (Some [Byte.x53; Byte.x4b]) [] [] registry_default index_default.
Proof.
  split; try done.
  - by left.
  - split.
    + intros a b i. rewrite !cut_entries. by repeat case_decide; intros; simplify_eq.
    + intros a i. rewrite cut_entries. case_decide; [by intros [= <-]|done].
  - intros name _. unfold not_other. rewrite (cut_entries name). by case_decide.
  - apply (some_segments cut_fs first_append [] [] 1); [reflexivity|constructor|done|apply torn_file|by left].
  - constructor.
  - by left.
  - by left.
Qed.

Lemma open_recovers_directory_witness :
  let '(r, w) := with_max_segment_len 1000 (mkWorld cut_fs metrics_default) in
  ∃ e, r = Ok e ∧ engine_ok (mkEngineState w e) [] ∧ engine_registry e = registry_default.
Proof.
  pose proof (open_recovers_directory cut_fs metrics_default 1000 first_append [] _ [] [] registry_default
    index_default ltac:(discriminate) eq_refl cut_stored) as H.
  destruct (with_max_segment_len 1000 _) as [r w]. destruct H as (e & H1 & H2 & H3 & _).
  exists e. split; [exact H1|]. split; [exact H2|exact H3].
Defined.

Lemma write_lock_excludes_witness :
  let '(r, w) := with_max_segment_len 1000 fresh_world in
  is_ok r = false ∧ w = fresh_world.
Proof.
  pose proof (write_lock_excludes fresh_fs metrics_default 1000 0 eq_refl eq_refl ltac:(discriminate)
    eq_refl (elem_of_singleton_2 0 0 eq_refl)) as H.
  change (mkWorld fresh_fs metrics_default) with fresh_world in H.
  destruct (with_max_segment_len 1000 fresh_world) as [r w]. destruct H as [H1 H2].
  split; [rewrite H1; reflexivity|exact H2].
Defined.

(** A directory with a saved registry and a saved index. *)
Definition example_registry : NodeRegistry :=
  mkNodeRegistry (<[7 := mkNodeRegistryEntry example_metadata false]>
                  (<[8 := mkNodeRegistryEntry example_metadata true]> ∅)).

Definition saved_registry_fs : Fs :=
  saved_fs NODE_REGISTRY_TMP_FILE_NAME NODE_REGISTRY_FILE_NAME (format_node_registry example_registry) fresh_fs.

Lemma saved_file_text fs tmp path text :
  fs_wf fs → not_other fs tmp → tmp ≠ path → file_text (saved_fs tmp path text fs) path = Some text.
Proof.
  intros Hwf Ht Hne. destruct (saved_fs_spec fs tmp path text Hwf Ht Hne) as (_ & _ & _ & He & Hd & _).
  unfold file_text. rewrite He, lookup_insert_eq. by rewrite Hd.
Qed.

Lemma registry_survives_restart_witness :
  let '(res, w) := registry_load (mkWorld saved_registry_fs metrics_default) in
  w = mkWorld saved_registry_fs metrics_default ∧ ∃ r', res = Ok r' ∧ node_status r' 8 = Removed.
Proof.
  assert (Ht : file_text saved_registry_fs NODE_REGISTRY_FILE_NAME = Some (format_node_registry example_registry)).
  { apply saved_file_text; [exact fresh_wf|discriminate|discriminate]. }
  assert (Hb : map_Forall (λ n _, n < U64_LIMIT) (registry_nodes example_registry)).
  { apply map_Forall_insert_2; [reflexivity|]. apply map_Forall_insert_2; [reflexivity|apply map_Forall_empty]. }
  pose proof (registry_survives_restart saved_registry_fs metrics_default example_registry 8 eq_refl eq_refl Hb Ht) as H.
  destruct (registry_load _) as [res w]. destruct H as (H1 & r' & H2 & H3). split; [exact H1|].
  exists r'. split; [exact H2|].
  assert (Hst : node_status example_registry 8 = Removed) by reflexivity. rewrite Hst in H3.
  destruct (node_status r' 8); [contradiction|contradiction|reflexivity].
Defined.

Definition saved_index_fs : Fs :=
  saved_fs CHECKPOINT_INDEX_TMP_FILE_NAME CHECKPOINT_INDEX_FILE_NAME (format_checkpoint_index index_default) fresh_fs.

Lemma index_survives_restart_witness :
  let '(res, w) := index_load registry_default (mkWorld saved_index_fs metrics_default) in
  w = mkWorld saved_index_fs metrics_default ∧ ∃ x', res = Ok x' ∧ checkpoint_position x' 7 = None.
Proof.
  assert (Ht : file_text saved_index_fs CHECKPOINT_INDEX_FILE_NAME = Some (format_checkpoint_index index_default)).
  { apply saved_file_text; [exact fresh_wf|discriminate|discriminate]. }
  assert (Hc : clean_dir saved_index_fs [(first_append, [])]).
  { eapply same_segments_clean; [|exact fresh_clean].
    apply saved_fs_segments; [exact fresh_wf|discriminate|discriminate|reflexivity|reflexivity]. }
  pose proof (index_survives_restart saved_index_fs metrics_default [(first_append, [])] [] registry_default
    index_default 7 Hc (Forall2_nil _) (map_Forall_empty _) ltac:(discriminate) Ht) as H.
  destruct (index_load _ _) as [res w]. destruct H as (H1 & x' & H2 & H3). split; [exact H1|].
  exists x'. split; [exact H2|exact H3].
Defined.
End witnesses.
