(* ===== verification/Findings.v ===== *)
(** * What the code does not guarantee

    What a restart leaves unsynced ([sync_skips_what_a_process_left]), and runs
    of the model to states that the documentation warns of or does not mention. *)
From Stdlib Require Import Strings.Byte Strings.String.
From S2P Require Import Prelude Metrics Fs Text Json Noraft State Crc32c Codec Frame Segment.
From S2P Require Import Replay Registry Engine Faults Reads JsonExample EngineExample ReplayTheorems Durability DurableWriter.
From S2P Require Import Surface Meters Interrupted Accounting.

(** ** What a process left behind *)

Lemma crash_clear fs fs1 fs' : clear fs1 = clear fs → crash fs1 fs' ↔ crash fs fs'.
Proof. intros H. change (crash (clear fs1) fs' ↔ crash (clear fs) fs'). by rewrite H. Qed.

(** Every version of the directory is what some crash leaves. *)
Definition crashed_to (entries : gmap string DirEntry) (fs : Fs) : Fs :=
  mkFs (fs_root fs) (fs_has_parent fs) (fs_root_synced fs) entries []
    ((λ i, mkInode (i_data i) []) <$> fs_inodes fs) (fs_next_inode fs) ∅ [].

Lemma crashed_to_crash entries fs : entries ∈ dir_versions fs → crash fs (crashed_to entries fs).
Proof.
  intros He. split; [done|]. split; [exact He|]. split; [done|]. split; [|done]. intros j.
  assert (E : inode_of j (crashed_to entries fs) = mkInode (data_of j fs) []).
  { unfold data_of, inode_of, crashed_to. cbn. rewrite lookup_fmap. by destruct (fs_inodes fs !! j). }
  unfold data_of at 2. rewrite E. split; [apply crash_versions_current|done].
Qed.

(** Opening a file that is there. *)
Lemma open_file_there name o i fs f fs' :
  fs_entries fs !! name = Some (EntryFile i) → opt_truncate o = false → opt_create_new o = false →
  fs_open name o fs = (Ok f, fs') → clear fs' = clear fs ∧ file_inode f = i.
Proof.
  intros Hi Ht Hn. unfold fs_open. match goal with |- context [call ?op] => set (prog := op) end.
  destruct (call_cases prog fs) as (g & [E|E]); rewrite E; [done|]. unfold prog, in_dir, mbind, M_bind, get_state.
  destruct (fs_root _); [done|done|]. change (fs_entries (set_faults g fs)) with (fs_entries fs). rewrite Hi, Ht, Hn.
  by intros [= <- <-].
Qed.

(** A segment with a header does not get one. *)
Lemma header_there f i w r w' :
  file_inode f = i → data_of i (w_fs w) ≠ [] →
  with_file_kept f (len ← file_len; if len =? 0 then file_write_all SEGMENT_FORMAT_MAGIC else mret ()) w = (Ok r, w') →
  clear (w_fs w') = clear (w_fs w).
Proof.
  intros <- Hd. unfold with_file_kept, with_file, file_len, mbind, M_bind.
  destruct (io_skip_cases (w_fs w) (w_metrics w) f) as (g & [->| ->]); [done|]. cbn.
  unfold io_data. cbn. change (data_of (file_inode f) (set_faults g (w_fs w))) with (data_of (file_inode f) (w_fs w)).
  destruct (N.eqb_spec (lenN (data_of (file_inode f) (w_fs w))) 0) as [E|_].
  - destruct (data_of _ _); [done|]. rewrite lenN_cons in E. lia.
  - by intros [= <- <-].
Qed.

(** Opening a writer on a segment that is there reads it. *)
Lemma open_existing fs m active max_len i w w1 :
  (fs_exists (file_name active) fs).1 = Ok true → fs_entries fs !! file_name active = Some (EntryFile i) →
  data_of i fs ≠ [] → segment_writer_open active max_len (mkWorld fs m) = (Ok w, w1) →
  clear (w_fs w1) = clear fs ∧ pending_view (w_metrics w1) = pending_view m ∧ active_segment w = active.
Proof.
  intros Hex Hi Hd H. pose proof (writer_open_gauges _ _ _ _ _ H) as Hm. unfold segment_writer_open in H.
  apply bind_ok_inv in H as (existed & w2 & H1 & H).
  pose proof (quiet_at fs_of_world _ _ _ _ (quiet_world _ (quiet_exists (file_name active))) H1) as V1.
  assert (existed = true) as ->.
  { unfold w_call, zoom in H1. cbn [w_fs] in H1. destruct (fs_exists _ fs) as [r f]. cbn in Hex. subst r. by injection H1 as <-. }
  apply bind_ok_inv in H as (file & w3 & H2 & H). apply bind_ok_inv in H as ([] & w4 & [= <-] & H).
  apply bind_ok_inv in H as (r & w4 & H4 & H). apply bind_ok_inv in H as ([] & w5 & [= <-] & [= <- <-]).
  split; [|by rewrite Hm]. change (clear (w_fs w4) = clear fs).
  assert (V4 : fs_of_world w4 = fs_of_world w3).
  { refine (quiet_at fs_of_world _ _ _ _ _ H4). unfold with_file_kept. apply quiet_with_file. unfold file_seek_end.
    apply quiet_io. solve_quiet. }
  etrans; [exact V4|]. etrans; [|exact V1]. unfold open_active_segment_file in H2.
  apply bind_ok_inv in H2 as (f0 & w5 & Hopen & H2). apply bind_ok_inv in H2 as (r2 & w6 & Hlen & [= _ <-]).
  destruct w2 as [fs2 m2]. change (clear fs2 = clear fs) in V1. unfold w_call, zoom in Hopen. cbn [w_fs w_metrics] in Hopen.
  destruct (fs_open (file_name active) open_active_options fs2) as [ro fs5] eqn:Eo. injection Hopen as -> <-.
  assert (Hi2 : fs_entries fs2 !! file_name active = Some (EntryFile i)).
  { change (fs_entries (clear fs2) !! file_name active = Some (EntryFile i)). by rewrite V1. }
  apply (open_file_there _ _ i) in Eo as [V5 Hf0]; [|done..]. etrans; [|exact V5].
  eapply (header_there f0 i (mkWorld fs5 m2)); [done| |exact Hlen]. cbn [w_fs].
  change (data_of i (clear fs5) ≠ []). by rewrite V5, V1.
Qed.

(** *** Versions of the directory *)

(** The versions [V] may still be what a crash leaves. *)
Definition may_return (V : list (gmap string DirEntry)) (fs : Fs) : Prop := V ⊆ dir_versions fs.

Lemma may_return_update V e fs : may_return V fs → may_return V (update_entries e fs).
Proof. intros H x Hx. right. by apply H. Qed.

Definition io_versions (io : Io) := dir_versions (io_fs io).
Definition w_versions (w : World) := dir_versions (w_fs w).

Lemma versions_take_fault : quiet dir_versions take_fault.
Proof. intros c fs <-. unfold take_fault. by destruct (fs_faults fs). Qed.
Lemma versions_write_all b : quiet io_versions (file_write_all b).
Proof.
  unfold file_write_all. apply quiet_bind; [eapply quiet_zoom; [|apply versions_take_fault]; done|]. intros o.
  apply quiet_bind; [apply quiet_get|]. intros io. cbv zeta. solve_quiet.
Qed.
Lemma versions_file_sync : quiet io_versions file_sync.
Proof.
  unfold file_sync. apply quiet_bind; [|intros []; solve_quiet]. eapply quiet_zoom; [done|]. 
  unfold call. apply quiet_bind; [apply versions_take_fault|]. intros [k|]; solve_quiet.
Qed.
Lemma versions_kept {A} f (m : M Io A) : quiet io_versions m → quiet w_versions (with_file_kept f m).
Proof.
  intros Hm c w <-. unfold with_file_kept, with_file.
  assert (Hq : quiet io_versions (a ← m; io ← get_state; mret (a, io_file io))) by (apply quiet_bind; [done|]; intros a; solve_quiet).
  specialize (Hq _ (mkIo (w_fs w) (w_metrics w) f) eq_refl).
  match type of Hq with (let '(_, _) := ?x in _) => destruct x as [r io] end. exact Hq.
Qed.

(** The segment of the writer, and the versions of the directory. *)
Definition writer_versions (ws : WriterState) := (active_segment (ws_writer ws), dir_versions (w_fs (ws_world ws))).

Lemma versions_on_writer_file {A} (m : M Io A) : quiet io_versions m → quiet writer_versions (on_writer_file m).
Proof.
  intros Hm c ws <-. unfold on_writer_file, get_writer, set_writer, modify, get_state, mbind, M_bind, mret, M_ret, on_world, zoom.
  pose proof (versions_kept (writer_file (ws_writer ws)) m Hm _ (ws_world ws) eq_refl) as H.
  destruct (with_file_kept _ m (ws_world ws)) as [[[a f]|e] w]; unfold writer_versions, w_versions in *; cbn; by rewrite H.
Qed.

(** The writer is at segment [id] or after it, and as long as it has not moved
    on, the versions [V] may return. *)
Definition held_back (V : list (gmap string DirEntry)) (id : N) (ws : WriterState) : Prop :=
  id < segment_id (active_segment (ws_writer ws)) ∨
  id = segment_id (active_segment (ws_writer ws)) ∧ may_return V (w_fs (ws_world ws)).

Section held_back.
Context (V : list (gmap string DirEntry)) (id : N).

Lemma quiet_held_back {A} (m : M WriterState A) : quiet writer_versions m → keeps (held_back V id) m.
Proof.
  intros Hm ws Hws. specialize (Hm _ ws eq_refl). destruct (m ws) as [r ws'].
  apply pair_equal_spec in Hm as [Ha Hv]. unfold held_back, may_return in *. by rewrite Ha, Hv.
Qed.

Lemma create_may_return name : keeps (λ w, may_return V (w_fs w)) (create_active_segment_file name).
Proof.
  unfold create_active_segment_file. apply keeps_bind.
  - intros [fs m] Hw. unfold w_call, zoom, fs_open. cbn [w_fs] in *.
    match goal with |- context [call ?op] => set (prog := op) end.
    destruct (call_cases prog fs) as (f & [E|E]); rewrite E; [exact Hw|]. unfold prog, in_dir, mbind, M_bind, get_state.
    destruct (fs_root _); [exact Hw|exact Hw|]. destruct (fs_entries _ !! name) as [e|]; [exact Hw|].
    cbn [opt_create_new opt_create create_active_options orb]. exact (may_return_update V _ fs Hw).
  - intros f. apply keeps_bind; [|intros r w Hw; exact Hw]. intros w Hw.
    pose proof (versions_kept f _ (versions_write_all SEGMENT_FORMAT_MAGIC) _ w eq_refl) as H.
    destruct (with_file_kept f _ w) as [r w']. unfold may_return, w_versions in *. by rewrite H.
Qed.

Lemma sync_dir_failed fs e fs' : fs_sync_dir fs = (Err e, fs') → dir_versions fs' = dir_versions fs.
Proof.
  unfold fs_sync_dir. destruct (call_cases (in_dir (mret ())) fs) as (f & [H|H]).
  - rewrite (bind_err _ _ _ _ _ H). by intros [= _ <-].
  - assert (Hin : in_dir (mret ()) (set_faults f fs) = (Ok (), set_faults f fs) ∨
      ∃ e', in_dir (mret ()) (set_faults f fs) = (Err e' : result (), set_faults f fs)).
    { unfold in_dir, mbind, M_bind, get_state. destruct (fs_root _); [right|right|left]; by try eexists. }
    destruct Hin as [Hin|[e' Hin]]; rewrite Hin in H; [|rewrite (bind_err _ _ _ _ _ H); by intros [= _ <-]].
    rewrite (bind_ok _ _ _ _ _ H). destruct (call_cases (modify sync_entries) (set_faults f fs)) as (g & [->| ->]);
      [by intros [= _ <-]|done].
Qed.

Lemma rotate_held_back : keeps (held_back V id) writer_rotate.
Proof.
  unfold writer_rotate. apply keeps_bind.
  { apply quiet_held_back. unfold sync_current_segment. apply quiet_bind; [apply versions_on_writer_file, versions_file_sync|].
    intros []. by apply quiet_modify. }
  intros [] ws Hws. rewrite (bind_ok get_writer _ ws (ws_writer ws) ws) by done. unfold mbind at 1, M_bind at 1, lift_result.
  unfold next_append, segment_id_next, u64_checked_add. destruct (_ <? U64_LIMIT); [|exact Hws].
  set (next := mkSegmentName _). unfold mbind at 1, M_bind at 1, on_world, zoom.
  pose proof (create_may_return (file_name next) (ws_world ws)) as Hc.
  destruct (create_active_segment_file _ (ws_world ws)) as [[file|e] w1].
  2:{ destruct Hws as [?|[Hid Hv]]; [by left|right]. split; [exact Hid|exact (Hc Hv)]. }
  unfold mbind at 1, M_bind at 1, on_world, zoom, sync_parent_dir, w_call, zoom. cbn [ws_world].
  destruct (fs_sync_dir (w_fs w1)) as [[[]|e] fs2] eqn:Es.
  - left. cbn. unfold held_back in Hws. lia.
  - destruct Hws as [?|[Hid Hv]]; [by left|right]. split; [exact Hid|]. cbn. unfold may_return.
    rewrite (sync_dir_failed _ _ _ Es). exact (Hc Hv).
Qed.

Context `{NR : Noraft}.

Lemma append_held_back n r : keeps (held_back V id) (writer_append n r).
Proof.
  unfold writer_append. apply keeps_bind; [by intros ws Hws|]. intros frame.
  destruct (u64_try_from _) as [bytes|]; [|by intros ws Hws].
  apply keeps_bind; [by intros ws Hws|]. intros w.
  apply keeps_bind; [destruct (should_rotate _ _); [apply rotate_held_back|by intros ws Hws]|]. intros _.
  apply keeps_bind; [by intros ws Hws|]. intros w'. cbv zeta.
  apply keeps_bind; [apply quiet_held_back, versions_on_writer_file, versions_write_all|]. intros _.
  destruct (u64_checked_add _ _) as [len|]; [|by intros ws Hws]. intros ws Hws. exact Hws.
Qed.

Lemma sync_held_back : keeps (held_back V id) writer_sync.
Proof.
  unfold writer_sync. apply keeps_bind; [by intros ws Hws|]. intros ws. cbv zeta.
  destruct (_ || _); [|by intros ws' Hws']. apply quiet_held_back. unfold sync_current_segment.
  apply quiet_bind; [apply versions_on_writer_file, versions_file_sync|]. intros []. by apply quiet_modify.
Qed.
End held_back.

(** Appends one after the other, whether they fail or not. *)
Definition append_records `{Noraft} (records : list (N * SegmentRecord)) : M WriterState () :=
  for_each records (λ p, try_catch (writer_append p.1 p.2) ;; mret ()).

Lemma append_records_held_back `{Noraft} V id records : keeps (held_back V id) (append_records records).
Proof.
  apply keeps_for_each. intros [n r]. apply keeps_bind; [|by intros a ws Hws].
  apply hoare_try_catch. apply append_held_back.
Qed.

(** [C37] A restart does not make durable what the process before it left.
    A writer is opened on a segment that is there (with its header) by a process
    that has written nothing yet.  Then its [sync] succeeds and does nothing: a
    crash of the system may leave exactly what it could leave before the segment
    was opened, so that records which the earlier process wrote without a sync,
    and which loading returns, may be lost.  And after any number of appends that
    stay in that segment, and a sync, whatever calls fail, every version of the
    directory that a crash could leave before may still be left; so if the
    earlier process died before it synced the name of the segment, the segment
    may be lost with the records that were synced in it. *)
Theorem sync_skips_what_a_process_left `{Noraft} fs m active max_len i w w1 :
  (fs_exists (file_name active) fs).1 = Ok true → fs_entries fs !! file_name active = Some (EntryFile i) →
  data_of i fs ≠ [] → unsynced_records m = 0 → unsynced_bytes m = 0 →
  segment_writer_open active max_len (mkWorld fs m) = (Ok w, w1) →
  writer_sync (mkWriterState w1 w) = (Ok (), mkWriterState w1 w) ∧
  (∀ fs', crash (w_fs w1) fs' ↔ crash fs fs') ∧
  ∀ records, let '(_, ws) := (append_records records ;; writer_sync) (mkWriterState w1 w) in
    active_segment (ws_writer ws) = active →
    ∀ entries, entries ∈ dir_versions fs → ∃ fs', crash (w_fs (ws_world ws)) fs' ∧ fs_entries fs' = entries.
Proof.
  intros Hex Hi Hd Hur Hub Hopen. destruct (open_existing _ _ _ _ _ _ _ Hex Hi Hd Hopen) as (Hc & Hp & Ha).
  split; [|split; [intros fs'; by apply crash_clear|]].
  - apply pair_equal_spec in Hp as [Hp1 Hp2]. unfold writer_sync.
    set (ws := mkWriterState w1 w). rewrite (bind_ok get_state _ ws ws ws) by done. cbv zeta. cbn [ws ws_world].
    by rewrite Hp1, Hp2, Hur, Hub.
  - intros records. assert (Hk : keeps (held_back (dir_versions fs) (segment_id active)) (append_records records ;; writer_sync)).
    { apply keeps_bind; [apply append_records_held_back|]. intros []. apply sync_held_back. }
    assert (Hstart : held_back (dir_versions fs) (segment_id active) (mkWriterState w1 w)).
    { right. cbn. rewrite Ha. split; [done|]. change (dir_versions fs ⊆ dir_versions (clear (w_fs w1))). by rewrite Hc. }
    specialize (Hk _ Hstart). destruct ((append_records records ;; writer_sync) (mkWriterState w1 w)) as [r ws]. intros Hact entries He.
    destruct Hk as [Hlt|[_ Hv]]; [rewrite Hact in Hlt; lia|].
    exists (crashed_to entries (w_fs (ws_world ws))). split; [|done]. by apply crashed_to_crash, Hv.
Qed.

(** ** A restart in the middle of a rotation *)

#[local] Existing Instance ListLog.instance.

(** A process that creates the next segment and dies before it syncs the
    directory; the next process opens that segment, saves a record and syncs. *)
Definition interrupted_rotation : result () * WriterState :=
  writer_rotate (mkWriterState (mkWorld (set_faults (replicate 4 None ++ [Some 0]) fresh_fs) metrics_default) fresh_writer).
Definition reopened_segment : result SegmentWriter * World :=
  segment_writer_open (mkSegmentName 1) 1000 (mkWorld (w_fs (ws_world interrupted_rotation.2)) metrics_default).
Definition rotation_fs : Fs := w_fs (ws_world interrupted_rotation.2).
Definition resumed : result () * WriterState :=
  match reopened_segment with
  | (Ok writer, w) => (append_records [(7, RecordCurrentTerm 3)] ;; writer_sync) (mkWriterState w writer)
  | (Err e, w) => (Err e, mkWriterState w fresh_writer)
  end.

(** The record is written and synced, and a crash may take the segment. *)
Lemma sync_skips_what_a_process_left_witness :
  is_ok interrupted_rotation.1 = false ∧ resumed.1 = Ok () ∧
  segment_len (ws_writer resumed.2) = 4 + 8 + 17 ∧
  ∃ fs', crash (w_fs (ws_world resumed.2)) fs' ∧ fs_entries fs' !! "append-1.segment"%string = None.
Proof.
  split; [vm_compute; reflexivity|]. split; [vm_compute; reflexivity|]. split; [vm_compute; reflexivity|].
  assert (Hok : is_ok reopened_segment.1 = true) by (vm_compute; reflexivity).
  assert (Hact : active_segment (ws_writer resumed.2) = mkSegmentName 1) by (vm_compute; reflexivity).
  assert (Hver : existsb (λ entries, negb (bool_decide (is_Some (entries !! "append-1.segment"%string))))
                (dir_versions rotation_fs) = true) by (vm_compute; reflexivity).
  apply existsb_exists in Hver as (entries & Hin & Hn). apply list_elem_of_In in Hin.
  apply negb_true_iff, bool_decide_eq_false, eq_None_not_Some in Hn.
  assert (Hex : (fs_exists (file_name (mkSegmentName 1)) rotation_fs).1 = Ok true) by (vm_compute; reflexivity).
  assert (Hi : fs_entries rotation_fs !! file_name (mkSegmentName 1) = Some (EntryFile 2)) by (vm_compute; reflexivity).
  assert (Hd : data_of 2 rotation_fs ≠ []) by (intros E; apply (f_equal (λ l, lenN l)) in E; vm_compute in E; discriminate E).
  unfold resumed in *. destruct reopened_segment as [[w|e] w1] eqn:E; [|discriminate Hok].
  destruct (sync_skips_what_a_process_left rotation_fs metrics_default (mkSegmentName 1) 1000 2 w w1
    Hex Hi Hd eq_refl eq_refl E) as (_ & _ & H). specialize (H [(7, RecordCurrentTerm 3)]).
  destruct ((append_records _ ;; writer_sync) (mkWriterState w1 w)) as [r ws].
  destruct (H Hact entries Hin) as (fs' & Hc & <-). exists fs'. split; [exact Hc|exact Hn].
Defined.

(** ** Other runs *)

(** A failed write is not undone: why the documentation makes write errors fatal
    to an engine.  If the write of a record fails after part of it (here: five
    bytes), the next record is written behind the torn bytes; [append] and [sync]
    report success, but the segment can no longer be scanned. *)
Example failed_write_corrupts_segment :
  let start := mkWriterState (mkWorld (set_faults [Some 5] fresh_fs) metrics_default) fresh_writer in
  let '(first, ws1) := writer_append 7 (RecordCurrentTerm 3) start in
  let '(second, ws2) := writer_append 7 (RecordCurrentTerm 4) ws1 in
  let '(synced, ws3) := writer_sync ws2 in
  is_ok first = false ∧ is_ok second = true ∧ is_ok synced = true ∧
  (recover_storage_dir first_append (ws_world ws3)).1 =
    Err (invalid_data "segment record checksum mismatch").
Proof. vm_compute. repeat split. Qed.

(** A storage directory whose path has no parent component ("data") is created
    without syncing its name anywhere, so a crash may lose it with everything
    that was synced in it. *)
Theorem relative_directory_not_synced :
  let missing := mkFs RootMissing false true ∅ [] ∅ 0 ∅ [] in
  let '(r, w) := create_dir_all_synced (mkWorld missing metrics_default) in
  is_ok r = true ∧ fs_root (w_fs w) = RootDir ∧ fs_root_synced (w_fs w) = false.
Proof. by vm_compute. Qed.

(** An engine with one node, where the save of the index will fail. *)
Definition before_removal : EngineState :=
  let s := (create_node 7 example_metadata fresh_state).2 in
  mkEngineState (mkWorld (set_faults (replicate 6 None ++ [Some 0]) (w_fs (es_world s))) (engine_metrics s))
                (es_engine s).
Definition after_removal : EngineState := (remove_node 7 before_removal).2.

(** A removal whose second table cannot be saved fails, but it has removed the
    node: the registry has no active node any more, which the gauge still counts,
    and the counter of removed nodes does not count it. *)
Theorem failed_removal_not_counted :
  is_ok (remove_node 7 before_removal).1 = false ∧ is_removed (engine_registry (es_engine after_removal)) 7 = true ∧
  active_nodes (engine_metrics after_removal) = 1 ∧ active_node_count (engine_registry (es_engine after_removal)) = 0 ∧
  nodes_removed (engine_metrics after_removal) = 0.
Proof. split_and!; vm_compute; reflexivity. Qed.
